(* ===== verification/_CoqProject ===== *)
-Q . S2P
Prelude.v
JsNumber.v
UtilsCli.v
ExampleScripts.v
Acceptors.v
Dict.v
LatinRules.v
ThaiRules.v
PathInfoBuilder.v
WordcutCore.v
Wordcut.v
WordcutOptimal.v
NodePath.v
TinyTables.v
TinySegmenter.v
UnderscoreArrays.v
UnderscoreSeq.v
UnderscoreFunctions.v
UnderscoreText.v
UnderscoreTemplate.v
JsHeap.v
IsEqual.v
DeepEqual.v
JsObject.v
UnderscoreObjects.v
UnderscoreCollections.v
CollectionProps.v
ObjectProps.v
UnderscoreChain.v
UnderscoreUtility.v
UnderscoreWrapped.v
Assert.v
Inherits.v
Util.v
UtilProps.v
Events.v
ProcessTick.v
Inflight.v
BraceExpansion.v
Regex.v
Minimatch.v
MinimatchProps.v
GlobSync.v
GlobProps.v
GlobTheorems.v
GlobEntry.v
AsyncGlob.v
AsyncExamples.v
AsyncSearch.v
AsyncItems.v
AsyncSteps.v
AsyncProps.v
AsyncTheorem.v
RustLang.v
EthAbi.v
EthAbiProps.v
TransactionPauser.v
ChainUtils.v
QuantumPortalPallet.v
ChainQueries.v
ContractClient.v
SendProps.v
QuantumPortalClient.v
QuantumPortalProps.v
QuantumPortalService.v
ServiceProps.v
BalancesErc20.v
Erc20Props.v
PortalPrecompile.v
InkContracts.v
