(* ===== verification/Prelude.v ===== *)
(** * ferrum-x-network, verified

    The repository is a Substrate node in Rust, whose own logic is the quantum
    portal (a pallet and an off-chain worker that mine and finalize blocks
    between chains), a pallet that pauses transactions, precompiles that
    open both to the EVM, and a library for the ABI of contracts; with
    JavaScript around it: the command line of src/utils that derives EVM addresses and the storage slots
    of ERC-20 balances, the example scripts of src/examples that deploy
    contracts and transfer tokens, and the word segmentation that the search of
    the documentation site uses (src/docs/site/assets/javascripts/lunr):
    tinyseg.js for Japanese and wordcut.js for Thai.  wordcut.js is a bundle of
    29 modules, the segmenter and the libraries it was built with.  This
    library models both and proves what they promise.

    ** Parts and files

    - Command line (index.js, erc20-slot.js, evm-address.js of src/utils):
      [UtilsCli].  The scripts are functions from argument vectors to exit codes
      and output.
    - Example scripts (src/examples): [ExampleScripts].  Scripts are
      computations over a history of requests to the node.
    - The Thai segmenter (wordcut.js, modules 1-8): [Acceptors] (recognisers run
      in parallel), [Dict] (the sorted dictionary and its binary searches),
      [LatinRules], [ThaiRules], [PathInfoBuilder] (candidates, the in-place
      merge marks, the choice among them), [WordcutCore] (buildPath,
      pathToRanges, cut), [Wordcut] (init, and the theorems on the whole),
      [WordcutOptimal] (no cut has fewer pieces).
    - The Japanese segmenter (tinyseg.js): [TinyTables], [TinySegmenter].
    - assert (module 9): [Assert].  balanced-match, brace-expansion, concat-map
      (10, 11, 13): [BraceExpansion].  events (14): [Events].
    - glob (15-17): [GlobSync] models the common part and the synchronous walk
      with its caches, [GlobProps] relates the walk with caches to one without,
      [GlobTheorems] states what is found, [GlobEntry] has the entry and its
      warning.  [AsyncGlob] models the asynchronous
      walk as a machine: a stack of tasks, requests that are answered in any
      order, callbacks joined by inflight, commands of listeners and of the
      user; [AsyncExamples] has runs of it, [AsyncSearch] what the walk without
      caches has to find and to do, [AsyncItems] the work that a state has
      left, [AsyncSteps] and [AsyncProps] that each step does a part of it,
      and [AsyncTheorem] that it ends with what [GlobSync] returns.
    - inherits (19): [Inherits], over objects of its own whose properties have
      attributes.
    - inflight, once, wrappy (18, 21, 29): [Inflight].  process (24):
      [ProcessTick].  path, path-is-absolute (22, 23): [NodePath].
    - minimatch (20): [Regex] is the part of the language's regular expressions
      it needs, [Minimatch] the module, [MinimatchProps] its theorems.
    - underscore (25): [UnderscoreArrays], [UnderscoreSeq] (arrays),
      [UnderscoreFunctions] (throttle, debounce, memoize, ...),
      [UnderscoreText] (escape, template), [UnderscoreTemplate] (compiled
      templates, run), [IsEqual] with [DeepEqual] (deep equality by rules of its
      own); [UnderscoreObjects] and
      [UnderscoreCollections] over the objects of [JsObject], with
      [CollectionProps] and [ObjectProps]; [UnderscoreUtility] (result,
      ids); [UnderscoreChain] and [UnderscoreWrapped] (wrapped objects and
      their array methods).
    - util (28): [Util], [UtilProps].
    - [Prelude] (this file), [JsNumber], [JsHeap] and [JsObject] are the
      language: strings of 16-bit code units, integers as doubles round them,
      numbers, object graphs, objects with prototypes.  [RustLang] is the part of Rust that is needed: outcomes that
      are a value, an error or a panic, integers of a width, bytes, UTF-8.
    - ethabi-nostd (src/libraries): [EthAbi] models types, tokens, encoder and
      decoder, [EthAbiProps] has the round trip.
    - The quantum portal (src/pallets/quantum-portal): [QuantumPortalPallet]
      (the calls of lib.rs over the storage of finalizers and signatures),
      [ChainUtils] (hexadecimal text, JSON, signatures), [ChainQueries] (the
      world of the off-chain worker, its monad, requests), [ContractClient]
      with [SendProps], [QuantumPortalClient] (reading blocks, mining, finalizing; also
      qp_types.rs and eip_712_utils.rs), [QuantumPortalService] (the lock,
      pending transactions, rounds, the worker), with the theorems in
      [QuantumPortalProps] and [ServiceProps].
    - The transaction pauser (src/pallets/transaction-pauser) and the filter of
      the runtime: [TransactionPauser].
    - The precompiles (src/precompiles): [BalancesErc20] with [Erc20Props],
      and [PortalPrecompile].  The ink contracts (src/contracts): [InkContracts].

    The parts meet as in the bundle: [Wordcut] runs [WordcutCore] on
    [PathInfoBuilder] on [Acceptors] with the creators of [Dict],
    [LatinRules] and [ThaiRules]; [GlobSync] uses [Minimatch] and
    [NodePath], [Minimatch] uses [BraceExpansion] and [Regex]; [Inflight]
    relies on the queue of [ProcessTick]; the collections of underscore take
    [sort] through the class [Sorting], arrays their elements through
    [Element] and [Ordered].  In the portal, [QuantumPortalService] uses a
    client through the class [Portal], which [QuantumPortalClient] meets;
    that uses [ContractClient] on [ChainQueries] on [ChainUtils], decodes
    with [EthAbi] and reads the storage of [QuantumPortalPallet].  Other
    crates are the class [Crates], the host of the worker the class [Host],
    the balances pallet and the EVM the classes [Balances] (with the law that a
    transfer debits its origin only) and [Evm].

    ** How code is modelled

    Pure functions are functions.  State is passed explicitly, in a record or a
    store per module, through a small monad with exceptions where the code
    throws ([Events], [GlobSync], [JsObject], [ExampleScripts]).  Code of
    the user - listeners, callbacks, iteratees - is a parameter that may call
    back into the module or change the store.  What the host decides - timers,
    answers of a node, a file system, a sorting algorithm - is a parameter or a
    step of a relation ([ProcessTick], [Inflight], [AsyncGlob]).  Objects are shared by
    location where sharing shows: listener arrays, deep comparison, wrapped
    objects, path entries.

    Recursion that is not structural takes fuel.  Where the code always ends,
    a theorem says how much fuel is enough: the length of the text or of the
    array for the loops of [Dict], [WordcutCore], [NodePath],
    [UnderscoreArrays]; the length of the pattern for [BraceExpansion]; the
    depth of the tree and the length of the pattern for [GlobSync]; the number
    of objects for the nesting of calls in [IsEqual] and [Util]; the depth of the graph for [Assert].
    Where it does not end, a theorem says so: sequences with step zero or with
    bounds beyond 2^53, deep comparison of cycles in assert, chaining twice,
    objects whose inspect method returns the object.  Listeners may emit without
    end; what is proved of [Events] holds of the state at any fuel.  The asynchronous walk has
    no fuel: it is a relation, and a bound on its steps is proved.  Integers are
    rounded as doubles where the code may leave the range in which these are
    exact (the sequences of [BraceExpansion], random numbers in
    [UnderscoreSeq]) and unbounded where it computes with lengths and
    positions, which stay below 2^53; [JsHeap] has no fractions.  The Rust
    code needs no fuel; its integers are kept at their width and wrap, saturate
    or panic as the code has it, and a panic leaves what was written before.

    ** What is proved

    - Segmentation: the ranges of a cut tile the text for every dictionary and
      text; the path for a text made of known pieces has no unknown ones, and
      as few pieces as there can be, and so has the cut where no parts are
      merged; the dictionary acceptors that end at a
      position are exactly the words that end there.  TinySegmenter follows its scores.
    - Patterns and files: brace expansion is the product of the alternatives,
      and ends but for endless sequences; minimatch decides the reference
      relation of patterns and paths.  On a file system that can be read, and
      with options that the theorems name, the synchronous glob finds what the
      walk without caches finds, and only names that match unless a pattern
      ends in [**]; the asynchronous glob for one relative pattern, in whatever
      order the file system answers, ends and reports once what the synchronous
      one returns.  Examples show what happens without
      some of the conditions.
    - Concurrency: every tick runs once and in order in every interleaving, and
      runs eventually; inflight calls no callback twice, and loses none if none
      throws; listeners are called in order, once-listeners at most once.
    - underscore: deep equality ends and is sound, and without cycles is decided
      as its rules say;
      throttled functions keep the rate, debounced ones fire at the ends of
      bursts, memoized ones run once; shuffles are fair; binary searches agree
      with linear ones; collections are lists; objects merge, invert, split;
      ids are unique; mutators of wrapped arrays work in place.  Both
      implementations of inherits link the same prototypes.
    - Printing: inspect ends on every graph whose inspect methods return strings,
      prints strings as literals with
      their value, and lays out with colours as without; escaping loses
      nothing, and the code of a template gives what the template says.
    - The portal: encoding and decoding, of ABI values and of hexadecimal text,
      are inverse to each other; the books of the pallet over any history; the
      lock and the remembered transactions of the service; the comparison of
      blocks; that a transaction sent is the one signed; and that no round gets as
      far as sending one as the code stands.
    - Pausing: the filter is the last accepted call on a name, and never catches
      the pauser's own calls.
    - Tokens: allowances are what the successful calls make of them and bound
      what spenders move; the balance of an account that approved nobody
      shrinks only by its own calls; permits are used once.
    - Scripts: the exact outcome of the command line for every argument vector; the
      order of the transactions that a script sends, whatever the node answers.
    - Findings: examples and theorems that show where the code departs from its
      comments or from what it means to do.

    ** What is not modelled

    More than one asynchronous [Glob] at a time; the extension of
    [Function.prototype] by once; empty stubs and the type test of buffers; of
    underscore bindAll, delay, isFinite, statements in templates and what only
    old engines run; debug output.  web3, polkadot-js and the hash functions
    are not in the repository and are parameters.  Of the Rust code: the
    assembly of the runtime, the service and command line of the node and the
    primitives, which only wire libraries together; code generated by macros,
    such as the dispatch of calls and selectors; weights, tests, and a
    function of the service that nothing calls.  The minified bundles of
    third parties are outside of this library.

    ** This file

    The shared prelude: JavaScript strings, arrays and the common lemmas. *)

From stdpp Require Export base tactics gmap strings sorting numbers.
From stdpp Require Export list.

(** ** JavaScript strings

    A JavaScript string is a sequence of 16-bit code units; a code unit is an
    [N].  ASCII literals of the source are written with [lit]. *)

Abbreviation jsstr := (list N).

Declare Scope js_scope.
Delimit Scope js_scope with js.
Open Scope N_scope.
Open Scope nat_scope.

Fixpoint lit (s : string) : jsstr :=
  match s with
  | EmptyString => []
  | String c s' => Ascii.N_of_ascii c :: lit s'
  end.

Notation "'«' s '»'" := (lit s%string) (at level 0, s constr at level 200, format "'«' s '»'") : js_scope.
Open Scope js_scope.

(** [a <= c <= b], the test of a regular-expression class range. *)
Definition in_range (a b c : N) : bool := (a <=? c)%N && (c <=? b)%N.

(** [s.charAt(i)]: the empty string when [i] is out of range. *)
Definition charAt (s : jsstr) (i : nat) : jsstr :=
  match s !! i with Some c => [c] | None => [] end.

(** [s.substring(i)] and [s.substring(i, j)] for [i <= j]. *)
Definition substring_from (s : jsstr) (i : nat) : jsstr := drop i s.
Definition substring (s : jsstr) (i j : nat) : jsstr := take (j - i) (drop i s).

(** [s.padStart(n, c)] with a one-unit filler [c]. *)
Definition padStart (n : nat) (c : N) (s : jsstr) : jsstr :=
  replicate (n - length s) c ++ s.

(** [xs.join(sep)]. *)
Fixpoint join (sep : jsstr) (xs : list jsstr) : jsstr :=
  match xs with
  | [] => []
  | [x] => x
  | x :: xs' => x ++ sep ++ join sep xs'
  end.

(** [s.split(c)] for a one-unit separator. *)
Fixpoint split_on (c : N) (s : jsstr) : list jsstr :=
  match s with
  | [] => [[]]
  | d :: s' =>
      if decide (d = c) then [] :: split_on c s'
      else match split_on c s' with
           | [] => [[d]]
           | p :: ps => (d :: p) :: ps
           end
  end.

(** ** Lemmas on these operations *)

Lemma padStart_length n c s : length (padStart n c s) = Nat.max n (length s).
Proof. unfold padStart. rewrite length_app, length_replicate. lia. Qed.

Lemma padStart_long n c s : n <= length s -> padStart n c s = s.
Proof. intros H. unfold padStart. by replace (n - length s) with 0 by lia. Qed.

Lemma split_on_nonempty c s : split_on c s <> [].
Proof. destruct s as [|d s]; simpl; [done|]. case_decide; [done|]. by destruct (split_on c s). Qed.

Lemma join_cons sep x y ys : join sep (x :: y :: ys) = x ++ sep ++ join sep (y :: ys).
Proof. done. Qed.

(** Splitting at a separator and joining with it gives the string back. *)
Lemma join_split_on c s : join [c] (split_on c s) = s.
Proof.
  induction s as [|d s IH]; [done|]. simpl.
  pose proof (split_on_nonempty c s) as Hne.
  destruct (split_on c s) as [|p ps] eqn:E; [done|].
  destruct (decide (d = c)) as [->|Hd].
  - rewrite join_cons, IH. done.
  - destruct ps as [|q qs]; simpl in *; by rewrite IH.
Qed.

Lemma split_on_no_sep c s : c ∉ s -> split_on c s = [s].
Proof.
  induction s as [|d s IH]; intros H; [done|]. simpl.
  rewrite decide_False by set_solver. by rewrite IH by set_solver.
Qed.

Lemma split_on_app_sep c s t : c ∉ s -> split_on c (s ++ c :: t) = s :: split_on c t.
Proof.
  induction s as [|d s IH]; intros H; simpl; [by rewrite decide_True|].
  rewrite decide_False by set_solver. by rewrite IH by set_solver.
Qed.

(** Joining separator-free parts and splitting again gives the parts back. *)
Lemma split_on_join c xs :
  xs <> [] -> Forall (fun x => c ∉ x) xs -> split_on c (join [c] xs) = xs.
Proof.
  intros Hne Hall. induction Hall as [|x xs Hx Hxs IH]; [done|].
  destruct xs as [|y ys]; [by apply split_on_no_sep|].
  rewrite join_cons. cbn [app]. rewrite split_on_app_sep by done. f_equal. by apply IH.
Qed.

Lemma split_on_parts c s : Forall (fun x => c ∉ x) (split_on c s).
Proof.
  induction s as [|d s IH]; simpl; [repeat constructor; set_solver|].
  case_decide; [by constructor; [set_solver|]|].
  destruct (split_on c s) as [|p ps]; [by constructor; [set_solver|]|].
  apply Forall_cons in IH as [Hp Hps]. constructor; [set_solver|done].
Qed.

Lemma forallb_Forall {A} (f : A -> bool) l :
  forallb f l = true <-> Forall (fun x => f x = true) l.
Proof.
  induction l as [|x l IH]; simpl; [by split|].
  by rewrite andb_true_iff, IH, Forall_cons.
Qed.

(** ** Array access with a JavaScript number

    [arr[i]] for an integer index: [None] stands for [undefined], which is
    what a negative or too large index gives. *)

Definition zlookup {A} (l : list A) (i : Z) : option A :=
  if decide (0 <= i)%Z then l !! Z.to_nat i else None.

Lemma zlookup_Some {A} (l : list A) (i : Z) x :
  zlookup l i = Some x <-> (0 <= i)%Z /\ l !! Z.to_nat i = Some x.
Proof. unfold zlookup. case_decide; naive_solver. Qed.

Lemma zlookup_is_Some {A} (l : list A) (i : Z) :
  (0 <= i < Z.of_nat (length l))%Z -> is_Some (zlookup l i).
Proof.
  intros H. unfold zlookup. rewrite decide_True by lia.
  apply lookup_lt_is_Some. lia.
Qed.

Lemma zlookup_nat {A} (l : list A) (i : nat) : zlookup l (Z.of_nat i) = l !! i.
Proof. unfold zlookup. rewrite decide_True by lia. by rewrite Nat2Z.id. Qed.

Lemma zlookup_lt {A} (l : list A) (i : Z) x :
  zlookup l i = Some x -> (0 <= i < Z.of_nat (length l))%Z.
Proof. intros [H1 H2%lookup_lt_Some]%zlookup_Some. lia. Qed.

(** ** The order of strings

    [a < b] on strings compares code units lexicographically; it is also the
    order of [Array.prototype.sort] without a comparison function. *)

Fixpoint str_leb (a b : jsstr) : bool :=
  match a, b with
  | [], _ => true
  | _ :: _, [] => false
  | x :: a', y :: b' => (x <? y)%N || ((x =? y)%N && str_leb a' b')
  end.

Definition str_le (a b : jsstr) : Prop := str_leb a b = true.

Lemma str_le_nil_l b : str_le [] b.
Proof. done. Qed.

Lemma str_le_nil_r a : str_le a [] <-> a = [].
Proof. destruct a; unfold str_le; simpl; naive_solver. Qed.

Lemma str_le_cons x a y b :
  str_le (x :: a) (y :: b) <-> (x < y)%N \/ (x = y /\ str_le a b).
Proof.
  unfold str_le. simpl. rewrite orb_true_iff, andb_true_iff, N.ltb_lt, N.eqb_eq. done.
Qed.

#[export] Instance str_le_dec : RelDecision str_le.
Proof. intros a b. unfold str_le. apply _. Defined.

#[export] Instance str_le_trans : Transitive str_le.
Proof.
  intros a. induction a as [|x a IH]; intros [|y b] [|z c]; try done.
  rewrite !str_le_cons. intros [H1|[-> H1]] [H2|[-> H2]]; [left; lia|left; lia|left; lia|].
  right. split; [done|]. by eapply IH.
Qed.

#[export] Instance str_le_total : Total str_le.
Proof.
  intros a. induction a as [|x a IH]; intros [|y b]; [by left|by left|by right|].
  rewrite !str_le_cons. destruct (IH b); destruct (N.lt_trichotomy x y) as [?|[?|?]]; auto.
Qed.

#[export] Instance str_le_antisym : AntiSymm (=) str_le.
Proof.
  intros a. induction a as [|x a IH]; intros [|y b]; try done.
  rewrite !str_le_cons. intros [H1|[-> H1]] [H2|[E H2]]; try lia. f_equal. by apply IH.
Qed.

#[export] Instance str_le_refl : Reflexive str_le.
Proof. intros a. by destruct (total str_le a a). Qed.

(** Lookups in a sorted array are ordered. *)
Lemma StronglySorted_lookup {A} (R : relation A) (l : list A) i j x y :
  StronglySorted R l -> i < j -> l !! i = Some x -> l !! j = Some y -> R x y.
Proof.
  intros Hs. revert i j. induction Hs as [|a l Hs IH Hall]; intros i j Hij Hi Hj; [done|].
  destruct j as [|j]; [lia|]. destruct i as [|i]; simpl in *.
  - simplify_eq. eapply (Forall_lookup_1 _ _ _ _ Hall); done.
  - eapply (IH i j); [lia|done|done].
Qed.

Lemma str_le_app p a b : str_le (p ++ a) (p ++ b) <-> str_le a b.
Proof.
  induction p as [|x p IH]; [done|]. simpl. rewrite str_le_cons, IH. split; [|by right].
  intros [H|[_ H]]; [lia|done].
Qed.

Lemma prefix_str_le p a : p `prefix_of` a -> str_le p a.
Proof. intros [k ->]. rewrite <- (app_nil_r p) at 1. by apply str_le_app. Qed.

Lemma lookup_prefix {A} (p k : list A) : (p ++ k) !! length p = head k.
Proof. rewrite lookup_app_r, Nat.sub_diag by done. by destruct k. Qed.

Lemma prefix_snoc {A} (p : list A) x a :
  (p ++ [x]) `prefix_of` a <-> p `prefix_of` a /\ a !! length p = Some x.
Proof.
  split.
  - intros [k ->]. split; [by rewrite <- app_assoc; apply prefix_app_r|].
    by rewrite <- app_assoc, lookup_prefix.
  - intros [[k ->] Hk]. rewrite lookup_prefix in Hk. destruct k as [|y k]; [done|].
    simplify_eq/=. exists k. by rewrite <- app_assoc.
Qed.

(** ** Trailing runs *)

Fixpoint take_while {A} (f : A -> bool) (l : list A) : list A :=
  match l with
  | [] => []
  | x :: l' => if f x then x :: take_while f l' else []
  end.

(** The length of the longest suffix of [l] whose elements all satisfy [f]. *)
Definition trailing_run {A} (f : A -> bool) (l : list A) : nat :=
  length (take_while f (rev l)).

Lemma trailing_run_snoc {A} (f : A -> bool) (l : list A) x :
  trailing_run f (l ++ [x]) = if f x then S (trailing_run f l) else 0.
Proof. unfold trailing_run. rewrite rev_app_distr. simpl. by destruct (f x). Qed.

(** ** More on splitting and joining *)

Lemma split_on_app c s t : split_on c (s ++ c :: t) = split_on c s ++ split_on c t.
Proof.
  induction s as [|d s IH]; simpl; [by rewrite decide_True|].
  case_decide; [by rewrite IH|]. rewrite IH.
  pose proof (split_on_nonempty c s). by destruct (split_on c s).
Qed.

Lemma join_app sep xs ys :
  xs <> [] -> ys <> [] -> join sep (xs ++ ys) = join sep xs ++ sep ++ join sep ys.
Proof.
  intros Hx Hy. induction xs as [|x xs IH]; [done|]. destruct xs as [|x' xs].
  - destruct ys; [done|]. done.
  - change ((x :: x' :: xs) ++ ys) with (x :: (x' :: xs) ++ ys). simpl app.
    rewrite !join_cons. simpl app in IH. rewrite IH by done. by rewrite <- !app_assoc.
Qed.

Lemma join_nil_inv sep xs : Forall (fun x => x <> []) xs -> join sep xs = [] -> xs = [].
Proof.
  intros Hall Hj. destruct Hall as [|x xs Hx Hxs]; [done|].
  destruct xs; simpl in Hj; [done|]. by apply app_eq_nil in Hj as [? _].
Qed.

(** The first and last units of a join of non-empty, separator-free parts. *)
Lemma join_head c xs :
  xs <> [] -> Forall (fun x => x <> [] /\ c ∉ x) xs ->
  exists d, head (join [c] xs) = Some d /\ d <> c.
Proof.
  intros Hne Hall. destruct Hall as [|x xs [Hx Hc] _]; [done|].
  destruct x as [|d x]; [done|]. exists d. split; [by destruct xs|set_solver].
Qed.

Lemma join_last c xs :
  xs <> [] -> Forall (fun x => x <> [] /\ c ∉ x) xs ->
  exists d, last (join [c] xs) = Some d /\ d <> c.
Proof.
  intros Hne Hall. induction Hall as [|x xs [Hx Hc] Hall IH]; [done|].
  destruct xs as [|y ys].
  - simpl. destruct (last x) as [d|] eqn:E; [|by apply last_None in E].
    exists d. split; [done|]. apply last_Some_elem_of in E. set_solver.
  - destruct IH as (d & Hd & Hne'); [done|]. exists d. split; [|done].
    rewrite join_cons, !last_app, Hd. done.
Qed.

(** ** Backtracking

    [first_success f l] tries the alternatives of [l] in order, as a
    backtracking regular-expression matcher does. *)

Fixpoint first_success {A B} (f : A -> option B) (l : list A) : option B :=
  match l with
  | [] => None
  | x :: l' => match f x with Some b => Some b | None => first_success f l' end
  end.

Lemma first_success_Some {A B} (f : A -> option B) l b :
  first_success f l = Some b -> exists x, x ∈ l /\ f x = Some b.
Proof.
  induction l as [|x l IH]; simpl; [done|]. destruct (f x) eqn:E.
  - intros [= ->]. exists x. split; [by left|done].
  - intros (y & ? & ?)%IH. exists y. split; [by right|done].
Qed.

Lemma first_success_is_Some {A B} (f : A -> option B) l x :
  x ∈ l -> is_Some (f x) -> is_Some (first_success f l).
Proof.
  induction l as [|y l IH]; intros Hin Hx; [by apply elem_of_nil in Hin|]. simpl.
  destruct (f y) eqn:E; [done|]. apply elem_of_cons in Hin as [->|Hin]; [|by apply IH].
  rewrite E in Hx. by destruct Hx.
Qed.

(** Alternatives that all fail are skipped. *)
Lemma first_success_skip {A B} (f : A -> option B) l1 l2 :
  Forall (fun x => f x = None) l1 -> first_success f (l1 ++ l2) = first_success f l2.
Proof. intros Hall. induction Hall as [|x l Hx _ IH]; simpl; [done|]. by rewrite Hx. Qed.

Lemma take_while_app {A} (f : A -> bool) l1 l2 :
  forallb f l1 = true -> take_while f (l1 ++ l2) = l1 ++ take_while f l2.
Proof.
  induction l1 as [|x l1 IH]; simpl; [done|]. rewrite andb_true_iff. intros [-> H]. by rewrite IH.
Qed.

Lemma take_while_prefix {A} (f : A -> bool) l : take_while f l ++ drop (length (take_while f l)) l = l.
Proof. induction l as [|x l IH]; simpl; [done|]. destruct (f x); simpl; [by rewrite IH|done]. Qed.

Lemma take_while_all {A} (f : A -> bool) l : forallb f (take_while f l) = true.
Proof. induction l as [|x l IH]; simpl; [done|]. destruct (f x) eqn:E; simpl; [by rewrite E|done]. Qed.
