(* ===== verification/JsNumber.v ===== *)
(** * Integers as JavaScript numbers

    A number of the language is a double: an integer beyond [2^53] is rounded to
    53 significant bits, and one beyond the largest double becomes an infinity,
    which is [INF] here (no double has this value).  Addition is exact addition,
    rounded; a number prints with the fewest digits that read back as it. *)

From S2P Require Import Prelude.
From stdpp Require Import pretty.

Definition INF : Z := 2 ^ 1024.

(** The exponent of the last of 53 bits. *)
Definition ulp_exp (z : Z) : Z := Z.max 0 (Z.log2 z - 52).

(** Rounding of a number that is not negative: to the nearest, and to the even one of two. *)
Definition round_pos (z : Z) : Z :=
  let u := (2 ^ ulp_exp z)%Z in
  let q := (z / u)%Z in
  let r := (z mod u)%Z in
  ((if (u <? 2 * r) || ((2 * r =? u) && Z.odd q) then q + 1 else q) * u)%Z.

(** The double of an integer. *)
Definition round64 (z : Z) : Z :=
  if (z <? 0)%Z then - Z.min INF (round_pos (- z)) else Z.min INF (round_pos z).

(** [a + b]; [None] is not a number. *)
Definition add64 (a b : Z) : option Z :=
  if decide (Z.abs a = INF) then (if decide (b = - a)%Z then None else Some a)
  else if decide (Z.abs b = INF) then Some b
  else Some (round64 (a + b)).

(** [-5] to [-INF], [5] and so on: what a double can be *)
Definition is_double (z : Z) : Prop := round64 z = z.

(** ** Rounding *)

Lemma ulp_exp_nonneg z : (0 <= ulp_exp z)%Z.
Proof. unfold ulp_exp. lia. Qed.

Lemma ulp_exp_le z z' : (z <= z')%Z -> (ulp_exp z <= ulp_exp z')%Z.
Proof. intros H. unfold ulp_exp. pose proof (Z.log2_le_mono _ _ H). lia. Qed.

Lemma pow2_pos e : (0 <= e)%Z -> (0 < 2 ^ e)%Z.
Proof. intros. by apply Z.pow_pos_nonneg. Qed.

Lemma round_pos_small z : (0 <= z < 2 ^ 53)%Z -> round_pos z = z.
Proof.
  intros [H0 H]. assert (ulp_exp z = 0)%Z as E.
  { unfold ulp_exp. destruct (decide (z = 0)%Z) as [->|]; [done|].
    assert (Z.log2 z < 53)%Z by (apply Z.log2_lt_pow2; lia). lia. }
  unfold round_pos. rewrite E, Z.pow_0_r, Z.div_1_r, Z.mod_1_r. apply Z.mul_1_r.
Qed.

(** The quotient by the last bit has at most 53 bits; and 53 of them from [2^52] on. *)
Lemma quotient_bounds z : (0 <= z)%Z ->
  (0 <= z / 2 ^ ulp_exp z < 2 ^ 53)%Z /\ (0 < ulp_exp z -> 2 ^ 52 <= z / 2 ^ ulp_exp z)%Z.
Proof.
  intros H0. pose proof (ulp_exp_nonneg z) as He. pose proof (pow2_pos _ He) as Hu.
  destruct (decide (z = 0)%Z) as [->|Hz].
  { rewrite Z.div_0_l by lia. split; [lia|]. unfold ulp_exp. cbn. lia. }
  destruct (Z.log2_spec z) as [L1 L2]; [lia|]. pose proof (Z.log2_nonneg z). split.
  - split; [by apply Z.div_pos|]. apply Z.div_lt_upper_bound; [done|].
    rewrite <- Z.pow_add_r by lia. eapply Z.lt_le_trans; [exact L2|]. apply Z.pow_le_mono_r; unfold ulp_exp; lia.
  - intros Hp. apply Z.div_le_lower_bound; [done|]. rewrite <- Z.pow_add_r by lia.
    replace (ulp_exp z + 52)%Z with (Z.log2 z) by (unfold ulp_exp in *; lia). exact L1.
Qed.

Lemma round_pos_bounds z : (0 <= z)%Z ->
  let u := (2 ^ ulp_exp z)%Z in (z / u * u <= round_pos z <= (z / u + 1) * u)%Z.
Proof.
  intros H0 u. pose proof (pow2_pos _ (ulp_exp_nonneg z)) as Hu. unfold round_pos. fold u in Hu |- *. destruct (_ || _); nia.
Qed.

Lemma round_pos_mono z z' : (0 <= z <= z')%Z -> (round_pos z <= round_pos z')%Z.
Proof.
  intros [H0 H]. pose proof (ulp_exp_le z z' H) as He. pose proof (ulp_exp_nonneg z) as Hn.
  pose proof (round_pos_bounds z H0) as B. pose proof (round_pos_bounds z' ltac:(lia)) as B'. cbn zeta in B, B'.
  destruct (quotient_bounds z H0) as [Q _]. destruct (quotient_bounds z' ltac:(lia)) as [_ Q'].
  destruct (decide (ulp_exp z = ulp_exp z')) as [E|Hlt].
  - unfold round_pos. rewrite <- E in *. set (u := (2 ^ ulp_exp z)%Z) in *.
    assert (0 < u)%Z as Hu by (by apply pow2_pos). assert (z / u <= z' / u)%Z as Hq by (by apply Z.div_le_mono).
    destruct (decide (z / u = z' / u)%Z) as [Eq|Hne].
    + pose proof (Z.div_mod z u ltac:(lia)). pose proof (Z.div_mod z' u ltac:(lia)). rewrite <- Eq in *.
      destruct ((u <? 2 * (z mod u)) || ((2 * (z mod u) =? u) && Z.odd (z / u)))%Z eqn:D;
        destruct ((u <? 2 * (z' mod u)) || ((2 * (z' mod u) =? u) && Z.odd (z / u)))%Z eqn:D'; [lia| |nia|lia].
      exfalso. apply orb_false_iff in D' as [D1 D2]. apply Z.ltb_ge in D1. apply orb_true_iff in D as [D|D].
      * apply Z.ltb_lt in D. nia.
      * apply andb_true_iff in D as [D3 D4]. apply Z.eqb_eq in D3. rewrite D4, andb_true_r in D2. apply Z.eqb_neq in D2. nia.
    + destruct (_ || _), (_ || _); nia.
  - specialize (Q' ltac:(lia)). transitivity (2 ^ 53 * 2 ^ ulp_exp z)%Z; [pose proof (pow2_pos _ Hn); nia|].
    transitivity (2 ^ 52 * 2 ^ ulp_exp z')%Z; [|pose proof (pow2_pos (ulp_exp z') ltac:(lia)); nia].
    rewrite <- !Z.pow_add_r by lia. apply Z.pow_le_mono_r; lia.
Qed.

Lemma round_pos_exact m e : (0 <= m < 2 ^ 53)%Z -> (0 <= e)%Z -> round_pos (m * 2 ^ e) = (m * 2 ^ e)%Z.
Proof.
  intros Hm He. pose proof (pow2_pos e He). pose proof (ulp_exp_nonneg (m * 2 ^ e)) as Hn.
  assert (ulp_exp (m * 2 ^ e) <= e)%Z as Hle.
  { unfold ulp_exp. destruct (decide (m = 0)%Z) as [->|]; [rewrite Z.mul_0_l; cbn; lia|].
    assert (Z.log2 (m * 2 ^ e) < 53 + e)%Z; [|lia]. apply Z.log2_lt_pow2; [nia|]. rewrite Z.pow_add_r by lia. nia. }
  unfold round_pos. set (f := ulp_exp _) in *. pose proof (pow2_pos f Hn).
  replace (2 ^ e)%Z with (2 ^ (e - f) * 2 ^ f)%Z by (rewrite <- Z.pow_add_r by lia; f_equal; lia).
  rewrite Z.mul_assoc, Z.div_mul, Z.mod_mul by lia.
  replace (2 ^ f <? 2 * 0)%Z with false by (symmetry; apply Z.ltb_ge; lia).
  replace (2 * 0 =? 2 ^ f)%Z with false by (symmetry; apply Z.eqb_neq; lia). done.
Qed.

Lemma round_pos_double z : (0 <= z)%Z -> round_pos (round_pos z) = round_pos z.
Proof.
  intros H0. destruct (quotient_bounds z H0) as [Q _]. pose proof (ulp_exp_nonneg z) as Hn. unfold round_pos at 2 3.
  set (m := (if _ || _ then _ else _)%Z). assert (0 <= m <= 2 ^ 53)%Z as [M0 M1] by (unfold m; destruct (_ || _); lia).
  destruct (decide (m = 2 ^ 53)%Z) as [->|]; [|apply round_pos_exact; lia].
  replace (2 ^ 53 * 2 ^ ulp_exp z)%Z with (1 * 2 ^ (53 + ulp_exp z))%Z by (rewrite Z.pow_add_r by lia; lia).
  apply round_pos_exact; lia.
Qed.

Lemma round_pos_nonneg z : (0 <= z)%Z -> (0 <= round_pos z)%Z.
Proof.
  intros H. pose proof (round_pos_bounds z H) as B. cbn zeta in B. destruct (quotient_bounds z H) as [Q _].
  pose proof (pow2_pos _ (ulp_exp_nonneg z)). nia.
Qed.

Lemma round_pos_INF : round_pos INF = INF.
Proof. by vm_compute. Qed.

Lemma INF_pos : (2 ^ 60 < INF)%Z.
Proof. by vm_compute. Qed.

#[global] Opaque INF.

(** Rounding is the identity up to [2^53], monotone, symmetric and idempotent. *)
Lemma round64_opp z : round64 (- z) = (- round64 z)%Z.
Proof.
  unfold round64. pose proof INF_pos. destruct (decide (z = 0)%Z) as [->|].
  { change (round_pos 0) with 0%Z. change (round_pos (- 0)) with 0%Z. rewrite (Z.min_r INF 0) by lia. done. }
  destruct (- z <? 0)%Z eqn:E1, (z <? 0)%Z eqn:E2; rewrite ?Z.ltb_lt, ?Z.ltb_ge in *; try lia.
  by rewrite Z.opp_involutive.
Qed.

Lemma round64_small z : (Z.abs z <= 2 ^ 53)%Z -> round64 z = z.
Proof.
  pose proof INF_pos. assert (forall z, 0 <= z <= 2 ^ 53 -> round64 z = z)%Z as Hp.
  { intros y Hy. unfold round64. rewrite (proj2 (Z.ltb_ge _ _)) by lia.
    destruct (decide (y = 2 ^ 53)%Z) as [->|]; [|rewrite round_pos_small; lia].
    change (round_pos (2 ^ 53)) with (2 ^ 53)%Z. lia. }
  intros Hz. destruct (Z.abs_spec z) as [[? E]|[? E]]; [apply Hp; lia|].
  rewrite <- (Z.opp_involutive z), round64_opp, Hp; lia.
Qed.

Lemma round64_mono a b : (a <= b)%Z -> (round64 a <= round64 b)%Z.
Proof.
  pose proof INF_pos. intros Hab. unfold round64. destruct (a <? 0)%Z eqn:Ea, (b <? 0)%Z eqn:Eb; rewrite ?Z.ltb_lt, ?Z.ltb_ge in *.
  - pose proof (round_pos_mono (- b) (- a)). lia.
  - pose proof (round_pos_nonneg (- a)). pose proof (round_pos_nonneg b). lia.
  - lia.
  - pose proof (round_pos_mono a b). lia.
Qed.

Lemma round64_range z : (Z.abs (round64 z) <= INF)%Z.
Proof.
  pose proof INF_pos. unfold round64. destruct (z <? 0)%Z eqn:E; rewrite ?Z.ltb_lt, ?Z.ltb_ge in *.
  - pose proof (round_pos_nonneg (- z)). lia.
  - pose proof (round_pos_nonneg z). lia.
Qed.

Lemma round64_double z : is_double (round64 z).
Proof.
  pose proof INF_pos as HI. unfold is_double.
  assert (forall y, 0 <= y -> round64 (Z.min INF (round_pos y)) = Z.min INF (round_pos y))%Z as Hp.
  { intros y Hy. pose proof (round_pos_nonneg y Hy). unfold round64. rewrite (proj2 (Z.ltb_ge _ _)) by lia.
    destruct (Z.min_spec INF (round_pos y)) as [[? ->]|[? ->]]; [rewrite round_pos_INF; lia|rewrite round_pos_double; lia]. }
  unfold round64 at 2 3. destruct (z <? 0)%Z eqn:E; rewrite ?Z.ltb_lt, ?Z.ltb_ge in E; [|by apply Hp].
  rewrite round64_opp, Hp; [done|lia].
Qed.

Lemma INF_double : is_double INF.
Proof. unfold is_double, round64. pose proof INF_pos. rewrite (proj2 (Z.ltb_ge _ _)) by lia. rewrite round_pos_INF. lia. Qed.

(** Rounding changes a number by at most half of its last bit, *)
Lemma round_pos_half z : (0 <= z)%Z -> (2 * round_pos z <= 2 * z + 2 ^ ulp_exp z)%Z.
Proof.
  intros Hz. pose proof (pow2_pos _ (ulp_exp_nonneg z)) as Hu. unfold round_pos. set (u := (2 ^ ulp_exp z)%Z) in *.
  pose proof (Z.div_mod z u ltac:(lia)). pose proof (Z.mod_pos_bound z u Hu).
  destruct (_ || _) eqn:E; [|nia]. apply orb_true_iff in E as [E|[E _]%andb_true_iff]; [apply Z.ltb_lt in E|apply Z.eqb_eq in E]; nia.
Qed.

(** so a fraction below one of [n], in 53 bits, stays below [n]. *)
Lemma round64_fraction r n : (0 <= r < 2 ^ 53)%Z -> (1 <= n)%Z -> (0 <= round64 (r * n) < n * 2 ^ 53)%Z.
Proof.
  intros Hr Hn. set (z := (n * (2 ^ 53 - 1))%Z). assert (0 <= r * n <= z)%Z as Hz by (unfold z; nia).
  pose proof (round_pos_mono _ _ Hz) as Hm. pose proof (round_pos_nonneg (r * n) ltac:(lia)) as H0. pose proof INF_pos.
  unfold round64. rewrite (proj2 (Z.ltb_ge _ _)) by lia. enough (round_pos z < n * 2 ^ 53)%Z by lia.
  pose proof (round_pos_half z ltac:(lia)) as Hh. destruct (Z.log2_spec n ltac:(lia)) as [L1 L2]. pose proof (Z.log2_nonneg n).
  set (k := Z.log2 n) in *. rewrite Z.pow_succ_r in L2 by lia.
  assert (forall e, 0 <= e -> z < 2 ^ (53 + e) -> ulp_exp z <= e)%Z as Hulp.
  { intros e He Hlt. unfold ulp_exp. destruct (decide (z = 0)%Z) as [->|]; [cbn; lia|].
    apply Z.log2_lt_pow2 in Hlt; lia. }
  assert (2 ^ ulp_exp z < 2 * n)%Z; [|unfold z in *; lia].
  destruct (decide (n = 2 ^ k)%Z) as [E|].
  - apply Z.le_lt_trans with (2 ^ k)%Z; [|lia]. apply Z.pow_le_mono_r; [lia|]. apply Hulp; [done|].
    unfold z. rewrite Z.pow_add_r by lia. nia.
  - apply Z.le_lt_trans with (2 ^ (k + 1))%Z; [|rewrite Z.pow_add_r by lia; lia].
    apply Z.pow_le_mono_r; [lia|]. apply Hulp; [lia|]. unfold z. rewrite !Z.pow_add_r by lia. nia.
Qed.

(** ** Addition *)

Lemma add64_double a b c : is_double a -> is_double b -> add64 a b = Some c -> is_double c.
Proof.
  intros Ha Hb. unfold add64. repeat case_decide; intros [= <-]; [done|done|]. apply round64_double.
Qed.

(** Adding what is not negative does not go down. *)
Lemma add64_up a b c : is_double a -> (Z.abs b <= INF)%Z -> (0 <= b)%Z -> (Z.abs a <= INF)%Z -> add64 a b = Some c -> (a <= c)%Z.
Proof.
  intros Ha Hb Hb0 Ha'. unfold add64. repeat case_decide; intros [= <-]; [lia|lia|].
  unfold is_double in Ha. transitivity (round64 a); [lia|]. apply round64_mono. lia.
Qed.

Lemma add64_opp a b : add64 (- a) (- b) = Z.opp <$> add64 a b.
Proof.
  unfold add64. rewrite !Z.abs_opp. repeat case_decide; try done; try lia.
  cbn. f_equal. rewrite <- round64_opp. f_equal. lia.
Qed.

Lemma add64_exact a b : (Z.abs a <= 2 ^ 53)%Z -> (Z.abs b < INF)%Z -> (Z.abs (a + b) <= 2 ^ 53)%Z -> add64 a b = Some (a + b)%Z.
Proof.
  pose proof INF_pos. intros. unfold add64. rewrite !decide_False by lia. by rewrite round64_small.
Qed.

(** ** Printing *)

(** The numbers with [k] digits of [d] next to [v], the nearest first. *)
Definition shortened (v : Z) (d k : nat) : list Z :=
  let p := (10 ^ Z.of_nat (d - k))%Z in
  let lo := (v / p * p)%Z in
  let hi := (lo + p)%Z in
  let near_lo := ((v - lo <? hi - v) || ((v - lo =? hi - v) && Z.even (v / p)))%Z in
  List.filter (fun c => bool_decide (round64 c = v)) (if near_lo then [lo; hi] else [hi; lo]).

Fixpoint shortest_from (v : Z) (d k : nat) (fuel : nat) : Z :=
  match fuel with
  | O => v
  | S fuel => match shortened v d k with c :: _ => c | [] => shortest_from v d (S k) fuel end
  end.

(** The number with the fewest digits that reads back as [v]. *)
Definition shortest (v : Z) : Z := let d := length (lit (pretty v)) in shortest_from v d 1 d.

Fixpoint strip_zeros (s : jsstr) : jsstr :=
  match s with
  | [] => []
  | c :: s => match strip_zeros s with [] => if decide (c = 48%N) then [] else [c] | s' => c :: s' end
  end.

(** Up to [2^53] no other integer reads back as [v]. *)
Definition print_pos (v : Z) : jsstr :=
  if (v <? 2 ^ 53)%Z then lit (pretty v)
  else if decide (v = INF) then «"Infinity"»
  else
    let digits := lit (pretty (shortest v)) in
    if decide (length digits <= 21) then digits
    else
      let exponent := «"e+"» ++ lit (pretty (length digits - 1)) in
      match strip_zeros digits with
      | [c] => c :: exponent
      | c :: s => c :: «"."» ++ s ++ exponent
      | [] => exponent
      end.

(** [String(v)] *)
Definition number_string (v : Z) : jsstr := if (v <? 0)%Z then 45%N :: print_pos (- v) else print_pos v.

Lemma number_string_small v : (Z.abs v < 2 ^ 53)%Z -> number_string v = lit (pretty v).
Proof.
  intros Hv. unfold number_string, print_pos. rewrite !(proj2 (Z.ltb_lt _ (2 ^ 53))) by lia. by destruct v.
Qed.

(** Only characters of numbers are printed. *)
Definition number_char (c : N) : bool := bool_decide (c ∈ «"0123456789-+.eInfinity"»).

Lemma pretty_N_go_chars x s : Forall number_char (lit s) -> Forall number_char (lit (pretty_N_go x s)).
Proof.
  revert s. induction (N.lt_wf_0 x) as [x _ IH]; intros s Hs.
  assert (x = 0 \/ 0 < x)%N as [->|?] by lia; [done|].
  rewrite pretty_N_go_step by done. apply IH; [by apply N.div_lt|]. cbn [lit]. constructor; [|done].
  unfold pretty_N_char. by repeat case_match.
Qed.

Lemma pretty_N_chars (n : N) : Forall number_char (lit (pretty n)).
Proof. unfold pretty, pretty_N. case_decide; [by repeat constructor|]. by apply pretty_N_go_chars. Qed.

Lemma pretty_Z_chars (z : Z) : Forall number_char (lit (pretty z)).
Proof.
  destruct z as [|p|p]; [by repeat constructor|exact (pretty_N_chars (N.pos p))|].
  change (pretty (Z.neg p)) with ("-" +:+ pretty (N.pos p)). constructor; [done|]. exact (pretty_N_chars (N.pos p)).
Qed.

Lemma strip_zeros_chars s : Forall number_char s -> Forall number_char (strip_zeros s).
Proof.
  induction 1 as [|c s Hc _ IH]; [constructor|]. cbn [strip_zeros]. destruct (strip_zeros s); [|by constructor].
  case_decide; by repeat constructor.
Qed.

Lemma number_string_chars v : Forall number_char (number_string v).
Proof.
  assert (forall n : nat, Forall number_char (lit (pretty n))) as Hn by (intros n; exact (pretty_N_chars (N.of_nat n))).
  assert (forall v, Forall number_char (print_pos v)) as Hp; [|unfold number_string; destruct (_ <? _)%Z; [by constructor|done]].
  clear v. intros v. unfold print_pos. destruct (_ <? _)%Z; [apply pretty_Z_chars|]. case_decide; [by repeat constructor|].
  case_decide; [apply pretty_Z_chars|]. set (e := «"e+"» ++ _).
  assert (Forall number_char e) as He by (unfold e; by repeat constructor).
  pose proof (strip_zeros_chars _ (pretty_Z_chars (shortest v))) as Hs. destruct (strip_zeros _) as [|c [|d s]]; [done|by inv Hs; constructor|].
  inv Hs. constructor; [done|]. constructor; [done|]. by apply Forall_app.
Qed.

Example numbers_print :
  map number_string [0; -7; 9007199254740992; 9007199254740994; -123456789012345680; round64 (10 ^ 21); round64 (123 * 10 ^ 22);
    round64 (2 ^ 70); round64 (10 ^ 309)]%Z =
  [«"0"»; «"-7"»; «"9007199254740992"»; «"9007199254740994"»; «"-123456789012345680"»; «"1e+21"»; «"1.23e+24"»;
   «"1.1805916207174113e+21"»; «"Infinity"»].
Proof. by vm_compute. Qed.
