(* ===== verification/UtilsCli.v ===== *)
(** * The command-line utilities under src/utils

    [index.js] dispatches on [process.argv], [erc20-slot.js] computes the
    preimage and hash of an ERC-20 balance slot, [evm-address.js] derives the
    hashed EVM address of a Substrate account.  The hash and the SS58 decoder
    are third-party packages: they are variables of the section. *)

From S2P Require Import Prelude.

Section Cli.

(** [web3.utils.sha3], [crypto.decodeAddress] (which throws on a bad address)
    and [crypto.blake2AsHex(_, 256)]. *)
Variable sha3 : jsstr -> jsstr.
Variable decodeAddress : jsstr -> option jsstr.
Variable blake2AsHex256 : jsstr -> jsstr.

(** What a run of the process leaves behind: the lines of both streams, and
    how it ended. *)
Inductive ending := Exit (code : nat) | Uncaught.
Record run := Run { stdout : list jsstr; stderr : list jsstr; ends : ending }.

(** A command module either returns the value that index.js prints (after its
    own output) or ends the process. *)
Inductive command_result :=
  | Returns (printed : list jsstr) (value : jsstr)
  | Ends (r : run).

Definition is_lower_hex (c : N) : bool := in_range 97 102 c || in_range 48 57 c.

(** [/^0x[a-f0-9]{40}$/] *)
Definition evm_address_re (a : jsstr) : bool :=
  bool_decide (take 2 a = «"0x"») && (length a =? 42) && forallb is_lower_hex (drop 2 a).

(** [[A-z0-9]]: the range from [A] (65) to [z] (122). *)
Definition is_A_z_or_digit (c : N) : bool := in_range 65 122 c || in_range 48 57 c.

(** [/^[A-z0-9]{48}$/] *)
Definition substrate_address_re (a : jsstr) : bool :=
  (length a =? 48) && forallb is_A_z_or_digit a.

Definition erc20_slot_help : jsstr :=
  «"--erc20-slot <slot> <address>: Calculate the storage slot for an (EVM) address's ERC-20 balance, where <slot> is the storage slot for the ERC-20 balances map."».

Definition evm_address_help : jsstr :=
  «"--evm-address <address>: Calculate the EVM address that corresponds to a native Substrate address."».

Definition index_help : jsstr :=
  join [10%N] [erc20_slot_help; evm_address_help; «"--help: Print this message."»].

Definition slot_preimage (slot address : jsstr) : jsstr :=
  let mapStorageSlot := padStart 64 48 slot in
  let mapKey := padStart 64 48 (substring_from address 2) in
  «"0x"» ++ (mapKey ++ mapStorageSlot).

Definition erc20_slot (argv : list jsstr) : command_result :=
  match argv !! 3, argv !! 4 with
  | Some slot, Some address =>
      if evm_address_re address then
        Returns [slot_preimage slot address] (sha3 (slot_preimage slot address))
      else Ends (Run [] [«"Please enter a valid EVM address."»; erc20_slot_help] (Exit 9))
  | _, _ =>
      Ends (Run [] [«"Please provide both the <slot> and <address> parameters."»; erc20_slot_help] (Exit 9))
  end.

Definition evm_address (argv : list jsstr) : command_result :=
  match argv !! 3 with
  | Some address =>
      if substrate_address_re address then
        match decodeAddress address with
        | Some key => Returns [] («"0x"» ++ substring_from (blake2AsHex256 key) 26)
        | None => Ends (Run [] [] Uncaught)
        end
      else Ends (Run [] [«"Please enter a valid Substrate address."»; evm_address_help] (Exit 9))
  | None =>
      Ends (Run [] [«"Please provide the <address> parameter."»; evm_address_help] (Exit 9))
  end.

(** [console.log(require(...)())]. *)
Definition log_result (c : command_result) : run :=
  match c with
  | Returns printed value => Run (printed ++ [value]) [] (Exit 0)
  | Ends r => r
  end.

Definition index (argv : list jsstr) : run :=
  match argv !! 2 with
  | None => Run [] [«"Please provide a command."»; index_help] (Exit 9)
  | Some command =>
      if decide (command = «"--erc20-slot"») then log_result (erc20_slot argv)
      else if decide (command = «"--evm-address"») then log_result (evm_address argv)
      else if decide (command = «"--help"») then Run [index_help] [] (Exit 0)
      else Run [] [«"Unrecognized command: "» ++ command ++ «"."»; index_help] (Exit 9)
  end.

(** ** Properties *)

Lemma evm_address_re_spec a :
  evm_address_re a = true <->
  exists h, a = «"0x"» ++ h /\ length h = 40 /\ Forall (fun c => is_lower_hex c = true) h.
Proof.
  unfold evm_address_re.
  rewrite !andb_true_iff, bool_decide_eq_true, Nat.eqb_eq, forallb_Forall. split.
  - intros [[Ht Hl] Hf]. exists (drop 2 a). rewrite <- Ht, take_drop, length_drop.
    split_and!; [done|lia|done].
  - intros (h & -> & Hl & Hf). simpl. split_and!; [done|lia|done].
Qed.

Lemma strip_0x h : substring_from («"0x"» ++ h) 2 = h.
Proof. done. Qed.

(** The preimage that [--erc20-slot] hashes is two 32-byte words in
    hexadecimal behind [0x]: the EVM address left-padded with zeros, then the
    slot left-padded with zeros.  It determines the address, and determines
    the slot up to the padding, so distinct (address, slot) pairs are hashed
    from distinct inputs. *)
Theorem slot_preimage_injective (s1 s2 a1 a2 : jsstr) :
  evm_address_re a1 = true -> evm_address_re a2 = true ->
  slot_preimage s1 a1 = slot_preimage s2 a2 <->
  a1 = a2 /\ padStart 64 48 s1 = padStart 64 48 s2.
Proof.
  intros (h1 & -> & L1 & _)%evm_address_re_spec (h2 & -> & L2 & _)%evm_address_re_spec.
  unfold slot_preimage. rewrite !strip_0x. split.
  - intros E. apply app_inv_head in E.
    apply app_inj_1 in E as [Ek Es]; [|by rewrite !padStart_length, L1, L2].
    unfold padStart in Ek. rewrite L1, L2 in Ek. apply app_inv_head in Ek as ->. done.
  - intros [E ->]. by apply app_inv_head in E as ->.
Qed.

(** Under the documented format of [blake2AsHex(_, 256)] ([0x] and 64
    lower-case hexadecimal digits), every value that [--evm-address] returns is
    [0x] and the last 40 digits of the hash, and is a valid address argument
    for [--erc20-slot]. *)
Theorem evm_address_feeds_erc20_slot (argv : list jsstr) (printed : list jsstr) (v : jsstr) :
  (forall k, exists h, blake2AsHex256 k = «"0x"» ++ h /\ length h = 64 /\
                       Forall (fun c => is_lower_hex c = true) h) ->
  evm_address argv = Returns printed v ->
  printed = [] /\ evm_address_re v = true /\
  exists key, decodeAddress (argv !!! 3) = Some key /\
    exists pre, blake2AsHex256 key = «"0x"» ++ pre ++ drop 2 v /\ length pre = 24.
Proof.
  intros Hfmt Hret. unfold evm_address in Hret.
  destruct (argv !! 3) as [address|] eqn:E3; [|done].
  destruct (substrate_address_re address); [|done].
  destruct (decodeAddress address) as [key|] eqn:Ek; [|done].
  assert (printed = []) as -> by congruence.
  assert (v = «"0x"» ++ substring_from (blake2AsHex256 key) 26) as -> by congruence.
  clear Hret. destruct (Hfmt key) as (h & Eh & Lh & Fh).
  rewrite Eh. change (substring_from (_ ++ h) 26) with (drop 24 h). split; [done|]. split.
  - apply evm_address_re_spec. exists (drop 24 h). rewrite length_drop.
    split_and!; [done|lia|by apply Forall_drop].
  - exists key. rewrite (list_lookup_total_correct _ _ _ E3). split; [done|].
    exists (take 24 h). rewrite Eh, length_take. split; [|lia].
    change (drop 2 (_ ++ drop 24 h)) with (drop 24 h). f_equal. by rewrite (take_drop 24 h).
Qed.

(** The command lines that are answered, and what they print. *)
Inductive answers (argv : list jsstr) : list jsstr -> Prop :=
| answers_help : argv !! 2 = Some «"--help"» -> answers argv [index_help]
| answers_slot slot h : argv !! 2 = Some «"--erc20-slot"» -> argv !! 3 = Some slot -> argv !! 4 = Some («"0x"» ++ h) ->
    length h = 40 -> Forall (fun c => is_lower_hex c = true) h ->
    let preimage := «"0x"» ++ replicate 24 48%N ++ h ++ padStart 64 48 slot in
    answers argv [preimage; sha3 preimage]
| answers_address a key : argv !! 2 = Some «"--evm-address"» -> argv !! 3 = Some a ->
    length a = 48 -> Forall (fun c => is_A_z_or_digit c = true) a -> decodeAddress a = Some key ->
    answers argv [«"0x"» ++ drop 26 (blake2AsHex256 key)].

(** The ones that the decoder throws at. *)
Definition undecodable (argv : list jsstr) : Prop :=
  argv !! 2 = Some «"--evm-address"» /\
  exists a, argv !! 3 = Some a /\ length a = 48 /\ Forall (fun c => is_A_z_or_digit c = true) a /\ decodeAddress a = None.

(** The ones that are refused, and what is printed about them. *)
Inductive refused (argv : list jsstr) : list jsstr -> Prop :=
| no_command : length argv <= 2 -> refused argv [«"Please provide a command."»; index_help]
| unknown_command c : argv !! 2 = Some c -> c ∉ [«"--erc20-slot"»; «"--evm-address"»; «"--help"»] ->
    refused argv [«"Unrecognized command: "» ++ c ++ «"."»; index_help]
| slot_missing : argv !! 2 = Some «"--erc20-slot"» -> length argv <= 4 ->
    refused argv [«"Please provide both the <slot> and <address> parameters."»; erc20_slot_help]
| slot_malformed a : argv !! 2 = Some «"--erc20-slot"» -> argv !! 4 = Some a ->
    ~ (exists h, a = «"0x"» ++ h /\ length h = 40 /\ Forall (fun c => is_lower_hex c = true) h) ->
    refused argv [«"Please enter a valid EVM address."»; erc20_slot_help]
| address_missing : argv !! 2 = Some «"--evm-address"» -> length argv <= 3 ->
    refused argv [«"Please provide the <address> parameter."»; evm_address_help]
| address_malformed a : argv !! 2 = Some «"--evm-address"» -> argv !! 3 = Some a ->
    ~ (length a = 48 /\ Forall (fun c => is_A_z_or_digit c = true) a) ->
    refused argv [«"Please enter a valid Substrate address."»; evm_address_help].

Lemma substrate_address_re_spec a :
  substrate_address_re a = true <-> length a = 48 /\ Forall (fun c => is_A_z_or_digit c = true) a.
Proof. unfold substrate_address_re. by rewrite andb_true_iff, Nat.eqb_eq, forallb_Forall. Qed.

Lemma slot_preimage_words slot h : length h = 40 ->
  slot_preimage slot («"0x"» ++ h) = «"0x"» ++ replicate 24 48%N ++ h ++ padStart 64 48 slot.
Proof. intros Hl. unfold slot_preimage. rewrite strip_0x. unfold padStart at 1. rewrite Hl, <- app_assoc. done. Qed.

(** Each kind of command line gets the run that goes with it. *)
Lemma answers_run argv out : answers argv out -> index argv = Run out [] (Exit 0).
Proof.
  intros [E2|slot h E2 E3 E4 Hl Hh|a key E2 E3 Hl Ha Hd]; unfold index; rewrite E2; [done|..].
  - rewrite decide_True by done. unfold erc20_slot. rewrite E3, E4, (proj2 (evm_address_re_spec _)) by eauto.
    cbn [log_result app]. by rewrite slot_preimage_words.
  - rewrite decide_False, decide_True by done. unfold evm_address. rewrite E3, (proj2 (substrate_address_re_spec a)) by done.
    by rewrite Hd.
Qed.

Lemma undecodable_run argv : undecodable argv -> index argv = Run [] [] Uncaught.
Proof.
  intros (E2 & a & E3 & Hl & Ha & Hd). unfold index. rewrite E2, decide_False, decide_True by done.
  unfold evm_address. rewrite E3, (proj2 (substrate_address_re_spec a)) by done. by rewrite Hd.
Qed.

Lemma refused_run argv err : refused argv err -> index argv = Run [] err (Exit 9).
Proof.
  intros [Hl|c E2 Hc|E2 Hl|a E2 E4 Ha|E2 Hl|a E2 E3 Ha]; unfold index.
  - by rewrite (lookup_ge_None_2 argv 2).
  - rewrite E2. rewrite !decide_False by set_solver. done.
  - rewrite E2, decide_True by done. unfold erc20_slot. rewrite (lookup_ge_None_2 argv 4) by done. by destruct (argv !! 3).
  - rewrite E2, decide_True by done. unfold erc20_slot. destruct (lookup_lt_is_Some_2 argv 3) as [slot ->].
    { apply lookup_lt_Some in E4. lia. }
    rewrite E4. destruct (evm_address_re a) eqn:Er; [|done]. by apply evm_address_re_spec in Er.
  - rewrite E2, decide_False, decide_True by done. unfold evm_address. by rewrite (lookup_ge_None_2 argv 3).
  - rewrite E2, decide_False, decide_True by done. unfold evm_address. rewrite E3.
    destruct (substrate_address_re a) eqn:Er; [|done]. by apply substrate_address_re_spec in Er.
Qed.

Lemma command_lines argv : (exists out, answers argv out) \/ undecodable argv \/ exists err, refused argv err.
Proof.
  destruct (argv !! 2) as [c|] eqn:E2; [|right; right; eexists; apply no_command; by apply lookup_ge_None_1].
  destruct (decide (c = «"--help"»)) as [->|]; [left; eexists; by apply answers_help|].
  destruct (decide (c = «"--erc20-slot"»)) as [->|].
  { destruct (argv !! 4) as [a|] eqn:E4; [|right; right; eexists; apply slot_missing; [done|by apply lookup_ge_None_1]].
    destruct (lookup_lt_is_Some_2 argv 3) as [slot E3]; [apply lookup_lt_Some in E4; lia|].
    destruct (evm_address_re a) eqn:Er.
    - apply evm_address_re_spec in Er as (h & -> & Hl & Hh). left. eexists. by eapply answers_slot.
    - right. right. eexists. eapply slot_malformed; [done|done|]. rewrite <- evm_address_re_spec. by rewrite Er. }
  destruct (decide (c = «"--evm-address"»)) as [->|].
  { destruct (argv !! 3) as [a|] eqn:E3; [|right; right; eexists; apply address_missing; [done|by apply lookup_ge_None_1]].
    destruct (substrate_address_re a) eqn:Er.
    - apply substrate_address_re_spec in Er as [Hl Ha]. destruct (decodeAddress a) as [key|] eqn:Ed.
      + left. eexists. by eapply answers_address.
      + right. left. split; [done|]. by exists a.
    - right. right. eexists. eapply address_malformed; [done|done|]. rewrite <- substrate_address_re_spec. by rewrite Er. }
  right. right. eexists. eapply unknown_command; [done|]. set_solver.
Qed.

(** C40. The outcome of a run, exactly, for every argument vector.  It exits with
    0 and prints lines on standard output only, just when the command line is
    answered: [--help] by the help text; [--erc20-slot] with a slot and an address
    of [0x] and forty lower-case hexadecimal digits by the preimage, [0x], twenty-four
    zeros, the address's digits and the slot padded to 64, and its hash;
    [--evm-address] with an address of 48 characters of [[A-z0-9]] that can be
    decoded by [0x] and the blake2 hash without its first 26 characters.  It dies
    of an exception, printing nothing, just when such an address cannot be
    decoded.  It exits with 9 just when the command line is refused: without a
    command, with an unknown one, with parameters missing or malformed; then
    the message for that case and the help text are on standard error.  No
    command line falls outside these cases. *)
Theorem index_outcome (argv : list jsstr) :
  (forall out, index argv = Run out [] (Exit 0) <-> answers argv out) /\
  (index argv = Run [] [] Uncaught <-> undecodable argv) /\
  (forall err, index argv = Run [] err (Exit 9) <-> refused argv err) /\
  ((exists out, answers argv out) \/ undecodable argv \/ exists err, refused argv err).
Proof.
  pose proof (answers_run argv) as Ha. pose proof (undecodable_run argv) as Hu. pose proof (refused_run argv) as Hr.
  pose proof (command_lines argv) as Hc. split_and!; [|split; [|done]| |done].
  - intros out. split; [|apply Ha]. intros E. destruct Hc as [[o H]|[H|[e H]]];
      [pose proof (Ha _ H)|pose proof (Hu H)|pose proof (Hr _ H)]; rewrite E in *; by simplify_eq.
  - intros E. destruct Hc as [[o H]|[H|[e H]]]; [pose proof (Ha _ H)|done|pose proof (Hr _ H)]; rewrite E in *; by simplify_eq.
  - intros err. split; [|apply Hr]. intros E. destruct Hc as [[o H]|[H|[e H]]];
      [pose proof (Ha _ H)|pose proof (Hu H)|pose proof (Hr _ H)]; rewrite E in *; by simplify_eq.
Qed.

(** The class [[A-z0-9]] of the Substrate-address check is wider than the
    alphanumeric characters: besides them it accepts exactly the six
    characters between [Z] and [a], so the check lets through strings that
    are not base58. *)
Theorem substrate_check_admits_punctuation (c : N) :
  is_A_z_or_digit c = true <->
  in_range 65 90 c = true \/ in_range 97 122 c = true \/ in_range 48 57 c = true \/
  c ∈ «"[\]^_`"».
Proof.
  unfold is_A_z_or_digit, in_range. simpl.
  rewrite !orb_true_iff, !andb_true_iff, !N.leb_le, !elem_of_cons, elem_of_nil. lia.
Qed.

End Cli.

(** ** Concrete instances *)

Definition alice_evm : jsstr := «"0xd43593c715fdd31c61141abd04a99fd6822c8558"».
Definition alice_ss58 : jsstr := «"5GrwvaEF5zXb26Fz9rcQpDWS57CtERHpNehXCPcNoHGKutQY"».

(** The example of src/utils/README.md: the first line printed for slot 0. *)
Example erc20_slot_readme :
  stdout (index (fun x => x) (fun _ => None) (fun x => x)
            [«"node"»; «"utils"»; «"--erc20-slot"»; «"0"»; alice_evm]) !! 0 =
  Some «"0x000000000000000000000000d43593c715fdd31c61141abd04a99fd6822c85580000000000000000000000000000000000000000000000000000000000000000"».
Proof. vm_compute. reflexivity. Qed.

(** The README names the command for help [---help]; that one is refused. *)
Example readme_help_refused :
  refused [«"node"»; «"utils"»; «"---help"»] [«"Unrecognized command: ---help."»; index_help].
Proof. apply (unknown_command _ «"---help"»); [done|]. by apply (bool_decide_unpack _). Qed.

Lemma slot_preimage_injective_witness :
  evm_address_re alice_evm = true /\
  (slot_preimage «"0"» alice_evm = slot_preimage «"00"» alice_evm <->
   alice_evm = alice_evm /\ padStart 64 48 «"0"» = padStart 64 48 «"00"»).
Proof.
  split; [by vm_compute|].
  exact (slot_preimage_injective «"0"» «"00"» alice_evm alice_evm
           ltac:(by vm_compute) ltac:(by vm_compute)).
Defined.

Lemma evm_address_feeds_erc20_slot_witness :
  evm_address_re («"0x"» ++ replicate 40 48%N) = true.
Proof.
  apply (evm_address_feeds_erc20_slot (fun a => Some a)
           (fun _ => «"0x"» ++ replicate 64 48%N)
           [«"node"»; «"utils"»; «"--evm-address"»; alice_ss58] []).
  - intros _. exists (replicate 64 48%N). split_and!; [done|done|].
    apply Forall_replicate. reflexivity.
  - vm_compute. reflexivity.
Defined.
