(* ===== verification/ExampleScripts.v ===== *)
(** * The example scripts under src/examples

    contract-hello/index.js and contract-erc20/create-erc20-rpc.ts deploy a
    contract through web3, create-erc20.ts through the polkadot API; the last
    two also transfer tokens and read balances from contract storage.

    A script is a computation with a history of requests to the node and the
    lines it prints.  The answers of the node, of web3 and of the polkadot API
    are parameters, functions of the history; a request may be refused. *)

From stdpp Require Import pretty.
From S2P Require Import Prelude UtilsCli.

(** ** Scripts *)

(** How a computation ends: with a value, with an exception, or never (a
    promise that nobody resolves). *)
Inductive outcome (A : Type) := Done (a : A) | Throws (err : jsstr) | Pending.
Arguments Done {A} _.
Arguments Throws {A} _.
Arguments Pending {A}.

Record tx := Tx { t_from : option jsstr; t_to : option jsstr; t_data : jsstr;
                  t_value : jsstr; t_gasPrice : jsstr; t_gas : jsstr }.

(** The extrinsics of create-erc20.ts; value, gas limit, gas price and nonce
    are constants of the script. *)
Inductive extrinsic := EvmCreate (code : jsstr) | EvmCall (contract input : jsstr).

Inductive request :=
  | CreateAccount
  | SignTransaction (t : tx) (privateKey : jsstr)
  | SendSignedTransaction (raw : jsstr)
  | Connect
  | SystemAccount (address : jsstr)
  | EvmAccounts (evm : jsstr)
  | AccountCodes (contract : jsstr)
  | AccountStorages (contract key : jsstr)
  | SignAndSend (x : extrinsic) (from : jsstr).

Record account := Account { address : jsstr; privateKey : jsstr }.
Record signed := Signed { rawTransaction : jsstr; s_fields : jsstr }.
Record receipt := Receipt { contractAddress : jsstr; r_to : jsstr; transactionHash : jsstr }.

(** A printed line: text, or a label with a transaction object. *)
Inductive line := Text (s : jsstr) | Object (label : jsstr) (t : signed).

Record world := World { history : list request; printed : list line }.

Definition script (A : Type) : Type := world -> outcome A * world.

Definition ret {A} (a : A) : script A := fun w => (Done a, w).

Definition bind {A B} (m : script A) (f : A -> script B) : script B := fun w =>
  match m w with
  | (Done a, w) => f a w
  | (Throws e, w) => (Throws e, w)
  | (Pending, w) => (Pending, w)
  end.

Notation "x <- m ;; k" := (bind m (fun x => k)) (at level 100, m at next level, right associativity) : js_scope.
Notation "m ;;; k" := (bind m (fun _ => k)) (at level 100, right associativity) : js_scope.

Definition console_log (s : jsstr) : script unit :=
  fun w => (Done tt, World (history w) (printed w ++ [Text s])).

Definition console_object (label : jsstr) (t : signed) : script unit :=
  fun w => (Done tt, World (history w) (printed w ++ [Object label t])).

(** A request: it enters the history, and is answered or refused. *)
Definition ask {A} (r : request) (answer : list request -> A + jsstr) : script A :=
  fun w =>
    let w' := World (history w ++ [r]) (printed w) in
    match answer (history w) with
    | inl a => (Done a, w')
    | inr e => (Throws e, w')
    end.

Definition decimal (n : nat) : jsstr := lit (pretty n).

(** ** Calls of contracts *)

Definition transferFnCode : jsstr := «"a9059cbb000000000000000000000000"».
Definition tokensToTransfer : jsstr :=
  «"00000000000000000000000000000000000000000000000000000000000000dd"».

Definition inputCode (to : jsstr) : jsstr :=
  «"0x"» ++ transferFnCode ++ substring_from to 2 ++ tokensToTransfer.

Section Web3.
Variable sha3 : jsstr -> jsstr.

(** web3 and the node behind it. *)
Variable create : list request -> account.
Variable sign : tx -> jsstr -> list request -> signed + jsstr.
Variable send : jsstr -> list request -> receipt + jsstr.

Definition accounts_create : script account := ask CreateAccount (fun h => inl (create h)).
Definition signTransaction (t : tx) (key : jsstr) : script signed := ask (SignTransaction t key) (sign t key).
Definition sendSignedTransaction (raw : jsstr) : script receipt :=
  ask (SendSignedTransaction raw) (send raw).

(** ** contract-hello/index.js *)

Definition hello_main (BYTECODE : jsstr) : script unit :=
  devAccount <- accounts_create ;;
  createTransaction <- signTransaction
    (Tx (Some (address devAccount)) None BYTECODE «"0x00"» «"0x00"» «"0x100000"») (privateKey devAccount) ;;
  console_object [] createTransaction ;;;
  createReceipt <- sendSignedTransaction (rawTransaction createTransaction) ;;
  console_log («"Contract deployed at address "» ++ contractAddress createReceipt).

(** ** contract-erc20/create-erc20-rpc.ts *)

Definition STORAGE_SLOT : jsstr := «"0"».

(** The account and its storage key. *)
Definition createAccount : script (account * jsstr) :=
  account <- accounts_create ;;
  let mapStorageSlot := padStart 64 48 STORAGE_SLOT in
  let mapKey := padStart 64 48 (substring_from (address account) 2) in
  ret (account, sha3 («"0x"» ++ (mapKey ++ mapStorageSlot))).

Definition short_raw (t : signed) : signed :=
  Signed (take 32 (rawTransaction t) ++ «"... ("» ++ decimal (length (rawTransaction t)) ++ «" length)"»)
    (s_fields t).

Definition rpc_create_tx (ERC20_BYTECODE : jsstr) : tx :=
  Tx None None ERC20_BYTECODE «"0x00"» «"0x00"» «"0x100000"».

Definition rpc_transfer_tx (contract bob : jsstr) : tx :=
  Tx None (Some contract) (inputCode bob) «"0x00"» «"0x00"» «"0x100000"».

Definition rpc_main (ERC20_BYTECODE : jsstr) : script unit :=
  console_log «"Generating accounts..."» ;;;
  alice <- createAccount ;;
  bob <- createAccount ;;
  console_log («"Alice account: "» ++ address alice.1 ++ [10; 9; 9]%N ++ «"storageKey [slot "» ++ STORAGE_SLOT ++
               «"]: "» ++ alice.2) ;;;
  console_log («"Bob account: "» ++ address bob.1 ++ [10; 9]%N ++ «"  storageKey [slot "» ++ STORAGE_SLOT ++
               «"]: "» ++ bob.2) ;;;
  console_log ([10%N] ++ «"Creating contract using Eth RPC "» ++ [34%N] ++ «"sendTransaction"» ++ [34%N] ++
               «" from alice"») ;;;
  createTransaction <- signTransaction (rpc_create_tx ERC20_BYTECODE) (privateKey alice.1) ;;
  console_object «"Transaction"» (short_raw createTransaction) ;;;
  createReceipt <- sendSignedTransaction (rawTransaction createTransaction) ;;
  console_log («"Contract deployed at address "» ++ contractAddress createReceipt) ;;;
  console_log ([10%N] ++ «"Sending 221 Contract tokens from alice to bob"») ;;;
  transferTransaction <- signTransaction
    (rpc_transfer_tx (contractAddress createReceipt) (address bob.1)) (privateKey alice.1) ;;
  console_object «"Transaction"» (short_raw transferTransaction) ;;;
  transferReceipt <- sendSignedTransaction (rawTransaction transferTransaction) ;;
  console_log («"Transfer executed to "» ++ r_to transferReceipt ++ «" (H: "» ++
               transactionHash transferReceipt ++ «")"»).

(** [main().catch((err) => console.log("Error", err))] *)
Definition rpc_script (ERC20_BYTECODE : jsstr) : script unit := fun w =>
  match rpc_main ERC20_BYTECODE w with
  | (Throws e, w) => console_log («"Error "» ++ e) w
  | r => r
  end.
End Web3.

(** ** contract-erc20/create-erc20.ts *)

Record system_account := SystemAccountData { nonce : jsstr; free : jsstr; freeHex : jsstr }.
Record evm_account := EvmAccountData { e_nonce : jsstr; balanceHex : jsstr }.

(** A status update of a transaction: how the status prints, what it is, and
    the events, each with its index in hexadecimal and the address in its
    first datum. *)
Inductive status := InBlock (hash : jsstr) | Finalized (hash : jsstr) | OtherStatus.
Record update := Update { shown : jsstr; kind : status; events : option (list (jsstr * jsstr)) }.

Section Polkadot.
Variable sha3 : jsstr -> jsstr.
Variable decodeAddress : jsstr -> option jsstr.
Variable blake2AsHex256 : jsstr -> jsstr.

(** The polkadot API and the node behind it. *)
Variable connect : list request -> jsstr + jsstr.
Variable query_account : jsstr -> list request -> system_account + jsstr.
Variable query_evm : jsstr -> list request -> evm_account + jsstr.
Variable query_code : jsstr -> list request -> jsstr + jsstr.
Variable query_storage : jsstr -> jsstr -> list request -> jsstr + jsstr.
Variable submit : extrinsic -> jsstr -> list request -> list update + jsstr.

(** The addresses of the keys [//Alice] and [//Bob]. *)
Variables alice bob : jsstr.
Variable ERC20_BYTECODES : jsstr.

(** [`0x${crypto.blake2AsHex(crypto.decodeAddress(address), 256).substring(26)}`] *)
Definition evmAccount (address : jsstr) : script jsstr := fun w =>
  match decodeAddress address with
  | Some key => (Done («"0x"» ++ substring_from (blake2AsHex256 key) 26), w)
  | None => (Throws «"Invalid decoded address"», w)
  end.

Definition init : script unit :=
  console_log («"Initiating the API (ignore message "» ++ [34%N] ++ «"Unable to resolve type B..."» ++ [34%N] ++
               «" and "» ++ [34%N] ++ «"Unknown types found..."» ++ [34%N] ++ «")"») ;;;
  genesis <- ask Connect connect ;;
  console_log «"Initialiation done"» ;;;
  console_log («"Genesis at block: "» ++ genesis) ;;;
  a <- ask (SystemAccount alice) (query_account alice) ;;
  console_log («"Alice Substrate Account: "» ++ alice) ;;;
  console_log («"Alice Substrate Account (nonce: "» ++ nonce a ++ «") balance, free: "» ++ freeHex a) ;;;
  aliceEvmAccount <- evmAccount alice ;;
  console_log («"Alice EVM Account: "» ++ aliceEvmAccount) ;;;
  evmData <- ask (EvmAccounts aliceEvmAccount) (query_evm aliceEvmAccount) ;;
  console_log («"Alice EVM Account (nonce: "» ++ e_nonce evmData ++ «") balance: "» ++ balanceHex evmData).

(** The address in the event with index 0x0500; without one the callback
    throws and leaves the promise unresolved. *)
Definition created_address (events : option (list (jsstr * jsstr))) : option jsstr :=
  es ← events; snd <$> find (fun e => bool_decide (e.1 = «"0x0500"»)) es.

(** The callback of [signAndSend] on each update, until it resolves. *)
Fixpoint watch_create (us : list update) : script (jsstr * jsstr) :=
  match us with
  | [] => fun w => (Pending, w)
  | u :: us =>
      console_log («"Contract creation is "» ++ shown u) ;;;
      match kind u with
      | InBlock h =>
          console_log («"Contract included at blockHash "» ++ h) ;;;
          console_log «"Waiting for finalization... (can take a minute)"» ;;;
          watch_create us
      | Finalized h =>
          match created_address (events u) with
          | Some contractAddress =>
              console_log («"Contract finalized at blockHash "» ++ h) ;;;
              console_log («"Contract address: "» ++ contractAddress) ;;;
              ret (h, contractAddress)
          | None => watch_create us
          end
      | OtherStatus => watch_create us
      end
  end.

Definition step1 : script (jsstr * jsstr) :=
  console_log ([10%N] ++ «"Step 1: Creating Smart Contract"») ;;;
  us <- ask (SignAndSend (EvmCreate ERC20_BYTECODES) alice) (submit (EvmCreate ERC20_BYTECODES) alice) ;;
  watch_create us.

(** The storage key of an EVM account, as in steps 2 and 4. *)
Definition storageKey (evm : jsstr) : jsstr :=
  let mapStorageSlot := padStart 64 48 «"0"» in
  let mapKey := padStart 64 48 (substring_from evm 2) in
  sha3 («"0x"» ++ (mapKey ++ mapStorageSlot)).

Definition step2 (contractAddress : jsstr) : script unit :=
  console_log ([10%N] ++ «"Step 2: Retrieving Contract from evm address: "» ++ contractAddress) ;;;
  a <- ask (SystemAccount alice) (query_account alice) ;;
  console_log («"Alice Substrate Account (nonce: "» ++ nonce a ++ «") balance, free: "» ++ free a) ;;;
  accountCode <- ask (AccountCodes contractAddress) (query_code contractAddress) ;;
  console_log («"Contract account code: "» ++ take 16 accountCode ++ «"..."» ++
               drop (length accountCode - 16) accountCode) ;;;
  aliceEvmAccount <- evmAccount alice ;;
  console_log («"Alice Contract storage key: "» ++ storageKey aliceEvmAccount) ;;;
  accountStorage <- ask (AccountStorages contractAddress (storageKey aliceEvmAccount))
                        (query_storage contractAddress (storageKey aliceEvmAccount)) ;;
  console_log («"Alice Contract account storage: "» ++ accountStorage).

Fixpoint watch_transfer (us : list update) : script unit :=
  match us with
  | [] => fun w => (Pending, w)
  | u :: us =>
      console_log («"Transfer is "» ++ shown u) ;;;
      match kind u with
      | InBlock h =>
          console_log («"Transfer included at blockHash "» ++ h) ;;;
          console_log «"Waiting for finalization... (can take a minute)"» ;;;
          watch_transfer us
      | Finalized h => console_log («"Transfer finalized at blockHash "» ++ h) ;;; ret tt
      | OtherStatus => watch_transfer us
      end
  end.

Definition step3 (contractAddress : jsstr) : script unit :=
  bobEvmAccount <- evmAccount bob ;;
  console_log ([10%N] ++ «"Step 3: Transfering Tokens to Bob EVM Account: "» ++ bobEvmAccount) ;;;
  console_log «"Preparing transfer of 0xdd"» ;;;
  console_log («"Sending call input: "» ++ inputCode bobEvmAccount) ;;;
  us <- ask (SignAndSend (EvmCall contractAddress (inputCode bobEvmAccount)) alice)
            (submit (EvmCall contractAddress (inputCode bobEvmAccount)) alice) ;;
  watch_transfer us.

Definition step4 (contractAddress : jsstr) : script unit :=
  console_log ([10%N] ++ «"Step 4: Retrieving Bob tokens"») ;;;
  b <- ask (SystemAccount bob) (query_account bob) ;;
  console_log («"Bob Substrate Account (nonce: "» ++ nonce b ++ «") balance, free: "» ++ free b) ;;;
  bobEvmAccount <- evmAccount bob ;;
  console_log («"Bob EVM Account: "» ++ bobEvmAccount) ;;;
  evmData <- ask (EvmAccounts bobEvmAccount) (query_evm bobEvmAccount) ;;
  console_log («"Bob EVM Account (nonce: "» ++ e_nonce evmData ++ «") balance: "» ++ balanceHex evmData) ;;;
  console_log («"Bob Contract storage key: "» ++ storageKey bobEvmAccount) ;;;
  accountStorage <- ask (AccountStorages contractAddress (storageKey bobEvmAccount))
                        (query_storage contractAddress (storageKey bobEvmAccount)) ;;
  console_log («"Bob Contract account storage: "» ++ accountStorage).

Definition erc20_main : script unit :=
  init ;;;
  contractAccount <- step1 ;;
  step2 contractAccount.2 ;;;
  step3 contractAccount.2 ;;;
  step4 contractAccount.2.

(** [main().catch(console.error).then(() => process.exit(0))]: the exit code,
    unless the script waits for ever. *)
Definition erc20_exit (w : world) : option nat * world :=
  match erc20_main w with
  | (Done _, w) => (Some 0, w)
  | (Throws e, w) => (Some 0, w)
  | (Pending, w) => (None, w)
  end.
End Polkadot.

(** ** The calls that are sent *)

Definition hex_value (c : N) : option N :=
  if in_range 48 57 c then Some (c - 48)%N
  else if in_range 97 102 c then Some (c - 87)%N
  else if in_range 65 70 c then Some (c - 55)%N else None.

Definition is_hex (c : N) : bool := bool_decide (is_Some (hex_value c)).

Fixpoint hex_number (acc : N) (s : jsstr) : option N :=
  match s with
  | [] => Some acc
  | c :: s => d ← hex_value c; hex_number (acc * 16 + d) s
  end.

(** What a contract reads from the input of a call of
    [transfer(address,uint256)]: the selector, then two words of 32 bytes, the
    first of them an address padded with zeros. *)
Definition abi_transfer (input : jsstr) : option (jsstr * N) :=
  if decide (length input = 138 /\ take 10 input = «"0xa9059cbb"» /\
             take 24 (drop 10 input) = replicate 24 48%N /\ forallb is_hex (take 40 (drop 34 input)) = true)
  then amount ← hex_number 0 (drop 74 input); Some (take 40 (drop 34 input), amount)
  else None.

Lemma inputCode_transfer h :
  length h = 40 -> forallb is_hex h = true -> abi_transfer (inputCode («"0x"» ++ h)) = Some (h, 221%N).
Proof.
  intros Hl Hh. unfold inputCode, abi_transfer. change (substring_from («"0x"» ++ h) 2) with h.
  assert (drop 34 («"0x"» ++ transferFnCode ++ h ++ tokensToTransfer) = h ++ tokensToTransfer) as E34 by done.
  assert (drop 74 («"0x"» ++ transferFnCode ++ h ++ tokensToTransfer) = tokensToTransfer) as E74.
  { change 74 with (34 + 40). rewrite <- drop_drop, E34, <- Hl. apply drop_app_length. }
  rewrite E34, E74, <- Hl, take_app_length. rewrite decide_True; [reflexivity|].
  split_and!; [|done|done|done]. rewrite !length_app, Hl. done.
Qed.

(** ** Histories *)

Lemma storageKey_slot sha3 evm : storageKey sha3 evm = sha3 (slot_preimage «"0"» evm).
Proof. done. Qed.

(** Whether a request was refused. *)
Definition refused (sign : tx -> jsstr -> list request -> signed + jsstr)
    (send : jsstr -> list request -> receipt + jsstr) (h : list request) (r : request) : Prop :=
  match r with
  | SignTransaction t k => exists e, sign t k h = inr e
  | SendSignedTransaction raw => exists e, send raw h = inr e
  | _ => False
  end.

(** A request is in order after a history: what is sent was signed just
    before, and a transaction to a contract is signed just after the contract
    was created. *)
Definition request_ok (sign : tx -> jsstr -> list request -> signed + jsstr)
    (send : jsstr -> list request -> receipt + jsstr) (h : list request) (r : request) : Prop :=
  match r with
  | SendSignedTransaction raw =>
      exists h0 t k s, h = h0 ++ [SignTransaction t k] /\ sign t k h0 = inl s /\ raw = rawTransaction s
  | SignTransaction t _ =>
      forall c, t_to t = Some c -> exists h0 raw rc, h = h0 ++ [SendSignedTransaction raw] /\
        send raw h0 = inl rc /\ contractAddress rc = c
  | _ => True
  end.

(** A property of every request of a history, and of what came before it. *)
Definition each_request (P : list request -> request -> Prop) (l : list request) : Prop :=
  forall h r, h ++ [r] `prefix_of` l -> P h r.

Lemma each_request_nil P : each_request P [].
Proof. intros h r [k E]. by destruct h. Qed.

Lemma each_request_snoc P l x : each_request P l -> P l x -> each_request P (l ++ [x]).
Proof.
  intros Hl Hx h r [k E]. destruct k as [|y k _] using rev_ind.
  - rewrite app_nil_r in E. by apply app_inj_tail in E as [<- <-].
  - rewrite app_assoc in E. apply app_inj_tail in E as [-> _]. apply Hl. by apply prefix_app_r.
Qed.

Section Rpc.
Context (sha3 : jsstr -> jsstr) (create : list request -> account)
  (sign : tx -> jsstr -> list request -> signed + jsstr)
  (send : jsstr -> list request -> receipt + jsstr) (bytecode : jsstr).

(** What is known of the requests made so far. *)
Definition good (h : list request) : Prop :=
  each_request (request_ok sign send) h /\
  forall t k, SignTransaction t k ∈ h ->
    t_to t = None \/ t_data t = inputCode (address (create [CreateAccount])).

Definition answered (h : list request) : Prop := each_request (fun h r => ~ refused sign send h r) h.

Definition ends_in_error (w : world) : Prop :=
  exists h r e, history w = h ++ [r] /\ refused sign send h r /\ last (printed w) = Some (Text («"Error "» ++ e)).

Lemma good_accounts : good [CreateAccount; CreateAccount] /\ answered [CreateAccount; CreateAccount].
Proof.
  split; [split|].
  - apply (each_request_snoc _ [CreateAccount]); [|done]. apply (each_request_snoc _ []); [|done].
    apply each_request_nil.
  - intros t k. rewrite !elem_of_cons, elem_of_nil. intuition congruence.
  - apply (each_request_snoc _ [CreateAccount]); [|by intros []]. apply (each_request_snoc _ []); [|by intros []].
    apply each_request_nil.
Qed.

Lemma good_sign h t k :
  good h -> request_ok sign send h (SignTransaction t k) ->
  t_to t = None \/ t_data t = inputCode (address (create [CreateAccount])) ->
  good (h ++ [SignTransaction t k]).
Proof.
  intros [H1 H2] Hok Ht. split; [by apply each_request_snoc|].
  intros t' k' [Hin|Hin]%elem_of_app; [by apply (H2 t' k')|].
  apply list_elem_of_singleton in Hin. by simplify_eq.
Qed.

Lemma good_send h t k s :
  good (h ++ [SignTransaction t k]) -> sign t k h = inl s ->
  good ((h ++ [SignTransaction t k]) ++ [SendSignedTransaction (rawTransaction s)]).
Proof.
  intros [H1 H2] Hs. split.
  - apply each_request_snoc; [done|]. exists h, t, k, s. done.
  - intros t' k' [Hin|Hin]%elem_of_app; [by apply (H2 t' k')|]. by apply list_elem_of_singleton in Hin.
Qed.

Lemma answered_sign h t k s : answered h -> sign t k h = inl s -> answered (h ++ [SignTransaction t k]).
Proof. intros Ha Hs. apply each_request_snoc; [done|]. intros [e He]. simpl in He. congruence. Qed.

Lemma answered_send h raw rc : answered h -> send raw h = inl rc -> answered (h ++ [SendSignedTransaction raw]).
Proof. intros Ha Hs. apply each_request_snoc; [done|]. intros [e He]. simpl in He. congruence. Qed.

(** The four requests after the accounts, each answered or refused. *)
Lemma rpc_script_run :
  exists w, rpc_script sha3 create sign send bytecode (World [] []) = (Done tt, w) /\ good (history w) /\
    (ends_in_error w \/ (length (history w) = 6 /\ answered (history w))).
Proof.
  destruct good_accounts as [Hg Ha].
  unfold rpc_script, rpc_main, createAccount, accounts_create, signTransaction, sendSignedTransaction,
    bind, ask, console_log, console_object, ret.
  cbn [history printed fst snd]. change ([] ++ [CreateAccount]) with [CreateAccount].
  set (h2 := [CreateAccount] ++ [CreateAccount]).
  change [CreateAccount; CreateAccount] with h2 in Hg, Ha. assert (length h2 = 2) as Hl by done. clearbody h2.
  set (k := privateKey (create [])). set (b := address (create [CreateAccount])).
  assert (good (h2 ++ [SignTransaction (rpc_create_tx bytecode) k])) as Hg3.
  { apply good_sign; [done|done|by left]. }
  destruct (sign (rpc_create_tx bytecode) k h2) as [s1|e] eqn:E3; cbn [history printed].
  2: { eexists. split; [reflexivity|]. split; [exact Hg3|]. left. exists h2. do 2 eexists. cbn [history printed].
       split_and!; [reflexivity|by exists e|by rewrite last_snoc]. }
  pose proof (answered_sign _ _ _ _ Ha E3) as Ha3. pose proof (good_send _ _ _ _ Hg3 E3) as Hg4.
  set (h3 := h2 ++ [SignTransaction (rpc_create_tx bytecode) k]) in *.
  destruct (send (rawTransaction s1) h3) as [rc|e] eqn:E4; cbn [history printed].
  2: { eexists. split; [reflexivity|]. split; [exact Hg4|]. left. exists h3. do 2 eexists. cbn [history printed].
       split_and!; [reflexivity|by exists e|by rewrite last_snoc]. }
  pose proof (answered_send _ _ _ Ha3 E4) as Ha4.
  set (h4 := h3 ++ [SendSignedTransaction (rawTransaction s1)]) in *.
  assert (good (h4 ++ [SignTransaction (rpc_transfer_tx (contractAddress rc) b) k])) as Hg5.
  { apply good_sign; [done| |by right]. intros c [= <-]. by exists h3, (rawTransaction s1), rc. }
  destruct (sign (rpc_transfer_tx (contractAddress rc) b) k h4) as [s2|e] eqn:E5; cbn [history printed].
  2: { eexists. split; [reflexivity|]. split; [exact Hg5|]. left. exists h4. do 2 eexists. cbn [history printed].
       split_and!; [reflexivity|by exists e|by rewrite last_snoc]. }
  pose proof (answered_sign _ _ _ _ Ha4 E5) as Ha5. pose proof (good_send _ _ _ _ Hg5 E5) as Hg6.
  set (h5 := h4 ++ [SignTransaction (rpc_transfer_tx (contractAddress rc) b) k]) in *.
  destruct (send (rawTransaction s2) h5) as [rc2|e] eqn:E6; cbn [history printed].
  2: { eexists. split; [reflexivity|]. split; [exact Hg6|]. left. exists h5. do 2 eexists. cbn [history printed].
       split_and!; [reflexivity|by exists e|by rewrite last_snoc]. }
  pose proof (answered_send _ _ _ Ha5 E6) as Ha6.
  eexists. split; [reflexivity|]. split; [exact Hg6|]. right. split; [|exact Ha6].
  cbn [history]. subst h3 h4 h5. rewrite !length_app, Hl. done.
Qed.
End Rpc.

(** C38. The web3 script always ends and never sends a transaction out of order:
    whatever the node answers, each transaction sent is the one signed just
    before, the transfer goes to the contract whose creation was confirmed
    just before, and its input is a well-formed call that transfers the 221
    tokens announced to the second account, whenever that has the form of an
    address; either every request was answered, or the last one was refused
    and the script says so in its last line. *)
Theorem rpc_script_orderly sha3 create sign send bytecode :
  exists w, rpc_script sha3 create sign send bytecode (World [] []) = (Done tt, w) /\
    each_request (request_ok sign send) (history w) /\
    (forall t k c h, SignTransaction t k ∈ history w -> t_to t = Some c ->
       address (create [CreateAccount]) = «"0x"» ++ h -> length h = 40 -> forallb is_hex h = true ->
       abi_transfer (t_data t) = Some (h, 221%N)) /\
    (ends_in_error sign send w \/ (length (history w) = 6 /\ answered sign send (history w))).
Proof.
  destruct (rpc_script_run sha3 create sign send bytecode) as (w & E & [H1 H2] & H3).
  exists w. split_and!; [done|done| |done].
  intros t k c h Hin Hto Haddr Hl Hh. destruct (H2 t k Hin) as [Hn|Hd]; [congruence|].
  rewrite Hd, Haddr. by apply inputCode_transfer.
Qed.

(** ** The polkadot script *)

Lemma bind_Done {A B} (m : script A) (f : A -> script B) w b w' :
  bind m f w = (Done b, w') -> exists a w1, m w = (Done a, w1) /\ f a w1 = (Done b, w').
Proof. unfold bind. destruct (m w) as [[a| |] w1]; intros E; simplify_eq. by exists a, w1. Qed.

Lemma ask_Done {A} r (answer : list request -> A + jsstr) w a w' :
  ask r answer w = (Done a, w') -> answer (history w) = inl a /\ history w' = history w ++ [r].
Proof. unfold ask. destruct (answer (history w)); intros; by simplify_eq. Qed.

Lemma console_log_Done s w a w' : console_log s w = (Done a, w') -> history w' = history w.
Proof. unfold console_log. intros; by simplify_eq. Qed.

Definition evm_of (blake2AsHex256 : jsstr -> jsstr) (key : jsstr) : jsstr :=
  «"0x"» ++ substring_from (blake2AsHex256 key) 26.

Lemma evmAccount_Done decodeAddress blake2AsHex256 a w e w' :
  evmAccount decodeAddress blake2AsHex256 a w = (Done e, w') ->
  w' = w /\ exists key, decodeAddress a = Some key /\ e = evm_of blake2AsHex256 key.
Proof. unfold evmAccount. destruct (decodeAddress a) as [key|]; intros; simplify_eq. split; [done|]. by exists key. Qed.

(** Inverts a computation that ended with a value into its steps. *)
Ltac invert_script :=
  repeat match goal with
  | H : bind _ _ _ = (Done _, _) |- _ =>
      let a := fresh "a" in let w := fresh "w" in let H' := fresh "Hs" in
      apply bind_Done in H as (a & w & H' & H)
  | H : console_log _ _ = (Done _, _) |- _ => apply console_log_Done in H
  | H : ret _ _ = (Done _, _) |- _ => unfold ret in H; injection H as ? ?; subst
  | H : ask _ _ _ = (Done _, _) |- _ => let Ha := fresh "Ha" in apply ask_Done in H as [Ha H]
  | H : evmAccount _ _ _ _ = (Done _, _) |- _ =>
      let k := fresh "k" in let Hk := fresh "Hk" in apply evmAccount_Done in H as [-> (k & Hk & ->)]
  end.

(** Rewrites a history to the one at the start. *)
Ltac trace_history :=
  repeat match goal with H : history ?w = _ |- context [history ?w] => rewrite H end;
  rewrite <- ?app_assoc; cbn [app].

Lemma watch_create_Done us w h c w' :
  watch_create us w = (Done (h, c), w') ->
  history w' = history w /\ exists u, u ∈ us /\ kind u = Finalized h /\ created_address (events u) = Some c.
Proof.
  revert w. induction us as [|u us IH]; intros w H; cbn [watch_create] in H; [done|]. invert_script.
  assert (forall w1, history w1 = history w -> watch_create us w1 = (Done (h, c), w') ->
    history w' = history w /\ exists u', u' ∈ u :: us /\ kind u' = Finalized h /\
      created_address (events u') = Some c) as Hrec.
  { intros w1 E Hw. destruct (IH w1 Hw) as (E' & u' & Hin & Hu). split; [congruence|].
    exists u'. split; [by right|done]. }
  destruct (kind u) as [b|b|] eqn:Ek.
  - invert_script. eapply Hrec; [|exact H]. congruence.
  - destruct (created_address (events u)) as [c'|] eqn:Ec; [|by eapply Hrec].
    invert_script. split; [congruence|]. exists u. split_and!; [by left|done|done].
  - by eapply Hrec.
Qed.

Lemma watch_transfer_Done us w a w' :
  watch_transfer us w = (Done a, w') ->
  history w' = history w /\ exists u h, u ∈ us /\ kind u = Finalized h.
Proof.
  revert w. induction us as [|u us IH]; intros w H; cbn [watch_transfer] in H; [done|]. invert_script.
  assert (forall w1, history w1 = history w -> watch_transfer us w1 = (Done a, w') ->
    history w' = history w /\ exists u' h, u' ∈ u :: us /\ kind u' = Finalized h) as Hrec.
  { intros w1 E Hw. destruct (IH w1 Hw) as (E' & u' & h & Hin & Hu). split; [congruence|].
    exists u', h. split; [by right|done]. }
  destruct (kind u) as [b|b|] eqn:Ek.
  - invert_script. eapply Hrec; [|exact H]. congruence.
  - invert_script. split; [congruence|]. exists u, b. split; [by left|done].
  - by eapply Hrec.
Qed.

Section Steps.
Context (sha3 : jsstr -> jsstr) (decodeAddress : jsstr -> option jsstr) (blake2AsHex256 : jsstr -> jsstr)
  (connect : list request -> jsstr + jsstr) (query_account : jsstr -> list request -> system_account + jsstr)
  (query_evm : jsstr -> list request -> evm_account + jsstr) (query_code : jsstr -> list request -> jsstr + jsstr)
  (query_storage : jsstr -> jsstr -> list request -> jsstr + jsstr)
  (submit : extrinsic -> jsstr -> list request -> list update + jsstr) (alice bob bytecodes : jsstr).

Let evm := evm_of blake2AsHex256.

Lemma init_Done w a w' :
  init decodeAddress blake2AsHex256 connect query_account query_evm alice w = (Done a, w') ->
  exists ka, decodeAddress alice = Some ka /\
    history w' = history w ++ [Connect; SystemAccount alice; EvmAccounts (evm ka)].
Proof.
  intros H. unfold init in H. invert_script. eexists. split; [eassumption|]. by trace_history.
Qed.

Lemma step1_Done w h c w' :
  step1 submit alice bytecodes w = (Done (h, c), w') ->
  history w' = history w ++ [SignAndSend (EvmCreate bytecodes) alice] /\
  exists us u, submit (EvmCreate bytecodes) alice (history w) = inl us /\ u ∈ us /\
    kind u = Finalized h /\ created_address (events u) = Some c.
Proof.
  intros H. unfold step1 in H. invert_script. apply watch_create_Done in H as (H & u & Hu).
  split; [by trace_history|]. exists a0, u. split; [congruence|done].
Qed.

Lemma step2_Done w c ka a w' :
  decodeAddress alice = Some ka ->
  step2 sha3 decodeAddress blake2AsHex256 query_account query_code query_storage alice c w = (Done a, w') ->
  history w' = history w ++ [SystemAccount alice; AccountCodes c;
                             AccountStorages c (sha3 (slot_preimage «"0"» (evm ka)))].
Proof. intros Ha H. unfold step2 in H. invert_script. trace_history. by simplify_eq. Qed.

Lemma step3_Done w c a w' :
  step3 decodeAddress blake2AsHex256 submit alice bob c w = (Done a, w') ->
  exists kb us u h, decodeAddress bob = Some kb /\
    history w' = history w ++ [SignAndSend (EvmCall c (inputCode (evm kb))) alice] /\
    submit (EvmCall c (inputCode (evm kb))) alice (history w) = inl us /\ u ∈ us /\ kind u = Finalized h.
Proof.
  intros H. unfold step3 in H. invert_script. apply watch_transfer_Done in H as (H & u & h & Hu).
  do 4 eexists. split; [eassumption|]. split; [by trace_history|]. split; [|exact Hu]. rewrite <- Ha. f_equal. congruence.
Qed.

Lemma step4_Done w c kb a w' :
  decodeAddress bob = Some kb ->
  step4 sha3 decodeAddress blake2AsHex256 query_account query_evm query_storage bob c w = (Done a, w') ->
  history w' = history w ++ [SystemAccount bob; EvmAccounts (evm kb);
                             AccountStorages c (sha3 (slot_preimage «"0"» (evm kb)))].
Proof. intros Hb H. unfold step4 in H. invert_script. trace_history. by simplify_eq. Qed.

Lemma evm_is_address key :
  (forall k, exists h, blake2AsHex256 k = «"0x"» ++ h /\ length h = 64 /\ forallb is_hex h = true) ->
  abi_transfer (inputCode (evm key)) = Some (drop 2 (evm key), 221%N).
Proof.
  intros Hfmt. destruct (Hfmt key) as (h & E & Hl & Hh). unfold evm, evm_of. rewrite E.
  assert (substring_from («"0x"» ++ h) 26 = drop 24 h) as -> by done.
  apply (inputCode_transfer (drop 24 h)).
  - rewrite length_drop, Hl. done.
  - apply forallb_Forall. apply forallb_Forall in Hh. by apply Forall_drop.
Qed.

(** A successful run of the polkadot script: the contract is created, then
    its code and the balance slot of Alice are read, then the transfer to Bob
    is sent, then his balance slot is read.  The contract is the one reported
    by a finalized update of the creation, the transfer was finalized before
    the last step, both storage keys are the slots that the command line
    computes for slot 0, and the input of the transfer is a well-formed call
    for 221 tokens if the hash has its documented format. *)
Theorem erc20_main_trace w :
  (forall k, exists h, blake2AsHex256 k = «"0x"» ++ h /\ length h = 64 /\ forallb is_hex h = true) ->
  erc20_main sha3 decodeAddress blake2AsHex256 connect query_account query_evm query_code query_storage
    submit alice bob bytecodes (World [] []) = (Done tt, w) ->
  exists ka kb c us us' u u' block block',
    decodeAddress alice = Some ka /\ decodeAddress bob = Some kb /\
    let ea := evm_of blake2AsHex256 ka in
    let eb := evm_of blake2AsHex256 kb in
    let before := [Connect; SystemAccount alice; EvmAccounts ea] in
    let middle := [SignAndSend (EvmCreate bytecodes) alice; SystemAccount alice; AccountCodes c;
                   AccountStorages c (sha3 (slot_preimage «"0"» ea))] in
    history w = before ++ middle ++
      [SignAndSend (EvmCall c (inputCode eb)) alice; SystemAccount bob; EvmAccounts eb;
       AccountStorages c (sha3 (slot_preimage «"0"» eb))] /\
    submit (EvmCreate bytecodes) alice before = inl us /\ u ∈ us /\
    kind u = Finalized block /\ created_address (events u) = Some c /\
    submit (EvmCall c (inputCode eb)) alice (before ++ middle) = inl us' /\ u' ∈ us' /\
    kind u' = Finalized block' /\
    abi_transfer (inputCode eb) = Some (drop 2 eb, 221%N).
Proof.
  intros Hfmt H. unfold erc20_main in H. invert_script.
  apply init_Done in Hs as (ka & Hka & E0). destruct a0 as [block c].
  apply step1_Done in Hs0 as (E1 & us & u & Hsub & Hu & Hk & Hc).
  apply (step2_Done _ _ ka) in Hs1; [|done].
  apply step3_Done in Hs2 as (kb & us' & u' & block' & Hkb & E3 & Hsub' & Hu' & Hk').
  apply (step4_Done _ _ kb) in H; [|done].
  rewrite E0 in Hsub. rewrite Hs1, E1, E0 in Hsub'.
  exists ka, kb, c, us, us', u, u', block, block'. cbv zeta. split_and!; try done.
  - rewrite H, E3, Hs1, E1, E0. by rewrite <- !app_assoc.
  - by apply evm_is_address.
Qed.
End Steps.

(** A node that answers everything, and finalizes what is submitted. *)
Definition obliging_run : outcome unit * world :=
  erc20_main (fun s => s) (fun a => Some a) (fun _ => «"0x"» ++ replicate 64 97%N) (fun _ => inl «"0x01"»)
    (fun _ _ => inl (SystemAccountData «"0"» «"1"» «"0x1"»)) (fun _ _ => inl (EvmAccountData «"0"» «"0x0"»))
    (fun _ _ => inl «"0x60"») (fun _ _ _ => inl «"0xdd"»)
    (fun _ _ _ => inl [Update «"Ready"» OtherStatus None; Update «"F"» (Finalized «"0x02"») (Some [(«"0x0500"», «"0xc0"»)])])
    «"A"» «"B"» «"0x6080"» (World [] []).

Lemma erc20_main_trace_witness :
  exists ka kb c (us us' : list update) u u' block block',
    (fun a : jsstr => Some a) «"A"» = Some ka /\ (fun a : jsstr => Some a) «"B"» = Some kb /\
    let ea := evm_of (fun _ => «"0x"» ++ replicate 64 97%N) ka in
    let eb := evm_of (fun _ => «"0x"» ++ replicate 64 97%N) kb in
    let before := [Connect; SystemAccount «"A"»; EvmAccounts ea] in
    let middle := [SignAndSend (EvmCreate «"0x6080"») «"A"»; SystemAccount «"A"»; AccountCodes c;
                   AccountStorages c (slot_preimage «"0"» ea)] in
    history obliging_run.2 = before ++ middle ++
      [SignAndSend (EvmCall c (inputCode eb)) «"A"»; SystemAccount «"B"»; EvmAccounts eb;
       AccountStorages c (slot_preimage «"0"» eb)] /\
    inl [Update «"Ready"» OtherStatus None; Update «"F"» (Finalized «"0x02"») (Some [(«"0x0500"», «"0xc0"»)])]
      = (inl us : list update + jsstr) /\ u ∈ us /\
    kind u = Finalized block /\ created_address (events u) = Some c /\
    inl [Update «"Ready"» OtherStatus None; Update «"F"» (Finalized «"0x02"») (Some [(«"0x0500"», «"0xc0"»)])]
      = (inl us' : list update + jsstr) /\ u' ∈ us' /\ kind u' = Finalized block' /\
    abi_transfer (inputCode eb) = Some (drop 2 eb, 221%N).
Proof.
  apply (erc20_main_trace (fun s => s) (fun a => Some a) (fun _ => «"0x"» ++ replicate 64 97%N) (fun _ => inl «"0x01"»)
    (fun _ _ => inl (SystemAccountData «"0"» «"1"» «"0x1"»)) (fun _ _ => inl (EvmAccountData «"0"» «"0x0"»))
    (fun _ _ => inl «"0x60"») (fun _ _ _ => inl «"0xdd"»)
    (fun _ _ _ => inl [Update «"Ready"» OtherStatus None; Update «"F"» (Finalized «"0x02"») (Some [(«"0x0500"», «"0xc0"»)])])
    «"A"» «"B"» «"0x6080"»).
  - intros k. exists (replicate 64 97%N). split_and!; reflexivity.
  - vm_compute. reflexivity.
Defined.

(** When the node refuses the connection, the script prints the error and
    still ends with status 0; when a transaction is never finalized, it waits
    for ever, since no other status settles the promise. *)
Example erc20_exit_codes :
  let run connect us := (erc20_exit (fun s => s) (fun a => Some a) (fun _ => «"0x"» ++ replicate 64 97%N) connect
    (fun _ _ => inl (SystemAccountData «"0"» «"1"» «"0x1"»)) (fun _ _ => inl (EvmAccountData «"0"» «"0x0"»))
    (fun _ _ => inl «"0x60"») (fun _ _ _ => inl «"0xdd"») (fun _ _ _ => inl us)
    «"A"» «"B"» «"0x6080"» (World [] [])).1 in
  run (fun _ => inr «"refused"») [] = Some 0 /\
  run (fun _ => inl «"0x01"») [Update «"Invalid"» OtherStatus None] = None.
Proof. by vm_compute. Qed.
