(* ===== verification/Acceptors.v ===== *)
(** * Acceptors: the recognisers wordcut runs in parallel

    Module 1 of src/docs/site/assets/javascripts/lunr/wordcut.js.  A creator
    is asked at every character for a new acceptor; every live acceptor reads
    the character and is dropped when it reports an error.

    An acceptor object is mutated only by its own [transit], which the loop of
    [Acceptors.transit] calls once per object, and [tag] keeps references to
    acceptors of which only the presence is tested; so an acceptor is a value
    here, and [tag] the set of tags that are present. *)

From S2P Require Import Prelude.

(** The values of the [tag] and [type] properties. *)
Inductive kind :=
  | DICT | WORD_RULE | NUMBER_RULE | SPACE_RULE | SINSYM | THAI_RULE | PART | UNK | INIT.

#[export] Instance kind_eq_dec : EqDecision kind.
Proof. solve_decision. Defined.

Definition kind_code (k : kind) : nat :=
  match k with
  | DICT => 0 | WORD_RULE => 1 | NUMBER_RULE => 2 | SPACE_RULE => 3 | SINSYM => 4
  | THAI_RULE => 5 | PART => 6 | UNK => 7 | INIT => 8
  end.
Definition kind_of_code (n : nat) : kind :=
  match n with
  | 0 => DICT | 1 => WORD_RULE | 2 => NUMBER_RULE | 3 => SPACE_RULE | 4 => SINSYM
  | 5 => THAI_RULE | 6 => PART | 7 => UNK | _ => INIT
  end.
#[export] Instance kind_countable : Countable kind.
Proof. apply (inj_countable' kind_code kind_of_code). by intros []. Defined.

(** What an acceptor keeps besides the common properties: the patterns still
    matching (PartRule), or the dictionary and the range of its entries that
    match so far. *)
Inductive rule_data :=
  | NoData
  | Patterns (patterns : list jsstr)
  | DictRange (dict : list jsstr) (l r : Z).

Record acceptor := Acceptor {
  strOffset : nat;
  isFinal : bool;
  isError : bool;
  tag : kind;
  type : kind;
  w : Z;
  unk : option Z;
  mw : option Z;
  data : rule_data
}.

(** The two ways a [transit] method leaves its acceptor: one more character
    read ([this.strOffset++], with a new [isFinal] and new data), or
    [this.isError = true]. *)
Definition advance (a : acceptor) (fin : bool) (d : rule_data) : acceptor :=
  {| strOffset := S (strOffset a); isFinal := fin; isError := isError a;
     tag := tag a; type := type a; w := w a; unk := unk a; mw := mw a; data := d |}.

Definition set_error (a : acceptor) : acceptor :=
  {| strOffset := strOffset a; isFinal := isFinal a; isError := true;
     tag := tag a; type := type a; w := w a; unk := unk a; mw := mw a; data := data a |}.

(** What the loop promises not to depend on: how acceptors are made and how
    they read a character.  [None] as the result of [acceptor_transit] is a
    thrown exception. *)
Class Creator (C : Type) := {
  createAcceptor : C -> gset kind -> option acceptor;
  acceptor_transit : acceptor -> N -> option acceptor
}.

(** What the rest of the segmenter relies on: a new acceptor has read
    nothing, and reading a character either counts it or reports an error. *)
Class CreatorLaws (C : Type) `{Creator C} := {
  creator_ok : C -> Prop;
  acceptor_ok : acceptor -> Prop;
  create_ok : forall (c : C) t a, creator_ok c -> createAcceptor c t = Some a ->
    acceptor_ok a /\ strOffset a = 0 /\ isError a = false;
  transit_ok : forall a ch, acceptor_ok a -> isError a = false ->
    exists a', acceptor_transit a ch = Some a' /\
      (isError a' = true \/
       (acceptor_ok a' /\ isError a' = false /\ strOffset a' = S (strOffset a)));
  acceptor_cost : forall a, acceptor_ok a ->
    w a = 1%Z /\ mw a = None /\ (0 <= default 0 (unk a))%Z
}.

Section Acceptors.
Context {C : Type} `{Creator C}.

(** The object that [Acceptors()] returns. *)
Record acceptors := MkAcceptors {
  creators : list C;
  current : list acceptor;
  tags : gset kind
}.

Definition init : acceptors := MkAcceptors [] [] ∅.

Definition reset (self : acceptors) : acceptors := MkAcceptors (creators self) [] ∅.

Definition push_creator (c : C) (self : acceptors) : acceptors :=
  MkAcceptors (creators self ++ [c]) (current self) (tags self).

(** The acceptors that read the next character: the current ones, then the
    ones the creators make. *)
Definition candidates (self : acceptors) : list acceptor :=
  current self ++ omap (fun c => createAcceptor c (tags self)) (creators self).

Definition transit (ch : N) (self : acceptors) : option acceptors :=
  stepped ← mapM (fun a => acceptor_transit a ch) (candidates self);
  let _current := filter (fun a => isError a = false) stepped in
  Some (MkAcceptors (creators self) _current (list_to_set (tag <$> _current))).

Definition getFinalAcceptors (self : acceptors) : list acceptor :=
  filter (fun a => isFinal a = true) (current self).

(** Reading a whole text, as the loop of [buildPath] does. *)
Fixpoint transits (text : jsstr) (self : acceptors) : option acceptors :=
  match text with
  | [] => Some self
  | ch :: text' => self' ← transit ch self; transits text' self'
  end.

Lemma transits_app t1 t2 self :
  transits (t1 ++ t2) self = (self' ← transits t1 self; transits t2 self').
Proof.
  revert self. induction t1 as [|ch t1 IH]; intros self; [done|]. simpl.
  destruct (transit ch self); simpl; [apply IH|done].
Qed.

Lemma transits_snoc t ch self :
  transits (t ++ [ch]) self = (self' ← transits t self; transit ch self').
Proof.
  rewrite transits_app. destruct (transits t self); simpl; [|done].
  by destruct (transit ch _).
Qed.

Lemma transit_creators ch self self' :
  transit ch self = Some self' -> creators self' = creators self.
Proof. unfold transit. intros ?. by simplify_option_eq. Qed.

Lemma transits_creators t self self' :
  transits t self = Some self' -> creators self' = creators self.
Proof.
  revert self. induction t as [|ch t IH]; intros self Ht; simpl in Ht; [by simplify_eq|].
  destruct (transit ch self) as [s1|] eqn:E; simpl in Ht; [|done].
  rewrite (IH _ Ht). by apply transit_creators in E.
Qed.

(** The live acceptors after a character are the results, without error, of
    the candidates. *)
Lemma elem_of_transit ch self self' a :
  transit ch self = Some self' ->
  a ∈ current self' <->
  isError a = false /\ exists a0, a0 ∈ candidates self /\ acceptor_transit a0 ch = Some a.
Proof.
  unfold transit. destruct (mapM _ _) as [stepped|] eqn:E; [|done].
  intros [= <-]. simpl. rewrite list_elem_of_filter.
  apply mapM_Some in E. split.
  - intros [He Hin]. split; [done|]. apply list_elem_of_lookup in Hin as [i Hi].
    destruct (Forall2_lookup_r _ _ _ _ _ E Hi) as (a0 & Ha0 & Hstep).
    exists a0. split; [by eapply list_elem_of_lookup_2|done].
  - intros [He (a0 & Hin & Hstep)]. split; [done|].
    apply list_elem_of_lookup in Hin as [i Hi].
    destruct (Forall2_lookup_l _ _ _ _ _ E Hi) as (a1 & Ha1 & Hstep1).
    simplify_eq. by eapply list_elem_of_lookup_2.
Qed.

Lemma elem_of_candidates self a :
  a ∈ candidates self <->
  a ∈ current self \/ exists c, c ∈ creators self /\ createAcceptor c (tags self) = Some a.
Proof. unfold candidates. rewrite elem_of_app, list_elem_of_omap. done. Qed.

Lemma transit_tags ch self self' k :
  transit ch self = Some self' ->
  k ∈ tags self' <-> exists a, a ∈ current self' /\ tag a = k.
Proof.
  unfold transit. destruct (mapM _ _); [|done]. intros [= <-]. simpl.
  rewrite elem_of_list_to_set, list_elem_of_fmap. naive_solver.
Qed.

Context `{!CreatorLaws C}.

(** The invariant of [current] once [n] characters have been read since the
    last reset. *)
Definition live (n : nat) (a : acceptor) : Prop :=
  acceptor_ok a /\ isError a = false /\ 1 <= strOffset a <= n.

Lemma candidates_ok n self a :
  Forall creator_ok (creators self) -> Forall (live n) (current self) ->
  a ∈ candidates self ->
  acceptor_ok a /\ isError a = false /\ strOffset a <= n.
Proof.
  intros Hok Hc [Hin|(c & Hc' & Hcr)]%elem_of_candidates.
  - rewrite Forall_forall in Hc. destruct (Hc a Hin) as (?&?&?). split_and!; [done..|lia].
  - rewrite Forall_forall in Hok. apply create_ok in Hcr as (?&->&?); [|by apply Hok].
    split_and!; [done..|lia].
Qed.

Lemma transit_live n ch self :
  Forall creator_ok (creators self) -> Forall (live n) (current self) ->
  exists self', transit ch self = Some self' /\ Forall (live (S n)) (current self').
Proof.
  intros Hok Hc.
  assert (is_Some (mapM (fun a => acceptor_transit a ch) (candidates self))) as [l Hl].
  { apply mapM_is_Some, Forall_forall. intros a Ha.
    destruct (candidates_ok n self a Hok Hc Ha) as (?&?&?).
    destruct (transit_ok a ch) as (a'&Ha'&_); [done..|]. by exists a'. }
  assert (exists self', transit ch self = Some self') as [self' Hs].
  { unfold transit. rewrite Hl. simpl. eauto. }
  exists self'. split; [done|]. apply Forall_forall. intros a Ha.
  apply (elem_of_transit _ _ _ _ Hs) in Ha as (He & a0 & Hin & Hstep).
  destruct (candidates_ok n self a0 Hok Hc Hin) as (?&?&?).
  destruct (transit_ok a0 ch) as (a'&Ha'&Hor); [done..|]. simplify_eq.
  destruct Hor as [?|(?&?&?)]; [congruence|]. by split_and!; [done|done|lia|lia].
Qed.

(** Reading a text from a reset state never throws, and every live acceptor
    has read at least one and at most all of the characters. *)
Lemma transits_live t self :
  Forall creator_ok (creators self) ->
  exists self', transits t (reset self) = Some self' /\
    creators self' = creators self /\ Forall (live (length t)) (current self').
Proof.
  intros Hok.
  induction t as [|ch t IH] using rev_ind; [by exists (reset self); split_and!; simpl|].
  destruct IH as (s1 & H1 & Hc1 & Hl1).
  destruct (transit_live (length t) ch s1) as (s2 & H2 & Hl2); [by rewrite Hc1|done|].
  exists s2. rewrite transits_snoc, H1. simpl. split_and!; [done| |].
  - by rewrite (transit_creators _ _ _ H2).
  - rewrite length_app. simpl. by rewrite Nat.add_1_r.
Qed.

End Acceptors.
Arguments acceptors : clear implicits.

(** Reading several characters with one acceptor, up to the first error;
    [None] is an exception. *)
Fixpoint acceptor_run {C} `{Creator C} (a : acceptor) (s : jsstr) : option acceptor :=
  match s with
  | [] => Some a
  | ch :: s' =>
      a' ← acceptor_transit a ch;
      if isError a' then Some a' else acceptor_run a' s'
  end.
