(* ===== verification/Dict.v ===== *)
(** * The dictionary of wordcut

    Module 2 of wordcut.js: a sorted array of words, and acceptors that narrow
    the range of entries that start with the characters read so far by two
    binary searches per character.  The text of the default dictionary (one
    486 KB literal at line 109) is a variable: everything below holds for any
    such text. *)

From S2P Require Import Prelude Acceptors.

Inductive side := LEFT | RIGHT.

(** The loop of [dictSeek].  The outer option is [None] when the code throws
    ([this.dict[m]] is undefined) or the fuel runs out; the inner one is
    [null] or the index found. *)
Fixpoint dictSeek_loop (fuel : nat) (dict : list jsstr) (l r : Z) (ch : N)
    (strOffset : nat) (pos : side) (ans : option Z) : option (option Z) :=
  if decide (l <= r)%Z then
    match fuel with
    | O => None
    | S fuel =>
        let m := ((l + r) / 2)%Z in
        dict_item ← zlookup dict m;
        match dict_item !! strOffset with
        | None => dictSeek_loop fuel dict (m + 1) r ch strOffset pos ans
        | Some ch_ =>
            if (ch_ <? ch)%N then dictSeek_loop fuel dict (m + 1) r ch strOffset pos ans
            else if (ch <? ch_)%N then dictSeek_loop fuel dict l (m - 1) ch strOffset pos ans
            else match pos with
                 | LEFT => dictSeek_loop fuel dict l (m - 1) ch strOffset pos (Some m)
                 | RIGHT => dictSeek_loop fuel dict (m + 1) r ch strOffset pos (Some m)
                 end
        end
    end
  else Some ans.

(** Every iteration shrinks [r - l + 1], which is the fuel. *)
Definition dictSeek (dict : list jsstr) (l r : Z) (ch : N) (strOffset : nat) (pos : side)
    : option (option Z) :=
  dictSeek_loop (Z.to_nat (r - l + 1)) dict l r ch strOffset pos None.

Definition dict_isFinal (dict : list jsstr) (l : Z) (strOffset : nat) : option bool :=
  item ← zlookup dict l; Some (length item =? strOffset).

Definition dict_createAcceptor (dict : list jsstr) : acceptor :=
  {| strOffset := 0; isFinal := false; isError := false; tag := DICT; type := DICT;
     w := 1; unk := None; mw := None;
     data := DictRange dict 0 (Z.of_nat (length dict) - 1) |}.

(** The second search starts at an entry that matches, so it cannot answer
    [null]; the model throws there (and is proved not to). *)
Definition dict_transit (dict : list jsstr) (l r : Z) (a : acceptor) (ch : N) : option acceptor :=
  found ← dictSeek dict l r ch (strOffset a) LEFT;
  match found with
  | Some l' =>
      found_r ← dictSeek dict l' r ch (strOffset a) RIGHT;
      r' ← found_r;
      fin ← dict_isFinal dict l' (S (strOffset a));
      Some (advance a fin (DictRange dict l' r'))
  | None => Some (set_error a)
  end.

(** [a.sort().filter((item, pos, arr) => !pos || item != arr[pos - 1])]. *)
Fixpoint filter_repeats (previous : option jsstr) (arr : list jsstr) : list jsstr :=
  match arr with
  | [] => []
  | item :: arr' =>
      if decide (previous = Some item) then filter_repeats (Some item) arr'
      else item :: filter_repeats (Some item) arr'
  end.

Definition sortuniq (a : list jsstr) : list jsstr :=
  filter_repeats None (merge_sort str_le a).

Definition finalizeDict (dict : list jsstr) : list jsstr := sortuniq dict.

Definition addWords (dict words : list jsstr) (finalize : bool) : list jsstr :=
  let dict := dict ++ words in
  if finalize then finalizeDict dict else dict.

(** [text.split(/[\r\n]+/)]: every maximal run of line breaks separates. *)
Fixpoint split_lines_go (in_break : bool) (s : jsstr) : list jsstr :=
  match s with
  | [] => [[]]
  | c :: s' =>
      if decide (c = 13%N \/ c = 10%N) then
        if in_break then split_lines_go true s' else [] :: split_lines_go true s'
      else
        match split_lines_go false s' with
        | [] => [[c]]
        | p :: ps => (c :: p) :: ps
        end
  end.

Definition split_lines (s : jsstr) : list jsstr := split_lines_go false s.

Section Init.
Variable default_text : jsstr.

(** The bundler inlined the one default file, so the loop runs once and
    [files] is not read. *)
Definition addFiles (dict : list jsstr) (finalize : bool) : list jsstr :=
  let words := filter (fun wd => 1 < length wd) (split_lines default_text) in
  let dict := addWords dict words false in
  if finalize then finalizeDict dict else dict.

(** [dictPathFile] and [withDefault] only select what [addFiles] is called
    with, so they do not matter either. *)
Definition dict_init (words : option (list jsstr)) : list jsstr :=
  let dict := addFiles [] false in
  let dict := match words with Some ws => addWords dict ws false | None => dict end in
  finalizeDict dict.

End Init.

(** ** The binary searches *)

Section Seek.
Variables (dict : list jsstr) (ch : N) (off : nat).

(** How the entry at [i] compares with the character sought, at [off]; an
    entry that has ended compares below every character. *)
Definition kcmp (i : Z) : comparison :=
  match zlookup dict i with
  | Some item => match item !! off with Some c => (c ?= ch)%N | None => Lt end
  | None => Lt
  end.

Variables (L R : Z).
Hypothesis HL : (0 <= L)%Z.
Hypothesis HR : (R < Z.of_nat (length dict))%Z.
Hypothesis mono_lt : forall i j, (L <= i <= j)%Z -> (j <= R)%Z -> kcmp j = Lt -> kcmp i = Lt.
Hypothesis mono_gt : forall i j, (L <= i <= j)%Z -> (j <= R)%Z -> kcmp i = Gt -> kcmp j = Gt.

Lemma dictSeek_loop_step fuel l r pos ans m :
  m = ((l + r) / 2)%Z -> (L <= l)%Z -> (r <= R)%Z -> (l <= r)%Z ->
  dictSeek_loop (S fuel) dict l r ch off pos ans =
  match kcmp m with
  | Lt => dictSeek_loop fuel dict (m + 1) r ch off pos ans
  | Gt => dictSeek_loop fuel dict l (m - 1) ch off pos ans
  | Eq => match pos with
          | LEFT => dictSeek_loop fuel dict l (m - 1) ch off pos (Some m)
          | RIGHT => dictSeek_loop fuel dict (m + 1) r ch off pos (Some m)
          end
  end.
Proof using HL HR.
  intros Hm Hl Hr Hlr. simpl. rewrite decide_True by done. rewrite <- Hm.
  assert (l <= m <= r)%Z as Hmid.
  { subst m. pose proof (Z.div_mod (l + r) 2). pose proof (Z.mod_pos_bound (l + r) 2). lia. }
  unfold kcmp. destruct (zlookup_is_Some dict m) as [item Hi]; [lia|]. rewrite Hi. simpl.
  destruct (item !! off) as [c|]; [|done].
  destruct (N.compare_spec c ch) as [->|Hc|Hc].
  - by rewrite N.ltb_irrefl.
  - apply N.ltb_lt in Hc as Hc'. by rewrite Hc'.
  - assert ((c <? ch)%N = false) as -> by (apply N.ltb_ge; lia).
    by apply N.ltb_lt in Hc as ->.
Qed.

Lemma mid_bounds l r : (l <= r)%Z -> (l <= (l + r) / 2 <= r)%Z.
Proof. intros. pose proof (Z.div_mod (l + r) 2). pose proof (Z.mod_pos_bound (l + r) 2). lia. Qed.

Definition left_inv (l r : Z) (ans : option Z) : Prop :=
  (L <= l)%Z /\ (r <= R)%Z /\ (l <= r + 1)%Z /\
  (forall i, (L <= i < l)%Z -> kcmp i = Lt) /\
  match ans with
  | None => forall i, (r < i <= R)%Z -> kcmp i = Gt
  | Some m => m = (r + 1)%Z /\ (m <= R)%Z /\ kcmp m = Eq
  end.

Definition left_result (ans : option Z) : Prop :=
  match ans with
  | None => forall i, (L <= i <= R)%Z -> kcmp i <> Eq
  | Some m => (L <= m <= R)%Z /\ kcmp m = Eq /\ forall i, (L <= i < m)%Z -> kcmp i = Lt
  end.

Lemma seek_left_loop fuel l r ans :
  Z.to_nat (r - l + 1) <= fuel -> left_inv l r ans ->
  exists ans', dictSeek_loop fuel dict l r ch off LEFT ans = Some ans' /\ left_result ans'.
Proof using All.
  revert l r ans. induction fuel as [|fuel IH]; intros l r ans Hf (Hl & Hr & Hlr & Hlo & Hans).
  all: destruct (decide (l <= r)%Z) as [Hle|Hgt].
  - lia.
  - exists ans. simpl. rewrite decide_False by done. split; [done|].
    destruct ans as [m|]; simpl; [naive_solver lia|].
    intros i Hi. destruct (decide (i < l)%Z); [rewrite Hlo by lia; done|].
    rewrite Hans by lia. done.
  - set (m := ((l + r) / 2)%Z). pose proof (mid_bounds l r Hle) as Hm.
    rewrite (dictSeek_loop_step fuel l r LEFT ans m) by done.
    destruct (kcmp m) eqn:E; apply IH; try lia; refine (conj _ (conj _ (conj _ (conj _ _)))); try lia.
    + done.
    + split_and!; [lia|lia|done].
    + intros i Hi. apply (mono_lt i m); [lia|lia|done].
    + destruct ans as [m'|]; [|done]. done.
    + done.
    + destruct ans as [m'|].
      * destruct Hans as (-> & Hm' & Heq). exfalso.
        rewrite (mono_gt m (r + 1)) in Heq by (lia || done). done.
      * intros i Hi. apply (mono_gt m i); [lia|lia|done].
  - exists ans. simpl. rewrite decide_False by done. split; [done|].
    destruct ans as [m|]; simpl; [naive_solver lia|].
    intros i Hi. destruct (decide (i < l)%Z); [rewrite Hlo by lia; done|].
    rewrite Hans by lia. done.
Qed.

Definition right_inv (l r : Z) (ans : option Z) : Prop :=
  (L <= l)%Z /\ (r <= R)%Z /\ (l <= r + 1)%Z /\
  (forall i, (r < i <= R)%Z -> kcmp i = Gt) /\
  match ans with
  | None => forall i, (L <= i < l)%Z -> kcmp i = Lt
  | Some m => m = (l - 1)%Z /\ (L <= m)%Z /\ kcmp m = Eq
  end.

Definition right_result (ans : option Z) : Prop :=
  match ans with
  | None => forall i, (L <= i <= R)%Z -> kcmp i <> Eq
  | Some m => (L <= m <= R)%Z /\ kcmp m = Eq /\ forall i, (m < i <= R)%Z -> kcmp i = Gt
  end.

Lemma seek_right_loop fuel l r ans :
  Z.to_nat (r - l + 1) <= fuel -> right_inv l r ans ->
  exists ans', dictSeek_loop fuel dict l r ch off RIGHT ans = Some ans' /\ right_result ans'.
Proof using All.
  revert l r ans. induction fuel as [|fuel IH]; intros l r ans Hf (Hl & Hr & Hlr & Hhi & Hans).
  all: destruct (decide (l <= r)%Z) as [Hle|Hgt].
  - lia.
  - exists ans. simpl. rewrite decide_False by done. split; [done|].
    destruct ans as [m|]; simpl; [naive_solver lia|].
    intros i Hi. destruct (decide (i < l)%Z); [rewrite Hans by lia; done|].
    rewrite Hhi by lia. done.
  - set (m := ((l + r) / 2)%Z). pose proof (mid_bounds l r Hle) as Hm.
    rewrite (dictSeek_loop_step fuel l r RIGHT ans m) by done.
    destruct (kcmp m) eqn:E; apply IH; try lia; refine (conj _ (conj _ (conj _ (conj _ _)))); try lia.
    + done.
    + split_and!; [lia|lia|done].
    + done.
    + destruct ans as [m'|].
      * destruct Hans as (-> & Hm' & Heq). exfalso.
        rewrite (mono_lt (l - 1) m) in Heq by (lia || done). done.
      * intros i Hi. apply (mono_lt i m); [lia|lia|done].
    + intros i Hi. apply (mono_gt m i); [lia|lia|done].
    + by destruct ans.
  - exists ans. simpl. rewrite decide_False by done. split; [done|].
    destruct ans as [m|]; simpl; [naive_solver lia|].
    intros i Hi. destruct (decide (i < l)%Z); [rewrite Hans by lia; done|].
    rewrite Hhi by lia. done.
Qed.

Lemma dictSeek_left :
  (L <= R + 1)%Z ->
  exists ans, dictSeek dict L R ch off LEFT = Some ans /\ left_result ans.
Proof using All.
  intros. apply seek_left_loop; [done|]. refine (conj _ (conj _ (conj _ (conj _ _)))); intros; lia.
Qed.

Lemma dictSeek_right :
  (L <= R + 1)%Z ->
  exists ans, dictSeek dict L R ch off RIGHT = Some ans /\ right_result ans.
Proof using All.
  intros. apply seek_right_loop; [done|]. refine (conj _ (conj _ (conj _ (conj _ _)))); intros; lia.
Qed.

End Seek.

(** ** The range of entries with a given prefix *)

Definition sorted_dict (dict : list jsstr) : Prop := StronglySorted str_le dict.

Lemma sorted_dict_le dict i j x y :
  sorted_dict dict -> (i <= j)%Z -> zlookup dict i = Some x -> zlookup dict j = Some y ->
  str_le x y.
Proof.
  intros Hs Hij [Hi0 Hi]%zlookup_Some [Hj0 Hj]%zlookup_Some.
  destruct (decide (i = j)) as [->|]; [by simplify_eq|].
  eapply (StronglySorted_lookup _ _ (Z.to_nat i) (Z.to_nat j)); [done|lia|done|done].
Qed.

(** [l..r] are exactly the indices of the entries that start with [p]. *)
Definition range_ok (dict : list jsstr) (p : jsstr) (l r : Z) : Prop :=
  (0 <= l)%Z /\ (r < Z.of_nat (length dict))%Z /\ (l <= r + 1)%Z /\
  forall i item, zlookup dict i = Some item -> (l <= i <= r)%Z <-> p `prefix_of` item.

Lemma range_ok_nil dict : range_ok dict [] 0 (Z.of_nat (length dict) - 1).
Proof.
  split_and!; [lia..|]. intros i item Hi%zlookup_lt. split; [|lia].
  intros _. apply prefix_nil.
Qed.

Section Narrow.
Context (dict : list jsstr) (Hsorted : sorted_dict dict).
Context (p : jsstr) (ch : N).

Lemma kcmp_prefixed i k :
  zlookup dict i = Some (p ++ k) ->
  kcmp dict ch (length p) i = match head k with Some c => (c ?= ch)%N | None => Lt end.
Proof. intros Hi. unfold kcmp. by rewrite Hi, lookup_prefix. Qed.

Lemma kcmp_mono l r i j :
  (0 <= l)%Z -> (r < Z.of_nat (length dict))%Z ->
  (forall i item, zlookup dict i = Some item -> (l <= i <= r)%Z -> p `prefix_of` item) ->
  (l <= i <= j)%Z -> (j <= r)%Z ->
  (kcmp dict ch (length p) j = Lt -> kcmp dict ch (length p) i = Lt) /\
  (kcmp dict ch (length p) i = Gt -> kcmp dict ch (length p) j = Gt).
Proof using Hsorted.
  intros Hl Hr Hpre Hij Hj.
  destruct (zlookup_is_Some dict i) as [x Hx]; [lia|].
  destruct (zlookup_is_Some dict j) as [y Hy]; [lia|].
  pose proof (sorted_dict_le dict i j x y Hsorted ltac:(lia) Hx Hy) as Hle.
  destruct (Hpre i x Hx) as [a ->]; [lia|]. destruct (Hpre j y Hy) as [b ->]; [lia|].
  apply str_le_app in Hle. rewrite (kcmp_prefixed _ _ Hx), (kcmp_prefixed _ _ Hy).
  destruct a as [|c a]; simpl; [done|]. destruct b as [|d b]; [done|].
  apply str_le_cons in Hle. simpl. rewrite !N.compare_lt_iff, !N.compare_gt_iff. lia.
Qed.

Lemma kcmp_eq_prefix i item :
  zlookup dict i = Some item -> p `prefix_of` item ->
  kcmp dict ch (length p) i = Eq <-> (p ++ [ch]) `prefix_of` item.
Proof.
  intros Hi Hp. rewrite prefix_snoc. unfold kcmp. rewrite Hi.
  destruct (item !! length p) as [c|]; [|naive_solver].
  rewrite N.compare_eq_iff. naive_solver.
Qed.

(** One character narrows the range to the longer prefix; it fails exactly
    when no entry has the longer prefix. *)
Lemma seek_narrow l r :
  range_ok dict p l r ->
  exists found, dictSeek dict l r ch (length p) LEFT = Some found /\
  match found with
  | None => forall item, item ∈ dict -> ~ (p ++ [ch]) `prefix_of` item
  | Some l' => exists r', dictSeek dict l' r ch (length p) RIGHT = Some (Some r') /\
      (l' <= r')%Z /\ range_ok dict (p ++ [ch]) l' r'
  end.
Proof using Hsorted.
  intros (Hl & Hr & Hlr & Hrange).
  assert (forall i item, zlookup dict i = Some item -> (l <= i <= r)%Z -> p `prefix_of` item)
    as Hpre by (intros i item Hi; by apply Hrange).
  destruct (dictSeek_left dict ch (length p) l r) as (found & Hf & Hres); try done.
  { intros i j ???. by eapply (kcmp_mono l r i j). }
  { intros i j ???. by eapply (kcmp_mono l r i j). }
  exists found. split; [done|]. destruct found as [l'|].
  - destruct Hres as (Hl' & Heq & Hlt).
    destruct (dictSeek_right dict ch (length p) l' r) as (fr & Hfr & Hresr); try (done || lia).
    { intros i j ???. eapply (kcmp_mono l r i j); (done || lia). }
    { intros i j ???. eapply (kcmp_mono l r i j); (done || lia). }
    destruct fr as [r'|]; [|exfalso; by apply (Hresr l'); [lia|]].
    destruct Hresr as (Hr' & Heqr & Hgt). exists r'. split_and!; [done|lia|].
    split_and!; [lia..|]. intros i item Hi. split.
    + intros Hir. apply (kcmp_eq_prefix i); [done|by apply (Hpre i); [|lia]|].
      destruct (kcmp dict ch (length p) i) eqn:E; [done| |].
      * destruct (kcmp_mono l r l' i) as [Hm _]; try (done || lia). by rewrite Hm in Heq.
      * destruct (kcmp_mono l r i r') as [_ Hm]; try (done || lia). by rewrite Hm in Heqr.
    + intros Hpi. assert (p `prefix_of` item) as Hp by (by apply prefix_snoc in Hpi as [? _]).
      apply (Hrange i item Hi) in Hp as Hir.
      apply (kcmp_eq_prefix i item Hi Hp) in Hpi.
      split; apply Z.nlt_ge; intros ?; [rewrite Hlt in Hpi by lia|rewrite Hgt in Hpi by lia]; done.
  - intros item [n Hn]%list_elem_of_lookup Hpi.
    rewrite <- zlookup_nat in Hn.
    assert (p `prefix_of` item) as Hp by (by apply prefix_snoc in Hpi as [? _]).
    apply (Hres (Z.of_nat n)); [by apply (Hrange _ item)|].
    by apply (kcmp_eq_prefix _ item).
Qed.

End Narrow.

(** The first entry of the range is the prefix itself when the dictionary has
    it, so comparing lengths tells whether the prefix is a word. *)
Lemma range_final dict p l r :
  sorted_dict dict -> range_ok dict p l r -> (l <= r)%Z ->
  exists b, dict_isFinal dict l (length p) = Some b /\ (b = true <-> p ∈ dict).
Proof.
  intros Hs (Hl & Hr & Hlr & Hrange) Hle. unfold dict_isFinal.
  destruct (zlookup_is_Some dict l) as [item Hi]; [lia|]. rewrite Hi. simpl.
  eexists. split; [done|]. rewrite Nat.eqb_eq.
  assert (p `prefix_of` item) as Hp by (apply (Hrange l item Hi); lia).
  assert (item ∈ dict) as Hin.
  { apply zlookup_Some in Hi as [_ Hi]. by eapply list_elem_of_lookup_2. }
  split.
  - intros Hlen. by rewrite (prefix_length_eq p item Hp) by lia.
  - intros [n Hn]%list_elem_of_lookup. rewrite <- zlookup_nat in Hn.
    assert (l <= Z.of_nat n)%Z as Hln by (apply (Hrange _ p Hn); reflexivity).
    pose proof (sorted_dict_le dict l _ item p Hs Hln Hi Hn) as Hge.
    by rewrite (anti_symm str_le item p Hge (prefix_str_le _ _ Hp)).
Qed.

(** ** Acceptors of the dictionary *)

(** The acceptor has read [p], and [p] is a prefix of some entry (or empty). *)
Definition dict_reading (dict : list jsstr) (p : jsstr) (a : acceptor) : Prop :=
  isError a = false /\ strOffset a = length p /\
  exists l r, data a = DictRange dict l r /\ range_ok dict p l r.

Lemma dict_createAcceptor_reading dict : dict_reading dict [] (dict_createAcceptor dict).
Proof. split_and!; [done..|]. eexists _, _. split; [done|]. apply range_ok_nil. Qed.

Lemma dict_transit_spec dict l r p a ch :
  sorted_dict dict -> dict_reading dict p a -> data a = DictRange dict l r ->
  exists a', dict_transit dict l r a ch = Some a' /\ tag a' = tag a /\ type a' = type a /\
    w a' = w a /\ unk a' = unk a /\ mw a' = mw a /\
    ((isError a' = true /\ forall item, item ∈ dict -> ~ (p ++ [ch]) `prefix_of` item) \/
     (dict_reading dict (p ++ [ch]) a' /\
      (exists item, item ∈ dict /\ (p ++ [ch]) `prefix_of` item) /\
      (isFinal a' = true <-> p ++ [ch] ∈ dict))).
Proof.
  intros Hs (He & Ho & l0 & r0 & Hd & Hrange) Hd'. rewrite Hd in Hd'. simplify_eq.
  destruct (seek_narrow dict Hs p ch l r Hrange) as (found & Hf & Hres).
  unfold dict_transit. rewrite Ho, Hf. simpl. destruct found as [l'|].
  - destruct Hres as (r' & Hfr & Hle & Hrange'). rewrite Hfr. simpl.
    destruct (range_final dict (p ++ [ch]) l' r' Hs Hrange' Hle) as (b & Hb & Hmem).
    rewrite length_app, Nat.add_1_r in Hb. rewrite Hb. simpl.
    eexists. split; [done|]. simpl. split_and!; [done..|]. right. split_and!.
    + split_and!; [done|simpl; rewrite Ho, length_app; simpl; lia|]. by eexists _, _.
    + destruct Hrange' as (?&?&?&Hr'). destruct (zlookup_is_Some dict l') as [item Hi]; [lia|].
      exists item. split; [|apply (Hr' l' item Hi); lia].
      apply zlookup_Some in Hi as [_ Hi]. by eapply list_elem_of_lookup_2.
    + done.
  - eexists. split; [done|]. simpl. split_and!; [done..|]. by left.
Qed.

(** ** Sorting and removing repeats *)

Lemma elem_of_filter_repeats x prev arr : x ∈ filter_repeats prev arr -> x ∈ arr.
Proof.
  revert prev. induction arr as [|y arr IH]; intros prev; simpl; [done|].
  case_decide; rewrite ?elem_of_cons; naive_solver.
Qed.

Lemma filter_repeats_keeps x prev arr :
  x ∈ arr -> prev <> Some x -> x ∈ filter_repeats prev arr.
Proof.
  revert prev. induction arr as [|y arr IH]; intros prev Hin Hne; simpl; [by apply elem_of_nil in Hin|].
  apply elem_of_cons in Hin as [->|Hin].
  - rewrite decide_False by congruence. apply elem_of_cons. by left.
  - destruct (decide (x = y)) as [->|Hxy].
    + rewrite decide_False by congruence. apply elem_of_cons. by left.
    + case_decide; [|apply elem_of_cons; right]; apply IH; congruence.
Qed.

Definition str_lt (a b : jsstr) : Prop := str_le a b /\ a <> b.

Lemma filter_repeats_sorted prev arr :
  StronglySorted str_le arr ->
  (forall p, prev = Some p -> Forall (str_le p) arr) ->
  StronglySorted str_lt (filter_repeats prev arr) /\
  forall p, prev = Some p -> Forall (str_lt p) (filter_repeats prev arr).
Proof.
  intros Hs. revert prev. induction Hs as [|x arr Hs IH Hall]; intros prev Hprev; simpl.
  { split; [constructor|]. constructor. }
  destruct (IH (Some x)) as [IHs IHx]; [by intros p [= ->]|].
  specialize (IHx x eq_refl).
  case_decide as Hd; [split; [done|]; intros p ->; by injection Hd as ->|].
  split; [by constructor|]. intros p ->.
  assert (str_lt p x) as Hpx.
  { specialize (Hprev p eq_refl). apply Forall_cons in Hprev as [? _]. split; congruence. }
  constructor; [done|]. eapply Forall_impl; [exact IHx|].
  intros y [Hxy Hne]. destruct Hpx as [Hpx Hne']. split; [by etrans|].
  intros <-. apply Hne'. by apply (anti_symm str_le).
Qed.

(** [sortuniq] yields a strictly increasing array with the same members. *)
Lemma sortuniq_strict a : StronglySorted str_lt (sortuniq a).
Proof. apply filter_repeats_sorted; [apply (StronglySorted_merge_sort str_le)|done]. Qed.

Lemma elem_of_sortuniq a x : x ∈ sortuniq a <-> x ∈ a.
Proof.
  unfold sortuniq. rewrite <- (merge_sort_Permutation str_le a) at 2. split.
  - apply elem_of_filter_repeats.
  - intros. by apply filter_repeats_keeps.
Qed.

Lemma sortuniq_sorted a : sorted_dict (sortuniq a).
Proof.
  unfold sorted_dict. induction (sortuniq_strict a) as [|x l Hs IH Hall]; constructor; [done|].
  eapply Forall_impl; [exact Hall|]. by intros y [? _].
Qed.

Lemma dict_init_sorted default_text words : sorted_dict (dict_init default_text words).
Proof. apply sortuniq_sorted. Qed.

(** The words of a loaded dictionary: the lines of at least two characters of
    the default text, and the additional words. *)
Lemma elem_of_dict_init default_text words x :
  x ∈ dict_init default_text words <->
  (x ∈ split_lines default_text /\ 1 < length x) \/ (exists ws, words = Some ws /\ x ∈ ws).
Proof.
  unfold dict_init, finalizeDict. rewrite elem_of_sortuniq.
  unfold addFiles, addWords. simpl. destruct words as [ws|].
  - rewrite elem_of_app, list_elem_of_filter. naive_solver.
  - rewrite list_elem_of_filter. naive_solver.
Qed.
