(* ===== verification/LatinRules.v ===== *)
(** * The rules for Latin words, spaces, symbols and numbers

    Module 3 of wordcut.js. *)

From S2P Require Import Prelude Acceptors.

(** [ch.toLowerCase()] of one code unit, as far as the comparison with
    ["a"]..["z"] can see: besides the ASCII letters, only U+0130 (whose lower
    case is [i] and a combining dot) and U+212A (the Kelvin sign) have a lower
    case that starts with an ASCII letter.  Every other code unit has a lower
    case outside the range, and stands for it here. *)
Definition toLowerCase (ch : N) : jsstr :=
  if in_range 65 90 ch then [(ch + 32)%N]
  else if decide (ch = 0x130%N) then [0x69; 0x307]%N
  else if decide (ch = 0x212A%N) then [0x6B%N]
  else [ch].

(** [lch >= "a" && lch <= "z"] *)
Definition is_word_char (ch : N) : bool :=
  let lch := toLowerCase ch in str_leb «"a"» lch && str_leb lch «"z"».

Definition is_digit (ch : N) : bool := in_range 48 57 ch.

Definition is_space (ch : N) : bool :=
  bool_decide (ch ∈ [0x20; 0x09; 0x0D; 0x0A; 0xA0; 0x2003]%N).

(** The class of SingleSymbolRule: at sign, parentheses, slash, comma, hyphen,
    full stop, double quote and backtick, by code unit. *)
Definition is_symbol (ch : N) : bool :=
  bool_decide (ch ∈ [64; 40; 41; 47; 44; 45; 46; 34; 96]%N).

Definition fresh (k : kind) (u : option Z) (d : rule_data) : acceptor :=
  {| strOffset := 0; isFinal := false; isError := false; tag := k; type := k;
     w := 1; unk := u; mw := None; data := d |}.

Definition WordRule_createAcceptor (t : gset kind) : option acceptor :=
  if decide (WORD_RULE ∈ t) then None else Some (fresh WORD_RULE None NoData).

Definition WordRule_transit (a : acceptor) (ch : N) : acceptor :=
  if is_word_char ch then advance a true (data a) else set_error a.

Definition NumberRule_createAcceptor (t : gset kind) : option acceptor :=
  if decide (NUMBER_RULE ∈ t) then None else Some (fresh NUMBER_RULE None NoData).

Definition NumberRule_transit (a : acceptor) (ch : N) : acceptor :=
  if is_digit ch then advance a true (data a) else set_error a.

Definition SpaceRule_createAcceptor (t : gset kind) : option acceptor :=
  if decide (SPACE_RULE ∈ t) then None else Some (fresh SPACE_RULE None NoData).

Definition SpaceRule_transit (a : acceptor) (ch : N) : acceptor :=
  if is_space ch then advance a true (data a) else set_error a.

Definition SingleSymbolRule_createAcceptor (t : gset kind) : option acceptor :=
  Some (fresh SINSYM None NoData).

Definition SingleSymbolRule_transit (a : acceptor) (ch : N) : acceptor :=
  if (strOffset a =? 0) && is_symbol ch then advance a true (data a) else set_error a.

(** The word characters are the ASCII letters and the two code units above. *)
Lemma is_word_char_spec ch :
  is_word_char ch = true <->
  in_range 65 90 ch = true \/ in_range 97 122 ch = true \/ ch = 0x130%N \/ ch = 0x212A%N.
Proof.
  assert (forall c, str_leb «"a"» [c] && str_leb [c] «"z"» = in_range 97 122 c) as Hone.
  { intros c. change «"a"» with [97%N]. change «"z"» with [122%N]. unfold in_range. cbn [str_leb].
    apply eq_true_iff_eq. rewrite !andb_true_r.
    rewrite !andb_true_iff, !orb_true_iff, !N.leb_le, !N.ltb_lt, !N.eqb_eq. lia. }
  unfold is_word_char, toLowerCase.
  destruct (in_range 65 90 ch) eqn:E; [|destruct (decide (ch = 0x130%N)) as [->|];
    [|destruct (decide (ch = 0x212A%N)) as [->|]]].
  - rewrite Hone. unfold in_range in *. rewrite !andb_true_iff, !N.leb_le in *.
    intuition lia.
  - split; [by auto|done].
  - split; [by auto|done].
  - rewrite Hone. naive_solver.
Qed.
