(* ===== verification/ThaiRules.v ===== *)
(** * The rules for Thai

    Module 6 of wordcut.js.  Thai characters are written as code units. *)

From S2P Require Import Prelude Acceptors LatinRules.

Definition is_thai_consonant (ch : N) : bool := in_range 0xE01 0xE2E ch.

(** A pattern character matches itself; the two characters of [[กข]] and the
    two of [[มบ]] stand for any consonant, U+0E49 for any tone mark. *)
Definition isMatch (pat : jsstr) (offset : nat) (ch : N) : bool :=
  match pat !! offset with
  | None => false
  | Some _ch =>
      (_ch =? ch)%N
      || (bool_decide (_ch ∈ [0xE01; 0xE02]%N) && is_thai_consonant ch)
      || (bool_decide (_ch ∈ [0xE21; 0xE1A]%N) && is_thai_consonant ch)
      || ((_ch =? 0xE49)%N && in_range 0xE48 0xE4B ch)
  end.

Definition Rule0_pat : jsstr := [0xE40; 0xE2B; 0xE01; 0xE47; 0xE21]%N.

Definition Rule0_createAcceptor (t : gset kind) : option acceptor :=
  Some (fresh THAI_RULE None NoData).

Definition Rule0_transit (a : acceptor) (ch : N) : acceptor :=
  if isMatch Rule0_pat (strOffset a) ch then
    advance a (strOffset a + 1 =? length Rule0_pat) (data a)
  else set_error a.

Definition PartRule_patterns : list jsstr :=
  [ [0xE41; 0xE01]; [0xE40; 0xE01]; [0xE01; 0xE49]; [0xE01; 0xE01; 0xE4C];
    [0xE01; 0xE32]; [0xE01; 0xE35]; [0xE01; 0xE34]; [0xE01; 0xE37; 0xE01] ]%N.

Definition PartRule_createAcceptor (t : gset kind) : option acceptor :=
  Some (fresh PART (Some 1%Z) (Patterns PartRule_patterns)).

Definition with_data (a : acceptor) (d : rule_data) : acceptor :=
  {| strOffset := strOffset a; isFinal := isFinal a; isError := isError a;
     tag := tag a; type := type a; w := w a; unk := unk a; mw := mw a; data := d |}.

Definition PartRule_transit (patterns : list jsstr) (a : acceptor) (ch : N) : acceptor :=
  let offset := strOffset a in
  let patterns := filter (fun pat => isMatch pat offset ch = true) patterns in
  if decide (0 < length patterns) then
    let len := 1 + offset in
    advance a (existsb (fun pat => length pat =? len) patterns) (Patterns patterns)
  else set_error (with_data a (Patterns patterns)).

(** A pattern matches a string of at most its length when it matches every
    character at its offset. *)
Definition matches_upto (pat s : jsstr) : Prop :=
  forall i ch, s !! i = Some ch -> isMatch pat i ch = true.

Lemma matches_upto_snoc pat s ch :
  matches_upto pat (s ++ [ch]) <-> matches_upto pat s /\ isMatch pat (length s) ch = true.
Proof.
  unfold matches_upto. split.
  - intros Hm. split; [intros i c Hi; apply Hm; by apply lookup_app_l_Some|].
    apply Hm. by rewrite lookup_app_r, Nat.sub_diag by lia.
  - intros [Hm Hc] i c [Hi|[Hlen Hi]]%lookup_app_Some; [by apply Hm|].
    destruct (i - length s) as [|n] eqn:E; [|done]. simplify_eq/=.
    by replace i with (length s) by lia.
Qed.

(** The acceptor of PartRule keeps exactly the patterns that match what it
    has read, and is final when one of them is read completely. *)
Definition part_reading (s : jsstr) (a : acceptor) : Prop :=
  isError a = false /\ strOffset a = length s /\
  exists ps, data a = Patterns ps /\
    forall pat, pat ∈ ps <-> pat ∈ PartRule_patterns /\ matches_upto pat s.

Lemma PartRule_transit_spec s a ch ps :
  part_reading s a -> data a = Patterns ps ->
  let a' := PartRule_transit ps a ch in
  (isError a' = true /\ forall pat, pat ∈ PartRule_patterns -> ~ matches_upto pat (s ++ [ch])) \/
  (part_reading (s ++ [ch]) a' /\
   (isFinal a' = true <->
    exists pat, pat ∈ PartRule_patterns /\ matches_upto pat (s ++ [ch]) /\
                length pat = length (s ++ [ch]))).
Proof.
  intros (He & Ho & ps0 & Hd & Hps) Hd' a'. rewrite Hd in Hd'. simplify_eq.
  set (ps' := filter (fun pat => isMatch pat (strOffset a) ch = true) ps).
  assert (forall pat, pat ∈ ps' <-> pat ∈ PartRule_patterns /\ matches_upto pat (s ++ [ch])) as Hps'.
  { intros pat. unfold ps'. rewrite list_elem_of_filter, Hps, matches_upto_snoc, Ho. tauto. }
  subst a'. unfold PartRule_transit. fold ps'. case_decide as Hlen.
  - right. split.
    + split_and!; [done|simpl; rewrite Ho, length_app; simpl; lia|]. by exists ps'.
    + simpl. rewrite Ho, existsb_exists, length_app. simpl.
      setoid_rewrite <- list_elem_of_In. setoid_rewrite Hps'. setoid_rewrite Nat.eqb_eq.
      rewrite Nat.add_1_r. naive_solver.
  - left. split; [done|]. intros pat Hin Hm.
    assert (pat ∈ ps') as Hp by (by apply Hps'). destruct ps'; [by apply elem_of_nil in Hp|].
    simpl in Hlen. lia.
Qed.
