(* ===== verification/PathInfoBuilder.v ===== *)
(** * Candidate steps of the segmentation, and the choice among them

    Modules 4 (PathInfoBuilder) and 5 (PathSelector) of wordcut.js.  The entry
    [path[j]] describes the best way found to reach position [j] of the text:
    where its last piece starts ([p]), and the costs of the whole way.  The
    entries are mutated in place by acceptors of type PART (the [merge]
    property), so the path is threaded through the construction. *)

From S2P Require Import Prelude Acceptors.

Record info := Info {
  i_p : option Z;      (* null for the initial entry *)
  i_mw : Z;
  i_w : Z;
  i_unk : Z;
  i_type : kind;
  i_merge : option Z   (* None for undefined *)
}.

Definition set_merge (m : Z) (x : info) : info :=
  Info (i_p x) (i_mw x) (i_w x) (i_unk x) (i_type x) (Some m).

(** [for (var j = p + 1; j <= i; j++) path[j].merge = p]; a missing entry
    throws. *)
Definition mark_merge (p : Z) (i : nat) (path : list info) : option (list info) :=
  if decide (p + 1 <= Z.of_nat i)%Z then
    if decide (length path <= i) then None
    else Some (imap (fun j x => if decide ((p + 1 <= Z.of_nat j)%Z /\ j <= i) then set_merge p x else x) path)
  else Some path.

(** The body of the [map] in [buildByAcceptors]. *)
Definition build_one (path : list info) (a : acceptor) (i : nat) : option (list info * info) :=
  let p := (Z.of_nat i - Z.of_nat (strOffset a) + 1)%Z in
  _info ← zlookup path p;
  let x := Info (Some p) (i_mw _info + default 0 (mw a))%Z (w a + i_w _info)%Z
                (default 0 (unk a) + i_unk _info)%Z (type a) None in
  if decide (type a = PART) then
    path' ← mark_merge p i path;
    Some (path', set_merge p x)
  else Some (path, x).

(** The final [filter] keeps every entry: they are all objects. *)
Fixpoint buildByAcceptors (path : list info) (finalAcceptors : list acceptor) (i : nat)
    : option (list info * list info) :=
  match finalAcceptors with
  | [] => Some (path, [])
  | a :: rest =>
      '(path1, x) ← build_one path a i;
      '(path2, xs) ← buildByAcceptors path1 rest i;
      Some (path2, x :: xs)
  end.

(** [/[\u0E48-\u0E4E]/] *)
Definition is_tone_mark (c : N) : bool := in_range 0xE48 0xE4E c.

Definition fallback (path : list info) (leftBoundary : Z) (text : jsstr) (i : nat) : option info :=
  _info ← zlookup path leftBoundary;
  ch ← text !! i;
  if is_tone_mark ch then
    let leftBoundary := if decide (leftBoundary = 0)%Z then Some leftBoundary else i_p _info in
    Some (Info leftBoundary 0 (1 + i_w _info)%Z (1 + i_unk _info)%Z UNK None)
  else
    Some (Info (Some leftBoundary) (i_mw _info) (1 + i_w _info)%Z (1 + i_unk _info)%Z UNK None).

Definition build (path : list info) (finalAcceptors : list acceptor) (i : nat)
    (leftBoundary : Z) (text : jsstr) : option (list info * list info) :=
  '(path', basicPathInfos) ← buildByAcceptors path finalAcceptors i;
  match basicPathInfos with
  | _ :: _ => Some (path', basicPathInfos)
  | [] => x ← fallback path' leftBoundary text i; Some (path', [x])
  end.

(** The function given to [reduce]. *)
Definition select_step (selectedPath : option info) (path : info) : option info :=
  match selectedPath with
  | None => Some path
  | Some sel =>
      if decide (i_unk path < i_unk sel)%Z then Some path
      else if decide (i_unk path = i_unk sel) then
        if decide (i_mw path < i_mw sel)%Z then Some path
        else if decide (i_mw path = i_mw sel) then
          if decide (i_w path < i_w sel)%Z then Some path else Some sel
        else Some sel
      else Some sel
  end.

Definition selectPath (paths : list info) : option info := foldl select_step None paths.

Definition createPath : list info := [Info None 0 0 0 INIT None].

(** ** The order that [selectPath] minimises: unknown pieces, then [mw], then
    the number of pieces *)

Definition cost_le (a b : info) : Prop :=
  (i_unk a < i_unk b \/ (i_unk a = i_unk b /\
    (i_mw a < i_mw b \/ (i_mw a = i_mw b /\ i_w a <= i_w b))))%Z.

#[export] Instance cost_le_trans : Transitive cost_le.
Proof. unfold cost_le. intros a b c. lia. Qed.

#[export] Instance cost_le_refl : Reflexive cost_le.
Proof. unfold cost_le. intros a. lia. Qed.

Lemma select_step_spec sel x y :
  select_step (Some sel) x = Some y ->
  cost_le y sel /\ cost_le y x /\ (y = sel \/ (y = x /\ ~ cost_le sel x)).
Proof.
  unfold select_step, cost_le. intros H.
  repeat case_decide; simplify_eq; split_and!; try lia; first [left; done|right; split; [done|lia]].
Qed.

Lemma selectPath_from sel paths :
  exists y, foldl select_step (Some sel) paths = Some y /\
    (y = sel \/ y ∈ paths) /\ cost_le y sel /\ Forall (cost_le y) paths.
Proof.
  revert sel. induction paths as [|x paths IH]; intros sel; cbn [foldl].
  - exists sel. split_and!; [done|by left|done|by constructor].
  - assert (exists s, select_step (Some sel) x = Some s) as [s Hs].
    { unfold select_step. repeat case_decide; eauto. }
    rewrite Hs. destruct (IH s) as (y & Hy & Hin & Hle & Hall).
    destruct (select_step_spec _ _ _ Hs) as (H1 & H2 & H3).
    exists y. split_and!; [done| |by etrans|constructor; [by etrans|done]].
    destruct Hin as [->|Hin]; [|right; by apply elem_of_cons; right].
    destruct H3 as [->|[-> _]]; [by left|right; apply elem_of_cons; by left].
Qed.

Lemma selectPath_spec paths :
  paths <> [] ->
  exists y, selectPath paths = Some y /\ y ∈ paths /\ Forall (cost_le y) paths.
Proof.
  destruct paths as [|x paths]; [done|]. intros _. unfold selectPath. simpl.
  destruct (selectPath_from x paths) as (y & Hy & Hin & Hle & Hall).
  exists y. split_and!; [done| |by constructor].
  apply elem_of_cons. destruct Hin; auto.
Qed.

(** ** Well-formed paths *)

(** Every entry but the first starts before its own position, and so does a
    merge mark. *)
Definition entry_ok (j : nat) (x : info) : Prop :=
  (0 < j -> exists q, i_p x = Some q /\ (0 <= q < Z.of_nat j)%Z) /\
  (forall m, i_merge x = Some m -> (0 <= m < Z.of_nat j)%Z).

Definition path_ok (path : list info) : Prop :=
  forall j x, path !! j = Some x -> entry_ok j x.

(** The costs of an entry, which marking never changes. *)
Definition costs (x : info) : option Z * Z * Z * Z * kind :=
  (i_p x, i_mw x, i_w x, i_unk x, i_type x).

Lemma createPath_ok : path_ok createPath.
Proof. intros [|[|j]] x Hx; simplify_eq/=. split; [lia|done]. Qed.

Lemma path_ok_snoc path x :
  path_ok path -> entry_ok (length path) x -> path_ok (path ++ [x]).
Proof.
  intros Hp Hx j y [Hj|[Hlen Hj]]%lookup_app_Some; [by apply Hp|].
  apply list_lookup_singleton_Some in Hj as [Hj <-]. by replace j with (length path) by lia.
Qed.

Lemma mark_merge_spec p i path :
  path_ok path -> (0 <= p)%Z -> i < length path ->
  exists path', mark_merge p i path = Some path' /\ path_ok path' /\
    costs <$> path' = costs <$> path.
Proof.
  intros Hok Hp Hi. unfold mark_merge. case_decide; [|by exists path].
  rewrite decide_False by lia. eexists. split; [done|]. split.
  - intros j x. rewrite list_lookup_imap. intros (y & Hy & ->)%fmap_Some.
    destruct (Hok j y Hy) as [Hq Hm]. case_decide; [|done].
    split; [done|]. simpl. intros m [= <-]. lia.
  - apply list_eq. intros j. rewrite !list_lookup_fmap, list_lookup_imap.
    destruct (path !! j) as [y|]; [|done]. simpl. by case_decide.
Qed.

(** A candidate built from an acceptor of the given offset. *)
Definition candidate (path : list info) (a : acceptor) (i : nat) (x : info) : Prop :=
  exists y, path !! (i + 1 - strOffset a) = Some y /\
    i_p x = Some (Z.of_nat (i + 1 - strOffset a)) /\
    i_mw x = (i_mw y + default 0 (mw a))%Z /\ i_w x = (w a + i_w y)%Z /\
    i_unk x = (default 0 (unk a) + i_unk y)%Z /\ i_type x = type a.

Lemma candidate_costs path path' a i x :
  costs <$> path' = costs <$> path -> candidate path' a i x -> candidate path a i x.
Proof.
  intros Hc (y & Hy & Hx).
  assert (costs <$> path !! (i + 1 - strOffset a) = Some (costs y)) as Hc'.
  { rewrite <- list_lookup_fmap, <- Hc, list_lookup_fmap, Hy. done. }
  apply fmap_Some in Hc' as (z & Hz & Hyz). exists z. split; [done|].
  unfold costs in Hyz. injection Hyz as E1 E2 E3 E4 E5. by rewrite <- E2, <- E3, <- E4.
Qed.

Section Build.
Context (path : list info) (i : nat).
Context (Hlen : length path = S i).

Definition offset_ok (a : acceptor) : Prop := 1 <= strOffset a <= S i.

Lemma build_one_spec path' a :
  path_ok path' -> costs <$> path' = costs <$> path -> offset_ok a ->
  exists path'' x, build_one path' a i = Some (path'', x) /\ path_ok path'' /\
    costs <$> path'' = costs <$> path /\ candidate path a i x /\ entry_ok (S i) x.
Proof using Hlen.
  intros Hok Hc [H1 H2]. unfold build_one.
  assert (length path' = S i) as Hlen'.
  { by rewrite <- (length_fmap costs path'), Hc, length_fmap. }
  replace (Z.of_nat i - Z.of_nat (strOffset a) + 1)%Z with (Z.of_nat (i + 1 - strOffset a)) by lia.
  destruct (lookup_lt_is_Some_2 path' (i + 1 - strOffset a)) as [y Hy]; [lia|].
  rewrite zlookup_nat, Hy. simpl. set (n := i + 1 - strOffset a) in *.
  case_decide as Hpart.
  - destruct (mark_merge_spec (Z.of_nat n) i path') as (path'' & -> & Hok'' & Hc''); [done|lia|lia|].
    eexists _, _. split; [done|]. simpl. split_and!; [done|by rewrite Hc''| |].
    + apply (candidate_costs path path'); [done|]. by exists y.
    + split; simpl; [intros _; exists (Z.of_nat n); split; [done|lia]|]. intros m [= <-]. lia.
  - eexists _, _. split; [done|]. simpl. split_and!; [done|done| |].
    + apply (candidate_costs path path'); [done|]. by exists y.
    + split; simpl; [intros _; exists (Z.of_nat n); split; [done|lia]|done].
Qed.

Lemma buildByAcceptors_spec path' accs :
  path_ok path' -> costs <$> path' = costs <$> path -> Forall offset_ok accs ->
  exists path'' xs, buildByAcceptors path' accs i = Some (path'', xs) /\ path_ok path'' /\
    costs <$> path'' = costs <$> path /\
    Forall2 (fun a x => candidate path a i x /\ entry_ok (S i) x) accs xs.
Proof using Hlen.
  intros Hok Hc Hall. revert path' Hok Hc.
  induction Hall as [|a accs Ha Hall IH]; intros path' Hok Hc.
  { eexists _, _. split_and!; [done..|constructor]. }
  destruct (build_one_spec path' a Hok Hc Ha) as (p1 & x & Hb & Hok1 & Hc1 & Hx).
  destruct (IH p1 Hok1 Hc1) as (p2 & xs & Hbs & Hok2 & Hc2 & Hxs).
  exists p2, (x :: xs). simpl. rewrite Hb. simpl. rewrite Hbs. simpl.
  split_and!; [done..|]. by constructor.
Qed.

Lemma fallback_spec path' lb text :
  path_ok path' -> length path' = S i -> (0 <= lb <= Z.of_nat i)%Z -> i < length text ->
  exists x, fallback path' lb text i = Some x /\ entry_ok (S i) x /\ i_type x = UNK.
Proof.
  intros Hok Hl Hlb Ht. unfold fallback.
  destruct (zlookup_is_Some path' lb) as [y Hy]; [lia|]. rewrite Hy. simpl.
  destruct (lookup_lt_is_Some_2 text i Ht) as [ch ->]. simpl.
  destruct (is_tone_mark ch); eexists; (split; [done|]); simpl; (split; [|done]);
    (split; [|done]); simpl; intros _.
  - case_decide; [by exists lb; split; [|lia]|].
    apply zlookup_Some in Hy as [_ Hy]. destruct (Hok _ _ Hy) as [Hq _].
    destruct Hq as (q & -> & Hq); [lia|]. exists q. split; [done|lia].
  - exists lb. split; [done|lia].
Qed.

(** Costs only grow, and [mw] stays 0. *)
Definition cost_ok (x : info) : Prop := (0 <= i_unk x /\ i_mw x = 0 /\ 0 <= i_w x)%Z.

Definition acceptor_cost_ok (a : acceptor) : Prop :=
  w a = 1%Z /\ mw a = None /\ (0 <= default 0 (unk a))%Z.

Lemma candidate_cost_ok a x :
  Forall cost_ok path -> acceptor_cost_ok a -> candidate path a i x -> cost_ok x.
Proof.
  intros Hall (Hw & Hmw & Hunk) (y & Hy & _ & E1 & E2 & E3 & _).
  rewrite Forall_lookup in Hall. destruct (Hall _ _ Hy) as (H1 & H2 & H3).
  unfold cost_ok. rewrite E1, E2, E3, Hw, Hmw, H2. simpl. lia.
Qed.

Lemma fallback_cost_ok path' lb text x :
  Forall cost_ok path' -> fallback path' lb text i = Some x -> cost_ok x.
Proof.
  intros Hall Hf. unfold fallback in Hf.
  destruct (zlookup path' lb) as [y|] eqn:Hy; [|done]. simpl in Hf.
  apply zlookup_Some in Hy as [_ Hy]. rewrite Forall_lookup in Hall.
  destruct (Hall _ _ Hy) as (H1 & H2 & H3).
  destruct (text !! i); [|done]. simpl in Hf. unfold cost_ok.
  destruct (is_tone_mark _); simplify_eq/=; lia.
Qed.

Lemma costs_cost_ok path' :
  costs <$> path' = costs <$> path -> Forall cost_ok path -> Forall cost_ok path'.
Proof.
  intros Hc Hall. rewrite Forall_lookup in *. intros j x Hx.
  assert (costs <$> path !! j = Some (costs x)) as Hcx.
  { by rewrite <- list_lookup_fmap, <- Hc, list_lookup_fmap, Hx. }
  apply fmap_Some in Hcx as (z & Hz & Hzx). specialize (Hall _ _ Hz).
  unfold costs in Hzx. injection Hzx as E1 E2 E3 E4 E5.
  unfold cost_ok in *. by rewrite E2, E3, E4.
Qed.

Lemma build_spec accs lb text :
  path_ok path -> (0 <= lb <= Z.of_nat i)%Z -> i < length text -> Forall offset_ok accs ->
  exists path' xs, build path accs i lb text = Some (path', xs) /\ path_ok path' /\
    costs <$> path' = costs <$> path /\ xs <> [] /\ Forall (entry_ok (S i)) xs /\
    (Forall cost_ok path -> Forall acceptor_cost_ok accs -> Forall cost_ok xs) /\
    (accs <> [] -> Forall2 (fun a x => candidate path a i x) accs xs).
Proof using Hlen.
  intros Hok Hlb Ht Hall. unfold build.
  destruct (buildByAcceptors_spec path accs Hok eq_refl Hall) as (p1 & xs & -> & Hok1 & Hc1 & Hxs).
  simpl. destruct xs as [|x xs].
  - assert (length p1 = S i) as Hl1 by (by rewrite <- (length_fmap costs p1), Hc1, length_fmap).
    destruct (fallback_spec p1 lb text Hok1 Hl1 Hlb Ht) as (x & Hf & Hx & _). rewrite Hf. simpl.
    eexists _, _. split_and!; [done..|by apply Forall_singleton| |].
    + intros Hcost _. apply Forall_singleton.
      by eapply fallback_cost_ok; [eapply costs_cost_ok|].
    + intros Hne. by inversion Hxs.
  - eexists _, _. split_and!; [done..| | |].
    + clear -Hxs. induction Hxs as [|a y accs ys [_ Hy] _ IH]; by constructor.
    + intros Hcost Hacc. clear -Hxs Hcost Hacc Hlen.
      induction Hxs as [|a y accs ys [Hy _] _ IH]; [constructor|].
      apply Forall_cons in Hacc as [? ?]. constructor; [by eapply candidate_cost_ok|by apply IH].
    + intros _. eapply Forall2_impl; [exact Hxs|]. by intros a y [? _].
Qed.

End Build.
