(* ===== verification/WordcutCore.v ===== *)
(** * Segmentation of a text

    Module 8 of wordcut.js: one left-to-right pass builds the path, a
    right-to-left pass reads the ranges off it. *)

From S2P Require Import Prelude Acceptors PathInfoBuilder.

Record range := Range { r_s : Z; r_e : Z }.

(** The body of [pathToRanges].  [ranges] is kept with the range pushed last
    first, so it is the reversed array that the function returns.  [None] is
    an exception or exhausted fuel (the fuel is the length of the path). *)
Fixpoint pathToRanges_loop (fuel : nat) (path : list info) (e : Z) (ranges : list range)
    : option (list range) :=
  if decide (0 < e)%Z then
    match fuel with
    | O => None
    | S fuel =>
        x ← zlookup path e;
        match i_merge x, ranges with
        | Some m, r :: ranges' =>
            pathToRanges_loop fuel path m (Range m (r_e r) :: ranges')
        | _, _ =>
            s ← i_p x;
            pathToRanges_loop fuel path s (Range s e :: ranges)
        end
    end
  else Some ranges.

Definition pathToRanges (path : list info) : option (list range) :=
  pathToRanges_loop (length path) path (Z.of_nat (length path) - 1) [].

Definition range_text (text : jsstr) (r : range) : jsstr :=
  substring text (Z.to_nat (r_s r)) (Z.to_nat (r_e r)).

Definition rangesToText (text : jsstr) (ranges : list range) (delimiter : jsstr) : jsstr :=
  join delimiter (map (range_text text) ranges).

Section Core.
Context {C : Type} `{Creator C}.

(** One iteration of the loop of [buildPath]. *)
Definition buildPath_step (text : jsstr) (i : nat) (ch : N)
    (st : acceptors C * list info * Z) : option (acceptors C * list info * Z) :=
  let '(acc, path, leftBoundary) := st in
  acc' ← transit ch acc;
  '(path', possiblePathInfos) ← build path (getFinalAcceptors acc') i leftBoundary text;
  selectedPath ← selectPath possiblePathInfos;
  Some (acc', path' ++ [selectedPath],
        if decide (i_type selectedPath = UNK) then leftBoundary else Z.of_nat i).

Fixpoint buildPath_loop (text rest : jsstr) (i : nat) (st : acceptors C * list info * Z)
    : option (acceptors C * list info * Z) :=
  match rest with
  | [] => Some st
  | ch :: rest' =>
      st' ← buildPath_step text i ch st;
      buildPath_loop text rest' (S i) st'
  end.

Definition buildPath (acc : acceptors C) (text : jsstr) : option (list info) :=
  '(_, path, _) ← buildPath_loop text text 0 (reset acc, createPath, 0%Z);
  Some path.

Definition cut (acc : acceptors C) (text : jsstr) (delimiter : option jsstr) : option jsstr :=
  path ← buildPath acc text;
  ranges ← pathToRanges path;
  Some (rangesToText text ranges (default «"|"» delimiter)).

Definition cutIntoRanges (acc : acceptors C) (text : jsstr) (noText : bool)
    : option (list (range * option jsstr)) :=
  path ← buildPath acc text;
  ranges ← pathToRanges path;
  Some (map (fun r => (r, if noText then None else Some (range_text text r))) ranges).

Definition cutIntoArray (acc : acceptors C) (text : jsstr) : option (list jsstr) :=
  path ← buildPath acc text;
  ranges ← pathToRanges path;
  Some (map (range_text text) ranges).

End Core.

(** ** Ranges read off a well-formed path *)

(** [chain a b rs]: the ranges are non-empty and tile [a..b] from left to
    right. *)
Fixpoint chain (a b : Z) (rs : list range) : Prop :=
  match rs with
  | [] => a = b
  | r :: rs' => r_s r = a /\ (a < r_e r)%Z /\ chain (r_e r) b rs'
  end.

Lemma pathToRanges_loop_chain fuel path e b rs :
  path_ok path -> (0 <= e)%Z -> Z.to_nat e < length path -> Z.to_nat e <= fuel ->
  chain e b rs ->
  exists rs', pathToRanges_loop fuel path e rs = Some rs' /\ chain 0 b rs'.
Proof.
  intros Hok. revert e rs. induction fuel as [|fuel IH]; intros e rs He Hlen Hf Hch; simpl.
  { rewrite decide_False by lia. exists rs. split; [done|]. by replace 0%Z with e by lia. }
  case_decide as Hpos; [|exists rs; split; [done|]; by replace 0%Z with e by lia].
  destruct (zlookup_is_Some path e) as [x Hx]; [lia|]. rewrite Hx. simpl.
  apply zlookup_Some in Hx as [_ Hx]. destruct (Hok _ _ Hx) as [Hp Hm].
  destruct Hp as (q & Hq & Hqe); [lia|].
  destruct (i_merge x) as [m|] eqn:Em; [destruct rs as [|r rs]|].
  - rewrite Hq. simpl. apply IH; [lia..|]. simpl. split_and!; [done|lia|done].
  - destruct (Hm m eq_refl) as [Hm0 Hm1]. destruct Hch as (Hs & He' & Hch).
    apply IH; [lia..|]. simpl. split_and!; [done|lia|done].
  - rewrite Hq. simpl. apply IH; [lia..|]. simpl. split_and!; [done|lia|done].
Qed.

Lemma pathToRanges_chain path n :
  path_ok path -> length path = S n ->
  exists rs, pathToRanges path = Some rs /\ chain 0 (Z.of_nat n) rs.
Proof.
  intros Hok Hlen. unfold pathToRanges. apply pathToRanges_loop_chain; [done|lia|lia|lia|].
  simpl. lia.
Qed.

Lemma substring_glue {A} (text : list A) a b c :
  a <= b <= c ->
  take (b - a) (drop a text) ++ take (c - b) (drop b text) = take (c - a) (drop a text).
Proof.
  intros H. replace (drop b text) with (drop (b - a) (drop a text))
    by (rewrite drop_drop; f_equal; lia).
  rewrite <- (take_drop (b - a) (take (c - a) (drop a text))). f_equal.
  - rewrite take_take. f_equal. lia.
  - replace (c - a) with ((b - a) + (c - b)) by lia. by rewrite take_drop_commute.
Qed.

Lemma chain_bounds a b rs : chain a b rs -> (a <= b)%Z.
Proof.
  revert a. induction rs as [|r rs IH]; simpl; [lia|]. intros a (_ & ? & ?%IH). lia.
Qed.

Lemma chain_concat text a b rs :
  (0 <= a)%Z -> chain a b rs ->
  concat (map (range_text text) rs) = substring text (Z.to_nat a) (Z.to_nat b).
Proof.
  revert a. induction rs as [|r rs IH]; intros a Ha; simpl.
  - intros ->. unfold substring. by rewrite Nat.sub_diag.
  - intros (Hs & Hlt & Hch). rewrite (IH (r_e r)) by (lia || done).
    apply chain_bounds in Hch. unfold range_text, substring. rewrite Hs.
    apply substring_glue. lia.
Qed.

Lemma chain_nonempty text a b rs :
  (0 <= a)%Z -> (b <= Z.of_nat (length text))%Z -> chain a b rs ->
  Forall (fun s => s <> []) (map (range_text text) rs).
Proof.
  intros Ha Hb. revert a Ha. induction rs as [|r rs IH]; intros a Ha; simpl; [constructor|].
  intros (Hs & Hlt & Hch). constructor; [|apply (IH (r_e r)); [lia|done]].
  apply chain_bounds in Hch. intros Hnil%(f_equal length). unfold range_text, substring in Hnil.
  rewrite length_take, length_drop in Hnil. simpl in Hnil. lia.
Qed.

(** ** The path that [buildPath] returns *)

Section CoreProofs.
Context {C : Type} `{CreatorLaws C}.
Context (acc0 : acceptors C) (Hcreators : Forall creator_ok (creators acc0)).
Context (text : jsstr).

(** Every entry costs at most what any acceptor that is final there offers. *)
Definition optimal (path : list info) : Prop :=
  forall j acc a x', S j < length path ->
    transits (take (S j) text) (reset acc0) = Some acc ->
    a ∈ getFinalAcceptors acc -> candidate path a j x' ->
    exists x, path !! S j = Some x /\ cost_le x x'.

Definition core_inv (i : nat) (st : acceptors C * list info * Z) : Prop :=
  let '(acc, path, lb) := st in
  transits (take i text) (reset acc0) = Some acc /\
  path_ok path /\ length path = S i /\ (0 <= lb <= Z.of_nat i)%Z /\ optimal path /\
  Forall cost_ok path /\ costs <$> path !! 0 = Some (None, 0%Z, 0%Z, 0%Z, INIT).

Lemma core_inv_init : core_inv 0 (reset acc0, createPath, 0%Z).
Proof.
  split_and!; [done|apply createPath_ok|done|lia|lia| | |done].
  - intros j acc a x' Hj. simpl in Hj. lia.
  - by apply Forall_singleton.
Qed.

Lemma candidate_fun path a i x x' :
  candidate path a i x -> candidate path a i x' -> cost_le x x'.
Proof.
  intros (y & Hy & _ & H1 & H2 & H3 & _) (y' & Hy' & _ & H1' & H2' & H3' & _).
  simplify_eq. unfold cost_le. rewrite H1, H2, H3, H1', H2', H3'. lia.
Qed.

Lemma candidate_app path path' sel a j x :
  costs <$> path' = costs <$> path -> j < length path -> 1 <= strOffset a ->
  candidate (path' ++ [sel]) a j x -> candidate path a j x.
Proof.
  intros Hc Hj Ho (y & Hy & Hx). apply (candidate_costs path path' a j x Hc).
  exists y. split; [|done]. rewrite lookup_app_l in Hy; [done|].
  assert (length path' = length path) as -> by (by rewrite <- (length_fmap costs), Hc, length_fmap).
  lia.
Qed.

Lemma optimal_snoc path path' i sel acc xs :
  length path = S i -> costs <$> path' = costs <$> path -> optimal path ->
  transits (take (S i) text) (reset acc0) = Some acc ->
  (forall j acc a, transits (take (S j) text) (reset acc0) = Some acc ->
     a ∈ getFinalAcceptors acc -> 1 <= strOffset a) ->
  (getFinalAcceptors acc <> [] ->
     Forall2 (fun a x => candidate path a i x) (getFinalAcceptors acc) xs) ->
  Forall (cost_le sel) xs ->
  optimal (path' ++ [sel]).
Proof.
  intros Hlen Hc Hopt Hacc Hoff Hcand Hsel j acc' a x' Hj Hacc' Ha Hx'.
  assert (length path' = S i) as Hlen'.
  { by rewrite <- (length_fmap costs path'), Hc, length_fmap. }
  rewrite length_app in Hj. simpl in Hj. pose proof (Hoff _ _ _ Hacc' Ha) as Ho.
  apply (candidate_app path) in Hx'; [|done|lia|done].
  destruct (decide (j = i)) as [->|Hne].
  - exists sel. rewrite lookup_app_r, Hlen', Nat.sub_diag by lia. split; [done|].
    simplify_eq. assert (getFinalAcceptors acc <> []) as Hne by (intros E; rewrite E in Ha; by apply elem_of_nil in Ha).
    specialize (Hcand Hne). apply list_elem_of_lookup in Ha as [n Hn].
    destruct (Forall2_lookup_l _ _ _ _ _ Hcand Hn) as (x & Hx & Hxc).
    etrans; [|by apply (candidate_fun path a i)].
    rewrite Forall_lookup in Hsel. by eapply Hsel.
  - destruct (Hopt j acc' a x') as (x & Hx & Hle); [lia|done..|].
    assert (costs <$> path' !! S j = Some (costs x)) as Hcx.
    { by rewrite <- list_lookup_fmap, Hc, list_lookup_fmap, Hx. }
    apply fmap_Some in Hcx as (z & Hz & Hzx). exists z.
    rewrite lookup_app_l by (apply lookup_lt_Some in Hz; lia). split; [done|].
    unfold costs in Hzx. injection Hzx as E1 E2 E3 E4 E5.
    unfold cost_le in *. by rewrite <- E2, <- E3, <- E4.
Qed.

Lemma final_ok j acc a :
  transits (take j text) (reset acc0) = Some acc -> a ∈ getFinalAcceptors acc -> acceptor_ok a.
Proof using Hcreators.
  intros Hacc [_ Ha]%list_elem_of_filter.
  destruct (transits_live (take j text) acc0 Hcreators) as (acc' & Hacc' & _ & Hl).
  rewrite Hacc in Hacc'. simplify_eq. rewrite Forall_forall in Hl.
  by destruct (Hl a Ha) as (? & _ & _).
Qed.

Lemma final_offsets j acc a :
  transits (take j text) (reset acc0) = Some acc -> a ∈ getFinalAcceptors acc ->
  1 <= strOffset a <= length (take j text).
Proof using Hcreators.
  intros Hacc [_ Ha]%list_elem_of_filter.
  destruct (transits_live (take j text) acc0 Hcreators) as (acc' & Hacc' & _ & Hl).
  rewrite Hacc in Hacc'. simplify_eq. rewrite Forall_forall in Hl.
  by destruct (Hl a Ha) as (_ & _ & ?).
Qed.

Lemma buildPath_step_inv i ch st :
  text !! i = Some ch -> core_inv i st ->
  exists st', buildPath_step text i ch st = Some st' /\ core_inv (S i) st'.
Proof using Hcreators.
  destruct st as [[acc path] lb]. intros Hch (Hacc & Hok & Hlen & Hlb & Hopt & Hcost & Hinit).
  apply lookup_lt_Some in Hch as Hi.
  destruct (transits_live (take (S i) text) acc0 Hcreators) as (acc' & Hacc' & _ & _).
  assert (transit ch acc = Some acc') as Ht.
  { rewrite (take_S_r _ _ _ Hch), transits_snoc, Hacc in Hacc'. done. }
  unfold buildPath_step. rewrite Ht. simpl.
  assert (Forall (offset_ok i) (getFinalAcceptors acc')) as Hoff.
  { apply Forall_forall. intros a Ha. pose proof (final_offsets _ _ _ Hacc' Ha) as Ho.
    rewrite length_take in Ho. unfold offset_ok. lia. }
  destruct (build_spec path i Hlen (getFinalAcceptors acc') lb text Hok Hlb Hi Hoff)
    as (path' & xs & -> & Hok' & Hc' & Hne & Hent & Hxcost & Hcand). simpl.
  destruct (selectPath_spec xs Hne) as (sel & -> & Hin & Hmin). simpl.
  assert (length path' = S i) as Hlen'.
  { by rewrite <- (length_fmap costs path'), Hc', length_fmap. }
  eexists. split; [done|]. refine (conj _ (conj _ (conj _ (conj _ (conj _ (conj _ _)))))); [done| | | | | |].
  - apply path_ok_snoc; [done|]. rewrite Hlen'. rewrite Forall_forall in Hent. by apply Hent.
  - rewrite length_app, Hlen'. simpl. lia.
  - case_decide; lia.
  - apply (optimal_snoc path path' i sel acc' xs); try done.
    intros j acc1 a Hj Ha. by apply (final_offsets (S j) acc1 a).
  - apply Forall_app. split; [by apply (costs_cost_ok path)|]. apply Forall_singleton.
    assert (Forall acceptor_cost_ok (getFinalAcceptors acc')) as Hac.
    { apply Forall_forall. intros a Ha. by apply acceptor_cost, (final_ok _ _ _ Hacc'). }
    specialize (Hxcost Hcost Hac). rewrite Forall_forall in Hxcost. by apply Hxcost.
  - rewrite lookup_app_l by lia. by rewrite <- list_lookup_fmap, Hc', list_lookup_fmap.
Qed.

Lemma buildPath_loop_inv n i rest st :
  drop i text = rest -> length rest = n -> core_inv i st ->
  exists st', buildPath_loop text rest i st = Some st' /\ core_inv (i + n) st'.
Proof using Hcreators.
  revert i rest st. induction n as [|n IH]; intros i rest st Hrest Hlen Hinv.
  - apply nil_length_inv in Hlen. subst rest. rewrite Hlen. simpl. exists st. by rewrite Nat.add_0_r.
  - destruct rest as [|ch rest]; [done|]. simpl.
    assert (text !! i = Some ch) as Hch.
    { rewrite <- (Nat.add_0_r i), <- lookup_drop, Hrest. done. }
    destruct (buildPath_step_inv i ch st Hch Hinv) as (st' & -> & Hinv'). simpl.
    replace (i + S n) with (S i + n) by lia. apply IH; [|by injection Hlen|done].
    rewrite <- Nat.add_1_r, <- drop_drop, Hrest. done.
Qed.

(** [buildPath] returns, and its path has one entry per position. *)
Lemma buildPath_total :
  exists path, buildPath acc0 text = Some path /\ path_ok path /\
    length path = S (length text) /\ optimal path /\ Forall cost_ok path /\
    costs <$> path !! 0 = Some (None, 0%Z, 0%Z, 0%Z, INIT).
Proof using Hcreators.
  destruct (buildPath_loop_inv (length text) 0 text _ eq_refl eq_refl core_inv_init)
    as ([[acc path] lb] & Hl & _ & Hok & Hlen & _ & Hopt & Hcost & Hinit).
  exists path. unfold buildPath. rewrite Hl. by split_and!.
Qed.

(** All three ways of cutting agree on one tiling of the text. *)
Lemma cut_tiles :
  exists path rs, buildPath acc0 text = Some path /\ pathToRanges path = Some rs /\
    chain 0 (Z.of_nat (length text)) rs.
Proof using Hcreators.
  destruct buildPath_total as (path & Hp & Hok & Hlen & _).
  destruct (pathToRanges_chain path (length text) Hok Hlen) as (rs & Hrs & Hch).
  by exists path, rs.
Qed.

End CoreProofs.
