(* ===== verification/Wordcut.v ===== *)
(** * The segmenter

    Module 7 of wordcut.js puts the parts together: the Latin and Thai rules,
    and the dictionary, are the creators of one [Acceptors] object. *)

From S2P Require Import Prelude Acceptors Dict LatinRules ThaiRules PathInfoBuilder WordcutCore.

Inductive creator :=
  | WordRule | SpaceRule | SingleSymbolRule | NumberRule
  | Rule0 | PartRule
  | WordcutDict (dict : list jsstr).

(** Method dispatch: an acceptor object carries the [transit] of the rule that
    made it, which its [type] names. *)
#[export] Instance wordcut_creator : Creator creator := {
  createAcceptor c t :=
    match c with
    | WordRule => WordRule_createAcceptor t
    | SpaceRule => SpaceRule_createAcceptor t
    | SingleSymbolRule => SingleSymbolRule_createAcceptor t
    | NumberRule => NumberRule_createAcceptor t
    | Rule0 => Rule0_createAcceptor t
    | PartRule => PartRule_createAcceptor t
    | WordcutDict dict => Some (dict_createAcceptor dict)
    end;
  acceptor_transit a ch :=
    match type a, data a with
    | WORD_RULE, _ => Some (WordRule_transit a ch)
    | SPACE_RULE, _ => Some (SpaceRule_transit a ch)
    | SINSYM, _ => Some (SingleSymbolRule_transit a ch)
    | NUMBER_RULE, _ => Some (NumberRule_transit a ch)
    | THAI_RULE, _ => Some (Rule0_transit a ch)
    | PART, Patterns ps => Some (PartRule_transit ps a ch)
    | DICT, DictRange dict l r => dict_transit dict l r a ch
    | _, _ => None
    end
}.

Definition LatinRules : list creator := [WordRule; SpaceRule; SingleSymbolRule; NumberRule].
Definition ThaiRules : list creator := [Rule0; PartRule].

Definition initNoDict : acceptors creator :=
  foldl (fun acc c => push_creator c acc) Acceptors.init (LatinRules ++ ThaiRules).

Definition wordcut_init (default_text : jsstr) (additionalWords : option (list jsstr))
    : acceptors creator :=
  push_creator (WordcutDict (dict_init default_text additionalWords)) initNoDict.

(** ** The laws that the core relies on *)

Definition wordcut_acceptor_ok (a : acceptor) : Prop :=
  (w a = 1%Z /\ mw a = None /\ (0 <= default 0 (unk a))%Z) /\ tag a = type a /\
  match type a with
  | DICT => exists dict p, sorted_dict dict /\ dict_reading dict p a
  | PART => exists ps, data a = Patterns ps
  | UNK | INIT => False
  | _ => True
  end.

Lemma wordcut_transit_ok a ch :
  wordcut_acceptor_ok a -> isError a = false ->
  exists a', acceptor_transit a ch = Some a' /\ type a' = type a /\
    (isError a' = true \/
     (wordcut_acceptor_ok a' /\ isError a' = false /\ strOffset a' = S (strOffset a))).
Proof.
  intros (Hcost & Htag & Hok) He. simpl. unfold wordcut_acceptor_ok.
  destruct (type a) eqn:Et; try done.
  - destruct Hok as (dict & p & Hs & Hr). destruct Hr as (He' & Ho & l & r & Hd & Hr).
    rewrite Hd.
    destruct (dict_transit_spec dict l r p a ch Hs) as (a' & -> & E1 & E2 & E3 & E4 & E5 & Hor);
      [by split_and!; eauto|done|].
    exists a'. rewrite E2, Et. split_and!; [done..|].
    destruct Hor as [[? _]|[Hr' _]]; [by left|right].
    rewrite E1, E3, E4, E5, Htag. destruct Hr' as (Her & Ho' & Hx).
    split_and!; [naive_solver..| |done|].
    + exists dict, (p ++ [ch]). by split_and!.
    + rewrite Ho', length_app, Ho. simpl. lia.
  - eexists. split; [done|]. unfold WordRule_transit. destruct (is_word_char ch); simpl; rewrite Et;
      naive_solver.
  - eexists. split; [done|]. unfold NumberRule_transit. destruct (is_digit ch); simpl; rewrite Et;
      naive_solver.
  - eexists. split; [done|]. unfold SpaceRule_transit. destruct (is_space ch); simpl; rewrite Et;
      naive_solver.
  - eexists. split; [done|]. unfold SingleSymbolRule_transit.
    destruct (_ && _); simpl; rewrite Et; naive_solver.
  - eexists. split; [done|]. unfold Rule0_transit. destruct (isMatch _ _ _); simpl; rewrite Et;
      naive_solver.
  - destruct Hok as (ps & Hd). rewrite Hd. eexists. split; [done|]. unfold PartRule_transit.
    case_decide; simpl; rewrite Et; naive_solver.
Qed.

Definition wordcut_creator_ok (c : creator) : Prop :=
  match c with WordcutDict dict => sorted_dict dict | _ => True end.

Lemma wordcut_create_ok (c : creator) t a :
  wordcut_creator_ok c -> createAcceptor c t = Some a ->
  wordcut_acceptor_ok a /\ strOffset a = 0 /\ isError a = false.
Proof.
  intros Hc Ha. unfold wordcut_acceptor_ok.
  destruct c; simpl in Ha;
    unfold WordRule_createAcceptor, SpaceRule_createAcceptor, NumberRule_createAcceptor,
      SingleSymbolRule_createAcceptor, Rule0_createAcceptor, PartRule_createAcceptor in Ha;
    repeat case_decide; simplify_eq/=; try (split_and!; (done || lia || eauto)).
  eexists dict, []. split; [done|]. apply dict_createAcceptor_reading.
Qed.

Lemma wordcut_transit_law a ch :
  wordcut_acceptor_ok a -> isError a = false ->
  exists a', acceptor_transit a ch = Some a' /\
    (isError a' = true \/
     (wordcut_acceptor_ok a' /\ isError a' = false /\ strOffset a' = S (strOffset a))).
Proof. intros Hok He. destruct (wordcut_transit_ok a ch Hok He) as (a' & ? & _ & ?). eauto. Qed.

Lemma wordcut_cost_law a :
  wordcut_acceptor_ok a -> w a = 1%Z /\ mw a = None /\ (0 <= default 0 (unk a))%Z.
Proof. by intros (? & _). Qed.

#[export] Instance wordcut_laws : CreatorLaws creator := {
  creator_ok := wordcut_creator_ok;
  acceptor_ok := wordcut_acceptor_ok;
  create_ok := wordcut_create_ok;
  transit_ok := wordcut_transit_law;
  acceptor_cost := wordcut_cost_law
}.

Lemma wordcut_init_creators default_text ws :
  creators (wordcut_init default_text ws) =
  [WordRule; SpaceRule; SingleSymbolRule; NumberRule; Rule0; PartRule;
   WordcutDict (dict_init default_text ws)].
Proof. done. Qed.

Lemma wordcut_init_ok default_text ws :
  Forall creator_ok (creators (wordcut_init default_text ws)).
Proof.
  rewrite wordcut_init_creators.
  repeat (constructor; [first [exact I|apply dict_init_sorted]|]). constructor.
Qed.

(** ** Which acceptors are alive after reading a text *)

Section Reading.
Context (default_text : jsstr) (ws : option (list jsstr)).
Let dict := dict_init default_text ws.
Let acc0 := wordcut_init default_text ws.

Lemma dict_is_sorted : sorted_dict dict.
Proof. apply dict_init_sorted. Qed.

(** An acceptor of the dictionary that has read [p] and knows whether [p] is
    a word. *)
Definition reads_word (p : jsstr) (a : acceptor) : Prop :=
  type a = DICT /\ unk a = None /\ mw a = None /\ w a = 1%Z /\ dict_reading dict p a /\
  (isFinal a = true <-> p <> [] /\ p ∈ dict).

Lemma reads_word_create : reads_word [] (dict_createAcceptor dict).
Proof. split_and!; [done..| |naive_solver]. apply dict_createAcceptor_reading. Qed.

Lemma reads_word_transit p a ch :
  reads_word p a ->
  exists a', acceptor_transit a ch = Some a' /\
    ((isError a' = true /\ forall item, item ∈ dict -> ~ (p ++ [ch]) `prefix_of` item) \/
     (isError a' = false /\ reads_word (p ++ [ch]) a' /\
      exists item, item ∈ dict /\ (p ++ [ch]) `prefix_of` item)).
Proof.
  intros (Ht & Hu & Hm & Hw & Hr & _). pose proof Hr as (He & Ho & l & r & Hd & _).
  simpl. rewrite Ht, Hd.
  destruct (dict_transit_spec dict l r p a ch dict_is_sorted Hr Hd)
    as (a' & -> & E1 & E2 & E3 & E4 & E5 & [Hbad|(Hr' & Hit & Hf)]).
  - exists a'. split; [done|]. by left.
  - exists a'. split; [done|]. right. split_and!; [by destruct Hr'| |done].
    unfold reads_word. rewrite E2, E3, E4, E5, Hf. split_and!; [done..|].
    split; [|naive_solver]. intros; split; [|done]. by destruct p.
Qed.

Lemma elem_of_created t a :
  (exists c, c ∈ creators acc0 /\ createAcceptor c t = Some a) -> type a = DICT ->
  a = dict_createAcceptor dict.
Proof.
  intros (c & Hc & Ha) Ht. subst acc0. rewrite wordcut_init_creators in Hc.
  rewrite !elem_of_cons, elem_of_nil in Hc. destruct_or! Hc; subst c; simpl in Ha;
    unfold WordRule_createAcceptor, SpaceRule_createAcceptor, NumberRule_createAcceptor,
      SingleSymbolRule_createAcceptor, Rule0_createAcceptor, PartRule_createAcceptor in Ha;
    repeat case_decide; by simplify_eq/=.
Qed.

(** The dictionary acceptors alive after [u] are those for the suffixes of
    [u] that are prefixes of words. *)
Lemma dict_alive u acc :
  transits u (reset acc0) = Some acc ->
  (forall a, a ∈ current acc -> type a = DICT ->
     exists p, p <> [] /\ p `suffix_of` u /\ reads_word p a) /\
  (forall p item, p <> [] -> p `suffix_of` u -> item ∈ dict -> p `prefix_of` item ->
     exists a, a ∈ current acc /\ reads_word p a).
Proof.
  revert acc. induction u as [|ch u IH] using rev_ind; intros acc Hacc.
  { simpl in Hacc. simplify_eq. split; [by intros a Ha%elem_of_nil|].
    intros p item Hne Hs%suffix_nil_inv. done. }
  rewrite transits_snoc in Hacc. destruct (transits u (reset acc0)) as [acc1|] eqn:E1; [|done].
  simpl in Hacc. destruct (IH acc1 eq_refl) as [IH1 IH2].
  assert (creators acc1 = creators acc0) as Hcr by (by rewrite (transits_creators _ _ _ E1)).
  split.
  - intros a Ha Ht. apply (elem_of_transit _ _ _ _ Hacc) in Ha as (He & a0 & Hin & Hstep).
    assert (exists p, p `suffix_of` u /\ reads_word p a0) as (p & Hs & Hr).
    { assert (type a0 = DICT) as Ht0.
      { apply elem_of_candidates in Hin as [Hin|(c & Hc & Hcr')].
        - destruct (transits_live u acc0 (wordcut_init_ok _ _)) as (acc1' & E1' & _ & Hl).
          rewrite E1 in E1'. simplify_eq. rewrite Forall_forall in Hl.
          destruct (Hl a0 Hin) as (Hok & He0 & _).
          destruct (wordcut_transit_ok a0 ch Hok He0) as (a' & Ha' & Hty & _). congruence.
        - destruct (wordcut_create_ok c (tags acc1) a0) as (Hok & _ & He0); [|done|].
          + pose proof (wordcut_init_ok default_text ws) as Hall. rewrite Forall_forall in Hall.
            apply Hall. by rewrite Hcr in Hc.
          + destruct (wordcut_transit_ok a0 ch Hok He0) as (a' & Ha' & Hty & _). congruence. }
      apply elem_of_candidates in Hin as [Hin|Hcre].
      - destruct (IH1 a0 Hin Ht0) as (p & _ & Hs & Hr). by exists p.
      - rewrite Hcr in Hcre. apply elem_of_created in Hcre as ->; [|done].
        exists []. split; [apply suffix_nil|apply reads_word_create]. }
    destruct (reads_word_transit p a0 ch Hr) as (a' & Ha' & Hor).
    rewrite Hstep in Ha'. injection Ha' as <-.
    destruct Hor as [[Hbad _]|(_ & Hr' & _)]; [congruence|].
    exists (p ++ [ch]). split_and!; [by destruct p|by apply suffix_snoc|done].
  - intros p' item Hne Hs Hin Hpre.
    destruct p' as [|c p] using rev_ind; [done|]. clear IHp.
    apply suffix_snoc_inv_1 in Hs as Hc. subst c. apply suffix_snoc_inv_2 in Hs.
    assert (exists a0, a0 ∈ candidates acc1 /\ reads_word p a0) as (a0 & Ha0 & Hr).
    { destruct (decide (p = [])) as [->|Hp].
      - exists (dict_createAcceptor dict). split; [|apply reads_word_create].
        apply elem_of_candidates. right. exists (WordcutDict dict). split; [|done].
        rewrite Hcr. subst acc0. rewrite wordcut_init_creators. rewrite !elem_of_cons. auto 10.
      - destruct (IH2 p item) as (a0 & Ha0 & Hr); [done..| |].
        + by apply prefix_snoc in Hpre as [? _].
        + exists a0. split; [|done]. apply elem_of_candidates. by left. }
    destruct (reads_word_transit p a0 ch Hr) as (a' & Ha' & [[_ Hbad]|(He & Hr' & _)]).
    + by destruct (Hbad item Hin).
    + exists a'. split; [|done]. apply (elem_of_transit _ _ _ _ Hacc). split; [done|].
      by exists a0.
Qed.

End Reading.

(** ** Rules that follow a run of characters *)

(** WordRule, NumberRule and SpaceRule start an acceptor only when none of
    theirs is alive; [cls] is the class of characters they read. *)
Section Runs.
Context (default_text : jsstr) (ws : option (list jsstr)).
Let acc0 := wordcut_init default_text ws.
Context (k : kind) (c : creator) (cls : N -> bool).
Hypothesis Hcreate : forall t,
  createAcceptor c t = if decide (k ∈ t) then None else Some (fresh k None NoData).
Hypothesis Hstep : forall a ch, type a = k ->
  acceptor_transit a ch = Some (if cls ch then advance a true (data a) else set_error a).
Hypothesis Hmade : forall t,
  filter (fun a => type a = k) (omap (fun c => createAcceptor c t) (creators acc0)) =
  option_list (createAcceptor c t).

Definition of_kind (l : list acceptor) : list acceptor := filter (fun a => type a = k) l.

Lemma step_of_kind ch l l' :
  Forall (fun a => wordcut_acceptor_ok a /\ isError a = false) l ->
  mapM (fun a => acceptor_transit a ch) l = Some l' ->
  map strOffset (of_kind (filter (fun a => isError a = false) l')) =
  if cls ch then map S (map strOffset (of_kind l)) else [].
Proof using Hstep.
  intros Hall. revert l'. induction Hall as [|a l [Hok He] Hall IH]; intros l' Hm.
  { assert (l' = []) as -> by (injection Hm as <-; reflexivity). destruct (cls ch); reflexivity. }
  destruct (wordcut_transit_ok a ch Hok He) as (a' & Ha' & Hty & _).
  cbn [mapM] in Hm. rewrite Ha' in Hm. simpl in Hm.
  destruct (mapM _ l) as [l1|] eqn:El; [|done]. injection Hm as <-.
  specialize (IH l1 eq_refl). unfold of_kind in *. rewrite (filter_cons _ a).
  destruct (decide (type a = k)) as [Hk|Hk].
  - rewrite (Hstep a ch Hk) in Ha'. injection Ha' as <-. rewrite filter_cons. destruct (cls ch).
    + rewrite decide_True by (exact He). rewrite filter_cons, decide_True by (exact Hk).
      simpl. by rewrite IH.
    + rewrite decide_False by done. done.
  - rewrite filter_cons. case_decide; [|done]. rewrite filter_cons, decide_False by congruence. done.
Qed.

Lemma fresh_of_kind t : createAcceptor c t <> None -> createAcceptor c t = Some (fresh k None NoData).
Proof using Hcreate. rewrite Hcreate. by case_decide. Qed.

Lemma run_alive u acc :
  transits u (reset acc0) = Some acc ->
  map strOffset (of_kind (current acc)) =
    (if decide (trailing_run cls u = 0) then [] else [trailing_run cls u]) /\
  (k ∈ tags acc <-> trailing_run cls u <> 0).
Proof using Hcreate Hstep Hmade.
  revert acc. induction u as [|ch u IH] using rev_ind; intros acc Hacc.
  { simpl in Hacc. simplify_eq. simpl. split; [done|]. unfold trailing_run. simpl. set_solver. }
  rewrite transits_snoc in Hacc. destruct (transits u (reset acc0)) as [acc1|] eqn:E1; [|done].
  simpl in Hacc. destruct (IH acc1 eq_refl) as [IHo IHt].
  destruct (transits_live u acc0 (wordcut_init_ok _ _)) as (acc1' & E1' & Hcr & Hl).
  rewrite E1 in E1'. simplify_eq.
  assert (map strOffset (of_kind (candidates acc1')) = [trailing_run cls u]) as Hcand.
  { unfold candidates, of_kind. rewrite filter_app, Hcr, Hmade, map_app. fold (of_kind (current acc1')).
    rewrite IHo, Hcreate. case_decide as Hz; case_decide as Hin; rewrite IHt in Hin.
    - done.
    - simpl. by rewrite Hz.
    - done.
    - by destruct Hin. }
  assert (Forall (fun a => wordcut_acceptor_ok a /\ isError a = false) (candidates acc1')) as Hcok.
  { apply Forall_forall. intros a Ha.
    destruct (candidates_ok (length u) acc1' a) as (?&?&_); [|done|done|done].
    rewrite Hcr. apply wordcut_init_ok. }
  assert (map strOffset (of_kind (current acc)) =
    if decide (trailing_run cls (u ++ [ch]) = 0) then [] else [trailing_run cls (u ++ [ch])]) as Hcur.
  { unfold transit in Hacc. destruct (mapM _ _) as [st|] eqn:Em; [|done]. simpl in Hacc.
    simplify_eq. simpl. rewrite (step_of_kind ch _ _ Hcok Em), Hcand, trailing_run_snoc.
    by destruct (cls ch). }
  split; [done|]. rewrite (transit_tags _ _ _ _ Hacc).
  destruct (transits_live (u ++ [ch]) acc0 (wordcut_init_ok _ _)) as (acc' & E' & _ & Hl').
  rewrite transits_snoc, E1 in E'. simpl in E'. rewrite Hacc in E'. simplify_eq.
  assert (forall a, a ∈ current acc' -> tag a = type a) as Htag.
  { intros a Ha. rewrite Forall_forall in Hl'. by destruct (Hl' a Ha) as ((_ & ? & _) & _). }
  split.
  - intros (a & Ha & Hk) Hz. rewrite Hz in Hcur. simpl in Hcur. apply map_eq_nil in Hcur.
    assert (a ∈ of_kind (current acc')) as Hin.
    { apply list_elem_of_filter. split; [by rewrite <- Htag|done]. }
    rewrite Hcur in Hin. by apply elem_of_nil in Hin.
  - intros Hz. rewrite decide_False in Hcur by done.
    destruct (of_kind (current acc')) as [|a l] eqn:Eo; [done|].
    assert (a ∈ of_kind (current acc')) as [Hk Hin]%list_elem_of_filter by (rewrite Eo; by left).
    exists a. split; [done|]. by rewrite Htag.
Qed.

End Runs.

(** ** Properties of the segmenter *)

(** C1. Cutting is total and loses nothing.  For every dictionary and every
    text [cutIntoRanges] returns non-empty ranges of which the first starts at
    0, each next one starts where the one before ends and the last ends at the
    end of the text, with the text of each range unless [noText] is given;
    [cutIntoArray] returns the texts of the same ranges, which are not empty
    and concatenate to the text; and [cut] is these pieces joined by the
    delimiter. *)
Theorem cut_partitions_text (default_text : jsstr) (ws : option (list jsstr)) (text : jsstr) :
  exists rs,
    (forall noText, cutIntoRanges (wordcut_init default_text ws) text noText =
       Some (map (fun r => (r, if noText then None else Some (range_text text r))) rs)) /\
    chain 0 (Z.of_nat (length text)) rs /\
    cutIntoArray (wordcut_init default_text ws) text = Some (map (range_text text) rs) /\
    Forall (fun s => s <> []) (map (range_text text) rs) /\
    concat (map (range_text text) rs) = text /\
    forall delimiter, cut (wordcut_init default_text ws) text delimiter =
      Some (join (default «"|"» delimiter) (map (range_text text) rs)).
Proof.
  destruct (cut_tiles (wordcut_init default_text ws) (wordcut_init_ok _ _) text)
    as (path & rs & Hp & Hr & Hch).
  exists rs. unfold cutIntoRanges, cutIntoArray, cut. rewrite Hp. simpl. rewrite Hr. simpl.
  split_and!; [done|done|done| | |done].
  - by apply (chain_nonempty text 0 (Z.of_nat (length text))).
  - rewrite (chain_concat text 0 _ rs) by done. unfold substring.
    by rewrite Z2Nat.inj_0, drop_0, Nat.sub_0_r, Nat2Z.id, firstn_all.
Qed.

(** C2. After a text has been read, the final acceptors of the dictionary are
    exactly the dictionary words that end there: a word is found at offset
    [k] just when the last [k] characters are a word of the dictionary. *)
Theorem dict_finals_are_words (default_text : jsstr) (ws : option (list jsstr))
    (u : jsstr) (acc : acceptors creator) (k : nat) :
  transits u (reset (wordcut_init default_text ws)) = Some acc ->
  (exists a, a ∈ getFinalAcceptors acc /\ type a = DICT /\ strOffset a = k) <->
  (exists p, p `suffix_of` u /\ length p = k /\ p <> [] /\ p ∈ dict_init default_text ws).
Proof.
  intros Hacc. destruct (dict_alive default_text ws u acc Hacc) as [H1 H2]. split.
  - intros (a & [Hf Ha]%list_elem_of_filter & Ht & Ho).
    destruct (H1 a Ha Ht) as (p & Hne & Hs & (_ & _ & _ & _ & (_ & Hoff & _) & Hfin)).
    exists p. split_and!; [done|congruence|done|by apply Hfin].
  - intros (p & Hs & Hlen & Hne & Hin).
    destruct (H2 p p Hne Hs Hin) as (a & Ha & (Ht & _ & _ & _ & (_ & Hoff & _) & Hfin)); [done|].
    exists a. split_and!; [|done|congruence]. apply list_elem_of_filter. split; [|done].
    by apply Hfin.
Qed.

(** The step of the optimality argument: a word that ends at position [j]
    bounds the cost there by the cost where it starts, plus one piece. *)
Lemma word_bounds_cost default_text ws text path u p v x :
  text = u ++ p ++ v -> p <> [] -> p ∈ dict_init default_text ws ->
  optimal (wordcut_init default_text ws) text path -> length path = S (length text) ->
  path !! length u = Some x ->
  exists y, path !! length (u ++ p) = Some y /\
    cost_le y (Info None (i_mw x) (1 + i_w x) (i_unk x) DICT None).
Proof.
  intros -> Hne Hin Hopt Hlen Hx.
  assert (0 < length p) as Hp by (destruct p; simpl; [done|lia]).
  destruct (transits_live (u ++ p) (wordcut_init default_text ws) (wordcut_init_ok _ _))
    as (acc & Hacc & _ & _).
  destruct (dict_alive default_text ws (u ++ p) acc Hacc) as [_ H2].
  destruct (H2 p p Hne) as (a & Ha & (Ht & Hu & Hm & Hw & (_ & Hoff & _) & Hfin)); [|done..|].
  { by apply suffix_app_r. }
  destruct (Hopt (length u + length p - 1) acc a
              (Info (Some (Z.of_nat (length u))) (i_mw x) (1 + i_w x) (i_unk x) DICT None))
    as (y & Hy & Hle).
  - rewrite Hlen, !length_app. lia.
  - replace (S (length u + length p - 1)) with (length (u ++ p)) by (rewrite length_app; lia).
    by rewrite app_assoc, take_app_length.
  - apply list_elem_of_filter. split; [by apply Hfin|done].
  - exists x. simpl. rewrite Hoff, Hu, Hm, Hw.
    replace (length u + length p - 1 + 1 - length p) with (length u) by lia.
    split_and!; simpl; (done || lia).
  - exists y. split; [|exact Hle]. rewrite length_app.
    by replace (length u + length p) with (S (length u + length p - 1)) by lia.
Qed.

(** The segmentation is optimal on dictionary text: if the text is a
    concatenation of [n] dictionary words, the best path to its end counts no
    unknown piece and at most [n] pieces. *)
Theorem dictionary_text_has_no_unknown (default_text : jsstr) (ws : option (list jsstr))
    (words : list jsstr) :
  Forall (fun p => p <> [] /\ p ∈ dict_init default_text ws) words ->
  exists path x,
    buildPath (wordcut_init default_text ws) (concat words) = Some path /\
    last path = Some x /\ i_unk x = 0%Z /\ (i_w x <= Z.of_nat (length words))%Z.
Proof.
  intros Hwords. set (text := concat words).
  destruct (buildPath_total (wordcut_init default_text ws) (wordcut_init_ok _ _) text)
    as (path & Hp & _ & Hlen & Hopt & Hcost & Hinit).
  assert (forall done rest, words = done ++ rest -> exists x,
    path !! length (concat done) = Some x /\ i_unk x = 0%Z /\ i_mw x = 0%Z /\
    (i_w x <= Z.of_nat (length done))%Z) as Hreach.
  { induction done as [|p done IH] using rev_ind; intros rest Hsplit.
    - apply fmap_Some in Hinit as (x & Hx & Hc). injection Hc as E1 E2 E3 E4 E5.
      exists x. simpl. split_and!; [done..|lia].
    - destruct (IH (p :: rest)) as (x & Hx & H1 & H2 & H3); [by rewrite Hsplit, <- app_assoc|].
      assert (p <> [] /\ p ∈ dict_init default_text ws) as [Hne Hin].
      { rewrite Forall_forall in Hwords. apply Hwords. rewrite Hsplit. set_solver. }
      destruct (word_bounds_cost default_text ws text path (concat done) p (concat rest) x)
        as (y & Hy & Hle); [|done..|].
      { unfold text. rewrite Hsplit, !concat_app. simpl. by rewrite app_nil_r, <- app_assoc. }
      exists y. rewrite concat_app. simpl. rewrite app_nil_r. split; [done|].
      rewrite Forall_lookup in Hcost. destruct (Hcost _ _ Hy) as (C1 & C2 & C3).
      unfold cost_le in Hle. simpl in Hle. rewrite length_app. simpl. lia. }
  destruct (Hreach words []) as (x & Hx & H1 & H2 & H3); [by rewrite app_nil_r|].
  exists path, x. split_and!; [done| |done|done].
  by rewrite last_lookup, Hlen.
Qed.

(** Runs of Latin letters, of digits and of spaces are recognised whole:
    after any text there is exactly one live acceptor of each of these rules
    when the text ends in its class of characters, and it has read the longest
    such run; otherwise there is none. *)
Theorem latin_rules_read_maximal_runs (default_text : jsstr) (ws : option (list jsstr))
    (u : jsstr) (acc : acceptors creator) (k : kind) (cls : N -> bool) :
  transits u (reset (wordcut_init default_text ws)) = Some acc ->
  (k, cls) = (WORD_RULE, is_word_char) \/ (k, cls) = (NUMBER_RULE, is_digit) \/
  (k, cls) = (SPACE_RULE, is_space) ->
  map strOffset (filter (fun a => type a = k) (current acc)) =
    if decide (trailing_run cls u = 0) then [] else [trailing_run cls u].
Proof.
  intros Hacc Hk.
  assert (exists c,
    (forall t, createAcceptor c t = if decide (k ∈ t) then None else Some (fresh k None NoData)) /\
    (forall a ch, type a = k ->
       acceptor_transit a ch = Some (if cls ch then advance a true (data a) else set_error a)) /\
    (forall t, filter (fun a => type a = k)
        (omap (fun c => createAcceptor c t) (creators (wordcut_init default_text ws))) =
      option_list (createAcceptor c t))) as (c & H1 & H2 & H3).
  { destruct_or! Hk; injection Hk as -> ->; [exists WordRule|exists NumberRule|exists SpaceRule];
      (split_and!; [done|by intros a ch Ht; simpl; rewrite Ht; simpl;
         unfold WordRule_transit, NumberRule_transit, SpaceRule_transit; destruct (_ ch)|]);
      intros t; rewrite wordcut_init_creators; simpl;
      unfold WordRule_createAcceptor, NumberRule_createAcceptor, SpaceRule_createAcceptor;
      repeat case_decide; reflexivity. }
  by destruct (run_alive default_text ws k c cls H1 H2 H3 u acc Hacc) as [? _].
Qed.

(** ** Concrete runs *)

Definition small_dict : option (list jsstr) := Some [«"#a"»; «"b#"»; «"#"»].
Definition small_acc : acceptors creator := wordcut_init [] small_dict.
Definition after (u : jsstr) : acceptors creator :=
  default small_acc (transits u (reset small_acc)).

Example cut_latin : cut small_acc «"hello 12"» None = Some «"hello| |12"».
Proof. vm_compute. reflexivity. Qed.

Lemma dict_finals_are_words_witness :
  exists a, a ∈ getFinalAcceptors (after «"x#a"») /\ type a = DICT /\ strOffset a = 2.
Proof.
  apply (dict_finals_are_words [] small_dict «"x#a"» (after «"x#a"») 2).
  - vm_compute. reflexivity.
  - exists «"#a"». split_and!; [by exists «"x"»|done|done|].
    apply elem_of_dict_init. right. exists [«"#a"»; «"b#"»; «"#"»]. split; [done|]. by left.
Defined.

Lemma dictionary_text_has_no_unknown_witness :
  exists path x, buildPath small_acc «"#ab#"» = Some path /\
    last path = Some x /\ i_unk x = 0%Z /\ (i_w x <= 2)%Z.
Proof.
  apply (dictionary_text_has_no_unknown [] small_dict [«"#a"»; «"b#"»]).
  repeat constructor; try done; apply elem_of_dict_init; right;
    (exists [«"#a"»; «"b#"»; «"#"»]); (split; [done|set_solver]).
Defined.

Lemma latin_rules_read_maximal_runs_witness :
  map strOffset (filter (fun a => type a = WORD_RULE) (current (after «"1abc"»))) = [3].
Proof.
  apply (latin_rules_read_maximal_runs [] small_dict «"1abc"» (after «"1abc"»)
           WORD_RULE is_word_char).
  - vm_compute. reflexivity.
  - by left.
Defined.

(** A merge mark is left by every PART candidate, also when another candidate
    is selected: with the two dictionary words U+0E21 U+0E37 and U+0E2D
    U+0E32, the best path to the end of their concatenation has two
    dictionary pieces, but cutting returns one piece. *)
Example unselected_candidate_merges :
  let acc := wordcut_init [] (Some [[0xE21; 0xE37]; [0xE2D; 0xE32]]%N) in
  let text := [0xE21; 0xE37; 0xE2D; 0xE32]%N in
  (buildPath acc text ≫= last) = Some (Info (Some 2%Z) 0 2 0 DICT None) /\
  cutIntoArray acc text = Some [text].
Proof. vm_compute. done. Qed.

(** After a recognised piece the left boundary is the index of its last
    character, so an unknown character takes that character with it. *)
Example unknown_takes_previous_character :
  cutIntoArray small_acc «"abc!d"» = Some [«"ab"»; «"c!"»; «"d"»].
Proof. vm_compute. reflexivity. Qed.
