(* ===== verification/WordcutOptimal.v ===== *)
(** * The segmentation with the fewest pieces

    A piece is known when an acceptor that has read exactly it is final and
    counts it as no unknown: a word of the dictionary, a run that one of the
    Latin rules reads, a Thai pattern.  Where the rule for parts, which merges
    pieces, does not apply, the segmenter cuts a text that has a segmentation
    into known pieces into such pieces, and as few as there can be. *)

From S2P Require Import Prelude Acceptors Dict LatinRules ThaiRules PathInfoBuilder WordcutCore Wordcut.

Section Optimal.
Context {C : Type} `{CreatorLaws C}.
Context (acc0 : acceptors C).

(** [p] is known where it follows [u]. *)
Definition known_piece (u p : jsstr) : Prop :=
  exists acc a, transits (u ++ p) (reset acc0) = Some acc /\ a ∈ getFinalAcceptors acc /\
    strOffset a = length p /\ default 0%Z (unk a) = 0%Z.

Fixpoint known_pieces (u : jsstr) (ps : list jsstr) : Prop :=
  match ps with
  | [] => True
  | p :: ps => p <> [] /\ known_piece u p /\ known_pieces (u ++ p) ps
  end.

(** The same, computed. *)
Definition known_pieceb (u p : jsstr) : bool :=
  match transits (u ++ p) (reset acc0) with
  | Some acc => existsb (fun a => bool_decide (strOffset a = length p /\ default 0%Z (unk a) = 0%Z)) (getFinalAcceptors acc)
  | None => false
  end.

Fixpoint known_piecesb (u : jsstr) (ps : list jsstr) : bool :=
  match ps with
  | [] => true
  | p :: ps => bool_decide (p <> []) && known_pieceb u p && known_piecesb (u ++ p) ps
  end.

Lemma known_piecesb_true u ps : known_piecesb u ps = true <-> known_pieces u ps.
Proof.
  assert (forall u p, known_pieceb u p = true <-> known_piece u p) as Hp.
  { clear. intros u p. unfold known_pieceb, known_piece. destruct (transits (u ++ p) (reset acc0)) as [acc|]; [|naive_solver].
    rewrite existsb_exists. split.
    - intros (a & Ha & Hb). apply list_elem_of_In in Ha. apply bool_decide_eq_true in Hb as [? ?]. by exists acc, a.
    - intros (acc' & a & [= <-] & Ha & H1 & H2). exists a. split; [by apply list_elem_of_In|]. by apply bool_decide_eq_true. }
  revert u. induction ps as [|p ps IH]; intros u; cbn [known_piecesb known_pieces]; [done|].
  rewrite !andb_true_iff, bool_decide_eq_true, Hp, IH. tauto.
Qed.

(** An acceptor of PartRule is final somewhere in the text. *)
Definition has_part (text : jsstr) : bool :=
  existsb (fun j => match transits (take j text) (reset acc0) with
                    | Some acc => existsb (fun a => bool_decide (type a = PART)) (getFinalAcceptors acc)
                    | None => false
                    end) (seq 0 (S (length text))).

Lemma has_part_false text j acc a :
  has_part text = false -> j <= length text -> transits (take j text) (reset acc0) = Some acc ->
  a ∈ getFinalAcceptors acc -> type a <> PART.
Proof.
  intros Hp Hj Hacc Ha Ht. unfold has_part in Hp. apply not_true_iff_false in Hp. apply Hp.
  apply existsb_exists. exists j. split; [apply in_seq; lia|]. rewrite Hacc.
  apply existsb_exists. exists a. split; [by apply list_elem_of_In|]. by apply bool_decide_eq_true.
Qed.

Lemma known_pieces_app u ps qs :
  known_pieces u (ps ++ qs) <-> known_pieces u ps /\ known_pieces (u ++ concat ps) qs.
Proof.
  revert u. induction ps as [|p ps IH]; intros u; cbn [app known_pieces concat]; [rewrite app_nil_r; tauto|].
  rewrite IH, app_assoc. tauto.
Qed.

(** ** Steps that mark nothing *)

Lemma buildByAcceptors_plain path accs i path' xs :
  Forall (fun a => type a <> PART) accs -> buildByAcceptors path accs i = Some (path', xs) ->
  path' = path /\ Forall (fun x => i_merge x = None) xs.
Proof.
  intros Hall. revert xs. induction Hall as [|a accs Ha _ IH]; intros xs Hb; cbn [buildByAcceptors] in Hb.
  { injection Hb as <- <-. by split. }
  unfold build_one in Hb. destruct (zlookup path _) as [y|]; [|done]. cbn [mbind option_bind] in Hb.
  rewrite decide_False in Hb by done. cbn [mbind option_bind] in Hb.
  destruct (buildByAcceptors path accs i) as [[p2 ys]|]; [|done]. cbn in Hb. injection Hb as <- <-.
  destruct (IH ys eq_refl) as [-> Hys]. split; [done|]. by constructor.
Qed.

Lemma build_plain path accs i lb text path' xs :
  Forall (fun a => type a <> PART) accs -> Forall cost_ok path -> build path accs i lb text = Some (path', xs) ->
  path' = path /\ Forall (fun x => i_merge x = None) xs /\ (accs = [] -> Forall (fun x => (1 <= i_unk x)%Z) xs).
Proof.
  intros Hall Hc Hb. unfold build in Hb. destruct (buildByAcceptors path accs i) as [[p1 ys]|] eqn:E; [|done]. cbn in Hb.
  destruct (buildByAcceptors_plain path accs i p1 ys Hall E) as [-> Hys]. destruct ys as [|y ys].
  - destruct (fallback path lb text i) as [x|] eqn:Ef; [|done]. cbn in Hb. injection Hb as <- <-.
    assert (i_merge x = None /\ (1 <= i_unk x)%Z) as [H1 H2]; [|split_and!; [done|by constructor|by constructor]].
    unfold fallback in Ef. destruct (zlookup path lb) as [y|] eqn:Ey; [|done]. cbn [mbind option_bind] in Ef.
    apply zlookup_Some in Ey as [_ Ey]. rewrite Forall_lookup in Hc. destruct (Hc _ _ Ey) as (Hu & _).
    destruct (text !! i); [|done]. cbn [mbind option_bind] in Ef. destruct (is_tone_mark _); injection Ef as <-; cbn; (split; [done|lia]).
  - injection Hb as <- <-. split_and!; [done|done|]. intros ->. cbn in E. done.
Qed.

(** ** The path leads through known pieces *)

Section Text.
Context (Hcreators : Forall creator_ok (creators acc0)).
Context (text : jsstr) (Hpart : has_part text = false).

(** Every entry comes from a final acceptor, or counts an unknown piece. *)
Definition traced (path : list info) : Prop :=
  forall j x, path !! S j = Some x ->
    (exists acc a, transits (take (S j) text) (reset acc0) = Some acc /\ a ∈ getFinalAcceptors acc /\ candidate path a j x) \/
    (1 <= i_unk x)%Z.

Definition trace_inv (i : nat) (st : acceptors C * list info * Z) : Prop :=
  core_inv acc0 text i st /\ traced st.1.2 /\ Forall (fun x => i_merge x = None) st.1.2.

Lemma candidate_snoc path a j x sel : candidate path a j x -> candidate (path ++ [sel]) a j x.
Proof. intros (y & Hy & Hx). exists y. split; [by apply lookup_app_l_Some|done]. Qed.

Lemma trace_step i ch st :
  text !! i = Some ch -> trace_inv i st -> exists st', buildPath_step text i ch st = Some st' /\ trace_inv (S i) st'.
Proof using Hcreators Hpart.
  intros Hch (Hinv & Htr & Hm). destruct (buildPath_step_inv acc0 Hcreators text i ch st Hch Hinv) as (st' & E & Hinv').
  exists st'. split; [done|]. split; [done|]. destruct st as [[acc path] lb]. cbn [fst snd] in *.
  destruct Hinv as (_ & Hok & Hlen & Hlb & _ & Hcost & _). unfold buildPath_step in E.
  destruct (transit ch acc) as [acc'|] eqn:Et; [|done]. cbn [mbind option_bind] in E.
  destruct (build path (getFinalAcceptors acc') i lb text) as [[path' xs]|] eqn:Eb; [|done]. cbn [mbind option_bind] in E.
  destruct (selectPath xs) as [sel|] eqn:Es; [|done]. cbn [mbind option_bind] in E. injection E as <-. cbn [fst snd].
  assert (transits (take (S i) text) (reset acc0) = Some acc') as Hacc' by (by destruct Hinv' as (? & _)).
  apply lookup_lt_Some in Hch as Hi.
  assert (Forall (fun a => type a <> PART) (getFinalAcceptors acc')) as Hnp.
  { apply Forall_forall. intros a Ha. by apply (has_part_false text (S i) acc'). }
  destruct (build_plain path _ i lb text path' xs Hnp Hcost Eb) as (-> & Hxm & Hunk).
  assert (sel ∈ xs) as Hin.
  { destruct xs as [|x0 xs0]; [done|]. destruct (selectPath_spec (x0 :: xs0)) as (y & Ey & Hy & _); [done|]. congruence. }
  split.
  - intros j x Hx. apply lookup_app_Some in Hx as [Hx|[Hge Hx]].
    + destruct (Htr j x Hx) as [(acc1 & a & ? & ? & ?)|?]; [left|by right]. exists acc1, a. split_and!; [done..|by apply candidate_snoc].
    + apply list_lookup_singleton_Some in Hx as [Hj <-]. assert (j = i) as -> by lia.
      destruct (getFinalAcceptors acc') as [|a0 accs] eqn:Ef.
      { right. specialize (Hunk eq_refl). rewrite Forall_forall in Hunk. by apply Hunk. }
      left. assert (Forall (offset_ok i) (a0 :: accs)) as Hoff.
      { apply Forall_forall. intros a Ha. rewrite <- Ef in Ha. pose proof (final_offsets acc0 Hcreators text _ _ _ Hacc' Ha) as Ho.
        rewrite length_take in Ho. unfold offset_ok. lia. }
      destruct (build_spec path i Hlen (a0 :: accs) lb text Hok Hlb Hi Hoff) as (path2 & xs2 & Eb2 & _ & _ & _ & _ & _ & Hc2).
      rewrite Eb in Eb2. injection Eb2 as <- <-. specialize (Hc2 ltac:(done)). apply list_elem_of_lookup in Hin as [n Hn].
      destruct (Forall2_lookup_r _ _ _ _ _ Hc2 Hn) as (a & Ha & Hca). exists acc', a.
      split_and!; [done| |by apply candidate_snoc]. rewrite Ef. by eapply list_elem_of_lookup_2.
  - apply Forall_app. split; [done|]. constructor; [|done]. rewrite Forall_forall in Hxm. by apply Hxm.
Qed.

Lemma trace_loop n i rest st :
  drop i text = rest -> length rest = n -> trace_inv i st ->
  exists st', buildPath_loop text rest i st = Some st' /\ trace_inv (i + n) st'.
Proof using Hcreators Hpart.
  revert i rest st. induction n as [|n IH]; intros i rest st Hrest Hlen Hinv.
  - apply nil_length_inv in Hlen. subst rest. rewrite Hlen. cbn. exists st. by rewrite Nat.add_0_r.
  - destruct rest as [|ch rest]; [done|]. cbn [buildPath_loop].
    assert (text !! i = Some ch) as Hch by (by rewrite <- (Nat.add_0_r i), <- lookup_drop, Hrest).
    destruct (trace_step i ch st Hch Hinv) as (st' & -> & Hinv'). cbn [mbind option_bind].
    replace (i + S n) with (S i + n) by lia. apply IH; [|by injection Hlen|done].
    by rewrite <- Nat.add_1_r, <- drop_drop, Hrest.
Qed.

Lemma path_traced :
  exists path, buildPath acc0 text = Some path /\ length path = S (length text) /\ traced path /\
    Forall (fun x => i_merge x = None) path /\ Forall cost_ok path /\ optimal acc0 text path /\
    costs <$> path !! 0 = Some (None, 0%Z, 0%Z, 0%Z, INIT).
Proof using Hcreators Hpart.
  destruct (trace_loop (length text) 0 text (reset acc0, createPath, 0%Z)) as ([[acc path] lb] & El & Hinv & Htr & Hm); [done|done| |].
  { split_and!; [apply core_inv_init| |by constructor]. intros j x Hx. done. }
  destruct Hinv as (_ & _ & Hlen & _ & Hopt & Hcost & Hinit). exists path. unfold buildPath. rewrite El. by split_and!.
Qed.

(** Where no unknown piece is counted, the ranges are known pieces, as many
    as the path counts. *)
Lemma ranges_known path fuel e x rs :
  length path = S (length text) -> traced path -> Forall (fun x => i_merge x = None) path -> Forall cost_ok path ->
  costs <$> path !! 0 = Some (None, 0%Z, 0%Z, 0%Z, INIT) ->
  path !! e = Some x -> i_unk x = 0%Z -> e <= fuel ->
  exists ps, pathToRanges_loop fuel path (Z.of_nat e) rs = Some (ps ++ rs) /\
    known_pieces [] (map (range_text text) ps) /\ concat (map (range_text text) ps) = take e text /\ Z.of_nat (length ps) = i_w x.
Proof using Hcreators.
  intros Hlen Htr Hm Hc Hi. revert e x rs. induction fuel as [|fuel IH]; intros e x rs Hx Hu He; cbn [pathToRanges_loop].
  - assert (e = 0) as -> by lia. rewrite decide_False by lia. exists []. rewrite Hx in Hi. injection Hi as _ _ -> _ _. done.
  - destruct e as [|e]; [rewrite decide_False by lia; exists []; rewrite Hx in Hi; by injection Hi as _ _ -> _ _|].
    rewrite decide_True by lia. rewrite zlookup_nat, Hx. cbn [mbind option_bind]. rewrite Forall_lookup in Hm. rewrite (Hm _ _ Hx).
    destruct (Htr e x Hx) as [(acc & a & Hacc & Ha & Hca)|?]; [|lia].
    pose proof (final_offsets acc0 Hcreators text _ _ _ Hacc Ha) as Ho. pose proof (final_ok acc0 Hcreators text _ _ _ Hacc Ha) as Hok.
    apply acceptor_cost in Hok as (Hw1 & _ & Hun). destruct Hca as (y & Hy & Hp & _ & Hw & Hu' & _).
    rewrite Forall_lookup in Hc. destruct (Hc _ _ Hy) as (Hyu & _ & _). set (q := e + 1 - strOffset a) in *.
    pose proof (lookup_lt_Some _ _ _ Hx) as Hlt. rewrite length_take in Ho. rewrite Hp. cbn [mbind option_bind].
    destruct (IH q y (Range (Z.of_nat q) (Z.of_nat (S e)) :: rs) Hy ltac:(lia) ltac:(lia)) as (ps & E & Hk & Hcat & Hn).
    exists (ps ++ [Range (Z.of_nat q) (Z.of_nat (S e))]).
    set (p := range_text text (Range (Z.of_nat q) (Z.of_nat (S e)))).
    assert (take q text ++ p = take (S e) text) as Hglue.
    { unfold p, range_text, substring. cbn [r_s r_e]. rewrite !Nat2Z.id, take_take_drop. f_equal. lia. }
    assert (length p = strOffset a) as Hlp.
    { apply (f_equal length) in Hglue. rewrite length_app, !length_take in Hglue. lia. }
    rewrite map_app. cbn [map]. fold p. split_and!.
    + by rewrite E, <- app_assoc.
    + apply known_pieces_app. split; [done|]. cbn [known_pieces app]. rewrite Hcat. split_and!; [by intros Hz; rewrite Hz in Hlp; cbn in Hlp; lia| |done].
      exists acc, a. rewrite Hglue. split_and!; [done|done|done|]. lia.
    + by rewrite concat_app, Hcat; cbn [concat]; rewrite app_nil_r.
    + rewrite length_app. cbn [length]. lia.
Qed.

(** The cost of any segmentation into known pieces bounds that of the path. *)
Lemma pieces_bound path ps rest :
  length path = S (length text) -> optimal acc0 text path -> Forall cost_ok path ->
  costs <$> path !! 0 = Some (None, 0%Z, 0%Z, 0%Z, INIT) ->
  known_pieces [] ps -> text = concat ps ++ rest ->
  exists x, path !! length (concat ps) = Some x /\ i_unk x = 0%Z /\ (i_w x <= Z.of_nat (length ps))%Z.
Proof using Hcreators.
  intros Hlen Hopt Hc Hi. revert rest. induction ps as [|p ps IH] using rev_ind; intros rest Hk Ht.
  - apply fmap_Some in Hi as (x & Hx & E). injection E as _ _ E3 E4 _. exists x. cbn. split_and!; [done|done|lia].
  - apply known_pieces_app in Hk as [Hk (Hne & (acc & a & Hacc & Ha & Ho & Hu) & _)]. rewrite concat_app in Ht |- *. cbn [concat] in Ht |- *.
    rewrite app_nil_r in Ht |- *. destruct (IH (p ++ rest) Hk ltac:(by rewrite Ht, <- app_assoc)) as (x & Hx & Hxu & Hxw).
    assert (0 < length p) as Hp by (destruct p; cbn; [done|lia]). cbn [app] in Hacc.
    assert (take (length (concat ps ++ p)) text = concat ps ++ p) as Htk by (by rewrite Ht, take_app_length).
    assert (S (length (concat ps ++ p) - 1) = length (concat ps ++ p)) as Hs by (rewrite length_app; lia).
    assert (length (concat ps ++ p) <= length text) as Hle by (rewrite Ht, (length_app (concat ps ++ p)); lia).
    rewrite <- Htk in Hacc. pose proof (final_ok acc0 Hcreators text _ _ _ Hacc Ha) as Hok. apply acceptor_cost in Hok as (Hw1 & Hm1 & _).
    rewrite Forall_lookup in Hc. destruct (Hc _ _ Hx) as (_ & Hxm & _).
    destruct (Hopt (length (concat ps ++ p) - 1) acc a (Info (Some (Z.of_nat (length (concat ps)))) 0 (1 + i_w x) 0 (type a) None)) as (y & Hy & Hcl).
    + rewrite Hlen. lia.
    + by rewrite Hs.
    + done.
    + exists x. rewrite Ho, Hw1, Hu, Hm1, Hxu, Hxm. rewrite length_app in *.
      replace (length (concat ps) + length p - 1 + 1 - length p) with (length (concat ps)) by lia. by split_and!.
    + rewrite Hs in Hy. exists y. split; [done|]. destruct (Hc _ _ Hy) as (Hy1 & Hy2 & Hy3). unfold cost_le in Hcl. cbn in Hcl.
      rewrite length_app. cbn [length]. lia.
Qed.
End Text.
End Optimal.

(** ** Theorem *)

(** C23. Of a text that has a segmentation into known pieces (dictionary words,
    runs of Latin letters, digits or spaces, symbols, Thai patterns), the path
    that is built counts no unknown piece and no more pieces than any such
    segmentation has.  If moreover the rule for parts, which merges pieces, is
    final nowhere in the text, then the text is cut into known pieces, and into
    no more of them than any such segmentation has.  Where that rule is final the
    pieces of the path may be merged: [unselected_candidate_merges]. *)
Theorem cut_fewest_known_pieces (default_text : jsstr) (ws : option (list jsstr)) (words : list jsstr) :
  let acc := wordcut_init default_text ws in
  known_pieces acc [] words ->
  (exists path x, buildPath acc (concat words) = Some path /\ last path = Some x /\ i_unk x = 0%Z /\
    forall others, known_pieces acc [] others -> concat others = concat words -> (i_w x <= Z.of_nat (length others))%Z) /\
  (has_part acc (concat words) = false ->
   exists pieces, cutIntoArray acc (concat words) = Some pieces /\ known_pieces acc [] pieces /\
    concat pieces = concat words /\
    forall others, known_pieces acc [] others -> concat others = concat words -> length pieces <= length others).
Proof.
  intros acc Hk. pose proof (wordcut_init_ok default_text ws) as Hcr. fold acc in Hcr. set (text := concat words) in *.
  destruct (buildPath_total acc Hcr text) as (path & E & _ & Hlen & Hopt & Hc & Hi).
  assert (forall others, known_pieces acc [] others -> concat others = text ->
    exists x, path !! length text = Some x /\ i_unk x = 0%Z /\ (i_w x <= Z.of_nat (length others))%Z) as Hb.
  { intros others Ho Ht. rewrite <- Ht. apply (pieces_bound acc Hcr text path others []); try done. by rewrite app_nil_r. }
  destruct (Hb words Hk eq_refl) as (x & Hx & Hu & Hw).
  assert (forall others, known_pieces acc [] others -> concat others = text -> (i_w x <= Z.of_nat (length others))%Z) as Hmin.
  { intros others Ho Ht. destruct (Hb others Ho Ht) as (x' & Hx' & _ & Hw'). rewrite Hx in Hx'. by injection Hx' as <-. }
  split; [exists path, x; split_and!; [done|by rewrite last_lookup, Hlen|done|done]|]. intros Hp.
  destruct (path_traced acc Hcr text Hp) as (path' & E' & _ & Htr & Hm & _). rewrite E in E'. injection E' as <-.
  destruct (ranges_known acc Hcr text path (length path) (length text) x []) as (rs & Er & Hkr & Hcat & Hn); [done..|lia|].
  exists (map (range_text text) rs). rewrite app_nil_r in Er. rewrite firstn_all in Hcat. split_and!; [|done|done|].
  - unfold cutIntoArray. rewrite E. cbn [mbind option_bind]. unfold pathToRanges.
    replace (Z.of_nat (length path) - 1)%Z with (Z.of_nat (length text)) by lia. by rewrite Er.
  - intros others Ho Ht. specialize (Hmin others Ho Ht). rewrite length_map. lia.
Qed.

Lemma cut_fewest_known_pieces_witness :
  exists pieces, cutIntoArray small_acc «"#ab# 12"» = Some pieces /\ known_pieces small_acc [] pieces /\ concat pieces = «"#ab# 12"» /\
    forall others, known_pieces small_acc [] others -> concat others = «"#ab# 12"» -> length pieces <= length others.
Proof.
  apply (cut_fewest_known_pieces [] small_dict [«"#a"»; «"b#"»; «" "»; «"12"»]).
  - apply known_piecesb_true. by vm_compute.
  - by vm_compute.
Defined.

(** Of two segmentations the one with fewer pieces is taken, also when its
    pieces come from different rules. *)
Example fewest_pieces :
  let acc := wordcut_init [] (Some [«"##"»; «"#"»; «"#-"»; «"-#"»]) in
  known_piecesb acc [] [«"##"»; «"-"»; «"#"»] = true /\ known_piecesb acc [] [«"#"»; «"#-"»; «"#"»] = true /\
  known_piecesb acc [] [«"##"»; «"-#"»] = true /\ cutIntoArray acc «"##-#"» = Some [«"##"»; «"-#"»].
Proof. by vm_compute. Qed.
