(* ===== verification/NodePath.v ===== *)
(** * The posix [path] module

    Modules 22 (path) and 23 (path-is-absolute) of wordcut.js.  [process] is
    the browser shim of the same bundle, whose [cwd()] is ["/"]. *)

From S2P Require Import Prelude.

Definition slash : N := 47%N.
Definition dot_part : jsstr := «"."».
Definition dotdot_part : jsstr := «".."».

Definition process_cwd : jsstr := «"/"».

(** ** Operations *)

(** The [for] loop of [normalizeArray], over the parts from the last to the
    first; [kept] are the parts that were not spliced out. *)
Fixpoint normalizeArray_loop (rev_parts : list jsstr) (up : nat) (kept : list jsstr)
    : list jsstr * nat :=
  match rev_parts with
  | [] => (kept, up)
  | last :: rest =>
      if decide (last = dot_part) then normalizeArray_loop rest up kept
      else if decide (last = dotdot_part) then normalizeArray_loop rest (S up) kept
      else match up with
           | S up' => normalizeArray_loop rest up' kept
           | O => normalizeArray_loop rest 0 (last :: kept)
           end
  end.

Definition normalizeArray (parts : list jsstr) (allowAboveRoot : bool) : list jsstr :=
  let '(kept, up) := normalizeArray_loop (rev parts) 0 [] in
  if allowAboveRoot then replicate up dotdot_part ++ kept else kept.

Definition isAbsolute (path : jsstr) : bool := bool_decide (charAt path 0 = [slash]).

(** [filter(path.split('/'), p => !!p)] *)
Definition segments (path : jsstr) : list jsstr :=
  filter (fun p => p <> []) (split_on slash path).

(** The loop of [resolve], over the arguments from the last to the first and
    then the current directory; [None] in an argument position is a value
    that is not a string, on which the code throws. *)
Fixpoint resolve_loop (rev_args : list (option jsstr)) (resolvedPath : jsstr)
    (resolvedAbsolute : bool) : option (jsstr * bool) :=
  if resolvedAbsolute then Some (resolvedPath, resolvedAbsolute)
  else match rev_args with
       | [] => Some (resolvedPath, resolvedAbsolute)
       | None :: _ => None
       | Some path :: rest =>
           if decide (path = []) then resolve_loop rest resolvedPath resolvedAbsolute
           else resolve_loop rest (path ++ [slash] ++ resolvedPath) (isAbsolute path)
       end.

Definition resolve (args : list (option jsstr)) : option jsstr :=
  '(resolvedPath, resolvedAbsolute) ← resolve_loop (rev args ++ [Some process_cwd]) [] false;
  let resolvedPath :=
    join [slash] (normalizeArray (segments resolvedPath) (negb resolvedAbsolute)) in
  let result := (if resolvedAbsolute then [slash] else []) ++ resolvedPath in
  Some (if decide (result = []) then dot_part else result).

Definition normalize (path : jsstr) : jsstr :=
  let abs := isAbsolute path in
  let trailingSlash := bool_decide (last path = Some slash) in
  let path := join [slash] (normalizeArray (segments path) (negb abs)) in
  let path := if decide (path = [] /\ abs = false) then dot_part else path in
  let path := if decide (path <> [] /\ trailingSlash = true) then path ++ [slash] else path in
  (if abs then [slash] else []) ++ path.

(** [join] throws on any argument that is not a string. *)
Definition path_join (args : list (option jsstr)) : option jsstr :=
  paths ← mapM id args;
  Some (normalize (join [slash] (filter (fun p => p <> []) paths))).

Fixpoint trim_start (arr : list jsstr) : nat :=
  match arr with
  | [] :: arr' => S (trim_start arr')
  | _ => 0
  end.

(** [start] is the first and [end] the last index of a non-empty element; the
    result is [arr.slice(start, end - start + 1)], or [[]] if [start > end]. *)
Definition trim (arr : list jsstr) : list jsstr :=
  let start := Z.of_nat (trim_start arr) in
  let end_ := (Z.of_nat (length arr) - 1 - Z.of_nat (trim_start (rev arr)))%Z in
  if decide (end_ < start)%Z then []
  else take (Z.to_nat (end_ - start + 1) - Z.to_nat start) (drop (Z.to_nat start) arr).

Fixpoint same_parts (xs ys : list jsstr) : nat :=
  match xs, ys with
  | x :: xs', y :: ys' => if decide (x = y) then S (same_parts xs' ys') else 0
  | _, _ => 0
  end.

Definition relative (from to : jsstr) : option jsstr :=
  from ← resolve [Some from];
  to ← resolve [Some to];
  let fromParts := trim (split_on slash (drop 1 from)) in
  let toParts := trim (split_on slash (drop 1 to)) in
  let samePartsLength := same_parts fromParts toParts in
  let outputParts := replicate (length fromParts - samePartsLength) dotdot_part in
  Some (join [slash] (outputParts ++ drop samePartsLength toParts)).

(** ** The regular expression of [splitPath]

    (Line 4141 of wordcut.js.)  It is matched by backtracking: the options of a sub-expression are listed in the order
    in which they are tried, each with what is left of the subject. *)

Definition dot_unit : N := 46%N.

Definition root_options (s : jsstr) : list (jsstr * jsstr) :=
  match s with
  | c :: s' => if decide (c = slash) then [([slash], s')] else []
  | [] => []
  end ++ [([], s); ([], s)].

(** [[\s\S]*?]: lazy, the shortest first. *)
Definition dir_options (s : jsstr) : list (jsstr * jsstr) :=
  map (fun n => (take n s, drop n s)) (seq 0 (S (length s))).

Definition not_slash (c : N) : bool := negb (c =? slash)%N.
Definition not_dot_slash (c : N) : bool := negb (c =? slash)%N && negb (c =? dot_unit)%N.

(** [\.{1,2}] (two dots first), then [[^\/]+?] (lazy), then nothing. *)
Definition stem_options (s : jsstr) : list (jsstr * jsstr) :=
  (if decide (take 2 s = [dot_unit; dot_unit]) then [(take 2 s, drop 2 s)] else []) ++
  (if decide (take 1 s = [dot_unit]) then [(take 1 s, drop 1 s)] else []) ++
  map (fun n => (take n s, drop n s)) (seq 1 (length (take_while not_slash s))) ++
  [([], s)].

(** [\.[^.\/]*] (greedy, the longest first), then nothing. *)
Definition ext_options (s : jsstr) : list (jsstr * jsstr) :=
  match s with
  | c :: s' =>
      if decide (c = dot_unit) then
        map (fun n => (take (S n) s, drop (S n) s))
            (rev (seq 0 (S (length (take_while not_dot_slash s')))))
      else []
  | [] => []
  end ++ [([], s)].

(** The end of the expression: any number of slashes, then the end of input. *)
Definition only_slashes (s : jsstr) : bool := forallb (fun c => (c =? slash)%N) s.

(** Groups 3 and 4, and the end of the expression. *)
Definition match_base (s : jsstr) : option (jsstr * jsstr) :=
  first_success (fun '(stem, s1) =>
    first_success (fun '(ext, s2) =>
      if only_slashes s2 then Some (stem ++ ext, ext) else None)
    (ext_options s1))
  (stem_options s).

(** The four groups: root, dir, basename, ext. *)
Definition splitPath (filename : jsstr) : option (jsstr * jsstr * jsstr * jsstr) :=
  first_success (fun '(root, s1) =>
    first_success (fun '(dir, s2) =>
      '(base, ext) ← match_base s2; Some (root, dir, base, ext))
    (dir_options s1))
  (root_options filename).

Definition dirname (path : jsstr) : option jsstr :=
  '(root, dir, _, _) ← splitPath path;
  Some (if decide (root = [] /\ dir = []) then dot_part
        else root ++ (if decide (dir = []) then dir else take (length dir - 1) dir)).

(** [f.substr(-1 * ext.length) === ext], [f.substr(0, f.length - ext.length)]. *)
Definition basename (path : jsstr) (ext : option jsstr) : option jsstr :=
  '(_, _, f, _) ← splitPath path;
  Some (match ext with
        | Some ext =>
            if decide (ext <> [] /\ drop (length f - length ext) f = ext)
            then take (length f - length ext) f else f
        | None => f
        end).

Definition extname (path : jsstr) : option jsstr :=
  '(_, _, _, ext) ← splitPath path; Some ext.

(** ** path-is-absolute *)

Definition posix_isAbsolute (path : jsstr) : bool := bool_decide (charAt path 0 = [slash]).

Definition is_sep (c : N) : bool := (c =? slash)%N || (c =? 92)%N.
Definition is_letter (c : N) : bool := in_range 65 90 c || in_range 97 122 c.

(** The optional first group of [splitDeviceRe]: a drive, or a UNC share.  The
    character classes that follow each other are disjoint and what comes after
    the group matches anything, so the greedy choices are never undone. *)
Definition win32_device (path : jsstr) : option jsstr :=
  match path with
  | c :: 58%N :: _ => if is_letter c then Some [c; 58%N] else None
  | c1 :: c2 :: rest =>
      if is_sep c1 && is_sep c2 then
        let server := take_while (fun c => negb (is_sep c)) rest in
        let rest1 := drop (length server) rest in
        let seps := take_while is_sep rest1 in
        let rest2 := drop (length seps) rest1 in
        let share := take_while (fun c => negb (is_sep c)) rest2 in
        if decide (server <> [] /\ seps <> [] /\ share <> [])
        then Some (c1 :: c2 :: server ++ seps ++ share) else None
      else None
  | _ => None
  end.

Definition win32_isAbsolute (path : jsstr) : bool :=
  let device := default [] (win32_device path) in
  let isUnc := bool_decide (device <> [] /\ charAt device 1 <> [58%N]) in
  let sep := match drop (length device) path with c :: _ => is_sep c | [] => false end in
  sep || isUnc.

(** ** The reference: reading the parts from left to right with a stack *)

Record dirs := Dirs { ups : nat; names : list jsstr }.

Definition enter (d : dirs) (part : jsstr) : dirs :=
  if decide (part = dot_part) then d
  else if decide (part = dotdot_part) then
    match names d with
    | [] => Dirs (S (ups d)) []
    | _ => Dirs (ups d) (removelast (names d))
    end
  else Dirs (ups d) (names d ++ [part]).

Definition walk (parts : list jsstr) : dirs := foldl enter (Dirs 0 []) parts.

Definition is_name (part : jsstr) : Prop :=
  part <> [] /\ part <> dot_part /\ part <> dotdot_part /\ slash ∉ part.

Lemma walk_snoc parts x : walk (parts ++ [x]) = enter (walk parts) x.
Proof. unfold walk. by rewrite foldl_app. Qed.

Lemma removelast_take {A} (l : list A) : removelast l = take (length l - 1) l.
Proof.
  induction l as [|x l IH]; [done|]. destruct l as [|y l]; [done|].
  change (removelast (x :: y :: l)) with (x :: removelast (y :: l)). rewrite IH. simpl.
  by rewrite Nat.sub_0_r.
Qed.

Lemma normalizeArray_loop_walk parts up kept :
  normalizeArray_loop (rev parts) up kept =
  (take (length (names (walk parts)) - up) (names (walk parts)) ++ kept,
   ups (walk parts) + (up - length (names (walk parts)))).
Proof.
  revert up kept. induction parts as [|x parts IH] using rev_ind; intros up kept.
  { simpl. rewrite Nat.sub_0_r. done. }
  rewrite rev_app_distr, walk_snoc. cbn [rev app normalizeArray_loop].
  unfold enter. case_decide as Hd; [apply IH|]. case_decide as Hdd.
  - rewrite IH. destruct (names (walk parts)) as [|y l] eqn:E; cbn [ups names].
    + simpl. f_equal. lia.
    + set (ns := y :: l). assert (0 < length ns) by (simpl; lia).
      rewrite (removelast_take ns), take_take, length_take. f_equal; [do 2 f_equal|]; lia.
  - cbn [ups names]. rewrite length_app. cbn [length]. destruct up as [|up]; rewrite IH.
    + rewrite !Nat.sub_0_r, take_ge, take_ge by (rewrite ?length_app; simpl; lia).
      by rewrite <- app_assoc.
    + rewrite take_app_le by lia. f_equal; [do 2 f_equal|]; lia.
Qed.

Lemma normalizeArray_walk parts allow :
  normalizeArray parts allow =
  (if allow then replicate (ups (walk parts)) dotdot_part else []) ++ names (walk parts).
Proof.
  unfold normalizeArray. rewrite normalizeArray_loop_walk, Nat.sub_0_r, take_ge by done.
  rewrite app_nil_r. destruct allow; [|done]. f_equal. f_equal. lia.
Qed.

(** ** Walking *)

Definition is_part (part : jsstr) : Prop := part <> [] /\ slash ∉ part.

Lemma segments_parts path : Forall is_part (segments path).
Proof.
  unfold segments. apply Forall_forall. intros x [Hx Hin]%list_elem_of_filter.
  split; [done|]. pose proof (split_on_parts slash path) as Hall.
  rewrite Forall_forall in Hall. by apply Hall.
Qed.

Lemma walk_app a b : walk (a ++ b) = foldl enter (walk a) b.
Proof. apply foldl_app. Qed.

Lemma enter_names d part :
  is_part part -> Forall is_name (names d) -> Forall is_name (names (enter d part)).
Proof.
  intros [Hne Hs] Hall. unfold enter. repeat case_decide; [done| |].
  - destruct (names d) as [|x l] eqn:E; [constructor|]. cbn [names].
    rewrite removelast_take. by apply Forall_take.
  - apply Forall_app. split; [done|]. apply Forall_singleton. by split_and!.
Qed.

Lemma walk_names parts : Forall is_part parts -> Forall is_name (names (walk parts)).
Proof.
  induction parts as [|x parts IH] using rev_ind; intros Hall; [constructor|].
  apply Forall_app in Hall as [Hall [Hx _]%Forall_cons].
  rewrite walk_snoc. apply enter_names; [done|by apply IH].
Qed.

Lemma enter_up d : names d <> [] -> enter d dotdot_part = Dirs (ups d) (removelast (names d)).
Proof. intros. unfold enter. simpl. by destruct (names d). Qed.

Lemma enter_all_ups d n :
  n <= length (names d) ->
  foldl enter d (replicate n dotdot_part) =
  Dirs (ups d) (take (length (names d) - n) (names d)).
Proof.
  revert d. induction n as [|n IH]; intros d Hn.
  { rewrite Nat.sub_0_r, take_ge by done. by destruct d. }
  cbn [replicate foldl]. rewrite enter_up by (by destruct (names d); simpl in *; [lia|]).
  rewrite IH; cbn [names ups]; rewrite removelast_take, length_take; [|lia].
  rewrite take_take. do 2 f_equal. lia.
Qed.

Lemma enter_all_names d ns :
  Forall is_name ns -> foldl enter d ns = Dirs (ups d) (names d ++ ns).
Proof.
  intros Hall. revert d. induction Hall as [|x ns (H1 & H2 & H3 & _) Hall IH]; intros d.
  { rewrite app_nil_r. by destruct d. }
  cbn [foldl]. rewrite IH. unfold enter. rewrite !decide_False by done. cbn [ups names].
  by rewrite <- app_assoc.
Qed.

(** Walking along an already normal list of parts. *)
Lemma walk_normal u ns :
  Forall is_name ns -> walk (replicate u dotdot_part ++ ns) = Dirs u ns.
Proof.
  intros Hns. rewrite walk_app, enter_all_names by done.
  assert (walk (replicate u dotdot_part) = Dirs u []) as ->; [|done].
  induction u as [|u IH]; [done|].
  rewrite replicate_S_end, walk_snoc, IH. done.
Qed.

Lemma is_name_part x : is_name x -> is_part x.
Proof. by intros (? & _ & _ & ?). Qed.

Lemma normalizeArray_parts parts allow :
  Forall is_part parts -> Forall is_part (normalizeArray parts allow).
Proof.
  intros Hall. rewrite normalizeArray_walk. apply Forall_app. split.
  - destruct allow; [|constructor]. apply Forall_replicate. split; [done|].
    unfold dotdot_part, slash. simpl. set_solver.
  - eapply Forall_impl; [by apply walk_names|apply is_name_part].
Qed.

Lemma normalizeArray_idemp parts allow :
  Forall is_part parts ->
  normalizeArray (normalizeArray parts allow) allow = normalizeArray parts allow.
Proof.
  intros Hall. apply walk_names in Hall as Hn. rewrite !normalizeArray_walk.
  destruct allow; [by rewrite walk_normal|].
  cbn [app]. pose proof (walk_normal 0 _ Hn) as E. cbn [replicate app] in E. by rewrite E.
Qed.

(** ** Segments of joined paths *)

Lemma segments_app s t : segments (s ++ slash :: t) = segments s ++ segments t.
Proof. unfold segments. by rewrite split_on_app, filter_app. Qed.

Lemma segments_join parts : Forall is_part parts -> segments (join [slash] parts) = parts.
Proof.
  intros Hall. destruct (decide (parts = [])) as [->|Hne]; [done|].
  unfold segments. rewrite split_on_join; [|done|].
  - induction Hall as [|x l [Hx _] Hall IH]; [done|].
    rewrite filter_cons, decide_True by done. f_equal. destruct l; [done|by apply IH].
  - eapply Forall_impl; [exact Hall|]. by intros x [_ ?].
Qed.

Lemma isAbsolute_cons p : isAbsolute (slash :: p) = true.
Proof. by unfold isAbsolute; rewrite bool_decide_eq_true. Qed.

Lemma isAbsolute_head p : isAbsolute p = true <-> head p = Some slash.
Proof.
  unfold isAbsolute, charAt. rewrite bool_decide_eq_true.
  destruct p as [|c p]; simpl; naive_solver.
Qed.

(** ** [normalize] *)

Lemma join_parts_ends parts :
  parts <> [] -> Forall is_part parts ->
  exists c d, head (join [slash] parts) = Some c /\ c <> slash /\
              last (join [slash] parts) = Some d /\ d <> slash.
Proof.
  intros Hne Hall. destruct (join_head slash parts Hne Hall) as (c & ? & ?).
  destruct (join_last slash parts Hne Hall) as (d & ? & ?). by exists c, d.
Qed.

(** The shape of a normalized path. *)
Definition normal_path (abs trailing : bool) (parts : list jsstr) : jsstr :=
  (if abs then [slash] else []) ++ join [slash] parts ++ (if trailing then [slash] else []).

Lemma normal_path_parts abs trailing parts :
  Forall is_part parts -> parts <> [] ->
  isAbsolute (normal_path abs trailing parts) = abs /\
  bool_decide (last (normal_path abs trailing parts) = Some slash) = trailing /\
  segments (normal_path abs trailing parts) = parts.
Proof.
  intros Hall Hne. destruct (join_parts_ends parts Hne Hall) as (c & d & Hc & Hcs & Hd & Hds).
  unfold normal_path. split_and!.
  - destruct abs; [apply isAbsolute_cons|]. apply not_true_is_false.
    rewrite isAbsolute_head. simpl. destruct (join [slash] parts); simplify_eq/=. congruence.
  - rewrite !last_app. destruct trailing; simpl; [done|].
    rewrite Hd. apply bool_decide_eq_false. congruence.
  - assert (segments (join [slash] parts ++ (if trailing then [slash] else [])) = parts) as E.
    { destruct trailing; [|by rewrite app_nil_r, segments_join].
      rewrite segments_app, segments_join by done. apply app_nil_r. }
    destruct abs; [|done]. cbn [app].
    change (slash :: ?p) with ([] ++ slash :: p). rewrite segments_app, E. done.
Qed.

Lemma normalize_eq path :
  let abs := isAbsolute path in
  let trailing := bool_decide (last path = Some slash) in
  let parts := normalizeArray (segments path) (negb abs) in
  normalize path =
  if decide (parts = []) then
    if abs then [slash] else dot_part ++ (if trailing then [slash] else [])
  else normal_path abs trailing parts.
Proof.
  intros abs trailing parts. unfold normalize. fold abs trailing parts.
  assert (Forall is_part parts) as Hparts by apply normalizeArray_parts, segments_parts.
  destruct (decide (parts = [])) as [->|Hne].
  - cbn [join]. destruct abs; [by rewrite !decide_False by naive_solver|].
    rewrite (decide_True (P := _ = _ /\ _)) by done.
    destruct trailing; [by rewrite decide_True|by rewrite decide_False by naive_solver].
  - assert (join [slash] parts <> []) as Hj.
    { intros E. apply join_nil_inv in E; [done|]. eapply Forall_impl; [exact Hparts|]. by intros x [? _]. }
    rewrite (decide_False (P := _ = _ /\ _)) by naive_solver. unfold normal_path.
    destruct trailing; [by rewrite decide_True|].
    rewrite decide_False by naive_solver. by rewrite app_nil_r.
Qed.

(** [normalize] is idempotent on every string, trailing slashes and paths
    above the starting directory included. *)
Theorem normalize_idempotent (path : jsstr) : normalize (normalize path) = normalize path.
Proof.
  rewrite (normalize_eq path). cbv zeta.
  set (abs := isAbsolute path). set (trailing := bool_decide (last path = Some slash)).
  set (parts := normalizeArray (segments path) (negb abs)).
  assert (Forall is_part parts) as Hparts by apply normalizeArray_parts, segments_parts.
  destruct (decide (parts = [])) as [E|Hne].
  { destruct abs, trailing; reflexivity. }
  destruct (normal_path_parts abs trailing parts Hparts Hne) as (Ha & Ht & Hs).
  rewrite (normalize_eq (normal_path _ _ _)). cbv zeta. rewrite Ha, Ht, Hs.
  unfold parts. rewrite normalizeArray_idemp by apply segments_parts. fold parts.
  by rewrite decide_False.
Qed.

(** ** [resolve] *)

(** The segments that [resolve] walks along: those of the arguments from the
    last absolute one on. *)
Fixpoint effective_segments (rev_args : list jsstr) : list jsstr :=
  match rev_args with
  | [] => []
  | a :: rest =>
      if isAbsolute a then segments a else effective_segments rest ++ segments a
  end.

Lemma resolve_loop_segments rev_args p :
  exists q, resolve_loop (map Some rev_args ++ [Some process_cwd]) p false = Some (q, true) /\
    segments q = effective_segments rev_args ++ segments p.
Proof.
  revert p. induction rev_args as [|a rest IH]; intros p; simpl.
  { by exists (process_cwd ++ [slash] ++ p). }
  destruct (decide (a = [])) as [->|Hne].
  { destruct (IH p) as (q & -> & Hq). exists q. split; [done|].
    change (segments []) with (@nil jsstr). by rewrite app_nil_r. }
  destruct (isAbsolute a) eqn:Ea.
  - exists (a ++ slash :: p). split; [by destruct rest|]. by rewrite segments_app.
  - destruct (IH (a ++ slash :: p)) as (q & -> & Hq). exists q. split; [done|].
    by rewrite Hq, segments_app, app_assoc.
Qed.

Lemma resolve_strings args :
  resolve (map Some args) =
  Some (slash :: join [slash] (names (walk (effective_segments (rev args))))).
Proof.
  unfold resolve. rewrite <- map_rev.
  destruct (resolve_loop_segments (rev args) []) as (q & -> & Hq). cbn [mbind option_bind].
  change (segments []) with (@nil jsstr) in Hq. rewrite app_nil_r in Hq.
  rewrite Hq, normalizeArray_walk. done.
Qed.

Lemma effective_segments_parts rev_args : Forall is_part (effective_segments rev_args).
Proof.
  induction rev_args as [|a rest IH]; simpl; [constructor|].
  destruct (isAbsolute a); [apply segments_parts|]. apply Forall_app. split; [done|apply segments_parts].
Qed.

Lemma effective_names rev_args : Forall is_name (names (walk (effective_segments rev_args))).
Proof. apply walk_names, effective_segments_parts. Qed.

(** On strings [resolve] always returns an absolute path in normal form:
    a slash, then names separated by single slashes, none of them empty, [.]
    or [..]; the names are those reached by walking left to right along the
    arguments from the last absolute one on, [..] at the root staying there. *)
Theorem resolve_absolute_normal (args : list jsstr) :
  resolve (map Some args) =
    Some (slash :: join [slash] (names (walk (effective_segments (rev args))))) /\
  Forall is_name (names (walk (effective_segments (rev args)))).
Proof. split; [apply resolve_strings|apply effective_names]. Qed.

(** ** [relative] *)

Lemma trim_start_nonempty arr : Forall (fun x => x <> []) arr -> trim_start arr = 0.
Proof. intros Hall. destruct Hall as [|x l Hx]; [done|]. by destruct x. Qed.

Lemma trim_nonempty arr : arr <> [] -> Forall (fun x => x <> []) arr -> trim arr = arr.
Proof.
  intros Hne Hall. unfold trim.
  rewrite !trim_start_nonempty by (done || by apply Forall_rev).
  assert (0 < length arr) by (destruct arr; simpl; [done|lia]).
  rewrite decide_False by lia. change (Z.to_nat (Z.of_nat 0)) with 0.
  rewrite drop_0. apply take_ge. lia.
Qed.

(** [trim] is harmless on resolved paths, although its second argument to
    [slice] is a length and not an index. *)
Lemma trim_resolved ns :
  Forall is_name ns -> trim (split_on slash (drop 1 (slash :: join [slash] ns))) = ns.
Proof.
  intros Hall. change (drop 1 (slash :: ?x)) with x. destruct (decide (ns = [])) as [->|Hne]; [done|].
  rewrite split_on_join; [|done|eapply Forall_impl; [exact Hall|by intros x (_ & _ & _ & ?)]].
  apply trim_nonempty; [done|]. eapply Forall_impl; [exact Hall|]. by intros x (? & _).
Qed.

Lemma same_parts_spec xs ys :
  same_parts xs ys <= length xs /\ same_parts xs ys <= length ys /\
  take (same_parts xs ys) xs = take (same_parts xs ys) ys.
Proof.
  revert ys. induction xs as [|x xs IH]; intros [|y ys]; simpl; [split_and!; (done || lia)..|].
  destruct (IH ys) as (?&?&E). case_decide; subst; simpl; split_and!; (lia || by rewrite ?E).
Qed.

Lemma relative_eq from to :
  let F := names (walk (effective_segments [from])) in
  let T := names (walk (effective_segments [to])) in
  relative from to =
  Some (join [slash] (replicate (length F - same_parts F T) dotdot_part ++ drop (same_parts F T) T)).
Proof.
  intros F T. unfold relative.
  pose proof (resolve_strings [from]) as Ef. pose proof (resolve_strings [to]) as Et.
  cbn [map rev app] in Ef, Et. rewrite Ef, Et. cbn [mbind option_bind].
  rewrite !trim_resolved by apply effective_names. done.
Qed.

Lemma effective_segments_relative from r :
  isAbsolute r = false ->
  effective_segments (rev [from; r]) = effective_segments [from] ++ segments r.
Proof. intros E. cbn [rev app effective_segments]. by rewrite E. Qed.

(** C35. [relative] inverts [resolve]: resolving the relative path from [to]
    against [from] gives what [to] resolves to. *)
Theorem resolve_relative (from to r : jsstr) :
  relative from to = Some r -> resolve [Some from; Some r] = resolve [Some to].
Proof.
  rewrite relative_eq. cbv zeta.
  set (F := names (walk (effective_segments [from]))).
  set (T := names (walk (effective_segments [to]))).
  set (k := same_parts F T). intros [= <-].
  assert (Forall is_name F) as HF by apply effective_names.
  assert (Forall is_name T) as HT by apply effective_names.
  destruct (same_parts_spec F T) as (HkF & HkT & Hk). fold k in HkF, HkT, Hk.
  set (parts := replicate (length F - k) dotdot_part ++ drop k T).
  assert (Forall is_part parts) as Hparts.
  { apply Forall_app. split; [apply Forall_replicate; split; [done|]; unfold dotdot_part, slash; simpl; set_solver|].
    apply Forall_drop. eapply Forall_impl; [exact HT|apply is_name_part]. }
  pose proof (resolve_strings [from; join [slash] parts]) as E1.
  pose proof (resolve_strings [to]) as E2. cbn [map] in E1, E2. rewrite E1, E2.
  do 3 f_equal. change (effective_segments (rev [to])) with (effective_segments [to]). fold T.
  rewrite effective_segments_relative, segments_join; [|done|].
  2:{ apply not_true_is_false. rewrite isAbsolute_head.
      destruct (decide (parts = [])) as [->|Hne]; [done|].
      destruct (join_parts_ends parts Hne Hparts) as (c & _ & -> & ? & _). congruence. }
  unfold parts. rewrite walk_app, foldl_app, enter_all_ups by (fold F; lia). fold F.
  rewrite enter_all_names by (by apply Forall_drop). cbn [names].
  replace (length F - (length F - k)) with k by lia. by rewrite Hk, take_drop.
Qed.

Lemma resolve_relative_witness :
  relative «"a/b/c"» «"/a/../x/b"» = Some «"../../../x/b"» /\
  resolve [Some «"a/b/c"»; Some «"../../../x/b"»] = resolve [Some «"/a/../x/b"»].
Proof.
  assert (relative «"a/b/c"» «"/a/../x/b"» = Some «"../../../x/b"») as H by (vm_compute; reflexivity).
  split; [exact H|exact (resolve_relative _ _ _ H)].
Defined.

(** ** [dirname] and [basename] *)

Lemma stem_options_split s stem s1 : (stem, s1) ∈ stem_options s -> s = stem ++ s1.
Proof.
  unfold stem_options. rewrite !elem_of_app, list_elem_of_fmap, list_elem_of_singleton.
  intros [H|[H|[(n & H & _)|H]]]; try case_decide; try (by apply elem_of_nil in H);
    rewrite ?list_elem_of_singleton in H; simplify_eq; by rewrite ?take_drop.
Qed.

Lemma ext_options_split s ext s2 : (ext, s2) ∈ ext_options s -> s = ext ++ s2.
Proof.
  unfold ext_options. destruct s as [|c s]; [rewrite app_nil_l, list_elem_of_singleton; by intros [= -> ->]|].
  rewrite elem_of_app, list_elem_of_singleton. intros [H|[= -> ->]]; [|done].
  case_decide; [|by apply elem_of_nil in H].
  apply list_elem_of_fmap in H as (n & H & _). simplify_eq. by rewrite take_drop.
Qed.

Lemma not_slash_spec s : forallb not_slash s = true <-> slash ∉ s.
Proof.
  rewrite forallb_Forall, Forall_forall. unfold not_slash. split.
  - intros H Hin%H. by rewrite N.eqb_refl in Hin.
  - intros H x Hx. destruct (N.eqb_spec x slash) as [->|]; done.
Qed.

Lemma take_while_no_slash n s f :
  (forall c, f c = true -> c <> slash) -> n <= length (take_while f s) -> slash ∉ take n s.
Proof.
  intros Hf Hn Hin. rewrite <- (take_while_prefix f s), take_app_le in Hin by done.
  apply elem_of_take in Hin as (i & Hi & _). apply list_elem_of_lookup_2 in Hi.
  pose proof (take_while_all f s) as Hall. rewrite forallb_Forall, Forall_forall in Hall.
  by apply (Hf slash); [apply Hall|].
Qed.

Lemma stem_no_slash s stem s1 : (stem, s1) ∈ stem_options s -> slash ∉ stem.
Proof.
  unfold stem_options. rewrite !elem_of_app, list_elem_of_fmap, list_elem_of_singleton.
  intros [H|[H|[(n & H & Hn)|H]]].
  - case_decide as E; [|by apply elem_of_nil in H]. rewrite list_elem_of_singleton in H.
    simplify_eq. rewrite E. unfold dot_unit, slash. set_solver.
  - case_decide as E; [|by apply elem_of_nil in H]. rewrite list_elem_of_singleton in H.
    simplify_eq. rewrite E. unfold dot_unit, slash. set_solver.
  - simplify_eq. apply elem_of_seq in Hn. apply (take_while_no_slash _ _ not_slash); [|lia].
    unfold not_slash. intros c Hc ->. by rewrite N.eqb_refl in Hc.
  - simplify_eq. set_solver.
Qed.

Lemma ext_no_slash s ext s2 : (ext, s2) ∈ ext_options s -> slash ∉ ext.
Proof.
  unfold ext_options. destruct s as [|c s].
  { rewrite app_nil_l, list_elem_of_singleton. intros [= -> ->]. set_solver. }
  rewrite elem_of_app, list_elem_of_singleton. intros [H|[= -> ->]]; [|set_solver].
  case_decide as Ec; [|by apply elem_of_nil in H]. apply list_elem_of_fmap in H as (n & H & Hn).
  rewrite list_elem_of_In, <- in_rev, <- list_elem_of_In, elem_of_seq in Hn. simplify_eq. cbn [firstn].
  apply not_elem_of_cons. split; [done|].
  apply (take_while_no_slash _ _ not_dot_slash); [|lia].
  unfold not_dot_slash. intros d Hd ->. rewrite N.eqb_refl in Hd. done.
Qed.

(** A string without slashes followed by slashes. *)
Definition base_shape (s b sl : jsstr) : Prop :=
  s = b ++ sl /\ (slash ∉ b) /\ only_slashes sl = true.

Lemma base_shape_unique s b sl b' sl' : base_shape s b sl -> base_shape s b' sl' -> b = b'.
Proof.
  intros (-> & Hb & Hsl) (E & Hb' & Hsl').
  assert (forall x y, slash ∉ x -> only_slashes y = true -> take_while not_slash (x ++ y) = x) as Htw.
  { intros x y Hx Hy. rewrite take_while_app by (by apply not_slash_spec).
    destruct y as [|c y]; simpl in *; [apply app_nil_r|].
    apply andb_true_iff in Hy as [Hc _]. unfold not_slash. rewrite Hc. apply app_nil_r. }
  by rewrite <- (Htw b sl Hb Hsl), E, Htw.
Qed.

Lemma match_base_sound s b e : match_base s = Some (b, e) -> exists sl, base_shape s b sl.
Proof.
  intros ([stem s1] & Hstem & H)%first_success_Some.
  apply first_success_Some in H as ([ext s2] & Hext & H).
  destruct (only_slashes s2) eqn:E; simplify_eq. exists s2.
  apply stem_options_split in Hstem as E1. apply ext_options_split in Hext as E2.
  split_and!; [by rewrite E1, E2, app_assoc| |done].
  apply not_elem_of_app. split; [by eapply stem_no_slash|by eapply ext_no_slash].
Qed.

Lemma match_base_complete s b sl : base_shape s b sl -> exists e, match_base s = Some (b, e).
Proof.
  intros Hsh. assert (is_Some (match_base s)) as [[b' e] Hm].
  { destruct Hsh as (-> & Hb & Hsl). apply (first_success_is_Some _ _ (b, sl)).
    - unfold stem_options. rewrite !elem_of_app, list_elem_of_fmap, list_elem_of_singleton.
      do 2 right. destruct b as [|c b]; [by right|left]. exists (length (c :: b)).
      rewrite take_app_length, drop_app_length. split; [done|]. apply elem_of_seq.
      rewrite take_while_app by (by apply not_slash_spec). rewrite length_app. simpl. lia.
    - apply (first_success_is_Some _ _ ([], sl)); [|by rewrite Hsl].
      unfold ext_options. rewrite elem_of_app, list_elem_of_singleton. by right. }
  destruct (match_base_sound s b' e Hm) as (sl' & Hsh').
  exists e. by rewrite Hm, (base_shape_unique s b sl b' sl').
Qed.

Lemma match_base_none d1 c t :
  c <> slash -> match_base (d1 ++ slash :: c :: t) = None.
Proof.
  intros Hc. destruct (match_base _) as [[b e]|] eqn:Hm; [|done].
  destruct (match_base_sound _ _ _ Hm) as (sl & E & Hb & Hsl). exfalso.
  assert ((d1 ++ slash :: c :: t) !! length d1 = Some slash) as L1
    by (by rewrite lookup_app_r, Nat.sub_diag by lia).
  assert ((d1 ++ slash :: c :: t) !! S (length d1) = Some c) as L2.
  { rewrite lookup_app_r by lia. by replace (S (length d1) - length d1) with 1 by lia. }
  rewrite E in L1, L2. destruct (decide (S (length d1) < length b)).
  - rewrite lookup_app_l in L1 by lia. by apply list_elem_of_lookup_2 in L1.
  - rewrite lookup_app_r in L2 by lia. apply list_elem_of_lookup_2 in L2.
    unfold only_slashes in Hsl. rewrite forallb_Forall, Forall_forall in Hsl.
    apply Hsl in L2. apply N.eqb_eq in L2. done.
Qed.

(** The lazy group 2 stops right after the last slash before the base. *)
Lemma dir_first root r d b sl :
  r = d ++ b ++ sl -> (d = [] \/ last d = Some slash /\ b <> []) -> slash ∉ b ->
  only_slashes sl = true ->
  exists e, first_success (fun x : jsstr * jsstr => let '(dir, s2) := x in
      '(base, ext) ← match_base s2; Some (root, dir, base, ext)) (dir_options r) =
    Some (root : jsstr, d, b, e).
Proof.
  intros -> Hd Hb Hsl. unfold dir_options.
  destruct (match_base_complete (b ++ sl) b sl) as [e He]; [by split_and!|]. exists e.
  replace (S (length (d ++ b ++ sl))) with (length d + S (length (b ++ sl)))
    by (rewrite !length_app; lia).
  rewrite seq_app, map_app, first_success_skip.
  - rewrite Nat.add_0_l. cbn [seq map first_success].
    rewrite take_app_length, drop_app_length, He. done.
  - apply Forall_fmap, Forall_forall. intros n Hn%elem_of_seq. simpl.
    destruct Hd as [->|[Hl Hb0]]; [simpl in Hn; lia|].
    assert (exists d1, drop n d = d1 ++ [slash]) as [d1 Ed].
    { apply last_Some in Hl as [d0 ->]. exists (drop n d0).
      rewrite length_app in Hn. simpl in Hn. by rewrite drop_app_le by lia. }
    rewrite drop_app_le, Ed by lia. destruct b as [|c b]; [done|].
    rewrite <- app_assoc. cbn [app]. rewrite match_base_none; [done|]. set_solver.
Qed.

(** Splitting a path at its last component: for every directory part
    [d], every non-empty component [b] without slashes and any trailing
    slashes, [basename] returns [b] and [dirname] returns [d] (the root when
    [d] is empty). *)
Theorem dirname_basename (d b sl : jsstr) :
  b <> [] -> slash ∉ b -> only_slashes sl = true ->
  basename (d ++ slash :: b ++ sl) None = Some b /\
  dirname (d ++ slash :: b ++ sl) = Some (if decide (d = []) then [slash] else d).
Proof.
  intros Hne Hb Hsl. unfold basename, dirname, splitPath, root_options.
  destruct d as [|c d].
  - destruct (dir_first [slash] (b ++ sl) [] b sl) as [e He]; [done|by left|done|done|].
    cbn [app]. rewrite decide_True by done. cbn [app first_success]. rewrite He. cbn.
    split; [done|]. by rewrite decide_False by naive_solver.
  - cbn [app]. destruct (decide (c = slash)) as [->|Hc].
    + destruct (dir_first [slash] (d ++ slash :: b ++ sl) (d ++ [slash]) b sl) as [e He];
        [by rewrite <- app_assoc|by right; rewrite last_snoc|done|done|].
      cbn [app first_success]. rewrite He. cbn [mbind option_bind].
      split; [done|]. rewrite decide_False by naive_solver.
      rewrite decide_False by (by destruct d). rewrite length_app. cbn [length].
      by rewrite Nat.add_sub, take_app_length.
    + destruct (dir_first [] (c :: d ++ slash :: b ++ sl) (c :: d ++ [slash]) b sl) as [e He];
        [cbn; by rewrite <- app_assoc|right; split; [|done]|done|done|].
      { change (c :: d ++ [slash]) with ((c :: d) ++ [slash]). by rewrite last_snoc. }
      cbn [app first_success]. rewrite He. cbn [mbind option_bind].
      split; [done|]. rewrite decide_False by naive_solver.
      rewrite decide_False by done. change (c :: d ++ [slash]) with ((c :: d) ++ [slash]).
      rewrite length_app. cbn [length app]. rewrite Nat.add_sub.
      change (c :: d ++ [slash]) with ((c :: d) ++ [slash]).
      change (S (length d)) with (length (c :: d)). by rewrite take_app_length.
Qed.

Lemma dirname_basename_witness :
  basename («"/usr/lib"» ++ slash :: «"x.tar.gz"» ++ «"//"») None = Some «"x.tar.gz"» /\
  dirname («"/usr/lib"» ++ slash :: «"x.tar.gz"» ++ «"//"») = Some «"/usr/lib"».
Proof.
  apply (dirname_basename «"/usr/lib"» «"x.tar.gz"» «"//"»).
  - discriminate.
  - apply (bool_decide_unpack _). vm_compute. exact I.
  - reflexivity.
Defined.

(** On a path that posix calls absolute the Windows test agrees. *)
Lemma posix_implies_win32 path : posix_isAbsolute path = true -> win32_isAbsolute path = true.
Proof.
  unfold posix_isAbsolute, charAt. rewrite bool_decide_eq_true.
  destruct path as [|c path]; [done|]. simpl. intros [= ->]. unfold win32_isAbsolute.
  destruct (win32_device (slash :: path)) as [dev|] eqn:E; [|done]. cbn [default].
  apply orb_true_iff. right. apply bool_decide_eq_true.
  unfold win32_device in E. destruct path as [|c2 rest]; [done|].
  destruct (decide (c2 = 58%N)) as [->|]; [done|].
  assert (exists tl, dev = slash :: c2 :: tl /\ is_sep c2 = true) as (tl & -> & Hs).
  { repeat case_match; simplify_eq; try done; rewrite ?andb_true_iff in *; naive_solver. }
  split; [done|]. unfold charAt. simpl. congruence.
Qed.
