(* ===== verification/TinySegmenter.v ===== *)
(** * TinySegmenter

    The methods of src/docs/site/assets/javascripts/lunr/tinyseg.js: the type
    of a character and [segment], which decides for each position of a text,
    from left to right, whether a word starts there.  The decision adds the
    weights of features of six characters and of the three decisions before.

    The theorems show that the words make up the text, that the word starts
    are the decisions of the scores and that a decision looks only two
    characters ahead. *)

From S2P Require Import Prelude TinyTables.

Definition ctype_ (str : jsstr) : jsstr :=
  (fix loop (l : list (list citem * jsstr)) : jsstr :=
     match l with
     | [] => «"O"»
     | (cls, t) :: l =>
         if existsb (fun c => existsb (citem_has c) cls) str then t else loop l
     end) chartype_.

Definition ts_ (v : option Z) : Z := match v with Some v => v | None => 0%Z end.

(** [arr[i]], where [undefined] would be read as the string of that name. *)
Definition at_ (arr : list jsstr) (i : nat) : jsstr := default «"undefined"» (arr !! i).

(** The body of the loop up to the decision: the score at [i]. *)
Definition score (seg ctype : list jsstr) (p1 p2 p3 : jsstr) (i : nat) : Z :=
  let w1 := at_ seg (i - 3) in let w2 := at_ seg (i - 2) in let w3 := at_ seg (i - 1) in
  let w4 := at_ seg i in let w5 := at_ seg (i + 1) in let w6 := at_ seg (i + 2) in
  let c1 := at_ ctype (i - 3) in let c2 := at_ ctype (i - 2) in let c3 := at_ ctype (i - 1) in
  let c4 := at_ ctype i in let c5 := at_ ctype (i + 1) in let c6 := at_ ctype (i + 2) in
  foldl Z.add BIAS__ [
    ts_ (UP1__ !! p1); ts_ (UP2__ !! p2); ts_ (UP3__ !! p3);
    ts_ (BP1__ !! (p1 ++ p2)); ts_ (BP2__ !! (p2 ++ p3)); ts_ (UW1__ !! w1);
    ts_ (UW2__ !! w2); ts_ (UW3__ !! w3); ts_ (UW4__ !! w4);
    ts_ (UW5__ !! w5); ts_ (UW6__ !! w6); ts_ (BW1__ !! (w2 ++ w3));
    ts_ (BW2__ !! (w3 ++ w4)); ts_ (BW3__ !! (w4 ++ w5)); ts_ (TW1__ !! (w1 ++ w2 ++ w3));
    ts_ (TW2__ !! (w2 ++ w3 ++ w4)); ts_ (TW3__ !! (w3 ++ w4 ++ w5)); ts_ (TW4__ !! (w4 ++ w5 ++ w6));
    ts_ (UC1__ !! c1); ts_ (UC2__ !! c2); ts_ (UC3__ !! c3);
    ts_ (UC4__ !! c4); ts_ (UC5__ !! c5); ts_ (UC6__ !! c6);
    ts_ (BC1__ !! (c2 ++ c3)); ts_ (BC2__ !! (c3 ++ c4)); ts_ (BC3__ !! (c4 ++ c5));
    ts_ (TC1__ !! (c1 ++ c2 ++ c3)); ts_ (TC2__ !! (c2 ++ c3 ++ c4)); ts_ (TC3__ !! (c3 ++ c4 ++ c5));
    ts_ (TC4__ !! (c4 ++ c5 ++ c6)); ts_ (UQ1__ !! (p1 ++ c1)); ts_ (UQ2__ !! (p2 ++ c2));
    ts_ (UQ3__ !! (p3 ++ c3)); ts_ (BQ1__ !! (p2 ++ c2 ++ c3)); ts_ (BQ2__ !! (p2 ++ c3 ++ c4));
    ts_ (BQ3__ !! (p3 ++ c2 ++ c3)); ts_ (BQ4__ !! (p3 ++ c3 ++ c4)); ts_ (TQ1__ !! (p2 ++ c1 ++ c2 ++ c3));
    ts_ (TQ2__ !! (p2 ++ c2 ++ c3 ++ c4)); ts_ (TQ3__ !! (p3 ++ c1 ++ c2 ++ c3)); ts_ (TQ4__ !! (p3 ++ c2 ++ c3 ++ c4))
  ].

(** The variables of the loop. *)
Record seg_state := SegState {
  result : list jsstr; word : jsstr; p1 : jsstr; p2 : jsstr; p3 : jsstr
}.

Definition segment_step (seg ctype : list jsstr) (st : seg_state) (i : nat) : seg_state :=
  let '(result, word, p) :=
    if decide (0 < score seg ctype (p1 st) (p2 st) (p3 st) i)%Z
    then (result st ++ [word st], [], «"B"») else (result st, word st, «"O"») in
  SegState result (word ++ at_ seg i) (p2 st) (p3 st) p.

Definition seg_of (o : jsstr) : list jsstr :=
  [«"B3"»; «"B2"»; «"B1"»] ++ map (fun c => [c]) o ++ [«"E1"»; «"E2"»; «"E3"»].

Definition ctype_of (o : jsstr) : list jsstr :=
  [«"O"»; «"O"»; «"O"»] ++ map (fun c => ctype_ [c]) o ++ [«"O"»; «"O"»; «"O"»].

(** [segment]; [None] is a null or undefined input. *)
Definition segment (input : option jsstr) : list jsstr :=
  match input with
  | None | Some [] => []
  | Some o =>
      let seg := seg_of o in
      let ctype := ctype_of o in
      let st := foldl (segment_step seg ctype)
                  (SegState [] (at_ seg 3) «"U"» «"U"» «"U"») (seq 4 (length seg - 3 - 4)) in
      result st ++ [word st]
  end.

Example segment_sentence :
  segment (Some (js "私の名前は中野です")) = map js ["私"; "の"; "名前"; "は"; "中野"; "です"].
Proof. vm_compute. reflexivity. Qed.

(** ** Specification

    A labelling of a text says for each character but the first whether a
    word starts there; the label of a position before them is ["U"]. *)

Definition label (bs : list bool) (j back : nat) : jsstr :=
  if decide (j < back) then «"U"»
  else match bs !! (j - back) with Some true => «"B"» | _ => «"O"» end.

Definition decision (o : jsstr) (bs : list bool) (j : nat) : bool :=
  bool_decide (0 < score (seg_of o) (ctype_of o) (label bs j 3) (label bs j 2) (label bs j 1) (j + 4))%Z.

Definition labelling (o : jsstr) (bs : list bool) : Prop :=
  S (length bs) = length o /\ forall j b, bs !! j = Some b -> b = decision o bs j.

(** The words that a labelling makes of a text. *)
Fixpoint pieces (w : jsstr) (o : jsstr) (bs : list bool) : list jsstr :=
  match o, bs with
  | c :: o, b :: bs => if b then w :: pieces [c] o bs else pieces (w ++ [c]) o bs
  | _, _ => [w]
  end.

(** ** The loop computes the labelling *)

Lemma label_app bs bs' j k : 0 < k -> j <= length bs -> label (bs ++ bs') j k = label bs j k.
Proof.
  intros Hk Hj. unfold label. case_decide; [done|]. by rewrite lookup_app_l by lia.
Qed.

Lemma at_seg_of o j : at_ (seg_of o) (j + 3) = match o !! j with Some c => [c] | None => at_ (seg_of o) (j + 3) end.
Proof.
  unfold at_, seg_of. rewrite lookup_app_r by (simpl; lia). simpl length. rewrite Nat.add_sub.
  destruct (o !! j) as [c|] eqn:E; [|done].
  rewrite lookup_app_l by (rewrite length_map; by eapply lookup_lt_Some).
  by rewrite list_lookup_fmap, E.
Qed.

Lemma pieces_snoc w o bs c b :
  length bs = length o ->
  exists res w', pieces w o bs = res ++ [w'] /\
    pieces w (o ++ [c]) (bs ++ [b]) = res ++ (if b then [w'; [c]] else [w' ++ [c]]).
Proof.
  revert w o. induction bs as [|b0 bs IH]; intros w [|c0 o] Hl; simplify_eq/=.
  { exists [], w. by destruct b. }
  destruct b0.
  - destruct (IH [c0] o Hl) as (res & w' & -> & ->). exists (w :: res), w'. done.
  - destruct (IH (w ++ [c0]) o Hl) as (res & w' & -> & ->). by exists res, w'.
Qed.

(** The labels computed for the first [n] decisions. *)
Fixpoint labels (o : jsstr) (n : nat) : list bool :=
  match n with
  | 0 => []
  | S n => labels o n ++ [decision o (labels o n) n]
  end.

Lemma labels_length o n : length (labels o n) = n.
Proof. induction n as [|n IH]; simpl; [done|]. rewrite length_app, IH. simpl. lia. Qed.

Lemma decision_app o bs bs' j :
  j <= length bs -> decision o (bs ++ bs') j = decision o bs j.
Proof. intros H. unfold decision. by rewrite !label_app by lia. Qed.

Lemma labels_decide o n j b : labels o n !! j = Some b -> b = decision o (labels o n) j.
Proof.
  revert j b. induction n as [|n IH]; intros j b Hj; [done|]. simpl in *.
  apply lookup_app_Some in Hj as [Hj|[Hge Hj]].
  - pose proof (lookup_lt_Some _ _ _ Hj). rewrite decision_app by lia. by apply IH.
  - rewrite labels_length in *. apply list_lookup_singleton_Some in Hj as [Hj <-].
    replace j with n by lia. by rewrite decision_app by (rewrite labels_length; lia).
Qed.

Definition label_state (bs : list bool) : jsstr * jsstr * jsstr :=
  (label bs (length bs) 3, label bs (length bs) 2, label bs (length bs) 1).

Lemma label_state_snoc bs b :
  label_state (bs ++ [b]) =
  (label bs (length bs) 2, label bs (length bs) 1, if b then «"B"» else «"O"»).
Proof.
  unfold label_state, label. rewrite !length_app. simpl length.
  f_equal; [f_equal|].
  - repeat case_decide; try lia; [done|]. rewrite lookup_app_l by lia. by replace (length bs + 1 - 3) with (length bs - 2) by lia.
  - repeat case_decide; try lia; [done|]. rewrite lookup_app_l by lia. by replace (length bs + 1 - 2) with (length bs - 1) by lia.
  - rewrite decide_False by lia. rewrite lookup_app_r by lia.
    replace (length bs + 1 - 1 - length bs) with 0 by lia. by destruct b.
Qed.

Lemma segment_loop c o n :
  n <= length o ->
  let st := foldl (segment_step (seg_of (c :: o)) (ctype_of (c :: o)))
              (SegState [] [c] «"U"» «"U"» «"U"») (seq 4 n) in
  result st ++ [word st] = pieces [c] (take n o) (labels (c :: o) n) /\
  (p1 st, p2 st, p3 st) = label_state (labels (c :: o) n).
Proof.
  induction n as [|n IH]; intros Hn; [done|]. cbv zeta in *.
  rewrite seq_S, foldl_app. destruct IH as [IH1 IH2]; [lia|].
  set (st := foldl _ _ (seq 4 n)) in *. cbn [foldl]. cbn [labels].
  destruct (lookup_lt_is_Some_2 o n) as [d Hd]; [lia|].
  rewrite (take_S_r _ _ _ Hd), label_state_snoc.
  destruct (pieces_snoc [c] (take n o) (labels (c :: o) n) d (decision (c :: o) (labels (c :: o) n) n))
    as (res & w' & E1 & E2).
  { rewrite labels_length, length_take. lia. }
  rewrite E1 in IH1. apply app_inj_tail in IH1 as [Hres Hword]. rewrite E2.
  unfold label_state in IH2. rewrite labels_length in *. injection IH2 as Ep1 Ep2 Ep3.
  assert (at_ (seg_of (c :: o)) (4 + n) = [d]) as Hat.
  { replace (4 + n) with (S n + 3) by lia. rewrite at_seg_of. simpl. by rewrite Hd. }
  unfold segment_step, decision. rewrite Hat, Ep1, Ep2, Ep3, (Nat.add_comm n 4).
  case_decide as Hs; [rewrite bool_decide_true by done|rewrite bool_decide_false by done]; simpl.
  - rewrite Hres, Hword, <- app_assoc. done.
  - by rewrite Hres, Hword.
Qed.

Lemma segment_pieces c o :
  segment (Some (c :: o)) = pieces [c] o (labels (c :: o) (length o)).
Proof.
  unfold segment. cbv zeta. replace (at_ (seg_of (c :: o)) 3) with [c] by done.
  replace (length (seg_of (c :: o)) - 3 - 4) with (length o).
  - destruct (segment_loop c o (length o)) as [H _]; [done|]. cbv zeta in H. rewrite H.
    by rewrite firstn_all.
  - unfold seg_of. rewrite !length_app, length_map. simpl. lia.
Qed.

Lemma pieces_concat w o bs : length bs = length o -> concat (pieces w o bs) = w ++ o.
Proof.
  revert w o. induction bs as [|b bs IH]; intros w [|c o] Hl; simplify_eq/=; [done|].
  destruct b; simpl; rewrite IH by done; by rewrite <- ?app_assoc.
Qed.

Lemma pieces_nonempty w o bs : w <> [] -> Forall (fun x => x <> []) (pieces w o bs).
Proof.
  revert w o. induction bs as [|b bs IH]; intros w [|c o] Hw; simpl; [by constructor..|].
  destruct b; [constructor; [done|]|]; apply IH; [done|]. by destruct w.
Qed.

(** ** Theorems *)

(** The segments of a text are non-empty and make up the text. *)
Theorem segment_partitions input :
  concat (segment input) = default [] input /\ Forall (fun w => w <> []) (segment input).
Proof.
  destruct input as [[|c o]|]; [by split| |by split]. rewrite segment_pieces. split.
  - by rewrite pieces_concat by apply labels_length.
  - by apply pieces_nonempty.
Qed.

Lemma labelling_unique_prefix o o' bs bs' m :
  labelling o bs -> labelling o' bs' ->
  (forall j, j + 4 <= m -> forall q1 q2 q3, 
     score (seg_of o) (ctype_of o) q1 q2 q3 (j + 4) = score (seg_of o') (ctype_of o') q1 q2 q3 (j + 4)) ->
  forall j, j + 4 <= m -> j < length bs -> j < length bs' -> bs !! j = bs' !! j.
Proof.
  intros [_ H1] [_ H2] Hs j. induction (lt_wf j) as [j _ IH]. intros Hm Hl Hl'.
  destruct (lookup_lt_is_Some_2 bs j Hl) as [b Hb]. destruct (lookup_lt_is_Some_2 bs' j Hl') as [b' Hb'].
  rewrite Hb, Hb'. f_equal. rewrite (H1 _ _ Hb), (H2 _ _ Hb'). unfold decision.
  assert (forall k, 0 < k -> label bs j k = label bs' j k) as Hlab.
  { intros k Hk. unfold label. case_decide; [done|]. by rewrite IH by lia. }
  by rewrite !Hlab, Hs by lia.
Qed.

(** C34. [segment] implements its specification: the words it returns are those
    of the one labelling of the text in which every label is the decision of
    the score on the labels before it. *)
Theorem segment_follows_scores o :
  o <> [] ->
  exists bs, labelling o bs /\ segment (Some o) = pieces (take 1 o) (drop 1 o) bs /\
    forall bs', labelling o bs' -> bs' = bs.
Proof.
  intros Hne. destruct o as [|c o]; [done|]. exists (labels (c :: o) (length o)).
  assert (labelling (c :: o) (labels (c :: o) (length o))) as Hlab.
  { split; [by rewrite labels_length|]. intros j b. apply labels_decide. }
  split_and!; [exact Hlab|apply segment_pieces|].
  intros bs' Hbs'. apply list_eq_same_length with (n := length o).
  - by rewrite labels_length.
  - destruct Hbs' as [Hl _]. simpl in Hl. lia.
  - intros j x y Hj Hx Hy.
    pose proof (labelling_unique_prefix _ _ _ _ (j + 4) Hlab Hbs' (fun _ _ _ _ _ => eq_refl) j) as He.
    rewrite Hx, Hy in He. enough (Some y = Some x) by congruence.
    apply He; [lia| |]; by eapply lookup_lt_Some.
Qed.

Lemma segment_follows_scores_witness :
  exists bs, labelling (js "中野です") bs /\
    segment (Some (js "中野です")) = pieces (take 1 (js "中野です")) (drop 1 (js "中野です")) bs /\
    forall bs', labelling (js "中野です") bs' -> bs' = bs.
Proof. apply (segment_follows_scores (js "中野です")). discriminate. Defined.

(** ** Where words end *)

(** The positions at which the words of a segmentation end. *)
Fixpoint word_ends (from : nat) (ws : list jsstr) : list nat :=
  match ws with
  | [] => []
  | w :: ws => (from + length w) :: word_ends (from + length w) ws
  end.

Lemma word_ends_pieces w o bs k :
  length bs = length o -> forall from,
  k ∈ word_ends from (pieces w o bs) <->
  k = from + length w + length o \/
  (from + length w <= k /\ bs !! (k - (from + length w)) = Some true).
Proof.
  revert w o. induction bs as [|b bs IH]; intros w [|c o] Hl from; simplify_eq/=.
  { rewrite list_elem_of_singleton. split; [left; lia|]. intros [H|[_ H]]; [lia|done]. }
  destruct b; simpl.
  - rewrite elem_of_cons, IH by done. simpl. split.
    + intros [->|[->|[H1 H2]]].
      * right. split; [lia|]. by rewrite Nat.sub_diag.
      * left. lia.
      * right. split; [lia|]. replace (k - (from + length w)) with (S (k - (from + length w + 1))) by lia.
        done.
    + intros [->|[H1 H2]]; [right; left; lia|].
      destruct (decide (k = from + length w)) as [->|Hne]; [by left|]. right. right. split; [lia|].
      replace (k - (from + length w)) with (S (k - (from + length w + 1))) in H2 by lia. done.
  - rewrite IH by done. rewrite length_app. simpl. split.
    + intros [->|[H1 H2]]; [left; lia|]. right. split; [lia|].
      replace (k - (from + length w)) with (S (k - (from + (length w + 1)))) by lia. done.
    + intros [->|[H1 H2]]; [left; lia|].
      destruct (decide (k = from + length w)) as [->|Hne]; [by rewrite Nat.sub_diag in H2|]. right.
      split; [lia|].
      replace (k - (from + length w)) with (S (k - (from + (length w + 1)))) in H2 by lia. done.
Qed.

(** The characters and types seen from a position inside a common prefix. *)
Lemma at_common (f : N -> jsstr) (hd tl : list jsstr) (u v v' : jsstr) i :
  i < length hd + length u ->
  at_ (hd ++ map f (u ++ v) ++ tl) i = at_ (hd ++ map f (u ++ v') ++ tl) i.
Proof.
  intros Hi. unfold at_. f_equal. rewrite !map_app, <- !app_assoc, !(app_assoc hd).
  assert (i < length (hd ++ map f u)) by (rewrite length_app, length_map; lia).
  by rewrite !(lookup_app_l (hd ++ map f u)).
Qed.

Lemma score_common u v v' q1 q2 q3 j :
  j + 4 <= length u ->
  score (seg_of (u ++ v)) (ctype_of (u ++ v)) q1 q2 q3 (j + 4) =
  score (seg_of (u ++ v')) (ctype_of (u ++ v')) q1 q2 q3 (j + 4).
Proof.
  intros Hj.
  assert (forall i, i <= j + 6 -> at_ (seg_of (u ++ v)) i = at_ (seg_of (u ++ v')) i) as Hs.
  { intros i Hi. apply at_common. simpl. lia. }
  assert (forall i, i <= j + 6 -> at_ (ctype_of (u ++ v)) i = at_ (ctype_of (u ++ v')) i) as Hc.
  { intros i Hi. apply at_common. simpl. lia. }
  unfold score. by rewrite !Hs, !Hc by lia.
Qed.

Lemma segment_ends c o k :
  k ∈ word_ends 0 (segment (Some (c :: o))) <->
  k = S (length o) \/ (1 <= k /\ labels (c :: o) (length o) !! (k - 1) = Some true).
Proof. rewrite segment_pieces, word_ends_pieces by apply labels_length. done. Qed.

(** Segmentation looks two characters ahead: two texts with a common prefix
    [u] have the same word ends up to two characters before the end of [u],
    whatever follows. *)
Theorem segment_lookahead u v v' k :
  k + 3 <= length u ->
  k ∈ word_ends 0 (segment (Some (u ++ v))) <-> k ∈ word_ends 0 (segment (Some (u ++ v'))).
Proof.
  intros Hk. destruct u as [|c u]; [simpl in Hk; lia|]. simpl app. rewrite !segment_ends.
  rewrite !length_app. simpl in Hk.
  assert (1 <= k -> labels (c :: u ++ v) (length u + length v) !! (k - 1) =
                    labels (c :: u ++ v') (length u + length v') !! (k - 1)) as E.
  { intros H1.
    apply (labelling_unique_prefix (c :: u ++ v) (c :: u ++ v') _ _ (length (c :: u))).
    - split; [rewrite labels_length; simpl; by rewrite length_app|]. intros j b. apply labels_decide.
    - split; [rewrite labels_length; simpl; by rewrite length_app|]. intros j b. apply labels_decide.
    - intros j Hj q1 q2 q3. by apply (score_common (c :: u)).
    - simpl. lia.
    - rewrite labels_length. lia.
    - rewrite labels_length. lia. }
  split; (intros [->|[H1 H2]]; [lia|]); right; (split; [done|]); [by rewrite <- E|by rewrite E].
Qed.

Lemma segment_lookahead_witness :
  2 ∈ word_ends 0 (segment (Some (js "私の名前は" ++ js "中野です"))) <->
  2 ∈ word_ends 0 (segment (Some (js "私の名前は" ++ js "何"))).
Proof. apply (segment_lookahead (js "私の名前は") (js "中野です") (js "何") 2). vm_compute. lia. Defined.
