(* ===== verification/UnderscoreArrays.v ===== *)
(** * underscore: array functions

    The searching and set functions of module 25 of wordcut.js (underscore
    1.8.3): finders, binary search, [indexOf], [contains], [uniq], [union],
    [intersection], [difference], [range] and [shuffle].

    Elements are of any type with the operations of the class [Element]: the
    strict equality of JavaScript, which fails on a NaN, and [_.isNaN].
    Callbacks are functions without effects.  Numbers that are indices are
    integers. *)

From S2P Require Import Prelude.

(** What the array functions use of their elements. *)
Class Element (A : Type) := {
  seqb : A -> A -> bool;            (** [===] *)
  is_nan : A -> bool;               (** [_.isNaN] *)
  seqb_sym a b : seqb a b = seqb b a;
  seqb_trans a b c : seqb a b = true -> seqb b c = true -> seqb a c = true;
  is_nan_neq a : seqb a a = false -> is_nan a = true
}.

(** [array.slice(begin, end)] for integers: negative positions count from the
    end. *)
Definition slice_pos (length i : Z) : Z :=
  if (i <? 0)%Z then Z.max (length + i) 0 else Z.min i length.

Definition slice {A} (array : list A) (b e : Z) : list A :=
  let n := Z.of_nat (length array) in
  let b := slice_pos n b in
  take (Z.to_nat (slice_pos n e - b)) (drop (Z.to_nat b) array).

(** ** Finding an index *)

(** [for (; index >= 0 && index < length; index += dir) if (test(index))
    return index; return -1]; [None] when the fuel does not suffice. *)
Fixpoint index_loop (fuel : nat) (test : Z -> bool) (index length dir : Z) : option Z :=
  if decide (0 <= index < length)%Z then
    match fuel with
    | O => None
    | S fuel => if test index then Some index else index_loop fuel test (index + dir) length dir
    end
  else Some (-1)%Z.

Inductive dir := Up | Down.
Definition dir_step (d : dir) : Z := match d with Up => 1 | Down => -1 end.

(** The element at an index, tested; nothing is there out of range. *)
Definition tested {A} (array : list A) (p : A -> bool) (i : Z) : bool :=
  match zlookup array i with Some x => p x | None => false end.

Definition createPredicateIndexFinder {A} (d : dir) (array : list A) (predicate : A -> bool) : option Z :=
  let n := Z.of_nat (length array) in
  index_loop (length array) (tested array predicate)
    (match d with Up => 0 | Down => n - 1 end)%Z n (dir_step d).

Definition findIndex {A} := @createPredicateIndexFinder A Up.
Definition findLastIndex {A} := @createPredicateIndexFinder A Down.

(** ** Binary search *)

Section SortedIndex.
Context {A B : Type} (ltb : B -> B -> bool) (iteratee : A -> B).

Fixpoint sortedIndex_loop (fuel : nat) (array : list A) (value : B) (low high : nat) : option nat :=
  if decide (low < high) then
    match fuel with
    | O => None
    | S fuel =>
        let mid := (low + high) / 2 in
        match array !! mid with
        | Some x => if ltb (iteratee x) value then sortedIndex_loop fuel array value (mid + 1) high
                    else sortedIndex_loop fuel array value low mid
        | None => None
        end
    end
  else Some low.

Definition sortedIndex (array : list A) (obj : A) : option nat :=
  sortedIndex_loop (length array) array (iteratee obj) 0 (length array).

Lemma sortedIndex_loop_spec fuel array value low high :
  low <= high <= length array -> high - low <= fuel ->
  exists r, sortedIndex_loop fuel array value low high = Some r /\ low <= r <= high /\
    ((forall i j x y, i <= j -> array !! i = Some x -> array !! j = Some y ->
        ltb (iteratee y) value = true -> ltb (iteratee x) value = true) ->
     (forall i x, low <= i < r -> array !! i = Some x -> ltb (iteratee x) value = true) /\
     (forall i x, r <= i < high -> array !! i = Some x -> ltb (iteratee x) value = false)).
Proof.
  revert low high. induction fuel as [|fuel IH]; intros low high Hb Hf; cbn [sortedIndex_loop]; cbv zeta.
  { rewrite decide_False by lia. exists low. split_and!; [done|lia|lia|]. intros _. split; intros; lia. }
  case_decide as Hlt; [|exists low; split_and!; [done|lia|lia|]; intros _; split; intros; lia].
  assert (low <= (low + high) / 2 < high) as Hmid.
  { split; [apply Nat.div_le_lower_bound; lia|apply Nat.Div0.div_lt_upper_bound; lia]. }
  set (mid := (low + high) / 2) in *.
  destruct (lookup_lt_is_Some_2 array mid) as [x Hx]; [lia|]. rewrite Hx.
  destruct (ltb (iteratee x) value) eqn:E.
  - destruct (IH (mid + 1) high) as (r & -> & Hr & H); [lia|lia|].
    exists r. split_and!; [done|lia|lia|]. intros Hmono. destruct (H Hmono) as [H1 H2]. split; [|done].
    intros i y Hi Hy. destruct (decide (mid < i)); [by apply (H1 i); [lia|]|].
    apply (Hmono i mid y x); [lia|done|done|done].
  - destruct (IH low mid) as (r & -> & Hr & H); [lia|lia|].
    exists r. split_and!; [done|lia|lia|]. intros Hmono. destruct (H Hmono) as [H1 H2]. split; [done|].
    intros i y Hi Hy. destruct (decide (i < mid)); [by apply (H2 i); [lia|]|].
    destruct (ltb (iteratee y) value) eqn:Ey; [|done].
    rewrite (Hmono mid i x y) in E; [done|lia|done|done|done].
Qed.
End SortedIndex.

(** ** [indexOf] and what is built on it *)

(** The third argument of [indexOf]: absent or falsy, a truthy value that is
    not a number, or a number. *)
Inductive idx_arg := NoIdx | IsSorted | From (idx : Z).

Section Arrays.
Context {A : Type} `{Element A}.

(** [_.sortedIndex] without an iteratee, where it is available. *)
Definition createIndexFinder (d : dir) (predicateFind : list A -> (A -> bool) -> option Z)
    (sortedIndex : option (list A -> A -> option nat)) (array : list A) (item : A) (idx : idx_arg)
    : option Z :=
  let n := Z.of_nat (length array) in
  let linear (i len : Z) : option Z :=
    if negb (seqb item item) then
      idx ← predicateFind (slice array i len) is_nan;
      Some (if (0 <=? idx)%Z then idx + i else -1)%Z
    else
      index_loop (length array) (tested array (fun x => seqb x item))
        (match d with Up => i | Down => len - 1 end)%Z len (dir_step d) in
  match idx with
  | From idx =>
      match d with
      | Up => linear (if (0 <=? idx)%Z then idx else Z.max (idx + n) 0)%Z n
      | Down => linear 0%Z (if (0 <=? idx)%Z then Z.min (idx + 1) n else idx + n + 1)%Z
      end
  | IsSorted =>
      match sortedIndex with
      | Some f =>
          if decide (array = []) then linear 0%Z n
          else
            r ← f array item;
            Some (if match array !! r with Some x => seqb x item | None => false end
                  then Z.of_nat r else -1)%Z
      | None => linear 0%Z n
      end
  | NoIdx => linear 0%Z n
  end.

Section IndexOf.
Context (ltb : A -> A -> bool).

Definition indexOf (array : list A) (item : A) (idx : idx_arg) : option Z :=
  createIndexFinder Up findIndex (Some (fun array obj => sortedIndex ltb id array obj)) array item idx.
End IndexOf.

Definition lastIndexOf (array : list A) (item : A) (idx : idx_arg) : option Z :=
  createIndexFinder Down findLastIndex None array item idx.

(** [_.contains(array, item)]; the comparison of [indexOf] is not used when
    the third argument is the number zero. *)
Definition contains (array : list A) (item : A) : bool :=
  match indexOf (fun _ _ => false) array item (From 0) with
  | Some i => (0 <=? i)%Z
  | None => false
  end.

(** ** Sets *)

(** The arrays of the store: the elements of a value that is an array (or an
    arguments object). *)
Variable arr : A -> option (list A).

(** [flatten(input, shallow, strict)], from the elements of [input] at
    [startIndex] on; [None] when the nesting is deeper than the fuel. *)
Fixpoint flatten (fuel : nat) (shallow strict : bool) (input : list A) {struct fuel} : option (list A) :=
  match fuel with
  | O => None
  | S fuel =>
      (fix loop (input : list A) : option (list A) :=
         match input with
         | [] => Some []
         | value :: input =>
             match arr value with
             | Some elements =>
                 front ← (if shallow then Some elements else flatten fuel shallow strict elements);
                 rest ← loop input;
                 Some (front ++ rest)
             | None =>
                 rest ← loop input;
                 Some (if strict then rest else value :: rest)
             end
         end) input
  end.

(** A shallow flatten does not recurse. *)
Definition flatten1 (strict : bool) (input : list A) : list A := default [] (flatten 1 true strict input).

Fixpoint uniq_loop (isSorted : bool) (iteratee : option (A -> A)) (array : list A)
    (last : option A) (seen result : list A) : list A :=
  match array with
  | [] => result
  | value :: array =>
      let computed := match iteratee with Some f => f value | None => value end in
      if isSorted then
        uniq_loop isSorted iteratee array (Some computed) seen
          (if match last with Some s => negb (seqb s computed) | None => true end
           then result ++ [value] else result)
      else
        match iteratee with
        | Some _ =>
            if contains seen computed then uniq_loop isSorted iteratee array last seen result
            else uniq_loop isSorted iteratee array last (seen ++ [computed]) (result ++ [value])
        | None =>
            if contains result value then uniq_loop isSorted iteratee array last seen result
            else uniq_loop isSorted iteratee array last seen (result ++ [value])
        end
  end.

Definition uniq (isSorted : bool) (iteratee : option (A -> A)) (array : list A) : list A :=
  uniq_loop isSorted iteratee array None [] [].

Definition union (args : list A) : list A := uniq false None (flatten1 true args).

Fixpoint intersection_loop (array : list A) (others : list (list A)) (result : list A) : list A :=
  match array with
  | [] => result
  | item :: array =>
      if contains result item then intersection_loop array others result
      else if forallb (fun other => contains other item) others
           then intersection_loop array others (result ++ [item])
           else intersection_loop array others result
  end.

Definition intersection (array : list A) (others : list (list A)) : list A :=
  intersection_loop array others [].

(** [_.difference(array, ...rest)] *)
Definition difference (array rest : list A) : list A :=
  List.filter (fun value => negb (contains (flatten1 true rest) value)) array.

(** [_.without(array, ...values)]: the values are passed on as one array. *)
Definition without (array values : list A) : list A :=
  List.filter (fun value => negb (contains values value)) array.
End Arrays.

(** ** Lemmas on the finders *)

Lemma index_loop_up fuel test i n :
  (0 <= i)%Z -> (n - i <= Z.of_nat fuel)%Z ->
  exists r, index_loop fuel test i n 1 = Some r /\
    ((r = -1 /\ forall j, i <= j < n -> test j = false)%Z \/
     ((i <= r < n)%Z /\ test r = true /\ forall j, (i <= j < r)%Z -> test j = false)).
Proof.
  revert i. induction fuel as [|fuel IH]; intros i Hi Hf; simpl.
  { rewrite decide_False by lia. exists (-1)%Z. split; [done|]. left. split; [done|]. intros; lia. }
  case_decide as Hr; [|exists (-1)%Z; split; [done|]; left; split; [done|]; intros; lia].
  destruct (test i) eqn:E.
  { exists i. split; [done|]. right. split_and!; [lia|lia|done|]. intros; lia. }
  destruct (IH (i + 1)%Z) as (r & -> & Hcase); [lia|lia|]. exists r. split; [done|].
  assert (forall j, (j = i)%Z -> test j = false) as Hti by (by intros ? ->).
  destruct Hcase as [[-> H]|(H1 & H2 & H3)].
  - left. split; [done|]. intros j Hj. destruct (decide (j = i)); [by apply Hti|]. apply H; lia.
  - right. split_and!; [lia|lia|done|]. intros j Hj.
    destruct (decide (j = i)); [by apply Hti|]. apply H3; lia.
Qed.

Lemma index_loop_down fuel test i n :
  (i < n)%Z -> (i < Z.of_nat fuel)%Z ->
  exists r, index_loop fuel test i n (-1) = Some r /\
    ((r = -1 /\ forall j, 0 <= j <= i -> test j = false)%Z \/
     ((0 <= r <= i)%Z /\ test r = true /\ forall j, (r < j <= i)%Z -> test j = false)).
Proof.
  revert i. induction fuel as [|fuel IH]; intros i Hi Hf; simpl.
  { rewrite decide_False by lia. exists (-1)%Z. split; [done|]. left. split; [done|]. intros; lia. }
  case_decide as Hr; [|exists (-1)%Z; split; [done|]; left; split; [done|]; intros; lia].
  destruct (test i) eqn:E.
  { exists i. split; [done|]. right. split_and!; [lia|lia|done|]. intros; lia. }
  destruct (IH (i + -1)%Z) as (r & -> & Hcase); [lia|lia|]. exists r. split; [done|].
  assert (forall j, (j = i)%Z -> test j = false) as Hti by (by intros ? ->).
  destruct Hcase as [[-> H]|(H1 & H2 & H3)].
  - left. split; [done|]. intros j Hj. destruct (decide (j = i)); [by apply Hti|]. apply H; lia.
  - right. split_and!; [lia|lia|done|]. intros j Hj.
    destruct (decide (j = i)); [by apply Hti|]. apply H3; lia.
Qed.

Lemma tested_spec {A} (array : list A) p i :
  tested array p i = true <-> exists x, zlookup array i = Some x /\ p x = true.
Proof. unfold tested. destruct (zlookup array i); naive_solver. Qed.

Lemma findIndex_spec {A} (array : list A) p :
  exists r, findIndex array p = Some r /\
    ((r = -1)%Z /\ Forall (fun x => p x = false) array \/
     exists i x, r = Z.of_nat i /\ array !! i = Some x /\ p x = true /\
       Forall (fun y => p y = false) (take i array)).
Proof.
  unfold findIndex, createPredicateIndexFinder.
  destruct (index_loop_up (length array) (tested array p) 0 (Z.of_nat (length array)))
    as (r & E & Hcase); [lia|lia|].
  exists r. split; [exact E|].
  assert (forall i x, array !! i = Some x -> tested array p (Z.of_nat i) = p x) as Ht.
  { intros i x Hx. unfold tested. by rewrite zlookup_nat, Hx. }
  destruct Hcase as [[-> Hn]|(Hr & Hp & Hn)].
  - left. split; [done|]. apply Forall_lookup. intros i x Hx. rewrite <- (Ht i x Hx).
    apply Hn. apply lookup_lt_Some in Hx. lia.
  - right. apply tested_spec in Hp as (x & Hx & Hp). apply zlookup_Some in Hx as [H0 Hx].
    exists (Z.to_nat r), x. split_and!; [lia|done|done|]. apply Forall_lookup.
    intros i y Hy. apply lookup_take_Some in Hy as [Hy Hi]. rewrite <- (Ht i y Hy). apply Hn. lia.
Qed.

Lemma slice_all {A} (l : list A) : slice l 0 (Z.of_nat (length l)) = l.
Proof.
  unfold slice, slice_pos. cbn [Z.ltb Z.compare].
  destruct (Z.ltb_spec (Z.of_nat (length l)) 0); [lia|].
  rewrite (Z.min_l 0) by lia. rewrite Z.min_id, Z.sub_0_r, Nat2Z.id. apply firstn_all.
Qed.

Section Membership.
Context {A : Type} `{Element A}.

(** Whether an element counts as an occurrence of an item. *)
Definition hits (item x : A) : bool := if seqb item item then seqb x item else is_nan x.

(** The equality behind it: strict equality, but NaN equal to itself. *)
Definition same (a b : A) : bool := seqb a b || (negb (seqb a a) && negb (seqb b b)).

(** A value for which [_.isNaN] tells the truth: not a boxed number. *)
Definition unboxed (x : A) : Prop := is_nan x = negb (seqb x x).

Lemma seqb_refl_l a b : seqb a b = true -> seqb a a = true.
Proof. intros E. apply (seqb_trans a b a); [done|]. by rewrite seqb_sym. Qed.

Lemma seqb_nan_l a b : seqb a a = false -> seqb a b = false.
Proof.
  intros E. destruct (seqb a b) eqn:Eab; [|done]. by rewrite (seqb_refl_l a b Eab) in E.
Qed.

Lemma same_refl a : same a a = true.
Proof. unfold same. by destruct (seqb a a). Qed.

Lemma same_sym a b : same a b = same b a.
Proof. unfold same. rewrite (seqb_sym a b). by rewrite (andb_comm (negb (seqb a a))). Qed.

Lemma same_trans a b c : same a b = true -> same b c = true -> same a c = true.
Proof.
  unfold same. rewrite !orb_true_iff, !andb_true_iff, !negb_true_iff.
  intros [H1|[H1 H2]] [H3|[H3 H4]].
  - left. by eapply seqb_trans.
  - rewrite seqb_sym in H1. by rewrite (seqb_refl_l _ _ H1) in H3.
  - by rewrite (seqb_refl_l _ _ H3) in H2.
  - by right.
Qed.

Lemma hits_same item x : unboxed x -> hits item x = same x item.
Proof.
  unfold hits, same, unboxed. intros ->. destruct (seqb item item) eqn:E; simpl.
  - by rewrite andb_false_r, orb_false_r.
  - rewrite (seqb_sym x item), (seqb_nan_l _ _ E). by rewrite andb_true_r.
Qed.

Lemma contains_hits array item : contains array item = existsb (hits item) array.
Proof.
  unfold contains, indexOf, createIndexFinder. simpl. unfold hits.
  destruct (seqb item item) eqn:E; simpl.
  - change (index_loop _ _ _ _ _) with (findIndex array (fun x => seqb x item)).
    destruct (findIndex_spec array (fun x => seqb x item)) as (r & -> & [[-> Hn]|(i & x & -> & Hx & Hp & _)]).
    + symmetry. apply not_true_iff_false. rewrite existsb_exists. intros (x & Hx & Hp).
      rewrite Forall_forall in Hn. apply list_elem_of_In in Hx. by rewrite Hn in Hp.
    + symmetry. rewrite (proj2 (Z.leb_le _ _)) by lia. apply existsb_exists.
      exists x. split; [|done]. apply list_elem_of_In. by eapply list_elem_of_lookup_2.
  - rewrite slice_all.
    destruct (findIndex_spec array is_nan) as (r & -> & [[-> Hn]|(i & x & -> & Hx & Hp & _)]); simpl.
    + symmetry. apply not_true_iff_false. rewrite existsb_exists. intros (x & Hx & Hp).
      rewrite Forall_forall in Hn. apply list_elem_of_In in Hx. by rewrite Hn in Hp.
    + symmetry. rewrite !(proj2 (Z.leb_le _ _)) by (rewrite ?(proj2 (Z.leb_le _ _)) by lia; lia).
      apply existsb_exists. exists x. split; [|done]. apply list_elem_of_In.
      by eapply list_elem_of_lookup_2.
Qed.

(** Membership up to [same]. *)
Definition mem (x : A) (l : list A) : bool := existsb (fun y => same y x) l.

Lemma mem_true x l : mem x l = true <-> exists y, y ∈ l /\ same y x = true.
Proof.
  unfold mem. rewrite existsb_exists. split; intros (y & Hy & E); exists y;
    (split; [by apply list_elem_of_In|done]).
Qed.

Lemma contains_mem l item : Forall unboxed l -> contains l item = mem item l.
Proof.
  intros Hl. rewrite contains_hits. unfold mem.
  induction Hl as [|x l Hx _ IH]; simpl; [done|]. by rewrite IH, hits_same.
Qed.

Lemma mem_app x l1 l2 : mem x (l1 ++ l2) = mem x l1 || mem x l2.
Proof. unfold mem. apply existsb_app. Qed.

Lemma mem_cons x y l : mem x (y :: l) = same y x || mem x l.
Proof. done. Qed.

Lemma mem_same x y l : same x y = true -> mem x l = mem y l.
Proof.
  intros Hxy. apply eq_true_iff_eq. rewrite !mem_true. split; intros (z & Hz & E); exists z; split; try done.
  - by eapply same_trans.
  - rewrite same_sym in Hxy. by eapply same_trans.
Qed.
End Membership.

(** ** Sets up to [same] *)

Section Sets.
Context {A : Type} `{Element A}.

(** Reference: the elements whose key has no earlier occurrence. *)
Fixpoint firsts (c : A -> A) (before l : list A) : list A :=
  match l with
  | [] => []
  | x :: l => (if mem (c x) (map c before) then [] else [x]) ++ firsts c (before ++ [x]) l
  end.

(** Two lists with the same members. *)
Definition covers (l1 l2 : list A) : Prop := forall x, mem x l1 = mem x l2.

Lemma covers_snoc_new l1 l2 x : covers l1 l2 -> covers (l1 ++ [x]) (l2 ++ [x]).
Proof. intros E y. by rewrite !mem_app, E. Qed.

Lemma covers_snoc_old l1 l2 x : covers l1 l2 -> mem x l1 = true -> covers l1 (l2 ++ [x]).
Proof.
  intros E Hx y. rewrite mem_app, <- E. simpl. rewrite orb_false_r.
  destruct (same x y) eqn:Exy; [|by rewrite orb_false_r].
  by rewrite <- (mem_same _ _ l1 Exy), Hx.
Qed.

Lemma uniq_loop_plain array before result :
  Forall unboxed array -> Forall unboxed result -> covers result before ->
  uniq_loop false None array None [] result = result ++ firsts id before array.
Proof.
  revert before result. induction array as [|x array IH]; intros before result Hu Hr Hc; simpl.
  { by rewrite app_nil_r. }
  apply Forall_cons in Hu as [Hx Hu]. rewrite contains_mem, map_id by done. unfold id at 1.
  rewrite <- Hc. destruct (mem x result) eqn:E.
  - rewrite (IH (before ++ [x])); [done|done|done|]. by apply covers_snoc_old.
  - rewrite (IH (before ++ [x])); [by rewrite <- app_assoc|done| |].
    + by apply Forall_app_2; [|repeat constructor].
    + by apply covers_snoc_new.
Qed.

Lemma uniq_loop_by f array before seen result :
  Forall (fun x => unboxed (f x)) array -> Forall unboxed seen -> covers seen (map f before) ->
  uniq_loop false (Some f) array None seen result = result ++ firsts f before array.
Proof.
  revert before seen result. induction array as [|x array IH]; intros before seen result Hu Hs Hc; simpl.
  { by rewrite app_nil_r. }
  apply Forall_cons in Hu as [Hx Hu]. rewrite contains_mem by done.
  rewrite <- Hc. destruct (mem (f x) seen) eqn:E.
  - rewrite (IH (before ++ [x])); [done|done|done|]. rewrite map_app. by apply covers_snoc_old.
  - rewrite (IH (before ++ [x])); [by rewrite <- app_assoc|done| |].
    + by apply Forall_app_2; [|repeat constructor].
    + rewrite map_app. by apply covers_snoc_new.
Qed.

Lemma uniq_firsts array : Forall unboxed array -> uniq false None array = firsts id [] array.
Proof. intros Hu. by apply (uniq_loop_plain array [] []). Qed.

Lemma firsts_mem l before x :
  mem x (before ++ firsts id before l) = mem x (before ++ l).
Proof.
  revert before. induction l as [|y l IH]; intros before; simpl; [done|].
  rewrite map_id. unfold id at 1.
  specialize (IH (before ++ [y])). rewrite <- !app_assoc in IH. simpl in IH.
  destruct (mem y before) eqn:E; simpl.
  - rewrite <- IH, !mem_app. simpl.
    destruct (same y x) eqn:Eyx; [|by rewrite !orb_false_l]. simpl.
    by rewrite <- (mem_same _ _ before Eyx), E.
  - exact IH.
Qed.

(** No element is the same as an earlier one. *)
Fixpoint distinct (l : list A) : Prop :=
  match l with [] => True | x :: l => mem x l = false /\ distinct l end.

Lemma firsts_fresh l before x : mem x before = true -> mem x (firsts id before l) = false.
Proof.
  revert before. induction l as [|y l IH]; intros before Hx; simpl; [done|]. rewrite map_id. change (id y) with y.
  assert (mem x (before ++ [y]) = true) as Hx' by (by rewrite mem_app, Hx).
  destruct (mem y before) eqn:E; cbn [app]; [by apply IH|].
  rewrite mem_cons, (IH _ Hx'), orb_false_r.
  destruct (same y x) eqn:Eyx; [|done]. by rewrite (mem_same _ _ before Eyx), Hx in E.
Qed.

Lemma firsts_distinct l before : distinct (firsts id before l).
Proof.
  revert before. induction l as [|y l IH]; intros before; simpl; [done|].
  destruct (mem _ _); simpl; [apply IH|]. split; [|apply IH].
  apply firsts_fresh. rewrite mem_app. simpl. by rewrite same_refl, orb_true_r.
Qed.

Lemma firsts_sublist c l before : firsts c before l `sublist_of` l.
Proof.
  revert before. induction l as [|y l IH]; intros before; simpl; [done|].
  destruct (mem _ _); simpl; [by apply sublist_cons|by apply sublist_skip].
Qed.

Lemma intersection_loop_spec array before others result :
  Forall unboxed array -> Forall (Forall unboxed) others -> Forall unboxed result ->
  covers result (List.filter (fun x => forallb (mem x) others) before) ->
  intersection_loop array others result =
  result ++ firsts id (List.filter (fun x => forallb (mem x) others) before)
              (List.filter (fun x => forallb (mem x) others) array).
Proof.
  intros Hu Ho. revert before result. induction Hu as [|x array Hx Hu IH]; intros before result Hr Hc; simpl.
  { by rewrite app_nil_r. }
  assert (forallb (fun other => contains other x) others = forallb (mem x) others) as Eo.
  { clear -Ho. induction Ho as [|o others Ho _ IHo]; simpl; [done|]. by rewrite IHo, contains_mem. }
  rewrite contains_mem, Eo by done. set (keep := fun x => forallb (mem x) others) in *.
  assert (List.filter keep (before ++ [x]) = List.filter keep before ++ (if keep x then [x] else [])) as Ef.
  { rewrite List.filter_app. simpl. by destruct (keep x). }
  change (forallb (mem x) others) with (keep x) in *.
  destruct (mem x result) eqn:E; [|destruct (keep x) eqn:Ek].
  - rewrite (IH (before ++ [x])); [|done|].
    + destruct (keep x) eqn:Ek; rewrite Ef; [|by rewrite app_nil_r].
      simpl. rewrite map_id. change (id x) with x. by rewrite <- Hc, E.
    + rewrite Ef. destruct (keep x); [by apply covers_snoc_old|by rewrite app_nil_r].
  - rewrite (IH (before ++ [x])).
    + rewrite Ef. simpl. rewrite map_id. change (id x) with x. rewrite <- Hc, E. simpl. by rewrite <- app_assoc.
    + by apply Forall_app_2; [|repeat constructor].
    + rewrite Ef. by apply covers_snoc_new.
  - rewrite (IH (before ++ [x])); [by rewrite Ef, app_nil_r|done|by rewrite Ef, app_nil_r].
Qed.
End Sets.

Section SetAlgebra.
Context {A : Type} `{Element A} (arr : A -> option (list A)).

Lemma flatten1_arrays args arrays strict :
  map arr args = map Some arrays -> flatten1 arr strict args = concat arrays.
Proof.
  intros E. unfold flatten1. enough (flatten arr 1 true strict args = Some (concat arrays)) as -> by done.
  cbn [flatten]. revert arrays E.
  induction args as [|a args IH]; intros [|l arrays] E; simplify_eq/=; [done|].
  match goal with Ha : arr a = _ |- _ => rewrite Ha end.
  by rewrite (IH arrays) by done.
Qed.

Lemma mem_concat x (ls : list (list A)) : mem x (concat ls) = existsb (mem x) ls.
Proof. induction ls as [|l ls IH]; simpl; [done|]. by rewrite mem_app, IH. Qed.

Lemma mem_filter (keep : A -> bool) x l :
  (forall a b, same a b = true -> keep a = keep b) ->
  mem x (List.filter keep l) = mem x l && keep x.
Proof.
  intros Hk. induction l as [|y l IH]; simpl; [done|].
  destruct (same y x) eqn:E.
  - rewrite (Hk _ _ E) in *. destruct (keep x) eqn:Ek; rewrite ?mem_cons, ?E; simpl; [done|].
    rewrite IH. by rewrite andb_false_r.
  - destruct (keep y); rewrite ?mem_cons, ?E; simpl; done.
Qed.

Lemma filter_sublist_of (keep : A -> bool) l : List.filter keep l `sublist_of` l.
Proof.
  induction l as [|x l IH]; simpl; [done|].
  destruct (keep x); [by apply sublist_skip|by apply sublist_cons].
Qed.

Lemma forallb_mem_same (ls : list (list A)) a b :
  same a b = true -> forallb (mem a) ls = forallb (mem b) ls.
Proof. intros E. induction ls as [|l ls IH]; simpl; [done|]. by rewrite IH, (mem_same _ _ l E). Qed.

Lemma unboxed_concat (ls : list (list A)) : Forall (Forall unboxed) ls -> Forall unboxed (concat ls).
Proof. intros Hl. induction Hl; simpl; [constructor|]. by apply Forall_app_2. Qed.

(** [_.union], [_.intersection] and [_.difference] are the operations on
    sets, with strict equality except that NaN is equal to itself: on arrays
    without boxed numbers their results have exactly the members that union,
    intersection and difference of the arrays have, in the order of the
    arrays, and those of the first two have no member twice. *)
Theorem array_set_algebra (array args : list A) (arrays : list (list A)) :
  map arr args = map Some arrays -> Forall unboxed array -> Forall (Forall unboxed) arrays ->
  (distinct (union arr args) /\ union arr args `sublist_of` concat arrays /\
   forall x, mem x (union arr args) = existsb (mem x) arrays) /\
  (distinct (intersection array arrays) /\ intersection array arrays `sublist_of` array /\
   forall x, mem x (intersection array arrays) = mem x array && forallb (mem x) arrays) /\
  (difference arr array args `sublist_of` array /\
   forall x, mem x (difference arr array args) = mem x array && negb (existsb (mem x) arrays)).
Proof.
  intros Hargs Hu Ho. pose proof (unboxed_concat _ Ho) as Huc. split_and!.
  - unfold union. rewrite (flatten1_arrays _ _ _ Hargs), uniq_firsts by done. apply firsts_distinct.
  - unfold union. rewrite (flatten1_arrays _ _ _ Hargs), uniq_firsts by done. apply firsts_sublist.
  - intros x. unfold union. rewrite (flatten1_arrays _ _ _ Hargs), uniq_firsts by done.
    rewrite <- mem_concat. apply (firsts_mem _ []).
  - unfold intersection. rewrite (intersection_loop_spec _ []) by done. apply firsts_distinct.
  - unfold intersection. rewrite (intersection_loop_spec _ []) by done. simpl.
    etrans; [apply firsts_sublist|apply filter_sublist_of].
  - intros x. unfold intersection. rewrite (intersection_loop_spec _ []) by done. simpl.
    etrans; [apply (firsts_mem _ [])|]. simpl. apply (mem_filter (fun x => forallb (mem x) arrays)).
    apply forallb_mem_same.
  - unfold difference. apply filter_sublist_of.
  - intros x. unfold difference. rewrite (flatten1_arrays _ _ _ Hargs), <- mem_concat.
    rewrite (mem_filter (fun v => negb (contains (concat arrays) v))).
    + by rewrite contains_mem.
    + intros a b E. by rewrite !contains_mem, (mem_same _ _ _ E).
Qed.
End SetAlgebra.

(** ** Sorted arrays *)

(** Elements with an order, such as strings or numbers other than NaN. *)
Class Ordered (A : Type) `{Element A} := {
  ltb : A -> A -> bool;            (** [<] *)
  ltb_eq a b : seqb a b = true <-> ltb a b = false /\ ltb b a = false;
  ltb_asym a b : ltb a b = true -> ltb b a = false;
  geb_trans a b c : ltb b a = false -> ltb c b = false -> ltb c a = false
}.

Section Sorted.
Context {A : Type} `{Ordered A}.

Definition le_elem (a b : A) : Prop := ltb b a = false.

Lemma ltb_irrefl a : ltb a a = false.
Proof. destruct (ltb a a) eqn:E; [|done]. by rewrite (ltb_asym a a E) in E. Qed.

Lemma ordered_refl a : seqb a a = true.
Proof. apply ltb_eq. by rewrite !ltb_irrefl. Qed.

(** Below the value, then not below it. *)
Lemma sorted_below array v i j x y :
  StronglySorted le_elem array -> i <= j -> array !! i = Some x -> array !! j = Some y ->
  ltb y v = true -> ltb x v = true.
Proof.
  intros Hs Hij Hx Hy Hlt. destruct (decide (i = j)) as [->|Hne]; [by simplify_eq|].
  pose proof (StronglySorted_lookup _ _ i j x y Hs ltac:(lia) Hx Hy) as Hle.
  destruct (ltb x v) eqn:E; [done|]. by rewrite (geb_trans v x y E Hle) in Hlt.
Qed.

Lemma sortedIndex_sorted array v :
  StronglySorted le_elem array ->
  exists r, sortedIndex ltb id array v = Some r /\ r <= length array /\
    Forall (fun x => ltb x v = true) (take r array) /\
    Forall (fun x => ltb x v = false) (drop r array).
Proof.
  intros Hs. unfold sortedIndex.
  destruct (sortedIndex_loop_spec ltb id (length array) array (id v) 0 (length array))
    as (r & -> & Hr & Hspec); [lia|lia|].
  destruct Hspec as [H1 H2]; [intros i j x y; by apply sorted_below|].
  exists r. split_and!; [done|lia| |].
  - apply Forall_lookup. intros i x Hx. apply lookup_take_Some in Hx as [Hx Hi]. by apply (H1 i); [lia|].
  - apply Forall_lookup. intros i x Hx. rewrite lookup_drop in Hx. apply (H2 (r + i)); [|done].
    apply lookup_lt_Some in Hx. lia.
Qed.

Lemma sorted_insert array r v :
  StronglySorted le_elem array ->
  Forall (fun x => ltb x v = true) (take r array) -> Forall (fun x => ltb x v = false) (drop r array) ->
  StronglySorted le_elem (take r array ++ v :: drop r array).
Proof.
  revert r. induction array as [|x array IH]; intros r Hs H1 H2.
  { rewrite take_nil, drop_nil. repeat constructor. }
  apply StronglySorted_inv in Hs as [Hs Hall]. destruct r as [|r]; simpl in *.
  { constructor; [by constructor|]. exact H2. }
  apply Forall_cons in H1 as [Hx H1]. constructor; [by apply IH|].
  assert (le_elem x v) as Hxv by (by apply ltb_asym).
  apply Forall_app_2; [by apply Forall_take|]. constructor; [done|]. by apply Forall_drop.
Qed.

(** The linear search for an item of an ordered type. *)
Lemma indexOf_linear array item :
  indexOf ltb array item NoIdx = findIndex array (fun x => seqb x item).
Proof. unfold indexOf, createIndexFinder. rewrite ordered_refl. done. Qed.

Lemma seqb_below x item : ltb x item = true -> seqb x item = false.
Proof. intros E. apply not_true_iff_false. rewrite ltb_eq, E. by intros [? _]. Qed.

(** From a position on whose element is neither below nor equal to the item,
    nothing is equal to it. *)
Lemma sorted_above array item r x j y :
  StronglySorted le_elem array -> array !! r = Some x -> ltb x item = false -> seqb x item = false ->
  r <= j -> array !! j = Some y -> seqb y item = false.
Proof.
  intros Hs Hr Hlt Hne Hj Hy. destruct (decide (r = j)) as [->|Hrj]; [by simplify_eq|].
  pose proof (StronglySorted_lookup _ _ r j x y Hs ltac:(lia) Hr Hy) as Hle.
  apply not_true_iff_false. rewrite ltb_eq. intros [H1 H2]. apply not_true_iff_false in Hne. apply Hne.
  apply ltb_eq. split; [done|]. by apply (geb_trans x y item).
Qed.

Lemma indexOf_sorted_linear array item :
  StronglySorted le_elem array ->
  indexOf ltb array item IsSorted = indexOf ltb array item NoIdx.
Proof.
  intros Hs. rewrite indexOf_linear. unfold indexOf, createIndexFinder.
  case_decide as Hne; [subst; by rewrite ordered_refl|].
  destruct (sortedIndex_sorted array item Hs) as (r & -> & Hr & H1 & H2). simpl.
  destruct (findIndex_spec array (fun x => seqb x item)) as (q & -> & Hq). f_equal.
  rewrite Forall_lookup in H1, H2.
  assert (forall i y, i < r -> array !! i = Some y -> seqb y item = false) as Hbelow.
  { intros i y Hi Hy. apply seqb_below, (H1 i). apply lookup_take_Some. by split. }
  destruct (array !! r) as [x|] eqn:Ex.
  - assert (ltb x item = false) as Hx by (apply (H2 0); by rewrite lookup_drop, Nat.add_0_r).
    destruct (seqb x item) eqn:E.
    + destruct Hq as [[-> Hn]|(i & y & -> & Hy & Hp & Hn)].
      * rewrite Forall_lookup in Hn. by rewrite (Hn r x Ex) in E.
      * f_equal. destruct (lt_eq_lt_dec i r) as [[Hlt| ->]|Hgt]; [by rewrite (Hbelow i y Hlt Hy) in Hp|done|].
        rewrite Forall_lookup in Hn. rewrite (Hn r x) in E; [done|]. apply lookup_take_Some. by split.
    + destruct Hq as [[-> Hn]|(i & y & -> & Hy & Hp & Hn)]; [done|]. exfalso.
      destruct (decide (i < r)) as [Hlt|Hge]; [by rewrite (Hbelow i y Hlt Hy) in Hp|].
      by rewrite (sorted_above array item r x i y) in Hp by (done || lia).
  - destruct Hq as [[-> Hn]|(i & y & -> & Hy & Hp & Hn)]; [done|]. exfalso.
    apply lookup_ge_None in Ex. pose proof (lookup_lt_Some _ _ _ Hy).
    by rewrite (Hbelow i y) in Hp by (done || lia).
Qed.

Lemma same_seqb a b : same a b = seqb a b.
Proof. unfold same. rewrite !ordered_refl. simpl. by rewrite orb_false_r. Qed.

(** In a sorted array an element that occurred before is the last one seen. *)
Lemma uniq_sorted_loop array before last result seen :
  StronglySorted le_elem (before ++ array) -> last = list.last before ->
  uniq_loop true None array last seen result = result ++ firsts id before array.
Proof.
  revert before last result. induction array as [|x array IH]; intros before la result Hs ->; simpl.
  { by rewrite app_nil_r. }
  rewrite map_id. change (id x) with x.
  rewrite (IH (before ++ [x])) by (by rewrite <- ?app_assoc, ?last_snoc).
  assert (mem x before = match list.last before with Some s => seqb s x | None => false end) as ->.
  { clear IH. destruct before as [|y before] using rev_ind; [done|]. clear IHbefore.
    rewrite last_snoc, mem_app, mem_cons, orb_false_r, same_seqb.
    destruct (mem x before) eqn:E; [|done]. symmetry. apply mem_true in E as (z & Hz & E).
    rewrite same_seqb in E. apply ltb_eq in E as [E1 _].
    apply list_elem_of_lookup in Hz as [i Hi]. pose proof (lookup_lt_Some _ _ _ Hi) as Hlen.
    assert (((before ++ [y]) ++ x :: array) !! length before = Some y) as Hy.
    { rewrite <- app_assoc, lookup_app_r, Nat.sub_diag by done. done. }
    assert (((before ++ [y]) ++ x :: array) !! S (length before) = Some x) as Hx.
    { rewrite lookup_app_r by (rewrite length_app; simpl; lia). rewrite length_app. simpl.
      by replace (S (length before) - (length before + 1)) with 0 by lia. }
    assert (((before ++ [y]) ++ x :: array) !! i = Some z) as Hz.
    { rewrite <- app_assoc, lookup_app_l by done. done. }
    pose proof (StronglySorted_lookup _ _ i (length before) _ _ Hs ltac:(lia) Hz Hy) as Hzy.
    pose proof (StronglySorted_lookup _ _ (length before) (S (length before)) _ _ Hs ltac:(lia) Hy Hx) as Hyx.
    apply ltb_eq. split; [|exact Hyx]. by apply (geb_trans x z y). }
  destruct (list.last before) as [s|]; [destruct (seqb s x)|]; simpl; by rewrite <- ?app_assoc.
Qed.

(** Binary search: on a sorted array [_.sortedIndex] ends with the first
    position at which the value can be inserted so that the array stays
    sorted. *)
Theorem sortedIndex_inserts (array : list A) (v : A) :
  StronglySorted le_elem array ->
  exists r, sortedIndex ltb id array v = Some r /\
    StronglySorted le_elem (take r array ++ v :: drop r array) /\
    forall q, q < r -> ~ StronglySorted le_elem (take q array ++ v :: drop q array).
Proof.
  intros Hs. destruct (sortedIndex_sorted array v Hs) as (r & E & Hr & H1 & H2).
  exists r. split_and!; [done|by apply sorted_insert|]. intros q Hq Hsq.
  destruct (lookup_lt_is_Some_2 array q) as [x Hx]; [lia|].
  assert (ltb x v = true) as Hlt.
  { rewrite Forall_lookup in H1. apply (H1 q). by apply lookup_take_Some. }
  assert (length (take q array) = q) as Hl by (rewrite length_take; lia).
  pose proof (StronglySorted_lookup _ _ q (S q) v x Hsq) as Hle. unfold le_elem in Hle.
  rewrite Hle in Hlt; [done|lia| |].
  - rewrite lookup_app_r, Hl, Nat.sub_diag by lia. done.
  - rewrite lookup_app_r, Hl by lia. replace (S q - q) with 1 by lia. simpl.
    by rewrite lookup_drop, Nat.add_0_r.
Qed.

(** The fast paths for sorted arrays agree with the general ones: with the
    flag set, [_.indexOf] by binary search finds the same index as the linear
    search, and [_.uniq] by comparing neighbours returns the same array as the
    search among the elements kept. *)
Theorem sorted_paths_agree (array : list A) (item : A) :
  StronglySorted le_elem array -> Forall unboxed array ->
  indexOf ltb array item IsSorted = indexOf ltb array item NoIdx /\
  uniq true None array = uniq false None array.
Proof.
  intros Hs Hu. split; [by apply indexOf_sorted_linear|].
  rewrite uniq_firsts by done. by apply (uniq_sorted_loop array []).
Qed.
End Sorted.

(** ** Searching from a position *)

Section From.
Context {A : Type} `{Element A}.

Lemma tested_out (array : list A) p j : (Z.of_nat (length array) <= j)%Z -> tested array p j = false.
Proof.
  intros Hj. unfold tested. destruct (zlookup array j) eqn:E; [|done]. apply zlookup_lt in E. lia.
Qed.

(** For an item other than NaN, [_.indexOf] and [_.lastIndexOf] with a start
    return the first and the last position of the item at or after, at or
    before the start, where a negative start counts from the end; they return
    -1 just when there is none. *)
Theorem indexOf_from_start (ltb : A -> A -> bool) (array : list A) (item : A) (start : Z) :
  seqb item item = true ->
  let n := Z.of_nat (length array) in
  let at_ i := tested array (fun x => seqb x item) i = true in
  let lo := (if 0 <=? start then start else Z.max (start + n) 0)%Z in
  let hi := (if 0 <=? start then start else start + n)%Z in
  (exists r, indexOf ltb array item (From start) = Some r /\
    ((r = -1 /\ forall j, lo <= j -> ~ at_ j)%Z \/ (lo <= r /\ at_ r /\ forall j, lo <= j < r -> ~ at_ j)%Z)) /\
  (exists r, lastIndexOf array item (From start) = Some r /\
    ((r = -1 /\ forall j, 0 <= j <= hi -> ~ at_ j)%Z \/
     (0 <= r <= hi /\ at_ r /\ forall j, r < j <= hi -> ~ at_ j)%Z)).
Proof.
  intros Hitem n at_ lo hi. split.
  - unfold indexOf, createIndexFinder. rewrite Hitem. fold n. fold lo. cbn [negb dir_step].
    assert (0 <= lo)%Z by (unfold lo; destruct (Z.leb_spec 0 start); lia).
    destruct (index_loop_up (length array) (tested array (fun x => seqb x item)) lo n)
      as (r & -> & Hcase); [lia|unfold n; lia|].
    exists r. split; [done|]. destruct Hcase as [[-> Hn]|(Hr & Hp & Hn)]; [left|right].
    + split; [done|]. intros j Hj. unfold at_. rewrite not_true_iff_false.
      destruct (Z.lt_ge_cases j n); [apply Hn; lia|by apply tested_out].
    + split_and!; [lia|done|]. intros j Hj. unfold at_. rewrite Hn by lia. done.
  - unfold lastIndexOf, createIndexFinder. rewrite Hitem. fold n. cbn [negb dir_step].
    set (len := (if 0 <=? start then Z.min (start + 1) n else start + n + 1)%Z).
    assert (len <= n)%Z by (unfold len; destruct (Z.leb_spec 0 start); lia).
    destruct (index_loop_down (length array) (tested array (fun x => seqb x item)) (len - 1) len)
      as (r & -> & Hcase); [lia|unfold n in *; lia|].
    assert (len - 1 <= hi /\ forall j, len - 1 < j <= hi -> n <= j)%Z as [Hle Hgap].
    { unfold len, hi. destruct (Z.leb_spec 0 start); split; intros; lia. }
    exists r. split; [done|]. destruct Hcase as [[-> Hn]|(Hr & Hp & Hn)]; [left|right].
    + split; [done|]. intros j Hj. unfold at_. rewrite not_true_iff_false.
      destruct (Z.le_gt_cases j (len - 1)); [apply Hn; lia|]. apply tested_out, Hgap. lia.
    + split_and!; [lia|lia|done|]. intros j Hj. unfold at_. rewrite not_true_iff_false.
      destruct (Z.le_gt_cases j (len - 1)); [apply Hn; lia|]. apply tested_out, Hgap. lia.
Qed.
End From.

(** ** Values of JavaScript *)

(** Integer-valued numbers, NaN, strings, numbers in a [Number] object and
    other objects; objects have an identity. *)
Inductive value := Num (z : Z) | NaN | Str (s : jsstr) | Boxed (id : nat) (z : Z) | Ref (id : nat).

Definition value_seqb (a b : value) : bool :=
  match a, b with
  | Num x, Num y => (x =? y)%Z
  | Str x, Str y => bool_decide (x = y)
  | Boxed i _, Boxed j _ | Ref i, Ref j => bool_decide (i = j)
  | _, _ => false
  end.

(** [_.isNumber(obj) && obj !== +obj] *)
Definition isNaN (a : value) : bool :=
  match a with NaN | Boxed _ _ => true | _ => false end.

#[export] Program Instance value_element : Element value := {
  seqb := value_seqb; is_nan := isNaN
}.
Next Obligation.
  intros [x| |x|i x|i] [y| |y|j y|j]; simpl; try done; [apply Z.eqb_sym|by apply bool_decide_ext..].
Qed.
Next Obligation.
  intros [x| |x|i x|i] [y| |y|j y|j] [z| |z|k z|k]; simpl;
    rewrite ?bool_decide_eq_true, ?Z.eqb_eq; intros; congruence.
Qed.
Next Obligation.
  intros [x| |x|i x|i]; simpl; rewrite ?bool_decide_eq_false, ?Z.eqb_neq; congruence.
Qed.

(** Strings are ordered elements. *)
#[export] Program Instance str_element : Element jsstr := {
  seqb a b := bool_decide (a = b); is_nan _ := false
}.
Next Obligation. intros a b. by apply bool_decide_ext. Qed.
Next Obligation. intros a b c. rewrite !bool_decide_eq_true. congruence. Qed.
Next Obligation. intros a. by rewrite bool_decide_eq_false. Qed.

#[export] Program Instance str_ordered : Ordered jsstr := { ltb a b := negb (str_leb b a) }.
Next Obligation.
  intros a b. simpl. rewrite bool_decide_eq_true, !negb_false_iff. split.
  - intros ->. split; apply (reflexivity (R := str_le)).
  - intros [H1 H2]. by apply (anti_symm str_le).
Qed.
Next Obligation.
  intros a b. simpl. rewrite negb_true_iff, negb_false_iff. intros Hab.
  destruct (total str_le a b) as [Hle|Hle]; [exact Hle|]. unfold str_le in Hle. congruence.
Qed.
Next Obligation.
  intros a b c. simpl. rewrite !negb_false_iff. intros H1 H2. by apply (transitivity (R := str_le) (y := b)).
Qed.

Lemma array_set_algebra_witness :
  let arr v := match v with Ref 1 => Some [Num 1; NaN; NaN] | Ref 2 => Some [NaN; Str «"x"»] | _ => None end in
  let array := [NaN; Num 1; Num 2] in
  let args := [Ref 1; Ref 2] in
  let arrays := [[Num 1; NaN; NaN]; [NaN; Str «"x"»]] in
  (distinct (union arr args) /\ union arr args `sublist_of` concat arrays /\
   forall x, mem x (union arr args) = existsb (mem x) arrays) /\
  (distinct (intersection array arrays) /\ intersection array arrays `sublist_of` array /\
   forall x, mem x (intersection array arrays) = mem x array && forallb (mem x) arrays) /\
  (difference arr array args `sublist_of` array /\
   forall x, mem x (difference arr array args) = mem x array && negb (existsb (mem x) arrays)).
Proof. intros arr array args arrays. apply array_set_algebra; repeat constructor. Defined.

Lemma abc_sorted : StronglySorted le_elem [«"a"»; «"b"»; «"b"»; «"d"»].
Proof. repeat constructor. Qed.

Lemma sortedIndex_inserts_witness :
  exists r, sortedIndex ltb id [«"a"»; «"b"»; «"b"»; «"d"»] «"b"» = Some r /\
    StronglySorted le_elem (take r [«"a"»; «"b"»; «"b"»; «"d"»] ++ «"b"» :: drop r [«"a"»; «"b"»; «"b"»; «"d"»]) /\
    forall q, q < r -> ~ StronglySorted le_elem
      (take q [«"a"»; «"b"»; «"b"»; «"d"»] ++ «"b"» :: drop q [«"a"»; «"b"»; «"b"»; «"d"»]).
Proof. apply (sortedIndex_inserts _ «"b"»), abc_sorted. Defined.

Lemma sorted_paths_agree_witness :
  indexOf ltb [«"a"»; «"b"»; «"b"»; «"d"»] «"b"» IsSorted = indexOf ltb [«"a"»; «"b"»; «"b"»; «"d"»] «"b"» NoIdx /\
  uniq true None [«"a"»; «"b"»; «"b"»; «"d"»] = uniq false None [«"a"»; «"b"»; «"b"»; «"d"»].
Proof. apply sorted_paths_agree; [apply abc_sorted|repeat constructor]. Defined.

(** [_.isNaN] holds of every number in a [Number] object, so an array with
    such an object seems to contain NaN. *)
Example contains_boxed_as_nan : contains [Boxed 0 5] NaN = true.
Proof. reflexivity. Qed.

(** A start that lies before the array by one or more elements is passed on to
    [slice] as an end that counts from the back: the search for NaN from there
    finds elements it should not look at, unlike the search for any other
    item. *)
Example lastIndexOf_nan_before_start :
  lastIndexOf [NaN; Num 1; Num 2] NaN (From (-5)) = Some 0%Z /\
  lastIndexOf [Num 7; Num 1; Num 2] (Num 7) (From (-5)) = Some (-1)%Z.
Proof. by vm_compute. Qed.

Lemma indexOf_from_start_witness :
  let array := [Num 4; Num 5; Num 4] in
  let n := Z.of_nat (length array) in
  let at_ i := tested array (fun x => seqb x (Num 4)) i = true in
  let lo := (if 0 <=? -2 then -2 else Z.max (-2 + n) 0)%Z in
  let hi := (if 0 <=? -2 then -2 else -2 + n)%Z in
  (exists r, indexOf (fun _ _ => false) array (Num 4) (From (-2)) = Some r /\
    ((r = -1 /\ forall j, lo <= j -> ~ at_ j)%Z \/ (lo <= r /\ at_ r /\ forall j, lo <= j < r -> ~ at_ j)%Z)) /\
  (exists r, lastIndexOf array (Num 4) (From (-2)) = Some r /\
    ((r = -1 /\ forall j, 0 <= j <= hi -> ~ at_ j)%Z \/
     (0 <= r <= hi /\ at_ r /\ forall j, r < j <= hi -> ~ at_ j)%Z)).
Proof. apply (indexOf_from_start (fun _ _ => false) [Num 4; Num 5; Num 4] (Num 4) (-2)). reflexivity. Defined.
