(* ===== verification/UnderscoreSeq.v ===== *)
(** * underscore: ranges, shuffling, grouping and parts of arrays

    More of module 25 of wordcut.js.  Numbers are integers, and
    [Math.random()] is a multiple of 2^-53 below 1, given by its numerator; its
    product with a length is rounded as doubles are (JsNumber.v).
    The objects that the grouping functions fill are maps from strings; the
    one name that assignment treats differently, [__proto__], is kept apart. *)

From S2P Require Import Prelude JsNumber UnderscoreArrays.

(** ** [_.range] *)

(** [Math.ceil(a / b)] *)
Definition ceil_div (a b : Z) : Z := (- (- a / b))%Z.

Fixpoint range_loop (length : nat) (start step : Z) : list Z :=
  match length with
  | O => []
  | S length => start :: range_loop length (start + step) step
  end.

(** [stop] may be absent; a [step] that is absent is zero here, which the code
    replaces by one as well. *)
Definition range (start : Z) (stop : option Z) (step : Z) : list Z :=
  let '(start, stop) := match stop with None => (0%Z, start) | Some stop => (start, stop) end in
  let step := if (step =? 0)%Z then 1%Z else step in
  let length := Z.max (ceil_div (stop - start) step) 0 in
  range_loop (Z.to_nat length) start step.

Lemma range_loop_map n start step :
  range_loop n start step = map (fun k => start + Z.of_nat k * step)%Z (seq 0 n).
Proof.
  revert start. induction n as [|n IH]; intros start; simpl; [done|]. f_equal; [lia|].
  rewrite IH, <- seq_shift, map_map. apply map_ext. intros k. lia.
Qed.

Lemma ceil_div_pos a b k : (0 < b)%Z -> (k < ceil_div a b <-> k * b < a)%Z.
Proof.
  intros Hb. unfold ceil_div. pose proof (Z.div_mod (- a) b ltac:(lia)) as E.
  pose proof (Z.mod_pos_bound (- a) b Hb). split; intros; nia.
Qed.

Lemma ceil_div_neg a b k : (b < 0)%Z -> (k < ceil_div a b <-> a < k * b)%Z.
Proof.
  intros Hb. unfold ceil_div. pose proof (Z.div_mod (- a) b ltac:(lia)) as E.
  pose proof (Z.mod_neg_bound (- a) b Hb). split; intros; nia.
Qed.

(** [_.range(start, stop, step)] is the arithmetic progression from [start]
    with the terms before [stop], in order: its k-th element is
    [start + k * step], and it contains exactly the terms that lie below
    [stop] (above it for a negative step). *)
Theorem range_progression (start stop step : Z) :
  step <> 0%Z ->
  range start (Some stop) step =
    map (fun k => start + Z.of_nat k * step)%Z (seq 0 (length (range start (Some stop) step))) /\
  forall k : nat, k < length (range start (Some stop) step) <->
    ((0 < step -> start + Z.of_nat k * step < stop) /\ (step < 0 -> stop < start + Z.of_nat k * step))%Z.
Proof.
  intros Hs. unfold range. rewrite (proj2 (Z.eqb_neq step 0)) by done.
  rewrite range_loop_map, length_map, length_seq. split; [done|]. intros k.
  assert (k < Z.to_nat (Z.max (ceil_div (stop - start) step) 0) <->
          (Z.of_nat k < ceil_div (stop - start) step)%Z) as -> by lia.
  destruct (Z.lt_total step 0) as [Hneg|[?|Hpos]]; [|done|].
  - rewrite ceil_div_neg by done. split; [intros; split; intros; lia|]. intros [_ Hk]. specialize (Hk Hneg). lia.
  - rewrite ceil_div_pos by done. split; [intros; split; intros; lia|]. intros [Hk _]. specialize (Hk Hpos). lia.
Qed.

Lemma range_progression_witness :
  range 10 (Some 0%Z) (-3) =
    map (fun k => 10 + Z.of_nat k * -3)%Z (seq 0 (length (range 10 (Some 0%Z) (-3)))) /\
  forall k : nat, k < length (range 10 (Some 0%Z) (-3)) <->
    ((0 < -3 -> 10 + Z.of_nat k * -3 < 0) /\ (-3 < 0 -> 0 < 10 + Z.of_nat k * -3))%Z.
Proof. apply (range_progression 10 0 (-3)). lia. Defined.

Example range_examples :
  range 4 None 0 = [0; 1; 2; 3]%Z /\ range 10 (Some 0%Z) (-3) = [10; 7; 4; 1]%Z /\ range 0 (Some (-4)%Z) 1 = [].
Proof. by vm_compute. Qed.

(** ** Random numbers and shuffling *)

(** [_.random(min, max)] with [Math.random()] equal to [r] / 2^53: the product
    is the rounded product of the numerator, over 2^53. *)
Definition random (r min max : Z) : Z := (min + round64 (r * (max - min + 1)) / 2 ^ 53)%Z.

Definition random_ok (r : Z) : Prop := (0 <= r < 2 ^ 53)%Z.

Lemma random_range r min max :
  random_ok r -> (min <= max)%Z -> (min <= random r min max <= max)%Z.
Proof.
  unfold random_ok, random. intros Hr Hm. pose proof (round64_fraction r (max - min + 1) Hr ltac:(lia)) as [H0 H1].
  pose proof (Z.div_pos _ (2 ^ 53) H0). assert (round64 (r * (max - min + 1)) / 2 ^ 53 < max - min + 1)%Z; [|lia].
  apply Z.div_lt_upper_bound; lia.
Qed.

Section Shuffle.
Context {A : Type}.

(** The values of [Math.random()] in the calls made for each index. *)
Variable rnd : nat -> Z.

(** The holes of [Array(length)] are [None]. *)
Definition shuffle_step (index : nat) (x : A) (shuffled : list (option A)) : list (option A) :=
  let rand := Z.to_nat (random (rnd index) 0 (Z.of_nat index)) in
  let shuffled := if decide (rand = index) then shuffled
                  else <[index := default None (shuffled !! rand)]> shuffled in
  <[rand := Some x]> shuffled.

Fixpoint shuffle_loop (index : nat) (set : list A) (shuffled : list (option A)) : list (option A) :=
  match set with
  | [] => shuffled
  | x :: set => shuffle_loop (S index) set (shuffle_step index x shuffled)
  end.

Definition shuffle (set : list A) : list (option A) :=
  shuffle_loop 0 set (replicate (length set) None).

(** [_.sample(obj)]: [r] is the value of [Math.random()]. *)
Definition sample (r : Z) (obj : list A) : option A :=
  zlookup obj (random r 0 (Z.of_nat (length obj) - 1)).

Definition sample_n (obj : list A) (n : Z) : list (option A) :=
  slice (shuffle obj) 0 (Z.max 0 n).
End Shuffle.

(** One step of the inside-out shuffle on the part that is filled. *)
Definition put {A} (p : list A) (rand : nat) (x : A) : list A :=
  match p !! rand with
  | Some y => <[rand := x]> p ++ [y]
  | None => p ++ [x]
  end.

Section ShuffleProofs.
Context {A : Type}.

Lemma put_length (p : list A) r x : length (put p r x) = S (length p).
Proof. unfold put. destruct (p !! r); rewrite length_app, ?length_insert; simpl; lia. Qed.

Lemma put_permutation (p : list A) r x : put p r x ≡ₚ p ++ [x].
Proof.
  unfold put. destruct (p !! r) as [y|] eqn:E; [|done].
  pose proof (lookup_lt_Some _ _ _ E). rewrite insert_take_drop by done.
  rewrite <- (take_drop_middle p r y E) at 3. rewrite <- !app_assoc. apply Permutation_app_head. simpl.
  rewrite <- !Permutation_cons_append. apply perm_swap.
Qed.

(** The chosen position is where the new element is. *)
Lemma put_lookup (p : list A) r x : r <= length p -> put p r x !! r = Some x.
Proof.
  intros Hr. unfold put. destruct (p !! r) as [y|] eqn:E.
  - pose proof (lookup_lt_Some _ _ _ E).
    rewrite lookup_app_l by (by rewrite length_insert). by rewrite list_lookup_insert_eq.
  - apply lookup_ge_None in E. replace r with (length p) by lia. by rewrite lookup_prefix.
Qed.

Lemma put_inj (p q : list A) r s x :
  r <= length p -> s <= length q -> length p = length q -> NoDup (p ++ [x]) ->
  put p r x = put q s x -> r = s /\ p = q.
Proof.
  intros Hr Hs Hl Hnd E.
  assert (r = s) as <-.
  { pose proof (put_lookup p r x Hr) as H1. pose proof (put_lookup q s x Hs) as H2. rewrite <- E in H2.
    assert (NoDup (put p r x)) as Hnd' by (by rewrite put_permutation). by eapply NoDup_lookup. }
  split; [done|]. unfold put in E.
  destruct (p !! r) as [y|] eqn:Ep, (q !! r) as [z|] eqn:Eq.
  - apply app_inj_tail in E as [E <-]. apply (f_equal (insert r y)) in E.
    rewrite !list_insert_insert_eq in E. rewrite !list_insert_id in E by done. done.
  - apply lookup_lt_Some in Ep. apply lookup_ge_None in Eq. lia.
  - apply lookup_lt_Some in Eq. apply lookup_ge_None in Ep. lia.
  - by apply app_inj_tail in E as [E _].
Qed.

(** The list filled after the elements of [set], which start at [index]. *)
Fixpoint puts (rnd : nat -> Z) (index : nat) (set p : list A) : list A :=
  match set with
  | [] => p
  | x :: set => puts rnd (S index) set (put p (Z.to_nat (random (rnd index) 0 (Z.of_nat index))) x)
  end.

Lemma shuffle_step_put rnd (p : list A) x k :
  random_ok (rnd (length p)) ->
  shuffle_step rnd (length p) x (map Some p ++ replicate (S k) None) =
  map Some (put p (Z.to_nat (random (rnd (length p)) 0 (Z.of_nat (length p)))) x) ++ replicate k None.
Proof.
  intros Hr. pose proof (random_range (rnd (length p)) 0 (Z.of_nat (length p)) Hr ltac:(lia)) as Hb.
  unfold shuffle_step. set (r := Z.to_nat _) in *.
  assert (r <= length p) as Hrp by lia. clearbody r. unfold put. case_decide as Hc.
  - subst r. rewrite lookup_ge_None_2 by done.
    rewrite insert_app_r_alt by (by rewrite length_map). rewrite length_map, Nat.sub_diag.
    rewrite map_app. simpl. by rewrite <- app_assoc.
  - destruct (lookup_lt_is_Some_2 p r) as [y Hy]; [lia|]. rewrite Hy.
    rewrite lookup_app_l by (rewrite length_map; lia). rewrite list_lookup_fmap, Hy. simpl.
    rewrite (insert_app_r_alt (map Some p)) by (by rewrite length_map). rewrite length_map, Nat.sub_diag. simpl.
    rewrite insert_app_l by (rewrite length_map; lia).
    rewrite map_app. simpl. change (map Some (<[r:=x]> p)) with (Some <$> <[r:=x]> p).
    rewrite list_fmap_insert. by rewrite <- app_assoc.
Qed.

Lemma shuffle_loop_puts rnd (set p : list A) :
  (forall i, random_ok (rnd i)) ->
  shuffle_loop rnd (length p) set (map Some p ++ replicate (length set) None) =
  map Some (puts rnd (length p) set p).
Proof.
  intros Hr. revert p. induction set as [|x set IH]; intros p; simpl; [by rewrite app_nil_r|].
  change (None :: replicate (length set) None) with (replicate (S (length set)) (@None A)).
  rewrite shuffle_step_put by done.
  rewrite <- (put_length p (Z.to_nat (random (rnd (length p)) 0 (Z.of_nat (length p)))) x). apply IH.
Qed.

Lemma shuffle_puts rnd (set : list A) :
  (forall i, random_ok (rnd i)) -> shuffle rnd set = map Some (puts rnd 0 set []).
Proof. intros Hr. apply (shuffle_loop_puts rnd set []). done. Qed.

Lemma puts_permutation rnd index (set p : list A) : puts rnd index set p ≡ₚ p ++ set.
Proof.
  revert index p. induction set as [|x set IH]; intros index p; simpl; [by rewrite app_nil_r|].
  rewrite IH, put_permutation. by rewrite <- app_assoc.
Qed.

Lemma puts_inj rnd rnd' (set p q : list A) :
  (forall i, random_ok (rnd i)) -> (forall i, random_ok (rnd' i)) ->
  length p = length q -> NoDup (p ++ set) -> NoDup (q ++ set) ->
  puts rnd (length p) set p = puts rnd' (length p) set q ->
  p = q /\ forall i, length p <= i < length p + length set ->
    random (rnd i) 0 (Z.of_nat i) = random (rnd' i) 0 (Z.of_nat i).
Proof.
  intros Hr Hr'. revert p q. induction set as [|x set IH]; intros p q Hl Hp Hq E; simpl in *.
  { split; [done|]. intros i Hi. lia. }
  rewrite cons_middle, app_assoc in Hp. rewrite cons_middle, app_assoc in Hq.
  pose proof (random_range (rnd (length p)) 0 (Z.of_nat (length p)) (Hr _) ltac:(lia)) as Hb.
  pose proof (random_range (rnd' (length p)) 0 (Z.of_nat (length p)) (Hr' _) ltac:(lia)) as Hb'.
  set (r := random (rnd (length p)) 0 (Z.of_nat (length p))) in *.
  set (r' := random (rnd' (length p)) 0 (Z.of_nat (length p))) in *.
  destruct (IH (put p (Z.to_nat r) x) (put q (Z.to_nat r') x)) as [E1 E2].
  - by rewrite !put_length, Hl.
  - by rewrite put_permutation.
  - by rewrite put_permutation.
  - by rewrite put_length.
  - apply put_inj in E1 as [Er ->]; [|lia|lia|done|by apply NoDup_app in Hp as [? _]].
    split; [done|]. intros i Hi. rewrite put_length in E2.
    destruct (decide (i = length q)) as [->|Hne]; [fold r r'; lia|]. apply E2. lia.
Qed.
End ShuffleProofs.

(** C29. [_.shuffle] is a fair shuffle: whatever [Math.random()] returns, the
    result is a permutation of the input without holes, and on distinct
    elements different choices of positions give different permutations, so
    that each of the n! permutations comes from exactly one of the n!
    sequences of choices. *)
Theorem shuffle_fair {A} (set : list A) (rnd : nat -> Z) :
  (forall i, random_ok (rnd i)) ->
  (exists out, shuffle rnd set = map Some out /\ out ≡ₚ set) /\
  (NoDup set -> forall rnd', (forall i, random_ok (rnd' i)) -> shuffle rnd set = shuffle rnd' set ->
    forall i, i < length set -> random (rnd i) 0 (Z.of_nat i) = random (rnd' i) 0 (Z.of_nat i)).
Proof.
  intros Hr. split.
  - exists (puts rnd 0 set []). split; [by apply shuffle_puts|]. apply (puts_permutation rnd 0 set []).
  - intros Hnd rnd' Hr' E i Hi. rewrite !shuffle_puts in E by done. apply (inj (map Some)) in E.
    apply (puts_inj rnd rnd' set [] []); [done..|simpl; lia].
Qed.

Lemma shuffle_fair_witness :
  (exists out, shuffle (fun i => Z.of_nat i mod 2 * 2 ^ 52)%Z [10; 20; 30] = map Some out /\ out ≡ₚ [10; 20; 30]) /\
  (NoDup [10; 20; 30] -> forall rnd', (forall i, random_ok (rnd' i)) ->
    shuffle (fun i => Z.of_nat i mod 2 * 2 ^ 52)%Z [10; 20; 30] = shuffle rnd' [10; 20; 30] ->
    forall i, i < length [10; 20; 30] ->
      random (Z.of_nat i mod 2 * 2 ^ 52) 0 (Z.of_nat i) = random (rnd' i) 0 (Z.of_nat i)).
Proof.
  apply (shuffle_fair [10; 20; 30]). intros i. unfold random_ok.
  pose proof (Z.mod_pos_bound (Z.of_nat i) 2). lia.
Defined.

(** ** Parts of an array *)

Section Parts.
Context {A : Type}.

(** [slice.call(array, n)]: to the end of the array. *)
Definition slice_from (array : list A) (n : Z) : list A := slice array n (Z.of_nat (length array)).

(** [_.initial(array, n)], [_.rest(array, n)]; [n] is absent or given together
    with a truthy [guard] when it is [None]. *)
Definition initial (array : list A) (n : option Z) : list A :=
  slice array 0 (Z.max 0 (Z.of_nat (length array) - default 1%Z n)).

Definition rest (array : list A) (n : option Z) : list A := slice_from array (default 1%Z n).

(** [_.first(array, n)] and [_.last(array, n)] for a given [n]. *)
Definition first (array : list A) (n : Z) : list A :=
  initial array (Some (Z.of_nat (length array) - n)%Z).

Definition last_ (array : list A) (n : Z) : list A :=
  rest array (Some (Z.max 0 (Z.of_nat (length array) - n))).

Lemma slice_take (array : list A) n :
  (0 <= n)%Z -> slice array 0 n = take (Z.to_nat n) array.
Proof.
  intros Hn. unfold slice, slice_pos. cbn [Z.ltb Z.compare]. rewrite (Z.min_l 0) by lia.
  destruct (Z.ltb_spec n 0); [lia|]. rewrite Z.sub_0_r. cbn [Z.to_nat]. rewrite drop_0.
  destruct (Z.le_gt_cases n (Z.of_nat (length array))); [by rewrite Z.min_l by lia|].
  rewrite Z.min_r by lia. rewrite !take_ge by lia. done.
Qed.

Lemma slice_from_drop (array : list A) n :
  (0 <= n)%Z -> slice_from array n = drop (Z.to_nat n) array.
Proof.
  intros Hn. unfold slice_from, slice, slice_pos. destruct (Z.ltb_spec n 0); [lia|].
  destruct (Z.ltb_spec (Z.of_nat (length array)) 0); [lia|]. rewrite Z.min_id.
  destruct (Z.le_gt_cases n (Z.of_nat (length array))).
  - rewrite Z.min_l by lia. apply take_ge. rewrite length_drop. lia.
  - rewrite Z.min_r, Z.sub_diag by lia. cbn [Z.to_nat take]. symmetry. apply drop_ge. lia.
Qed.

(** For every [n] that is not negative, [_.first(a, n)] and [_.rest(a, n)]
    are the two parts of the array at [n], and [_.initial(a, n)] and
    [_.last(a, n)] those at [n] from the end, also when [n] exceeds the
    length. *)
Theorem parts_of_array (array : list A) (n : nat) :
  first array (Z.of_nat n) ++ rest array (Some (Z.of_nat n)) = array /\
  length (first array (Z.of_nat n)) = Nat.min n (length array) /\
  initial array (Some (Z.of_nat n)) ++ last_ array (Z.of_nat n) = array /\
  length (last_ array (Z.of_nat n)) = Nat.min n (length array).
Proof.
  unfold first, last_, initial, rest. cbn [from_option id].
  rewrite !slice_take, !slice_from_drop by lia.
  set (len := Z.of_nat (length array)).
  replace (Z.to_nat (Z.max 0 (len - (len - Z.of_nat n)))) with n by lia.
  replace (Z.to_nat (Z.of_nat n)) with n by lia.
  replace (Z.to_nat (Z.max 0 (len - Z.of_nat n))) with (length array - n) by lia.
  rewrite !take_drop, length_take, length_drop. split_and!; [done|done|done|lia].
Qed.
End Parts.

(** ** Grouping *)

(** [obj[key] = v] on a plain object: assigning to [__proto__] makes no
    property. *)
Definition set_key {V} (key : jsstr) (v : V) (obj : gmap jsstr V) : gmap jsstr V :=
  if decide (key = «"__proto__"») then obj else <[key := v]> obj.

(** [group(behavior)]: the keys are what the iteratee returns, as strings. *)
Definition group {A V} (behavior : gmap jsstr V -> A -> jsstr -> gmap jsstr V) (iteratee : A -> jsstr)
    (array : list A) : gmap jsstr V :=
  foldl (fun result value => behavior result value (iteratee value)) ∅ array.

Definition groupBy {A} : (A -> jsstr) -> list A -> gmap jsstr (list A) :=
  group (fun result value key =>
    match result !! key with
    | Some values => set_key key (values ++ [value]) result
    | None => set_key key [value] result
    end).

Definition indexBy {A} : (A -> jsstr) -> list A -> gmap jsstr A :=
  group (fun result value key => set_key key value result).

Definition countBy {A} : (A -> jsstr) -> list A -> gmap jsstr Z :=
  group (fun result value key =>
    match result !! key with
    | Some n => set_key key (n + 1)%Z result
    | None => set_key key 1%Z result
    end).

(** [_.partition(array, predicate)] *)
Definition partition {A} (predicate : A -> bool) (array : list A) : list A * list A :=
  foldl (fun '(pass, fail) value =>
    if predicate value then (pass ++ [value], fail) else (pass, fail ++ [value])) ([], []) array.

Section Grouping.
Context {A : Type} (iteratee : A -> jsstr).

(** The elements with a key; none with the key [__proto__]. *)
Definition bucket (k : jsstr) (array : list A) : list A :=
  if decide (k = «"__proto__"») then [] else filter (fun x => iteratee x = k) array.

Lemma bucket_snoc k array x :
  bucket k (array ++ [x]) =
  bucket k array ++ (if decide (k = «"__proto__"») then [] else if decide (iteratee x = k) then [x] else []).
Proof.
  unfold bucket. case_decide; [done|]. rewrite filter_app, filter_cons. by case_decide.
Qed.

(** What a group holds, as a function of its bucket. *)
Lemma group_lookup {V} (behavior : gmap jsstr V -> A -> jsstr -> gmap jsstr V) (summary : list A -> option V) :
  summary [] = None ->
  (forall result value key b, result !! key = summary b ->
     behavior result value key = match summary (b ++ [value]) with
                                 | Some v => set_key key v result
                                 | None => result
                                 end /\ is_Some (summary (b ++ [value]))) ->
  forall array k, group behavior iteratee array !! k = summary (bucket k array).
Proof.
  intros H0 Hstep array. induction array as [|x array IH] using rev_ind; intros k.
  { unfold bucket, group. cbn [foldl]. rewrite lookup_empty. by case_decide. }
  unfold group in *. rewrite foldl_app. cbn [foldl]. rewrite bucket_snoc.
  destruct (Hstep _ x (iteratee x) _ (IH (iteratee x))) as [-> [v Hv]]. rewrite Hv. unfold set_key.
  destruct (decide (iteratee x = «"__proto__"»)) as [Ep|Ep].
  - rewrite IH. destruct (decide (k = _)); [by rewrite app_nil_r|].
    rewrite decide_False by congruence. by rewrite app_nil_r.
  - destruct (decide (iteratee x = k)) as [<-|Hne].
    + rewrite lookup_insert_eq. by rewrite decide_False.
    + rewrite lookup_insert_ne, IH by done. destruct (decide (k = _)); by rewrite app_nil_r.
Qed.

(** A bucket, if it is not empty. *)
Definition nonempty {V} (f : list A -> V) (b : list A) : option V :=
  match b with [] => None | _ :: _ => Some (f b) end.

Lemma nonempty_snoc {V} (f : list A -> V) b x : nonempty f (b ++ [x]) = Some (f (b ++ [x])).
Proof. by destruct b. Qed.

(** [_.groupBy], [_.indexBy] and [_.countBy] describe the same partition of
    an array: under each key they hold the elements with that key in order,
    the last of them and their number, and no other key is present.  The
    elements with the key [__proto__] are lost. *)
Theorem grouping_buckets (array : list A) (k : jsstr) :
  groupBy iteratee array !! k = nonempty id (bucket k array) /\
  indexBy iteratee array !! k = last (bucket k array) /\
  countBy iteratee array !! k =
    nonempty (fun b => Z.of_nat (length b)) (bucket k array).
Proof.
  split_and!.
  - apply (group_lookup _ (nonempty id)); [done|].
    intros result value key b ->. rewrite nonempty_snoc. by destruct b.
  - apply (group_lookup _ last); [done|]. intros result value key b _. by rewrite last_snoc.
  - apply (group_lookup _ (nonempty (fun b => Z.of_nat (length b)))); [done|].
    intros result value key b ->. rewrite nonempty_snoc, length_app. split; [|done].
    destruct b; [done|]. cbn [nonempty length]. f_equal. lia.
Qed.
End Grouping.

Lemma partition_filter {A} (predicate : A -> bool) array :
  partition predicate array =
  (List.filter predicate array, List.filter (fun x => negb (predicate x)) array).
Proof.
  unfold partition. induction array as [|x array IH] using rev_ind; [done|].
  rewrite foldl_app, IH, !List.filter_app. simpl. by destruct (predicate x); rewrite ?app_nil_r.
Qed.
