(* ===== verification/UnderscoreFunctions.v ===== *)
(** * underscore: functions about functions

    [_.throttle], [_.debounce], [_.memoize], [_.after], [_.before] and
    [_.compose] of module 25 of wordcut.js.

    The wrapped function is observed through a log of its calls and does not
    call back into its wrapper.  Times are milliseconds.  A pending timer is
    its due time; the host fires it at that time or later. *)

From S2P Require Import Prelude.

(** ** [_.throttle] *)

Section Throttle.
Context {A : Type} (wait : Z).

(** [leading] and [trailing] are false when the option is [false]. *)
Variables leading trailing : bool.

Record throttled := Throttled {
  timeout : option Z;
  previous : Z;
  args : option A;
  log : list (Z * option A)          (** the calls of the function, with their arguments *)
}.

Definition throttle : throttled := Throttled None 0 None [].

Definition later (now : Z) (st : throttled) : throttled :=
  let previous := if leading then now else 0%Z in
  Throttled None previous None (log st ++ [(now, args st)]).

Definition throttle_call (now : Z) (a : A) (st : throttled) : throttled :=
  let previous := if (previous st =? 0)%Z && negb leading then now else previous st in
  let remaining := (wait - (now - previous))%Z in
  if (remaining <=? 0)%Z || (wait <? remaining)%Z then
    Throttled None now None (log st ++ [(now, Some a)])
  else
    match timeout st with
    | None => Throttled (if trailing then Some (now + remaining)%Z else None) previous (Some a) (log st)
    | Some due => Throttled (Some due) previous (Some a) (log st)
    end.

Inductive event := Call (now : Z) (a : A) | Fire (now : Z).

Definition event_time (e : event) : Z := match e with Call now _ | Fire now => now end.

(** [None] when the host fires a timer that is not due. *)
Definition throttle_event (e : event) (st : throttled) : option throttled :=
  match e with
  | Call now a => Some (throttle_call now a st)
  | Fire now =>
      match timeout st with
      | Some due => if decide (due <= now)%Z then Some (later now st) else None
      | None => None
      end
  end.

Fixpoint throttle_run (es : list event) (st : throttled) : option throttled :=
  match es with
  | [] => Some st
  | e :: es => st ← throttle_event e st; throttle_run es st
  end.

(** The clock does not run backwards and starts late enough for the zero in
    [previous] to mean never. *)
Definition monotone (es : list event) : Prop :=
  StronglySorted Z.le (map event_time es) /\ Forall (fun e => 0 < event_time e /\ wait <= event_time e)%Z es.

(** Consecutive entries of a log are at least [wait] apart. *)
Fixpoint spaced (l : list (Z * option A)) : Prop :=
  match l with
  | (t1, _) :: (((t2, _) :: _) as l') => (t1 + wait <= t2)%Z /\ spaced l'
  | _ => True
  end.

Lemma spaced_snoc l t a :
  spaced l -> (forall t1 a1, last l = Some (t1, a1) -> t1 + wait <= t)%Z -> spaced (l ++ [(t, a)]).
Proof.
  induction l as [|[t1 a1] l IH]; [done|]. intros Hs Hl. destruct l as [|[t2 a2] l].
  - simpl. split; [by apply (Hl t1 a1)|done].
  - destruct Hs as [H1 H2]. split; [done|]. apply IH; [done|]. intros t3 a3 H3. by apply (Hl t3 a3).
Qed.

(** [now] is the time of the last event. *)
Record throttle_inv (now : Z) (st : throttled) : Prop := {
  ti_spaced : spaced (log st);
  ti_prev : (previous st <= now)%Z;
  ti_last : forall t a, last (log st) = Some (t, a) ->
    (t <= now /\ (previous st = 0 -> leading = false) /\ (previous st <> 0 -> t <= previous st))%Z;
  ti_due : forall due, timeout st = Some due -> previous st <> 0%Z /\ due = (previous st + wait)%Z
}.

Lemma throttle_event_inv now e st st' :
  (0 <= wait)%Z -> (now <= event_time e)%Z -> (0 < event_time e)%Z -> (wait <= event_time e)%Z ->
  throttle_inv now st -> throttle_event e st = Some st' -> throttle_inv (event_time e) st'.
Proof.
  intros Hw Hnow Hpos Hwt [H1 H2 H3 H4]. destruct e as [t a|t]; simpl in *.
  - intros [= <-]. unfold throttle_call.
    destruct ((previous st =? 0)%Z && negb leading) eqn:E1.
    + apply andb_true_iff in E1 as [E1%Z.eqb_eq E2%negb_true_iff].
      replace (wait - (t - t))%Z with wait by lia. rewrite Z.ltb_irrefl, orb_false_r.
      destruct (Z.leb_spec wait 0).
      * constructor; simpl; [|lia| |done].
        -- apply spaced_snoc; [done|]. intros t1 a1 Hl. apply H3 in Hl. lia.
        -- intros t1 a1. rewrite last_snoc. intros [= <- _]. split_and!; [lia|lia|lia].
      * destruct (timeout st) as [due|] eqn:Et.
        { destruct (H4 due eq_refl) as [? _]. lia. }
        constructor; simpl; [done|lia| |].
        -- intros t1 a1 Hl. apply H3 in Hl. split_and!; lia.
        -- intros due Hd. destruct trailing; [|done]. injection Hd as <-. split; lia.
    + destruct ((wait - (t - previous st) <=? 0)%Z || (wait <? wait - (t - previous st))%Z) eqn:E2.
      * constructor; simpl; [|lia| |done].
        -- apply spaced_snoc; [done|]. intros t1 a1 Hl. apply H3 in Hl as (Ha & Hb & Hc).
           apply orb_true_iff in E2 as [E2%Z.leb_le|E2%Z.ltb_lt]; [|lia].
           destruct (decide (previous st = 0%Z)) as [Ez|Ez]; [|specialize (Hc Ez); lia].
           rewrite (Hb Ez), Ez in E1. done.
        -- intros t1 a1. rewrite last_snoc. intros [= <- _]. split_and!; [lia|lia|lia].
      * apply orb_false_iff in E2 as [E2%Z.leb_gt E3%Z.ltb_ge].
        assert (forall t1 a1, last (log st) = Some (t1, a1) ->
          (t1 <= t /\ (previous st = 0 -> leading = false) /\ (previous st <> 0 -> t1 <= previous st))%Z) as H3'.
        { intros t1 a1 Hl. destruct (H3 t1 a1 Hl) as (Ha & Hb & Hc). split_and!; [lia|done|done]. }
        destruct (timeout st) as [due|] eqn:Et; constructor; simpl; try done; try lia.
        intros due Hd. destruct trailing; [|done]. injection Hd as <-. split; [|lia]. lia.
  - destruct (timeout st) as [due|] eqn:Et; [|done]. case_decide as Hd; [|done]. intros [= <-].
    destruct (H4 due eq_refl) as [Hp Hdue]. unfold later.
    assert (forall p, (p = if leading then t else 0)%Z ->
      (p <= t)%Z /\ forall t1, (t1 <= t)%Z -> ((p = 0 -> leading = false) /\ (p <> 0 -> t1 <= p))%Z) as Hq.
    { intros p ->. destruct leading; (split; [lia|]); intros t1 Ht1; split; intros; try done; lia. }
    destruct (Hq _ eq_refl) as [Hq1 Hq2].
    constructor; simpl; try done.
    + apply spaced_snoc; [done|]. intros t1 a1 Hl. destruct (H3 t1 a1 Hl) as (_ & _ & Hc).
      specialize (Hc Hp). lia.
    + intros t1 a1. rewrite last_snoc. intros [= <- _]. split; [lia|]. apply Hq2. lia.
Qed.

Lemma throttle_run_inv es now st st' :
  (0 <= wait)%Z -> Forall (fun e => now <= event_time e)%Z es -> monotone es ->
  throttle_inv now st -> throttle_run es st = Some st' -> exists now', throttle_inv now' st'.
Proof.
  intros Hw. revert now st. induction es as [|e es IH]; intros now st Hnow [Hsort Hall] Hinv Hrun; simpl in *.
  { simplify_eq. by exists now. }
  apply StronglySorted_inv in Hsort as [Hsort Hle].
  apply Forall_cons in Hnow as [Hn _]. apply Forall_cons in Hall as [[Hp Hwe] Hall].
  destruct (throttle_event e st) as [st1|] eqn:E; [|done]. simpl in Hrun.
  apply (IH (event_time e) st1); [|by split| |done].
  - by rewrite List.Forall_map in Hle.
  - by apply (throttle_event_inv now e st st1).
Qed.

Lemma throttle_inv_start : throttle_inv 0 throttle.
Proof. constructor; simpl; [done|lia|done|done]. Qed.

Fixpoint last_call (es : list event) (a : option A) : option A :=
  match es with
  | [] => a
  | Call _ b :: es => last_call es (Some b)
  | Fire _ :: es => last_call es a
  end.

(** The last call has been served, or will be by the pending timer. *)
Definition served (a : option A) (st : throttled) : Prop :=
  match timeout st with
  | Some _ => args st = a /\ a <> None
  | None => from_option (fun p => p.2) None (last (log st)) = a
  end.

Lemma throttle_event_served e st st' a :
  trailing = true -> served a st -> throttle_event e st = Some st' ->
  served (last_call [e] a) st'.
Proof.
  intros Ht Hs. destruct e as [t b|t]; simpl.
  - intros [= <-]. unfold throttle_call, served.
    destruct (_ || _); simpl; [by rewrite last_snoc|]. rewrite Ht. by destruct (timeout st).
  - unfold served in Hs. destruct (timeout st) as [due|]; [|done]. case_decide; [|done].
    intros [= <-]. unfold served, later. simpl. rewrite last_snoc. by destruct Hs.
Qed.

Lemma throttle_run_served es st st' a :
  trailing = true -> served a st -> throttle_run es st = Some st' -> served (last_call es a) st'.
Proof.
  intros Ht. revert st a. induction es as [|e es IH]; intros st a Hs Hrun; simpl in *; [by simplify_eq|].
  destruct (throttle_event e st) as [st1|] eqn:E; [|done]. simpl in Hrun.
  pose proof (throttle_event_served e st st1 a Ht Hs E) as Hs1.
  destruct e as [t b|t]; by eapply IH.
Qed.

(** C28. A throttled function runs at most once in any [wait] milliseconds, for
    all settings of the options, all times of the calls and all delays of the
    timer; and unless the trailing edge is disabled no last call is lost: it
    has been run with its arguments, or a timer that will do so is pending. *)
Theorem throttle_rate_limit (es : list event) (st : throttled) :
  (0 <= wait)%Z -> monotone es -> throttle_run es throttle = Some st ->
  spaced (log st) /\ (trailing = true -> served (last_call es None) st).
Proof.
  intros Hw Hm Hrun. split.
  - destruct (throttle_run_inv es 0 throttle st Hw) as [now [? _ _ _]]; [|done|apply throttle_inv_start|done|done].
    destruct Hm as [_ Hall]. eapply Forall_impl; [exact Hall|]. simpl. intros e He. lia.
  - intros Ht. by apply (throttle_run_served es throttle st None).
Qed.
End Throttle.

(** Three calls in 60 ms: the first and the last are run, 100 ms apart. *)
Definition three_calls : list (event (A := nat)) := [Call 1000 1; Call 1030 2; Call 1060 3; Fire 1100].

Example throttle_three_calls :
  log <$> throttle_run 100 true true three_calls throttle = Some [(1000%Z, Some 1); (1100%Z, Some 3)] /\
  log <$> throttle_run 100 true false [Call 1000 1; Call 1030 2] throttle = Some [(1000%Z, Some 1)] /\
  log <$> throttle_run 100 false true three_calls throttle = Some [(1100%Z, Some 3)].
Proof. by vm_compute. Qed.

Lemma throttle_rate_limit_witness :
  let st := Throttled None 1100 None [(1000%Z, Some 1); (1100%Z, Some 3)] in
  spaced 100 (log st) /\ (true = true -> served (last_call three_calls None) st).
Proof.
  apply (throttle_rate_limit 100 true true three_calls); [lia| |reflexivity].
  split; repeat constructor; simpl; lia.
Defined.


(** ** [_.debounce] *)

Section Debounce.
Context {A : Type} (wait : Z) (immediate : bool).

Record debounced := Debounced {
  d_timeout : option Z;
  d_args : option A;
  timestamp : Z;
  d_log : list (Z * option A)
}.

(** The timestamp is undefined before the first call, when it is not read. *)
Definition debounce : debounced := Debounced None None 0 [].

Definition d_later (now : Z) (st : debounced) : debounced :=
  let last := (now - timestamp st)%Z in
  if (last <? wait)%Z && (0 <=? last)%Z then
    Debounced (Some (now + (wait - last))%Z) (d_args st) (timestamp st) (d_log st)
  else if immediate then Debounced None (d_args st) (timestamp st) (d_log st)
  else Debounced None None (timestamp st) (d_log st ++ [(now, d_args st)]).

Definition debounce_call (now : Z) (a : A) (st : debounced) : debounced :=
  let callNow := immediate && bool_decide (d_timeout st = None) in
  let timeout := match d_timeout st with None => Some (now + wait)%Z | Some due => Some due end in
  if callNow then Debounced timeout None now (d_log st ++ [(now, Some a)])
  else Debounced timeout (Some a) now (d_log st).

(** A host that fires timers when they are due: up to a time, or for ever.
    [None] when the fuel runs out. *)
Definition due_by (until : option Z) (due : Z) : bool :=
  match until with Some t => (due <=? t)%Z | None => true end.

Fixpoint advance (fuel : nat) (until : option Z) (st : debounced) : option debounced :=
  match d_timeout st with
  | None => Some st
  | Some due =>
      if due_by until due then
        match fuel with
        | O => None
        | S fuel => advance fuel until (d_later due st)
        end
      else Some st
  end.

(** Calls at their times, and all that happens after them. *)
Fixpoint debounce_run (calls : list (Z * A)) (st : debounced) : option debounced :=
  match calls with
  | [] => advance 2 None st
  | (t, a) :: calls => st ← advance 2 (Some t) st; debounce_run calls (debounce_call t a st)
  end.

(** Reference for the trailing edge: the calls with no other call in the
    [wait] milliseconds after them. *)
Fixpoint quiet_ends (calls : list (Z * A)) : list (Z * option A) :=
  match calls with
  | [] => []
  | (t, a) :: rest =>
      (if match rest with [] => true | (t', _) :: _ => (t + wait <=? t')%Z end
       then [((t + wait)%Z, Some a)] else []) ++ quiet_ends rest
  end.

(** Reference for the leading edge: the calls with no other call in the [wait]
    milliseconds before them. *)
Fixpoint burst_starts (before : option Z) (calls : list (Z * A)) : list (Z * option A) :=
  match calls with
  | [] => []
  | (t, a) :: rest =>
      (if match before with None => true | Some t0 => (t0 + wait <=? t)%Z end
       then [(t, Some a)] else []) ++ burst_starts (Some t) rest
  end.

(** Between a call at [t] and the end of the time it opens. *)
Definition waiting (t : Z) (a : A) (st : debounced) : Prop :=
  timestamp st = t /\ (immediate = false -> d_args st = Some a) /\
  exists due, d_timeout st = Some due /\ (t <= due <= t + wait)%Z.

Lemma advance_fire n until st due :
  d_timeout st = Some due -> due_by until due = true ->
  advance (S n) until st = advance n until (d_later due st).
Proof. intros Hd Hu. cbn [advance]. by rewrite Hd, Hu. Qed.

Lemma advance_quiet t a st until :
  (0 <= wait)%Z -> waiting t a st -> due_by until (t + wait) = true ->
  exists st', advance 2 until st = Some st' /\ d_timeout st' = None /\
    d_log st' = d_log st ++ (if immediate then [] else [((t + wait)%Z, Some a)]).
Proof.
  intros Hw (Ht & Ha & due & Hd & Hb) Hu.
  assert (forall st n, timestamp st = t -> (immediate = false -> d_args st = Some a) ->
    d_timeout st = Some (t + wait)%Z ->
    exists st', advance (S n) until st = Some st' /\ d_timeout st' = None /\
      d_log st' = d_log st ++ (if immediate then [] else [((t + wait)%Z, Some a)])) as Hlast.
  { clear -Hu. intros st n Ht Ha Hd. cbn [advance]. rewrite Hd, Hu. unfold d_later. rewrite Ht.
    replace (t + wait - t)%Z with wait by lia. rewrite Z.ltb_irrefl. cbn [andb].
    destruct immediate; eexists; split; try (by destruct n); simpl; split; try done.
    - by rewrite app_nil_r.
    - by rewrite Ha. }
  destruct (decide (due = t + wait)%Z) as [->|Hne]; [by apply Hlast|].
  assert (due_by until due = true) as Hu'.
  { destruct until as [u|]; [|done]. simpl in *. lia. }
  rewrite (advance_fire 1 until st due) by done. unfold d_later. rewrite Ht.
  rewrite (proj2 (Z.ltb_lt (due - t) wait)), (proj2 (Z.leb_le 0 (due - t))) by lia. cbn [andb].
  destruct (Hlast (Debounced (Some (due + (wait - (due - t)))%Z) (d_args st) t (d_log st)) 0)
    as (st' & E & H1 & H2); [done|done|simpl; f_equal; lia|].
  exists st'. by rewrite E.
Qed.

Lemma advance_busy t a st u :
  waiting t a st -> (t <= u < t + wait)%Z ->
  exists st', advance 2 (Some u) st = Some st' /\ waiting t a st' /\ d_log st' = d_log st /\
    forall due, d_timeout st' = Some due -> (u < due)%Z.
Proof.
  intros (Ht & Ha & due & Hd & Hb) Hu. destruct (Z.le_gt_cases due u) as [Hle|Hgt].
  - rewrite (advance_fire 1 (Some u) st due) by (done || by apply Z.leb_le).
    unfold d_later. rewrite Ht.
    rewrite (proj2 (Z.ltb_lt (due - t) wait)), (proj2 (Z.leb_le 0 (due - t))) by lia.
    cbn [andb advance d_timeout due_by]. rewrite (proj2 (Z.leb_gt _ u)) by lia.
    eexists. split; [reflexivity|]. split_and!; simpl.
    + split_and!; [done|done|]. eexists. split; [done|]. lia.
    + done.
    + intros d [= <-]. lia.
  - exists st. cbn [advance]. rewrite Hd. cbn [due_by]. rewrite (proj2 (Z.leb_gt due u)) by lia.
    split_and!; [done| |done|].
    + split_and!; [done|done|]. exists due. done.
    + intros d Hd'. simplify_eq. lia.
Qed.

Lemma call_waiting t a t0 a0 st :
  (0 <= wait)%Z -> waiting t0 a0 st -> (t0 <= t < t0 + wait)%Z -> (forall due, d_timeout st = Some due -> t < due)%Z ->
  waiting t a (debounce_call t a st) /\ d_log (debounce_call t a st) = d_log st.
Proof.
  intros Hw (Ht & Ha & due & Hd & Hb) Hu Hlt. specialize (Hlt due Hd).
  unfold debounce_call. rewrite Hd. rewrite bool_decide_false, andb_false_r by done.
  split; [|done]. split_and!; [done|done|]. exists due. split; [done|]. lia.
Qed.

Lemma call_idle t a st :
  (0 <= wait)%Z -> d_timeout st = None ->
  waiting t a (debounce_call t a st) /\
  d_log (debounce_call t a st) = d_log st ++ (if immediate then [(t, Some a)] else []).
Proof.
  intros Hw Hd. unfold debounce_call. rewrite Hd, bool_decide_true, andb_true_r by done.
  destruct immediate eqn:Ei; simpl; (split; [|by rewrite ?app_nil_r]);
    (split_and!; [done|intros ?; simpl; congruence|]); eexists; (split; [done|lia]).
Qed.

Lemma debounce_run_waiting calls t a st :
  (0 <= wait)%Z -> waiting t a st -> StronglySorted Z.le (t :: map fst calls) ->
  exists st', debounce_run calls st = Some st' /\ d_timeout st' = None /\
    d_log st' = d_log st ++ (if immediate then burst_starts (Some t) calls else quiet_ends ((t, a) :: calls)).
Proof.
  intros Hw. revert t a st. induction calls as [|[t' a'] calls IH]; intros t a st Hwait Hs;
    cbn [debounce_run burst_starts quiet_ends].
  { destruct (advance_quiet t a st None Hw Hwait eq_refl) as (st' & E & H1 & H2).
    exists st'. split_and!; [done|done|]. rewrite H2. by destruct immediate. }
  apply StronglySorted_inv in Hs as [Hs Hall]. simpl in Hs, Hall. apply Forall_cons in Hall as [Hle _].
  destruct (Z.leb_spec (t + wait) t') as [Hq|Hq].
  - destruct (advance_quiet t a st (Some t') Hw Hwait) as (st1 & E1 & H1 & H2); [simpl; lia|].
    rewrite E1. cbn [mbind option_bind]. destruct (call_idle t' a' st1 Hw H1) as [H3 H4].
    destruct (IH t' a' _ H3 Hs) as (st' & -> & H5 & H6). exists st'. split_and!; [done|done|].
    rewrite H6, H4, H2. destruct immediate; rewrite ?app_nil_r, <- ?app_assoc; done.
  - destruct (advance_busy t a st t' Hwait) as (st1 & E1 & H1 & H2 & H3); [lia|].
    rewrite E1. cbn [mbind option_bind]. destruct (call_waiting t' a' t a st1 Hw H1) as [H4 H5]; [lia|done|].
    destruct (IH t' a' _ H4 Hs) as (st' & -> & H6 & H7). exists st'. split_and!; [done|done|].
    rewrite H7, H5, H2. by destruct immediate.
Qed.

(** C27. Debouncing, with timers that fire when they are due: on the trailing
    edge the function runs exactly [wait] milliseconds after each call that no
    other call follows within that time, with the arguments of that call; on
    the leading edge it runs exactly at the calls that no other call precedes
    within that time.  In the end no timer is left, so the timer function
    stops rearming itself. *)
Theorem debounce_bursts (calls : list (Z * A)) :
  (0 <= wait)%Z -> StronglySorted Z.le (map fst calls) ->
  exists st, debounce_run calls debounce = Some st /\ d_timeout st = None /\
    d_log st = if immediate then burst_starts None calls else quiet_ends calls.
Proof.
  intros Hw Hs. destruct calls as [|[t a] calls].
  { exists debounce. split_and!; [done|done|]. by destruct immediate. }
  cbn [debounce_run advance d_timeout debounce mbind option_bind].
  destruct (call_idle t a debounce Hw eq_refl) as [H1 H2].
  destruct (debounce_run_waiting calls t a _ Hw H1 Hs) as (st & -> & H3 & H4).
  exists st. split_and!; [done|done|]. rewrite H4, H2. by destruct immediate.
Qed.
End Debounce.

Lemma debounce_bursts_witness :
  exists st, debounce_run 50 false [(0%Z, 1); (30%Z, 2); (200%Z, 3)] debounce = Some st /\ d_timeout st = None /\
    d_log st = quiet_ends 50 [(0%Z, 1); (30%Z, 2); (200%Z, 3)].
Proof.
  apply (debounce_bursts 50 false); [lia|]. simpl.
  repeat first [apply SSorted_nil | apply SSorted_cons | apply Forall_nil_2 | apply Forall_cons_2 | lia].
Defined.

Example debounce_example :
  d_log <$> debounce_run 50 false [(0%Z, 1); (30%Z, 2); (200%Z, 3)] debounce = Some [(80%Z, Some 2); (250%Z, Some 3)] /\
  d_log <$> debounce_run 50 true [(0%Z, 1); (30%Z, 2); (200%Z, 3)] debounce = Some [(0%Z, Some 1); (200%Z, Some 3)].
Proof. by vm_compute. Qed.

(** ** [_.memoize] *)

Section Memoize.
Context {K V : Type} (hasher : K -> jsstr).

(** The function may return another value at each call: its second argument
    counts the calls before. *)
Variable func : K -> nat -> V.

(** What [cache["__proto__"]] reads as after a value has been assigned to it:
    that property is never the cache's own. *)
Variable proto_of : V -> V.

Record memo := Memo { cache : gmap jsstr V; computed : list K }.

Definition memoize : memo := Memo ∅ [].

Definition memo_call (key : K) (m : memo) : V * memo :=
  let address := hasher key in
  match cache m !! address with
  | Some v => (v, m)
  | None =>
      let v := func key (length (computed m)) in
      if decide (address = «"__proto__"») then (proto_of v, Memo (cache m) (computed m ++ [key]))
      else (v, Memo (<[address := v]> (cache m)) (computed m ++ [key]))
  end.

Fixpoint memo_calls (keys : list K) (m : memo) : list V * memo :=
  match keys with
  | [] => ([], m)
  | key :: keys =>
      let '(v, m) := memo_call key m in
      let '(vs, m) := memo_calls keys m in
      (v :: vs, m)
  end.

(** The cache holds what each of the calls of the function returned. *)
Definition memo_inv (m : memo) : Prop :=
  NoDup (map hasher (computed m)) /\
  forall address v, cache m !! address = Some v <->
    exists j key, computed m !! j = Some key /\ hasher key = address /\ v = func key j.

Lemma memo_call_inv key m :
  hasher key <> «"__proto__"» -> memo_inv m ->
  memo_inv (memo_call key m).2 /\ computed m `prefix_of` computed (memo_call key m).2 /\
  cache (memo_call key m).2 !! hasher key = Some (memo_call key m).1.
Proof.
  intros Hp [Hnd Hc]. unfold memo_call. destruct (cache m !! hasher key) as [v|] eqn:E; [done|].
  rewrite decide_False by done. simpl.
  assert (forall j k, computed m !! j = Some k -> hasher k <> hasher key) as Hnew.
  { intros j k Hj Hk. assert (cache m !! hasher key = Some (func k j)) as Hv by (apply Hc; eauto).
    congruence. }
  split_and!; [split; cbn [computed cache]|by apply prefix_app_r|by apply lookup_insert_eq].
  - rewrite map_app. simpl. apply NoDup_app. split_and!; [done| |apply NoDup_singleton].
    intros a Ha [-> | ?]%elem_of_cons; [|set_solver]. apply list_elem_of_fmap in Ha as (k & Hk & Ha).
    apply list_elem_of_lookup in Ha as [j Hj]. by destruct (Hnew j k Hj).
  - intros address v. destruct (decide (address = hasher key)) as [->|Hne].
    + rewrite lookup_insert_eq. split.
      * intros [= <-]. exists (length (computed m)), key. split_and!; [|done|done].
        by rewrite lookup_app_r, Nat.sub_diag.
      * intros (j & k & Hj & Hk & ->). apply lookup_app_Some in Hj as [Hj|[Hge Hj]].
        -- by destruct (Hnew j k Hj).
        -- apply list_lookup_singleton_Some in Hj as [Hj <-]. by replace j with (length (computed m)) by lia.
    + rewrite lookup_insert_ne, Hc by done. split; intros (j & k & Hj & Hk & ->); exists j, k.
      * split_and!; [|done|done]. rewrite lookup_app_l; [done|by eapply lookup_lt_Some].
      * split_and!; [|done|done]. apply lookup_app_Some in Hj as [Hj|[_ Hj]]; [done|].
        apply list_lookup_singleton_Some in Hj as [_ <-]. congruence.
Qed.

Lemma memo_calls_inv keys m :
  Forall (fun key => hasher key <> «"__proto__"») keys -> memo_inv m ->
  memo_inv (memo_calls keys m).2 /\ computed m `prefix_of` computed (memo_calls keys m).2 /\
  Forall2 (fun key v => cache (memo_calls keys m).2 !! hasher key = Some v) keys (memo_calls keys m).1.
Proof.
  intros Hall. revert m. induction Hall as [|key keys Hk _ IH]; intros m Hm; simpl; [done|].
  destruct (memo_call_inv key m Hk Hm) as (H1 & H2 & H3).
  destruct (memo_call key m) as [v m1]. simpl in *. destruct (IH m1 H1) as (H4 & H5 & H6).
  destruct (memo_calls keys m1) as [vs m2]. simpl in *. split_and!; [done|by etrans|].
  constructor; [|done]. apply H4. apply H1 in H3 as (j & k & Hj & Hh & ->).
  exists j, k. split_and!; [|done|done]. by apply (prefix_lookup_Some _ _ _ _ Hj).
Qed.

(** A memoized function computes once for each address: in any sequence of
    calls the function runs at most once for each value of the hash, and every
    call returns what that one run returned, even if the function would return
    something else later.  (The address [__proto__] is the exception: it is
    never cached.) *)
Theorem memoize_once_per_address (keys : list K) :
  Forall (fun key => hasher key <> «"__proto__"») keys ->
  let '(vs, m) := memo_calls keys memoize in
  NoDup (map hasher (computed m)) /\
  Forall2 (fun key v => exists j k, computed m !! j = Some k /\ hasher k = hasher key /\ v = func k j) keys vs.
Proof.
  intros Hall. destruct (memo_calls_inv keys memoize Hall) as (H1 & _ & H2).
  { split; [constructor|]. intros address v. simpl. rewrite lookup_empty. split; [done|].
    by intros (j & key & Hj & _). }
  destruct (memo_calls keys memoize) as [vs m]. simpl in *. split; [by destruct H1|].
  eapply Forall2_impl; [exact H2|]. intros key v Hv. by apply H1.
Qed.
End Memoize.

Lemma memoize_once_per_address_witness :
  let '(vs, m) := memo_calls (fun n : nat => if decide (n < 2) then «"a"» else «"b"») (fun n j => n + 10 * j)
                    id [0; 1; 5; 0] memoize in
  NoDup (map (fun n : nat => if decide (n < 2) then «"a"» else «"b"») (computed m)) /\
  Forall2 (fun key v => exists j k, computed m !! j = Some k /\
    (if decide (k < 2) then «"a"» else «"b"») = (if decide (key < 2) then «"a"» else «"b"») /\
    v = k + 10 * j) [0; 1; 5; 0] vs.
Proof.
  apply (memoize_once_per_address (fun n : nat => if decide (n < 2) then «"a"» else «"b"»)).
  repeat constructor; discriminate.
Defined.

(** ** [_.after], [_.before], [_.once], [_.compose] *)

(** The counter of [_.after]; the function runs when the result is true. *)
Definition after_call (times : Z) : bool * Z := let times := (times - 1)%Z in ((times <? 1)%Z, times).

(** Whether the function runs in each of the next [n] calls. *)
Fixpoint after_calls (n : nat) (times : Z) : list bool :=
  match n with
  | O => []
  | S n => let '(runs, times) := after_call times in runs :: after_calls n times
  end.

Section Before.
Context {V : Type}.

(** The value of the j-th run of the function. *)
Variable func : nat -> V.

Record before_state := BeforeState { times : Z; memo_value : option V; runs : nat }.

Definition before (times : Z) : before_state := BeforeState times None 0.

Definition before_call (st : before_state) : option V * before_state :=
  let times := (times st - 1)%Z in
  let st := if (0 <? times)%Z then BeforeState times (Some (func (runs st))) (S (runs st))
            else BeforeState times (memo_value st) (runs st) in
  (memo_value st, st).

Fixpoint before_calls (n : nat) (st : before_state) : list (option V) * before_state :=
  match n with
  | O => ([], st)
  | S n => let '(v, st) := before_call st in
           let '(vs, st) := before_calls n st in (v :: vs, st)
  end.

(** [_.once] is [_.before] with two. *)
Definition once : before_state := before 2.

Lemma before_calls_spec n t memo r :
  before_calls n (BeforeState t memo r) =
  (map (fun k => if decide (t <= 1)%Z then memo else Some (func (r + Nat.min k (Z.to_nat (t - 2))))) (seq 0 n),
   BeforeState (t - Z.of_nat n)
     (if decide ((t <= 1)%Z \/ n = 0) then memo else Some (func (r + Nat.min (n - 1) (Z.to_nat (t - 2)))))
     (r + Nat.min n (Z.to_nat (t - 1)))).
Proof.
  revert t memo r. induction n as [|n IH]; intros t memo r.
  { cbn [before_calls]. rewrite decide_True by (by right). f_equal. f_equal; lia. }
  cbn [before_calls before_call times runs]. unfold before_call. cbn [times runs memo_value].
  destruct (Z.ltb_spec 0 (t - 1)) as [Hlt|Hge]; rewrite IH; cbn [memo_value].
  - rewrite (decide_False (P := (t <= 1)%Z \/ S n = 0)) by lia. f_equal; [|f_equal].
    + cbn [seq map]. rewrite (decide_False (P := (t <= 1)%Z)) by lia. f_equal; [by rewrite Nat.add_0_r|].
      rewrite <- seq_shift, map_map. apply map_ext. intros k. rewrite (decide_False (P := (t <= 1)%Z)) by lia.
      destruct (decide (t - 1 <= 1)%Z); do 2 f_equal; lia.
    + lia.
    + destruct (decide ((t - 1 <= 1)%Z \/ n = 0)); do 2 f_equal; lia.
    + lia.
  - rewrite (decide_True (P := (t <= 1)%Z \/ S n = 0)) by lia. f_equal; [|f_equal].
    + cbn [seq map]. rewrite (decide_True (P := (t <= 1)%Z)) by lia. f_equal.
      rewrite <- seq_shift, map_map. apply map_ext. intros k.
      rewrite !decide_True by lia. done.
    + lia.
    + by rewrite decide_True by lia.
    + lia.
Qed.
End Before.

(** Counting calls: the k-th call (from 1) of [_.after(t, f)] runs [f] just
    when [t <= k]; [_.before(t, f)] runs it in the first [t - 1] calls and then
    returns the last of their results for ever. *)
Theorem counted_calls {V} (func : nat -> V) (n : nat) (t : Z) :
  after_calls n t = map (fun k => bool_decide (t <= Z.of_nat k + 1)%Z) (seq 0 n) /\
  let '(vs, st) := before_calls func n (before t) in
  runs st = Nat.min n (Z.to_nat (t - 1)) /\
  vs = map (fun k => if decide (t <= 1)%Z then None else Some (func (Nat.min k (Z.to_nat (t - 2))))) (seq 0 n).
Proof.
  split.
  - revert t. induction n as [|n IH]; intros t; [done|]. cbn [after_calls after_call seq map].
    f_equal.
    + symmetry. destruct (Z.ltb_spec (t - 1) 1); [apply bool_decide_true|apply bool_decide_false]; lia.
    + rewrite IH, <- seq_shift, map_map. apply map_ext. intros k. apply bool_decide_ext. lia.
  - unfold before. rewrite before_calls_spec. done.
Qed.

Example once_example :
  before_calls (fun j => j + 100) 3 once = ([Some 100; Some 100; Some 100], BeforeState (-1) (Some 100) 1).
Proof. by vm_compute. Qed.

(** [_.compose(...args)] on one value: the last function first; [i] counts
    down.  Without functions the call throws. *)
Fixpoint compose_loop {V} (i : nat) (fs : list (V -> V)) (result : V) : V :=
  match i with
  | O => result
  | S i => compose_loop i fs (default id (fs !! i) result)
  end.

Definition compose_ {V} (fs : list (V -> V)) (x : V) : option V :=
  match fs with [] => None | _ => Some (compose_loop (length fs) fs x) end.

Lemma compose_fold {V} (fs : list (V -> V)) x :
  fs <> [] -> compose_ fs x = Some (fold_right (fun f y => f y) x fs).
Proof.
  intros Hne. unfold compose_. destruct fs as [|f0 fs0]; [done|]. f_equal. revert x.
  generalize (f0 :: fs0). clear Hne f0 fs0. intros fs. induction fs as [|f fs IH] using rev_ind; intros x; [done|].
  rewrite length_app, Nat.add_comm. cbn [length Nat.add compose_loop].
  rewrite lookup_app_r, Nat.sub_diag, fold_right_app by done. cbn [fold_right].
  rewrite <- IH. change (default id ([f] !! 0) x) with (f x).
  assert (forall i z, i <= length fs -> compose_loop i (fs ++ [f]) z = compose_loop i fs z) as H.
  { induction i as [|i IHi]; intros z Hi; [done|]. cbn [compose_loop].
    rewrite lookup_app_l, IHi by lia. done. }
  by apply H.
Qed.

(** ** bind, partial, wrap, delay, defer *)

Section Partial.
Context {V : Type} (undefined : V).
(** [boundArgs[i] === _] *)
Context (is_placeholder : V -> bool).

(** The arguments of a partially applied function: placeholders take the
    arguments of the call in turn, the rest of them follow. *)
Fixpoint partial_args (boundArgs args : list V) : list V :=
  match boundArgs with
  | [] => args
  | b :: boundArgs =>
      if is_placeholder b then default undefined (head args) :: partial_args boundArgs (tail args)
      else b :: partial_args boundArgs args
  end.

(** [executeBound(sourceFunc, boundFunc, context, callingContext, args)]: a
    call with [new] runs the function on a new object and returns that unless
    the function returns an object itself. *)
Definition executeBound (apply : V -> list V -> V) (is_object : V -> bool) (new_object context : V) (called_with_new : bool)
    (args : list V) : V :=
  if called_with_new then
    let result := apply new_object args in if is_object result then result else new_object
  else apply context args.

(** [_.bind(func, context, ...args)] *)
Definition bind_ (apply : V -> list V -> V) (is_object : V -> bool) (new_object context : V) (args : list V)
    (called_with_new : bool) (more : list V) : V :=
  executeBound apply is_object new_object context called_with_new (args ++ more).

(** [_.partial(func, ...boundArgs)], where the calling context stays. *)
Definition partial (apply : V -> list V -> V) (is_object : V -> bool) (new_object this : V) (boundArgs : list V)
    (called_with_new : bool) (more : list V) : V :=
  executeBound apply is_object new_object this called_with_new (partial_args boundArgs more).

(** [_.wrap(func, wrapper)] and the arguments that [_.defer] gives to
    [_.delay]: the function, the time, its arguments. *)
Definition wrap_args (func : V) (args : list V) : list V := partial_args [func] args.
Definition defer_args (hole one : V) (args : list V) : list V := partial_args [hole; one] args.

Lemma partial_args_plain boundArgs args :
  Forall (fun b => is_placeholder b = false) boundArgs -> partial_args boundArgs args = boundArgs ++ args.
Proof. induction 1 as [|b bs Hb _ IH]; [done|]. cbn [partial_args app]. by rewrite Hb, IH. Qed.

(** Partial application in two steps is partial application in one. *)
Lemma partial_args_twice b1 b2 args :
  Forall (fun b => is_placeholder b = false) b2 -> length (List.filter is_placeholder b1) <= length b2 ->
  partial_args b1 (partial_args b2 args) = partial_args (partial_args b1 b2) args.
Proof.
  intros Hb2. revert b2 Hb2. induction b1 as [|b b1 IH]; intros b2 Hb2 Hl; [done|]. cbn [partial_args List.filter] in *.
  destruct (is_placeholder b) eqn:E.
  - destruct b2 as [|c b2]; cbn [length] in Hl; [lia|]. apply Forall_cons in Hb2 as [Hc Hb2].
    cbn [partial_args]. rewrite Hc. cbn [head tail default from_option partial_args]. unfold id. rewrite Hc.
    f_equal. apply IH; [done|lia].
  - cbn [partial_args]. rewrite E. f_equal. by apply IH.
Qed.

Lemma defer_args_order hole one func args :
  is_placeholder hole = true -> is_placeholder one = false -> defer_args hole one (func :: args) = func :: one :: args.
Proof. intros H1 H2. unfold defer_args. cbn [partial_args]. by rewrite H1, H2. Qed.
End Partial.
