(* ===== verification/UnderscoreText.v ===== *)
(** * underscore: escaping and templates

    [_.escape], [_.unescape], the string literals of [_.template] and its
    scanner, from module 25 of wordcut.js, with the default template
    settings. *)

From S2P Require Import Prelude.

Definition starts_with (p s : jsstr) : bool := bool_decide (take (length p) s = p).

Lemma starts_with_app p s : starts_with p (p ++ s) = true.
Proof. apply bool_decide_true. by rewrite take_app_length. Qed.

Lemma starts_with_take p s : starts_with p s = true -> s = p ++ drop (length p) s.
Proof. intros H%bool_decide_eq_true. rewrite <- H at 1. by rewrite take_drop. Qed.

(** ** HTML entities *)

Definition escapeMap : list (jsstr * jsstr) :=
  [(«"&"», «"&amp;"»); («"<"», «"&lt;"»); («">"», «"&gt;"»); ([34%N], «"&quot;"»);
   («"'"», «"&#x27;"»); («"`"», «"&#x60;"»)].

(** [_.invert]; the values of [escapeMap] are distinct. *)
Definition invert (m : list (jsstr * jsstr)) : list (jsstr * jsstr) := map (fun p => (p.2, p.1)) m.

Definition unescapeMap : list (jsstr * jsstr) := invert escapeMap.

(** The first alternative of [(?:k1|k2|...)] that matches at the start. *)
Fixpoint match_keys (m : list (jsstr * jsstr)) (s : jsstr) : option (jsstr * jsstr) :=
  match m with
  | [] => None
  | (k, v) :: m => if starts_with k s then Some (k, v) else match_keys m s
  end.

(** [string.replace(regexp, escaper)] with the flag [g]: [skip] characters
    belong to the last match. *)
Fixpoint replace_all (m : list (jsstr * jsstr)) (skip : nat) (s : jsstr) : jsstr :=
  match s with
  | [] => []
  | c :: s' =>
      match skip with
      | S skip => replace_all m skip s'
      | O => match match_keys m s with
             | Some (k, v) => v ++ replace_all m (length k - 1) s'
             | None => c :: replace_all m 0 s'
             end
      end
  end.

(** [regexp.test(string)] *)
Fixpoint test_keys (m : list (jsstr * jsstr)) (s : jsstr) : bool :=
  match s with
  | [] => false
  | c :: s' => bool_decide (match_keys m s <> None) || test_keys m s'
  end.

(** The functions that [createEscaper] makes; [None] is null or undefined. *)
Definition createEscaper (m : list (jsstr * jsstr)) (string : option jsstr) : jsstr :=
  let string := default [] string in
  if test_keys m string then replace_all m 0 string else string.

Definition escape := createEscaper escapeMap.
Definition unescape := createEscaper unescapeMap.

Lemma replace_all_test m s : test_keys m s = false -> replace_all m 0 s = s.
Proof.
  induction s as [|c s IH]; [done|]. cbn [test_keys replace_all].
  intros [H1 H2]%orb_false_iff. apply bool_decide_eq_false in H1.
  destruct (match_keys m (c :: s)) as [p|]; [by destruct H1|]. by rewrite IH.
Qed.

Lemma createEscaper_replace m s : createEscaper m (Some s) = replace_all m 0 s.
Proof.
  unfold createEscaper. cbn [from_option id]. destruct (test_keys m s) eqn:E; [done|].
  by rewrite replace_all_test.
Qed.

(** The text that stands for a character. *)
Definition entity (c : N) : jsstr :=
  match match_keys escapeMap [c] with Some (_, v) => v | None => [c] end.

Lemma match_escape c s : match_keys escapeMap (c :: s) = match_keys escapeMap [c].
Proof. done. Qed.

(** A character is one of the six keys, or stands for itself. *)
Lemma escape_cases c :
  (exists v, ([c], v) ∈ escapeMap /\ match_keys escapeMap [c] = Some ([c], v)) \/
  (match_keys escapeMap [c] = None /\ c <> 38%N).
Proof.
  destruct (decide (c ∈ [38; 60; 62; 34; 39; 96]%N)) as [Hin|Hni].
  - left. repeat (apply elem_of_cons in Hin as [-> | Hin];
      [eexists; split; [apply list_elem_of_In; cbn; tauto|reflexivity]|]). by apply elem_of_nil in Hin.
  - right. split; [|set_solver]. unfold match_keys, starts_with. cbn.
    rewrite !bool_decide_false by (intros [= ->]; set_solver). done.
Qed.

Lemma escape_entities s : escape (Some s) = concat (map entity s).
Proof.
  unfold escape. rewrite createEscaper_replace. induction s as [|c s IH]; [done|].
  cbn [replace_all map concat]. rewrite match_escape. unfold entity at 1.
  destruct (escape_cases c) as [(v & _ & ->)|[-> _]]; cbn [length Nat.sub]; by rewrite IH.
Qed.

Lemma match_unescape_plain c s : c <> 38%N -> match_keys unescapeMap (c :: s) = None.
Proof.
  intros Hc. unfold match_keys, unescapeMap, escapeMap, invert, starts_with. cbn.
  by rewrite !bool_decide_false by (intros ?; simplify_eq).
Qed.

Lemma unescape_entity c s :
  replace_all unescapeMap 0 (entity c ++ s) = c :: replace_all unescapeMap 0 s.
Proof.
  unfold entity. destruct (escape_cases c) as [(v & Hin & ->)|[-> Hc]].
  - apply list_elem_of_In in Hin. cbn in Hin.
    repeat (destruct Hin as [[= <- <-]|Hin]; [reflexivity|]). done.
  - cbn [app replace_all]. by rewrite match_unescape_plain.
Qed.

Lemma safe_chars bad v :
  forallb (fun c => negb (existsb (N.eqb c) bad)) v = true -> Forall (fun c => c ∉ bad) v.
Proof.
  intros H%forallb_Forall. eapply Forall_impl; [exact H|]. intros c Hc Hin. simpl in Hc.
  apply negb_true_iff, not_true_iff_false in Hc. apply Hc, existsb_exists. exists c.
  split; [by apply list_elem_of_In|apply N.eqb_refl].
Qed.

Abbreviation markup := [60; 62; 34; 39; 96]%N.

Lemma entity_safe c : Forall (fun c => c ∉ markup) (entity c).
Proof.
  unfold entity. destruct (escape_cases c) as [(v & Hin & ->)|[E Hc]].
  - apply list_elem_of_In in Hin. cbn in Hin.
    repeat (destruct Hin as [[= <- <-]|Hin]; [by apply safe_chars|]). done.
  - rewrite E. constructor; [|done]. intros Hin. revert E.
    repeat (apply elem_of_cons in Hin as [-> | Hin]; [done|]). by apply elem_of_nil in Hin.
Qed.

Lemma escape_safe s : Forall (fun c => c ∉ markup) (escape (Some s)).
Proof. rewrite escape_entities. induction s as [|c s IH]; [done|]. cbn [map concat]. apply Forall_app. split; [apply entity_safe|done]. Qed.

(** C31. [_.unescape] inverts [_.escape], and the escaped text is safe in HTML
    text and attributes: it contains none of the characters below as it
    stands, and an ampersand only at the start of an entity. *)
Theorem unescape_escape (s : jsstr) :
  unescape (Some (escape (Some s))) = s /\
  Forall (fun c => c ∉ markup) (escape (Some s)) /\
  forall i, escape (Some s) !! i = Some 38%N -> match_keys unescapeMap (drop i (escape (Some s))) <> None.
Proof.
  split_and!; [|apply escape_safe|]; rewrite escape_entities; unfold unescape; rewrite ?createEscaper_replace.
  - induction s as [|c s IH]; [done|]. cbn [map concat]. by rewrite unescape_entity, IH.
  - induction s as [|c s IH3]; [done|]. cbn [map concat]. intros i Hi. apply lookup_app_Some in Hi as [Hi|[Hge Hi]].
    + unfold entity in *. destruct (escape_cases c) as [(v & Hin & E)|[E Hc]]; rewrite E in *.
      * apply list_elem_of_In in Hin. cbn in Hin.
        repeat (destruct Hin as [[= <- <-]|Hin];
          [destruct i as [|i]; [vm_compute; discriminate|]; exfalso; revert Hi;
           do 6 (destruct i as [|i]; [discriminate|]); discriminate|]). done.
      * destruct i; simplify_eq/=.
    + rewrite drop_app_ge by done. by apply IH3.
Qed.

(** ** Templates *)

(** [escapes] and [escapeChar]: the characters that cannot stand in a string
    literal in single quotes. *)
Definition escapeChar (c : N) : jsstr :=
  if (c =? 39)%N then «"\'"»
  else if (c =? 92)%N then «"\\"»
  else if (c =? 13)%N then «"\r"»
  else if (c =? 10)%N then «"\n"»
  else if (c =? 8232)%N then «"\u2028"»
  else if (c =? 8233)%N then «"\u2029"»
  else [c].

(** [text.replace(escaper, escapeChar)] *)
Definition literal_text (s : jsstr) : jsstr := concat (map escapeChar s).

Inductive token := TText (s : jsstr) | TEscape (code : jsstr) | TInterpolate (code : jsstr) | TEvaluate (code : jsstr).

(** [([\s\S]+?)%>]: the shortest non-empty code before a closing delimiter. *)
Fixpoint close_at (s : jsstr) : option nat :=
  if starts_with «"%>"» s then Some 0
  else match s with [] => None | _ :: s => S <$> close_at s end.

Definition code_end (s : jsstr) : option nat :=
  match s with [] => None | _ :: s => S <$> close_at s end.

(** One alternative of the matcher: its token and the length of the match. *)
Definition tag_alt (op : jsstr) (tok : jsstr -> token) (s : jsstr) : option (token * nat) :=
  if starts_with op s then
    n ← code_end (drop (length op) s);
    Some (tok (take n (drop (length op) s)), length op + n + 2)
  else None.

Definition tag (s : jsstr) : option (token * nat) :=
  match tag_alt «"<%-"» TEscape s with
  | Some r => Some r
  | None =>
      match tag_alt «"<%="» TInterpolate s with
      | Some r => Some r
      | None => tag_alt «"<%"» TEvaluate s
      end
  end.

(** The matches of the matcher from left to right with the text between them;
    [skip] characters belong to the last match. *)
Fixpoint scan (skip : nat) (text acc : jsstr) : list token :=
  match text with
  | [] => [TText acc]
  | c :: text' =>
      match skip with
      | S skip => scan skip text' acc
      | O => match tag text with
             | Some (tok, len) => TText acc :: tok :: scan (len - 1) text' []
             | None => scan 0 text' (acc ++ [c])
             end
      end
  end.

(** What the callback of [text.replace] appends to [source]. *)
Definition token_source (tok : token) : jsstr :=
  match tok with
  | TText s => literal_text s
  | TEscape code => «"'+"» ++ [10%N] ++ «"((__t=("» ++ code ++ «"))==null?'':_.escape(__t))+"» ++ [10%N] ++ «"'"»
  | TInterpolate code => «"'+"» ++ [10%N] ++ «"((__t=("» ++ code ++ «"))==null?'':__t)+"» ++ [10%N] ++ «"'"»
  | TEvaluate code => «"';"» ++ [10%N] ++ code ++ [10%N] ++ «"__p+='"»
  end.

(** The source of the function; [variable] is the setting of that name. *)
Definition template_source (variable : option jsstr) (text : jsstr) : jsstr :=
  let source := «"__p+='"» ++ concat (map token_source (scan 0 text [])) ++ «"';"» ++ [10%N] in
  let source := match variable with
                | Some (_ :: _) => source
                | _ => «"with(obj||{}){"» ++ [10%N] ++ source ++ «"}"» ++ [10%N]
                end in
  «"var __t,__p='',__j=Array.prototype.join,print=function(){__p+=__j.call(arguments,'');};"» ++ [10%N] ++
  source ++ «"return __p;"» ++ [10%N].

(** ** What the source means *)

Definition hex_digit (c : N) : option N :=
  if in_range 48 57 c then Some (c - 48)%N
  else if in_range 97 102 c then Some (c - 87)%N
  else if in_range 65 70 c then Some (c - 55)%N else None.

(** The value of the body of a literal in single quotes, for the escapes that
    occur here; [None] if the literal ends early or is malformed. *)
Fixpoint literal_value (s : jsstr) : option jsstr :=
  match s with
  | [] => Some []
  | 92%N :: s =>
      match s with
      | 114%N :: s => cons 13%N <$> literal_value s
      | 110%N :: s => cons 10%N <$> literal_value s
      | 117%N :: a :: b :: c :: d :: s =>
          a ← hex_digit a; b ← hex_digit b; c ← hex_digit c; d ← hex_digit d;
          cons (((a * 16 + b) * 16 + c) * 16 + d)%N <$> literal_value s
      | (39%N as c) :: s | (92%N as c) :: s => cons c <$> literal_value s
      | _ => None
      end
  | c :: s =>
      if bool_decide (c ∈ [39; 10; 13; 8232; 8233]%N) then None else cons c <$> literal_value s
  end.

(** The text of a template that a token was read from. *)
Definition token_text (tok : token) : jsstr :=
  match tok with
  | TText s => s
  | TEscape code => «"<%-"» ++ code ++ «"%>"»
  | TInterpolate code => «"<%="» ++ code ++ «"%>"»
  | TEvaluate code => «"<%"» ++ code ++ «"%>"»
  end.

Lemma close_at_spec s n :
  close_at s = Some n -> take (n + 2) s = take n s ++ «"%>"».
Proof.
  revert n. induction s as [|c s IH]; intros n; cbn [close_at]; [done|].
  destruct (starts_with _ _) eqn:E.
  - intros [= <-]. by apply bool_decide_eq_true in E.
  - destruct (close_at s) as [m|]; [|done]. intros [= <-]. cbn [Nat.add take app]. f_equal. by apply IH.
Qed.

Lemma tag_alt_spec op tok s r len :
  op <> [] -> tag_alt op tok s = Some (r, len) ->
  0 < len /\ exists code, r = tok code /\ code <> [] /\ take len s = op ++ code ++ «"%>"».
Proof.
  intros Hop. unfold tag_alt. destruct (starts_with op s) eqn:E; [|done].
  apply starts_with_take in E. set (rest := drop (length op) s) in *. clearbody rest. subst s.
  destruct rest as [|c rest]; [done|]. cbn [code_end].
  destruct (close_at rest) as [n|] eqn:Ec; [|done]. intros [= <- <-].
  split; [lia|]. exists (take (S n) (c :: rest)). split_and!; [done|done|].
  rewrite <- Nat.add_assoc, take_app_add. f_equal.
  change (S n + 2) with (S (n + 2)). cbn [take app]. f_equal. by apply close_at_spec.
Qed.

Lemma tag_spec s tok len : tag s = Some (tok, len) -> 0 < len /\ take len s = token_text tok.
Proof.
  unfold tag. intros H.
  assert (exists op mk, op <> [] /\ tag_alt op mk s = Some (tok, len) /\
    forall code, token_text (mk code) = op ++ code ++ «"%>"») as (op & mk & Hop & Ht & Hp).
  { destruct (tag_alt «"<%-"» TEscape s) as [r|] eqn:E1; [by exists «"<%-"», TEscape; rewrite E1|].
    destruct (tag_alt «"<%="» TInterpolate s) as [r|] eqn:E2; [by exists «"<%="», TInterpolate; rewrite E2|].
    by exists «"<%"», TEvaluate. }
  destruct (tag_alt_spec op mk s tok len Hop Ht) as (Hlen & code & -> & _ & E). by rewrite E, Hp.
Qed.

Lemma scan_text skip text acc :
  concat (map token_text (scan skip text acc)) = acc ++ drop skip text.
Proof.
  revert skip acc. induction text as [|c text IH]; intros skip acc; cbn [scan].
  { simpl. by rewrite drop_nil. }
  destruct skip as [|skip]; [|by rewrite IH].
  destruct (tag (c :: text)) as [[tok len]|] eqn:E.
  - apply tag_spec in E as [Hlen E]. cbn [map concat token_text]. rewrite IH, <- E. cbn [app drop].
    f_equal. destruct len as [|len]; [lia|]. cbn [take app]. f_equal.
    rewrite Nat.sub_1_r. apply take_drop.
  - rewrite IH. rewrite <- app_assoc. by rewrite drop_0.
Qed.

Lemma literal_value_char c s : literal_value (escapeChar c ++ s) = cons c <$> literal_value s.
Proof.
  unfold escapeChar.
  repeat match goal with
  | |- context [(c =? ?k)%N] => destruct (N.eqb_spec c k) as [-> |]; [reflexivity|]
  end.
  cbn [app literal_value].
  assert (c ∉ [39; 10; 13; 8232; 8233]%N) as Hc
    by (rewrite !not_elem_of_cons; split_and!; [done..|apply not_elem_of_nil]).
  rewrite bool_decide_false by done.
  destruct c as [|p]; [done|]. repeat (destruct p as [p|p|]; try done).
Qed.

Lemma literal_value_text s : literal_value (literal_text s) = Some s.
Proof.
  unfold literal_text. induction s as [|c s IH]; [done|]. cbn [map concat].
  by rewrite literal_value_char, IH.
Qed.

(** Compiling a template loses no text: the tokens found, written back, are
    the template, and each piece of plain text becomes the body of a string
    literal whose value is that text again, whatever quotes, backslashes and
    line terminators it contains. *)
Theorem template_lossless (text : jsstr) :
  concat (map token_text (scan 0 text [])) = text /\
  Forall (fun tok => match tok with
                     | TText s => literal_value (token_source tok) = Some s
                     | _ => True
                     end) (scan 0 text []).
Proof.
  split; [by rewrite scan_text|]. apply Forall_forall. intros [s| | |] _; try done.
  apply literal_value_text.
Qed.

Example template_example :
  scan 0 «"Hello <%= name %>, it's <%- day %><% f() %>"» [] =
    [TText «"Hello "»; TInterpolate «" name "»; TText «", it's "»; TEscape «" day "»; TText []; TEvaluate «" f() "»; TText []].
Proof. by vm_compute. Qed.
