(* ===== verification/UnderscoreTemplate.v ===== *)
(** * underscore: running compiled templates

    What the function does that [_.template] compiles (module 25 of wordcut.js,
    lines 5936-5992): an interpreter for the sources that [template_source]
    makes, and the text that a template means.

    The expressions inside the tags belong to the user.  The grammar and the
    meaning of expressions are parameters: [parse] reads an expression from the
    front of a source, [eval] computes it in a state of the program with the
    data in scope, and may throw.  An expression does not call [print] and does
    not assign to the variables of the compiled function, and the data have no
    properties with the names of these variables.  Tags with statements, which
    may be parts of a statement each, are left out. *)

From S2P Require Import Prelude UnderscoreText.

(** [s] without [p] at its front *)
Definition strip (p s : jsstr) : option jsstr := if starts_with p s then Some (drop (length p) s) else None.

(** The value of a literal in single quotes, after the quote, and what follows
    the closing quote. *)
Fixpoint read_literal (s : jsstr) : option (jsstr * jsstr) :=
  let more c s := '(v, rest) ← read_literal s; Some (c :: v, rest) in
  match s with
  | [] => None
  | 39%N :: s => Some ([], s)
  | 92%N :: s =>
      match s with
      | 114%N :: s => more 13%N s
      | 110%N :: s => more 10%N s
      | 117%N :: a :: b :: c :: d :: s =>
          a ← hex_digit a; b ← hex_digit b; c ← hex_digit c; d ← hex_digit d;
          more (((a * 16 + b) * 16 + c) * 16 + d)%N s
      | (39%N as c) :: s | (92%N as c) :: s => more c s
      | _ => None
      end
  | c :: s => if bool_decide (c ∈ [10; 13; 8232; 8233]%N) then None else more c s
  end.

(** The parts of a source. *)
Definition nl : jsstr := [10%N].
Definition header : jsstr :=
  «"var __t,__p='',__j=Array.prototype.join,print=function(){__p+=__j.call(arguments,'');};"» ++ nl.
Definition with_open : jsstr := «"with(obj||{}){"» ++ nl.
Definition with_close : jsstr := «"}"» ++ nl.
Definition append : jsstr := «"__p+='"».
Definition end_statement : jsstr := «";"» ++ nl.
Definition open_test : jsstr := «"+"» ++ nl ++ «"((__t=("».
Definition null_test : jsstr := «"))==null?'':"».
Definition escape_value : jsstr := «"_.escape(__t))+"» ++ nl ++ «"'"».
Definition plain_value : jsstr := «"__t)+"» ++ nl ++ «"'"».
Definition return_text : jsstr := «"return __p;"» ++ nl.

(** [template.source], for precompilation *)
Definition precompiled (variable : option jsstr) (text : jsstr) : jsstr :=
  let argument := match variable with Some (c :: v) => c :: v | _ => «"obj"» end in
  «"function("» ++ argument ++ «"){"» ++ nl ++ template_source variable text ++ «"}"».

Section Run.
Context {E St : Type}.
Variable parse : jsstr -> option (E * jsstr).
(** What an expression comes to: it throws, or its value is nullish or
    converts to a text. *)
Variable eval : E -> St -> option (option jsstr) * St.

(** The rest of the statement [__p+='...'+...+'...';] after its first quote:
    the value of [__p] (none if an expression throws), the state, and the
    source after the statement. *)
Fixpoint statement (fuel : nat) (src p : jsstr) (st : St) : option (option jsstr * St * jsstr) :=
  match fuel with
  | O => None
  | S fuel =>
      '(text, src) ← read_literal src;
      let p := p ++ text in
      match strip end_statement src with
      | Some src => Some (Some p, st, src)
      | None =>
          src ← strip open_test src;
          '(e, src) ← parse src;
          src ← strip null_test src;
          match eval e st with
          | (None, st) => Some (None, st, src)
          | (Some v, st) =>
              match strip escape_value src with
              | Some src => statement fuel src (p ++ match v with Some t => escape (Some t) | None => [] end) st
              | None => src ← strip plain_value src; statement fuel src (p ++ default [] v) st
              end
          end
      end
  end.

(** The compiled function: [None] if the source is not of this form, else the
    text or an exception. *)
Definition run (src : jsstr) (st : St) : option (option jsstr * St) :=
  let fuel := length src in
  src ← strip header src;
  let '(scoped, src) := match strip with_open src with Some src => (true, src) | None => (false, src) end in
  src ← strip append src;
  '(p, st, src) ← statement fuel src [] st;
  match p with
  | None => Some (None, st)
  | Some p =>
      src ← (if scoped : bool then strip with_close src else Some src);
      src ← strip return_text src;
      match src with [] => Some (Some p, st) | _ => None end
  end.

(** ** What a template means *)

Variable expr : jsstr -> E.

(** The text that tokens stand for, one after the other from [p] on. *)
Fixpoint render (toks : list token) (p : jsstr) (st : St) : option jsstr * St :=
  match toks with
  | [] => (Some p, st)
  | TText s :: toks => render toks (p ++ s) st
  | TEscape code :: toks =>
      match eval (expr code) st with
      | (None, st) => (None, st)
      | (Some v, st) => render toks (p ++ match v with Some t => escape (Some t) | None => [] end) st
      end
  | TInterpolate code :: toks =>
      match eval (expr code) st with
      | (None, st) => (None, st)
      | (Some v, st) => render toks (p ++ default [] v) st
      end
  | TEvaluate _ :: toks => render toks p st
  end.

(** An expression ends where the test for null begins. *)
Definition reads (code : jsstr) : Prop :=
  forall rest, parse (code ++ null_test ++ rest) = Some (expr code, null_test ++ rest).

Definition value_token (tok : token) : Prop :=
  match tok with TText _ => True | TEscape code | TInterpolate code => reads code | TEvaluate _ => False end.

(** ** The source runs to its meaning *)

Lemma strip_app p s : strip p (p ++ s) = Some s.
Proof. unfold strip. by rewrite starts_with_app, drop_app_length. Qed.

Lemma read_literal_char c s : read_literal (escapeChar c ++ s) = '(v, rest) ← read_literal s; Some (c :: v, rest).
Proof.
  unfold escapeChar.
  repeat match goal with
  | |- context [(c =? ?k)%N] => destruct (N.eqb_spec c k) as [-> |]; [reflexivity|]
  end.
  cbn [app read_literal].
  assert (c ∉ [10; 13; 8232; 8233]%N) as Hc
    by (rewrite !not_elem_of_cons; split_and!; [done..|apply not_elem_of_nil]).
  rewrite bool_decide_false by done.
  destruct c as [|p]; [done|]. repeat (destruct p as [p|p|]; try done).
Qed.

Lemma read_literal_text s rest : read_literal (literal_text s ++ 39%N :: rest) = Some (s, rest).
Proof.
  unfold literal_text. induction s as [|c s IH]; [done|]. cbn [map concat].
  by rewrite <- app_assoc, read_literal_char, IH.
Qed.

Lemma literal_text_app s t : literal_text (s ++ t) = literal_text s ++ literal_text t.
Proof. unfold literal_text. by rewrite map_app, concat_app. Qed.

Lemma escape_source code :
  token_source (TEscape code) = 39%N :: open_test ++ code ++ null_test ++ escape_value.
Proof. reflexivity. Qed.

Lemma plain_source code :
  token_source (TInterpolate code) = 39%N :: open_test ++ code ++ null_test ++ plain_value.
Proof. reflexivity. Qed.

(** One tag in the source of a statement. *)
Lemma statement_value fuel pre code closing tail p st :
  reads code ->
  statement (S fuel) (literal_text pre ++ (39%N :: open_test ++ code ++ null_test ++ closing) ++ tail) p st =
    match eval (expr code) st with
    | (None, st) => Some (None, st, closing ++ tail)
    | (Some v, st) =>
        match strip escape_value (closing ++ tail) with
        | Some src => statement fuel src ((p ++ pre) ++ match v with Some t => escape (Some t) | None => [] end) st
        | None => src ← strip plain_value (closing ++ tail); statement fuel src ((p ++ pre) ++ default [] v) st
        end
    end.
Proof.
  intros Hr. cbn [statement]. rewrite <- app_comm_cons, read_literal_text. cbn [mbind option_bind].
  rewrite <- !app_assoc. change (strip end_statement (open_test ++ _)) with (@None jsstr).
  rewrite strip_app. cbn [mbind option_bind]. rewrite Hr. cbn [mbind option_bind]. rewrite strip_app. done.
Qed.

Lemma statement_renders toks : forall fuel pre p tail st,
  Forall value_token toks -> length toks < fuel ->
  exists rest,
    let '(r, st') := render toks (p ++ pre) st in
    statement fuel (literal_text pre ++ concat (map token_source toks) ++ 39%N :: end_statement ++ tail) p st =
      Some (r, st', rest) /\ (is_Some r -> rest = tail).
Proof.
  induction toks as [|tok toks IH]; intros fuel pre p tail st Ht Hf; (destruct fuel as [|fuel]; [cbn in Hf; lia|]).
  - exists tail. cbn [render statement map concat app]. rewrite read_literal_text. cbn [mbind option_bind].
    by rewrite strip_app.
  - inversion Ht as [|? ? Htok Htoks]; subst. cbn [length] in Hf. destruct tok as [s|code|code|code]; [| | |done].
    + cbn [map concat token_source render]. rewrite <- (app_assoc (literal_text s)), (app_assoc (literal_text pre)), <- literal_text_app.
      rewrite <- (app_assoc p). apply IH; [done|lia].
    + cbn [map concat render]. rewrite escape_source, <- app_assoc, statement_value by done.
      destruct (eval (expr code) st) as [[v|] st']; [|by eexists; split; [|intros []]].
      rewrite strip_app. specialize (IH fuel [] ((p ++ pre) ++ match v with Some t => escape (Some t) | None => [] end) tail st' Htoks).
      rewrite app_nil_r in IH. apply IH. lia.
    + cbn [map concat render]. rewrite plain_source, <- app_assoc, statement_value by done.
      destruct (eval (expr code) st) as [[v|] st']; [|by eexists; split; [|intros []]].
      change (strip escape_value (plain_value ++ _)) with (@None jsstr). rewrite strip_app. cbn [mbind option_bind].
      specialize (IH fuel [] ((p ++ pre) ++ default [] v) tail st' Htoks). rewrite app_nil_r in IH. apply IH. lia.
Qed.

(** There are not more tokens than characters of source. *)
Lemma tag_source_length s tok len : tag s = Some (tok, len) -> 2 <= length (token_source tok).
Proof.
  unfold tag, tag_alt. intros H.
  destruct (starts_with «"<%-"» s), (starts_with «"<%="» s), (starts_with «"<%"» s);
    repeat (destruct (code_end _); cbn [mbind option_bind] in H); simplify_eq; cbn [token_source]; rewrite length_app; cbn [length lit]; lia.
Qed.

Lemma scan_source_length skip text acc :
  length (scan skip text acc) <= S (length (concat (map token_source (scan skip text acc)))).
Proof.
  revert skip acc. induction text as [|c text IH]; intros skip acc; cbn [scan]; [cbn [length]; lia|].
  destruct skip as [|skip]; [|apply IH].
  destruct (tag (c :: text)) as [[tok len]|] eqn:Et; [|apply IH]. apply tag_source_length in Et.
  specialize (IH (len - 1) []). cbn [length map concat]. rewrite !length_app. lia.
Qed.

(** The source in its parts; [scoped] is whether the data are in scope. *)
Definition is_scoped (variable : option jsstr) : bool := match variable with Some (_ :: _) => false | _ => true end.

Definition after_append (scoped : bool) (toks : list token) : jsstr :=
  literal_text [] ++ concat (map token_source toks) ++ 39%N :: end_statement ++ (if scoped then with_close else []) ++ return_text.

Lemma source_parts variable text :
  template_source variable text =
    header ++ (if is_scoped variable then with_open else []) ++ append ++ after_append (is_scoped variable) (scan 0 text []).
Proof. unfold template_source. destruct variable as [[|]|]; rewrite <- ?app_assoc; reflexivity. Qed.

Lemma source_fuel variable text : length (scan 0 text []) < length (template_source variable text).
Proof.
  rewrite source_parts. unfold after_append. pose proof (scan_source_length 0 text []) as Hl. rewrite !length_app. cbn [length].
  rewrite length_app. assert (length end_statement = 2) as -> by reflexivity. lia.
Qed.

Lemma strip_with scoped src :
  match strip with_open ((if scoped : bool then with_open else []) ++ append ++ src) with
  | Some src => (true, src)
  | None => (false, (if scoped then with_open else []) ++ append ++ src)
  end = (scoped, append ++ src).
Proof. destruct scoped; [by rewrite strip_app|reflexivity]. Qed.

Lemma run_with fuel scoped toks st :
  Forall value_token toks -> length toks < fuel ->
  ('(p, st, src) ← statement fuel (after_append scoped toks) [] st;
   match p with
   | None => Some (None, st)
   | Some p =>
       src ← (if scoped : bool then strip with_close src else Some src);
       src ← strip return_text src;
       match src with [] => Some (Some p, st) | _ => None end
   end) = Some (render toks [] st).
Proof.
  intros Ht Hf. unfold after_append.
  destruct (statement_renders toks fuel [] [] ((if scoped then with_close else []) ++ return_text) st Ht Hf) as [rest Hs].
  change ([] ++ []) with (@nil N) in Hs. destruct (render toks [] st) as [r st']. destruct Hs as [Hs Htail].
  rewrite Hs. cbn [mbind option_bind]. destruct r as [p|]; [|done]. rewrite Htail by done.
  assert (strip return_text return_text = Some []) as Hr by (by vm_compute).
  destruct scoped; [rewrite strip_app; cbn [mbind option_bind]|cbn [app mbind option_bind]]; by rewrite Hr.
Qed.

(** A template with escaping tags only adds no markup: the characters that are
    special in HTML are in the output as they are in the text of the template,
    whatever the data. *)
Definition escaping_token (tok : token) : Prop := match tok with TText _ | TEscape _ => True | _ => False end.

Definition plain_text (tok : token) : jsstr := match tok with TText s => s | _ => [] end.

Lemma no_markup l : Forall (fun c => c ∉ markup) l -> filter (.∈ markup) l = [].
Proof. induction 1 as [|c l Hc Hl IH]; [done|]. rewrite filter_cons_False by exact Hc. exact IH. Qed.

Lemma render_markup toks p st out st' :
  Forall escaping_token toks -> render toks p st = (Some out, st') ->
  filter (.∈ markup) out = filter (.∈ markup) (p ++ concat (map plain_text toks)).
Proof.
  intros Ht. revert p st. induction Ht as [|tok toks Htok Ht IH]; intros p st.
  { intros [= -> ->]. cbn. by rewrite app_nil_r. }
  destruct tok as [s|code|code|code]; try done; cbn [render map concat plain_text app].
  - intros Er. rewrite (IH _ _ Er). by rewrite app_assoc.
  - destruct (eval (expr code) st) as [[v|] st1]; [|done]. intros Er. rewrite (IH _ _ Er), !filter_app. f_equal.
    destruct v as [t|]; [|by rewrite app_nil_r].
    assert (filter (.∈ markup) (escape (Some t)) = []) as ->; [|by rewrite app_nil_r].
    apply no_markup, escape_safe.
Qed.

(** C32. Running the source that [_.template] compiles of a text gives what the
    text means: the plain text as it is, and in place of each tag the value of
    its expression, escaped or not, or nothing if it is null or undefined; the
    expressions are evaluated once each, from left to right, up to the first
    that throws.  This holds with and without the setting [variable], for
    texts whose tags hold expressions that end where the tag does.  If all
    tags escape, the output has no markup that is not in the template. *)
Theorem template_renders (variable : option jsstr) (text : jsstr) (st : St) :
  Forall value_token (scan 0 text []) ->
  run (template_source variable text) st = Some (render (scan 0 text []) [] st) /\
  forall out st', Forall escaping_token (scan 0 text []) -> render (scan 0 text []) [] st = (Some out, st') ->
    filter (.∈ markup) out = filter (.∈ markup) (concat (map plain_text (scan 0 text []))).
Proof.
  intros Ht. split; [|intros out st' He Er; exact (render_markup _ _ _ _ _ He Er)]. unfold run. pose proof (source_fuel variable text) as Hf.
  generalize dependent (length (template_source variable text)). intros fuel Hf.
  rewrite source_parts, strip_app. cbn [mbind option_bind]. rewrite strip_with, strip_app. cbn [mbind option_bind].
  by apply run_with.
Qed.
End Run.

(** ** A program of names *)

(** Expressions are names; each is looked up in the data, and the names looked
    up are recorded. *)
Fixpoint until_paren (s : jsstr) : jsstr * jsstr :=
  match s with
  | [] => ([], [])
  | c :: s' => if (c =? 41)%N then ([], s) else let '(a, b) := until_paren s' in (c :: a, b)
  end.

Definition names_parse (s : jsstr) : option (jsstr * jsstr) := Some (until_paren s).

Definition names_eval (data : list (jsstr * jsstr)) (e : jsstr) (seen : list jsstr) : option (option jsstr) * list jsstr :=
  (Some ('(_, p) ← list_find (fun p => p.1 = e) data; Some p.2), seen ++ [e]).

Definition greeting : jsstr := «"<b>Hi <%- name %></b>, it's <%= day %>.<%- gone %>"».

Lemma template_renders_witness :
  run names_parse (names_eval [(«" name "», «"<A&B>"»); («" day "», «"<i>1</i>"»)]) (template_source None greeting) [] =
    Some (Some «"<b>Hi &lt;A&amp;B&gt;</b>, it's <i>1</i>."», [«" name "»; «" day "»; «" gone "»]).
Proof.
  refine (eq_trans (proj1 (template_renders names_parse
    (names_eval [(«" name "», «"<A&B>"»); («" day "», «"<i>1</i>"»)]) id None greeting [] _)) _); [|by vm_compute].
  assert (scan 0 greeting [] =
    [TText «"<b>Hi "»; TEscape «" name "»; TText «"</b>, it's "»; TInterpolate «" day "»; TText «"."»; TEscape «" gone "»; TText []]) as -> by (by vm_compute).
  repeat constructor; intros rest; reflexivity.
Defined.
