(* ===== verification/JsHeap.v ===== *)
(** * JavaScript values and objects

    The object graphs that the deep comparisons of underscore and of assert
    walk over: values, objects in a store, strict and loose equality, and the
    internal classes that [Object.prototype.toString] tells apart.

    Numbers are NaN, the two zeros, the infinities and the other integers. *)

From stdpp Require Import pretty.
From S2P Require Import Prelude.

Inductive num := NaN | NegZero | Inf (negative : bool) | Int (z : Z).

#[export] Instance num_eq_dec : EqDecision num.
Proof. solve_decision. Defined.

(** Locations of objects in the store. *)
Inductive val := Undefined | Null | Bool (b : bool) | Num (x : num) | Str (s : jsstr) | Ref (l : nat).

#[export] Instance val_eq_dec : EqDecision val.
Proof. solve_decision. Defined.

(** [[Class]] of an object. *)
Inductive class := CObject | CArray | CArguments | CFunction | CError | CRegExp | CDate | CString | CNumber | CBoolean.

#[export] Instance class_eq_dec : EqDecision class.
Proof. solve_decision. Defined.

(** The value of [obj.constructor]: none, or a function of which we know
    whether it is an instance of itself. *)
Inductive ctor := NoCtor | Ctor (id : nat) (self_instance : bool).

#[export] Instance ctor_eq_dec : EqDecision ctor.
Proof. solve_decision. Defined.

(** What is special about buffers and regular expressions. *)
Inductive data :=
  | NoData
  | BufferData (bytes : list Z)
  | RegExpData (source : jsstr) (global multiline ignoreCase : bool) (lastIndex : num).

(** An object: its class, its own enumerable properties in the order of
    [Object.keys] (for an array or an arguments object those that are not
    indices), the elements of an array or arguments object, without holes, its
    constructor, what it wraps if it is an instance of [_], the number and
    string that a wrapper, a date, a regular expression or a function converts
    to, and special data. *)
Record object := Object {
  o_class : class;
  o_props : list (jsstr * val);
  o_elems : list val;
  o_ctor : ctor;
  o_wrapped : option val;
  o_number : num;
  o_string : jsstr;
  o_data : data
}.

Definition heap := list object.

Definition plain (props : list (jsstr * val)) : object := Object CObject props [] (Ctor 0 true) None NaN [] NoData.
Definition array (elems : list val) : object := Object CArray [] elems (Ctor 1 false) None NaN [] NoData.

(** The own enumerable properties: the indices first. *)
Definition index_key (i : nat) : jsstr := lit (pretty i).

Definition own_props (o : object) : list (jsstr * val) :=
  imap (fun i v => (index_key i, v)) (o_elems o) ++ o_props o.

Lemma own_props_values o v : v ∈ map snd (own_props o) -> v ∈ o_elems o \/ v ∈ map snd (o_props o).
Proof.
  unfold own_props. rewrite map_app, elem_of_app. intros [H|H]; [left|by right].
  apply list_elem_of_fmap in H as ([k w] & -> & H). apply elem_of_lookup_imap in H as (i & x & [= -> ->] & Hi).
  by eapply list_elem_of_lookup_2.
Qed.

(** [obj[key]] for an own property. *)
Fixpoint get_prop (ps : list (jsstr * val)) (k : jsstr) : option val :=
  match ps with
  | [] => None
  | (k', v) :: ps => if decide (k' = k) then Some v else get_prop ps k
  end.

(** ** Numbers *)

(** [===] on numbers: NaN is not equal to itself, the zeros are equal. *)
Definition num_strict (x y : num) : bool :=
  match x, y with
  | NaN, _ | _, NaN => false
  | NegZero, NegZero | NegZero, Int 0 | Int 0, NegZero => true
  | _, _ => bool_decide (x = y)
  end.

Definition is_zero (x : num) : bool := match x with NegZero | Int 0 => true | _ => false end.

(** [1 / x === 1 / y] for a zero [x]: the sign of zero tells. *)
Definition same_zero (x y : num) : bool :=
  match x, y with
  | NegZero, NegZero | Int 0, Int 0 => true
  | _, _ => false
  end.

(** ** Strict equality and types *)

Definition strict_eq (a b : val) : bool :=
  match a, b with
  | Num x, Num y => num_strict x y
  | _, _ => bool_decide (a = b)
  end.

Definition is_nullish (a : val) : bool := match a with Undefined | Null => true | _ => false end.

(** What [Object.prototype.toString.call] prints. *)
Inductive tag := TUndefined | TNull | TClass (c : class).

#[export] Instance tag_eq_dec : EqDecision tag.
Proof. solve_decision. Defined.

Definition tag_of (h : heap) (a : val) : option tag :=
  match a with
  | Undefined => Some TUndefined
  | Null => Some TNull
  | Bool _ => Some (TClass CBoolean)
  | Num _ => Some (TClass CNumber)
  | Str _ => Some (TClass CString)
  | Ref l => o ← h !! l; Some (TClass (o_class o))
  end.

(** [typeof a == "object"] *)
Definition typeof_object (h : heap) (a : val) : bool :=
  match a with
  | Null => true
  | Ref l => match h !! l with Some o => bool_decide (o_class o <> CFunction) | None => false end
  | _ => false
  end.

(** [+a] and ['' + a] for what the comparisons apply them to: primitives of
    the class, and the objects that wrap them. *)
Definition to_num (h : heap) (a : val) : num :=
  match a with
  | Num x => x
  | Bool b => Int (if b then 1 else 0)
  | Ref l => match h !! l with Some o => o_number o | None => NaN end
  | _ => NaN
  end.

Definition to_str (h : heap) (a : val) : jsstr :=
  match a with
  | Str s => s
  | Ref l => match h !! l with Some o => o_string o | None => [] end
  | _ => []
  end.

(** ** Decimal numbers *)

Definition decimal_char (c : N) : Prop := c = 45%N \/ (48 <= c <= 57)%N.

Lemma lit_inj (s t : string) : lit s = lit t -> s = t.
Proof.
  revert t. induction s as [|a s IH]; intros [|b t] E; try done. cbn [lit] in E. injection E as E1 E2.
  f_equal; [|by apply IH]. by rewrite <- (Ascii.ascii_N_embedding a), E1, Ascii.ascii_N_embedding.
Qed.

Definition digit (c : N) : Prop := (48 <= c <= 57)%N.

Lemma pretty_go_digits x s : Forall digit (lit s) -> Forall digit (lit (pretty_N_go x s)).
Proof.
  revert s. induction (N.lt_wf_0 x) as [x _ IH]; intros s Hs.
  assert (x = 0 \/ 0 < x)%N as [->|Hx] by lia; [done|].
  rewrite pretty_N_go_step by done. apply IH; [by apply N.div_lt|]. cbn [lit]. constructor; [|done].
  unfold pretty_N_char. repeat case_match; vm_compute; split; done.
Qed.

Lemma pretty_digits (n : N) : Forall digit (lit (pretty n)).
Proof.
  unfold pretty, pretty_N. case_decide; [|by apply pretty_go_digits; constructor].
  constructor; [vm_compute; split; done|constructor].
Qed.

Lemma pretty_chars (z : Z) : Forall decimal_char (lit (pretty z)).
Proof.
  assert (forall n : N, Forall decimal_char (lit (pretty n))) as HN.
  { intros n. eapply Forall_impl; [apply pretty_digits|]. intros c Hc. by right. }
  destruct z as [|p|p]; [apply (HN 0%N)|apply (HN (N.pos p))|].
  change (lit (pretty (Z.neg p))) with (45%N :: lit (pretty (N.pos p))). constructor; [by left|apply HN].
Qed.
