(* ===== verification/IsEqual.v ===== *)
(** * underscore: deep equality

    [_.isEqual] and its helper [eq] (module 25 of wordcut.js): a comparison of
    object graphs that keeps the pairs it is inside of on two stacks and takes
    a pair it meets again for equal.

    The theorems: the comparison always ends, whatever cycles the graphs have;
    when it answers yes, the two graphs are bisimilar; without cycles the
    answer is exactly bisimilarity.  With cycles it is not symmetric. *)

From S2P Require Import Prelude JsHeap.

(** [if (a instanceof _) a = a._wrapped] *)
Definition unwrap (h : heap) (a : val) : val :=
  match a with
  | Ref l => match h !! l with Some o => default a (o_wrapped o) | None => a end
  | _ => a
  end.

(** The constructors differ in the way that makes objects unequal. *)
Definition ctors_differ (a b : ctor) : bool :=
  bool_decide (a <> b) &&
  negb (match a, b with Ctor _ sa, Ctor _ sb => sa && sb | _, _ => false end) &&
  match a, b with Ctor _ _, Ctor _ _ => true | _, _ => false end.

(** What is left to compare, in the order of the code: pairs of values, [None]
    for a key that [b] has not; or nothing, since the lengths differ. *)
Definition array_kids (a b : object) : option (list (option (val * val))) :=
  if decide (length (o_elems a) = length (o_elems b))
  then Some (rev (map Some (zip (o_elems a) (o_elems b)))) else None.

Definition object_kids (a b : object) : option (list (option (val * val))) :=
  if decide (length (own_props b) = length (own_props a))
  then Some (rev (map (fun p => w ← get_prop (own_props b) p.1; Some (p.2, w)) (own_props a))) else None.

Inductive verdict :=
  | Equal | Differ | TypeErr
  | Compound (a b : val) (kids : option (list (option (val * val)))).

Definition verdict_of (x : bool) : verdict := if x then Equal else Differ.

(** The comparison of unwrapped values by their classes. *)
Definition compare_classes (h : heap) (a b : val) : verdict :=
  match tag_of h a, tag_of h b with
  | Some ta, Some tb =>
      if decide (ta <> tb) then Differ
      else match ta with
      | TClass CRegExp | TClass CString => verdict_of (bool_decide (to_str h a = to_str h b))
      | TClass CNumber =>
          let x := to_num h a in
          let y := to_num h b in
          verdict_of (if decide (x = NaN) then bool_decide (y = NaN)
                      else if is_zero x then same_zero x y else num_strict x y)
      | TClass CDate | TClass CBoolean => verdict_of (num_strict (to_num h a) (to_num h b))
      | TClass CArray =>
          match a, b with
          | Ref i, Ref j =>
              match h !! i, h !! j with
              | Some oa, Some ob => Compound a b (array_kids oa ob)
              | _, _ => TypeErr
              end
          | _, _ => TypeErr
          end
      | _ =>
          if negb (typeof_object h a) || negb (typeof_object h b) then Differ
          else match a, b with
          | Ref i, Ref j =>
              match h !! i, h !! j with
              | Some oa, Some ob =>
                  if ctors_differ (o_ctor oa) (o_ctor ob) then Differ
                  else Compound a b (object_kids oa ob)
              | _, _ => TypeErr
              end
          | _, _ => TypeErr          (** [null.constructor] *)
          end
      end
  | _, _ => TypeErr
  end.

(** [eq] up to the stacks. *)
Definition compare_head (h : heap) (a b : val) : verdict :=
  if strict_eq a b then
    verdict_of (match a, b with Num x, Num y => negb (is_zero x) || same_zero x y | _, _ => true end)
  else if is_nullish a || is_nullish b then Differ
  else compare_classes h (unwrap h a) (unwrap h b).

(** The search on the stacks, from their top. *)
Fixpoint on_stack (stack : list (val * val)) (a b : val) : option bool :=
  match stack with
  | [] => None
  | (x, y) :: stack => if strict_eq x a then Some (strict_eq y b) else on_stack stack a b
  end.

Inductive answer := Yes | No | Throws | OutOfFuel.

Definition answer_of (b : bool) : answer := if b then Yes else No.

Fixpoint all_kids (f : val -> val -> answer) (kids : list (option (val * val))) : answer :=
  match kids with
  | [] => Yes
  | None :: _ => No
  | Some (x, y) :: kids => match f x y with Yes => all_kids f kids | r => r end
  end.

Fixpoint eq (fuel : nat) (h : heap) (a b : val) (stack : list (val * val)) {struct fuel} : answer :=
  match compare_head h a b with
  | Equal => Yes
  | Differ => No
  | TypeErr => Throws
  | Compound a b kids =>
      match on_stack stack a b with
      | Some r => answer_of r
      | None =>
          match kids with
          | None => No
          | Some kids =>
              match fuel with
              | O => OutOfFuel
              | S fuel => all_kids (fun x y => eq fuel h x y ((a, b) :: stack)) kids
              end
          end
      end
  end.

(** Enough fuel for every store (theorem [isEqual_terminates]): the first
    stack never holds an object twice. *)
Definition isEqual (h : heap) (a b : val) : answer := eq (length h) h a b [].

(** ** Bisimilarity *)

(** A relation that is consistent with the comparison of heads and closed
    under the comparison of what is below them. *)
Definition step_ok (h : heap) (R : val -> val -> Prop) (a b : val) : Prop :=
  match compare_head h a b with
  | Equal => True
  | Compound _ _ (Some kids) => Forall (fun k => exists x y, k = Some (x, y) /\ R x y) kids
  | _ => False
  end.

Definition bisimulation (h : heap) (R : val -> val -> Prop) : Prop := forall a b, R a b -> step_ok h R a b.

Definition bisimilar (h : heap) (a b : val) : Prop := exists R, bisimulation h R /\ R a b.

Lemma step_ok_mono h (R R' : val -> val -> Prop) a b :
  (forall x y, R x y -> R' x y) -> step_ok h R a b -> step_ok h R' a b.
Proof.
  intros HR. unfold step_ok. destruct (compare_head h a b) as [| | |a' b' [kids|]]; try done.
  intros Hk. eapply Forall_impl; [exact Hk|]. intros k (x & y & -> & Hxy). eauto.
Qed.

Lemma bisimilar_step h a b : bisimilar h a b -> step_ok h (bisimilar h) a b.
Proof.
  intros (R & HR & Hab). apply (step_ok_mono h R); [|by apply HR]. intros x y Hxy. by exists R.
Qed.

(** ** The answer yes *)

Lemma all_kids_yes f kids :
  all_kids f kids = Yes <-> Forall (fun k => exists x y, k = Some (x, y) /\ f x y = Yes) kids.
Proof.
  induction kids as [|[[x y]|] kids IH]; simpl; [by split| |].
  - rewrite Forall_cons, <- IH. split.
    + destruct (f x y) eqn:E; try done. intros Hk. split; [by exists x, y|done].
    + intros [(x' & y' & [= <- <-] & ->) Hk]. done.
  - split; [done|]. by intros [(x & y & ? & _) _]%Forall_cons_1.
Qed.

Lemma strict_eq_ref_l l a : strict_eq (Ref l) a = true <-> a = Ref l.
Proof.
  unfold strict_eq. destruct a; rewrite bool_decide_eq_true; split; intros; congruence.
Qed.

Lemma strict_eq_ref_r l a : strict_eq a (Ref l) = true <-> a = Ref l.
Proof.
  unfold strict_eq. destruct a; rewrite ?bool_decide_eq_true; split; intros; congruence.
Qed.

(** Compound values are references, and what is below them depends on them
    alone. *)
Lemma verdict_not_compound x a b kids : verdict_of x = Compound a b kids -> False.
Proof. by destruct x. Qed.

Lemma compare_classes_compound h a b a' b' kids :
  compare_classes h a b = Compound a' b' kids ->
  a' = a /\ b' = b /\ exists i j oa ob, a = Ref i /\ b = Ref j /\ h !! i = Some oa /\ h !! j = Some ob /\
    (kids = array_kids oa ob \/ kids = object_kids oa ob).
Proof.
  unfold compare_classes. intros E.
  repeat (case_match; simplify_eq/=; try done);
    try (exfalso; by eapply verdict_not_compound); (split_and!; [done|done|]); eauto 20.
Qed.

Lemma compare_head_compound h a b a' b' kids :
  compare_head h a b = Compound a' b' kids ->
  a' = unwrap h a /\ b' = unwrap h b /\ compare_classes h a' b' = Compound a' b' kids.
Proof.
  unfold compare_head. destruct (strict_eq a b); [intros []%verdict_not_compound|].
  destruct (_ || _); [done|]. intros E. pose proof (compare_classes_compound _ _ _ _ _ _ E) as (-> & -> & _).
  done.
Qed.

Lemma on_stack_true stack i j :
  on_stack stack (Ref i) (Ref j) = Some true -> (Ref i, Ref j) ∈ stack.
Proof.
  induction stack as [|[x y] stack IH]; simpl; [done|]. destruct (strict_eq x (Ref i)) eqn:E.
  - apply strict_eq_ref_r in E as ->. intros [= E2]. apply strict_eq_ref_r in E2 as ->. by left.
  - intros H%IH. by right.
Qed.

(** A set of pairs that is closed except below the pairs of the stack. *)
Definition closed_upto (h : heap) (stack : list (val * val)) (R : val -> val -> Prop) : Prop :=
  forall a b, R a b -> step_ok h R a b \/
    exists a' b' kids, compare_head h a b = Compound a' b' (Some kids) /\ (a', b') ∈ stack.

(** Closed sets for all that is below a pair make one for the pair. *)
Lemma close_pair h stack a b a' b' kids :
  compare_head h a b = Compound a' b' (Some kids) ->
  Forall (fun k => exists x y, k = Some (x, y) /\ exists R, R x y /\ closed_upto h ((a', b') :: stack) R) kids ->
  exists R, R a b /\ closed_upto h stack R.
Proof.
  intros Hc Hk.
  set (U := fun x y => exists R, closed_upto h ((a', b') :: stack) R /\ R x y).
  exists (fun x y => (x, y) = (a, b) \/ U x y). split; [by left|].
  assert (Forall (fun k => exists x y, k = Some (x, y) /\ ((x, y) = (a, b) \/ U x y)) kids) as Hkids.
  { eapply Forall_impl; [exact Hk|]. intros k (x & y & -> & R & HR & Hcl).
    exists x, y. split; [done|]. right. by exists R. }
  intros x y [[= -> ->]|(R & Hcl & Hxy)].
  - left. unfold step_ok. rewrite Hc. exact Hkids.
  - destruct (Hcl x y Hxy) as [Hs|(a2 & b2 & kids2 & Hc2 & Hin)].
    + left. apply (step_ok_mono h R); [|done]. intros x' y' Hxy'. right. by exists R.
    + apply elem_of_cons in Hin as [[= -> ->]|Hin]; [left|right; eauto].
      unfold step_ok. rewrite Hc2.
      apply compare_head_compound in Hc as (_ & _ & E1). apply compare_head_compound in Hc2 as (_ & _ & E2).
      rewrite E1 in E2. injection E2 as <-. exact Hkids.
Qed.

(** What the comparison pushes has something below it to compare. *)
Definition stack_ok (h : heap) (stack : list (val * val)) : Prop :=
  Forall (fun p => exists kids, compare_classes h p.1 p.2 = Compound p.1 p.2 (Some kids)) stack.

Lemma eq_yes_closed fuel h a b stack :
  stack_ok h stack -> eq fuel h a b stack = Yes -> exists R, R a b /\ closed_upto h stack R.
Proof.
  revert a b stack. induction fuel as [|fuel IH]; intros a b stack Hst H; cbn [eq] in H;
    (destruct (compare_head h a b) as [| | |a' b' kids] eqn:Hc; try done).
  1, 3: (exists (fun x y => (x, y) = (a, b)); split; [done|]; intros x y [= -> ->]; left;
         unfold step_ok; by rewrite Hc).
  all: destruct (compare_head_compound _ _ _ _ _ _ Hc) as (_ & _ & Hcl);
    destruct (compare_classes_compound _ _ _ _ _ _ Hcl) as (_ & _ & i & j & oa & ob & -> & -> & _).
  all: destruct (on_stack stack (Ref i) (Ref j)) as [[]|] eqn:Es; try done.
  1, 3: (apply on_stack_true in Es; unfold stack_ok in Hst; rewrite Forall_forall in Hst;
    destruct (Hst _ Es) as [kids' Hk]; cbn in Hk; rewrite Hk in Hcl; injection Hcl as <-;
    exists (fun x y => (x, y) = (a, b)); split; [done|]; intros x y [= -> ->]; right; by eauto 10).
  - by destruct kids.
  - destruct kids as [kids|]; [|done]. apply all_kids_yes in H.
    apply (close_pair h stack a b (Ref i) (Ref j) kids Hc).
    eapply Forall_impl; [exact H|]. intros k (x & y & -> & Hxy). exists x, y. split; [done|].
    apply IH; [|done]. constructor; [by eexists|done].
Qed.

Lemma closed_nil_bisimulation h R : closed_upto h [] R -> bisimulation h R.
Proof.
  intros Hcl a b Hab. destruct (Hcl a b Hab) as [H|(a' & b' & kids & _ & H)]; [done|]. by apply elem_of_nil in H.
Qed.

(** ** Termination *)

(** The objects on the first stack. *)
Definition stack_locs (stack : list (val * val)) : list val := map fst stack.

Lemma on_stack_None stack i b : on_stack stack (Ref i) b = None -> Ref i ∉ stack_locs stack.
Proof.
  induction stack as [|[x y] stack IH]; simpl; [by intros _ ?%elem_of_nil|].
  destruct (strict_eq x (Ref i)) eqn:E; [done|]. intros H%IH [<-|Hin]%elem_of_cons; [|done].
  by rewrite (proj2 (strict_eq_ref_l i (Ref i))) in E.
Qed.

Lemma stack_bounded (h : heap) stack :
  NoDup (stack_locs stack) -> Forall (fun v => exists i, v = Ref i /\ i < length h) (stack_locs stack) ->
  length stack <= length h.
Proof.
  intros Hnd Hall.
  assert (stack_locs stack ⊆+ map Ref (seq 0 (length h))) as Hsub.
  { apply NoDup_submseteq; [done|]. intros v Hv. rewrite Forall_forall in Hall.
    destruct (Hall v Hv) as (i & -> & Hi). apply list_elem_of_fmap. exists i. split; [done|].
    apply elem_of_seq. lia. }
  apply submseteq_length in Hsub. unfold stack_locs in Hsub. by rewrite !length_map, length_seq in Hsub.
Qed.

Lemma all_kids_fuel f kids :
  (forall x y, Some (x, y) ∈ kids -> f x y <> OutOfFuel) -> all_kids f kids <> OutOfFuel.
Proof.
  induction kids as [|[[x y]|] kids IH]; simpl; intros Hf; [done| |done].
  pose proof (Hf x y ltac:(by left)). destruct (f x y); try done. apply IH. intros x' y' Hin. apply Hf. by right.
Qed.

Lemma eq_terminates_from fuel h a b stack :
  NoDup (stack_locs stack) -> Forall (fun v => exists i, v = Ref i /\ i < length h) (stack_locs stack) ->
  length h <= fuel + length stack -> eq fuel h a b stack <> OutOfFuel.
Proof.
  revert a b stack. induction fuel as [|fuel IH]; intros a b stack Hnd Hall Hf; cbn [eq];
    (destruct (compare_head h a b) as [| | |a' b' kids] eqn:Hc; try done);
    destruct (compare_head_compound _ _ _ _ _ _ Hc) as (_ & _ & Hcl);
    destruct (compare_classes_compound _ _ _ _ _ _ Hcl) as (_ & _ & i & j & oa & ob & -> & -> & Hi & _);
    (destruct (on_stack stack (Ref i) (Ref j)) as [[]|] eqn:Es; [done|done|]);
    (destruct kids as [kids|]; [|done]);
    apply on_stack_None in Es; apply lookup_lt_Some in Hi;
    assert (NoDup (stack_locs ((Ref i, Ref j) :: stack))) as Hnd' by (by apply NoDup_cons);
    assert (Forall (fun v => exists i, v = Ref i /\ i < length h) (stack_locs ((Ref i, Ref j) :: stack))) as Hall'
      by (apply Forall_cons; eauto).
  - pose proof (stack_bounded h _ Hnd' Hall') as Hb. simpl in Hb, Hf. lia.
  - apply all_kids_fuel. intros x y _. apply IH; [done|done|]. simpl. lia.
Qed.

(** ** Stores without cycles *)

(** A rank that goes down along every edge that the comparison follows. *)
Definition ranked (h : heap) (rank : nat -> nat) : Prop :=
  forall i o v l, h !! i = Some o -> (v ∈ o_elems o \/ v ∈ map snd (o_props o)) -> unwrap h v = Ref l -> rank l < rank i.

Definition acyclic (h : heap) : Prop := exists rank, ranked h rank.

Lemma ranked_objects h rank :
  (forall i o, h !! i = Some o ->
     Forall (fun v => match unwrap h v with Ref l => rank l < rank i | _ => True end)
       (o_elems o ++ map snd (o_props o))) -> ranked h rank.
Proof.
  intros Hall i o v l Hi Hv Hl. specialize (Hall i o Hi). rewrite Forall_forall in Hall.
  specialize (Hall v). rewrite elem_of_app, Hl in Hall. by apply Hall.
Qed.

Lemma kids_below oa ob kids x y :
  array_kids oa ob = Some kids \/ object_kids oa ob = Some kids -> Some (x, y) ∈ kids ->
  x ∈ o_elems oa \/ x ∈ map snd (o_props oa).
Proof.
  intros [H|H] Hin.
  - left. unfold array_kids in H. case_decide; [|done]. injection H as <-.
    apply list_elem_of_In, in_rev, list_elem_of_In, list_elem_of_fmap in Hin as ([x' y'] & [= <- <-] & Hin).
    by apply elem_of_zip_l in Hin.
  - unfold object_kids in H. case_decide; [|done]. injection H as <-.
    apply list_elem_of_In, in_rev, list_elem_of_In, list_elem_of_fmap in Hin as ([k v] & E & Hin).
    simpl in E. destruct (get_prop (own_props ob) k); simplify_eq/=.
    apply own_props_values. by apply (list_elem_of_fmap_2 snd) in Hin.
Qed.

(** Everything on the stack ranks above the value to be compared. *)
Definition above (rank : nat -> nat) (h : heap) (a : val) (stack : list (val * val)) : Prop :=
  forall l i, unwrap h a = Ref l -> Ref i ∈ stack_locs stack -> rank l < rank i.

Lemma on_stack_not_in stack a b : (forall i, a = Ref i -> a ∉ stack_locs stack) -> (exists i, a = Ref i) ->
  on_stack stack a b = None.
Proof.
  intros Hn [i ->]. specialize (Hn i eq_refl). induction stack as [|[x y] stack IH]; simpl; [done|].
  destruct (strict_eq x (Ref i)) eqn:E.
  - apply strict_eq_ref_r in E as ->. exfalso. apply Hn. by left.
  - apply IH. intros Hin. apply Hn. by right.
Qed.

Lemma eq_acyclic_yes fuel h rank a b stack :
  ranked h rank -> above rank h a stack -> bisimilar h a b -> eq fuel h a b stack = Yes \/ eq fuel h a b stack = OutOfFuel.
Proof.
  intros Hr. revert a b stack. induction fuel as [|fuel IH]; intros a b stack Ha Hb;
    apply bisimilar_step in Hb; unfold step_ok in Hb; cbn [eq];
    (destruct (compare_head h a b) as [| | |a' b' [kids|]] eqn:Hc; try done; [by left|]);
    destruct (compare_head_compound _ _ _ _ _ _ Hc) as (Ea & _ & Hcl);
    destruct (compare_classes_compound _ _ _ _ _ _ Hcl) as (_ & _ & i & j & oa & ob & -> & -> & Hi & _ & Hk);
    rewrite on_stack_not_in by (eauto; intros i' [= <-] Hin; specialize (Ha i i (eq_sym Ea) Hin); lia).
  - by right.
  - assert (forall x y, Some (x, y) ∈ kids -> above rank h x ((Ref i, Ref j) :: stack)) as Hab.
    { intros x y Hin l k Hu Hin'. 
      assert (rank l < rank i) as Hlt.
      { apply (Hr i oa x l Hi); [|done]. apply (kids_below oa ob kids x y); [|done]. destruct Hk; eauto. }
      apply elem_of_cons in Hin' as [[= ->]|Hin']; [done|]. specialize (Ha i k (eq_sym Ea) Hin'). lia. }
    clear Hk Hc Hcl. induction Hb as [|k kids (x & y & -> & Hxy) Hb IHk]; simpl; [by left|].
    destruct (IH x y ((Ref i, Ref j) :: stack)) as [-> | ->]; [by apply (Hab x y); left|done| |by right].
    apply IHk. intros x' y' Hin. apply (Hab x' y'). by right.
Qed.

(** ** Theorems *)

(** C22. [_.isEqual] ends on every pair of object graphs, cyclic or not, with a
    recursion no deeper than the number of objects; and when it answers yes,
    the two values are bisimilar: no chain of property accesses tells them
    apart, as far as the comparison of single objects ([compare_head]) tells; what
    that comparison means is the subject of [DeepEqual]. *)
Theorem isEqual_sound (h : heap) (a b : val) :
  isEqual h a b <> OutOfFuel /\ (isEqual h a b = Yes -> bisimilar h a b).
Proof.
  split.
  - apply eq_terminates_from; [constructor|constructor|simpl; lia].
  - intros H. apply eq_yes_closed in H as (R & Hab & Hcl); [|constructor].
    exists R. split; [by apply closed_nil_bisimulation|done].
Qed.

(** On stores without cycles [_.isEqual] answers yes exactly on bisimilar
    values. *)
Theorem isEqual_acyclic (h : heap) (a b : val) :
  acyclic h -> isEqual h a b = Yes <-> bisimilar h a b.
Proof.
  intros [rank Hr]. split.
  - intros H. apply eq_yes_closed in H as (R & Hab & Hcl); [|constructor].
    exists R. split; [by apply closed_nil_bisimulation|done].
  - intros Hb. destruct (eq_acyclic_yes (length h) h rank a b []) as [H|H]; [done| |done|done|].
    + intros l i _ Hin. by apply elem_of_nil in Hin.
    + exfalso. revert H. apply eq_terminates_from; [constructor|constructor|simpl; lia].
Qed.

(** Two records with the same nested array. *)
Definition two_records : heap :=
  [plain [(«"x"», Ref 1); («"y"», Num NaN)]; array [Num (Int 1); Str «"s"»];
   plain [(«"y"», Num NaN); («"x"», Ref 3)]; array [Num (Int 1); Str «"s"»]].

Lemma isEqual_acyclic_witness :
  isEqual two_records (Ref 0) (Ref 2) = Yes <-> bisimilar two_records (Ref 0) (Ref 2).
Proof.
  apply (isEqual_acyclic two_records). exists (fun i => if decide (i = 0 \/ i = 2) then 1 else 0).
  apply ranked_objects. intros i o Hi.
  do 4 (destruct i as [|i]; [injection Hi as <-; repeat constructor; compute; lia|]). done.
Defined.

(** A self-loop and a loop of two objects are bisimilar.  The comparison says
    so from one side only: in the other direction it meets the self-loop again
    with the second object of the other loop beside it. *)
Definition two_loops : heap :=
  [plain [(«"x"», Ref 0)]; plain [(«"x"», Ref 2)]; plain [(«"x"», Ref 1)]].

Example isEqual_not_symmetric :
  isEqual two_loops (Ref 1) (Ref 0) = Yes /\ isEqual two_loops (Ref 0) (Ref 1) = No.
Proof. by vm_compute. Qed.

(** Two wrapped nulls are not found equal: the comparison reads a property of
    null. *)
Example isEqual_wrapped_null :
  let wrapped_null := Object CObject [(«"_wrapped"», Null)] [] (Ctor 2 false) (Some Null) NaN [] NoData in
  isEqual [wrapped_null; wrapped_null] (Ref 0) (Ref 1) = Throws.
Proof. by vm_compute. Qed.
