(* ===== verification/DeepEqual.v ===== *)
(** * underscore: what [_.isEqual] decides

    Deep equality of object graphs, stated by rules that do not mention the
    functions of the comparison, and that [_.isEqual] decides it on stores
    without cycles. *)

From S2P Require Import Prelude JsHeap IsEqual.

(** ** Deep equality *)

(** The number that two dates or booleans have to share; NaN is none. *)
Definition same_number (x y : num) : Prop := x <> NaN /\ (x = y \/ (is_zero x = true /\ is_zero y = true)).

(** Constructors do not tell objects apart when they are the same, when one
    object has none, or when both are instances of themselves, as the constructors
    [Object] of different frames are. *)
Definition compatible (a b : ctor) : Prop :=
  a = b \/ a = NoCtor \/ b = NoCtor \/ exists i j, a = Ctor i true /\ b = Ctor j true.

Section DeepEqual.
Variable h : heap.

(** [v] is, or wraps, a value of the class. *)
Definition has_class (v : val) (c : class) : Prop := tag_of h (unwrap h v) = Some (TClass c).

(** [v] is, or wraps, this object. *)
Definition denotes (v : val) (o : object) : Prop := exists l, unwrap h v = Ref l /\ h !! l = Some o.

Definition property (o : object) (k : jsstr) : option val := get_prop (own_props o) k.

Inductive deep_equal : val -> val -> Prop :=
| equal_identical a : deep_equal a a
| equal_numbers a b : has_class a CNumber -> has_class b CNumber ->
    to_num h (unwrap h a) = to_num h (unwrap h b) -> deep_equal a b
| equal_texts a b c : c = CString \/ c = CRegExp -> has_class a c -> has_class b c ->
    to_str h (unwrap h a) = to_str h (unwrap h b) -> deep_equal a b
| equal_times a b c : c = CDate \/ c = CBoolean -> has_class a c -> has_class b c ->
    same_number (to_num h (unwrap h a)) (to_num h (unwrap h b)) -> deep_equal a b
| equal_arrays a b oa ob : denotes a oa -> denotes b ob -> o_class oa = CArray -> o_class ob = CArray ->
    length (o_elems oa) = length (o_elems ob) ->
    (forall n x y, o_elems oa !! n = Some x -> o_elems ob !! n = Some y -> deep_equal x y) -> deep_equal a b
| equal_objects a b oa ob : denotes a oa -> denotes b ob -> o_class oa = o_class ob ->
    o_class oa = CObject \/ o_class oa = CArguments \/ o_class oa = CError -> compatible (o_ctor oa) (o_ctor ob) ->
    (forall k, is_Some (property oa k) <-> is_Some (property ob k)) ->
    (forall k x y, property oa k = Some x -> property ob k = Some y -> deep_equal x y) -> deep_equal a b.

(** ** Stores as a program makes them

    References lead to objects, keys are unique, and no wrapper wraps null or
    undefined. *)
Definition good (v : val) : Prop := match v with Ref l => l < length h | _ => True end.

Record store_ok : Prop := StoreOk {
  elems_good i o v : h !! i = Some o -> v ∈ o_elems o -> good v;
  props_good i o v : h !! i = Some o -> v ∈ map snd (o_props o) -> good v;
  wrapped_good i o v : h !! i = Some o -> o_wrapped o = Some v -> good v /\ is_nullish v = false;
  keys_unique i o : h !! i = Some o -> NoDup (map fst (own_props o))
}.

Hypothesis Hstore : store_ok.

Lemma unwrap_good v : good v -> is_nullish v = false -> good (unwrap h v) /\ is_nullish (unwrap h v) = false.
Proof.
  intros Hv Hn. destruct v as [| | | | |l]; try done. cbn [unwrap]. destruct (h !! l) as [o|] eqn:E; [|done].
  destruct (o_wrapped o) as [w|] eqn:Ew; [|done]. by apply (wrapped_good Hstore l o).
Qed.

Lemma good_tag v : good v -> is_nullish v = false -> exists c, tag_of h v = Some (TClass c).
Proof.
  intros Hv Hn. destruct v as [| | | | |l]; try done; try by eexists.
  assert (exists o, h !! l = Some o) as [o E] by (by apply lookup_lt_is_Some). exists (o_class o). unfold tag_of. by rewrite E.
Qed.

Lemma tag_ref v c : tag_of h v = Some (TClass c) -> c <> CNumber -> c <> CString -> c <> CBoolean ->
  exists l o, v = Ref l /\ h !! l = Some o /\ o_class o = c.
Proof.
  intros H Hn Hs Hb. destruct v as [| | | | |l]; cbn in H; simplify_eq; try done.
  destruct (h !! l) as [o|] eqn:E; [|done]. cbn in H. simplify_eq. by exists l, o.
Qed.

Lemma has_class_not_null v c : has_class v c -> is_nullish v = false.
Proof. unfold has_class. by destruct v. Qed.

Lemma denotes_class v o : denotes v o -> has_class v (o_class o).
Proof. intros (l & E & Hl). unfold has_class. rewrite E. unfold tag_of. by rewrite Hl. Qed.

(** ** Deep equality is consistent with the comparison of heads *)

Lemma num_strict_refl x : x <> NaN -> num_strict x x = true.
Proof. intros H. destruct x as [| |n|z]; try done; [by destruct n|]. unfold num_strict. destruct z; try done; by rewrite bool_decide_true. Qed.

Lemma num_strict_eq x y : num_strict x y = true -> (negb (is_zero x) || same_zero x y) = true -> x = y.
Proof.
  intros H1 H2. destruct x as [| |n|[|p|p]], y as [| |m|[|q|q]]; try done; cbn in *; try (by apply bool_decide_eq_true in H1).
Qed.

Lemma num_strict_same x y : num_strict x y = true <-> same_number x y.
Proof.
  unfold same_number. split.
  - intros H. split; [by intros ->|]. destruct x as [| |n|[|p|p]], y as [| |m|[|q|q]]; try done;
      try (left; by apply bool_decide_eq_true in H); by (right || left).
  - intros [Hn [->|[Hx Hy]]]; [by apply num_strict_refl|].
    by destruct x as [| |n|[|p|p]], y as [| |m|[|q|q]].
Qed.

(** When both sides are strictly equal the comparison ends at once, and only the sign of zero may make a difference. *)
Lemma head_strict a b : (forall x y, a = Num x -> b = Num y -> x = y) -> strict_eq a b = true -> compare_head h a b = Equal.
Proof.
  intros Hnum H. unfold compare_head. rewrite H. destruct a as [| | |x| |], b as [| | |y| |]; try done.
  rewrite (Hnum x y eq_refl eq_refl) in *. destruct y as [| |m|[|q|q]]; done.
Qed.

Lemma head_classes a b : is_nullish a = false -> is_nullish b = false -> strict_eq a b = false ->
  compare_head h a b = compare_classes h (unwrap h a) (unwrap h b).
Proof. intros Ha Hb Hs. unfold compare_head. by rewrite Hs, Ha, Hb. Qed.

Lemma ctors_compatible a b : ctors_differ a b = false <-> compatible a b.
Proof.
  unfold ctors_differ, compatible. destruct a as [|i sa], b as [|j sb].
  - split; [by left|done].
  - split; [by right; left|]. by rewrite andb_false_r.
  - split; [by right; right; left|]. by rewrite andb_false_r.
  - rewrite andb_true_r. case_bool_decide as E; cbn [andb].
    + rewrite negb_false_iff, andb_true_iff. split.
      * intros [-> ->]. right. right. right. by exists i, j.
      * intros [?|[?|[?|(i' & j' & [= <- ->] & [= <- ->])]]]; done.
    + split; [|done]. intros _. left. destruct (decide (Ctor i sa = Ctor j sb)); [done|]. by destruct E.
Qed.

Lemma get_prop_in ps k v : get_prop ps k = Some v -> (k, v) ∈ ps.
Proof.
  induction ps as [|[k' w] ps IH]; cbn; [done|]. case_decide; [intros [= ->]; subst; by left|]. intros Hg. right. by apply IH.
Qed.

Lemma get_prop_unique ps k v : NoDup (map fst ps) -> (k, v) ∈ ps -> get_prop ps k = Some v.
Proof.
  induction ps as [|[k' w] ps IH]; cbn [map fst get_prop]; intros Hnd Hin; [by apply elem_of_nil in Hin|].
  apply NoDup_cons in Hnd as [Hni Hnd]. apply elem_of_cons in Hin as [[= -> ->]|Hin]; [by rewrite decide_True|].
  rewrite decide_False; [by apply IH|]. intros ->. apply Hni. apply list_elem_of_fmap. by exists (k, v).
Qed.

(** Objects have the same keys when they have as many and one has those of the other. *)
Lemma same_keys ps qs : NoDup (map fst ps) -> NoDup (map fst qs) ->
  (forall k, is_Some (get_prop ps k) <-> is_Some (get_prop qs k)) <->
  length qs = length ps /\ (forall p, p ∈ ps -> is_Some (get_prop qs p.1)).
Proof.
  intros Hp Hq.
  assert (forall (l : list (jsstr * val)) k, NoDup (map fst l) -> is_Some (get_prop l k) <-> k ∈ map fst l) as Hin.
  { intros l k Hl. split.
    - intros [v Hv%get_prop_in]. apply list_elem_of_fmap. by exists (k, v).
    - intros ([k' v] & -> & H)%list_elem_of_fmap. exists v. by apply get_prop_unique. }
  split.
  - intros H. split.
    + assert (map fst ps ≡ₚ map fst qs) as Hperm%Permutation_length; [|by rewrite !length_map in Hperm].
      apply NoDup_Permutation; [done..|]. intros k. rewrite <- !Hin by done. apply H.
    + intros p Hpin. apply H, Hin; [done|]. apply list_elem_of_fmap. by exists p.
  - intros [Hlen Hsub] k. rewrite !Hin by done.
    assert (map fst ps ⊆+ map fst qs) as Hms.
    { apply NoDup_submseteq; [done|]. intros x (p & -> & Hpin)%list_elem_of_fmap. apply Hin; [done|]. by apply Hsub. }
    apply submseteq_length_Permutation in Hms as Hperm; [|rewrite !length_map; lia]. by rewrite Hperm.
Qed.

(** The verdict on two values of the same class. *)
Lemma classes_same a b c : tag_of h a = Some (TClass c) -> tag_of h b = Some (TClass c) ->
  match c with
  | CRegExp | CString => compare_classes h a b = verdict_of (bool_decide (to_str h a = to_str h b))
  | CNumber => compare_classes h a b = verdict_of (bool_decide (to_num h a = to_num h b))
  | CDate | CBoolean => compare_classes h a b = verdict_of (num_strict (to_num h a) (to_num h b))
  | CArray => exists i j oa ob, a = Ref i /\ b = Ref j /\ h !! i = Some oa /\ h !! j = Some ob /\ o_class oa = c /\ o_class ob = c /\
      compare_classes h a b = Compound a b (array_kids oa ob)
  | CFunction => compare_classes h a b = Differ
  | _ => exists i j oa ob, a = Ref i /\ b = Ref j /\ h !! i = Some oa /\ h !! j = Some ob /\ o_class oa = c /\ o_class ob = c /\
      compare_classes h a b = if ctors_differ (o_ctor oa) (o_ctor ob) then Differ else Compound a b (object_kids oa ob)
  end.
Proof.
  intros Ha Hb. destruct c; unfold compare_classes; rewrite Ha, Hb; (rewrite decide_False by naive_solver); try done.
  all: try (destruct (tag_ref a _ Ha) as (i & oa & -> & Hi & Ci); [done..|];
    destruct (tag_ref b _ Hb) as (j & ob & -> & Hj & Cj); [done..|]).
  all: try (exists i, j, oa, ob; unfold typeof_object; rewrite Hi, Hj, ?Ci, ?Cj; split_and!; done).
  - unfold typeof_object. by rewrite Hi, Hj, Ci.
  - f_equal. generalize (to_num h a), (to_num h b). intros x y. case_decide as Hx.
    + subst x. by apply bool_decide_ext.
    + destruct (is_zero x) eqn:Ez.
      * destruct x as [| |n|[|p|p]], y as [| |m|[|q|q]]; try done.
      * apply eq_true_iff_eq. rewrite num_strict_same, bool_decide_eq_true. unfold same_number.
        split; [intros [_ [?|[? _]]]; congruence|intros ->; naive_solver].
Qed.

(** ** Deep equality passes every comparison *)

Lemma identical_step a : compare_head h a a = Equal.
Proof.
  destruct (strict_eq a a) eqn:E; [by apply head_strict; congruence|].
  destruct a as [| |b|x|s|l]; cbn in E; try (by rewrite bool_decide_true in E).
  destruct (decide (x = NaN)) as [->|Hx]; [|by rewrite num_strict_refl in E].
  unfold compare_head. cbn [strict_eq num_strict is_nullish orb]. rewrite (classes_same (Num NaN) (Num NaN) CNumber) by done. done.
Qed.

Lemma head_of_class a b c : has_class a c -> has_class b c ->
  (forall x y, a = Num x -> b = Num y -> x = y) -> compare_head h a b = Equal \/ compare_head h a b = compare_classes h (unwrap h a) (unwrap h b).
Proof.
  intros Ha Hb Hnum. destruct (strict_eq a b) eqn:E; [left; by apply head_strict|right].
  apply head_classes; [by eapply has_class_not_null..|done].
Qed.

Lemma array_kids_equal oa ob : length (o_elems oa) = length (o_elems ob) ->
  (forall n x y, o_elems oa !! n = Some x -> o_elems ob !! n = Some y -> deep_equal x y) ->
  exists kids, array_kids oa ob = Some kids /\ Forall (fun k => exists x y, k = Some (x, y) /\ deep_equal x y) kids.
Proof.
  intros Hl Hall. unfold array_kids. rewrite decide_True by done. eexists. split; [done|].
  apply Forall_rev, Forall_map, Forall_lookup. intros n [x y] Hn. apply lookup_zip_Some in Hn as [Hx Hy]. eauto.
Qed.

Lemma object_kids_equal i j oa ob : h !! i = Some oa -> h !! j = Some ob ->
  (forall k, is_Some (property oa k) <-> is_Some (property ob k)) ->
  (forall k x y, property oa k = Some x -> property ob k = Some y -> deep_equal x y) ->
  exists kids, object_kids oa ob = Some kids /\ Forall (fun k => exists x y, k = Some (x, y) /\ deep_equal x y) kids.
Proof.
  intros Hi Hj Hk Hall. pose proof (keys_unique Hstore _ _ Hi) as Ui. pose proof (keys_unique Hstore _ _ Hj) as Uj.
  apply (same_keys _ _ Ui Uj) in Hk as [Hlen Hsub]. unfold object_kids. rewrite decide_True by done. eexists. split; [done|].
  apply Forall_rev, Forall_map, Forall_forall. intros [k x] Hin. destruct (Hsub _ Hin) as [y Hy]. cbn [fst snd] in *. rewrite Hy.
  exists x, y. split; [done|]. apply (Hall k); [by apply get_prop_unique|done].
Qed.

Lemma deep_equal_step a b : deep_equal a b -> step_ok h deep_equal a b.
Proof.
  intros H. unfold step_ok. destruct H as [a|a b Ha Hb E|a b c Hc Ha Hb E|a b c Hc Ha Hb E|a b oa ob Da Db Ca Cb Hl Hall|a b oa ob Da Db Ec Hc Hct Hk Hall].
  - by rewrite identical_step.
  - destruct (head_of_class a b CNumber Ha Hb) as [-> | ->]; [intros x y -> ->; exact E|done|].
    rewrite (classes_same _ _ CNumber Ha Hb). by rewrite bool_decide_true.
  - destruct (head_of_class a b c Ha Hb) as [-> | ->]; [intros x y -> ->; destruct Hc as [-> | ->]; done|done|].
    pose proof (classes_same _ _ c Ha Hb) as Hs. destruct Hc as [-> | ->]; rewrite Hs; by rewrite bool_decide_true.
  - destruct (head_of_class a b c Ha Hb) as [-> | ->]; [intros x y -> ->; destruct Hc as [-> | ->]; done|done|].
    apply num_strict_same in E. pose proof (classes_same _ _ c Ha Hb) as Hs. destruct Hc as [-> | ->]; rewrite Hs; by rewrite E.
  - pose proof (denotes_class _ _ Da) as Ha. pose proof (denotes_class _ _ Db) as Hb. rewrite Ca in Ha. rewrite Cb in Hb.
    destruct (head_of_class a b CArray Ha Hb) as [-> | ->]; [by intros x y -> ->|done|].
    destruct (classes_same _ _ CArray Ha Hb) as (i & j & oa' & ob' & Ea & Eb & Hi & Hj & _ & _ & ->).
    destruct Da as (i' & Ea' & Hi'), Db as (j' & Eb' & Hj'). rewrite Ea in Ea'. rewrite Eb in Eb'. simplify_eq.
    destruct (array_kids_equal oa ob Hl Hall) as (kids & -> & Hkids). done.
  - pose proof (denotes_class _ _ Da) as Ha. pose proof (denotes_class _ _ Db) as Hb. rewrite <- Ec in Hb.
    destruct (head_of_class a b (o_class oa) Ha Hb) as [-> | ->]; [by intros x y -> ->; destruct Da as (l & ? & _)|done|].
    pose proof (classes_same _ _ _ Ha Hb) as Hs.
    destruct Da as (i & Ea & Hi), Db as (j & Eb & Hj).
    destruct (object_kids_equal i j oa ob Hi Hj Hk Hall) as (kids & Ek & Hkids). apply ctors_compatible in Hct.
    destruct Hc as [Hc|[Hc|Hc]]; rewrite Hc in Hs; destruct Hs as (i' & j' & oa' & ob' & Ea' & Eb' & Hi' & Hj' & _ & _ & ->);
      rewrite Ea in Ea'; rewrite Eb in Eb'; simplify_eq; by rewrite Hct, Ek.
Qed.

(** ** What passes every comparison is deeply equal *)

Lemma array_kids_inv oa ob kids (R : val -> val -> Prop) : array_kids oa ob = Some kids ->
  Forall (fun k => exists x y, k = Some (x, y) /\ R x y) kids ->
  length (o_elems oa) = length (o_elems ob) /\ forall n x y, o_elems oa !! n = Some x -> o_elems ob !! n = Some y -> R x y.
Proof.
  unfold array_kids. case_decide as Hl; [|done]. intros [= <-] Hk. split; [done|]. intros n x y Hx Hy.
  rewrite Forall_forall in Hk. destruct (Hk (Some (x, y))) as (x' & y' & [= <- <-] & HR); [|done].
  apply list_elem_of_In, in_rev. rewrite rev_involutive. apply in_map, list_elem_of_In, (list_elem_of_lookup_2 _ n).
  by apply lookup_zip_Some.
Qed.

Lemma object_kids_inv i j oa ob kids (R : val -> val -> Prop) : h !! i = Some oa -> h !! j = Some ob -> object_kids oa ob = Some kids ->
  Forall (fun k => exists x y, k = Some (x, y) /\ R x y) kids ->
  (forall k, is_Some (property oa k) <-> is_Some (property ob k)) /\
  forall k x y, property oa k = Some x -> property ob k = Some y -> R x y.
Proof.
  intros Hi Hj. unfold object_kids. case_decide as Hl; [|done]. intros [= <-] Hk.
  assert (forall p, p ∈ own_props oa -> exists y, get_prop (own_props ob) p.1 = Some y /\ R p.2 y) as Hall.
  { intros p Hp. rewrite Forall_forall in Hk.
    destruct (Hk (w ← get_prop (own_props ob) p.1; Some (p.2, w))) as (x & y & E & HR).
    - apply list_elem_of_In, in_rev. rewrite rev_involutive. apply (in_map (fun p => w ← get_prop (own_props ob) p.1; Some (p.2, w))).
      by apply list_elem_of_In.
    - destruct (get_prop (own_props ob) p.1) as [w|]; [|done]. cbn in E. simplify_eq. by exists y. }
  split.
  - apply (same_keys _ _ (keys_unique Hstore _ _ Hi) (keys_unique Hstore _ _ Hj)). split; [done|].
    intros p Hp. destruct (Hall p Hp) as (y & -> & _). done.
  - intros k x y Hx Hy. destruct (Hall (k, x)) as (y' & Hy' & HR); [by apply get_prop_in|]. cbn in Hy', HR.
    unfold property in Hy. rewrite Hy in Hy'. by simplify_eq.
Qed.

Lemma verdict_equal x : match verdict_of x with Equal => True | Compound _ _ (Some _) => False | _ => False end -> x = true.
Proof. by destruct x. Qed.

Lemma property_value o k v : property o k = Some v -> v ∈ o_elems o \/ v ∈ map snd (o_props o).
Proof. intros H%get_prop_in. apply own_props_values, list_elem_of_fmap. by exists (k, v). Qed.

Lemma property_good i o k v : h !! i = Some o -> property o k = Some v -> good v.
Proof. intros Hi [H|H]%property_value; [by eapply (elems_good Hstore)|by eapply (props_good Hstore)]. Qed.

Lemma bisimilar_deep rank : ranked h rank -> forall n a b, (forall l, unwrap h a = Ref l -> rank l < n) -> good a -> good b ->
  bisimilar h a b -> deep_equal a b.
Proof.
  intros Hr. induction n as [n IH] using lt_wf_ind. intros a b Hn Ga Gb Hb. apply bisimilar_step in Hb. unfold step_ok in Hb.
  destruct (strict_eq a b) eqn:Es.
  { unfold compare_head in Hb. rewrite Es in Hb. assert (a = b) as ->; [|constructor].
    destruct a as [| | |x| |], b as [| | |y| |]; cbn in Es; try (by apply bool_decide_eq_true in Es).
    f_equal. apply num_strict_eq; [done|]. by destruct (negb (is_zero x) || same_zero x y). }
  destruct (is_nullish a) eqn:Na; [unfold compare_head in Hb; by rewrite Es, Na in Hb|].
  destruct (is_nullish b) eqn:Nb; [unfold compare_head in Hb; by rewrite Es, Na, Nb in Hb|].
  rewrite head_classes in Hb by done.
  destruct (unwrap_good a Ga Na) as [Ga' Na']. destruct (unwrap_good b Gb Nb) as [Gb' Nb'].
  destruct (good_tag _ Ga' Na') as [c Ta]. destruct (good_tag _ Gb' Nb') as [c' Tb].
  destruct (decide (c = c')) as [<-|Hne].
  2: { unfold compare_classes in Hb. rewrite Ta, Tb, decide_True in Hb by congruence. done. }
  pose proof (classes_same _ _ c Ta Tb) as Hs.
  assert (forall i oa ob, unwrap h a = Ref i -> h !! i = Some oa -> (exists j, h !! j = Some ob) ->
    forall x y, (x ∈ o_elems oa \/ x ∈ map snd (o_props oa)) -> good x -> good y -> bisimilar h x y -> deep_equal x y) as Hdown.
  { intros i oa ob Ea Hi _ x y Hx Gx Gy Hxy. apply (IH (rank i) (Hn i Ea)); [|done..]. intros l Hl. by apply (Hr i oa x l). }
  assert (forall i j oa ob, unwrap h a = Ref i -> unwrap h b = Ref j -> h !! i = Some oa -> h !! j = Some ob -> o_class oa = o_class ob ->
    o_class oa = CObject \/ o_class oa = CArguments \/ o_class oa = CError ->
    match (if ctors_differ (o_ctor oa) (o_ctor ob) then Differ else Compound (unwrap h a) (unwrap h b) (object_kids oa ob)) with
    | Equal => True
    | Compound _ _ (Some kids) => Forall (fun k => exists x y, k = Some (x, y) /\ bisimilar h x y) kids
    | _ => False
    end -> deep_equal a b) as Hobj.
  { intros i j oa ob Ea Eb Hi Hj Ec Hc H. destruct (ctors_differ _ _) eqn:Ect; [done|]. destruct (object_kids oa ob) as [kids|] eqn:Ek; [|done].
    destruct (object_kids_inv i j oa ob kids _ Hi Hj Ek H) as [Hk Hall].
    apply (equal_objects a b oa ob); [by exists i|by exists j|done|done|by apply ctors_compatible|done|].
    intros k x y Hx Hy. apply (Hdown i oa ob); eauto using property_value, property_good. }
  destruct c.
  - destruct Hs as (i & j & oa & ob & Ea & Eb & Hi & Hj & Ca & Cb & Hs). rewrite Hs in Hb.
    apply (Hobj i j oa ob); [congruence..|rewrite Ca; tauto|done].
  - destruct Hs as (i & j & oa & ob & Ea & Eb & Hi & Hj & Ca & Cb & Hs). rewrite Hs in Hb.
    destruct (array_kids oa ob) as [kids|] eqn:Ek; [|done]. destruct (array_kids_inv oa ob kids _ Ek Hb) as [Hl Hall].
    apply (equal_arrays a b oa ob); [by exists i|by exists j|done|done|done|]. intros m x y Hx Hy.
    apply list_elem_of_lookup_2 in Hx as Ex. apply list_elem_of_lookup_2 in Hy as Ey.
    apply (Hdown i oa ob); [done|done|by exists j|by left|by apply (elems_good Hstore i oa)|by apply (elems_good Hstore j ob)|by apply (Hall m)].
  - destruct Hs as (i & j & oa & ob & Ea & Eb & Hi & Hj & Ca & Cb & Hs). rewrite Hs in Hb.
    apply (Hobj i j oa ob); [congruence..|rewrite Ca; tauto|done].
  - by rewrite Hs in Hb.
  - destruct Hs as (i & j & oa & ob & Ea & Eb & Hi & Hj & Ca & Cb & Hs). rewrite Hs in Hb.
    apply (Hobj i j oa ob); [congruence..|rewrite Ca; tauto|done].
  - rewrite Hs in Hb. case_bool_decide; [|done]. apply (equal_texts a b CRegExp); [by right|done..].
  - rewrite Hs in Hb. apply (equal_times a b CDate); [by left|done|done|]. apply num_strict_same. by destruct (num_strict _ _).
  - rewrite Hs in Hb. case_bool_decide; [|done]. apply (equal_texts a b CString); [by left|done..].
  - rewrite Hs in Hb. case_bool_decide; [|done]. by apply equal_numbers.
  - rewrite Hs in Hb. apply (equal_times a b CBoolean); [by right|done|done|]. apply num_strict_same. by destruct (num_strict _ _).
Qed.

(** ** The comparison never throws *)

Lemma head_no_throw a b : good a -> good b -> compare_head h a b <> TypeErr.
Proof.
  intros Ga Gb. unfold compare_head. destruct (strict_eq a b); [by destruct (match a with Num _ => _ | _ => _ end)|].
  destruct (is_nullish a) eqn:Na; [done|]. destruct (is_nullish b) eqn:Nb; [done|]. cbn [orb].
  destruct (unwrap_good a Ga Na) as [Ga' Na']. destruct (unwrap_good b Gb Nb) as [Gb' Nb'].
  destruct (good_tag _ Ga' Na') as [c Ta]. destruct (good_tag _ Gb' Nb') as [c' Tb].
  destruct (decide (c = c')) as [<-|Hne]; [|unfold compare_classes; by rewrite Ta, Tb, decide_True by congruence].
  pose proof (classes_same _ _ c Ta Tb) as Hs.
  destruct c; try (destruct Hs as (i & j & oa & ob & _ & _ & _ & _ & _ & _ & Hs)); rewrite Hs; try done;
    (destruct (ctors_differ _ _) || destruct (bool_decide _) || destruct (num_strict _ _)); done.
Qed.

Lemma kids_good i j oa ob kids x y : h !! i = Some oa -> h !! j = Some ob ->
  array_kids oa ob = Some kids \/ object_kids oa ob = Some kids -> Some (x, y) ∈ kids -> good x /\ good y.
Proof.
  intros Hi Hj Hk Hin.
  assert (forall l o v, h !! l = Some o -> v ∈ o_elems o \/ v ∈ map snd (o_props o) -> good v) as Hg.
  { intros l o v Hl [Hv|Hv]; [by eapply (elems_good Hstore)|by eapply (props_good Hstore)]. }
  split; [by eapply (Hg i oa), kids_below|]. apply (Hg j ob y Hj). destruct Hk as [H|H].
  - left. unfold array_kids in H. case_decide; [|done]. injection H as <-.
    apply list_elem_of_In, in_rev, list_elem_of_In, list_elem_of_fmap in Hin as ([x' y'] & [= <- <-] & Hin).
    by apply elem_of_zip_r in Hin.
  - unfold object_kids in H. case_decide; [|done]. injection H as <-.
    apply list_elem_of_In, in_rev, list_elem_of_In, list_elem_of_fmap in Hin as ([k v] & E & Hin).
    cbn in E. destruct (get_prop (own_props ob) k) as [w|] eqn:Ew; simplify_eq/=. by eapply property_value.
Qed.

Lemma eq_no_throw fuel a b stack : good a -> good b -> eq fuel h a b stack <> Throws.
Proof.
  revert a b stack. induction fuel as [|fuel IH]; intros a b stack Ga Gb; cbn [eq];
    pose proof (head_no_throw a b Ga Gb) as Hh; (destruct (compare_head h a b) as [| | |a' b' kids] eqn:Hc; try done);
    (destruct (on_stack stack a' b') as [[]|]; [done|done|]); (destruct kids as [kids|]; [|done]); [done|].
  destruct (compare_head_compound _ _ _ _ _ _ Hc) as (_ & _ & Hcl).
  destruct (compare_classes_compound _ _ _ _ _ _ Hcl) as (_ & _ & i & j & oa & ob & _ & _ & Hi & Hj & Hk).
  assert (forall x y, Some (x, y) ∈ kids -> good x /\ good y) as Hg.
  { intros x y. apply (kids_good i j oa ob); [done|done|]. destruct Hk as [Hk|Hk]; [left|right]; by symmetry. }
  clear Hk Hcl Hc Hh. induction kids as [|[[x y]|] kids IHk]; cbn [all_kids]; [done| |done].
  destruct (Hg x y) as [Gx Gy]; [by left|]. specialize (IH x y ((a', b') :: stack) Gx Gy).
  destruct (eq fuel h x y ((a', b') :: stack)); try done. apply IHk. intros x' y' Hin. apply Hg. by right.
Qed.

(** C37. On a store without cycles, as a program makes it (references lead to
    objects, keys are unique) and in which no underscore object wraps null or
    undefined, [_.isEqual] decides deep equality, as the rules of [deep_equal]
    define it: it answers yes on values that are deeply equal and no on those that
    are not, and never throws.  On two objects that wrap null it does throw:
    [isEqual_wrapped_null]. *)
Theorem isEqual_decides (a b : val) :
  acyclic h -> good a -> good b ->
  (isEqual h a b = Yes <-> deep_equal a b) /\ (isEqual h a b = No <-> ~ deep_equal a b).
Proof.
  intros Hac Ga Gb.
  assert (isEqual h a b = Yes <-> deep_equal a b) as Hyes.
  { rewrite (isEqual_acyclic h a b Hac). split.
    - destruct Hac as [rank Hr]. intros Hb. set (n := match unwrap h a with Ref l => S (rank l) | _ => 0 end).
      apply (bisimilar_deep rank Hr n); [|done..]. intros l El. unfold n. rewrite El. lia.
    - intros H. exists deep_equal. split; [|done]. intros x y. apply deep_equal_step. }
  split; [exact Hyes|]. rewrite <- Hyes. pose proof (eq_no_throw (length h) a b [] Ga Gb) as Ht. fold (isEqual h a b) in Ht.
  assert (isEqual h a b <> OutOfFuel) as Hf by (apply eq_terminates_from; [constructor|constructor|simpl; lia]).
  destruct (isEqual h a b); naive_solver.
Qed.

End DeepEqual.

(** The two records of [two_records] are equal, and neither equals its array. *)
Lemma two_records_ok : store_ok two_records.
Proof.
  split.
  - intros i o v Hi. do 4 (destruct i as [|i]; [injection Hi as <-; cbn; rewrite ?elem_of_cons, elem_of_nil; naive_solver|]). done.
  - intros i o v Hi. do 4 (destruct i as [|i]; [injection Hi as <-; cbn; rewrite ?elem_of_cons, elem_of_nil;
      intros Hv; destruct_or? Hv; subst; (done || (cbn; lia))|]). done.
  - intros i o v Hi. do 4 (destruct i as [|i]; [injection Hi as <-; done|]). done.
  - intros i o Hi. do 4 (destruct i as [|i]; [injection Hi as <-; apply (bool_decide_unpack _); vm_compute; exact I|]). done.
Qed.

Lemma isEqual_decides_witness :
  deep_equal two_records (Ref 0) (Ref 2) /\ ~ deep_equal two_records (Ref 0) (Ref 1).
Proof.
  assert (acyclic two_records) as Ha.
  { exists (fun i => if decide (i = 0 \/ i = 2) then 1 else 0). apply ranked_objects. intros i o Hi.
    do 4 (destruct i as [|i]; [injection Hi as <-; repeat constructor; compute; lia|]). done. }
  split.
  - apply (isEqual_decides two_records two_records_ok (Ref 0) (Ref 2) Ha); [cbn; lia|cbn; lia|]. vm_compute. reflexivity.
  - apply (isEqual_decides two_records two_records_ok (Ref 0) (Ref 1) Ha); [cbn; lia|cbn; lia|]. vm_compute. reflexivity.
Defined.
