(* ===== verification/JsObject.v ===== *)
(** * JavaScript objects with prototypes, and code that works on them

    What the collection and object functions of underscore see of the
    language: a store of objects with own enumerable properties in the order
    of [Object.keys], an own [length] that is not enumerable, a prototype, the
    members inherited from the built-in prototypes; property lookup, [in],
    [for in] and assignment; and programs on the store that may throw.

    Accessors and properties that cannot be written are left out, apart from
    the [length] of functions and strings.  Numbers are those of [JsHeap]. *)

From stdpp Require Import pretty.
From S2P Require Import Prelude.
From S2P Require Export JsHeap.

Declare Scope object_scope.
Delimit Scope object_scope with obj.
Open Scope object_scope.

(** ** Objects *)

Record jobject := JObject {
  j_class : class;
  j_proto : option nat;
  j_props : list (jsstr * val);
  j_length : option val            (** an own [length] outside of [j_props] *)
}.

Abbreviation store := (list jobject).

Definition empty_object : jobject := JObject CObject None [] None.

(** Keys that are array indices come first, in numeric order, then the others
    in the order in which they were made. *)
Definition is_digit (c : N) : bool := in_range 48 57 c.

Definition index_of (k : jsstr) : option N :=
  match k with
  | [] => None
  | c :: r =>
      if forallb is_digit k && (bool_decide (c <> 48%N) || bool_decide (r = [])) then
        let n := foldl (fun n d => n * 10 + (d - 48))%N 0%N k in
        if (n <? 2 ^ 32 - 1)%N then Some n else None
      else None
  end.

Definition goes_before (k k' : jsstr) : bool :=
  match index_of k, index_of k' with
  | Some i, Some j => (i <? j)%N
  | Some _, None => true
  | None, _ => false
  end.

Definition has_key (ps : list (jsstr * val)) (k : jsstr) : bool := bool_decide (k ∈ map fst ps).

Fixpoint insert_key (k : jsstr) (v : val) (ps : list (jsstr * val)) : list (jsstr * val) :=
  match ps with
  | [] => [(k, v)]
  | (k', w) :: rest => if goes_before k k' then (k, v) :: ps else (k', w) :: insert_key k v rest
  end.

Definition replace_key (k : jsstr) (v : val) (ps : list (jsstr * val)) : list (jsstr * val) :=
  map (fun p => if decide (p.1 = k) then (k, v) else p) ps.

Definition set_prop (k : jsstr) (v : val) (ps : list (jsstr * val)) : list (jsstr * val) :=
  if has_key ps k then replace_key k v ps else insert_key k v ps.

Definition with_props (ps : list (jsstr * val)) (o : jobject) : jobject :=
  JObject (j_class o) (j_proto o) ps (j_length o).
Definition with_proto (p : option nat) (o : jobject) : jobject :=
  JObject (j_class o) p (j_props o) (j_length o).
Definition with_length (n : val) (o : jobject) : jobject :=
  JObject (j_class o) (j_proto o) (j_props o) (Some n).

Notation length_key := (lit "length").
Notation proto_key := (lit "__proto__").

Definition is_array (s : store) (l : nat) : bool := bool_decide (j_class <$> s !! l = Some CArray).
Definition is_function (s : store) (v : val) : bool :=
  match v with Ref l => bool_decide (j_class <$> s !! l = Some CFunction) | _ => false end.
Definition is_object (v : val) : bool := match v with Ref _ => true | _ => false end.

(** ** Programs *)

Inductive exn := TypeError | RangeError | Thrown (v : val).

Inductive outcome (A : Type) := Ret (a : A) | Throw (e : exn).
Arguments Ret {A} a.
Arguments Throw {A} e.

Definition M (A : Type) : Type := store -> outcome A * store.

Definition ret {A} (a : A) : M A := fun s => (Ret a, s).
Definition throw {A} (e : exn) : M A := fun s => (Throw e, s).
Definition bind {A B} (m : M A) (f : A -> M B) : M B := fun s =>
  match m s with
  | (Ret a, s) => f a s
  | (Throw e, s) => (Throw e, s)
  end.
(** A value that is read off the store. *)
Definition look {A} (f : store -> A) : M A := fun s => (Ret (f s), s).

Notation "x <- m ;; k" := (bind m (fun x => k)) (at level 100, m at next level, right associativity) : object_scope.
Notation "m ;;; k" := (bind m (fun _ => k)) (at level 100, right associativity) : object_scope.

(** Loops that collect results, that carry a value along, and that leave with
    the first result of the body. *)
Fixpoint for_map {A B} (f : A -> M B) (l : list A) : M (list B) :=
  match l with
  | [] => ret []
  | x :: l => y <- f x ;; ys <- for_map f l ;; ret (y :: ys)
  end.

Fixpoint for_fold {A B} (f : B -> A -> M B) (acc : B) (l : list A) : M B :=
  match l with
  | [] => ret acc
  | x :: l => acc <- f acc x ;; for_fold f acc l
  end.

Fixpoint for_first {A B} (f : A -> M (option B)) (l : list A) : M (option B) :=
  match l with
  | [] => ret None
  | x :: l => r <- f x ;; match r with Some y => ret (Some y) | None => for_first f l end
  end.

Definition alloc (o : jobject) : M nat := fun s => (Ret (length s), s ++ [o]).
Definition update (l : nat) (f : jobject -> jobject) : M unit := fun s => (Ret tt, alter f l s).

(** ** Properties *)

Section Properties.
(** The members of the built-in prototypes, none of them enumerable. *)
Variable builtin : class -> jsstr -> option val.

Definition own_value (o : jobject) (k : jsstr) : option val :=
  match get_prop (j_props o) k with
  | Some v => Some v
  | None => if decide (k = length_key) then j_length o else None
  end.

(** [l[k]], with [None] for no property of that name; the chain of prototypes
    has no cycle, so that it is not longer than the store. *)
Fixpoint lookup_chain (fuel : nat) (s : store) (l : nat) (k : jsstr) : option val :=
  match fuel with
  | O => None
  | S fuel =>
      match s !! l with
      | None => None
      | Some o =>
          match own_value o k with
          | Some v => Some v
          | None => match j_proto o with
                    | Some p => lookup_chain fuel s p k
                    | None => builtin (j_class o) k
                    end
          end
      end
  end.

Definition get_member (s : store) (l : nat) (k : jsstr) : option val := lookup_chain (length s) s l k.

(** [v[k]] *)
Definition get (v : val) (k : jsstr) : M val :=
  match v with
  | Undefined | Null => throw TypeError
  | Bool _ => ret (default Undefined (builtin CBoolean k))
  | Num _ => ret (default Undefined (builtin CNumber k))
  | Str t =>
      ret (if decide (k = length_key) then Num (Int (Z.of_nat (length t)))
           else match index_of k with
                | Some i => match t !! N.to_nat i with Some c => Str [c] | None => Undefined end
                | None => default Undefined (builtin CString k)
                end)
  | Ref l => look (fun s => default Undefined (get_member s l k))
  end.

(** [k in v]; [in] throws on a primitive. *)
Definition is_in (k : jsstr) (v : val) : M bool :=
  match v with
  | Ref l => look (fun s => bool_decide (is_Some (get_member s l k)))
  | _ => throw TypeError
  end.

(** [hasOwnProperty.call(l, k)] *)
Definition has_own (s : store) (l : nat) (k : jsstr) : bool :=
  match s !! l with Some o => bool_decide (is_Some (own_value o k)) | None => false end.

(** [Object.keys] *)
Definition own_keys (s : store) (l : nat) : list jsstr :=
  match s !! l with Some o => map fst (j_props o) | None => [] end.

(** The names that [for (key in l)] goes through: those of the prototypes
    after the own ones, without the ones seen before. *)
Definition shadow (o : jobject) : list jsstr :=
  map fst (j_props o) ++ match j_length o with Some _ => [length_key] | None => [] end.

Fixpoint for_in (fuel : nat) (s : store) (l : nat) (seen : list jsstr) : list jsstr :=
  match fuel with
  | O => []
  | S fuel =>
      match s !! l with
      | None => []
      | Some o =>
          List.filter (fun k => bool_decide (k ∉ seen)) (map fst (j_props o)) ++
          match j_proto o with Some p => for_in fuel s p (seen ++ shadow o) | None => [] end
      end
  end.

Definition enumerable (s : store) (l : nat) : list jsstr := for_in (length s) s l [].

(** Whether [p] is [l] or has it as a prototype. *)
Fixpoint inherits_from (fuel : nat) (s : store) (p l : nat) : bool :=
  bool_decide (p = l) ||
  match fuel with
  | O => false
  | S fuel => match s !! p ≫= j_proto with Some q => inherits_from fuel s q l | None => false end
  end.

(** ** Conversions

    [String(v)] and [v.valueOf()] of an object run its methods;
    [number_of] is the number that a string reads as. *)
Variable to_text : nat -> M jsstr.
Variable value_of : nat -> M val.
Variable number_of : jsstr -> num.

Definition number_text (x : num) : jsstr :=
  match x with
  | NaN => lit "NaN"
  | NegZero => lit "0"
  | Inf negative => if negative then lit "-Infinity" else lit "Infinity"
  | Int z => lit (pretty z)
  end.

(** [String(v)], also the name of the property [obj[v]]. *)
Definition to_string (v : val) : M jsstr :=
  match v with
  | Undefined => ret (lit "undefined")
  | Null => ret (lit "null")
  | Bool b => ret (if b then lit "true" else lit "false")
  | Num x => ret (number_text x)
  | Str t => ret t
  | Ref l => to_text l
  end.

(** The value an object is compared as. *)
Definition to_primitive (v : val) : M val := match v with Ref l => value_of l | _ => ret v end.

Definition prim_number (v : val) : num :=
  match v with
  | Undefined | Ref _ => NaN
  | Null => Int 0
  | Bool b => Int (if b then 1 else 0)
  | Num x => x
  | Str t => number_of t
  end.

Definition truthy (v : val) : bool :=
  match v with
  | Undefined | Null | Bool false | Num NaN | Num NegZero | Num (Int 0) => false
  | Str t => bool_decide (t <> [])
  | _ => true
  end.

Definition num_lt (x y : num) : bool :=
  match x, y with
  | NaN, _ | _, NaN => false
  | Inf a, Inf b => a && negb b
  | Inf a, _ => a
  | _, Inf b => negb b
  | _, _ =>
      let z n := match n with Int z => z | _ => 0%Z end in (z x <? z y)%Z
  end.

(** [a < b] on primitives: strings by code units, everything else by number. *)
Definition prim_lt (a b : val) : bool :=
  match a, b with
  | Str x, Str y => negb (str_leb y x)
  | _, _ => num_lt (prim_number a) (prim_number b)
  end.

Definition less (a b : val) : M bool := a <- to_primitive a ;; b <- to_primitive b ;; ret (prim_lt a b).
(** [a > b] converts the left side first too. *)
Definition greater (a b : val) : M bool := a <- to_primitive a ;; b <- to_primitive b ;; ret (prim_lt b a).

(** ** Assignment *)

(** [array.length = v] *)
Definition set_array_length (l : nat) (v : val) : M unit :=
  p <- to_primitive v ;;
  let keep (z : Z) (o : jobject) :=
    List.filter (fun p => match index_of p.1 with Some i => Z.of_N i <? z | None => true end)%Z (j_props o) in
  match prim_number p with
  | Int z =>
      if decide (0 <= z < 2 ^ 32)%Z then update l (fun o => with_length (Num (Int z)) (with_props (keep z o) o))
      else throw RangeError
  | NegZero => update l (fun o => with_length (Num (Int 0)) (with_props (keep 0%Z o) o))
  | _ => throw RangeError
  end.

(** What an element that is set does to the length of an array. *)
Definition grow (k : jsstr) (o : jobject) : jobject :=
  match j_class o, j_length o, index_of k with
  | CArray, Some (Num (Int n)), Some i => if (n <=? Z.of_N i)%Z then with_length (Num (Int (Z.of_N i + 1))) o else o
  | _, _, _ => o
  end.

(** [obj[k] = v]: nothing happens on a primitive. *)
Definition put (obj : val) (k : jsstr) (v : val) : M unit :=
  match obj with
  | Undefined | Null => throw TypeError
  | Ref l =>
      if decide (k = proto_key) then
        match v with
        | Ref p => c <- look (fun s => inherits_from (length s) s p l) ;;
                   if c then throw TypeError else update l (with_proto (Some p))
        | Null => update l (with_proto None)
        | _ => ret tt
        end
      else
        o <- look (fun s => s !! l) ;;
        match (if decide (k = length_key) then o ≫= j_length else None), j_class <$> o with
        | Some _, Some CArray => set_array_length l v
        | Some _, Some CArguments => update l (with_length v)
        | Some _, _ => ret tt
        | None, _ => update l (fun o => grow k (with_props (set_prop k v (j_props o)) o))
        end
  | _ => ret tt
  end.
End Properties.

(** ** Lemmas *)

Lemma get_insert_key k v ps k' :
  has_key ps k = false -> get_prop (insert_key k v ps) k' = if decide (k = k') then Some v else get_prop ps k'.
Proof.
  unfold has_key. rewrite bool_decide_eq_false. intros Hk.
  induction ps as [|[k0 w] ps IH]; cbn [insert_key get_prop]; [done|].
  cbn [map fst] in Hk. apply not_elem_of_cons in Hk as [Hk0 Hk].
  destruct (goes_before k k0); cbn [get_prop]; [done|]. rewrite IH by done.
  repeat case_decide; congruence.
Qed.

Lemma get_prop_None ps k : get_prop ps k = None <-> k ∉ map fst ps.
Proof.
  induction ps as [|[k0 w] ps IH]; cbn [get_prop map fst]; [by split; [inversion 2|]|].
  rewrite not_elem_of_cons. case_decide; naive_solver.
Qed.

Lemma get_replace_key k v ps k' :
  has_key ps k = true -> get_prop (replace_key k v ps) k' = if decide (k = k') then Some v else get_prop ps k'.
Proof.
  unfold has_key. rewrite bool_decide_eq_true. intros Hk.
  induction ps as [|[k0 w] ps IH]; cbn [map fst] in Hk; [by apply not_elem_of_nil in Hk|].
  cbn [replace_key map get_prop fst]. fold (replace_key k v ps).
  destruct (decide (k0 = k)) as [->|Hk0]; cbn [get_prop].
  - destruct (decide (k = k')) as [|Hkk]; [done|]. clear - Hkk. induction ps as [|[k1 w'] ps IH]; [done|].
    cbn [replace_key map get_prop fst]. fold (replace_key k v ps). destruct (decide (k1 = k)); cbn [get_prop].
    + rewrite !decide_False by congruence. exact IH.
    + by rewrite IH.
  - apply elem_of_cons in Hk as [->|Hk]; [done|]. rewrite IH by done. repeat case_decide; congruence.
Qed.

Lemma get_set_prop k v ps k' : get_prop (set_prop k v ps) k' = if decide (k = k') then Some v else get_prop ps k'.
Proof. unfold set_prop. destruct (has_key ps k) eqn:E; [by apply get_replace_key|by apply get_insert_key]. Qed.
