(* ===== verification/UnderscoreObjects.v ===== *)
(** * underscore: callbacks and object functions

    The functions of module 25 of wordcut.js on objects ([keys] to [isMatch],
    lines 5424-5614, and the type tests), with the internal functions that
    turn an argument into a callback ([optimizeCb], [cb], [matcher],
    [property], lines 4586-4663).

    User code is [call]: it may do anything to the store and may throw.
    Arrays that a function makes and returns are lists, since nobody else has
    them yet; objects are allocated in the store.  [Object.keys] exists and
    enumeration is not that of old versions of Internet Explorer, so that
    [collectNonEnumProps] and the loop after [nativeKeys] do not run. *)

From S2P Require Import Prelude UnderscoreArrays JsObject.

(** A function value: its [this] and its arguments. *)
Abbreviation closure := (val -> list val -> M val).

Definition arg (n : nat) (args : list val) : val := default Undefined (args !! n).

(** The arguments that [func.call(context, a1, ..., an)] passes on. *)
Definition exactly (n : nat) (args : list val) : list val := map (fun i => arg i args) (seq 0 n).

(** [argCount]: absent, a number from one to four, another number. *)
Inductive arg_count := NoCount | Count (n : nat) | OtherCount.

Definition optimizeCb (func : closure) (context : val) (argCount : arg_count) : closure :=
  if decide (context = Undefined) then func
  else match argCount with
       | NoCount => fun _ args => func context (exactly 3 args)
       | Count n => fun _ args => func context (exactly n args)
       | OtherCount => fun _ args => func context args
       end.

(** An argument that may be a function of underscore itself. *)
Inductive fn := User (v : val) | Inner (c : closure).

(** [_.identity], [_.negate] *)
Definition identity : closure := fun _ args => ret (arg 0 args).
Definition negate (predicate : closure) : closure :=
  fun this args => b <- predicate this args ;; ret (Bool (negb (truthy b))).

(** Elements of arrays as seen by [_.isNaN], which holds of boxed numbers. *)
Definition val_is_nan (s : store) (v : val) : bool :=
  match v with
  | Num NaN => true
  | Ref l => bool_decide (j_class <$> s !! l = Some CNumber)
  | _ => false
  end.

Lemma num_strict_refl_eq x : num_strict x x = false -> x = NaN.
Proof. destruct x as [| |b|[]]; cbn; try done; rewrite bool_decide_eq_false; done. Qed.

Program Definition val_element (s : store) : Element val := {| seqb := strict_eq; is_nan := val_is_nan s |}.
Next Obligation.
  intros s [| |b|x|t|l] [| |b'|x'|t'|l']; cbn; try (by apply bool_decide_ext); try done.
  destruct x as [| |?|[]], x' as [| |?|[]]; cbn; try done; by apply bool_decide_ext.
Qed.
Next Obligation.
  intros s a b c. destruct a as [| |?|x|?|?], b as [| |?|y|?|?], c as [| |?|z|?|?]; cbn [strict_eq];
    rewrite ?bool_decide_eq_true; try congruence.
  destruct x as [| |?|[]], y as [| |?|[]], z as [| |?|[]]; cbn; rewrite ?bool_decide_eq_true; try congruence.
Qed.
Next Obligation.
  intros s [| |b|x|t|l]; cbn [strict_eq val_is_nan]; rewrite ?bool_decide_eq_false; try done.
  intros ->%num_strict_refl_eq. done.
Qed.

Section Objects.
Variable builtin : class -> jsstr -> option val.
Variable to_text : nat -> M jsstr.
Variable value_of : nat -> M val.
Variable number_of : jsstr -> num.
Variable call : nat -> val -> list val -> M val.

Let get := get builtin.
Let put := put value_of number_of.
Let to_string := to_string to_text.

(** Calling a value, which throws if it is not a function. *)
Definition call_val (f : val) : closure := fun this args =>
  b <- look (fun s => is_function s f) ;;
  match b, f with
  | true, Ref l => call l this args
  | _, _ => throw TypeError
  end.

(** [property(key)] *)
Definition property (key : val) : closure := fun _ args =>
  let obj := arg 0 args in
  if is_nullish obj then ret Undefined else k <- to_string key ;; get obj k.

Definition getLength (obj : val) : M val := if is_nullish obj then ret Undefined else get obj length_key.

Definition MAX_ARRAY_INDEX : Z := 2 ^ 53 - 1.

(** [isArrayLike], with the length. *)
Definition length_of (v : val) : option nat :=
  match v with
  | Num (Int z) => if decide (0 <= z <= MAX_ARRAY_INDEX)%Z then Some (Z.to_nat z) else None
  | Num NegZero => Some 0
  | _ => None
  end.

Definition isArrayLike (collection : val) : M (option nat) := n <- getLength collection ;; ret (length_of n).

(** ** Type tests *)

Definition tag_is (c : class) (v : val) : M bool :=
  match v with
  | Ref l => look (fun s => bool_decide (j_class <$> s !! l = Some c))
  | Str _ => ret (bool_decide (c = CString))
  | Num _ => ret (bool_decide (c = CNumber))
  | Bool _ => ret (bool_decide (c = CBoolean))
  | Undefined | Null => ret false
  end.

(** [Array.isArray] and the functions made by line 5741. *)
Definition isArray := tag_is CArray.
Definition isArguments := tag_is CArguments.
Definition isString := tag_is CString.
Definition isBoolean := tag_is CBoolean.

(** [_.has] *)
Definition _has (obj : val) (key : jsstr) : M bool :=
  match obj with
  | Undefined | Null => ret false
  | Ref l => look (fun s => has_own s l key)
  | Str t => ret (bool_decide (key = length_key) || match index_of key with Some i => bool_decide (N.to_nat i < length t) | None => false end)
  | _ => ret false
  end.

(** [key in Object(v)] *)
Definition in_boxed (key : jsstr) (v : val) : M bool :=
  match v with
  | Ref _ => is_in builtin key v
  | _ => own <- _has v key ;;
         ret (own || bool_decide (is_Some (match v with
                                            | Str _ => builtin CString key
                                            | Num _ => builtin CNumber key
                                            | Bool _ => builtin CBoolean key
                                            | _ => None
                                            end)))
  end.

(** ** Keys and values *)

Definition _keys (obj : val) : M (list jsstr) :=
  match obj with Ref l => look (fun s => own_keys s l) | _ => ret [] end.

Definition _allKeys (obj : val) : M (list jsstr) :=
  match obj with Ref l => look (fun s => enumerable s l) | _ => ret [] end.

Definition _values (obj : val) : M (list val) := keys <- _keys obj ;; for_map (get obj) keys.

Definition _pairs (obj : val) : M (list (jsstr * val)) :=
  keys <- _keys obj ;; for_map (fun k => v <- get obj k ;; ret (k, v)) keys.

Definition for_do {A} (f : A -> M unit) (l : list A) : M unit := for_fold (fun _ x => f x) tt l.

(** [_.invert]; the values become names. *)
Definition _invert (obj : val) : M val :=
  result <- alloc empty_object ;;
  keys <- _keys obj ;;
  for_do (fun k => v <- get obj k ;; name <- to_string v ;; put (Ref result) name (Str k)) keys ;;;
  ret (Ref result).

(** [_.functions]: the names of the methods, sorted. *)
Definition _functions (obj : val) : M (list jsstr) :=
  keys <- _allKeys obj ;;
  names <- for_fold (fun names k => v <- get obj k ;; b <- look (fun s => is_function s v) ;;
                                    ret (if b : bool then names ++ [k] else names)) [] keys ;;
  ret (merge_sort str_le names).

(** [_.object(list)] for a list of pairs and [_.object(list, values)], on
    arrays that are given by their elements. *)
Definition _object_pairs (list_ : list (val * val)) : M val :=
  result <- alloc empty_object ;;
  for_do (fun p => k <- to_string p.1 ;; put (Ref result) k p.2) list_ ;;;
  ret (Ref result).

Definition _object_values (list_ values : list val) : M val :=
  _object_pairs (imap (fun i k => (k, arg i values)) list_).

(** ** Assigners *)

(** One property of a source. *)
Definition assign_key (undefinedOnly : bool) (obj source : val) (key : jsstr) : M unit :=
  wanted <- (if undefinedOnly then v <- get obj key ;; ret (bool_decide (v = Undefined)) else ret true) ;;
  if wanted : bool then v <- get source key ;; put obj key v else ret tt.

Definition createAssigner (keysFunc : val -> M (list jsstr)) (undefinedOnly : bool) (obj : val) (sources : list val)
    : M val :=
  if is_nullish obj then ret obj
  else
    for_do (fun source => keys <- keysFunc source ;; for_do (assign_key undefinedOnly obj source) keys) sources ;;;
    ret obj.

Definition _extend := createAssigner _allKeys false.
Definition _extendOwn := createAssigner _keys false.
Definition _defaults := createAssigner _allKeys true.

Definition baseCreate (prototype : val) : M nat :=
  match prototype with
  | Ref p => alloc (JObject CObject (Some p) [] None)
  | _ => alloc empty_object
  end.

Definition _create (prototype props : val) : M val :=
  result <- baseCreate prototype ;;
  (if truthy props then _extendOwn (Ref result) [props] ;;; ret tt else ret tt) ;;;
  ret (Ref result).

(** [obj.slice()] of an array keeps the holes. *)
Definition slice_all_of (o : jobject) : jobject :=
  JObject CArray None (List.filter (fun p => bool_decide (is_Some (index_of p.1))) (j_props o)) (j_length o).

Definition _clone (obj : val) : M val :=
  match obj with
  | Ref l =>
      o <- look (fun s => s !! l) ;;
      match o with
      | Some o =>
          if decide (j_class o = CArray) then r <- alloc (slice_all_of o) ;; ret (Ref r)
          else r <- alloc empty_object ;; _extend (Ref r) [obj]
      | None => ret obj
      end
  | _ => ret obj
  end.

(** [_.tap] *)
Definition _tap (obj interceptor : val) : M val := call_val interceptor Undefined [obj] ;;; ret obj.

(** ** Matching and callbacks *)

Definition _isMatch (object attrs : val) : M bool :=
  keys <- _keys attrs ;;
  if is_nullish object then ret (bool_decide (keys = []))
  else
    miss <- for_first (fun key =>
              a <- get attrs key ;;
              v <- get object key ;;
              if negb (strict_eq a v) then ret (Some tt)
              else b <- in_boxed key object ;; ret (if b : bool then None else Some tt)) keys ;;
    ret (bool_decide (miss = None)).

Definition _matcher (attrs : val) : M closure :=
  copy <- alloc empty_object ;;
  _extendOwn (Ref copy) [attrs] ;;;
  ret (fun _ args => b <- _isMatch (arg 0 args) (Ref copy) ;; ret (Bool b)).

Definition cb (value : fn) (context : val) (argCount : arg_count) : M closure :=
  match value with
  | Inner c => ret (optimizeCb c context argCount)
  | User v =>
      if is_nullish v then ret identity
      else
        f <- look (fun s => is_function s v) ;;
        if f : bool then ret (optimizeCb (call_val v) context argCount)
        else if is_object v then _matcher v
        else ret (property v)
  end.

Definition _iteratee (value : fn) (context : val) : M closure := cb value context OtherCount.

(** [_.mapObject], [_.findKey] *)
Definition _mapObject (obj : val) (iteratee : fn) (context : val) : M val :=
  iteratee <- cb iteratee context NoCount ;;
  keys <- _keys obj ;;
  results <- alloc empty_object ;;
  for_do (fun k => v <- get obj k ;; w <- iteratee Undefined [v; Str k; obj] ;; put (Ref results) k w) keys ;;;
  ret (Ref results).

Definition _findKey (obj : val) (predicate : fn) (context : val) : M (option jsstr) :=
  predicate <- cb predicate context NoCount ;;
  keys <- _keys obj ;;
  for_first (fun k => v <- get obj k ;; b <- predicate Undefined [v; Str k; obj] ;;
                      ret (if truthy b then Some k else None)) keys.

(** ** pick and omit *)

(** The elements of a value that [flatten] takes for an array. *)
Definition array_elements (s : store) (v : val) : option (list val) :=
  match v with
  | Ref l =>
      o ← s !! l;
      if decide (j_class o = CArray \/ j_class o = CArguments) then
        n ← get_member builtin s l length_key ≫= length_of;
        Some (map (fun i => default Undefined (get_member builtin s l (index_key i))) (seq 0 n))
      else None
  | _ => None
  end.

(** [flatten(arguments, false, false, 1)]: arrays in the arguments at any
    depth; one that holds itself exceeds the stack. *)
Definition flatten_args (args : list val) : M (list val) :=
  r <- look (fun s => flatten (array_elements s) (S (length s)) false false args) ;;
  match r with Some l => ret l | None => throw RangeError end.

(** What to pick: by a function, or by names. *)
Inductive picker := ByFn (f : closure) (context : val) | ByNames (names : list val).

(** The loop over the keys. *)
Definition pick_key (obj : val) (result : nat) (iteratee : val -> val -> M bool) (key : val) : M unit :=
  k <- to_string key ;;
  value <- get obj k ;;
  b <- iteratee value key ;;
  if b : bool then k <- to_string key ;; put (Ref result) k value else ret tt.

Definition _pick (object : val) (p : picker) : M val :=
  result <- alloc empty_object ;;
  if is_nullish object then ret (Ref result)
  else
    match p with
    | ByFn f context =>
        keys <- _allKeys object ;;
        for_do (pick_key object result (fun value key =>
          b <- optimizeCb f context NoCount Undefined [value; key; object] ;; ret (truthy b))) (map Str keys)
    | ByNames names =>
        keys <- flatten_args names ;;
        for_do (pick_key object result (fun value key => k <- to_string key ;; in_boxed k object)) keys
    end ;;;
    ret (Ref result).

Definition _omit (obj : val) (p : picker) : M val :=
  match p with
  | ByFn f context => _pick obj (ByFn (negate f) context)
  | ByNames names =>
      flat <- flatten_args names ;;
      keys <- for_map to_string flat ;;
      _pick obj (ByFn (fun _ args =>
        ret (Bool (match arg 1 args with Str k => negb (contains keys k) | _ => true end)))
        (arg 1 names))
  end.

(** ** Sizes *)

Definition _isEmpty (obj : val) : M bool :=
  if is_nullish obj then ret true
  else
    n <- isArrayLike obj ;;
    a <- isArray obj ;; t <- isString obj ;; g <- isArguments obj ;;
    match n with
    | Some n => if a || t || g then ret (bool_decide (n = 0)) else keys <- _keys obj ;; ret (bool_decide (keys = []))
    | None => keys <- _keys obj ;; ret (bool_decide (keys = []))
    end.

Definition _size (obj : val) : M nat :=
  if is_nullish obj then ret 0
  else n <- isArrayLike obj ;;
       match n with Some n => ret n | None => keys <- _keys obj ;; ret (length keys) end.
End Objects.
