(* ===== verification/UnderscoreCollections.v ===== *)
(** * underscore: collection functions

    The collection functions of module 25 of wordcut.js (lines 4665-4960 and
    the functions on arrays that are built on them), over the objects of
    [JsObject]: arrays with holes, array-like objects, plain objects, strings
    and primitives.  Iteratees are user code that may change the collection
    while it is walked over, or throw. *)

From stdpp Require Import pretty.
From S2P Require Import Prelude UnderscoreArrays JsObject UnderscoreObjects.

(** What [sort] is given and gives: a comparison that may throw, a list. *)
Abbreviation sorting := (forall A : Type, (A -> A -> M Z) -> list A -> M (list A)).

Section Collections.
Variable builtin : class -> jsstr -> option val.
Variable to_text : nat -> M jsstr.
Variable value_of : nat -> M val.
Variable number_of : jsstr -> num.
Variable call : nat -> val -> list val -> M val.

Let get := get builtin.
Let to_string := to_string to_text.
Let less := less value_of number_of.
Let greater := greater value_of number_of.
Let cb := cb builtin to_text value_of number_of call.
Let matcher := _matcher builtin value_of number_of.
Let isArrayLike := isArrayLike builtin.
Let values := _values builtin.

(** The keys to go through, fixed before the first call: indices of an
    array-like collection, names otherwise. *)
Definition index_val (i : nat) : val := Num (Int (Z.of_nat i)).
Definition key_name (key : val) : jsstr :=
  match key with Num (Int z) => lit (pretty z) | Str k => k | _ => [] end.

Definition collection_keys (obj : val) : M (list val) :=
  n <- isArrayLike obj ;;
  match n with
  | Some n => ret (map index_val (seq 0 n))
  | None => keys <- _keys obj ;; ret (map Str keys)
  end.

(** ** Iteration *)

Definition each (obj : val) (iteratee : closure) : M val :=
  keys <- collection_keys obj ;;
  for_do (fun key => v <- get obj (key_name key) ;; iteratee Undefined [v; key; obj] ;;; ret tt) keys ;;;
  ret obj.

Definition _each (obj : val) (iteratee context : val) : M val :=
  each obj (optimizeCb (call_val call iteratee) context NoCount).

Definition _map (obj : val) (iteratee : fn) (context : val) : M (list val) :=
  iteratee <- cb iteratee context NoCount ;;
  keys <- collection_keys obj ;;
  for_map (fun key => v <- get obj (key_name key) ;; iteratee Undefined [v; key; obj]) keys.

(** [createReduce(dir)]; without [memo] the first element takes its place,
    for an empty collection what there is at the position before it. *)
Definition first_key (d : dir) (obj : val) (keys : list val) : M jsstr :=
  n <- isArrayLike obj ;;
  ret (match n with
       | Some n => match d with Up => lit "0" | Down => lit (pretty (Z.of_nat n - 1)%Z) end
       | None => match (match d with Up => head keys | Down => last keys end) with
                 | Some k => key_name k
                 | None => lit "undefined"
                 end
       end).

Definition createReduce (d : dir) (obj : val) (iteratee : val) (memo : option val) (context : val) : M val :=
  let iteratee := optimizeCb (call_val call iteratee) context (Count 4) in
  keys <- collection_keys obj ;;
  let order := match d with Up => keys | Down => rev keys end in
  let loop := for_fold (fun memo key => v <- get obj (key_name key) ;; iteratee Undefined [memo; v; key; obj]) in
  match memo with
  | Some memo => loop memo order
  | None => k <- first_key d obj keys ;; memo <- get obj k ;; loop memo (tail order)
  end.

Definition _reduce := createReduce Up.
Definition _reduceRight := createReduce Down.

(** ** Tests *)

(** [_.findIndex] and [_.findLastIndex] on the store. *)
Definition find_index (d : dir) (array : val) (predicate : fn) (context : val) : M (option nat) :=
  predicate <- cb predicate context NoCount ;;
  n <- getLength builtin array ;;
  let indices := seq 0 (default 0 (length_of n)) in
  for_first (fun i => v <- get array (index_key i) ;; b <- predicate Undefined [v; index_val i; array] ;;
                      ret (if truthy b then Some i else None))
    (match d with Up => indices | Down => rev indices end).

Definition _find (obj : val) (predicate : fn) (context : val) : M val :=
  n <- isArrayLike obj ;;
  key <- match n with
         | Some _ => i <- find_index Up obj predicate context ;; ret (index_key <$> i)
         | None => _findKey builtin to_text value_of number_of call obj predicate context
         end ;;
  match key with Some k => get obj k | None => ret Undefined end.

Definition _filter (obj : val) (predicate : fn) (context : val) : M (list val) :=
  predicate <- cb predicate context NoCount ;;
  keys <- collection_keys obj ;;
  for_fold (fun results key =>
      v <- get obj (key_name key) ;; b <- predicate Undefined [v; key; obj] ;;
      ret (if truthy b then results ++ [v] else results)) [] keys.

Definition _reject (obj : val) (predicate : fn) (context : val) : M (list val) :=
  p <- cb predicate Undefined NoCount ;; _filter obj (Inner (negate p)) context.

Definition first_with (obj : val) (predicate : closure) (want : bool) : M bool :=
  keys <- collection_keys obj ;;
  r <- for_first (fun key =>
         v <- get obj (key_name key) ;; b <- predicate Undefined [v; key; obj] ;;
         ret (if Bool.eqb (truthy b) want then Some tt else None)) keys ;;
  ret (bool_decide (is_Some r)).

Definition _every (obj : val) (predicate : fn) (context : val) : M bool :=
  predicate <- cb predicate context NoCount ;; stop <- first_with obj predicate false ;; ret (negb stop).

Definition _some (obj : val) (predicate : fn) (context : val) : M bool :=
  predicate <- cb predicate context NoCount ;; first_with obj predicate true.

(** The elements of an array-like collection or the values of another. *)
Definition items (obj : val) : M (list val) :=
  n <- isArrayLike obj ;;
  match n with
  | Some n => for_map (fun i => get obj (index_key i)) (seq 0 n)
  | None => values obj
  end.

(** [_.contains]; [fromIndex] is an integer, or not a number or overridden by
    [guard]. *)
Definition _contains (obj item : val) (fromIndex : option Z) : M bool :=
  l <- items obj ;;
  look (fun s => match @indexOf _ (val_element s) (fun _ _ => false) l item (From (default 0%Z fromIndex)) with
                 | Some i => (0 <=? i)%Z
                 | None => false
                 end).

(** ** Shortcuts *)

Definition _invoke (obj method : val) (args : list val) : M (list val) :=
  isFunc <- look (fun s => is_function s method) ;;
  _map obj (Inner (fun _ a =>
    let value := arg 0 a in
    func <- (if isFunc : bool then ret method else k <- to_string method ;; get value k) ;;
    if is_nullish func then ret func else call_val call func value args)) Undefined.

Definition _pluck (obj key : val) : M (list val) := _map obj (Inner (property builtin to_text key)) Undefined.

Definition _where (obj attrs : val) : M (list val) :=
  m <- matcher attrs ;; _filter obj (Inner m) Undefined.

Definition _findWhere (obj attrs : val) : M val := m <- matcher attrs ;; _find obj (Inner m) Undefined.

(** ** Extremes *)

(** [better a b]: [a > b] for [max] and [a < b] for [min], which start from
    [worst]. *)
Definition better (d : dir) (a b : val) : M bool := match d with Up => greater a b | Down => less a b end.
Definition worst (d : dir) : val := Num (Inf (match d with Up => true | Down => false end)).

Definition extreme_values (d : dir) (l : list val) : M val :=
  for_fold (fun result value => b <- better d value result ;; ret (if b : bool then value else result)) (worst d) l.

Definition extreme (d : dir) (obj : val) (iteratee : fn) (context : val) : M val :=
  let by_computed :=
    iteratee <- cb iteratee context NoCount ;;
    keys <- collection_keys obj ;;
    r <- for_fold (fun '(result, lastComputed) key =>
           value <- get obj (key_name key) ;;
           computed <- iteratee Undefined [value; key; obj] ;;
           b <- better d computed lastComputed ;;
           ret (if b || strict_eq computed (worst d) && strict_eq result (worst d)
                then (value, computed) else (result, lastComputed)))
         (worst d, worst d) keys ;;
    ret r.1 in
  match iteratee with
  | User v => if is_nullish v && negb (is_nullish obj) then l <- items obj ;; extreme_values d l else by_computed
  | Inner _ => by_computed
  end.

Definition _max := extreme Up.
Definition _min := extreme Down.

(** ** Sorting *)

(** [array.sort(compare)] of the engine. *)
Variable sort : sorting.

Record sorted_item := SortedItem { si_value : val; si_index : val; si_criteria : val }.

(** [left.index - right.index]; names are not numbers, and [sort] takes NaN
    for zero. *)
Definition index_difference (a b : val) : Z :=
  match a, b with Num (Int x), Num (Int y) => (x - y)%Z | _, _ => 0%Z end.

Definition compare_items (left right : sorted_item) : M Z :=
  let a := si_criteria left in
  let b := si_criteria right in
  let by_index := ret (index_difference (si_index left) (si_index right)) in
  if strict_eq a b then by_index
  else
    g <- greater a b ;;
    if g || bool_decide (a = Undefined) then ret 1%Z
    else l <- less a b ;;
         if l || bool_decide (b = Undefined) then ret (-1)%Z else by_index.

Definition _sortBy (obj : val) (iteratee : fn) (context : val) : M (list val) :=
  iteratee <- cb iteratee context NoCount ;;
  keys <- collection_keys obj ;;
  items <- for_map (fun key =>
             v <- get obj (key_name key) ;; c <- iteratee Undefined [v; key; obj] ;; ret (SortedItem v key c)) keys ;;
  sorted <- sort _ compare_items items ;;
  ret (map si_value sorted).

(** ** Arrays *)

Definition _toArray (obj : val) : M (list val) := if truthy obj then items obj else ret [].

(** [_.unzip] of a list of arrays, and [_.zip] of its arguments. *)
Definition _unzip (array : val) : M (list (list val)) :=
  if truthy array then
    longest <- _max array (Inner (fun _ args => getLength builtin (arg 0 args))) Undefined ;;
    n <- get longest length_key ;;
    for_map (fun index => _pluck array (index_val index)) (seq 0 (default 0 (length_of n)))
  else ret [].

(** [_.times] *)
Definition _times (n : Z) (iteratee context : val) : M (list val) :=
  let iteratee := optimizeCb (call_val call iteratee) context (Count 1) in
  for_map (fun i => iteratee Undefined [index_val i]) (seq 0 (Z.to_nat n)).
End Collections.
