(* ===== verification/CollectionProps.v ===== *)
(** * underscore: what the collection functions compute

    A collection is a list of entries.  With an iteratee that only looks at
    the store, the functions of [UnderscoreCollections] are the functions on
    lists of the same name over the entries; [sortBy] sorts them by criterion
    and position, whatever algorithm [sort] uses. *)

From stdpp Require Import pretty.
From S2P Require Import Prelude UnderscoreArrays JsObject UnderscoreObjects UnderscoreCollections.

(** ** Programs that do not change the store *)

Create HintDb observe.

Lemma bind_ret {A B} (m : M A) (f : A -> M B) s a s' : m s = (Ret a, s') -> bind m f s = f a s'.
Proof. intros H. unfold bind. by rewrite H. Qed.

Lemma for_map_look {A B} (f : A -> M B) (g : A -> B) l s :
  (forall x, x ∈ l -> f x s = (Ret (g x), s)) -> for_map f l s = (Ret (map g l), s).
Proof.
  induction l as [|x l IH]; intros H; [done|]. cbn [for_map map].
  rewrite (bind_ret _ _ _ _ _ (H x ltac:(left))). erewrite bind_ret; [|apply IH; intros; apply H; by right]. done.
Qed.

Lemma for_fold_look {A B} (f : B -> A -> M B) (g : B -> A -> B) acc l s :
  (forall acc x, x ∈ l -> f acc x s = (Ret (g acc x), s)) -> for_fold f acc l s = (Ret (foldl g acc l), s).
Proof.
  revert acc. induction l as [|x l IH]; intros acc H; [done|]. cbn [for_fold foldl].
  rewrite (bind_ret _ _ _ _ _ (H acc x ltac:(left))). apply IH. intros; apply H; by right.
Qed.

Fixpoint first_some {A B} (g : A -> option B) (l : list A) : option B :=
  match l with [] => None | x :: l => match g x with Some y => Some y | None => first_some g l end end.

Lemma for_first_look {A B} (f : A -> M (option B)) (g : A -> option B) l s :
  (forall x, x ∈ l -> f x s = (Ret (g x), s)) -> for_first f l s = (Ret (first_some g l), s).
Proof.
  induction l as [|x l IH]; intros H; [done|]. cbn [for_first first_some].
  rewrite (bind_ret _ _ _ _ _ (H x ltac:(left))). destruct (g x); [done|]. apply IH. intros; apply H; by right.
Qed.

(** Runs a program on the equations for its steps. *)
Ltac steps := repeat (erewrite bind_ret; [|first [eassumption | reflexivity | solve [eauto with observe]]]).

Lemma index_key_pretty i : lit (pretty (Z.of_nat i)) = index_key i.
Proof. unfold index_key. f_equal. destruct i; [done|]. reflexivity. Qed.

(** ** Entries *)

Section Entries.
Variable builtin : class -> jsstr -> option val.
Variable to_text : nat -> M jsstr.
Variable value_of : nat -> M val.
Variable number_of : jsstr -> num.
Variable call : nat -> val -> list val -> M val.

(** [v[k]] of a value that is not nullish. *)
Definition value_at (s : store) (v : val) (k : jsstr) : val :=
  match get builtin v k s with (Ret w, _) => w | (Throw _, _) => Undefined end.

Lemma get_look s v k : is_nullish v = false -> get builtin v k s = (Ret (value_at s v k), s).
Proof. unfold value_at. destruct v; intros H; try done. Qed.

Definition keys_at (s : store) (obj : val) : list val :=
  match collection_keys builtin obj s with (Ret ks, _) => ks | (Throw _, _) => [] end.

Lemma isArrayLike_look s obj : exists n, isArrayLike builtin obj s = (Ret n, s).
Proof.
  unfold isArrayLike, getLength. destruct (is_nullish obj) eqn:E; [by eexists|].
  erewrite bind_ret; [|by apply get_look]. by eexists.
Qed.

Lemma collection_keys_look s obj : collection_keys builtin obj s = (Ret (keys_at s obj), s).
Proof.
  unfold keys_at. destruct (isArrayLike_look s obj) as [n Hn]. unfold collection_keys. rewrite (bind_ret _ _ _ _ _ Hn).
  destruct n; [done|]. destruct obj; done.
Qed.

(** A collection that is null or undefined has no keys. *)
Lemma keys_at_nullish s obj key : key ∈ keys_at s obj -> is_nullish obj = false.
Proof. destruct obj; try done; cbn; intros H; by apply not_elem_of_nil in H. Qed.

Lemma item_look s obj key :
  key ∈ keys_at s obj -> get builtin obj (key_name key) s = (Ret (value_at s obj (key_name key)), s).
Proof. intros H%keys_at_nullish. by apply get_look. Qed.

Definition entries (s : store) (obj : val) : list (val * val) :=
  map (fun key => (value_at s obj (key_name key), key)) (keys_at s obj).

(** An iteratee that computes [g] and leaves the store as it is. *)
Definition observer (s : store) (f : nat) (g : val -> list val -> val) : Prop :=
  is_function s (Ref f) = true /\ forall this args, call f this args s = (Ret (g this args), s).

Lemma call_val_look s f g this args :
  observer s f g -> call_val call (Ref f) this args s = (Ret (g this args), s).
Proof. intros [Hf Hg]. unfold call_val. erewrite bind_ret; [|reflexivity]. by rewrite Hf. Qed.

Lemma optimizeCb_look s f g context v key obj :
  observer s f g ->
  optimizeCb (call_val call (Ref f)) context NoCount Undefined [v; key; obj] s = (Ret (g context [v; key; obj]), s).
Proof. intros H. unfold optimizeCb. destruct (decide (context = Undefined)) as [->|]; by apply call_val_look. Qed.

Lemma cb_function s f g context :
  observer s f g ->
  cb builtin to_text value_of number_of call (User (Ref f)) context NoCount s =
    (Ret (optimizeCb (call_val call (Ref f)) context NoCount), s).
Proof. intros [Hf _]. unfold cb. cbn [is_nullish]. erewrite bind_ret; [|reflexivity]. by rewrite Hf. Qed.
End Entries.
#[export] Hint Resolve get_look collection_keys_look item_look call_val_look optimizeCb_look cb_function : observe.

(** ** The functions on entries *)

Section Observed.
Variable builtin : class -> jsstr -> option val.
Variable to_text : nat -> M jsstr.
Variable value_of : nat -> M val.
Variable number_of : jsstr -> num.
Variable call : nat -> val -> list val -> M val.
Variables (s : store) (f : nat) (g : val -> list val -> val).
Hypothesis f_observes : observer call s f g.
Variables (obj context : val).

Let es := entries builtin s obj.
(** What the iteratee says of an entry. *)
Let says (e : val * val) : val := g context [e.1; e.2; obj].
Let passes (e : val * val) : bool := truthy (says e).

Lemma map_look : _map builtin to_text value_of number_of call obj (User (Ref f)) context s = (Ret (map says es), s).
Proof.
  unfold _map. steps. unfold es, entries. rewrite map_map. apply for_map_look. intros key Hk. steps. eauto with observe.
Qed.

Lemma foldl_filter {A B} (p : A -> bool) (h : A -> B) acc l :
  foldl (fun r x => if p x then r ++ [h x] else r) acc l = acc ++ map h (List.filter p l).
Proof.
  revert acc. induction l as [|x l IH]; intros acc; cbn [foldl List.filter map]; [by rewrite app_nil_r|].
  rewrite IH. destruct (p x); cbn [map]; [by rewrite <- app_assoc|done].
Qed.

Lemma filter_map_swap {A B} (h : A -> B) (p : B -> bool) l : List.filter p (map h l) = map h (List.filter (fun x => p (h x)) l).
Proof. induction l as [|x l IH]; [done|]. cbn [map List.filter]. destruct (p (h x)); cbn [map]; by rewrite IH. Qed.

(** A predicate given as a closure. *)
Lemma filter_closure (c : closure) (q : val * val -> bool) :
  (forall e, e ∈ es -> exists b, optimizeCb c context NoCount Undefined [e.1; e.2; obj] s = (Ret b, s) /\ truthy b = q e) ->
  _filter builtin to_text value_of number_of call obj (Inner c) context s = (Ret (map fst (List.filter q es)), s).
Proof.
  intros Hc. unfold _filter. steps.
  rewrite (for_fold_look _ (fun r key => if q (value_at builtin s obj (key_name key), key)
                                         then r ++ [value_at builtin s obj (key_name key)] else r)).
  - rewrite foldl_filter. cbn [app]. unfold es, entries. by rewrite filter_map_swap, map_map.
  - intros acc key Hk. steps. cbv beta.
    destruct (Hc (value_at builtin s obj (key_name key), key)) as (b & Hb & <-); [by apply list_elem_of_fmap; eauto|].
    by rewrite (bind_ret _ _ _ _ _ Hb).
Qed.

Lemma filter_look :
  _filter builtin to_text value_of number_of call obj (User (Ref f)) context s = (Ret (map fst (List.filter passes es)), s).
Proof.
  transitivity (_filter builtin to_text value_of number_of call obj (Inner (call_val call (Ref f))) context s).
  { unfold _filter at 1. by erewrite bind_ret; [|eauto with observe]. }
  apply filter_closure. intros e _. eexists. split; [by apply optimizeCb_look|done].
Qed.

Lemma reject_look :
  _reject builtin to_text value_of number_of call obj (User (Ref f)) context s =
    (Ret (map fst (List.filter (fun e => negb (passes e)) es)), s).
Proof.
  unfold _reject. steps. apply filter_closure. intros e _. exists (Bool (negb (passes e))). split; [|by destruct (passes e)].
  unfold optimizeCb, negate. rewrite (decide_True (P := Undefined = Undefined)) by done.
  destruct (decide (context = Undefined)) as [->|]; (erewrite bind_ret; [|by apply call_val_look]); done.
Qed.

Lemma first_some_exists {A} (p : A -> bool) l :
  bool_decide (is_Some (first_some (fun x => if p x then Some tt else None) l)) = existsb p l.
Proof. induction l as [|x l IH]; [done|]. cbn [first_some existsb]. by destruct (p x). Qed.

Lemma existsb_map {A B} (h : A -> B) (p : B -> bool) l : existsb p (map h l) = existsb (fun x => p (h x)) l.
Proof. induction l as [|x l IH]; [done|]. cbn [map existsb]. by rewrite IH. Qed.

Lemma first_with_look want :
  first_with builtin obj (optimizeCb (call_val call (Ref f)) context NoCount) want s =
    (Ret (existsb (fun e => Bool.eqb (passes e) want) es), s).
Proof.
  unfold first_with. steps.
  erewrite bind_ret; [|apply for_first_look; intros key Hk; steps; reflexivity].
  unfold es, entries. rewrite existsb_map, <- first_some_exists. done.
Qed.

Lemma every_look :
  _every builtin to_text value_of number_of call obj (User (Ref f)) context s = (Ret (forallb passes es), s).
Proof.
  unfold _every. steps. erewrite bind_ret; [|apply first_with_look]. unfold ret. f_equal. f_equal.
  generalize es as l. induction l as [|e l IH]; [done|]. cbn [existsb forallb]. rewrite <- IH. by destruct (passes e).
Qed.

Lemma some_look :
  _some builtin to_text value_of number_of call obj (User (Ref f)) context s = (Ret (existsb passes es), s).
Proof.
  unfold _some. steps. rewrite first_with_look. f_equal. f_equal.
  generalize es as l. induction l as [|e l IH]; [done|]. cbn [existsb]. rewrite <- IH. by destruct (passes e).
Qed.

Lemma each_look : _each builtin call obj (Ref f) context s = (Ret obj, s).
Proof.
  unfold _each, each. steps. erewrite bind_ret; [done|]. unfold for_do.
  apply (for_fold_look _ (fun _ _ => tt)). intros [] key Hk. steps. done.
Qed.

Lemma reduce_loop memo keys :
  (forall key, key ∈ keys -> key ∈ keys_at builtin s obj) ->
  for_fold (fun memo key => bind (get builtin obj (key_name key)) (fun v =>
      optimizeCb (call_val call (Ref f)) context (Count 4) Undefined [memo; v; key; obj])) memo keys s =
    (Ret (foldl (fun memo key => g context [memo; value_at builtin s obj (key_name key); key; obj]) memo keys), s).
Proof.
  intros Hk. apply for_fold_look. intros acc key Hin. specialize (Hk key Hin). steps.
  unfold optimizeCb. destruct (decide (context = Undefined)) as [->|]; by apply call_val_look.
Qed.

Lemma foldl_map {A B C} (h : A -> B) (k : C -> B -> C) acc l : foldl k acc (map h l) = foldl (fun a x => k a (h x)) acc l.
Proof. revert acc. induction l as [|x l IH]; intros acc; [done|]. apply IH. Qed.

Definition reduces (memo : val) (e : val * val) : val := g context [memo; e.1; e.2; obj].

Lemma createReduce_look d memo :
  createReduce builtin call d obj (Ref f) (Some memo) context s =
    (Ret (foldl reduces memo (match d with Up => es | Down => rev es end)), s).
Proof.
  unfold createReduce. steps. rewrite reduce_loop.
  - destruct d; unfold es, entries; [|rewrite <- map_rev]; by rewrite foldl_map.
  - intros key. destruct d; [done|]. by rewrite !list_elem_of_In, <- in_rev.
Qed.

(** The first entry that passes. *)
Lemma find_look :
  _find builtin to_text value_of number_of call obj (User (Ref f)) context s =
    (Ret (default Undefined (fst <$> first_some (fun e => if passes e then Some e else None) es)), s).
Proof.
  assert (forall {A} (l : list A) (h : A -> val * val) (name : A -> jsstr),
    (forall x, x ∈ l -> get builtin obj (name x) s = (Ret (h x).1, s)) ->
    match first_some (fun x => if passes (h x) then Some (name x) else None) l with
    | Some k => get builtin obj k
    | None => ret Undefined
    end s = (Ret (default Undefined (fst <$> first_some (fun e => if passes e then Some e else None) (map h l))), s)) as Hfirst.
  { intros A l h name Hg. induction l as [|x l IH]; [done|]. cbn [first_some map].
    destruct (passes (h x)); [by rewrite Hg by left|]. apply IH. intros; apply Hg; by right. }
  unfold _find. destruct (isArrayLike_look builtin s obj) as [n Hn]. rewrite (bind_ret _ _ _ _ _ Hn).
  pose proof (collection_keys_look builtin s obj) as Hk. unfold collection_keys in Hk. rewrite (bind_ret _ _ _ _ _ Hn) in Hk.
  unfold es, entries. destruct n as [n|].
  - injection Hk as Hk. rewrite <- Hk, map_map. unfold isArrayLike in Hn.
    assert (exists v, getLength builtin obj s = (Ret v, s) /\ length_of v = Some n) as (v & Hv & Hl).
    { unfold bind in Hn. destruct (getLength builtin obj s) as [[v|] s']; [|done]. injection Hn as Hl ->. eauto. }
    assert (is_nullish obj = false \/ n = 0) as Hnull.
    { clear - Hv Hl. destruct obj; [right|right|by left..]; cbn in Hv; injection Hv as <-; done. }
    assert (forall i, i ∈ seq 0 n -> get builtin obj (index_key i) s = (Ret (value_at builtin s obj (key_name (index_val i))), s)) as Hg.
    { intros i Hi. cbn [index_val key_name]. rewrite index_key_pretty. apply get_look.
      destruct Hnull as [?| ->]; [done|by apply not_elem_of_nil in Hi]. }
    assert (find_index builtin to_text value_of number_of call Up obj (User (Ref f)) context s =
      (Ret (first_some (fun i => if passes (value_at builtin s obj (key_name (index_val i)), index_val i) then Some i else None) (seq 0 n)), s))
      as Hi.
    { unfold find_index. steps. rewrite Hl. apply for_first_look. intros i Hi. rewrite (bind_ret _ _ _ _ _ (Hg i Hi)). steps. done. }
    erewrite bind_ret; [|rewrite (bind_ret _ _ _ _ _ Hi); reflexivity].
    rewrite <- (Hfirst _ _ (fun i => (value_at builtin s obj (key_name (index_val i)), index_val i)) index_key); [|done].
    replace (index_key <$> first_some _ (seq 0 n)) with
      (first_some (fun x => if passes (value_at builtin s obj (key_name (index_val x)), index_val x) then Some (index_key x) else None) (seq 0 n));
      [done|].
    generalize (seq 0 n) as l. induction l as [|i l IH]; [done|]. cbn [first_some].
    destruct (passes _) eqn:Ep; [done|exact IH].
  - assert (exists keys, _keys obj s = (Ret keys, s)) as [keys Hks] by (destruct obj; by eexists).
    rewrite (bind_ret _ _ _ _ _ Hks) in Hk. injection Hk as Hk. rewrite <- Hk, map_map.
    assert (forall k, k ∈ keys -> get builtin obj k s = (Ret (value_at builtin s obj k), s)) as Hg.
    { intros k Hin. apply (item_look builtin s obj (Str k)). rewrite <- Hk. by apply list_elem_of_fmap_2. }
    assert (_findKey builtin to_text value_of number_of call obj (User (Ref f)) context s =
      (Ret (first_some (fun k => if passes (value_at builtin s obj k, Str k) then Some k else None) keys), s)) as Hi.
    { unfold _findKey. steps. apply for_first_look. intros k Hin. rewrite (bind_ret _ _ _ _ _ (Hg k Hin)). steps. done. }
    rewrite (bind_ret _ _ _ _ _ Hi). by apply (Hfirst _ _ (fun k => (value_at builtin s obj k, Str k)) (fun k => k)).
Qed.
End Observed.

Section Items.
Variable builtin : class -> jsstr -> option val.
Variables (s : store) (obj : val).
Let es := entries builtin s obj.

Lemma items_look : items builtin obj s = (Ret (map fst es), s).
Proof.
  pose proof (collection_keys_look builtin s obj) as Hk. destruct (isArrayLike_look builtin s obj) as [n Hn].
  unfold items, collection_keys in *. rewrite (bind_ret _ _ _ _ _ Hn) in Hk. rewrite (bind_ret _ _ _ _ _ Hn).
  pose proof (item_look builtin s obj) as Hg. unfold es, entries. rewrite map_map. cbn [fst]. destruct n as [n|].
  - injection Hk as Hk. rewrite <- Hk, map_map in *. apply for_map_look. intros i Hi. cbn [index_val key_name].
    rewrite index_key_pretty. rewrite <- index_key_pretty. apply (Hg (index_val i)). by apply list_elem_of_fmap_2.
  - assert (exists keys, _keys obj s = (Ret keys, s)) as [keys Hks] by (destruct obj; by eexists).
    unfold _values. rewrite (bind_ret _ _ _ _ _ Hks) in Hk. rewrite (bind_ret _ _ _ _ _ Hks). injection Hk as Hk. rewrite <- Hk, map_map in *.
    apply for_map_look. intros k Hi. apply (Hg (Str k)). by apply list_elem_of_fmap_2.
Qed.

Lemma size_look : _size builtin obj s = (Ret (length es), s).
Proof.
  pose proof (collection_keys_look builtin s obj) as Hk. destruct (isArrayLike_look builtin s obj) as [n Hn].
  unfold _size, collection_keys in *. rewrite (bind_ret _ _ _ _ _ Hn) in Hk. unfold es, entries. rewrite length_map.
  destruct (is_nullish obj) eqn:En; [by destruct obj|]. rewrite (bind_ret _ _ _ _ _ Hn).
  destruct n as [n|].
  - injection Hk as <-. by rewrite length_map, length_seq.
  - assert (exists keys, _keys obj s = (Ret keys, s)) as [keys Hks] by (destruct obj; by eexists).
    rewrite (bind_ret _ _ _ _ _ Hks) in Hk. rewrite (bind_ret _ _ _ _ _ Hks). injection Hk as <-. by rewrite length_map.
Qed.
End Items.

(** C30. Over arrays, array-like objects, plain objects, strings and
    primitives, with a function that only looks at the store and a starting
    value for the reductions: [map], [filter],
    [reject], [every], [some], [find], [reduce], [reduceRight], [each],
    [toArray] and [size] are the functions on the list of entries, with the
    context as [this], and leave the store as it is. *)
Theorem collections_are_lists builtin to_text value_of number_of call (s : store) (f : nat) (g : val -> list val -> val)
    (obj context memo : val) :
  observer call s f g ->
  let es := entries builtin s obj in
  let says e := g context [e.1; e.2; obj] in
  let passes e := truthy (says e) in
  let run {A} (m : M A) := m s in
  let fn := User (Ref f) in
  run (_map builtin to_text value_of number_of call obj fn context) = (Ret (map says es), s) /\
  run (_filter builtin to_text value_of number_of call obj fn context) = (Ret (map fst (List.filter passes es)), s) /\
  run (_reject builtin to_text value_of number_of call obj fn context) =
    (Ret (map fst (List.filter (fun e => negb (passes e)) es)), s) /\
  run (_every builtin to_text value_of number_of call obj fn context) = (Ret (forallb passes es), s) /\
  run (_some builtin to_text value_of number_of call obj fn context) = (Ret (existsb passes es), s) /\
  run (_find builtin to_text value_of number_of call obj fn context) =
    (Ret (default Undefined (fst <$> first_some (fun e => if passes e then Some e else None) es)), s) /\
  run (_reduce builtin call obj (Ref f) (Some memo) context) =
    (Ret (foldl (fun m e => g context [m; e.1; e.2; obj]) memo es), s) /\
  run (_reduceRight builtin call obj (Ref f) (Some memo) context) =
    (Ret (foldl (fun m e => g context [m; e.1; e.2; obj]) memo (rev es)), s) /\
  run (_each builtin call obj (Ref f) context) = (Ret obj, s) /\
  run (_toArray builtin obj) = (Ret (if truthy obj then map fst es else []), s) /\
  run (_size builtin obj) = (Ret (length es), s).
Proof.
  intros Hf es says passes run fn. split_and!.
  - by apply map_look.
  - by apply filter_look.
  - by apply reject_look.
  - by apply every_look.
  - by apply some_look.
  - by apply find_look.
  - exact (createReduce_look builtin call s f g Hf obj context Up memo).
  - exact (createReduce_look builtin call s f g Hf obj context Down memo).
  - by eapply each_look.
  - unfold run, _toArray. destruct (truthy obj); [apply items_look|done].
  - apply size_look.
Qed.

(** An array with a hole, and a function that tells numbers above one. *)
Definition holed : store :=
  [JObject CFunction None [] (Some (Num (Int 1)));
   JObject CArray None [(index_key 0, Num (Int 1)); (index_key 2, Num (Int 7))] (Some (Num (Int 3)))].
Definition above_one (args : list val) : val := Bool (match arg 0 args with Num (Int z) => bool_decide (1 < z)%Z | _ => false end).

Lemma collections_are_lists_witness :
  _filter (fun _ _ => None) (fun _ => ret []) (fun _ => ret Undefined) (fun _ => NaN) (fun _ _ args => ret (above_one args))
    (Ref 1) (User (Ref 0)) Undefined holed = (Ret [Num (Int 7)], holed) /\
  _size (fun _ _ => None) (Ref 1) holed = (Ret 3, holed).
Proof.
  destruct (collections_are_lists (fun _ _ => None) (fun _ => ret []) (fun _ => ret Undefined) (fun _ => NaN)
    (fun _ _ args => ret (above_one args)) holed 0 (fun _ args => above_one args) (Ref 1) Undefined Undefined)
    as (_ & H & _ & _ & _ & _ & _ & _ & _ & _ & Hn); [by split|]. split; [exact H|exact Hn].
Defined.

(** ** sortBy

    What the language promises of [sort]: with a comparison that is consistent
    on the elements, a permutation that is sorted; nothing is said about the
    algorithm, and nothing at all about other comparisons. *)

Record consistent {A} (c : A -> A -> Z) (l : list A) : Prop := {
  c_refl x : x ∈ l -> c x x = 0%Z;
  c_anti x y : x ∈ l -> y ∈ l -> (c x y < 0 <-> 0 < c y x)%Z;
  c_trans x y z : x ∈ l -> y ∈ l -> z ∈ l -> (c x y <= 0 -> c y z <= 0 -> c x z <= 0)%Z
}.

Class Sorting (sort : sorting) : Prop :=
  sort_consistent A (cmp : A -> A -> M Z) (c : A -> A -> Z) l s :
    (forall x y, x ∈ l -> y ∈ l -> cmp x y s = (Ret (c x y), s)) -> consistent c l ->
    exists l', sort A cmp l s = (Ret l', s) /\ l' ≡ₚ l /\ StronglySorted (fun x y => c x y <= 0)%Z l'.

(** An algorithm that keeps the promise. *)
Fixpoint insert_item {A} (cmp : A -> A -> M Z) (x : A) (l : list A) : M (list A) :=
  match l with
  | [] => ret [x]
  | y :: l => d <- cmp x y ;; if (d <=? 0)%Z then ret (x :: y :: l) else r <- insert_item cmp x l ;; ret (y :: r)
  end.

Fixpoint insertion_sort (A : Type) (cmp : A -> A -> M Z) (l : list A) : M (list A) :=
  match l with
  | [] => ret []
  | x :: l => r <- insertion_sort A cmp l ;; insert_item cmp x r
  end.

Lemma insert_item_sorted {A} (cmp : A -> A -> M Z) c all x l s :
  (forall x y, x ∈ all -> y ∈ all -> cmp x y s = (Ret (c x y), s)) -> consistent c all ->
  x ∈ all -> Forall (fun y => y ∈ all) l -> StronglySorted (fun x y => c x y <= 0)%Z l ->
  exists l', insert_item cmp x l s = (Ret l', s) /\ l' ≡ₚ x :: l /\ StronglySorted (fun x y => c x y <= 0)%Z l'.
Proof.
  intros Hcmp Hc Hx. induction l as [|y l IH]; intros Hl Hs; cbn [insert_item].
  { exists [x]. split_and!; [done..|]. by repeat constructor. }
  apply Forall_cons in Hl as [Hy Hl]. apply StronglySorted_inv in Hs as [Hs Hyl].
  rewrite (bind_ret _ _ _ _ _ (Hcmp x y Hx Hy)). destruct (Z.leb_spec (c x y) 0) as [Hle|Hgt].
  - eexists. split_and!; [done..|]. constructor; [by constructor|]. constructor; [done|].
    rewrite Forall_forall in *. intros z Hz. eapply (c_trans c all Hc x y z); eauto.
  - destruct (IH Hl Hs) as (l' & E & Hp & Hs'). rewrite (bind_ret _ _ _ _ _ E).
    eexists. split_and!; [done|by rewrite Hp; constructor|]. constructor; [done|].
    rewrite Hp. constructor; [|done]. apply Z.lt_le_incl. by apply (c_anti c all Hc).
Qed.

#[export] Instance insertion_sort_sorts : Sorting insertion_sort.
Proof.
  intros A cmp c l s Hcmp Hc.
  assert (forall k, Forall (fun y => y ∈ l) k -> exists l', insertion_sort A cmp k s = (Ret l', s) /\ l' ≡ₚ k /\
    StronglySorted (fun x y => c x y <= 0)%Z l') as H; [|by apply H, Forall_forall].
  intros k. induction k as [|x k IH]; intros Hk; cbn [insertion_sort].
  { exists []. split_and!; [done..|constructor]. }
  apply Forall_cons in Hk as [Hx Hk]. destruct (IH Hk) as (k' & E & Hp & Hs). rewrite (bind_ret _ _ _ _ _ E).
  destruct (insert_item_sorted cmp c l x k' s Hcmp Hc Hx) as (l' & E' & Hp' & Hs'); [by rewrite Hp|done|].
  exists l'. split_and!; [done|by rewrite Hp', Hp|done].
Qed.

(** Criteria in order: undefined values last. *)
Definition crit_le (number_of : jsstr -> num) (a b : val) : bool :=
  match a, b with
  | _, Undefined => true
  | Undefined, _ => false
  | _, _ => negb (prim_lt number_of b a)
  end.

(** Criteria that can be sorted by: numbers other than NaN, or strings, and
    undefined values among them. *)
Definition comparable (cs : list val) : Prop :=
  Forall (fun c => c = Undefined \/ exists x, c = Num x /\ x <> NaN) cs \/
  Forall (fun c => c = Undefined \/ exists t, c = Str t) cs.

Lemma num_le_trans x y z : x <> NaN -> y <> NaN -> z <> NaN ->
  num_lt y x = false -> num_lt z y = false -> num_lt z x = false.
Proof.
  destruct x as [| |[]|x], y as [| |[]|y], z as [| |[]|z]; intros; cbn in *; try done;
    rewrite ?Z.ltb_ge in *; lia.
Qed.

Lemma num_strict_le x y : x <> NaN -> y <> NaN -> num_strict x y = negb (num_lt y x) && negb (num_lt x y).
Proof.
  destruct x as [| |[]|x], y as [| |[]|y]; intros; try done; try (by destruct x); try (by destruct y).
  transitivity (bool_decide (Int x = Int y)); [by destruct x, y|]. cbn [num_lt].
  destruct (Z.ltb_spec y x), (Z.ltb_spec x y); cbn [negb andb]; rewrite ?bool_decide_eq_false, ?bool_decide_eq_true; try (f_equal; lia).
  all: intros [= ->]; lia.
Qed.

Section Criteria.
Variable number_of : jsstr -> num.

Let le := crit_le number_of.

Lemma crit_le_num x y : le (Num x) (Num y) = negb (num_lt y x).
Proof. done. Qed.

Lemma crit_le_str x y : le (Str x) (Str y) = str_leb x y.
Proof. unfold le, crit_le, prim_lt. by rewrite negb_involutive. Qed.

Lemma comparable_cases cs a b :
  comparable cs -> a ∈ cs -> b ∈ cs ->
  a = Undefined \/ b = Undefined \/ (exists x y, a = Num x /\ b = Num y /\ x <> NaN /\ y <> NaN) \/ (exists x y, a = Str x /\ b = Str y).
Proof. unfold comparable. rewrite !Forall_forall. intros [H|H] Ha Hb; destruct (H a Ha), (H b Hb); naive_solver. Qed.

Lemma comparable_elem cs a :
  comparable cs -> a ∈ cs -> a = Undefined \/ (exists x, a = Num x) \/ (exists t, a = Str t).
Proof. unfold comparable. rewrite !Forall_forall. intros [H|H] Ha; destruct (H a Ha); naive_solver. Qed.

Lemma num_lt_NaN x : num_lt x NaN = false.
Proof. by destruct x. Qed.

Lemma crit_le_total cs a b : comparable cs -> a ∈ cs -> b ∈ cs -> le a b = true \/ le b a = true.
Proof.
  intros H Ha Hb. destruct (comparable_cases cs a b H Ha Hb) as [->|[->|[(x & y & -> & -> & Hx & Hy)|(x & y & -> & ->)]]].
  - right. by destruct b. - left. by destruct a.
  - rewrite !crit_le_num. destruct x as [| |[]|x], y as [| |[]|y]; cbn; auto;
      rewrite ?negb_true_iff, ?Z.ltb_ge; lia.
  - rewrite !crit_le_str. apply str_le_total.
Qed.

Lemma crit_le_trans cs a b c : comparable cs -> a ∈ cs -> b ∈ cs -> c ∈ cs -> le a b = true -> le b c = true -> le a c = true.
Proof.
  intros H Ha Hb Hc. destruct (comparable_cases cs a b H Ha Hb) as [->|[->|[(x & y & -> & -> & Hx & Hy)|(x & y & -> & ->)]]].
  - destruct b; try done. - destruct c; try done; by destruct a.
  - destruct (comparable_cases cs _ c H Hb Hc) as [?|[->|[(y' & z & [= <-] & -> & _ & Hz)|(? & ? & ? & ?)]]]; try done.
    rewrite !crit_le_num, !negb_true_iff. by apply num_le_trans.
  - destruct (comparable_cases cs _ c H Hb Hc) as [?|[->|[(? & ? & ? & ?)|(y' & z & [= <-] & ->)]]]; try done.
    rewrite !crit_le_str. apply str_le_trans.
Qed.

Lemma crit_strict cs a b : comparable cs -> a ∈ cs -> b ∈ cs -> strict_eq a b = le a b && le b a.
Proof.
  intros H Ha Hb. destruct (comparable_cases cs a b H Ha Hb) as [->|[->|[(x & y & -> & -> & Hx & Hy)|(x & y & -> & ->)]]].
  - by destruct b. - by destruct a.
  - rewrite !crit_le_num. by apply num_strict_le.
  - rewrite !crit_le_str. cbn [strict_eq]. case_bool_decide as E.
    + injection E as ->. symmetry. rewrite andb_diag. apply str_le_refl.
    + symmetry. apply andb_false_iff. destruct (str_leb x y) eqn:E1, (str_leb y x) eqn:E2; auto.
      destruct E. f_equal. by apply (anti_symm str_le).
Qed.

(** The comparison of [sortBy] as a number. *)
Definition item_order (x y : sorted_item) : Z :=
  let a := si_criteria x in
  let b := si_criteria y in
  if le a b then if le b a then index_difference (si_index x) (si_index y) else -1%Z else 1%Z.

Lemma compare_items_look value_of l s x y :
  comparable (map si_criteria l) -> x ∈ l -> y ∈ l ->
  compare_items value_of number_of x y s = (Ret (item_order x y), s).
Proof.
  intros H Hx Hy. assert (si_criteria x ∈ map si_criteria l) as Ha by (by apply list_elem_of_fmap_2).
  assert (si_criteria y ∈ map si_criteria l) as Hb by (by apply list_elem_of_fmap_2).
  unfold compare_items, item_order. rewrite (crit_strict _ _ _ H Ha Hb).
  pose proof (crit_le_total _ _ _ H Ha Hb) as Ht.
  destruct (comparable_cases _ _ _ H Ha Hb) as [E|[E|[(u & v & E & E' & _)|(u & v & E & E')]]].
  - rewrite E. destruct (comparable_elem _ _ H Hb) as [->|[[x' ->]|[t ->]]]; cbn; rewrite ?num_lt_NaN; done.
  - rewrite E. destruct (comparable_elem _ _ H Ha) as [->|[[x' ->]|[t ->]]]; cbn; rewrite ?num_lt_NaN; try done; unfold bind, less; cbn; by rewrite ?num_lt_NaN.
  - rewrite E, E' in *. rewrite !crit_le_num in *. unfold bind, greater, less, to_primitive, bind, ret, prim_lt, prim_number.
    by destruct (num_lt u v), (num_lt v u); cbn in *; try done; destruct Ht.
  - rewrite E, E' in *. rewrite !crit_le_str in *. unfold bind, greater, less, to_primitive, bind, ret, prim_lt.
    by destruct (str_leb u v), (str_leb v u); cbn in *; try done; destruct Ht.
Qed.

Lemma item_order_consistent l :
  comparable (map si_criteria l) -> Forall (fun x => exists i, si_index x = index_val i) l -> consistent item_order l.
Proof.
  intros H Hi. rewrite Forall_forall in Hi.
  assert (forall x, x ∈ l -> si_criteria x ∈ map si_criteria l) as Hc by (intros x; apply list_elem_of_fmap_2).
  unfold item_order. split.
  - intros x Hx. destruct (Hi x Hx) as [i ->]. destruct (crit_le_total _ _ _ H (Hc x Hx) (Hc x Hx)) as [-> | ->]; cbn; lia.
  - intros x y Hx Hy. destruct (Hi x Hx) as [i ->], (Hi y Hy) as [j ->].
    pose proof (crit_le_total _ _ _ H (Hc x Hx) (Hc y Hy)) as Ht. fold le in Ht.
    destruct (le (si_criteria x) (si_criteria y)), (le (si_criteria y) (si_criteria x)); cbn; [lia..|by destruct Ht].
  - intros x y z Hx Hy Hz. destruct (Hi x Hx) as [i ->], (Hi y Hy) as [j ->], (Hi z Hz) as [k ->].
    pose proof (crit_le_trans _ _ _ _ H (Hc x Hx) (Hc y Hy) (Hc z Hz)) as T1.
    pose proof (crit_le_trans _ _ _ _ H (Hc z Hz) (Hc x Hx) (Hc y Hy)) as T2.
    pose proof (crit_le_trans _ _ _ _ H (Hc y Hy) (Hc z Hz) (Hc x Hx)) as T3.
    destruct (le (si_criteria x) (si_criteria y)), (le (si_criteria y) (si_criteria x)), (le (si_criteria y) (si_criteria z)),
      (le (si_criteria z) (si_criteria y)), (le (si_criteria x) (si_criteria z)), (le (si_criteria z) (si_criteria x)); cbn; intros; try lia;
      naive_solver.
Qed.
End Criteria.

Lemma StronglySorted_distinct {A B} (R : relation A) (h : A -> B) l :
  StronglySorted R l -> NoDup (map h l) -> StronglySorted (fun x y => R x y /\ h x <> h y) l.
Proof.
  induction 1 as [|x l Hs IH Hx]; [constructor|]. cbn [map]. rewrite NoDup_cons. intros [Hn Hd]. constructor; [by apply IH|].
  rewrite Forall_forall in *. intros y Hy. split; [by apply Hx|]. intros E. apply Hn. rewrite E. by apply list_elem_of_fmap_2.
Qed.

(** [sortBy] on an array-like collection, with criteria that are numbers
    or strings and undefined for some: whatever algorithm the engine sorts
    with, the elements come in the order of their criteria, the undefined ones
    last, and those with equal criteria in the order of their positions. *)
Theorem sortBy_sorts (sort : sorting) `{!Sorting sort} builtin to_text value_of number_of call (s : store) (f n : nat)
    (g : val -> list val -> val) (obj context : val) :
  let items := map (fun e => SortedItem e.1 e.2 (g context [e.1; e.2; obj])) (entries builtin s obj) in
  observer call s f g ->
  isArrayLike builtin obj s = (Ret (Some n), s) ->
  comparable (map si_criteria items) ->
  exists sorted,
    _sortBy builtin to_text value_of number_of call sort obj (User (Ref f)) context s = (Ret (map si_value sorted), s) /\
    sorted ≡ₚ items /\
    StronglySorted (fun x y =>
      crit_le number_of (si_criteria x) (si_criteria y) = true /\
      (crit_le number_of (si_criteria y) (si_criteria x) = true -> (index_difference (si_index x) (si_index y) < 0)%Z)) sorted.
Proof.
  intros items Hf Hn Hc.
  assert (keys_at builtin s obj = map index_val (seq 0 n)) as Hk.
  { pose proof (collection_keys_look builtin s obj) as Hk. unfold collection_keys in Hk.
    rewrite (bind_ret _ _ _ _ _ Hn) in Hk. by injection Hk as <-. }
  assert (map si_index items = map index_val (seq 0 n)) as Hix.
  { unfold items, entries. by rewrite !map_map, Hk, map_map. }
  assert (Forall (fun x => exists i, si_index x = index_val i) items) as Hi.
  { apply Forall_forall. intros x Hx. apply (list_elem_of_fmap_2 si_index) in Hx. change (si_index <$> items) with (map si_index items) in Hx.
    rewrite Hix in Hx. apply list_elem_of_fmap in Hx as (i & E & _). eauto. }
  destruct (sort_consistent _ (compare_items value_of number_of) (item_order number_of) items s) as (sorted & E & Hp & Hs).
  { intros x y. by apply compare_items_look. }
  { by apply item_order_consistent. }
  exists sorted. split_and!; [|done|].
  - unfold _sortBy. steps.
    erewrite bind_ret; [|apply (for_map_look _ (fun key => SortedItem (value_at builtin s obj (key_name key)) key
      (g context [value_at builtin s obj (key_name key); key; obj]))); intros key Hin; steps; reflexivity].
    unfold items, entries in E. rewrite map_map in E. by rewrite (bind_ret _ _ _ _ _ E).
  - apply (StronglySorted_distinct _ si_index) in Hs.
    2: { rewrite Hp. change (map si_index items) with (map si_index items). rewrite Hix. apply NoDup_fmap_2; [|apply NoDup_seq]. intros i j [= ?]. lia. }
    assert (Forall (fun x => exists i, si_index x = index_val i) sorted) as Hi' by (by rewrite Hp).
    clear - Hs Hi'. induction Hs as [|x l Hs IH Hx]; [constructor|]. apply Forall_cons in Hi' as [[i Ei] Hi'].
    constructor; [by apply IH|]. rewrite Forall_forall in *. intros y Hy. destruct (Hx y Hy) as [Ho Hne], (Hi' y Hy) as [j Ej].
    unfold item_order in Ho. rewrite Ei, Ej in *. destruct (crit_le _ _ _); [|lia]. split; [done|]. intros E. rewrite E in Ho. cbn in *.
    assert (i <> j) by (by intros ->). lia.
Qed.

Lemma sortBy_sorts_witness :
  exists sorted, _sortBy (fun _ _ => None) (fun _ => ret []) (fun _ => ret Undefined) (fun _ => NaN)
      (fun _ _ args => ret (arg 0 args)) insertion_sort (Ref 1) (User (Ref 0)) Undefined holed =
    (Ret (map si_value sorted), holed) /\ map si_value sorted = [Num (Int 1); Num (Int 7); Undefined].
Proof.
  destruct (sortBy_sorts insertion_sort (fun _ _ => None) (fun _ => ret []) (fun _ => ret Undefined) (fun _ => NaN)
    (fun _ _ args => ret (arg 0 args)) holed 0 3 (fun _ args => arg 0 args) (Ref 1) Undefined) as (sorted & E & _).
  - by split.
  - done.
  - left. by repeat (constructor; [first [by left | right; by eexists]|]).
  - exists sorted. split; [exact E|]. vm_compute in E. by injection E.
Defined.
