(* ===== verification/ObjectProps.v ===== *)
(** * underscore: what the object functions compute

    [extend], [extendOwn] and [defaults] as maps of properties with a frame,
    [object] as the inverse of [pairs], [invert] as its own inverse, [pick]
    and [omit] as the two parts of an object. *)

From S2P Require Import Prelude UnderscoreArrays JsObject UnderscoreObjects CollectionProps.

(** ** Objects that are built property by property *)

(** An object without a special [length]. *)
Definition ordinary (o : jobject) : Prop := j_length o = None.

Lemma put_ordinary value_of number_of s r o k v :
  s !! r = Some o -> ordinary o -> k <> proto_key ->
  put value_of number_of (Ref r) k v s = (Ret tt, <[r := with_props (set_prop k v (j_props o)) o]> s).
Proof.
  intros Hr Ho Hk. unfold put. rewrite decide_False by done. erewrite bind_ret; [|reflexivity]. rewrite Hr. cbn [mbind option_bind fmap option_fmap option_map].
  rewrite Ho. replace (if decide (k = length_key) then None else None) with (@None val) by (by destruct (decide (k = length_key))).
  unfold update. f_equal. apply list_eq. intros i.
  destruct (decide (i = r)) as [->|Hi].
  - rewrite list_lookup_alter_eq, Hr, list_lookup_insert_eq by (by eapply lookup_lt_Some). cbn [fmap option_fmap option_map]. f_equal.
    unfold grow. cbn [with_props j_length j_class]. rewrite Ho. by destruct (j_class o).
  - by rewrite list_lookup_alter_ne, list_lookup_insert_ne.
Qed.

(** A loop over assignments to one object. *)
Lemma for_do_build {A} (body : A -> M unit) (step : A -> list (jsstr * val) -> list (jsstr * val)) s r o keys ps :
  (forall ps x, x ∈ keys -> body x (<[r := with_props ps o]> s) = (Ret tt, <[r := with_props (step x ps) o]> s)) ->
  for_do body keys (<[r := with_props ps o]> s) = (Ret tt, <[r := with_props (foldl (fun ps x => step x ps) ps keys) o]> s).
Proof.
  unfold for_do. revert ps. induction keys as [|x keys IH]; intros ps H; [done|]. cbn [for_fold foldl].
  rewrite (bind_ret _ _ _ _ _ (H ps x ltac:(left))). apply IH. intros; apply H; by right.
Qed.

Definition puts (l : list (jsstr * val)) (ps : list (jsstr * val)) : list (jsstr * val) :=
  foldl (fun ps p => set_prop p.1 p.2 ps) ps l.

Lemma get_puts l ps k : get_prop (puts l ps) k = match get_prop (rev l) k with Some v => Some v | None => get_prop ps k end.
Proof.
  induction l as [|[k0 v0] l IH] using rev_ind; [done|].
  unfold puts in *. rewrite foldl_app, rev_app_distr. cbn [foldl rev app fst snd get_prop]. rewrite get_set_prop.
  destruct (decide (k0 = k)); [done|exact IH].
Qed.

(** ** Reading objects while another one changes *)

(** [src] is not [l] and does not inherit from it. *)
Definition detached (s : store) (l src : nat) : Prop := forall fuel, inherits_from fuel s src l = false.

Lemma detached_step s l src p o : detached s l src -> s !! src = Some o -> j_proto o = Some p -> detached s l p.
Proof.
  intros H Hs Hp fuel. specialize (H (S fuel)). cbn [inherits_from] in H. rewrite Hs in H. cbn [mbind option_bind] in H.
  rewrite Hp in H. by apply orb_false_iff in H as [_ H].
Qed.

Lemma detached_ne s l src : detached s l src -> src <> l.
Proof. intros H ->. specialize (H 0). cbn in H. by rewrite bool_decide_true in H. Qed.

Lemma lookup_chain_detached builtin fuel s l src o k :
  detached s l src -> lookup_chain builtin fuel (<[l := o]> s) src k = lookup_chain builtin fuel s src k.
Proof.
  revert src. induction fuel as [|fuel IH]; intros src H; [done|]. cbn [lookup_chain].
  rewrite list_lookup_insert_ne by (symmetry; by eapply detached_ne). destruct (s !! src) as [q|] eqn:E; [|done].
  destruct (own_value q k); [done|]. destruct (j_proto q) eqn:Ep; [|done]. apply IH. by eapply detached_step.
Qed.

Lemma for_in_detached fuel s l src o seen : detached s l src -> for_in fuel (<[l := o]> s) src seen = for_in fuel s src seen.
Proof.
  revert src seen. induction fuel as [|fuel IH]; intros src seen H; [done|]. cbn [for_in].
  rewrite list_lookup_insert_ne by (symmetry; by eapply detached_ne). destruct (s !! src) as [q|] eqn:E; [|done].
  destruct (j_proto q) eqn:Ep; [|done]. f_equal. apply IH. by eapply detached_step.
Qed.


(** ** extend, extendOwn, defaults *)

Section Assigners.
Variable builtin : class -> jsstr -> option val.
Variable value_of : nat -> M val.
Variable number_of : jsstr -> num.
Variables (s : store) (l : nat) (o : jobject).
Hypothesis l_object : s !! l = Some o.
Hypothesis o_ordinary : ordinary o.

(** The store while the properties of [l] are [ps], and what [l[k]] is then. *)
Definition during (ps : list (jsstr * val)) : store := <[l := with_props ps o]> s.
Definition member (ps : list (jsstr * val)) (k : jsstr) : option val := get_member builtin (during ps) l k.

Lemma during_start : during (j_props o) = s.
Proof. unfold during. apply list_insert_id. rewrite l_object. by destruct o. Qed.

Lemma during_l ps : during ps !! l = Some (with_props ps o).
Proof. apply list_lookup_insert_eq. by eapply lookup_lt_Some. Qed.

Lemma own_value_ordinary ps k : own_value (with_props ps o) k = get_prop ps k.
Proof. unfold own_value. cbn [with_props j_props j_length]. rewrite o_ordinary. destruct (get_prop ps k); [done|by case_decide]. Qed.

Lemma lookup_chain_same fuel ps ps' p k :
  get_prop ps k = get_prop ps' k -> lookup_chain builtin fuel (during ps) p k = lookup_chain builtin fuel (during ps') p k.
Proof.
  intros Hk. revert p. induction fuel as [|fuel IH]; intros p; [done|]. cbn [lookup_chain].
  destruct (decide (p = l)) as [->|Hp].
  - rewrite !during_l, !own_value_ordinary, Hk. destruct (get_prop ps' k); [done|]. cbn [with_props j_proto]. by destruct (j_proto o).
  - unfold during. rewrite !list_lookup_insert_ne by done. destruct (s !! p) as [q|]; [|done].
    destruct (own_value q k); [done|]. by destruct (j_proto q).
Qed.

Lemma member_set ps k v k' : member (set_prop k v ps) k' = if decide (k = k') then Some v else member ps k'.
Proof.
  unfold member, get_member. assert (length (during (set_prop k v ps)) = length (during ps)) as -> by (unfold during; by rewrite !length_insert).
  case_decide as E.
  - subst k'. assert (exists n, length (during ps) = S n) as [n ->].
    { unfold during. rewrite length_insert. apply lookup_lt_Some in l_object. destruct (length s); [lia|eauto]. }
    cbn [lookup_chain]. rewrite during_l, own_value_ordinary, get_set_prop. by rewrite decide_True.
  - apply lookup_chain_same. rewrite get_set_prop. by rewrite decide_False.
Qed.

(** What a source contributes. *)
Variable undefinedOnly : bool.
Variable keysFunc : val -> M (list jsstr).
Variable enum : store -> nat -> list jsstr.
Hypothesis keysFunc_enum : forall src s, keysFunc (Ref src) s = (Ret (enum s src), s).
Hypothesis keysFunc_primitive : forall v s, is_object v = false -> keysFunc v s = (Ret [], s).
Hypothesis enum_detached : forall src ps, detached s l src -> enum (during ps) src = enum s src.

Definition assigned (k : jsstr) (cur : option val) (source : val) : option val :=
  match source with
  | Ref src =>
      if bool_decide (k ∈ enum s src) && (negb undefinedOnly || bool_decide (default Undefined cur = Undefined))
      then Some (default Undefined (get_member builtin s src k))
      else cur
  | _ => cur
  end.

(** A source that can be copied from without side effects on the reading. *)
Definition fit (source : val) : Prop :=
  match source with Ref src => detached s l src /\ proto_key ∉ enum s src | _ => True end.

Definition assign_step (src : nat) (k : jsstr) (ps : list (jsstr * val)) : list (jsstr * val) :=
  if negb undefinedOnly || bool_decide (default Undefined (member ps k) = Undefined)
  then set_prop k (default Undefined (get_member builtin s src k)) ps else ps.

Lemma assign_key_during src ps k :
  detached s l src -> k <> proto_key ->
  assign_key builtin value_of number_of undefinedOnly (Ref l) (Ref src) k (during ps) = (Ret tt, during (assign_step src k ps)).
Proof.
  intros Hd Hk. unfold assign_key, assign_step.
  assert (bind (get builtin (Ref src) k) (fun v => put value_of number_of (Ref l) k v) (during ps) =
    (Ret tt, during (set_prop k (default Undefined (get_member builtin s src k)) ps))) as Hput.
  { erewrite bind_ret; [|reflexivity]. rewrite (put_ordinary _ _ _ _ (with_props ps o)); [|by apply during_l|done|done].
    cbn [with_props j_props]. unfold during, get_member. rewrite list_insert_insert_eq, length_insert, lookup_chain_detached by done. done. }
  destruct undefinedOnly; cbn [negb orb]; (erewrite bind_ret; [|reflexivity]).
  - unfold member. by case_bool_decide.
  - exact Hput.
Qed.

Lemma member_assign_source src k keys ps :
  member (foldl (fun ps k => assign_step src k ps) ps keys) k =
    if bool_decide (k ∈ keys) && (negb undefinedOnly || bool_decide (default Undefined (member ps k) = Undefined))
    then Some (default Undefined (get_member builtin s src k)) else member ps k.
Proof.
  revert ps. induction keys as [|k0 keys IH]; intros ps; cbn [foldl].
  { rewrite bool_decide_false by apply not_elem_of_nil. done. }
  rewrite IH. clear IH.
  assert (member (assign_step src k0 ps) k =
    if bool_decide (k0 = k) && (negb undefinedOnly || bool_decide (default Undefined (member ps k) = Undefined))
    then Some (default Undefined (get_member builtin s src k)) else member ps k) as ->.
  { unfold assign_step. destruct (decide (k0 = k)) as [->|E].
    - rewrite (bool_decide_true (k = k)) by done. cbn [andb]. destruct (_ || _); [|done]. rewrite member_set. by rewrite decide_True.
    - rewrite (bool_decide_false (k0 = k)) by done. cbn [andb]. destruct (_ || _); [|done]. rewrite member_set. by rewrite decide_False. }
  rewrite (bool_decide_ext (k ∈ k0 :: keys) (k0 = k \/ k ∈ keys)) by (rewrite elem_of_cons; naive_solver).
  rewrite bool_decide_or. destruct (bool_decide (k0 = k)), (bool_decide (k ∈ keys)), undefinedOnly; cbn [andb orb negb]; try done.
  - destruct (bool_decide (default Undefined (member ps k) = Undefined)) eqn:E; cbv iota; [|by rewrite E].
    match goal with |- (if ?b then _ else _) = _ => by destruct b end.
Qed.

Lemma createAssigner_during sources :
  Forall fit sources ->
  exists ps, createAssigner builtin value_of number_of keysFunc undefinedOnly (Ref l) sources s = (Ret (Ref l), during ps) /\
    forall k, member ps k = foldl (assigned k) (member (j_props o) k) sources.
Proof.
  intros Hs. unfold createAssigner. cbn [is_nullish].
  set (step source ps := match source with Ref src => foldl (fun ps k => assign_step src k ps) ps (enum s src) | _ => ps end).
  assert (forall ps, for_do (fun source => bind (keysFunc source) (fun keys =>
      for_do (assign_key builtin value_of number_of undefinedOnly (Ref l) source) keys)) sources (during ps) =
    (Ret tt, during (foldl (fun ps x => step x ps) ps sources))) as Hrun.
  { intros ps. apply for_do_build. clear ps. intros ps source Hin. rewrite Forall_forall in Hs. specialize (Hs source Hin).
    destruct source as [| |b|x|t|src]; try (erewrite bind_ret; [|by apply keysFunc_primitive]; done).
    destruct Hs as [Hd Hp]. erewrite bind_ret; [|apply keysFunc_enum]. fold (during ps). rewrite enum_detached by done.
    apply (for_do_build _ (assign_step src)). intros ps' k Hk. apply assign_key_during; [done|]. by intros ->. }
  exists (foldl (fun ps x => step x ps) (j_props o) sources). split.
  - rewrite <- during_start at 1. by rewrite (bind_ret _ _ _ _ _ (Hrun _)).
  - intros k. generalize (j_props o) as ps. clear Hs Hrun. induction sources as [|source sources IH]; intros ps; [done|].
    cbn [foldl]. rewrite IH. f_equal. destruct source; try done. apply member_assign_source.
Qed.
End Assigners.

(** [extend], [extendOwn] and [defaults]: afterwards the object has, for
    every name, what the sources in order make of it, the last one that has
    the name (an own one for [extendOwn]) or, for [defaults], the first that
    fills in an undefined value; no other object changes. *)
Theorem assigners_merge builtin value_of number_of (s : store) (l : nat) (o : jobject) (sources : list val) :
  s !! l = Some o -> ordinary o ->
  (forall src, Ref src ∈ sources -> detached s l src /\ proto_key ∉ enumerable s src) ->
  let merges (run : val -> list val -> M val) (combine : jsstr -> option val -> val -> option val) :=
    exists s', run (Ref l) sources s = (Ret (Ref l), s') /\
      (forall k, get_member builtin s' l k = foldl (combine k) (get_member builtin s l k) sources) /\
      length s' = length s /\ forall l', l' <> l -> s' !! l' = s !! l' in
  merges (_extend builtin value_of number_of) (assigned builtin s false enumerable) /\
  merges (_extendOwn builtin value_of number_of) (assigned builtin s false own_keys) /\
  merges (_defaults builtin value_of number_of) (assigned builtin s true enumerable).
Proof.
  intros Hl Ho Hs merges.
  assert (forall u keysFunc enum,
    (forall src s, keysFunc (Ref src) s = (Ret (enum s src), s)) ->
    (forall v s, is_object v = false -> keysFunc v s = (Ret [], s)) ->
    (forall src ps, detached s l src -> enum (during s l o ps) src = enum s src) ->
    (forall src, proto_key ∉ enumerable s src -> proto_key ∉ enum s src) ->
    merges (createAssigner builtin value_of number_of keysFunc u) (assigned builtin s u enum)) as Hgen.
  { intros u keysFunc enum H1 H2 H3 H4.
    destruct (createAssigner_during builtin value_of number_of s l o Hl Ho u keysFunc enum H1 H2 H3 sources) as (ps & E & Hps).
    { apply Forall_forall. intros [| | | | |src] Hin; try done. destruct (Hs src Hin). split; [done|by apply H4]. }
    exists (during s l o ps). split_and!; [done| |unfold during; by rewrite length_insert|].
    - intros k. specialize (Hps k). unfold member in Hps. by rewrite (during_start s l o Hl) in Hps.
    - intros l' Hne. unfold during. by rewrite list_lookup_insert_ne. }
  split_and!; apply Hgen; try done; try (by intros [] ?).
  all: try (intros src ps Hd; unfold enumerable, during; rewrite length_insert; by apply for_in_detached).
  - intros src ps Hd. unfold own_keys, during. by rewrite list_lookup_insert_ne by (symmetry; by eapply detached_ne).
  - intros src Hn Hin. apply Hn. unfold enumerable, own_keys in *. destruct (s !! src) as [q|] eqn:E; [|by apply not_elem_of_nil in Hin].
    pose proof (lookup_lt_Some _ _ _ E). destruct (length s); [lia|]. cbn [for_in]. rewrite E. apply elem_of_app. left.
    apply list_elem_of_In, filter_In. split; [by apply list_elem_of_In|]. apply bool_decide_true, not_elem_of_nil.
Qed.

(** Two sources over an object that has one of the names already. *)
Definition three_objects : store :=
  [JObject CObject None [(lit "a", Num (Int 1))] None;
   JObject CObject None [(lit "a", Num (Int 2)); (lit "b", Undefined)] None;
   JObject CObject (Some 1) [(lit "b", Num (Int 3))] None].

Lemma detached_roots s l src o : s !! src = Some o -> j_proto o = None -> src <> l -> detached s l src.
Proof.
  intros Hs Hp Hne fuel. destruct fuel; cbn [inherits_from]; rewrite bool_decide_false by done; [done|].
  rewrite Hs. cbn [mbind option_bind]. by rewrite Hp.
Qed.

Lemma assigners_merge_witness :
  exists s', _defaults (fun _ _ => None) (fun _ => ret Undefined) (fun _ => NaN) (Ref 0) [Ref 1; Ref 2] three_objects = (Ret (Ref 0), s') /\
    get_member (fun _ _ => None) s' 0 (lit "a") = Some (Num (Int 1)) /\
    get_member (fun _ _ => None) s' 0 (lit "b") = Some (Num (Int 3)).
Proof.
  destruct (assigners_merge (fun _ _ => None) (fun _ => ret Undefined) (fun _ => NaN) three_objects 0
    (JObject CObject None [(lit "a", Num (Int 1))] None) [Ref 1; Ref 2]) as (_ & _ & s' & E & Hk & _).
  - done.
  - done.
  - intros src Hin.
    assert (detached three_objects 0 1) as H1 by (eapply detached_roots; [reflexivity|done|lia]).
    assert (detached three_objects 0 2) as H2.
    { intros [|fuel]; [done|]. cbn [inherits_from]. rewrite bool_decide_false by lia. apply H1. }
    apply elem_of_cons in Hin as [[= ->]|Hin]; [|apply list_elem_of_singleton in Hin as [= ->]];
      (split; [done|apply (bool_decide_unpack _); by vm_compute]).
  - exists s'. split; [exact E|]. split; rewrite Hk; reflexivity.
Defined.

(** ** Well-formed lists of properties: no name twice, indices in order *)

Definition wf_props (ps : list (jsstr * val)) : Prop :=
  NoDup (map fst ps) /\ StronglySorted (fun p q => goes_before q.1 p.1 = false) ps.

Lemma goes_before_asym a b : goes_before a b = true -> goes_before b a = false.
Proof. unfold goes_before. destruct (index_of a), (index_of b); try done. rewrite N.ltb_lt, N.ltb_ge. lia. Qed.

Lemma goes_before_trans a b c : goes_before a b = true -> goes_before b c = true -> goes_before a c = true.
Proof. unfold goes_before. destruct (index_of a), (index_of b), (index_of c); try done. rewrite !N.ltb_lt. lia. Qed.

Lemma keys_insert_key k v ps : map fst (insert_key k v ps) ≡ₚ k :: map fst ps.
Proof.
  induction ps as [|[k' w] ps IH]; [done|]. cbn [insert_key]. destruct (goes_before k k'); [done|].
  cbn [map fst]. rewrite IH. apply Permutation_swap.
Qed.

Lemma keys_replace_key k v ps : map fst (replace_key k v ps) = map fst ps.
Proof. unfold replace_key. rewrite map_map. apply map_ext. intros [k' w]. cbn [fst]. by destruct (decide (k' = k)). Qed.

Lemma insert_key_forall (P : jsstr * val -> Prop) k v ps : P (k, v) -> Forall P ps -> Forall P (insert_key k v ps).
Proof.
  intros Hk. induction ps as [|[k' w] ps IH]; intros H; cbn [insert_key]; [by constructor|].
  destruct (goes_before k k'); [by constructor|]. apply Forall_cons in H as [H1 H2]. constructor; auto.
Qed.

Lemma set_prop_wf k v ps : wf_props ps -> wf_props (set_prop k v ps).
Proof.
  intros [Hn Hs]. unfold set_prop. destruct (has_key ps k) eqn:E; unfold has_key in E.
  - split; [by rewrite keys_replace_key|]. clear E Hn. induction Hs as [|[k0 w] ps Hs IH Hx]; [constructor|].
    cbn [replace_key map fst]. fold (replace_key k v ps).
    assert (Forall (fun q => goes_before q.1 k0 = false) (replace_key k v ps)) as H.
    { unfold replace_key. apply Forall_map. eapply Forall_impl; [exact Hx|]. intros [k1 w1]. cbn. by destruct (decide (k1 = k)) as [->|]. }
    destruct (decide (k0 = k)) as [<-|]; by constructor.
  - apply bool_decide_eq_false in E. split; [rewrite keys_insert_key; by constructor|]. clear E Hn.
    induction Hs as [|[k0 w] ps Hs IH Hx]; cbn [insert_key]; [by repeat constructor|].
    destruct (goes_before k k0) eqn:Eb.
    + constructor; [by constructor|]. constructor; [by apply goes_before_asym|].
      eapply Forall_impl; [exact Hx|]. intros [k1 w1]. cbn [fst]. intros H1. destruct (goes_before k1 k) eqn:E1; [|done].
      by rewrite (goes_before_trans k1 k k0) in H1.
    + constructor; [done|]. by apply insert_key_forall.
Qed.

Lemma get_prop_elem ps k v : NoDup (map fst ps) -> get_prop ps k = Some v <-> (k, v) ∈ ps.
Proof.
  induction ps as [|[k0 w] ps IH]; cbn [get_prop map fst]; [by split; [|intros ?%not_elem_of_nil]|].
  rewrite NoDup_cons, elem_of_cons. intros [Hn Hd]. destruct (decide (k0 = k)) as [->|Hk].
  - split; [intros [= ->]; by left|]. intros [[= ->]|Hin]; [done|]. destruct Hn. by apply (list_elem_of_fmap_2 fst) in Hin.
  - rewrite IH by done. split; [by right|]. intros [[= -> ->]|]; done.
Qed.

Lemma rev_keys_NoDup (ps : list (jsstr * val)) : NoDup (map fst ps) -> NoDup (map fst (rev ps)).
Proof. rewrite map_rev. intros H. by rewrite <- Permutation_rev. Qed.

(** Building an object from properties in order gives them back. *)
Lemma puts_in_order l ps :
  wf_props (ps ++ l) -> puts l ps = ps ++ l.
Proof.
  revert ps. induction l as [|[k v] l IH]; intros ps [Hn Hs]; [by rewrite app_nil_r|].
  assert (has_key ps k = false) as Hk.
  { unfold has_key. apply bool_decide_false. intros Hin. rewrite map_app in Hn. apply NoDup_app in Hn as (_ & H & _).
    apply (H k Hin). left. }
  assert (insert_key k v ps = ps ++ [(k, v)]) as Hins.
  { assert (Forall (fun p => goes_before k p.1 = false) ps) as Hb.
    { clear - Hs. induction ps as [|p ps IH]; [constructor|]. cbn [app] in Hs. apply StronglySorted_inv in Hs as [Hs Hp].
      constructor; [|by apply IH]. apply Forall_app in Hp as [_ Hp]. by apply Forall_cons in Hp as [Hp _]. }
    clear - Hb. induction Hb as [|[k' w] ps Hp Hb IH]; [done|]. cbn [insert_key app fst] in *. by rewrite Hp, IH. }
  unfold puts. cbn [foldl fst snd]. unfold set_prop at 2. rewrite Hk, Hins. fold (puts l (ps ++ [(k, v)])).
  rewrite IH; by rewrite <- app_assoc.
Qed.

(** ** Round trips *)

Section RoundTrips.
Variable builtin : class -> jsstr -> option val.
Variable to_text : nat -> M jsstr.
Variable value_of : nat -> M val.
Variable number_of : jsstr -> num.

Lemma own_member s l o k v :
  s !! l = Some o -> get_prop (j_props o) k = Some v -> get_member builtin s l k = Some v.
Proof.
  intros Hl Hk. unfold get_member. pose proof (lookup_lt_Some _ _ _ Hl). destruct (length s) eqn:E; [lia|].
  cbn [lookup_chain]. rewrite Hl. unfold own_value. by rewrite Hk.
Qed.

(** A loop that reads the own properties of [l]. *)
Lemma pairs_look s l o :
  s !! l = Some o -> NoDup (map fst (j_props o)) -> _pairs builtin (Ref l) s = (Ret (j_props o), s).
Proof.
  intros Hl Hn. unfold _pairs. erewrite bind_ret; [|reflexivity]. unfold own_keys. rewrite Hl.
  rewrite (for_map_look _ (fun k => (k, default Undefined (get_member builtin s l k)))) by done.
  f_equal. f_equal. rewrite map_map. rewrite <- (map_id (j_props o)) at 2. apply map_ext_in. intros [k v] Hin%list_elem_of_In.
  cbn [fst]. rewrite (own_member s l o k v); [done|done|]. by apply get_prop_elem.
Qed.

(** What a loop of assignments makes of a new object. *)
Lemma new_object_puts s (l : list (jsstr * val)) :
  proto_key ∉ map fst l ->
  for_do (fun p => put value_of number_of (Ref (length s)) p.1 p.2) l (s ++ [empty_object]) =
    (Ret tt, s ++ [with_props (puts l []) empty_object]).
Proof.
  intros Hp.
  assert (forall ps, <[length s := with_props ps empty_object]> (s ++ [empty_object]) = s ++ [with_props ps empty_object]) as E.
  { intros ps. rewrite insert_app_r_alt by done. by rewrite Nat.sub_diag. }
  rewrite <- (E []) at 1. rewrite <- (E (puts l [])).
  apply (for_do_build _ (fun p ps => set_prop p.1 p.2 ps)). intros ps [k v] Hin. cbn [fst snd]. rewrite !E.
  rewrite (put_ordinary _ _ _ _ (with_props ps empty_object)); [|by rewrite lookup_app_r, Nat.sub_diag by done|done|].
  - f_equal. rewrite insert_app_r_alt by done. by rewrite Nat.sub_diag.
  - intros ->. apply Hp. by apply (list_elem_of_fmap_2 fst) in Hin.
Qed.

Lemma for_do_ext {A B} (f : A -> M unit) (g : B -> M unit) (h : A -> B) l s :
  (forall x s', x ∈ l -> f x s' = g (h x) s') -> for_do f l s = for_do g (map h l) s.
Proof.
  unfold for_do. revert s. induction l as [|x l IH]; intros s H; [done|]. cbn [for_fold map]. unfold bind. rewrite H by left.
  destruct (g (h x) s) as [[[]|] s']; [|done]. apply IH. intros; apply H; by right.
Qed.

Lemma object_pairs_look s (ps : list (jsstr * val)) :
  proto_key ∉ map fst ps ->
  _object_pairs to_text value_of number_of (map (fun p => (Str p.1, p.2)) ps) s =
    (Ret (Ref (length s)), s ++ [with_props (puts ps []) empty_object]).
Proof.
  intros Hp. unfold _object_pairs. erewrite bind_ret; [|reflexivity].
  rewrite (bind_ret _ _ _ tt (s ++ [with_props (puts ps []) empty_object])); [done|].
  rewrite <- new_object_puts by done. symmetry. by apply for_do_ext.
Qed.
End RoundTrips.

(** [_.object] undoes [_.pairs]: from the pairs of an object it makes a new
    object with the same properties in the same order. *)
Theorem object_of_pairs builtin to_text value_of number_of (s : store) (l : nat) (o : jobject) :
  s !! l = Some o -> wf_props (j_props o) -> proto_key ∉ map fst (j_props o) ->
  bind (_pairs builtin (Ref l)) (fun ps =>
    _object_pairs to_text value_of number_of (map (fun p => (Str p.1, p.2)) ps)) s =
  (Ret (Ref (length s)), s ++ [JObject CObject None (j_props o) None]).
Proof.
  intros Hl Hw Hp. rewrite (bind_ret _ _ _ _ _ (pairs_look builtin s l o Hl (proj1 Hw))).
  rewrite object_pairs_look by done. by rewrite puts_in_order.
Qed.

Lemma object_of_pairs_witness :
  bind (_pairs (fun _ _ => None) (Ref 1)) (fun ps =>
    _object_pairs (fun _ => ret []) (fun _ => ret Undefined) (fun _ => NaN) (map (fun p => (Str p.1, p.2)) ps)) three_objects =
  (Ret (Ref 3), three_objects ++ [JObject CObject None [(lit "a", Num (Int 2)); (lit "b", Undefined)] None]).
Proof.
  apply (object_of_pairs _ _ _ _ three_objects 1 (JObject CObject None [(lit "a", Num (Int 2)); (lit "b", Undefined)] None)).
  - done.
  - split; [apply (bool_decide_unpack _); by vm_compute|by repeat constructor].
  - apply (bool_decide_unpack _); by vm_compute.
Defined.

(** ** invert *)

Definition text_of (v : val) : jsstr := match v with Str t => t | _ => [] end.
Definition inverted (ps : list (jsstr * val)) : list (jsstr * val) := map (fun p => (text_of p.2, Str p.1)) ps.

(** Properties that can be inverted: distinct strings as values. *)
Definition invertible (ps : list (jsstr * val)) : Prop :=
  NoDup (map fst ps) /\ NoDup (map (fun p => text_of p.2) ps) /\
  Forall (fun p => p.1 <> proto_key /\ exists t, p.2 = Str t /\ t <> proto_key) ps.

Lemma invert_look builtin to_text value_of number_of s l o :
  s !! l = Some o -> invertible (j_props o) ->
  _invert builtin to_text value_of number_of (Ref l) s =
    (Ret (Ref (length s)), s ++ [with_props (puts (inverted (j_props o)) []) empty_object]).
Proof.
  intros Hl (Hn & _ & Hv). unfold _invert. erewrite bind_ret; [|reflexivity]. erewrite bind_ret; [|reflexivity].
  pose proof (lookup_lt_Some _ _ _ Hl) as Hlt. unfold own_keys. rewrite lookup_app_l, Hl by done.
  set (step k ps := set_prop (text_of (default Undefined (get_prop (j_props o) k))) (Str k) ps).
  assert (forall ps, <[length s := with_props ps empty_object]> (s ++ [empty_object]) = s ++ [with_props ps empty_object]) as E.
  { intros ps. rewrite insert_app_r_alt by done. by rewrite Nat.sub_diag. }
  erewrite bind_ret; [reflexivity|]. rewrite <- (E []) at 1.
  replace (puts (inverted (j_props o)) []) with (foldl (fun ps k => step k ps) [] (map fst (j_props o))).
  { rewrite <- E. apply for_do_build. intros ps k Hk. rewrite !E.
    assert (exists t, get_prop (j_props o) k = Some (Str t) /\ t <> proto_key) as (t & Ht & Hp).
    { apply list_elem_of_fmap in Hk as ([k' v] & -> & Hin). rewrite Forall_forall in Hv. destruct (Hv _ Hin) as (_ & t & Et & Hp).
      cbn in Et. subst v. exists t. split; [|done]. by apply get_prop_elem. }
    assert (get builtin (Ref l) k (s ++ [with_props ps empty_object]) = (Ret (Str t), s ++ [with_props ps empty_object])) as Hg.
    { unfold get, look. f_equal. rewrite (own_member builtin _ l o k (Str t)); [done| |done]. by rewrite lookup_app_l. }
    rewrite (bind_ret _ _ _ _ _ Hg). erewrite bind_ret; [|reflexivity].
    rewrite (put_ordinary _ _ _ _ (with_props ps empty_object)); [|by rewrite lookup_app_r, Nat.sub_diag by done|done|done].
    unfold step. rewrite Ht. f_equal. rewrite insert_app_r_alt by done. by rewrite Nat.sub_diag. }
  unfold puts, inverted. rewrite !foldl_map. cbn [fst snd].
  assert (forall q, (forall p, p ∈ q -> p ∈ j_props o) -> forall acc,
    foldl (fun a p => step p.1 a) acc q = foldl (fun a p => set_prop (text_of p.2) (Str p.1) a) acc q) as H; [|by apply H].
  intros q. induction q as [|[k v] q IH]; intros Hq acc; [done|]. cbn [foldl fst snd]. rewrite IH by (intros; apply Hq; by right).
  unfold step. rewrite (proj2 (get_prop_elem _ k v Hn)); [done|]. apply Hq. left.
Qed.

Lemma puts_wf l ps : wf_props ps -> wf_props (puts l ps).
Proof. revert ps. induction l as [|p l IH]; intros ps H; [done|]. apply IH. by apply set_prop_wf. Qed.

(** The properties of the inverted object. *)
Lemma elem_puts_inverted ps k v :
  invertible ps -> (k, v) ∈ puts (inverted ps) [] <-> exists t, v = Str t /\ (t, Str k) ∈ ps.
Proof.
  intros (Hn & Hd & Hv). rewrite <- get_prop_elem by apply puts_wf, (conj (NoDup_nil_2) (SSorted_nil _)).
  rewrite get_puts. cbn [get_prop]. rewrite Forall_forall in Hv.
  assert (NoDup (map fst (inverted ps))) as Hi by (unfold inverted; by rewrite map_map).
  transitivity (get_prop (rev (inverted ps)) k = Some v); [by destruct (get_prop _ k)|].
  rewrite get_prop_elem by (by apply rev_keys_NoDup). rewrite list_elem_of_In, <- in_rev, <- list_elem_of_In.
  unfold inverted. rewrite list_elem_of_fmap. split.
  - intros ([k' v'] & [= -> ->] & Hin). destruct (Hv _ Hin) as (_ & t & Et & _). cbn in Et. subst. by exists k'.
  - intros (t & -> & Hin). exists (t, Str k). done.
Qed.

Lemma inverted_invertible ps : invertible ps -> invertible (puts (inverted ps) []).
Proof.
  intros Hi. pose proof Hi as (Hn & Hd & Hv). rewrite Forall_forall in Hv.
  assert (NoDup (map fst (puts (inverted ps) []))) as Hk by apply puts_wf, (conj (NoDup_nil_2) (SSorted_nil _)).
  split_and!; [done| |].
  - apply NoDup_fmap_2_strong; [|by eapply NoDup_fmap_1]. intros [k1 v1] [k2 v2] H1 H2 E. cbn in E.
    apply elem_puts_inverted in H1 as (t1 & -> & H1), H2 as (t2 & -> & H2); try done. cbn in E. subst t2. f_equal.
    apply (get_prop_elem _ _ _ Hn) in H1, H2. congruence.
  - apply Forall_forall. intros [k v] (t & -> & Hin)%elem_puts_inverted; [|done]. destruct (Hv _ Hin) as (H1 & t' & [= <-] & H2). eauto.
Qed.

(** [_.invert] is its own inverse on objects whose values are distinct
    strings: inverting twice makes an object with the properties of the first
    one. *)
Theorem invert_twice builtin to_text value_of number_of (s : store) (l : nat) (o : jobject) :
  s !! l = Some o -> invertible (j_props o) ->
  exists o1 o2,
    bind (_invert builtin to_text value_of number_of (Ref l)) (_invert builtin to_text value_of number_of) s =
      (Ret (Ref (S (length s))), s ++ [o1; o2]) /\
    (forall k t, get_prop (j_props o1) t = Some (Str k) <-> get_prop (j_props o) k = Some (Str t)) /\
    forall k, get_prop (j_props o2) k = get_prop (j_props o) k.
Proof.
  intros Hl Hi. pose proof (inverted_invertible _ Hi) as Hi1.
  set (o1 := with_props (puts (inverted (j_props o)) []) empty_object).
  exists o1, (with_props (puts (inverted (j_props o1)) []) empty_object).
  rewrite (bind_ret _ _ _ _ _ (invert_look _ _ _ _ s l o Hl Hi)). fold o1.
  rewrite (invert_look _ _ _ _ (s ++ [o1]) (length s) o1) by (done || by rewrite lookup_app_r, Nat.sub_diag by done).
  assert (forall k v, get_prop (j_props o1) k = Some v <-> exists t, v = Str t /\ get_prop (j_props o) t = Some (Str k)) as H1.
  { intros k v. rewrite (get_prop_elem _ k v) by apply Hi1. cbn [o1 with_props j_props]. rewrite elem_puts_inverted by done.
    split; intros (t & -> & H); exists t; (split; [done|]); by apply get_prop_elem; [apply Hi|]. }
  split_and!.
  - rewrite length_app, <- app_assoc. cbn [length app]. by rewrite Nat.add_1_r.
  - intros k t. rewrite H1. naive_solver.
  - intros k. apply option_eq. intros v. cbn [with_props j_props]. rewrite get_prop_elem by apply (inverted_invertible _ Hi1).
    rewrite elem_puts_inverted by done. split.
    + intros (t & -> & H). apply get_prop_elem in H; [|apply Hi1]. apply H1 in H as (t' & [= ->] & H). done.
    + intros H. assert (exists t, v = Str t) as [t ->].
      { destruct Hi as (Hn & _ & Hv). apply get_prop_elem in H; [|done]. rewrite Forall_forall in Hv. destruct (Hv _ H) as (_ & t & Et & _). cbn in Et. eauto. }
      exists t. split; [done|]. apply get_prop_elem; [apply Hi1|]. apply H1. eauto.
Qed.

Definition renames : jobject := JObject CObject None [(lit "moe", Str (lit "Moses")); (lit "larry", Str (lit "Louis"))] None.

Lemma invert_twice_witness :
  exists o1 o2,
    bind (_invert (fun _ _ => None) (fun _ => ret []) (fun _ => ret Undefined) (fun _ => NaN) (Ref 0))
      (_invert (fun _ _ => None) (fun _ => ret []) (fun _ => ret Undefined) (fun _ => NaN)) [renames] =
      (Ret (Ref 2), [renames; o1; o2]) /\
    get_prop (j_props o1) (lit "Moses") = Some (Str (lit "moe")) /\ get_prop (j_props o2) (lit "larry") = Some (Str (lit "Louis")).
Proof.
  destruct (invert_twice (fun _ _ => None) (fun _ => ret []) (fun _ => ret Undefined) (fun _ => NaN) [renames] 0 renames)
    as (o1 & o2 & E & H1 & H2).
  - done.
  - split_and!; [apply (bool_decide_unpack _); by vm_compute..|]. repeat (constructor; [split; [done|by eexists]|]). constructor.
  - exists o1, o2. split_and!; [exact E|by apply H1|by rewrite H2].
Defined.

(** ** pick and omit *)

(** Prototypes that were made before the objects that have them. *)
Definition older_protos (s : store) : Prop := forall l o p, s !! l = Some o -> j_proto o = Some p -> p < l.

Lemma lookup_chain_grow builtin s t k : older_protos s -> forall l fuel fuel',
  l < length s -> l < fuel -> l < fuel' -> lookup_chain builtin fuel (s ++ t) l k = lookup_chain builtin fuel' s l k.
Proof.
  intros Hold l. induction (lt_wf l) as [l _ IH]. intros [|fuel] [|fuel'] Hl Hf Hf'; try lia. cbn [lookup_chain].
  rewrite lookup_app_l by done. destruct (s !! l) as [o|] eqn:E; [|done]. destruct (own_value o k); [done|].
  destruct (j_proto o) as [p|] eqn:Ep; [|done]. pose proof (Hold _ _ _ E Ep). apply IH; lia.
Qed.

Lemma for_in_grow s t : older_protos s -> forall l fuel fuel' seen,
  l < length s -> l < fuel -> l < fuel' -> for_in fuel (s ++ t) l seen = for_in fuel' s l seen.
Proof.
  intros Hold l. induction (lt_wf l) as [l _ IH]. intros [|fuel] [|fuel'] seen Hl Hf Hf'; try lia. cbn [for_in].
  rewrite lookup_app_l by done. destruct (s !! l) as [o|] eqn:E; [|done].
  destruct (j_proto o) as [p|] eqn:Ep; [|done]. pose proof (Hold _ _ _ E Ep). f_equal. apply IH; lia.
Qed.

Section Pick.
Variable builtin : class -> jsstr -> option val.
Variable to_text : nat -> M jsstr.
Variable value_of : nat -> M val.
Variable number_of : jsstr -> num.
Variables (s : store) (l : nat).
Hypothesis l_old : l < length s.
Hypothesis protos_old : older_protos s.

Let building (ps : list (jsstr * val)) : store := s ++ [with_props ps empty_object].

Lemma member_building ps k : get_member builtin (building ps) l k = get_member builtin s l k.
Proof. unfold get_member, building. apply lookup_chain_grow; [done..|rewrite length_app; lia|done]. Qed.

Lemma enumerable_building ps : enumerable (building ps) l = enumerable s l.
Proof. unfold enumerable, building. apply for_in_grow; [done..|rewrite length_app; lia|done]. Qed.

(** The loop of [pick] over names, with a test that only looks. *)
Lemma pick_loop (iteratee : val -> val -> M bool) (want : jsstr -> bool) keys ps :
  proto_key ∉ keys ->
  (forall ps k v, k ∈ keys -> iteratee v (Str k) (building ps) = (Ret (want k), building ps)) ->
  for_do (pick_key builtin to_text value_of number_of (Ref l) (length s) iteratee) (map Str keys) (building ps) =
    (Ret tt, building (puts (map (fun k => (k, default Undefined (get_member builtin s l k))) (List.filter want keys)) ps)).
Proof.
  intros Hp Hi.
  assert (forall ps, building ps = <[length s := with_props ps empty_object]> (s ++ [empty_object])) as E.
  { intros ps'. rewrite insert_app_r_alt by done. by rewrite Nat.sub_diag. }
  set (value k := default Undefined (get_member builtin s l k)).
  set (step key ps := match key with Str k => if want k then set_prop k (value k) ps else ps | _ => ps end).
  transitivity (Ret (A := unit) tt, building (foldl (fun ps x => step x ps) ps (map Str keys))).
  - rewrite (E ps), (E (foldl _ _ _)). apply for_do_build. clear ps. intros ps key (k & -> & Hk)%list_elem_of_fmap. rewrite <- !E.
    unfold pick_key. erewrite bind_ret; [|reflexivity]. erewrite bind_ret; [|reflexivity].
    rewrite (bind_ret _ _ _ _ _ (Hi ps k _ Hk)). cbn [step]. destruct (want k); [|done]. erewrite bind_ret; [|reflexivity].
    rewrite member_building.
    rewrite (put_ordinary _ _ _ _ (with_props ps empty_object)); [|unfold building; by rewrite lookup_app_r, Nat.sub_diag by done|done|by intros ->].
    f_equal. unfold building. rewrite insert_app_r_alt by done. by rewrite Nat.sub_diag.
  - f_equal. f_equal. unfold puts. rewrite !foldl_map. clear Hi Hp. revert ps. induction keys as [|k keys IH]; intros ps; [done|].
    cbn [List.filter foldl step]. destruct (want k); [apply IH|exact (IH ps)].
Qed.

Lemma get_picked (want : jsstr -> bool) keys k :
  get_prop (puts (map (fun k => (k, default Undefined (get_member builtin s l k))) (List.filter want keys)) []) k =
    if bool_decide (k ∈ keys) && want k then Some (default Undefined (get_member builtin s l k)) else None.
Proof.
  rewrite get_puts. cbn [get_prop]. rewrite <- map_rev.
  assert (forall q, get_prop (map (fun k => (k, default Undefined (get_member builtin s l k))) q) k =
    if bool_decide (k ∈ q) then Some (default Undefined (get_member builtin s l k)) else None) as ->.
  { intros q. induction q as [|k0 q IH]; [done|]. cbn [map get_prop].
    destruct (decide (k0 = k)) as [->|E]; [by rewrite bool_decide_true by left|].
    rewrite IH. rewrite (bool_decide_ext (k ∈ k0 :: q) (k ∈ q)); [done|]. rewrite elem_of_cons. naive_solver. }
  rewrite (bool_decide_ext _ (k ∈ keys /\ want k = true)).
  - rewrite bool_decide_and. destruct (want k); [rewrite (bool_decide_true (true = true)) by done|rewrite (bool_decide_false (false = true)) by done];
      rewrite ?andb_true_r, ?andb_false_r; by destruct (bool_decide (k ∈ keys)).
  - by rewrite !list_elem_of_In, <- in_rev, filter_In.
Qed.

Lemma flatten_names ks s' : flatten_args builtin (map Str ks) s' = (Ret (map Str ks), s').
Proof.
  unfold flatten_args. erewrite bind_ret; [|reflexivity].
  assert (flatten (array_elements builtin s') (S (length s')) false false (map Str ks) = Some (map Str ks)) as ->; [|done].
  cbn [flatten]. induction ks as [|k ks IH]; [done|]. cbn [map array_elements]. rewrite IH. done.
Qed.

Lemma contains_names (keys : list jsstr) k : contains keys k = bool_decide (k ∈ keys).
Proof.
  rewrite contains_hits. apply eq_true_iff_eq. rewrite existsb_exists, bool_decide_eq_true. unfold hits. cbn [seqb str_element].
  rewrite (bool_decide_true (k = k)) by done. setoid_rewrite bool_decide_eq_true. rewrite list_elem_of_In. naive_solver.
Qed.

Lemma pick_names ks :
  proto_key ∉ ks ->
  exists pp, _pick builtin to_text value_of number_of (Ref l) (ByNames (map Str ks)) s = (Ret (Ref (length s)), building pp) /\
    forall k, get_prop pp k = if bool_decide (k ∈ ks) then get_member builtin s l k else None.
Proof.
  intros Hp. eexists. split.
  - unfold _pick. erewrite bind_ret; [|reflexivity]. cbn [is_nullish]. unfold bind at 1. rewrite (bind_ret _ _ _ _ _ (flatten_names ks _)).
    change (s ++ [empty_object]) with (building []).
    rewrite (pick_loop _ (fun k => bool_decide (is_Some (get_member builtin s l k)))); [reflexivity|done|].
    intros ps k v Hk. erewrite bind_ret; [|reflexivity]. unfold in_boxed, is_in, look. by rewrite member_building.
  - intros k. rewrite get_picked. destruct (bool_decide (k ∈ ks)); [|done]. cbn [andb].
    destruct (get_member builtin s l k); [by rewrite bool_decide_true by eauto|]. rewrite bool_decide_false; [done|by intros [? ?]].
Qed.

Lemma omit_names ks :
  proto_key ∉ enumerable s l ->
  exists po, _omit builtin to_text value_of number_of (Ref l) (ByNames (map Str ks)) s = (Ret (Ref (length s)), building po) /\
    forall k, get_prop po k =
      if bool_decide (k ∈ enumerable s l) && negb (bool_decide (k ∈ ks)) then Some (default Undefined (get_member builtin s l k)) else None.
Proof.
  intros Hp. eexists. split.
  - unfold _omit. rewrite (bind_ret _ _ _ _ _ (flatten_names ks _)).
    erewrite bind_ret; [|by apply (for_map_look _ text_of); intros x (k & -> & _)%list_elem_of_fmap].
    rewrite map_map. cbn [text_of]. rewrite map_id.
    unfold _pick. erewrite bind_ret; [|reflexivity]. cbn [is_nullish]. unfold bind at 1. erewrite bind_ret; [|reflexivity].
    change (s ++ [empty_object]) with (building []). rewrite enumerable_building.
    rewrite (pick_loop _ (fun k => negb (bool_decide (k ∈ ks)))); [reflexivity|done|].
    intros ps k v Hk. unfold optimizeCb. rewrite <- contains_names. assert (forall b, truthy (Bool b) = b) as Ht by (by intros []).
    by case_decide; (erewrite bind_ret; [|reflexivity]); unfold ret; rewrite Ht.
  - intros k. apply get_picked.
Qed.
End Pick.

(** [_.pick] and [_.omit] with names: a new object with exactly the named
    properties that there are, inherited ones too, and one with exactly the
    enumerable properties that are not named; what is there stays as it is. *)
Theorem pick_and_omit builtin to_text value_of number_of (s : store) (l : nat) (ks : list jsstr) :
  l < length s -> older_protos s -> proto_key ∉ ks -> proto_key ∉ enumerable s l ->
  exists pp po,
    _pick builtin to_text value_of number_of (Ref l) (ByNames (map Str ks)) s =
      (Ret (Ref (length s)), s ++ [with_props pp empty_object]) /\
    _omit builtin to_text value_of number_of (Ref l) (ByNames (map Str ks)) s =
      (Ret (Ref (length s)), s ++ [with_props po empty_object]) /\
    forall k,
      get_prop pp k = (if bool_decide (k ∈ ks) then get_member builtin s l k else None) /\
      get_prop po k = (if bool_decide (k ∈ enumerable s l) && negb (bool_decide (k ∈ ks))
                       then Some (default Undefined (get_member builtin s l k)) else None).
Proof.
  intros Hl Ho Hk He. destruct (pick_names builtin to_text value_of number_of s l Hl Ho ks Hk) as (pp & Ep & Hpp).
  destruct (omit_names builtin to_text value_of number_of s l Hl Ho ks He) as (po & Eo & Hpo).
  exists pp, po. split_and!; [exact Ep|exact Eo|]. intros k. split; [apply Hpp|apply Hpo].
Qed.

Lemma pick_and_omit_witness :
  exists pp po,
    _pick (fun _ _ => None) (fun _ => ret []) (fun _ => ret Undefined) (fun _ => NaN) (Ref 2) (ByNames [Str (lit "a"); Str (lit "c")]) three_objects =
      (Ret (Ref 3), three_objects ++ [with_props pp empty_object]) /\
    _omit (fun _ _ => None) (fun _ => ret []) (fun _ => ret Undefined) (fun _ => NaN) (Ref 2) (ByNames [Str (lit "a"); Str (lit "c")]) three_objects =
      (Ret (Ref 3), three_objects ++ [with_props po empty_object]) /\
    get_prop pp (lit "a") = Some (Num (Int 2)) /\ get_prop po (lit "a") = None /\ get_prop po (lit "b") = Some (Num (Int 3)).
Proof.
  destruct (pick_and_omit (fun _ _ => None) (fun _ => ret []) (fun _ => ret Undefined) (fun _ => NaN) three_objects 2 [lit "a"; lit "c"])
    as (pp & po & Ep & Eo & H).
  - cbn. lia.
  - intros [|[|[|?]]] o p; cbn; try done; intros [= <-]; cbn; try done; intros [= <-]; lia.
  - apply (bool_decide_unpack _); by vm_compute.
  - apply (bool_decide_unpack _); by vm_compute.
  - exists pp, po. split_and!; [exact Ep|exact Eo|..]; [rewrite (proj1 (H _))|rewrite (proj2 (H _))..]; by vm_compute.
Defined.
