(* ===== verification/UnderscoreChain.v ===== *)
(** * underscore: wrapped objects and chaining

    [_(obj)], [_.chain], the methods that [_.mixin] puts on wrapped objects
    and [value] (module 25 of wordcut.js, lines 4562-4566 and 5994-6049), over
    a store of wrapped objects that share their [_chain] mark.  The functions
    behind the methods are parameters that do not look at wrapped objects. *)

From S2P Require Import Prelude.

Section Chain.
Context {A : Type}.

(** A value, or an instance of [_]. *)
Inductive wval := Plain (v : A) | Inst (i : nat).

Record instance := Instance_ { _wrapped : A; _chain : bool }.

Definition W (B : Type) : Type := list instance -> option B * list instance.
Definition ret {B} (b : B) : W B := fun s => (Some b, s).
Definition stuck {B} : W B := fun s => (None, s).
Definition bind {B C} (m : W B) (f : B -> W C) : W C := fun s =>
  match m s with (Some b, s) => f b s | (None, s) => (None, s) end.
Notation "x <- m ;; k" := (bind m (fun x => k)) (at level 100, m at next level, right associativity).

Definition at_ (i : nat) : W instance := fun s => (s !! i, s).

(** [_(obj)]: an instance stays, another value gets a new one. *)
Definition wrap (obj : wval) : W nat := fun s =>
  match obj with
  | Inst i => (Some i, s)
  | Plain v => (Some (length s), s ++ [Instance_ v false])
  end.

(** [_.chain(obj)] marks the instance. *)
Definition mark (i : nat) : W nat := fun s => (Some i, alter (fun w => Instance_ (_wrapped w) true) i s).
Definition chain (obj : wval) : W wval := i <- wrap obj ;; i <- mark i ;; ret (Inst i).

(** [result(instance, obj)], with [chain_method] for [.chain()], the method that
    [mixin] makes of [_.chain]: the two call each other, [fuel] is the stack. *)
Fixpoint result (fuel : nat) (i : nat) (obj : wval) : W wval :=
  match fuel with
  | O => stuck
  | S fuel =>
      w <- at_ i ;;
      if _chain w then
        j <- wrap obj ;;
        w <- at_ j ;;
        obj <- chain (Plain (_wrapped w)) ;;
        result fuel j obj
      else ret obj
  end.

(** A method that [mixin] makes of a function: it is applied to the wrapped
    value and the arguments. *)
Definition mixin_method (fuel : nat) (func : list A -> A) (this : nat) (args : list A) : W wval :=
  w <- at_ this ;; result fuel this (Plain (func (_wrapped w :: args))).

Definition chain_method (fuel : nat) (this : nat) : W wval :=
  w <- at_ this ;; obj <- chain (Plain (_wrapped w)) ;; result fuel this obj.

(** [wrapped.value()] *)
Definition value (this : wval) : W A :=
  match this with Inst i => w <- at_ i ;; ret (_wrapped w) | Plain v => ret v end.

(** [_.chain(obj).f1(...).f2(...) ... .value()] *)
Fixpoint calls (fuel : nat) (fs : list ((list A -> A) * list A)) (this : wval) : W wval :=
  match fs, this with
  | [], _ => ret this
  | _ :: _, Plain _ => stuck
  | (f, args) :: fs, Inst i => this <- mixin_method fuel f i args ;; calls fuel fs this
  end.

Definition chained (fuel : nat) (obj : A) (fs : list ((list A -> A) * list A)) : W A :=
  w <- chain (Plain obj) ;; w <- calls fuel fs w ;; value w.

(** ** Chains compute compositions *)

Lemma bind_some {B C} (m : W B) (f : B -> W C) s b s' : m s = (Some b, s') -> bind m f s = f b s'.
Proof. intros H. unfold bind. by rewrite H. Qed.

Lemma at_some i s w : s !! i = Some w -> at_ i s = (Some w, s).
Proof. intros H. unfold at_. by rewrite H. Qed.

Lemma lookup_last (s : list instance) w t : (s ++ w :: t) !! length s = Some w.
Proof. by rewrite lookup_app_r, Nat.sub_diag by done. Qed.

Lemma chain_plain v s : chain (Plain v) s = (Some (Inst (length s)), s ++ [Instance_ v true]).
Proof.
  unfold chain, bind, wrap, mark, ret. f_equal.
  rewrite alter_app_r_alt by done. by rewrite Nat.sub_diag.
Qed.

(** What is returned from a chained object becomes a chained object, on a
    stack of two calls. *)
Lemma result_chained fuel i s v x :
  s !! i = Some (Instance_ v true) ->
  result (S (S fuel)) i (Plain x) s = (Some (Inst (S (length s))), s ++ [Instance_ x false; Instance_ x true]).
Proof.
  intros Hi. cbn [result]. rewrite (bind_some _ _ _ _ _ (at_some _ _ _ Hi)). cbn [_chain].
  erewrite bind_some; [|reflexivity].
  rewrite (bind_some _ _ _ _ _ (at_some _ _ _ (lookup_last _ _ _))). cbn [_wrapped].
  rewrite (bind_some _ _ _ _ _ (chain_plain _ _)), <- app_assoc. cbn [app].
  rewrite (bind_some _ _ _ _ _ (at_some _ _ _ (lookup_last _ _ _))). cbn [_chain].
  unfold ret. rewrite length_app. cbn [length]. by rewrite Nat.add_1_r.
Qed.

Lemma result_unchained fuel i s v x :
  s !! i = Some (Instance_ v false) -> result (S fuel) i (Plain x) s = (Some (Plain x), s).
Proof. intros Hi. cbn [result]. by rewrite (bind_some _ _ _ _ _ (at_some _ _ _ Hi)). Qed.

Lemma mixin_method_chained fuel f i args s v :
  s !! i = Some (Instance_ v true) ->
  mixin_method (S (S fuel)) f i args s =
    (Some (Inst (S (length s))), s ++ [Instance_ (f (v :: args)) false; Instance_ (f (v :: args)) true]).
Proof. intros Hi. unfold mixin_method. rewrite (bind_some _ _ _ _ _ (at_some _ _ _ Hi)). by eapply result_chained. Qed.

Lemma calls_chained fuel fs i s v :
  s !! i = Some (Instance_ v true) ->
  exists j s', calls (S (S fuel)) fs (Inst i) s = (Some (Inst j), s') /\
    s' !! j = Some (Instance_ (foldl (fun x fa => fa.1 (x :: fa.2)) v fs) true).
Proof.
  revert i s v. induction fs as [|[f args] fs IH]; intros i s v Hi; cbn [calls]; [by exists i, s|].
  rewrite (bind_some _ _ _ _ _ (mixin_method_chained _ f i args s v Hi)). apply IH.
  rewrite lookup_app_r by lia. by replace (S (length s) - length s) with 1 by lia.
Qed.

(** A chain of methods ended by [value] computes the composition of the
    functions, each applied to the result of the one before and its own
    arguments, however long the chain, on a stack of two calls. *)
Theorem chain_composes (fuel : nat) (obj : A) (fs : list ((list A -> A) * list A)) (s : list instance) :
  2 <= fuel -> (chained fuel obj fs s).1 = Some (foldl (fun x fa => fa.1 (x :: fa.2)) obj fs).
Proof.
  intros Hf. destruct fuel as [|[|fuel]]; [lia..|]. unfold chained. rewrite (bind_some _ _ _ _ _ (chain_plain obj s)).
  destruct (calls_chained fuel fs (length s) (s ++ [Instance_ obj true]) obj) as (j & s' & E & Hj).
  { apply lookup_last. }
  rewrite (bind_some _ _ _ _ _ E). cbn [value]. unfold bind, at_. by rewrite Hj.
Qed.

(** On an object that is chained already [.chain()] calls itself without end. *)
Lemma result_chained_stuck fuel i j s v w :
  s !! i = Some (Instance_ v true) -> s !! j = Some (Instance_ w true) -> (result fuel i (Inst j) s).1 = None.
Proof.
  revert i j s v w. induction fuel as [|fuel IH]; intros i j s v w Hi Hj; [done|]. cbn [result].
  rewrite (bind_some _ _ _ _ _ (at_some _ _ _ Hi)). cbn [_chain]. erewrite bind_some; [|reflexivity].
  rewrite (bind_some _ _ _ _ _ (at_some _ _ _ Hj)). cbn [_wrapped].
  rewrite (bind_some _ _ _ _ _ (chain_plain _ _)). apply (IH _ _ _ w w).
  - rewrite lookup_app_l; [done|]. by eapply lookup_lt_Some.
  - apply lookup_last.
Qed.

Theorem chain_twice_overflows (fuel : nat) (v : A) (s : list instance) :
  (bind (chain (Plain v)) (fun w => match w with Inst i => chain_method fuel i | Plain _ => stuck end) s).1 = None.
Proof.
  rewrite (bind_some _ _ _ _ _ (chain_plain v s)). unfold chain_method.
  rewrite (bind_some _ _ _ _ _ (at_some _ _ _ (lookup_last _ _ _))). cbn [_wrapped].
  rewrite (bind_some _ _ _ _ _ (chain_plain _ _)). eapply result_chained_stuck.
  - by rewrite lookup_app_l, lookup_app_r, Nat.sub_diag by (rewrite ?length_app; cbn; lia).
  - apply lookup_last.
Qed.
End Chain.

Lemma chain_composes_witness :
  (chained 2 3 [(fun l => sum_list l, [4]); (fun l => length l * 10, [5; 6])] []).1 = Some 30.
Proof. apply (chain_composes 2 3 [(fun l => sum_list l, [4]); (fun l => length l * 10, [5; 6])] []). lia. Defined.
