(* ===== verification/UnderscoreUtility.v ===== *)
(** * underscore: utility functions

    [_.constant], [_.noop], [_.propertyOf], [_.result] and [_.uniqueId] of
    module 25 of wordcut.js (lines 5809-5825 and 5886-5902), [_.compact] and
    the remaining type tests, over the objects of JsObject.v.  The counter behind [_.uniqueId] is a double: it stops at
    two to the power of 53. *)

From stdpp Require Import pretty.
From S2P Require Import Prelude UnderscoreArrays JsObject UnderscoreObjects UnderscoreCollections CollectionProps.

Section Compact.
Variable builtin : class -> jsstr -> option val.
Variable to_text : nat -> M jsstr.
Variable value_of : nat -> M val.
Variable number_of : jsstr -> num.
Variable call : nat -> val -> list val -> M val.

(** [_.compact(array)] *)
Definition _compact (array : val) : M (list val) :=
  _filter builtin to_text value_of number_of call array (Inner identity) Undefined.

(** [_.compact] keeps the entries that are true as conditions, in order, and
    changes nothing. *)
Lemma compact_truthy (array : val) (s : store) :
  _compact array s = (Ret (List.filter truthy (map fst (entries builtin s array))), s).
Proof.
  unfold _compact. rewrite (filter_closure _ _ _ _ _ _ _ _ _ (fun e => truthy e.1)).
  - by rewrite filter_map_swap.
  - intros e _. by exists e.1.
Qed.

End Compact.

Section Utility.
Variable builtin : class -> jsstr -> option val.
Variable to_text : nat -> M jsstr.
Variable value_of : nat -> M val.
Variable call : nat -> val -> list val -> M val.

(** [_.isObject], [_.isNull], [_.isUndefined], [_.isElement] *)
Definition _isObject (obj : val) : bool := is_object obj.
Definition _isNull (obj : val) : bool := bool_decide (obj = Null).
Definition _isUndefined (obj : val) : bool := bool_decide (obj = Undefined).
Definition _isElement (obj : val) : M bool :=
  if truthy obj then n <- get builtin obj «"nodeType"» ;; ret (strict_eq n (Num (Int 1))) else ret false.

(** [_.constant(value)], [_.noop] *)
Definition _constant (value : val) : closure := fun _ _ => ret value.
Definition _noop : closure := fun _ _ => ret Undefined.

(** [_.propertyOf(obj)] *)
Definition _propertyOf (obj : val) : closure :=
  if is_nullish obj then _noop else fun _ args => k <- to_string to_text (arg 0 args) ;; get builtin obj k.

(** [_.result(object, property, fallback)] *)
Definition _result (object property fallback : val) : M val :=
  value <- (if is_nullish object then ret Undefined else k <- to_string to_text property ;; get builtin object k) ;;
  let value := if decide (value = Undefined) then fallback else value in
  f <- look (fun s => is_function s value) ;;
  if f : bool then call_val call value object [] else ret value.

(** [++idCounter] *)
Definition next_id (idCounter : Z) : Z := if (idCounter <? 2 ^ 53)%Z then (idCounter + 1)%Z else idCounter.

(** [_.uniqueId(prefix)], with the counter afterwards; the counter is read
    before the prefix is converted. *)
Definition _uniqueId (prefix : val) (idCounter : Z) : Z * M val :=
  let idCounter := next_id idCounter in
  let id := number_text (Int idCounter) in
  (idCounter,
   if truthy prefix then p <- to_primitive value_of prefix ;; t <- to_string to_text p ;; ret (Str (t ++ id))
   else ret (Str id)).

(** The ids of a sequence of calls. *)
Fixpoint unique_ids (prefixes : list val) (idCounter : Z) : M (list val) :=
  match prefixes with
  | [] => ret []
  | prefix :: prefixes =>
      let '(idCounter, id) := _uniqueId prefix idCounter in
      x <- id ;; xs <- unique_ids prefixes idCounter ;; ret (x :: xs)
  end.

(** ** Properties *)

(** [_.property] and [_.propertyOf] are the same function of an object and a
    name, with the arguments taken in either order. *)
Lemma property_propertyOf (obj key this this' : val) :
  property builtin to_text key this [obj] = _propertyOf obj this' [key].
Proof. unfold property, _propertyOf. cbn. by destruct (is_nullish obj). Qed.

(** [_.result] on every branch: a method is called with the object as its
    [this] and no arguments, and a fallback that is a function too; another
    value is returned; what a conversion, a lookup or a method throws is
    thrown. *)
Theorem result_behaviour (object property fallback : val) (s s1 : store) (value : val) :
  (if is_nullish object then ret Undefined else k <- to_string to_text property ;; get builtin object k) s = (Ret value, s1) ->
  let value' := if decide (value = Undefined) then fallback else value in
  _result object property fallback s =
    match value' with
    | Ref l => if is_function s1 value' then call l object [] s1 else (Ret value', s1)
    | _ => (Ret value', s1)
    end.
Proof.
  intros E value'. unfold _result, bind at 1. rewrite E. fold value'. unfold bind, look, call_val.
  destruct (is_function s1 value') eqn:F; [|by destruct value']. unfold bind, look. rewrite F.
  by destruct value'.
Qed.

(** The text that a prefix puts in front of an id: nothing, or a string that
    does not end in a digit. *)
Definition plain_prefix (prefix : val) : Prop :=
  match prefix with
  | Str t => match last t with Some c => ~ digit c | None => True end
  | _ => truthy prefix = false
  end.

Definition prefix_text (prefix : val) : jsstr := match prefix with Str t => t | _ => [] end.

Lemma uniqueId_plain prefix c s :
  plain_prefix prefix ->
  (_uniqueId prefix c).2 s = (Ret (Str (prefix_text prefix ++ number_text (Int (next_id c)))), s).
Proof.
  intros H. unfold _uniqueId. cbn [snd].
  destruct prefix as [| |b|x|t|l]; cbn [plain_prefix] in H; [by rewrite H..| |by rewrite H].
  cbn [truthy]. case_bool_decide as Ht; [done|]. by rewrite Ht.
Qed.

(** Digits behind a text that does not end in one can be told from it. *)
Lemma digits_at_end (t t' d d' : jsstr) :
  Forall digit d -> Forall digit d' ->
  match last t with Some c => ~ digit c | None => True end ->
  match last t' with Some c => ~ digit c | None => True end ->
  t ++ d = t' ++ d' -> d = d'.
Proof.
  intros Hd Hd' Ht Ht' E. revert t t' d' Ht Ht' Hd' E. induction d as [|x d IH] using rev_ind; intros t t' d' Ht Ht' Hd' E.
  - destruct d' as [|x d' _] using rev_ind; [done|]. rewrite app_nil_r, app_assoc in E. subst t. rewrite last_snoc in Ht.
    rewrite Forall_app, Forall_singleton in Hd'. tauto.
  - rewrite Forall_app, Forall_singleton in Hd. destruct d' as [|y d' _] using rev_ind.
    + rewrite app_nil_r, app_assoc in E. subst t'. rewrite last_snoc in Ht'. tauto.
    + rewrite Forall_app, Forall_singleton in Hd'. rewrite !app_assoc in E. apply app_inj_tail in E as [E ->].
      f_equal. apply (IH (proj1 Hd) t t'); tauto.
Qed.

Lemma number_text_digits c : (0 <= c)%Z -> Forall digit (number_text (Int c)).
Proof. intros Hc. cbn [number_text]. destruct c as [|p|p]; [apply (pretty_digits 0)|apply (pretty_digits (N.pos p))|lia]. Qed.

Lemma plain_prefix_last prefix : plain_prefix prefix -> match last (prefix_text prefix) with Some c => ~ digit c | None => True end.
Proof. by destruct prefix. Qed.

Lemma uniqueId_differs prefix prefix' c c' :
  plain_prefix prefix -> plain_prefix prefix' -> (0 <= c)%Z -> (0 <= c')%Z ->
  prefix_text prefix ++ number_text (Int c) = prefix_text prefix' ++ number_text (Int c') -> c = c'.
Proof.
  intros Hp Hp' Hc Hc' E. apply digits_at_end in E; [|by apply number_text_digits|by apply number_text_digits|by apply plain_prefix_last|by apply plain_prefix_last].
  cbn [number_text] in E. apply lit_inj in E. by apply (inj pretty) in E.
Qed.

(** The ids that a session sees, by counter. *)
Lemma unique_ids_plain prefixes c s :
  Forall plain_prefix prefixes -> (Z.of_nat (length prefixes) + c <= 2 ^ 53)%Z ->
  unique_ids prefixes c s =
    (Ret (imap (fun i p => Str (prefix_text p ++ number_text (Int (c + 1 + Z.of_nat i)))) prefixes), s).
Proof.
  intros H. revert c. induction H as [|p ps Hp H IH]; intros c Hc; [done|]. cbn [length] in Hc. cbn [unique_ids].
  pose proof (uniqueId_plain p c s Hp) as E. destruct (_uniqueId p c) as [c' m] eqn:Eu. cbn [snd] in E.
  assert (c' = next_id c) as -> by (unfold _uniqueId in Eu; congruence).
  unfold bind at 1. rewrite E. assert (next_id c = c + 1)%Z as -> by (unfold next_id; case_match; lia).
  unfold bind. rewrite IH by lia. cbn [imap ret]. unfold ret. do 3 f_equal; [|].
  - do 4 f_equal. lia.
  - apply imap_ext. intros i x _. cbn. do 4 f_equal. lia.
Qed.

(** Ids are unique: in a session of fewer calls than a double counts, with
    prefixes that do not end in a digit or none, no id is given twice, and
    none throws. *)
Theorem uniqueId_unique (prefixes : list val) (s : store) :
  Forall plain_prefix prefixes -> (Z.of_nat (length prefixes) <= 2 ^ 53)%Z ->
  exists ids, unique_ids prefixes 0 s = (Ret ids, s) /\ NoDup ids /\ length ids = length prefixes.
Proof.
  intros Hp Hl. eexists. split_and!; [apply unique_ids_plain; [done|lia]| |by rewrite length_imap].
  apply NoDup_alt. intros i j x Hi Hj.
  apply list_lookup_imap_Some in Hi as (p & Hi & ->). apply list_lookup_imap_Some in Hj as (p' & Hj & E).
  rewrite Forall_lookup in Hp. injection E as E. apply uniqueId_differs in E; [lia|by eapply Hp|by eapply Hp|lia|lia].
Qed.
End Utility.

(** A prefix that ends in a digit makes ids collide: the first id, with the
    prefix 1, is also the eleventh without one. *)
Example uniqueId_collides :
  let ids := unique_ids (fun _ => ret []) (fun _ => ret Undefined) (Str «"1"» :: replicate 10 Undefined) 0 [] in
  match ids.1 with Ret l => l !! 0 = l !! 10 | Throw _ => False end.
Proof. by vm_compute. Qed.

(** And the counter stops at the bound. *)
Example counter_stops : next_id (2 ^ 53) = (2 ^ 53)%Z.
Proof. by vm_compute. Qed.

Lemma uniqueId_unique_witness :
  exists ids, unique_ids (fun _ => ret []) (fun _ => ret Undefined) [Str «"item-"»; Undefined; Str «"item-"»] 0 [] = (Ret ids, []) /\
    NoDup ids /\ length ids = 3.
Proof.
  apply (uniqueId_unique (fun _ => ret []) (fun _ => ret Undefined) [Str «"item-"»; Undefined; Str «"item-"»] []); [|by vm_compute].
  repeat constructor; vm_compute; intros []; done.
Defined.
