(* ===== verification/UnderscoreWrapped.v ===== *)
(** * underscore: array methods of wrapped objects

    The mutators [pop], [push], [reverse], [shift], [sort], [splice] and
    [unshift] and the accessors [concat], [join] and [slice] that module 25 of
    wordcut.js puts on wrapped objects (lines 6027-6044), over a store of
    arrays beside the wrapped objects of UnderscoreChain.v.

    Arrays have no holes; the value wrapped is an array.  The numbers that
    [splice] and [slice] get are primitives. *)

From S2P Require Import Prelude JsHeap UnderscoreChain.

Section Wrapped.
(** The number that a string reads as, the text of a value, and [sort] of the
    engine, with its optional argument. *)
Variable number_of : jsstr -> num.
Variable text_of : val -> jsstr.
Variable engine_sort : list val -> list val -> list val.

(** ** The methods of arrays *)

Definition to_number (v : val) : num :=
  match v with
  | Undefined | Ref _ => NaN
  | Null => Int 0
  | Bool b => Int (if b then 1 else 0)
  | Num x => x
  | Str t => number_of t
  end.

(** A position that may count from the end, and a count, in an array of [n]. *)
Definition position (n : nat) (v : val) : nat :=
  match to_number v with
  | Int z => if (z <? 0)%Z then Z.to_nat (Z.of_nat n + z) else Nat.min (Z.to_nat z) n
  | Inf negative => if negative then 0 else n
  | NaN | NegZero => 0
  end.

Definition count (n : nat) (v : val) : nat :=
  match to_number v with
  | Int z => Nat.min (Z.to_nat z) n
  | Inf negative => if negative then 0 else n
  | NaN | NegZero => 0
  end.

Inductive mutator := Pop | Push | Reverse | Shift | Sort | Splice | Unshift.

Definition splice (args a : list val) : list val :=
  match args with
  | [] => a
  | start :: rest =>
      let from := position (length a) start in
      let '(n, items) :=
        match rest with
        | [] => (length a - from, [])
        | deleteCount :: items => (count (length a - from) deleteCount, items)
        end in
      take from a ++ items ++ drop (from + n) a
  end.

Definition mutate (m : mutator) (args a : list val) : list val :=
  match m with
  | Pop => removelast a
  | Push => a ++ args
  | Reverse => reverse a
  | Shift => tail a
  | Sort => engine_sort args a
  | Splice => splice args a
  | Unshift => args ++ a
  end.

Inductive accessor := Concat | Join | Slice.

Definition slice (args a : list val) : list val :=
  let from := position (length a) (default Undefined (args !! 0)) in
  let to := match args !! 1 with Some v => if decide (v = Undefined) then length a else position (length a) v | None => length a end in
  take (to - from) (drop from a).

Definition concat_arrays (arrays : list (list val)) (args a : list val) : list val :=
  a ++ concat (map (fun v => match v with Ref l => default [v] (arrays !! l) | _ => [v] end) args).

Definition join_text (args a : list val) : jsstr :=
  let sep := match args !! 0 with Some v => if decide (v = Undefined) then «","» else text_of v | None => «","» end in
  join sep (map (fun v => if is_nullish v then [] else text_of v) a).

(** ** The methods of wrapped objects *)

(** The arrays, and the wrapped objects. *)
Record wstate := WState { arrays : list (list val); instances : list (@instance val) }.

Definition finish (r : option (@wval val) * list (@instance val)) (arrays : list (list val)) : option (@wval val) * wstate :=
  (r.1, WState arrays r.2).

(** [delete obj[0]] after [shift] and [splice], on an empty array: there is no
    element to delete. *)
Definition delete_first (a : list val) : list val := match a with [] => [] | _ => a end.

Definition after_mutation (m : mutator) (a : list val) : list val :=
  match m with
  | Shift | Splice => if decide (length a = 0) then delete_first a else a
  | _ => a
  end.

Definition mutator_method (fuel : nat) (m : mutator) (this : nat) (args : list val) (st : wstate) : option (@wval val) * wstate :=
  match instances st !! this with
  | None => (None, st)
  | Some w =>
      match _wrapped w with
      | Ref l =>
          match arrays st !! l with
          | None => (None, st)
          | Some a =>
              let arrays := <[l := after_mutation m (mutate m args a)]> (arrays st) in
              finish (result fuel this (Plain (Ref l)) (instances st)) arrays
          end
      | _ => (None, st)
      end
  end.

Definition accessor_method (fuel : nat) (m : accessor) (this : nat) (args : list val) (st : wstate) : option (@wval val) * wstate :=
  match instances st !! this with
  | None => (None, st)
  | Some w =>
      match _wrapped w with
      | Ref l =>
          match arrays st !! l with
          | None => (None, st)
          | Some a =>
              let fresh b := finish (result fuel this (Plain (Ref (length (arrays st)))) (instances st)) (arrays st ++ [b]) in
              match m with
              | Concat => fresh (concat_arrays (arrays st) args a)
              | Slice => fresh (slice args a)
              | Join => finish (result fuel this (Plain (Str (join_text args a))) (instances st)) (arrays st)
              end
          end
      | _ => (None, st)
      end
  end.

(** [_.chain(obj).m1(...).m2(...) ... .value()] *)
Fixpoint mutators (fuel : nat) (ms : list (mutator * list val)) (this : @wval val) (st : wstate) : option val * wstate :=
  match ms, this with
  | [], _ => let '(v, s) := value this (instances st) in (v, WState (arrays st) s)
  | _ :: _, Plain _ => (None, st)
  | (m, args) :: ms, Inst i =>
      match mutator_method fuel m i args st with
      | (Some this, st) => mutators fuel ms this st
      | (None, st) => (None, st)
      end
  end.

Definition chained_mutators (fuel : nat) (obj : val) (ms : list (mutator * list val)) (st : wstate) : option val * wstate :=
  match chain (Plain obj) (instances st) with
  | (Some w, s) => mutators fuel ms w (WState (arrays st) s)
  | (None, s) => (None, WState (arrays st) s)
  end.

(** ** Mutators work in place *)

Lemma after_mutation_id m a : after_mutation m a = a.
Proof. destruct m; try done; cbn; case_decide as H; try done; by destruct a. Qed.

Lemma mutators_in_place fuel ms i st l a :
  instances st !! i = Some (Instance_ (Ref l) true) -> arrays st !! l = Some a ->
  exists s, mutators (S (S fuel)) ms (Inst i) st =
    (Some (Ref l), WState (<[l := foldl (fun a m => mutate m.1 m.2 a) a ms]> (arrays st)) s).
Proof.
  revert i st a. induction ms as [|[m args] ms IH]; intros i st a Hi Ha.
  - cbn [mutators value foldl]. rewrite (bind_some _ _ _ _ _ (at_some _ _ _ Hi)). exists (instances st). by rewrite list_insert_id.
  - cbn [mutators foldl fst snd]. unfold mutator_method. rewrite Hi. cbn [_wrapped]. rewrite Ha, after_mutation_id.
    rewrite (result_chained fuel i _ _ (Ref l) Hi). unfold finish. cbn [fst snd].
    destruct (IH (S (length (instances st)))
      (WState (<[l := mutate m args a]> (arrays st)) (instances st ++ [Instance_ (Ref l) false; Instance_ (Ref l) true]))
      (mutate m args a)) as [s E].
    + cbn [instances]. rewrite lookup_app_r by lia. by replace (S (length (instances st)) - length (instances st)) with 1 by lia.
    + cbn [arrays]. apply list_lookup_insert_eq. by eapply lookup_lt_Some.
    + exists s. rewrite E. cbn [arrays]. by rewrite list_insert_insert_eq.
Qed.

(** A chain of mutators changes the wrapped array itself: the value at the end
    is the array that was wrapped, which then holds the result of the methods
    applied one after the other, and no other array changes. *)
Theorem mutators_change_in_place (fuel : nat) (ms : list (mutator * list val)) (l : nat) (a : list val) (st : wstate) :
  2 <= fuel -> arrays st !! l = Some a ->
  exists s, chained_mutators fuel (Ref l) ms st =
    (Some (Ref l), WState (<[l := foldl (fun a m => mutate m.1 m.2 a) a ms]> (arrays st)) s).
Proof.
  intros Hf Ha. destruct fuel as [|[|fuel]]; [lia..|]. unfold chained_mutators. rewrite chain_plain.
  apply (mutators_in_place fuel ms (length (instances st)) (WState (arrays st) _)); [|done]. apply lookup_last.
Qed.

(** Without a chain a mutator returns the array, not what the method of the
    array returns. *)
Lemma mutator_returns_array fuel m i args st l a :
  instances st !! i = Some (Instance_ (Ref l) false) -> arrays st !! l = Some a ->
  mutator_method (S fuel) m i args st = (Some (Plain (Ref l)), WState (<[l := mutate m args a]> (arrays st)) (instances st)).
Proof.
  intros Hi Ha. unfold mutator_method. rewrite Hi. cbn [_wrapped]. rewrite Ha, after_mutation_id.
  by rewrite (result_unchained _ _ _ _ _ Hi).
Qed.

(** Accessors change no array that was there. *)
Lemma accessor_keeps_arrays fuel m i args st : exists new, arrays (accessor_method fuel m i args st).2 = arrays st ++ new.
Proof.
  unfold accessor_method. destruct (instances st !! i) as [w|]; [|exists []; by rewrite app_nil_r].
  destruct (_wrapped w); try (exists []; by rewrite app_nil_r).
  destruct (arrays st !! l); [|exists []; by rewrite app_nil_r].
  destruct m; cbn; eauto. exists []. by rewrite app_nil_r.
Qed.

(** Splicing what was removed back in restores the array. *)
Lemma splice_back (a items : list val) (from n : nat) :
  from + n <= length a ->
  splice (Num (Int (Z.of_nat from)) :: Num (Int (Z.of_nat (length items))) :: take n (drop from a))
    (splice (Num (Int (Z.of_nat from)) :: Num (Int (Z.of_nat n)) :: items) a) = a.
Proof.
  intros H. unfold splice at 2, position, count. cbn [to_number].
  rewrite (proj2 (Z.ltb_ge _ 0)) by lia. rewrite !Nat2Z.id, Nat.min_l, (Nat.min_l n) by lia.
  set (b := take from a ++ items ++ drop (from + n) a).
  assert (length b = from + (length items + (length a - (from + n)))) as Hb.
  { unfold b. rewrite !length_app, length_take, length_drop. lia. }
  unfold splice, position, count. cbn [to_number]. rewrite (proj2 (Z.ltb_ge _ 0)) by lia. rewrite !Nat2Z.id, Hb, !Nat.min_l by lia.
  unfold b. rewrite take_app_length' by (rewrite length_take; lia).
  rewrite <- drop_drop, drop_app_length' by (rewrite length_take; lia). rewrite drop_app_length, <- drop_drop.
  by rewrite take_drop, take_drop.
Qed.
End Wrapped.

Lemma mutators_change_in_place_witness :
  exists s, chained_mutators (fun _ => NaN) (fun _ a => a) 2 (Ref 0) [(Push, [Null]); (Reverse, []); (Splice, [Num (Int (-1))])]
      (WState [[Bool true; Bool false]] []) = (Some (Ref 0), WState [[Null; Bool false]] s).
Proof.
  apply (mutators_change_in_place (fun _ => NaN) (fun _ a => a) 2
    [(Push, [Null]); (Reverse, []); (Splice, [Num (Int (-1))])] 0 [Bool true; Bool false] (WState [[Bool true; Bool false]] [])); [lia|done].
Defined.
