(* ===== verification/Assert.v ===== *)
(** * assert, and the type tests of util

    Module 9 of wordcut.js, with the predicates of module 28 (util) that it
    uses.  [_deepEqual] has no protection against cycles: running out of fuel
    stands for the exception that the overflow of the stack raises.

    What is not in the store is a parameter: [Number(string)], the conversion
    of an object to a primitive, [prototype] properties that are inherited or
    not enumerable, and [JSON.stringify] with its replacer.

    The theorems: the deep comparison is symmetric, also in running out of
    stack; it ends on stores without cycles, within the depth of the store, and
    never ends on two loops; the assertions come in complementary pairs; and
    what [assert.throws] and [assert.doesNotThrow] do with an exception. *)

From S2P Require Import Prelude JsHeap.

Section Assert.
(** The number that a string converts to. *)
Variable string_number : jsstr -> num.
Variable h : heap.
(** What [ToPrimitive] makes of an object. *)
Variable to_primitive : nat -> val.
(** The [prototype] of an object that has no own enumerable one. *)
Variable other_prototype : nat -> val.

(** ** util *)

Definition class_of (a : val) : option class := match a with Ref l => o_class <$> h !! l | _ => None end.

Definition isString (a : val) : bool := match a with Str _ => true | _ => false end.
Definition isNullOrUndefined (a : val) : bool := is_nullish a.

(** [typeof a === "object" && a !== null] *)
Definition isObject (a : val) : bool := typeof_object h a && negb (is_nullish a).
Definition isDate (a : val) : bool := isObject a && bool_decide (class_of a = Some CDate).
Definition isRegExp (a : val) : bool := isObject a && bool_decide (class_of a = Some CRegExp).
Definition isPrimitive (a : val) : bool := match a with Ref _ => false | _ => true end.
Definition isArguments (a : val) : bool := bool_decide (class_of a = Some CArguments).

Definition data_of (a : val) : data :=
  match a with Ref l => match h !! l with Some o => o_data o | None => NoData end | _ => NoData end.

Definition isBuffer (a : val) : bool := match data_of a with BufferData _ => true | _ => false end.

(** ** Loose equality: [a == b] *)

Definition primitive (a : val) : val := match a with Ref l => to_primitive l | _ => a end.

Definition prim_number (a : val) : num :=
  match a with
  | Num x => x
  | Bool b => Int (if b then 1 else 0)
  | Str s => string_number s
  | _ => NaN
  end.

Definition loose_eq (a b : val) : bool :=
  match a, b with
  | Ref i, Ref j => bool_decide (i = j)
  | _, _ =>
      if is_nullish a || is_nullish b then is_nullish a && is_nullish b
      else
        let a := primitive a in
        let b := primitive b in
        match a, b with
        | Str s, Str t => bool_decide (s = t)
        | Undefined, _ | _, Undefined | Null, _ | _, Null => is_nullish a && is_nullish b
        | _, _ => num_strict (prim_number a) (prim_number b)
        end
  end.

(** ** Deep equality *)

Inductive answer := Yes | No | OutOfFuel.

Definition answer_of (b : bool) : answer := if b then Yes else No.

Definition props_of (a : val) : list (jsstr * val) :=
  match a with Ref l => match h !! l with Some o => own_props o | None => [] end | _ => [] end.

Definition prototype_of (a : val) : val :=
  match a with Ref l => default (other_prototype l) (get_prop (props_of a) «"prototype"») | _ => Undefined end.

(** The own properties that an arguments object keeps when it is copied into
    an array. *)
Definition elems_of (a : val) : list (jsstr * val) :=
  match a with
  | Ref l => match h !! l with Some o => imap (fun i v => (index_key i, v)) (o_elems o) | None => [] end
  | _ => []
  end.

Definition sorted_keys (ps : list (jsstr * val)) : list jsstr := merge_sort str_le (map fst ps).

(** The loop over the keys, from the last one; a missing property reads as
    undefined. *)
Fixpoint all_equal (f : val -> val -> answer) (pa pb : list (jsstr * val)) (keys : list jsstr) : answer :=
  match keys with
  | [] => Yes
  | k :: keys =>
      match f (default Undefined (get_prop pa k)) (default Undefined (get_prop pb k)) with
      | Yes => all_equal f pa pb keys
      | r => r
      end
  end.

(** The comparison of the own properties, after the tests of [objEquiv]. *)
Definition props_equal (f : val -> val -> answer) (pa pb : list (jsstr * val)) : answer :=
  if decide (length pa <> length pb) then No
  else if decide (sorted_keys pa <> sorted_keys pb) then No
  else all_equal f pa pb (rev (sorted_keys pa)).

(** [objEquiv]; the copies of two arguments objects are arrays, which are
    compared by their elements. *)
Definition objEquiv (f : val -> val -> answer) (a b : val) : answer :=
  if isNullOrUndefined a || isNullOrUndefined b then No
  else if negb (strict_eq (prototype_of a) (prototype_of b)) then No
  else if isPrimitive a || isPrimitive b then answer_of (strict_eq a b)
  else if isArguments a && negb (isArguments b) || negb (isArguments a) && isArguments b then No
  else if isArguments a then props_equal f (elems_of a) (elems_of b)
  else props_equal f (props_of a) (props_of b).

Definition bytes_of (a : val) : list Z := match data_of a with BufferData bs => bs | _ => [] end.

Definition same_regexp (a b : val) : bool :=
  match data_of a, data_of b with
  | RegExpData s g m i l, RegExpData s' g' m' i' l' =>
      bool_decide (s = s') && bool_decide (g = g') && bool_decide (m = m') && num_strict l l' && bool_decide (i = i')
  | _, _ => false
  end.

(** [_deepEqual] up to the recursion: an answer, or the comparison of
    objects. *)
Definition shallow (actual expected : val) : option bool :=
  if strict_eq actual expected then Some true
  else if isBuffer actual && isBuffer expected then Some (bool_decide (bytes_of actual = bytes_of expected))
  else if isDate actual && isDate expected then Some (num_strict (to_num h actual) (to_num h expected))
  else if isRegExp actual && isRegExp expected then Some (same_regexp actual expected)
  else if negb (isObject actual) && negb (isObject expected) then Some (loose_eq actual expected)
  else None.

Fixpoint _deepEqual (fuel : nat) (actual expected : val) : answer :=
  match shallow actual expected with
  | Some r => answer_of r
  | None =>
      match fuel with
      | O => OutOfFuel
      | S fuel => objEquiv (_deepEqual fuel) actual expected
      end
  end.

(** ** Assertions *)

(** [JSON.stringify(value, replacer)], which throws on a cycle. *)
Variable stringify : val -> option jsstr.

(** What [assert.throws] may be given: a regular expression, or a function
    that is tried as a constructor first and then called; both may throw. *)
Record matcher := Matcher {
  m_regexp : option (val -> bool);
  m_instance : val -> bool + val;
  m_call : val -> bool + val;
  m_name : jsstr
}.

(** The expected value is a value, or what [assert.throws] was given; only the
    latter goes without an operator. *)
Record assertion_error := AssertionError {
  actual : val; expected : val + option matcher; message : jsstr; operator : option jsstr; generatedMessage : bool
}.

Inductive outcome :=
  | Passes
  | Fails (e : assertion_error)
  | Raises (v : val)                  (** some other exception *)
  | Overflow.                         (** the stack overflows *)

Definition truncate (s : jsstr) (n : nat) : jsstr := if decide (length s < n) then s else take n s.

(** The constructor of [AssertionError], with [getMessage]; the exception of
    [JSON.stringify] takes the place of the error. *)
Definition new_AssertionError (a b : val) (msg : option jsstr) (op : jsstr) : outcome :=
  match msg with
  | Some (c :: s) => Fails (AssertionError a (inl b) (c :: s) (Some op) false)
  | _ =>
      match stringify a, stringify b with
      | Some sa, Some sb =>
          Fails (AssertionError a (inl b) (truncate sa 128 ++ «" "» ++ op ++ «" "» ++ truncate sb 128) (Some op) true)
      | _, _ => Raises (Str «"TypeError"»)
      end
  end.

Definition fail := new_AssertionError.

Definition truthy (a : val) : bool :=
  match a with
  | Undefined | Null => false
  | Bool b => b
  | Num x => negb (is_zero x) && bool_decide (x <> NaN)
  | Str s => bool_decide (s <> [])
  | Ref _ => true
  end.

Definition ok (value : val) (msg : option jsstr) : outcome :=
  if truthy value then Passes else fail value (Bool true) msg «"=="».

Definition equal (a b : val) (msg : option jsstr) : outcome :=
  if loose_eq a b then Passes else fail a b msg «"=="».

Definition notEqual (a b : val) (msg : option jsstr) : outcome :=
  if loose_eq a b then fail a b msg «"!="» else Passes.

Definition strictEqual (a b : val) (msg : option jsstr) : outcome :=
  if strict_eq a b then Passes else fail a b msg «"==="».

Definition notStrictEqual (a b : val) (msg : option jsstr) : outcome :=
  if strict_eq a b then fail a b msg «"!=="» else Passes.

Definition deepEqual (fuel : nat) (a b : val) (msg : option jsstr) : outcome :=
  match _deepEqual fuel a b with
  | Yes => Passes
  | No => fail a b msg «"deepEqual"»
  | OutOfFuel => Overflow
  end.

Definition notDeepEqual (fuel : nat) (a b : val) (msg : option jsstr) : outcome :=
  match _deepEqual fuel a b with
  | Yes => fail a b msg «"notDeepEqual"»
  | No => Passes
  | OutOfFuel => Overflow
  end.

Definition expectedException (a : val) (e : option matcher) : bool + val :=
  match e with
  | None => inl false
  | Some m =>
      if negb (truthy a) then inl false
      else match m_regexp m with
           | Some test => inl (test a)
           | None => match m_instance m a with inl false => m_call m a | r => r end
           end
  end.

(** The second argument: a string is the message. *)
Inductive expectation := NoExpectation | Message (s : jsstr) | Expects (m : matcher).

(** [_throws]; [thrown] is what the block throws. *)
Definition _throws (shouldThrow : bool) (thrown : option val) (e : expectation) (msg : option jsstr) : outcome :=
  let '(exp, msg) := match e with
                     | Message s => (None, Some s)
                     | NoExpectation => (None, msg)
                     | Expects m => (Some m, msg)
                     end in
  let a := default Undefined thrown in
  let text := match exp with
              | Some m => if decide (m_name m = []) then «"."» else «" ("» ++ m_name m ++ «")."»
              | None => «"."»
              end ++ match msg with Some (c :: s) => «" "» ++ c :: s | _ => «"."» end in
  let failed text := Fails (AssertionError a (inr exp) text None false) in
  if shouldThrow && negb (truthy a) then failed («"Missing expected exception"» ++ text)
  else match (if shouldThrow then inl false else expectedException a exp) with
  | inr e => Raises e
  | inl true => failed («"Got unwanted exception"» ++ text)
  | inl false =>
      match (if shouldThrow && truthy a && bool_decide (is_Some exp) then expectedException a exp else inl true) with
      | inr e => Raises e
      | inl r => if negb r || negb shouldThrow && truthy a then Raises a else Passes
      end
  end.

Definition throws (thrown : option val) (e : expectation) (msg : option jsstr) : outcome := _throws true thrown e msg.
Definition doesNotThrow (thrown : option val) (e : expectation) (msg : option jsstr) : outcome := _throws false thrown e msg.

Definition ifError (err : val) : outcome := if truthy err then Raises err else Passes.

(** ** Lemmas *)

Lemma num_strict_sym x y : num_strict x y = num_strict y x.
Proof.
  assert (bool_decide (x = y) = bool_decide (y = x)) as E by (by apply bool_decide_ext).
  destruct x as [| | |[]], y as [| | |[]]; simpl in *; done || exact E.
Qed.

Lemma strict_eq_sym a b : strict_eq a b = strict_eq b a.
Proof.
  destruct a, b; cbn [strict_eq]; try apply num_strict_sym; by apply bool_decide_ext.
Qed.

Lemma loose_eq_sym a b : loose_eq a b = loose_eq b a.
Proof.
  unfold loose_eq. destruct a as [| | | | |l], b as [| | | | |l']; cbn [primitive is_nullish orb andb];
    try destruct (to_primitive l); try destruct (to_primitive l'); cbn [prim_number is_nullish andb];
    try done; try apply num_strict_sym; by apply bool_decide_ext.
Qed.

Lemma same_regexp_sym a b : same_regexp a b = same_regexp b a.
Proof.
  unfold same_regexp. destruct (data_of a), (data_of b); try done.
  rewrite num_strict_sym. repeat f_equal; by apply bool_decide_ext.
Qed.

Lemma shallow_sym a b : shallow a b = shallow b a.
Proof.
  unfold shallow. rewrite (strict_eq_sym b a), (andb_comm (isBuffer b)), (andb_comm (isDate b)),
    (andb_comm (isRegExp b)), (andb_comm (negb (isObject b))), (num_strict_sym (to_num h b)),
    (same_regexp_sym b a), (loose_eq_sym b a).
  replace (bool_decide (bytes_of b = bytes_of a)) with (bool_decide (bytes_of a = bytes_of b)); [done|].
  by apply bool_decide_ext.
Qed.

Lemma all_equal_sym f pa pb keys :
  (forall x y, f x y = f y x) -> all_equal f pa pb keys = all_equal f pb pa keys.
Proof.
  intros Hf. induction keys as [|k keys IH]; simpl; [done|]. rewrite Hf, IH. done.
Qed.

Lemma props_equal_sym f pa pb : (forall x y, f x y = f y x) -> props_equal f pa pb = props_equal f pb pa.
Proof.
  intros Hf. unfold props_equal. rewrite (all_equal_sym f pa pb) by done.
  repeat case_decide; try done; try congruence.
Qed.

Lemma objEquiv_sym f a b : (forall x y, f x y = f y x) -> objEquiv f a b = objEquiv f b a.
Proof.
  intros Hf. unfold objEquiv. rewrite (orb_comm (isNullOrUndefined b)), (strict_eq_sym (prototype_of b)),
    (orb_comm (isPrimitive b)), (strict_eq_sym b), (props_equal_sym f (elems_of b)), (props_equal_sym f (props_of b)) by done.
  by destruct (isArguments a), (isArguments b).
Qed.

(** ** Depth of the recursion *)

(** Everything that objects hold ranks below them. *)
Definition ranked (rank : nat -> nat) : Prop :=
  forall i o l, h !! i = Some o -> (Ref l ∈ o_elems o \/ Ref l ∈ map snd (o_props o)) -> rank l < rank i.

Lemma get_prop_values ps k v : get_prop ps k = Some v -> v ∈ map snd ps.
Proof.
  induction ps as [|[k' w] ps IH]; simpl; [done|]. case_decide; [|intros Hk; right; by apply IH].
  intros [= ->]. by left.
Qed.

Lemma elems_values l o v : h !! l = Some o -> v ∈ map snd (elems_of (Ref l)) -> v ∈ o_elems o.
Proof.
  intros Hl. cbn [elems_of]. rewrite Hl. intros Hv.
  apply list_elem_of_fmap in Hv as ([k w] & -> & H). apply elem_of_lookup_imap in H as (i & x & [= -> ->] & Hi).
  by eapply list_elem_of_lookup_2.
Qed.

(** What a comparison of properties asks is about the values of the left
    object, or undefined. *)
Lemma props_equal_fuel f pa pb :
  (forall x y, x = Undefined \/ x ∈ map snd pa -> f x y <> OutOfFuel) -> props_equal f pa pb <> OutOfFuel.
Proof.
  intros Hf. unfold props_equal. destruct (decide _); [done|]. destruct (decide _); [done|].
  induction (rev (sorted_keys pa)) as [|k keys IH]; simpl; [done|].
  assert (f (default Undefined (get_prop pa k)) (default Undefined (get_prop pb k)) <> OutOfFuel) as Hk.
  { apply Hf. destruct (get_prop pa k) eqn:E; [right; by eapply get_prop_values|by left]. }
  by destruct (f _ _).
Qed.

Lemma objEquiv_fuel f a b :
  (forall l o x y, a = Ref l -> h !! l = Some o -> x = Undefined \/ x ∈ o_elems o \/ x ∈ map snd (o_props o) ->
     f x y <> OutOfFuel) -> (forall y, f Undefined y <> OutOfFuel) ->
  objEquiv f a b <> OutOfFuel.
Proof.
  intros Hf Hu. unfold objEquiv, answer_of. repeat (case_match; try done).
  - apply props_equal_fuel. intros x y [-> | Hx]; [apply Hu|]. destruct a as [| | | | |l]; try by apply elem_of_nil in Hx.
    destruct (h !! l) as [o|] eqn:Hl; [|cbn in Hx; rewrite Hl in Hx; by apply elem_of_nil in Hx].
    apply (Hf l o); [done..|]. right; left. by eapply elems_values.
  - apply props_equal_fuel. intros x y [-> | Hx]; [apply Hu|]. destruct a as [| | | | |l]; try by apply elem_of_nil in Hx.
    cbn in Hx. destruct (h !! l) as [o|] eqn:Hl; [|by apply elem_of_nil in Hx].
    apply (Hf l o); [done..|]. right. by apply own_props_values.
Qed.

(** A value that is not an object of the store is compared at once, or fails
    to be an object. *)
Lemma deepEqual_primitive fuel a b : isPrimitive a = true -> _deepEqual (S fuel) a b <> OutOfFuel.
Proof.
  intros Ha. cbn [_deepEqual]. destruct (shallow a b) as [[]|]; [done|done|].
  unfold objEquiv, answer_of. rewrite Ha. repeat (case_match; try done).
Qed.

Definition depth (rank : nat -> nat) (a : val) : nat := match a with Ref l => S (rank l) | _ => 0 end.

Lemma deepEqual_depth rank fuel a b :
  ranked rank -> depth rank a < fuel -> _deepEqual fuel a b <> OutOfFuel.
Proof.
  intros Hr. revert a b. induction fuel as [|fuel IH]; intros a b Hd; [lia|].
  destruct (isPrimitive a) eqn:Ha; [by apply deepEqual_primitive|].
  cbn [_deepEqual]. destruct (shallow a b) as [[]|]; [done|done|].
  destruct a as [| | | | |l]; try done. simpl in Hd.
  apply objEquiv_fuel.
  - intros l' o x y [= <-] Hl Hx. apply IH. destruct x as [| | | | |i]; simpl; try lia.
    assert (rank i < rank l); [|lia]. apply (Hr l o i Hl). by destruct Hx as [|Hx].
  - intros y. apply IH. simpl. lia.
Qed.

(** More fuel does not change an answer. *)
Lemma props_equal_mono f g pa pb :
  (forall x y, f x y <> OutOfFuel -> g x y = f x y) -> props_equal f pa pb <> OutOfFuel ->
  props_equal g pa pb = props_equal f pa pb.
Proof.
  intros Hfg. unfold props_equal. destruct (decide _); [done|]. destruct (decide _); [done|].
  induction (rev (sorted_keys pa)) as [|k keys IH]; simpl; [done|]. intros Hn.
  rewrite Hfg by (intros E; by rewrite E in Hn). destruct (f _ _); [by apply IH|done..].
Qed.

Lemma objEquiv_mono f g a b :
  (forall x y, f x y <> OutOfFuel -> g x y = f x y) -> objEquiv f a b <> OutOfFuel ->
  objEquiv g a b = objEquiv f a b.
Proof.
  intros Hfg. unfold objEquiv. repeat (case_match; try done); by apply props_equal_mono.
Qed.

Lemma deepEqual_mono n m a b :
  n <= m -> _deepEqual n a b <> OutOfFuel -> _deepEqual m a b = _deepEqual n a b.
Proof.
  revert m a b. induction n as [|n IH]; intros [|m] a b Hm; cbn [_deepEqual]; try lia; try done.
  - by destruct (shallow a b).
  - destruct (shallow a b); [done|]. intros Hn. apply objEquiv_mono; [|done]. intros x y Hxy. apply IH; [lia|done].
Qed.

Lemma deepEqual_sym fuel a b : _deepEqual fuel a b = _deepEqual fuel b a.
Proof.
  revert a b. induction fuel as [|fuel IH]; intros a b; cbn [_deepEqual]; rewrite shallow_sym; [done|].
  destruct (shallow b a); [done|]. by apply objEquiv_sym.
Qed.

Lemma fail_not_passes a b msg op : fail a b msg op <> Passes.
Proof. unfold fail, new_AssertionError. repeat case_match; done. Qed.

(** ** Theorems *)

(** The assertions come in pairs of which exactly one passes: [equal] and
    [notEqual], [strictEqual] and [notStrictEqual], and [deepEqual] and
    [notDeepEqual] unless the comparison runs out of stack, when both do; and
    no equality assertion depends on which value is the actual one. *)
Theorem assertions_complementary fuel a b msg :
  (equal a b msg = Passes <-> notEqual a b msg <> Passes) /\
  (strictEqual a b msg = Passes <-> notStrictEqual a b msg <> Passes) /\
  (_deepEqual fuel a b = OutOfFuel /\ deepEqual fuel a b msg = Overflow /\ notDeepEqual fuel a b msg = Overflow \/
   _deepEqual fuel a b <> OutOfFuel /\ (deepEqual fuel a b msg = Passes <-> notDeepEqual fuel a b msg <> Passes)) /\
  (equal a b msg = Passes <-> equal b a msg = Passes) /\
  (strictEqual a b msg = Passes <-> strictEqual b a msg = Passes) /\
  (deepEqual fuel a b msg = Passes <-> deepEqual fuel b a msg = Passes).
Proof.
  unfold equal, notEqual, strictEqual, notStrictEqual, deepEqual, notDeepEqual.
  rewrite (loose_eq_sym b a), (strict_eq_sym b a), (deepEqual_sym fuel b a).
  pose proof (fail_not_passes a b msg) as Hf. pose proof (fail_not_passes b a msg) as Hf'.
  destruct (loose_eq a b), (strict_eq a b), (_deepEqual fuel a b); naive_solver.
Qed.

(** Without cycles the deep comparison ends: there is one answer that
    every stack deeper than the left graph gives. *)
Theorem deepEqual_ends (rank : nat -> nat) (a b : val) :
  ranked rank -> exists r, r <> OutOfFuel /\ forall fuel, depth rank a < fuel -> _deepEqual fuel a b = r.
Proof.
  intros Hr. exists (_deepEqual (S (depth rank a)) a b).
  assert (_deepEqual (S (depth rank a)) a b <> OutOfFuel) as Hn by (apply (deepEqual_depth rank); [done|lia]).
  split; [done|]. intros fuel Hf. by apply deepEqual_mono.
Qed.

(** [assert.doesNotThrow] passes exactly when the block throws nothing, or
    something falsy.  [assert.throws] passes exactly when it throws something
    truthy that the expectation, if there is one, accepts; it reports a block
    that throws nothing, and throws on what the expectation rejects. *)
Theorem throws_verdicts (thrown : option val) (e : expectation) msg :
  let a := default Undefined thrown in
  (doesNotThrow thrown e msg = Passes <-> truthy a = false) /\
  (throws thrown e msg = Passes <->
     truthy a = true /\ forall m, e = Expects m -> expectedException a (Some m) = inl true) /\
  (truthy a = false -> exists err, throws thrown e msg = Fails err) /\
  (forall m, truthy a = true -> e = Expects m -> expectedException a (Some m) = inl false -> throws thrown e msg = Raises a).
Proof.
  intros a. unfold doesNotThrow, throws, _throws. fold a. cbn [andb negb].
  assert (forall m, truthy a = false -> expectedException a m = inl false) as Hx.
  { intros [m|] Ht; [|done]. unfold expectedException. by rewrite Ht. }
  assert (expectedException a None = inl false) as Hn by done.
  set (x := expectedException) in *. clearbody x.
  destruct (truthy a) eqn:Ht; cbn [andb negb].
  - destruct e as [|s|m]; cbn.
    1, 2: rewrite Hn; (split_and!; [by split|by split|done|done]).
    destruct (x a (Some m)) as [[]|v] eqn:E; cbn;
      (split_and!; [by split| |done|intros m' _ [= <-]; congruence]).
    + split; [|done]. intros _. split; [done|]. by intros m' [= <-].
    + split; [done|]. intros [_ Hm]. specialize (Hm m eq_refl). congruence.
    + split; [done|]. intros [_ Hm]. specialize (Hm m eq_refl). congruence.
  - destruct e as [|s|m]; rewrite Hx by done; cbn; (split_and!; [done|naive_solver|by eexists|done]).
Qed.
End Assert.

(** A tree with an array, twice. *)
Definition two_trees : heap :=
  [plain [(«"x"», Ref 1)]; array [Num (Int 1)]; plain [(«"x"», Ref 3)]; array [Str «"1"»]].

Lemma deepEqual_ends_witness :
  exists r, r <> OutOfFuel /\ forall fuel, 2 < fuel ->
    _deepEqual (fun _ => Int 1) two_trees (fun _ => Str []) (fun _ => Undefined) fuel (Ref 0) (Ref 2) = r.
Proof.
  apply (deepEqual_ends (fun _ => Int 1) two_trees (fun _ => Str []) (fun _ => Undefined)
           (fun i => match i with 0 | 2 => 1 | _ => 0 end) (Ref 0) (Ref 2)).
  intros i o l Hi Hl.
  do 4 (destruct i as [|i]; [injection Hi as <-; simpl in Hl;
    destruct Hl as [Hl|Hl]; repeat (apply elem_of_cons in Hl as [Hl|Hl]; [first [discriminate Hl | injection Hl as ->; vm_compute; lia]|]);
    by apply elem_of_nil in Hl|]). done.
Defined.

(** Numbers and strings are equal when [==] says so, also inside objects. *)
Example deepEqual_coerces :
  _deepEqual (fun _ => Int 1) two_trees (fun _ => Str []) (fun _ => Undefined) 3 (Ref 0) (Ref 2) = Yes.
Proof. by vm_compute. Qed.

(** Two objects that hold themselves: no stack is deep enough, although
    [_.isEqual] finds them equal. *)
Definition self_loops : heap := [plain [(«"x"», Ref 0)]; plain [(«"x"», Ref 1)]].

Theorem deepEqual_overflows num fuel msg stringify :
  deepEqual num self_loops (fun _ => Str []) (fun _ => Undefined) stringify fuel (Ref 0) (Ref 1) msg = Overflow.
Proof.
  unfold deepEqual.
  assert (_deepEqual num self_loops (fun _ => Str []) (fun _ => Undefined) fuel (Ref 0) (Ref 1) = OutOfFuel) as ->; [|done].
  induction fuel as [|fuel IH]; [done|]. cbn [_deepEqual].
  replace (shallow _ _ _ _ _) with (@None bool) by done.
  set (f := _deepEqual _ _ _ _ fuel) in *. clearbody f.
  change (match f (Ref 0) (Ref 1) with Yes => Yes | r => r end = OutOfFuel). by rewrite IH.
Qed.

(** A block that throws [undefined] has thrown nothing. *)
Example throws_undefined : 
  doesNotThrow (Some Undefined) NoExpectation None = Passes /\
  exists err, throws (Some Undefined) NoExpectation None = Fails err.
Proof. split; [done|]. by eexists. Qed.

(** A failing assertion about a value that [JSON.stringify] refuses raises the
    exception of [JSON.stringify]. *)
Example failing_on_a_cycle :
  strictEqual (fun _ => None) (Ref 0) (Ref 1) None = Raises (Str «"TypeError"»).
Proof. by vm_compute. Qed.
