(* ===== verification/Inherits.v ===== *)
(** * inherits

    Module 19 of wordcut.js: [inherits(ctor, superCtor)], which makes the
    prototype of one constructor a descendant of that of another.  The module
    chooses when it is loaded between an implementation with [Object.create]
    and one for engines without it; both are modelled, over a store of objects
    whose properties say whether they are enumerable and writable.

    The code is not strict, so that assigning to a property that cannot be
    written has no effect.  Accessors are left out. *)

From S2P Require Import Prelude JsHeap.

(** ** Objects *)

Record prop := Prop_ { p_value : val; p_enumerable : bool; p_writable : bool }.

Record obj := Obj { proto : option nat; props : gmap jsstr prop }.

Abbreviation store := (list obj).

(** A program returns or throws a [TypeError]. *)
Definition M (A : Type) : Type := store -> option A * store.
Definition ret {A} (a : A) : M A := fun s => (Some a, s).
Definition throw {A} : M A := fun s => (None, s).
Definition bind {A B} (m : M A) (f : A -> M B) : M B := fun s =>
  match m s with (Some a, s) => f a s | (None, s) => (None, s) end.
Notation "x <- m ;; k" := (bind m (fun x => k)) (at level 100, m at next level, right associativity).
Notation "m ;;; k" := (bind m (fun _ => k)) (at level 100, right associativity).

(** The property that [l[k]] reads, on a chain of prototypes of at most [fuel]
    objects. *)
Fixpoint lookup_in (fuel : nat) (s : store) (l : nat) (k : jsstr) : option prop :=
  match fuel with
  | O => None
  | S fuel =>
      o ← s !! l;
      match props o !! k with
      | Some p => Some p
      | None => p ← proto o; lookup_in fuel s p k
      end
  end.

(** No chain without a cycle is longer than the store. *)
Definition member (s : store) (l : nat) (k : jsstr) : option prop := lookup_in (length s) s l k.
Definition member_value (s : store) (l : nat) (k : jsstr) : val := default Undefined (p_value <$> member s l k).

(** Whether [for (k in l)] meets a name: the first property of that name on
    the chain decides. *)
Definition visits (s : store) (l : nat) (k : jsstr) : bool := default false (p_enumerable <$> member s l k).

(** The chain from [l] comes to its end. *)
Fixpoint ends (fuel : nat) (s : store) (l : nat) : bool :=
  match fuel with
  | O => false
  | S fuel =>
      match s !! l with
      | Some o => match proto o with Some p => ends fuel s p | None => true end
      | None => false
      end
  end.

Definition set_prop (k : jsstr) (p : prop) (o : obj) : obj := Obj (proto o) (<[k := p]> (props o)).

Definition alloc (o : obj) : M nat := fun s => (Some (length s), s ++ [o]).

(** [l[k] = x]: an own property keeps its attributes; a property that cannot
    be written, be it of a prototype, stops the assignment. *)
Definition own (s : store) (l : nat) (k : jsstr) : option prop := o ← s !! l; props o !! k.

Definition assignable (s : store) (l : nat) (k : jsstr) : bool := default true (p_writable <$> member s l k).

Definition assigned (l : nat) (k : jsstr) (x : val) (s : store) : store :=
  if assignable s l k then alter (set_prop k (Prop_ x (default true (p_enumerable <$> own s l k)) true)) l s else s.

Section Inherits.
(** The members of numbers, strings and Booleans, and the built-in prototypes. *)
Variable prim_member : val -> jsstr -> val.
Variables objectPrototype functionPrototype : nat.

(** [v[k]] *)
Definition get (v : val) (k : jsstr) : M val := fun s =>
  match v with
  | Undefined | Null => throw s
  | Ref l => ret (member_value s l k) s
  | _ => ret (prim_member v k) s
  end.

(** [v[k] = x] *)
Definition put (v : val) (k : jsstr) (x : val) : M unit := fun s =>
  match v with
  | Undefined | Null => throw s
  | Ref l => ret tt (assigned l k x s)
  | _ => ret tt s
  end.

(** [Object.create(p, ...)] with one property *)
Definition Object_create (p : val) (k : jsstr) (q : prop) : M nat :=
  match p with
  | Ref l => alloc (Obj (Some l) {[k := q]})
  | Null => alloc (Obj None {[k := q]})
  | _ => throw
  end.

(** [function () {}], with the prototype that a function is made with. *)
Definition empty_function : M nat :=
  fun s =>
    let p := length s in
    let f := S p in
    (Some f,
     s ++ [Obj (Some objectPrototype) {[«"constructor"» := Prop_ (Ref f) false true]};
           Obj (Some functionPrototype) {[«"prototype"» := Prop_ (Ref p) false true]}]).

(** [new f()] for a function with an empty body *)
Definition new_ (f : nat) : M nat :=
  p <- get (Ref f) «"prototype"» ;;
  alloc (Obj (Some (match p with Ref l => l | _ => objectPrototype end)) ∅).

(** ** The two implementations *)

Definition inherits (ctor superCtor : val) : M unit :=
  put ctor «"super_"» superCtor ;;;
  p <- get superCtor «"prototype"» ;;
  q <- Object_create p «"constructor"» (Prop_ ctor false true) ;;
  put ctor «"prototype"» (Ref q).

Definition inherits_shim (ctor superCtor : val) : M unit :=
  put ctor «"super_"» superCtor ;;;
  TempCtor <- empty_function ;;
  p <- get superCtor «"prototype"» ;;
  put (Ref TempCtor) «"prototype"» p ;;;
  q <- new_ TempCtor ;;
  put ctor «"prototype"» (Ref q) ;;;
  p <- get ctor «"prototype"» ;;
  put p «"constructor"» ctor.

(** [typeof Object.create === 'function'] when the module is loaded *)
Definition load (has_create : bool) : val -> val -> M unit := if has_create then inherits else inherits_shim.
End Inherits.

(** ** Lookups do not depend on objects that are added and on other names *)

Lemma lookup_in_ends fuel n s t l k :
  ends fuel s l = true -> lookup_in (fuel + n) (s ++ t) l k = lookup_in fuel s l k.
Proof.
  revert l. induction fuel as [|fuel IH]; intros l H; [done|]. cbn [ends lookup_in Nat.add] in *.
  destruct (s !! l) as [o|] eqn:E; [|done]. rewrite (lookup_app_l_Some _ _ _ _ E). cbn [mbind option_bind].
  destruct (props o !! k); [done|]. destruct (proto o) as [p|]; [|done]. by apply IH.
Qed.

Lemma ends_app fuel s t l : ends fuel s l = true -> ends fuel (s ++ t) l = true.
Proof.
  revert l. induction fuel as [|fuel IH]; intros l H; [done|]. cbn [ends] in *.
  destruct (s !! l) as [o|] eqn:E; [|done]. rewrite (lookup_app_l_Some _ _ _ _ E). destruct (proto o); [|done]. by apply IH.
Qed.

Lemma member_app s t l k : ends (length s) s l = true -> member (s ++ t) l k = member s l k.
Proof. unfold member. rewrite length_app. apply lookup_in_ends. Qed.

Lemma lookup_in_alter fuel s l k p l' k' :
  k <> k' -> lookup_in fuel (alter (set_prop k p) l s) l' k' = lookup_in fuel s l' k'.
Proof.
  intros Hk. revert l'. induction fuel as [|fuel IH]; intros l'; [done|]. cbn [lookup_in].
  destruct (decide (l = l')) as [->|Hl].
  - rewrite list_lookup_alter_eq. destruct (s !! l') as [o|]; [|done]. cbn [fmap option_fmap option_map mbind option_bind set_prop props proto].
    rewrite lookup_insert_ne by done. destruct (props o !! k'); [done|]. destruct (proto o); [|done]. apply IH.
  - rewrite list_lookup_alter_ne by done. destruct (s !! l') as [o|]; [|done]. cbn [mbind option_bind].
    destruct (props o !! k'); [done|]. destruct (proto o); [|done]. apply IH.
Qed.

Lemma member_alter s l k p l' k' : k <> k' -> member (alter (set_prop k p) l s) l' k' = member s l' k'.
Proof. unfold member. rewrite length_alter. apply lookup_in_alter. Qed.

Lemma ends_alter fuel s l k p l' : ends fuel (alter (set_prop k p) l s) l' = ends fuel s l'.
Proof.
  revert l'. induction fuel as [|fuel IH]; intros l'; [done|]. cbn [ends]. destruct (decide (l = l')) as [->|Hl].
  - rewrite list_lookup_alter_eq. destruct (s !! l') as [o|]; [|done]. cbn [fmap option_fmap option_map set_prop proto].
    destruct (proto o); [|done]. apply IH.
  - rewrite list_lookup_alter_ne by done. destruct (s !! l') as [o|]; [|done]. destruct (proto o); [|done]. apply IH.
Qed.

Lemma member_own s l o k p : s !! l = Some o -> props o !! k = Some p -> member s l k = Some p.
Proof.
  intros Hl Hk. unfold member. destruct (length s) eqn:E; [by destruct s|]. cbn [lookup_in]. rewrite Hl. cbn. by rewrite Hk.
Qed.

Lemma assigned_own s l o k p x :
  s !! l = Some o -> props o !! k = Some p -> p_writable p = true ->
  assigned l k x s = alter (set_prop k (Prop_ x (p_enumerable p) true)) l s.
Proof.
  intros Hl Hk Hw. unfold assigned, assignable. rewrite (member_own _ _ _ _ _ Hl Hk). cbn. rewrite Hw.
  unfold own. rewrite Hl. cbn. by rewrite Hk.
Qed.

Lemma assigned_new s l o k x :
  s !! l = Some o -> props o !! k = None -> assignable s l k = true ->
  assigned l k x s = alter (set_prop k (Prop_ x true true)) l s.
Proof. intros Hl Hk Hw. unfold assigned. rewrite Hw. unfold own. rewrite Hl. cbn. by rewrite Hk. Qed.

(** ** What a call does *)

(** The new prototype [q] is below that of the other constructor and knows its
    constructor; apart from the two properties of the constructor no object
    that was there has changed. *)
Record inherited (enumerable : bool) (s : store) (c b p : nat) (s' : store) (q : nat) : Prop := {
  inh_fresh : length s <= q;
  inh_super : member_value s' c «"super_"» = Ref b;
  inh_prototype : member_value s' c «"prototype"» = Ref q;
  inh_new : s' !! q = Some (Obj (Some p) {[«"constructor"» := Prop_ (Ref c) enumerable true]});
  inh_others : forall l, l < length s -> l <> c -> s' !! l = s !! l;
  inh_ctor : forall k, k <> «"super_"» -> k <> «"prototype"» -> own s' c k = own s c k;
  inh_ends : forall l, ends (length s) s l = true -> ends (length s) s' l = true;
  inh_members : forall l k, ends (length s) s l = true -> k <> «"super_"» -> k <> «"prototype"» -> member s' l k = member s l k
}.

Section Call.
Variable prim_member : val -> jsstr -> val.
Variables objectPrototype functionPrototype : nat.
Variables (s : store) (c b p : nat) (co : obj) (old : val) (e : bool).
Hypothesis c_obj : s !! c = Some co.
Hypothesis c_prototype : props co !! «"prototype"» = Some (Prop_ old e true).
Hypothesis c_super : assignable s c «"super_"» = true.
Hypothesis b_ends : ends (length s) s b = true.
Hypothesis b_prototype : member_value s b «"prototype"» = Ref p.
Hypothesis p_ends : ends (length s) s p = true.
Hypothesis p_constructor : assignable s p «"constructor"» = true.

(** The old objects after the assignment to [super_], and in the end. *)
Let P1 := Prop_ (Ref b) (default true (p_enumerable <$> own s c «"super_"»)) true.
Definition after_super : store := alter (set_prop «"super_"» P1) c s.
Definition after_prototype (q : nat) : store := alter (set_prop «"prototype"» (Prop_ (Ref q) e true)) c after_super.

Lemma c_lt : c < length s.
Proof. by eapply lookup_lt_Some. Qed.

Lemma after_super_c : after_super !! c = Some (set_prop «"super_"» P1 co).
Proof. unfold after_super. by rewrite list_lookup_alter_eq, c_obj. Qed.

Lemma after_super_app_c t : (after_super ++ t) !! c = Some (set_prop «"super_"» P1 co).
Proof. apply lookup_app_l_Some, after_super_c. Qed.

Lemma length_after_super : length after_super = length s.
Proof. apply length_alter. Qed.

Lemma length_after_prototype q : length (after_prototype q) = length s.
Proof. unfold after_prototype. by rewrite length_alter, length_after_super. Qed.

Lemma put_super : put (Ref c) «"super_"» (Ref b) s = (Some tt, after_super).
Proof. unfold put, assigned. by rewrite c_super. Qed.

Lemma put_prototype t q : put (Ref c) «"prototype"» (Ref q) (after_super ++ t) = (Some tt, after_prototype q ++ t).
Proof.
  unfold put. rewrite (assigned_own _ _ _ _ (Prop_ old e true) _ (after_super_app_c t)).
  - cbn [p_enumerable]. rewrite alter_app_l by (rewrite length_after_super; apply c_lt). done.
  - cbn [set_prop props]. rewrite lookup_insert_ne by (by vm_compute). exact c_prototype.
  - done.
Qed.

Lemma after_super_member t l k :
  ends (length s) s l = true -> k <> «"super_"» -> member (after_super ++ t) l k = member s l k.
Proof.
  intros Hl Hk. rewrite member_app by (rewrite length_after_super; unfold after_super; by rewrite ends_alter).
  unfold after_super. by apply member_alter.
Qed.

Lemma super_prototype t : get prim_member (Ref b) «"prototype"» (after_super ++ t) = (Some (Ref p), after_super ++ t).
Proof. unfold get, member_value. rewrite after_super_member by (done || by vm_compute). fold (member_value s b «"prototype"»). by rewrite b_prototype. Qed.

Lemma inherited_by q enumerable t :
  length s <= q -> t !! (q - length s) = Some (Obj (Some p) {[«"constructor"» := Prop_ (Ref c) enumerable true]}) ->
  inherited enumerable s c b p (after_prototype q ++ t) q.
Proof.
  intros Hq Ht. pose proof c_lt.
  assert (forall k x, own (after_prototype q) c k = Some x -> member_value (after_prototype q ++ t) c k = p_value x) as Hown.
  { intros k x. unfold own. destruct (after_prototype q !! c) as [o|] eqn:E; [|done]. cbn. intros Hk.
    unfold member_value. erewrite member_own; [done|by apply lookup_app_l_Some|done]. }
  assert (forall k, own (after_prototype q) c k = if decide (k = «"prototype"») then Some (Prop_ (Ref q) e true)
    else if decide (k = «"super_"») then Some P1 else own s c k) as Hc.
  { intros k. unfold own, after_prototype. rewrite list_lookup_alter_eq, after_super_c, c_obj.
    cbn [fmap option_fmap option_map mbind option_bind set_prop props].
    destruct (decide (k = _)) as [->|?]; [by rewrite lookup_insert_eq|]. rewrite lookup_insert_ne by done.
    destruct (decide (k = _)) as [->|?]; [by rewrite lookup_insert_eq|]. by rewrite lookup_insert_ne. }
  split; [done|..].
  - rewrite (Hown _ P1); [done|]. rewrite Hc, decide_False by (by vm_compute). by rewrite decide_True.
  - rewrite (Hown _ (Prop_ (Ref q) e true)); [done|]. by rewrite Hc, decide_True.
  - by rewrite lookup_app_r, length_after_prototype by (rewrite length_after_prototype; done).
  - intros l Hl Hn. rewrite lookup_app_l by (by rewrite length_after_prototype). unfold after_prototype, after_super.
    by rewrite !list_lookup_alter_ne.
  - intros k H1 H2. transitivity (own (after_prototype q) c k).
    + unfold own. rewrite lookup_app_l; [done|]. by rewrite length_after_prototype.
    + rewrite Hc. by rewrite !decide_False.
  - intros l Hl. apply ends_app. unfold after_prototype, after_super. by rewrite !ends_alter.
  - intros l k Hl H1 H2. rewrite member_app.
    + unfold after_prototype, after_super. by rewrite !member_alter.
    + rewrite length_after_prototype. unfold after_prototype, after_super. by rewrite !ends_alter.
Qed.

Lemma inherits_runs :
  exists s', inherits prim_member (Ref c) (Ref b) s = (Some tt, s') /\ inherited false s c b p s' (length s).
Proof.
  eexists. split.
  - unfold inherits, bind. rewrite put_super.
    pose proof (super_prototype []) as Hg. rewrite app_nil_r in Hg. rewrite Hg. cbn [Object_create].
    unfold alloc. rewrite length_after_super. apply put_prototype.
  - apply inherited_by; [done|]. by rewrite Nat.sub_diag.
Qed.

(** The function that the older implementation makes, with the given
    prototype, and the prototype it was made with. *)
Let f := S (length s).
Let po := Obj (Some objectPrototype) {[«"constructor"» := Prop_ (Ref f) false true]}.
Let fo x := Obj (Some functionPrototype) {[«"prototype"» := Prop_ x false true]}.

Lemma lookup_f x t : (after_super ++ po :: fo x :: t) !! f = Some (fo x).
Proof.
  rewrite lookup_app_r by (rewrite length_after_super; lia). rewrite length_after_super. unfold f.
  by replace (S (length s) - length s) with 1 by lia.
Qed.

Lemma fo_prototype x : props (fo x) !! «"prototype"» = Some (Prop_ x false true).
Proof. apply lookup_singleton_eq. Qed.

Lemma temp_prototype x :
  put (Ref f) «"prototype"» (Ref p) (after_super ++ [po; fo x]) = (Some tt, after_super ++ [po; fo (Ref p)]).
Proof.
  unfold put. rewrite (assigned_own _ _ _ _ _ _ (lookup_f x []) (fo_prototype x)) by done.
  rewrite alter_app_r_alt by (rewrite length_after_super; lia). rewrite length_after_super.
  unfold f at 1. replace (S (length s) - length s) with 1 by lia. cbn. unfold set_prop, fo. cbn [proto props].
  by rewrite insert_singleton_eq.
Qed.

Lemma temp_new :
  new_ prim_member objectPrototype f (after_super ++ [po; fo (Ref p)]) =
    (Some (2 + length s), after_super ++ [po; fo (Ref p); Obj (Some p) ∅]).
Proof.
  unfold new_, bind, get, member_value. rewrite (member_own _ _ _ _ _ (lookup_f (Ref p) []) (fo_prototype _)).
  cbn [fmap option_fmap option_map default p_value ret]. unfold ret, alloc. rewrite length_app, length_after_super, <- app_assoc.
  cbn [length app]. by rewrite Nat.add_comm.
Qed.

Lemma get_prototype q t :
  get prim_member (Ref c) «"prototype"» (after_prototype q ++ t) = (Some (Ref q), after_prototype q ++ t).
Proof.
  unfold get, member_value.
  erewrite (member_own _ c); [|apply lookup_app_l_Some; unfold after_prototype; by rewrite list_lookup_alter_eq, after_super_c|
    cbn [set_prop props]; apply lookup_insert_eq]. done.
Qed.

Lemma put_constructor q x :
  put (Ref (2 + length s)) «"constructor"» (Ref c) (after_prototype q ++ [po; x; Obj (Some p) ∅]) =
    (Some tt, after_prototype q ++ [po; x; Obj (Some p) {[«"constructor"» := Prop_ (Ref c) true true]}]).
Proof.
  set (S3 := after_prototype q ++ [po; x; Obj (Some p) ∅]).
  assert (S3 !! (2 + length s) = Some (Obj (Some p) ∅)) as H3.
  { unfold S3. rewrite lookup_app_r by (rewrite length_after_prototype; lia). rewrite length_after_prototype.
    by replace (2 + length s - length s) with 2 by lia. }
  unfold put. rewrite (assigned_new _ _ _ _ _ H3 (lookup_empty _)).
  - unfold S3. rewrite alter_app_r_alt by (rewrite length_after_prototype; lia). rewrite length_after_prototype.
    by replace (2 + length s - length s) with 2 by lia.
  - transitivity (assignable s p «"constructor"»); [|exact p_constructor]. unfold assignable. do 2 f_equal.
    unfold member at 1. replace (length S3) with (S (length s + 2)) by (unfold S3; rewrite length_app, length_after_prototype; cbn; lia).
    cbn [lookup_in]. rewrite H3. cbn [mbind option_bind props proto]. rewrite lookup_empty. unfold S3.
    rewrite lookup_in_ends by (unfold after_prototype, after_super; by rewrite !ends_alter).
    unfold after_prototype, after_super.
    do 2 (rewrite lookup_in_alter; [|by vm_compute]). reflexivity.
Qed.

Lemma shim_runs :
  exists s', inherits_shim prim_member objectPrototype functionPrototype (Ref c) (Ref b) s = (Some tt, s') /\
    inherited true s c b p s' (2 + length s).
Proof.
  eexists. split.
  - unfold inherits_shim, bind. rewrite put_super. unfold empty_function. rewrite length_after_super. fold f. fold po.
    change (Obj (Some functionPrototype) _) with (fo (Ref (length s))).
    rewrite super_prototype, temp_prototype, temp_new, put_prototype, get_prototype. apply put_constructor.
  - apply inherited_by; [lia|]. by replace (2 + length s - length s) with 2 by lia.
Qed.
End Call.

(** ** Both implementations *)

Section Theorems.
Variable prim_member : val -> jsstr -> val.
Variables objectPrototype functionPrototype : nat.

(** Whichever implementation is loaded, on a constructor whose [prototype] and
    [super_] can be written, and another one with an object as prototype:
    [super_] is the other constructor, the prototype is a new object below the
    other prototype that has the constructor and nothing else, and an object
    [x] made by the constructor afterwards has, besides its own properties and
    [constructor], exactly the members of the other prototype.  No other
    object changes; in particular objects made before keep the prototype they
    have.  The implementations differ only in that [for in] over an instance
    meets [constructor] with the older one. *)
Theorem inherits_links (has_create : bool) (s : store) (c b p : nat) (co : obj) (old : val) (e : bool) :
  s !! c = Some co -> props co !! «"prototype"» = Some (Prop_ old e true) -> assignable s c «"super_"» = true ->
  ends (length s) s b = true -> member_value s b «"prototype"» = Ref p ->
  ends (length s) s p = true -> assignable s p «"constructor"» = true ->
  exists s' q, load prim_member objectPrototype functionPrototype has_create (Ref c) (Ref b) s = (Some tt, s') /\
    inherited (negb has_create) s c b p s' q /\
    forall x_props k, k <> «"super_"» -> k <> «"prototype"» ->
      member (s' ++ [Obj (Some q) x_props]) (length s') k =
        match x_props !! k with
        | Some x => Some x
        | None => if decide (k = «"constructor"») then Some (Prop_ (Ref c) (negb has_create) true) else member s p k
        end.
Proof.
  intros Hc Hp Hs Hb Hbp Hpe Hpc.
  assert (exists s' q, load prim_member objectPrototype functionPrototype has_create (Ref c) (Ref b) s = (Some tt, s') /\
    inherited (negb has_create) s c b p s' q) as (s' & q & E & H).
  { destruct has_create; cbn [load negb].
    - destruct (inherits_runs prim_member s c b p co old e) as (s' & E & H); [done..|]. by exists s', (length s).
    - destruct (shim_runs prim_member objectPrototype functionPrototype s c b p co old e) as (s' & E & H); [done..|].
      by exists s', (2 + length s). }
  exists s', q. split_and!; [done|done|]. intros x_props k H1 H2.
  pose proof (lookup_lt_Some _ _ _ (inh_new _ _ _ _ _ _ _ H)) as Hq. pose proof (inh_fresh _ _ _ _ _ _ _ H) as Hf.
  unfold member at 1. rewrite length_app, Nat.add_1_r. cbn [lookup_in].
  rewrite lookup_app_r, Nat.sub_diag by done. cbn [lookup list_lookup mbind option_bind props proto].
  destruct (x_props !! k); [done|]. destruct (length s') as [|n] eqn:En; [lia|]. cbn [lookup_in].
  rewrite (lookup_app_l_Some _ _ _ _ (inh_new _ _ _ _ _ _ _ H)). cbn [mbind option_bind props proto].
  destruct (decide (k = _)) as [->|Hk]; [by rewrite lookup_singleton_eq|]. rewrite lookup_singleton_ne by done.
  replace n with (length s + (n - length s)) by lia. pose proof (inh_ends _ _ _ _ _ _ _ H p Hpe) as He.
  rewrite lookup_in_ends by done. rewrite <- (inh_members _ _ _ _ _ _ _ H) by done. unfold member. rewrite En.
  rewrite <- (app_nil_r s') at 2. replace (S n) with (length s + (S n - length s)) by lia. by rewrite lookup_in_ends.
Qed.

(** Errors: with no constructor to inherit from both implementations throw
    after [super_] was set; on a prototype that is not an object
    [Object.create] throws and the other implementation does not. *)
Lemma inherits_no_super (has_create : bool) (s : store) (c : nat) (v : val) :
  is_nullish v = true -> (load prim_member objectPrototype functionPrototype has_create (Ref c) v s).1 = None.
Proof. intros Hv. by destruct has_create, v. Qed.
End Theorems.

(** A store with [Object.prototype], [Function.prototype], a constructor [A]
    with a method [m] on its prototype and a constructor [B]. *)
Definition two_classes : store :=
  [ Obj None {[«"toString"» := Prop_ (Num (Int 0)) false true]};
    Obj (Some 0) ∅;
    Obj (Some 0) {[«"constructor"» := Prop_ (Ref 3) false true; «"m"» := Prop_ (Num (Int 7)) true true]};
    Obj (Some 1) {[«"prototype"» := Prop_ (Ref 2) false true]};
    Obj (Some 0) {[«"constructor"» := Prop_ (Ref 5) false true]};
    Obj (Some 1) {[«"prototype"» := Prop_ (Ref 4) false true]} ].

Definition run_both (has_create : bool) : store := (load (fun _ _ => Undefined) 0 1 has_create (Ref 5) (Ref 3) two_classes).2.

(** The witnesses see [m] through both implementations, and [constructor] in
    [for in] through one. *)
Example both_inherit :
  map (fun h => let s := run_both h in
        match member_value s 5 «"prototype"» with
        | Ref q => let s := s ++ [Obj (Some q) ∅] in
            (member_value s (length s - 1) «"m"», member_value s (length s - 1) «"toString"»,
             map (visits s (length s - 1)) [«"m"»; «"constructor"»])
        | _ => (Undefined, Undefined, [])
        end) [true; false] =
  [(Num (Int 7), Num (Int 0), [true; false]); (Num (Int 7), Num (Int 0), [true; true])].
Proof. by vm_compute. Qed.

Example primitive_prototype :
  let s := <[3 := Obj (Some 1) {[«"prototype"» := Prop_ (Num (Int 1)) false true]}]> two_classes in
  (load (fun _ _ => Undefined) 0 1 true (Ref 5) (Ref 3) s).1 = None /\
  (load (fun _ _ => Undefined) 0 1 false (Ref 5) (Ref 3) s).1 = Some tt.
Proof. by vm_compute. Qed.

Lemma inherits_links_witness :
  exists s' q, load (fun _ _ => Undefined) 0 1 true (Ref 5) (Ref 3) two_classes = (Some tt, s') /\
    inherited false two_classes 5 3 2 s' q /\
    forall x_props k, k <> «"super_"» -> k <> «"prototype"» ->
      member (s' ++ [Obj (Some q) x_props]) (length s') k =
        match x_props !! k with
        | Some x => Some x
        | None => if decide (k = «"constructor"») then Some (Prop_ (Ref 5) false true) else member two_classes 2 k
        end.
Proof.
  apply (inherits_links (fun _ _ => Undefined) 0 1 true two_classes 5 3 2
           (Obj (Some 1) {[«"prototype"» := Prop_ (Ref 4) false true]}) (Ref 4) false); by vm_compute.
Defined.
