(* ===== verification/Util.v ===== *)
(** * util

    Module 28 of wordcut.js: [util.inspect] with the functions it is made of,
    [util.format], [util.deprecate], [util._extend] and the smaller helpers,
    on the values and objects of [JsHeap].

    Parameters are what the store does not have: conversions of objects to
    text, names of functions, the texts of dates and errors, properties that
    are hidden or accessors, and [inspect] methods of objects. *)

From stdpp Require Import pretty.
From S2P Require Import Prelude JsHeap.

Definition newline : N := 10%N.
Definition esc : N := 27%N.
Definition quote : N := 39%N.
Definition dquote : N := 34%N.
Definition backslash : N := 92%N.

(** ** Numbers and strings *)

(** ['' + x]; integers that are printed without an exponent. *)
Definition int_text (z : Z) : jsstr := lit (pretty z).

Definition num_text (x : num) : jsstr :=
  match x with
  | NaN => «"NaN"»
  | NegZero => «"0"»
  | Inf negative => (if negative then «"-"» else []) ++ «"Infinity"»
  | Int z => int_text z
  end.

Definition hex_char (n : N) : N := if (n <? 10)%N then (48 + n)%N else (87 + n)%N.

(** [JSON.stringify] of a string. *)
Definition json_unit (c : N) : jsstr :=
  if decide (c = dquote) then [backslash; dquote]
  else if decide (c = backslash) then [backslash; backslash]
  else if decide (c = 8)%N then «"\b"»
  else if decide (c = 9)%N then «"\t"»
  else if decide (c = 10)%N then «"\n"»
  else if decide (c = 12)%N then «"\f"»
  else if decide (c = 13)%N then «"\r"»
  else if (c <? 32)%N then «"\u00"» ++ [hex_char (c / 16); hex_char (c mod 16)]
  else [c].

Definition json_string (s : jsstr) : jsstr := [dquote] ++ concat (map json_unit s) ++ [dquote].

(** The replacements of [formatPrimitive] and [formatProperty]: a double quote
    at the start and at the end, every single quote, every escaped double
    quote. *)
Definition replace_ends (by_ : jsstr) (s : jsstr) : jsstr :=
  let s := match s with c :: s' => if decide (c = dquote) then by_ ++ s' else s | [] => [] end in
  match last s with
  | Some c => if decide (c = dquote) then take (length s - 1) s ++ by_ else s
  | None => s
  end.

Definition escape_quotes (s : jsstr) : jsstr :=
  concat (map (fun c => if decide (c = quote) then [backslash; quote] else [c]) s).

Fixpoint bare_dquotes (s : jsstr) : jsstr :=
  match s with
  | c :: ((d :: s2) as s1) => if decide (c = backslash /\ d = dquote) then dquote :: bare_dquotes s2 else c :: bare_dquotes s1
  | _ => s
  end.

(** [str.split('\n').map(line => pad + line).join('\n')] *)
Definition indent (pad s : jsstr) : jsstr := join [newline] (map (fun l => pad ++ l) (split_on newline s)).

(** ** Styles *)

Inductive style := Special | SNumber | SBoolean | SUndefined | SNull | SString | SDate | SRegExp | SName.

(** [inspect.styles] and [inspect.colors] *)
Definition color (st : style) : option (jsstr * jsstr) :=
  match st with
  | Special => Some («"36"», «"39"»)
  | SNumber | SBoolean => Some («"33"», «"39"»)
  | SUndefined => Some («"90"», «"39"»)
  | SNull => Some («"1"», «"22"»)
  | SString => Some («"32"», «"39"»)
  | SDate => Some («"35"», «"39"»)
  | SRegExp => Some («"31"», «"39"»)
  | SName => None
  end.

Definition stylizeWithColor (str : jsstr) (st : style) : jsstr :=
  match color st with
  | Some (on, off) => [esc] ++ «"["» ++ on ++ «"m"» ++ str ++ [esc] ++ «"["» ++ off ++ «"m"»
  | None => str
  end.

Definition stylizeNoColor (str : jsstr) (st : style) : jsstr := str.

(** [s.replace(/\u001b\[\d\d?m/g, '')] *)
Definition is_digit (c : N) : bool := in_range 48 57 c.

Definition code_length (s : jsstr) : nat :=
  match s with
  | e :: b :: d :: rest =>
      if bool_decide (e = esc /\ b = 91%N) && is_digit d then
        match rest with
        | m :: rest' =>
            if decide (m = 109%N) then 4
            else match rest' with
                 | m' :: _ => if is_digit m && bool_decide (m' = 109%N) then 5 else 0
                 | [] => 0
                 end
        | [] => 0
        end
      else 0
  | _ => 0
  end.

Fixpoint strip_codes (skip : nat) (s : jsstr) : jsstr :=
  match s with
  | [] => []
  | c :: s' =>
      match skip with
      | S k => strip_codes k s'
      | O => match code_length s with
             | S k => strip_codes k s'
             | O => c :: strip_codes 0 s'
             end
      end
  end.

(** ** Layout *)

Definition has_newline (s : jsstr) : bool := bool_decide (newline ∈ s).

Definition total_length (output : list jsstr) : nat :=
  foldl (fun prev cur => prev + length (strip_codes 0 cur) + 1) 0 output.

Definition reduceToSingleString (output : list jsstr) (base : jsstr) (braces : jsstr * jsstr) : jsstr :=
  if decide (60 < total_length output) then
    braces.1 ++ (if decide (base = []) then [] else base ++ [newline] ++ «" "») ++ «" "» ++
    join («","» ++ [newline] ++ «"  "») output ++ «" "» ++ braces.2
  else braces.1 ++ base ++ «" "» ++ join «", "» output ++ «" "» ++ braces.2.

(** [/^\d+$/] *)
Definition all_digits (k : jsstr) : bool := bool_decide (k <> []) && forallb is_digit k.

(** An identifier of ASCII letters, digits and underscores. *)
Definition is_ident_start (c : N) : bool := in_range 97 122 c || in_range 65 90 c || (c =? 95)%N.
Definition is_ident (k : jsstr) : bool :=
  match k with c :: k => is_ident_start c && forallb (fun c => is_ident_start c || is_digit c) k | [] => false end.

(** [name] in [formatProperty] for a visible key; what is tested is between
    double quotes. *)
Definition property_name (stylize : jsstr -> style -> jsstr) (key : jsstr) : jsstr :=
  let name := json_string key in
  let body := take (length name - 2) (drop 1 name) in
  if is_ident body then stylize body SName
  else stylize (replace_ends [quote] (bare_dquotes (escape_quotes name))) SString.

Section Util.
Variable h : heap.
(** [String(obj)] and [value.name] *)
Variable to_text : nat -> jsstr.
Variable fn_name : nat -> jsstr.
(** [Error.prototype.toString], [Date.prototype.toUTCString] *)
Variable error_text : nat -> jsstr.
Variable utc_text : nat -> jsstr.
(** [obj instanceof Error] *)
Variable error_instance : nat -> bool.
(** [Object.getOwnPropertyNames], and the properties that have a getter or a
    setter; hidden properties have their values in [hidden_value]. *)
Variable own_names : nat -> list jsstr.
Variable accessor : nat -> jsstr -> option (bool * bool).
Variable hidden_value : nat -> jsstr -> val.
(** What a method [inspect] of the object returns. *)
Variable custom : nat -> option Z -> option val.

(** ** inspect *)

Record context := Context { showHidden : bool; depth : option Z; colors : bool; customInspect : bool }.

(** [ctx.stylize] *)
Definition stylize (ctx : context) : jsstr -> style -> jsstr := if colors ctx then stylizeWithColor else stylizeNoColor.

Definition formatPrimitive (ctx : context) (value : val) : option jsstr :=
  match value with
  | Undefined => Some (stylize ctx «"undefined"» SUndefined)
  | Str s => Some (stylize ctx ([quote] ++ bare_dquotes (escape_quotes (replace_ends [] (json_string s))) ++ [quote]) SString)
  | Num x => Some (stylize ctx (num_text x) SNumber)
  | Bool b => Some (stylize ctx (if b then «"true"» else «"false"») SBoolean)
  | Null => Some (stylize ctx «"null"» SNull)
  | Ref _ => None
  end.

Definition formatError (l : nat) : jsstr := «"["» ++ error_text l ++ «"]"».

Definition class_is (l : nat) (c : class) : bool := bool_decide (o_class <$> h !! l = Some c).
Definition isError (l : nat) : bool := negb (class_is l CFunction) && (class_is l CError || error_instance l).

Definition keys_of (l : nat) : list jsstr := match h !! l with Some o => map fst (own_props o) | None => [] end.

Definition value_of (l : nat) (k : jsstr) : val :=
  match h !! l with Some o => default (hidden_value l k) (get_prop (own_props o) k) | None => Undefined end.

(** [arrayToHash]: assigning to [__proto__] makes no property. *)
Definition visible (ks : list jsstr) (k : jsstr) : bool := bool_decide (k ∈ ks /\ k <> «"__proto__"»).

Inductive printed := Text (s : jsstr) | OutOfFuel.

Fixpoint all_printed (l : list printed) : option (list jsstr) :=
  match l with
  | [] => Some []
  | Text s :: l => cons s <$> all_printed l
  | OutOfFuel :: _ => None
  end.

(** The text of a property's value, with [format] for [formatValue]; [seen] is
    the stack of the objects around. *)
Definition property_text (format : val -> option Z -> printed) (ctx : context) (seen : list val) (l : nat)
    (recurseTimes : option Z) (key : jsstr) (array : bool) : printed :=
  match accessor l key with
  | Some (true, true) => Text (stylize ctx «"[Getter/Setter]"» Special)
  | Some (true, false) => Text (stylize ctx «"[Getter]"» Special)
  | Some (false, true) => Text (stylize ctx «"[Setter]"» Special)
  | _ =>
      let v := value_of l key in
      if existsb (fun x => strict_eq x v) seen then Text (stylize ctx «"[Circular]"» Special)
      else match format v (Z.pred <$> recurseTimes) with
           | OutOfFuel => OutOfFuel
           | Text str =>
               Text (if has_newline str
                     then if array then drop 2 (indent «"  "» str) else [newline] ++ indent «"   "» str
                     else str)
           end
  end.

(** The name before it. *)
Definition property_line (ctx : context) (visibleKeys : list jsstr) (key : jsstr) (array : bool) (str : jsstr) : jsstr :=
  if visible visibleKeys key then
    if array && all_digits key then str
    else property_name (stylize ctx) key ++ «": "» ++ str
  else «"["» ++ key ++ «"]"» ++ «": "» ++ str.

Definition formatProperty (format : val -> option Z -> printed) (ctx : context) (seen : list val) (l : nat)
    (recurseTimes : option Z) (visibleKeys : list jsstr) (key : jsstr) (array : bool) : printed :=
  match property_text format ctx seen l recurseTimes key array with
  | OutOfFuel => OutOfFuel
  | Text str => Text (property_line ctx visibleKeys key array str)
  end.

(** The keys that [formatArray] prints after the elements, which have no
    holes. *)
Definition other_keys (keys : list jsstr) : list jsstr := filter (fun k => all_digits k = false) keys.

Definition elements (l : nat) : list val := match h !! l with Some o => o_elems o | None => [] end.

Definition array_keys (l : nat) (keys : list jsstr) : list jsstr :=
  imap (fun i _ => index_key i) (elements l) ++ other_keys keys.

(** The shortcuts of [formatValue] for objects without keys, and [base] and
    [braces] for the others. *)
Definition fn_label (l : nat) : jsstr :=
  «"[Function"» ++ (if decide (fn_name l = []) then [] else «": "» ++ fn_name l) ++ «"]"».

Definition object_text (l : nat) : jsstr := match h !! l with Some o => o_string o | None => [] end.

Definition no_keys_text (ctx : context) (l : nat) : option jsstr :=
  if class_is l CFunction then Some (stylize ctx (fn_label l) Special)
  else if class_is l CRegExp then Some (stylize ctx (object_text l) SRegExp)
  else if class_is l CDate then Some (stylize ctx (object_text l) SDate)
  else if isError l then Some (formatError l)
  else None.

Definition base_of (l : nat) : jsstr :=
  let base := if class_is l CFunction then «" "» ++ fn_label l else [] in
  let base := if class_is l CRegExp then «" "» ++ object_text l else base in
  let base := if class_is l CDate then «" "» ++ utc_text l else base in
  if isError l then «" "» ++ formatError l else base.

Definition braces_of (l : nat) : jsstr * jsstr :=
  if class_is l CArray then («"["», «"]"») else («"{"», «"}"»).

Definition negative (recurseTimes : option Z) : bool :=
  match recurseTimes with Some n => (n <? 0)%Z | None => false end.

(** The fuel bounds how deep calls nest: a call passes one less on to each of
    the calls it makes. *)
Fixpoint formatValue (fuel : nat) (ctx : context) (seen : list val) (value : val) (recurseTimes : option Z)
    {struct fuel} : printed :=
  match fuel with
  | O => OutOfFuel
  | S fuel =>
      match (match value with
             | Ref l => if customInspect ctx then custom l recurseTimes else None
             | _ => None
             end) with
      | Some (Str s) => Text s
      | Some v => formatValue fuel ctx seen v recurseTimes
      | None =>
          match formatPrimitive ctx value, value with
          | Some s, _ => Text s
          | None, Ref l =>
              let visibleKeys := keys_of l in
              let keys := if showHidden ctx then own_names l else visibleKeys in
              if isError l && (bool_decide («"message"» ∈ keys) || bool_decide («"description"» ∈ keys)) then Text (formatError l)
              else match (if decide (keys = []) then no_keys_text ctx l else None) with
              | Some s => Text s
              | None =>
                  let array := class_is l CArray in
                  let braces := braces_of l in
                  if decide (keys = [] /\ (array = false \/ elements l = [])) then Text (braces.1 ++ base_of l ++ braces.2)
                  else if negative recurseTimes then
                    Text (if class_is l CRegExp then stylize ctx (object_text l) SRegExp else stylize ctx «"[Object]"» Special)
                  else
                    let print key :=
                      formatProperty (fun v r => formatValue fuel ctx (value :: seen) v r) ctx (value :: seen) l recurseTimes
                        visibleKeys key array in
                    match all_printed (map print (if array then array_keys l keys else keys)) with
                    | Some output => Text (reduceToSingleString output (base_of l) braces)
                    | None => OutOfFuel
                    end
              end
          | None, _ => OutOfFuel             (** not an object: not reached *)
          end
      end
  end.

(** The arguments of [inspect] after the first: an object of options, or
    [showHidden], [depth] and [colors] in the old way. *)
Inductive inspect_options :=
  | NoOptions
  | Legacy (showHidden : bool) (depth : option (option Z)) (colors : option bool)
  | Given (showHidden : option bool) (depth : option (option Z)) (colors customInspect : option bool).

Definition context_of (opts : inspect_options) : context :=
  match opts with
  | NoOptions => Context false (Some 2%Z) false true
  | Legacy s d c => Context s (default (Some 2%Z) d) (default false c) true
  | Given s d c i => Context (default false s) (default (Some 2%Z) d) (default false c) (default true i)
  end.

Definition inspect (fuel : nat) (obj : val) (opts : inspect_options) : printed :=
  let ctx := context_of opts in formatValue fuel ctx [] obj (depth ctx).

(** ** format *)

Variable to_number : val -> num.
(** [JSON.stringify], with [undefined] where that is its result; it throws on
    cycles. *)
Variable stringify : val -> option jsstr.

Definition val_text (v : val) : jsstr :=
  match v with
  | Undefined => «"undefined"»
  | Null => «"null"»
  | Bool b => if b then «"true"» else «"false"»
  | Num x => num_text x
  | Str s => s
  | Ref l => to_text l
  end.

Definition percent : N := 37%N.

Definition spec_text (x : N) (v : val) : jsstr :=
  if decide (x = 115%N) then val_text v
  else if decide (x = 100%N) then num_text (to_number v)
  else match stringify v with Some s => s | None => «"[Circular]"» end.

(** The replacement of the specifiers, with the arguments that are left. *)
Fixpoint format_specs (f : jsstr) (args : list val) : jsstr * list val :=
  match f with
  | c :: ((x :: f2) as f1) =>
      if decide (c = percent) then
        if decide (x = percent) then let r := format_specs f2 args in (percent :: r.1, r.2)
        else if decide (x ∈ «"sdj"») then
          match args with
          | [] => let r := format_specs f2 [] in (c :: x :: r.1, r.2)
          | a :: args => let r := format_specs f2 args in (spec_text x a ++ r.1, r.2)
          end
        else let r := format_specs f1 args in (c :: r.1, r.2)
      else let r := format_specs f1 args in (c :: r.1, r.2)
  | _ => (f, args)
  end.

(** An argument that no specifier took. *)
Definition rest_text (fuel : nat) (v : val) : printed :=
  if typeof_object h v && negb (is_nullish v) then inspect fuel v NoOptions else Text (val_text v).

(** [format(args...)]; without arguments the first one is undefined. *)
Definition format (fuel : nat) (args : list val) : printed :=
  match args with
  | Str f :: args =>
      let r := format_specs f args in
      match all_printed (map (rest_text fuel) r.2) with
      | Some texts => Text (r.1 ++ concat (map (fun t => «" "» ++ t) texts))
      | None => OutOfFuel
      end
  | _ =>
      match all_printed (map (fun v => inspect fuel v NoOptions) args) with
      | Some texts => Text (join «" "» texts)
      | None => OutOfFuel
      end
  end.
End Util.

(** ** deprecate

    [process.noDeprecation], [process.throwDeprecation] and
    [process.traceDeprecation]. *)
Record flags := Flags { noDeprecation : bool; throwDeprecation : bool; traceDeprecation : bool }.

Inductive notice := Printed | Traced.

(** A call of the function that [deprecate] returns: the notice it gives,
    whether it goes on to the function, and its variable [warned]. *)
Definition deprecated (fl : flags) (warned : bool) : option notice * bool * bool :=
  if noDeprecation fl then (None, true, warned)
  else if warned then (None, true, warned)
  else if throwDeprecation fl then (None, false, warned)
  else (Some (if traceDeprecation fl then Traced else Printed), true, true).

(** What [deprecate] returns before there is a [process]: every call makes a
    new function with its own variable. *)
Definition deprecated_early (fl : option flags) (warned : bool) : option (option notice * bool * bool) :=
  match fl with
  | None => None                     (** calls itself for ever *)
  | Some fl => let r := deprecated fl false in Some (r.1.1, r.1.2, warned)
  end.

Fixpoint notices (call : bool -> option notice * bool * bool) (n : nat) (warned : bool) : list notice :=
  match n with
  | O => []
  | S n => let r := call warned in option_list r.1.1 ++ notices call n r.2
  end.

(** ** _extend

    Objects by their own properties, in order of creation. *)
Fixpoint put_prop (k : jsstr) (v : val) (ps : list (jsstr * val)) : list (jsstr * val) :=
  match ps with
  | [] => [(k, v)]
  | (k', w) :: ps => if decide (k' = k) then (k', v) :: ps else (k', w) :: put_prop k v ps
  end.

(** Assigning to [__proto__] makes no property. *)
Definition assign_prop (k : jsstr) (v : val) (ps : list (jsstr * val)) : list (jsstr * val) :=
  if decide (k = «"__proto__"») then ps else put_prop k v ps.

(** [None] when [add] is not an object. *)
Definition _extend (origin : list (jsstr * val)) (add : option (list (jsstr * val))) : list (jsstr * val) :=
  match add with
  | None => origin
  | Some ps => foldr (fun p origin => assign_prop p.1 p.2 origin) origin ps
  end.

(** ** timestamp *)

Definition pad (n : Z) : jsstr := if (n <? 10)%Z then «"0"» ++ int_text n else int_text n.

Definition months : list jsstr :=
  [«"Jan"»; «"Feb"»; «"Mar"»; «"Apr"»; «"May"»; «"Jun"»; «"Jul"»; «"Aug"»; «"Sep"»; «"Oct"»; «"Nov"»; «"Dec"»].

Definition timestamp (date hours minutes seconds : Z) (month : nat) : jsstr :=
  join «" "» [int_text date; default [] (months !! month); join «":"» [pad hours; pad minutes; pad seconds]].

(** ** debuglog *)

(** [debugEnviron] and [debugs], whose functions print or do not. *)
Record debug_state := DebugState { debugEnviron : option jsstr; debugs : gmap jsstr bool }.

(** [names set env] is the test of the regular expression; the environment is
    read once. *)
Definition debuglog (names : jsstr -> jsstr -> bool) (toUpperCase : jsstr -> jsstr) (NODE_DEBUG : option jsstr)
    (st : debug_state) (set : jsstr) : bool * debug_state :=
  let env := default (default [] NODE_DEBUG) (debugEnviron st) in
  let set := toUpperCase set in
  match debugs st !! set with
  | Some b => (b, DebugState (Some env) (debugs st))
  | None => let b := names set env in (b, DebugState (Some env) (<[set := b]> (debugs st)))
  end.

(** ** Strings are printed as literals *)

Definition hex_digit (c : N) : option N :=
  if in_range 48 57 c then Some (c - 48)%N
  else if in_range 97 102 c then Some (c - 87)%N else None.

(** The value of the body of a literal in single quotes, for the escapes that
    occur here; [None] if the literal ends early or is malformed. *)
Fixpoint literal_value (s : jsstr) : option jsstr :=
  match s with
  | [] => Some []
  | c :: s1 =>
      if decide (c = quote \/ c = 10%N \/ c = 13%N) then None
      else if decide (c = backslash) then
        match s1 with
        | d :: s2 =>
            if decide (d = quote \/ d = backslash \/ d = dquote) then cons d <$> literal_value s2
            else if decide (d = 98%N) then cons 8%N <$> literal_value s2
            else if decide (d = 116%N) then cons 9%N <$> literal_value s2
            else if decide (d = 110%N) then cons 10%N <$> literal_value s2
            else if decide (d = 102%N) then cons 12%N <$> literal_value s2
            else if decide (d = 114%N) then cons 13%N <$> literal_value s2
            else if decide (d = 117%N) then
              match s2 with
              | w :: x :: y :: z :: s3 =>
                  w ← hex_digit w; x ← hex_digit x; y ← hex_digit y; z ← hex_digit z;
                  cons (((w * 16 + x) * 16 + y) * 16 + z)%N <$> literal_value s3
              | _ => None
              end
            else None
        | [] => None
        end
      else cons c <$> literal_value s1
  end.

(** What becomes of one code unit. *)
Definition printed_unit (c : N) : jsstr :=
  if decide (c = dquote) then [dquote] else if decide (c = quote) then [backslash; quote] else json_unit c.

Lemma replace_ends_json s : replace_ends [] (json_string s) = concat (map json_unit s).
Proof.
  unfold replace_ends, json_string. cbn [app]. rewrite decide_True by done.
  rewrite last_snoc, decide_True by done. rewrite length_app. cbn [length].
  rewrite Nat.add_sub, take_app_length. apply app_nil_r.
Qed.

Lemma escape_quotes_app s t : escape_quotes (s ++ t) = escape_quotes s ++ escape_quotes t.
Proof. unfold escape_quotes. by rewrite map_app, concat_app. Qed.

Lemma hex_digit_char n : (n < 16)%N -> hex_digit (hex_char n) = Some n.
Proof.
  intros Hn. unfold hex_char, hex_digit. destruct (N.ltb_spec n 10).
  - replace (in_range 48 57 (48 + n)) with true; [f_equal; lia|]. symmetry. unfold in_range.
    apply andb_true_iff. rewrite !N.leb_le. lia.
  - replace (in_range 48 57 (87 + n)) with false.
    + replace (in_range 97 102 (87 + n)) with true; [f_equal; lia|]. symmetry. unfold in_range.
      apply andb_true_iff. rewrite !N.leb_le. lia.
    + symmetry. unfold in_range. apply andb_false_iff. rewrite !N.leb_gt. lia.
Qed.

Lemma hex_char_plain n : (n < 16)%N -> (48 <= hex_char n <= 57)%N \/ (97 <= hex_char n <= 102)%N.
Proof. intros Hn. unfold hex_char. destruct (N.ltb_spec n 10); lia. Qed.

(** The three shapes of a printed unit. *)
Lemma json_unit_cases c :
  (c = dquote /\ json_unit c = [backslash; dquote]) \/
  (exists d, json_unit c = [backslash; d] /\ d <> quote /\ d <> dquote /\
     ((d, c) ∈ [(backslash, backslash); (98, 8); (116, 9); (110, 10); (102, 12); (114, 13)]%N)) \/
  ((c < 32)%N /\ json_unit c = «"\u00"» ++ [hex_char (c / 16); hex_char (c mod 16)]) \/
  ((32 <= c)%N /\ c <> dquote /\ c <> backslash /\ json_unit c = [c]).
Proof.
  unfold json_unit.
  destruct (decide (c = dquote)); [by left|].
  destruct (decide (c = backslash)) as [->|]; [right; left; exists backslash; split_and!; [done..|set_solver]|].
  destruct (decide (c = 8%N)) as [->|]; [right; left; exists 98%N; split_and!; [done..|set_solver]|].
  destruct (decide (c = 9%N)) as [->|]; [right; left; exists 116%N; split_and!; [done..|set_solver]|].
  destruct (decide (c = 10%N)) as [->|]; [right; left; exists 110%N; split_and!; [done..|set_solver]|].
  destruct (decide (c = 12%N)) as [->|]; [right; left; exists 102%N; split_and!; [done..|set_solver]|].
  destruct (decide (c = 13%N)) as [->|]; [right; left; exists 114%N; split_and!; [done..|set_solver]|].
  right; right. destruct (N.ltb_spec c 32); [by left|by right].
Qed.

Lemma bare_cons c s : c <> backslash \/ head s <> Some dquote -> bare_dquotes (c :: s) = c :: bare_dquotes s.
Proof.
  intros H. destruct s as [|d s]; [done|]. change (bare_dquotes (c :: d :: s)) with
    (if decide (c = backslash /\ d = dquote) then dquote :: bare_dquotes s else c :: bare_dquotes (d :: s)).
  rewrite decide_False; [done|]. intros [-> ->]. by destruct H as [H|H]; apply H.
Qed.

(** No printed unit starts with a double quote that is not its own. *)
Lemma unit_head c rest : head (escape_quotes (json_unit c) ++ rest) <> Some dquote.
Proof.
  destruct (json_unit_cases c) as [(-> & ->)|[(d & -> & _)|[(_ & ->)|(_ & Hd & _ & ->)]]]; [done|done|done|].
  unfold escape_quotes. cbn. case_decide; [done|]. cbn. congruence.
Qed.

Lemma bare_step c rest :
  head rest <> Some dquote ->
  bare_dquotes (escape_quotes (json_unit c) ++ rest) = printed_unit c ++ bare_dquotes rest.
Proof.
  intros Hr. unfold printed_unit.
  destruct (json_unit_cases c) as [(-> & ->)|[(d & E & Hq & Hd & Hin)|[(Hc & E)|(Hc & Hd & Hb & E)]]].
  - rewrite decide_True by done. done.
  - assert (c <> dquote /\ c <> quote) as [H1 H2] by set_solver. rewrite !decide_False, E by done.
    unfold escape_quotes. cbn [map concat app]. rewrite !decide_False by done. cbn [app].
    rewrite bare_cons by (right; cbn; congruence). by rewrite bare_cons by (by right).
  - assert (c <> dquote /\ c <> quote) as [H1 H2] by (unfold dquote, quote; lia). rewrite !decide_False, E by done.
    pose proof (hex_char_plain (c / 16) ltac:(apply N.Div0.div_lt_upper_bound; lia)) as P1.
    pose proof (hex_char_plain (c mod 16) ltac:(apply N.mod_lt; lia)) as P2.
    unfold escape_quotes. set (a := hex_char (c / 16)) in *. set (b := hex_char (c mod 16)) in *. clearbody a b.
    change («"\u00"») with [92; 117; 48; 48]%N. cbn [map concat app].
    rewrite !decide_False by (unfold quote; lia). cbn [app].
    rewrite bare_cons by (by right). do 3 (rewrite bare_cons by (by left)).
    by rewrite !bare_cons by (left; unfold backslash; lia).
  - rewrite E, decide_False by done. unfold escape_quotes. cbn [map concat app]. destruct (decide (c = quote)) as [->|Hq].
    + cbn [app]. rewrite bare_cons by (by right). by rewrite bare_cons by (by left).
    + cbn [app]. by rewrite bare_cons by (by left).
Qed.

Lemma printed_body s :
  bare_dquotes (escape_quotes (replace_ends [] (json_string s))) = concat (map printed_unit s).
Proof.
  rewrite replace_ends_json. induction s as [|c s IH]; [done|]. cbn [map concat]. rewrite escape_quotes_app, bare_step, IH; [done|].
  destruct s as [|d s]; [done|]. cbn [map concat]. rewrite escape_quotes_app. apply unit_head.
Qed.

Lemma literal_value_unit c s : literal_value (printed_unit c ++ s) = cons c <$> literal_value s.
Proof.
  unfold printed_unit. destruct (decide (c = dquote)) as [->|Hd]; [done|].
  destruct (decide (c = quote)) as [->|Hq]; [done|].
  destruct (json_unit_cases c) as [(-> & _)|[(d & E & _ & _ & Hin)|[(Hc & E)|(Hc & _ & Hb & E)]]]; [done| | |].
  - rewrite E. repeat (apply elem_of_cons in Hin as [[= -> ->]|Hin]; [done|]). by apply elem_of_nil in Hin.
  - rewrite E. change («"\u00"») with [92; 117; 48; 48]%N. cbn [app].
    pose proof (hex_digit_char (c / 16) ltac:(apply N.Div0.div_lt_upper_bound; lia)) as P1.
    pose proof (hex_digit_char (c mod 16) ltac:(apply N.mod_lt; lia)) as P2.
    set (a := hex_char (c / 16)) in *. set (b := hex_char (c mod 16)) in *. clearbody a b.
    transitivity (y ← hex_digit a; z ← hex_digit b; cons (((0 * 16 + 0) * 16 + y) * 16 + z)%N <$> literal_value s); [done|].
    rewrite P1, P2. cbn [mbind option_bind].
    replace (((0 * 16 + 0) * 16 + c / 16) * 16 + c mod 16)%N with c; [done|].
    pose proof (N.div_mod c 16 ltac:(done)). lia.
  - rewrite E. cbn [app literal_value]. rewrite decide_False; [|unfold quote in *; lia]. by rewrite decide_False.
Qed.

(** [util.inspect] prints a string as a literal in single quotes whose value
    is the string, whatever quotes, backslashes, control characters and line
    ends it contains. *)
Theorem inspect_string_literal h fn et ut ei on ac hv cu fuel (opts : inspect_options) (s : jsstr) :
  colors (context_of opts) = false ->
  exists body, inspect h fn et ut ei on ac hv cu (S fuel) (Str s) opts = Text ([quote] ++ body ++ [quote]) /\
    literal_value body = Some s.
Proof.
  intros Hc. unfold inspect. cbn [formatValue formatPrimitive]. unfold stylize. rewrite Hc.
  eexists. split; [reflexivity|]. rewrite printed_body.
  induction s as [|c s IH]; [done|]. cbn [map concat]. by rewrite literal_value_unit, IH.
Qed.

Lemma inspect_string_literal_witness :
  exists body, inspect [] (fun _ => []) (fun _ => []) (fun _ => []) (fun _ => false) (fun _ => []) (fun _ _ => None)
      (fun _ _ => Undefined) (fun _ _ => None) 1 (Str [39; 34; 92; 10; 27; 97]%N) NoOptions = Text ([quote] ++ body ++ [quote]) /\
    literal_value body = Some [39; 34; 92; 10; 27; 97]%N.
Proof. by apply inspect_string_literal. Defined.

(** A key that ends in a backslash is printed as a literal that does not end:
    here the double quotes are still in place when they are unescaped. *)
Example key_not_a_literal :
  property_name stylizeNoColor [97; 92]%N = [39; 97; 92; 39]%N /\ literal_value [97; 92]%N = None.
Proof. by vm_compute. Qed.
