(* ===== verification/UtilProps.v ===== *)
(** * Properties of util.inspect

    It ends on every object graph, cyclic or not; and its colours do not change
    the layout. *)

From S2P Require Import Prelude JsHeap Util.

Section Inspect.
Variable h : heap.
Variable fn_name : nat -> jsstr.
Variable error_text : nat -> jsstr.
Variable utc_text : nat -> jsstr.
Variable error_instance : nat -> bool.
Variable own_names : nat -> list jsstr.
Variable accessor : nat -> jsstr -> option (bool * bool).
Variable hidden_value : nat -> jsstr -> val.
Variable custom : nat -> option Z -> option val.

Let fmt := formatValue h fn_name error_text utc_text error_instance own_names accessor hidden_value custom.
Let prop := formatProperty h accessor hidden_value.

(** Methods [inspect] that return strings. *)
Definition custom_strings : Prop := forall l r v, custom l r = Some v -> exists s, v = Str s.

(** ** It ends *)

Lemma all_printed_None l : all_printed l = None -> OutOfFuel ∈ l.
Proof.
  induction l as [|[s|] l IH]; cbn; [done| |by left]. intros H. right. apply IH. by destruct (all_printed l).
Qed.

Definition is_seen (seen : list val) (v : val) : bool := existsb (fun x => strict_eq x v) seen.

Lemma formatProperty_ends format ctx seen l rt vis key array :
  (is_seen seen (value_of h hidden_value l key) = false -> format (value_of h hidden_value l key) (Z.pred <$> rt) <> OutOfFuel) ->
  prop format ctx seen l rt vis key array <> OutOfFuel.
Proof.
  intros Hf. unfold prop, formatProperty, property_text. fold (is_seen seen (value_of h hidden_value l key)).
  destruct (is_seen seen (value_of h hidden_value l key));
    [|specialize (Hf eq_refl); destruct (format _ _)]; repeat (case_match; try done).
Qed.

(** The objects on the stack: of the store, and none twice. *)
Definition stack_ok (seen : list val) : Prop :=
  NoDup seen /\ Forall (fun v => exists l, v = Ref l /\ l < length h) seen.

Lemma stack_length seen : stack_ok seen -> length seen <= length h.
Proof.
  intros [Hnd Hall]. assert (seen ⊆+ map Ref (seq 0 (length h))) as Hsub.
  { apply NoDup_submseteq; [done|]. intros v Hv. rewrite Forall_forall in Hall. destruct (Hall v Hv) as (l & -> & Hl).
    apply list_elem_of_fmap. exists l. split; [done|]. apply elem_of_seq. lia. }
  apply submseteq_length in Hsub. by rewrite length_map, length_seq in Hsub.
Qed.

Lemma stack_push seen l : stack_ok seen -> is_seen seen (Ref l) = false -> l < length h -> stack_ok (Ref l :: seen).
Proof.
  intros [Hnd Hall] Hs Hl. split; [|constructor; eauto]. apply NoDup_cons. split; [|done]. intros Hin.
  assert (is_seen seen (Ref l) = true) as E; [|congruence]. apply existsb_exists. exists (Ref l).
  split; [by apply list_elem_of_In|]. cbn. by apply bool_decide_true.
Qed.

(** Fuel for the stack or for the depth. *)
Definition fuel_ok (fuel : nat) (seen : list val) (rt : option Z) : Prop :=
  length h + 2 <= fuel + length seen \/ exists d, rt = Some d /\ Z.to_nat (d + 1) + 1 <= fuel.

Lemma fuel_ok_next fuel seen l rt :
  fuel_ok (S fuel) seen rt -> negative rt = false -> fuel_ok fuel (Ref l :: seen) (Z.pred <$> rt).
Proof.
  intros [H|(d & -> & H)] Hn; [left; cbn [length] in *; lia|]. right. exists (Z.pred d). split; [done|].
  cbn in Hn. apply Z.ltb_ge in Hn. replace (Z.to_nat (d + 1)) with (S (Z.to_nat d)) in H by lia.
  replace (Z.pred d + 1)%Z with d by lia. lia.
Qed.

Lemma formatValue_ends fuel ctx seen value rt :
  custom_strings -> stack_ok seen -> is_seen seen value = false -> fuel_ok fuel seen rt -> fmt fuel ctx seen value rt <> OutOfFuel.
Proof.
  intros Hcu. revert seen value rt. induction fuel as [|fuel IH]; intros seen value rt Hst Hseen Hf.
  { apply stack_length in Hst. destruct Hf as [Hf|(d & _ & Hf)]; lia. }
  unfold fmt. cbn [formatValue].
  destruct (match value with Ref l => _ | _ => None end) as [v|] eqn:Ec.
  { destruct value as [| | | | |l]; try done. destruct (customInspect ctx); [|done]. destruct (Hcu _ _ _ Ec) as [s ->]. done. }
  destruct (formatPrimitive ctx value) eqn:Ep; [done|]. destruct value as [| | | | |l]; try done.
  set (keys := if showHidden ctx then own_names l else keys_of h l).
  destruct (isError _ _ _ && _); [done|]. destruct (if decide (keys = []) then _ else None); [done|].
  destruct (decide (keys = [] /\ _)); [done|].
  destruct (negative rt) eqn:En; [done|].
  pose proof (fuel_ok_next fuel seen l rt Hf En) as Hf'.
  match goal with |- match all_printed ?m with _ => _ end <> _ => destruct (all_printed m) eqn:Ea; [done|] end.
  exfalso. apply all_printed_None, list_elem_of_fmap in Ea as (key & Ek & _). symmetry in Ek. revert Ek.
  apply formatProperty_ends. intros Hns.
  destruct (decide (l < length h)) as [Hl|Hl]; [apply IH; [by apply stack_push|done|done]|].
  assert (value_of h hidden_value l key = Undefined) as ->.
  { unfold value_of. destruct (h !! l) eqn:E; [|done]. apply lookup_lt_Some in E. lia. }
  destruct fuel as [|fuel]; [|done]. apply stack_length in Hst. cbn [length] in Hf'.
  destruct Hf' as [Hf'|(d & _ & Hf')]; [cbn [length] in Hf'; lia|lia].
Qed.

(** ** More fuel changes nothing *)

Lemma all_printed_mono {A} (f g : A -> printed) l out :
  (forall x s, f x = Text s -> g x = Text s) -> all_printed (map f l) = Some out -> all_printed (map g l) = Some out.
Proof.
  intros Hfg. revert out. induction l as [|x l IH]; intros out; cbn; [done|].
  destruct (f x) as [s|] eqn:E; [|done]. rewrite (Hfg x s E). destruct (all_printed (map f l)) as [o|]; [|done].
  cbn. intros [= <-]. by rewrite (IH o eq_refl).
Qed.

Lemma formatProperty_mono f g ctx seen l rt vis key array s :
  (forall v r s, f v r = Text s -> g v r = Text s) ->
  prop f ctx seen l rt vis key array = Text s -> prop g ctx seen l rt vis key array = Text s.
Proof.
  intros Hfg. unfold prop, formatProperty, property_text. fold (is_seen seen (value_of h hidden_value l key)).
  destruct (is_seen seen (value_of h hidden_value l key)); [done|].
  destruct (f (value_of h hidden_value l key) (Z.pred <$> rt)) as [t|] eqn:E.
  - by rewrite (Hfg _ _ _ E).
  - destruct (accessor l key) as [[[] []]|]; done.
Qed.

Lemma formatValue_mono n m ctx seen value rt s :
  n <= m -> fmt n ctx seen value rt = Text s -> fmt m ctx seen value rt = Text s.
Proof.
  revert m seen value rt s. induction n as [|n IH]; intros [|m] seen value rt s Hm; try done; try lia.
  unfold fmt. cbn [formatValue].
  destruct (match value with Ref l => _ | _ => None end) as [v|] eqn:Ec.
  { destruct v; try done; intros H; apply (IH m); (lia || done). }
  destruct (formatPrimitive ctx value); [done|]. destruct value as [| | | | |l]; try done.
  set (keys := if showHidden ctx then own_names l else keys_of h l).
  destruct (isError _ _ _ && _); [done|]. destruct (if decide (keys = []) then _ else None); [done|].
  destruct (decide (keys = [] /\ _)); [done|]. destruct (negative rt); [done|].
  match goal with |- match all_printed ?x with _ => _ end = _ -> _ => destruct (all_printed x) as [out|] eqn:Ea; [|done] end.
  erewrite all_printed_mono; [done| |exact Ea]. intros key t. apply formatProperty_mono.
  intros v r t'. apply IH. lia.
Qed.

(** C36. [util.inspect] ends on every graph of objects whose [inspect] methods, if
    there are any, return strings, cyclic or not, also without a limit to the
    depth: calls of [formatValue] nest no deeper than the number of objects and
    two more, nor than the depth asked for and two more, and with room for either
    the text is the same.  (How many calls are made in all is not bounded by the
    number of objects: what is shared is printed each time it is met.)  An
    [inspect] method that returns its own object makes it go on for ever:
    [own_inspect_endless]. *)
Theorem inspect_ends (obj : val) (opts : inspect_options) :
  custom_strings ->
  exists s, forall fuel,
    (length h + 2 <= fuel \/ exists d, depth (context_of opts) = Some d /\ Z.to_nat (d + 1) + 1 <= fuel) ->
    inspect h fn_name error_text utc_text error_instance own_names accessor hidden_value custom fuel obj opts = Text s.
Proof.
  intros Hcu. unfold inspect. set (ctx := context_of opts). set (rt := depth ctx).
  assert (forall fuel, fuel_ok fuel [] rt -> exists s, fmt fuel ctx [] obj rt = Text s) as Hends.
  { intros fuel Hf. pose proof (formatValue_ends fuel ctx [] obj rt Hcu) as He.
    destruct (fmt fuel ctx [] obj rt) as [s|]; [by exists s|]. exfalso. apply He; [by split; constructor|done|done|done]. }
  destruct (Hends (length h + 2)) as [s Hs]; [left; cbn; lia|].
  exists s. intros fuel Hf. destruct (Hends fuel) as [t Ht].
  { destruct Hf as [Hf|Hf]; [left; cbn; lia|by right]. }
  fold (fmt fuel ctx [] obj rt). rewrite Ht. f_equal.
  apply (formatValue_mono _ (fuel + (length h + 2))) in Ht; [|lia].
  apply (formatValue_mono _ (fuel + (length h + 2))) in Hs; [|lia]. congruence.
Qed.
End Inspect.

(** Two objects that hold each other, printed without a limit to the depth. *)
Definition ring : heap := [plain [(«"next"», Ref 1); («"n"», Num (Int 1))]; plain [(«"next"», Ref 0); («"l"», Ref 2)]; array [Bool true; Str «"x"»]].

Definition show (fuel : nat) (obj : val) (opts : inspect_options) : printed :=
  inspect ring (fun _ => []) (fun _ => []) (fun _ => []) (fun _ => false) (fun _ => []) (fun _ _ => None)
    (fun _ _ => Undefined) (fun _ _ => None) fuel obj opts.

Lemma inspect_ends_witness :
  exists s, forall fuel,
    (length ring + 2 <= fuel \/ exists d, depth (context_of (Given None (Some None) None None)) = Some d /\ Z.to_nat (d + 1) + 1 <= fuel) ->
    show fuel (Ref 0) (Given None (Some None) None None) = Text s.
Proof. apply inspect_ends. by intros l r v. Defined.

Example ring_text :
  show 5 (Ref 0) (Given None (Some None) None None) =
  Text «"{ next: { next: [Circular], l: [ true, 'x' ] }, n: 1 }"» /\
  show 5 (Ref 0) (Given None (Some (Some 0%Z)) None None) = Text «"{ next: [Object], n: 1 }"».
Proof. by vm_compute. Qed.

(** An [inspect] method that returns the object itself. *)
Lemma own_inspect_endless fuel ctx seen rt : customInspect ctx = true ->
  formatValue ring (fun _ => []) (fun _ => []) (fun _ => []) (fun _ => false) (fun _ => []) (fun _ _ => None)
    (fun _ _ => Undefined) (fun l _ => Some (Ref l)) fuel ctx seen (Ref 0) rt = OutOfFuel.
Proof. intros Hc. induction fuel as [|fuel IH]; [done|]. cbn [formatValue]. by rewrite Hc. Qed.

(** ** Colours *)

(** The codes that switch colours on and off. *)
Definition is_code (k : jsstr) : Prop :=
  exists ds, k = [esc; 91%N] ++ ds ++ [109%N] /\ forallb is_digit ds = true /\ (length ds = 1 \/ length ds = 2).

(** [s] is [t] with codes in it. *)
Inductive painted : jsstr -> jsstr -> Prop :=
  | painted_nil : painted [] []
  | painted_char c s t : c <> esc -> painted s t -> painted (c :: s) (c :: t)
  | painted_code k s t : is_code k -> painted s t -> painted (k ++ s) t.

Lemma painted_app s1 t1 s2 t2 : painted s1 t1 -> painted s2 t2 -> painted (s1 ++ s2) (t1 ++ t2).
Proof.
  intros H1 H2. induction H1; cbn [app]; [done|by constructor|]. rewrite <- app_assoc. by constructor.
Qed.

Lemma painted_refl s : esc ∉ s -> painted s s.
Proof.
  induction s as [|c s IH]; intros Hs; [constructor|]. apply not_elem_of_cons in Hs as [Hc Hs].
  constructor; [congruence|by apply IH].
Qed.

Lemma painted_clean s t : painted s t -> esc ∉ t.
Proof. induction 1; [by apply not_elem_of_nil| |done]. apply not_elem_of_cons. split; [congruence|done]. Qed.

Lemma code_length_code k s : is_code k -> code_length (k ++ s) = length k /\ 0 < length k.
Proof.
  intros (ds & -> & Hd & Hl). destruct ds as [|a [|b [|]]]; cbn in Hl; try lia; cbn in Hd;
    rewrite ?andb_true_r in Hd; cbn [app length code_length]; rewrite bool_decide_true by done; cbn [andb].
  - rewrite Hd. rewrite decide_True by done. lia.
  - apply andb_true_iff in Hd as [-> Hb]. rewrite decide_False.
    + rewrite Hb. rewrite bool_decide_true by done. cbn. lia.
    + intros ->. done.
Qed.

Lemma strip_skip k s : strip_codes (length k) (k ++ s) = strip_codes 0 s.
Proof. induction k as [|c k IH]; [done|]. cbn [length app strip_codes]. done. Qed.

Lemma strip_painted s t : painted s t -> strip_codes 0 s = t.
Proof.
  induction 1 as [|c s t Hc _ IH|k s t Hk _ IH]; [done| |].
  - cbn [strip_codes]. assert (code_length (c :: s) = 0) as ->; [|by rewrite IH].
    unfold code_length. destruct s as [|b [|d rest]]; [done|done|].
    rewrite bool_decide_false by naive_solver. done.
  - destruct (code_length_code k s Hk) as [E Hl]. destruct k as [|c k]; [cbn in Hl; lia|]. cbn [app] in *.
    cbn [strip_codes]. rewrite E. cbn [length]. by rewrite strip_skip.
Qed.

Lemma strip_clean t : esc ∉ t -> strip_codes 0 t = t.
Proof. intros Ht. by apply strip_painted, painted_refl. Qed.

Lemma code_no_newline k : is_code k -> newline ∉ k.
Proof.
  intros (ds & -> & Hd & _). rewrite !elem_of_app. intros [H|[H|H]].
  - rewrite !elem_of_cons in H. destruct H as [H|[H|H]]; [done|done|by apply elem_of_nil in H].
  - rewrite forallb_Forall, Forall_forall in Hd. specialize (Hd newline H). done.
  - by apply list_elem_of_singleton in H.
Qed.

Lemma painted_newline s t : painted s t -> has_newline s = has_newline t.
Proof.
  intros H. unfold has_newline. apply bool_decide_ext. induction H as [|c s t Hc _ IH|k s t Hk _ IH]; [done| |].
  - by rewrite !elem_of_cons, IH.
  - rewrite elem_of_app, IH. pose proof (code_no_newline k Hk). naive_solver.
Qed.

(** Splitting at newlines, which no code contains. *)
Lemma split_on_prefix c k s : c ∉ k -> split_on c (k ++ s) =
  match split_on c s with w :: ws => (k ++ w) :: ws | [] => [k ++ s] end.
Proof.
  intros Hk. induction k as [|d k IH]; cbn [app split_on]; [pose proof (split_on_nonempty c s); by destruct (split_on c s)|].
  apply not_elem_of_cons in Hk as [Hd Hk]. rewrite decide_False by congruence. rewrite IH by done.
  pose proof (split_on_nonempty c s). by destruct (split_on c s).
Qed.

Lemma painted_lines s t : painted s t -> Forall2 painted (split_on newline s) (split_on newline t).
Proof.
  induction 1 as [|c s t Hc _ IH|k s t Hk _ IH].
  - repeat constructor.
  - cbn [split_on]. case_decide; [by repeat constructor|]. destruct IH as [|w w' ws ws' Hw Hws]; repeat constructor; done.
  - rewrite split_on_prefix by (by apply code_no_newline). pose proof (split_on_nonempty newline t) as Hne.
    destruct IH as [|w w' ws ws' Hw Hws]; [done|]. constructor; [by constructor|done].
Qed.

Lemma painted_join sep ss ts : esc ∉ sep -> Forall2 painted ss ts -> painted (join sep ss) (join sep ts).
Proof.
  intros Hsep. induction 1 as [|s t ss ts Hs Hss IH]; [constructor|].
  destruct Hss as [|s2 t2 ss ts Hs2 Hss]; [done|]. rewrite !join_cons.
  apply painted_app; [done|]. apply painted_app; [by apply painted_refl|done].
Qed.

Lemma painted_indent pad s t : esc ∉ pad -> painted s t -> painted (indent pad s) (indent pad t).
Proof.
  intros Hp Hs. unfold indent. apply painted_join; [by rewrite list_elem_of_singleton|].
  apply painted_lines in Hs. induction Hs; constructor; [|done]. apply painted_app; [by apply painted_refl|done].
Qed.

(** What is cut off an indented text is the indentation. *)
Lemma indent_prefix pad s : exists r, indent pad s = pad ++ r /\ drop (length pad) (indent pad s) = r.
Proof.
  assert (exists r, indent pad s = pad ++ r) as [r E].
  { unfold indent. pose proof (split_on_nonempty newline s). destruct (split_on newline s) as [|w [|w2 ws]]; [done| |].
    - by exists w.
    - eexists. cbn [map]. rewrite join_cons, <- app_assoc. reflexivity. }
  exists r. split; [done|]. by rewrite E, drop_app_length.
Qed.

Lemma painted_drop n s t : esc ∉ take n s -> n <= length s -> painted s t -> painted (drop n s) (drop n t).
Proof.
  intros Hc Hn Hp. revert n Hc Hn. induction Hp as [|c s t He Hp IH|k s t Hk Hp IH]; intros n Hc Hn.
  - rewrite !drop_nil. constructor.
  - destruct n as [|n]; [by constructor|]. cbn [drop take length] in *. apply not_elem_of_cons in Hc as [_ Hc].
    apply IH; [done|lia].
  - destruct Hk as (ds & -> & Hd & Hl). destruct n as [|n].
    + rewrite !drop_0. constructor; [by exists ds|]. done.
    + exfalso. apply Hc. cbn [app take]. by left.
Qed.

Lemma painted_stylize s st : esc ∉ s -> painted (stylizeWithColor s st) s.
Proof.
  intros Hs. unfold stylizeWithColor.
  assert (forall on off, is_code ([esc; 91%N] ++ on ++ [109%N]) -> is_code ([esc; 91%N] ++ off ++ [109%N]) ->
    painted ([esc] ++ «"["» ++ on ++ «"m"» ++ s ++ [esc] ++ «"["» ++ off ++ «"m"») s) as H.
  { intros on off H1 H2.
    replace ([esc] ++ «"["» ++ on ++ «"m"» ++ s ++ [esc] ++ «"["» ++ off ++ «"m"») with
      (([esc; 91%N] ++ on ++ [109%N]) ++ (s ++ (([esc; 91%N] ++ off ++ [109%N]) ++ [])))
      by (rewrite app_nil_r, <- !app_assoc; done).
    constructor; [done|]. rewrite <- (app_nil_r s) at 2. apply painted_app; [by apply painted_refl|]. constructor; [done|constructor]. }
  destruct st; cbn [color]; try (apply H; (eexists; split; [reflexivity|]; split; [done|cbn; lia])).
  by apply painted_refl.
Qed.

Lemma painted_total ss ts : Forall2 painted ss ts -> total_length ss = total_length ts.
Proof.
  intros Hs. unfold total_length. set (f := fun prev cur => prev + length (strip_codes 0 cur) + 1).
  enough (forall n, foldl f n ss = foldl f n ts) as Hf by apply Hf.
  induction Hs as [|s t ss ts Hs _ IH]; intros n; [done|]. cbn [foldl]. unfold f at 2 4. rewrite (strip_painted s t Hs), (strip_clean t) by (by eapply painted_clean). apply IH.
Qed.

(** Texts without the escape character. *)
Ltac clean := solve [done | refine (bool_decide_unpack _ _); vm_compute; exact I].

Lemma painted_reduce ss ts base braces :
  esc ∉ base -> esc ∉ braces.1 -> esc ∉ braces.2 -> Forall2 painted ss ts ->
  painted (reduceToSingleString ss base braces) (reduceToSingleString ts base braces).
Proof.
  intros Hb H1 H2 Hs. unfold reduceToSingleString. rewrite (painted_total ss ts Hs).
  assert (esc ∉ (if decide (base = []) then [] else base ++ [newline] ++ «" "»)) as Hb2.
  { case_decide; [apply not_elem_of_nil|]. rewrite not_elem_of_app. split; [done|clean]. }
  destruct (decide (60 < total_length ts)); repeat apply painted_app; first [by apply painted_refl|apply painted_refl; clean|apply painted_join; [clean|done]].
Qed.

(** Texts that the printer makes itself have no escape character. *)
Lemma json_unit_clean c : esc ∉ json_unit c.
Proof.
  destruct (json_unit_cases c) as [(_ & ->)|[(d & -> & _ & _ & Hin)|[(Hc & ->)|(Hc & _ & _ & ->)]]].
  - clean.
  - repeat (apply elem_of_cons in Hin as [[= -> ->]|Hin]; [clean|]). by apply elem_of_nil in Hin.
  - pose proof (hex_char_plain (c / 16) ltac:(apply N.Div0.div_lt_upper_bound; lia)) as P1.
    pose proof (hex_char_plain (c mod 16) ltac:(apply N.mod_lt; lia)) as P2.
    rewrite not_elem_of_app. split; [clean|]. rewrite !not_elem_of_cons. unfold esc.
    split_and!; [lia|lia|apply not_elem_of_nil].
  - rewrite list_elem_of_singleton. unfold esc. lia.
Qed.

Lemma json_string_clean s : esc ∉ json_string s.
Proof.
  unfold json_string. rewrite !not_elem_of_app. split_and!; [clean| |clean].
  induction s as [|c s IH]; [apply not_elem_of_nil|]. cbn [map concat]. rewrite not_elem_of_app. split; [apply json_unit_clean|done].
Qed.

Lemma escape_quotes_clean s : esc ∉ s -> esc ∉ escape_quotes s.
Proof.
  intros Hs. unfold escape_quotes. induction s as [|c s IH]; [done|]. apply not_elem_of_cons in Hs as [Hc Hs].
  cbn [map concat]. rewrite not_elem_of_app. split; [|by apply IH]. case_decide; [clean|]. by rewrite list_elem_of_singleton.
Qed.

Lemma bare_dquotes_clean s : esc ∉ s -> esc ∉ bare_dquotes s.
Proof.
  assert (forall n s, length s <= n -> esc ∉ s -> esc ∉ bare_dquotes s) as H; [|by apply (H (length s))].
  clear s. intros n. induction n as [|n IH]; intros [|c [|d s]] Hn Hs; try done; [cbn in Hn; lia|].
  cbn [length] in Hn. apply not_elem_of_cons in Hs as [Hc Hs]. cbn [bare_dquotes]. case_decide.
  - apply not_elem_of_cons. split; [clean|]. apply IH; [lia|]. by apply not_elem_of_cons in Hs as [_ Hs].
  - apply not_elem_of_cons. split; [done|]. apply (IH (d :: s)); [cbn; lia|done].
Qed.

Lemma take_clean n (s : jsstr) : esc ∉ s -> esc ∉ take n s.
Proof. intros Hs Hin. apply elem_of_take in Hin as (i & Hi & _). apply Hs. by eapply list_elem_of_lookup_2. Qed.

Lemma drop_clean n (s : jsstr) : esc ∉ s -> esc ∉ drop n s.
Proof. intros Hs Hin. apply Hs. rewrite <- (take_drop n s), elem_of_app. by right. Qed.

Lemma replace_ends_clean b s : esc ∉ b -> esc ∉ s -> esc ∉ replace_ends b s.
Proof.
  intros Hb Hs. unfold replace_ends.
  set (s1 := match s with c :: s' => if decide (c = dquote) then b ++ s' else s | [] => [] end).
  assert (esc ∉ s1) as H1.
  { unfold s1. destruct s as [|c s]; [done|]. case_decide; [|done]. apply not_elem_of_cons in Hs as [_ Hs]. by rewrite not_elem_of_app. }
  destruct (last s1); [|done]. case_decide; [|done]. rewrite not_elem_of_app. split; [by apply take_clean|done].
Qed.

Lemma num_text_clean x : esc ∉ num_text x.
Proof.
  destruct x as [| |[]|z]; [clean..|]. unfold num_text, int_text. pose proof (pretty_chars z) as Hz. rewrite Forall_forall in Hz.
  intros Hin. destruct (Hz _ Hin) as [H|H]; unfold esc in H; lia.
Qed.

Lemma property_name_painted k : painted (property_name stylizeWithColor k) (property_name stylizeNoColor k).
Proof.
  unfold property_name. pose proof (json_string_clean k) as Hj.
  case_match; unfold stylizeNoColor; apply painted_stylize.
  - by apply take_clean, drop_clean.
  - apply replace_ends_clean; [clean|]. by apply bare_dquotes_clean, escape_quotes_clean.
Qed.

Section Colours.
Variable h : heap.
Variable fn_name : nat -> jsstr.
Variable error_text : nat -> jsstr.
Variable utc_text : nat -> jsstr.
Variable error_instance : nat -> bool.
Variable own_names : nat -> list jsstr.
Variable accessor : nat -> jsstr -> option (bool * bool).
Variable hidden_value : nat -> jsstr -> val.
Variable custom : nat -> option Z -> option val.

Let fmt := formatValue h fn_name error_text utc_text error_instance own_names accessor hidden_value custom.
Let prop := formatProperty h accessor hidden_value.

(** Names and texts that come from outside have no escape character. *)
Record clean_texts : Prop := CleanTexts {
  clean_fn l : esc ∉ fn_name l;
  clean_error l : esc ∉ error_text l;
  clean_utc l : esc ∉ utc_text l;
  clean_object l : esc ∉ object_text h l;
  clean_keys l : Forall (fun k => esc ∉ k) (keys_of h l ++ own_names l);
  clean_custom l r s : custom l r = Some (Str s) -> esc ∉ s
}.
Hypothesis all_clean : clean_texts.

Definition painted_result (r r' : printed) : Prop :=
  match r, r' with Text s, Text t => painted s t | OutOfFuel, OutOfFuel => True | _, _ => False end.

Definition plain_context (ctx : context) : context := Context (showHidden ctx) (depth ctx) false (customInspect ctx).

Variable ctx : context.
Hypothesis coloured : colors ctx = true.

Lemma stylize_painted s st : esc ∉ s -> painted (stylize ctx s st) (stylize (plain_context ctx) s st).
Proof. intros Hs. unfold stylize. rewrite coloured. cbn. by apply painted_stylize. Qed.

Lemma formatPrimitive_painted v :
  match formatPrimitive ctx v, formatPrimitive (plain_context ctx) v with
  | Some s, Some t => painted s t
  | None, None => True
  | _, _ => False
  end.
Proof.
  destruct v as [| |[]|x|s|l]; cbn [formatPrimitive]; try done; apply stylize_painted; try clean; [apply num_text_clean|].
  rewrite !not_elem_of_app. split_and!; [clean| |clean].
  apply bare_dquotes_clean, escape_quotes_clean, replace_ends_clean; [apply not_elem_of_nil|apply json_string_clean].
Qed.

Lemma fn_label_clean l : esc ∉ fn_label fn_name l.
Proof.
  unfold fn_label. rewrite !not_elem_of_app. split_and!; [clean| |clean]. case_decide; [apply not_elem_of_nil|].
  rewrite not_elem_of_app. split; [clean|]. apply (clean_fn all_clean).
Qed.

Lemma formatError_clean l : esc ∉ formatError error_text l.
Proof. unfold formatError. rewrite !not_elem_of_app. split_and!; [clean|apply (clean_error all_clean)|clean]. Qed.

Lemma base_clean l : esc ∉ base_of h fn_name error_text utc_text error_instance l.
Proof.
  unfold base_of.
  repeat case_match; rewrite ?not_elem_of_app; try (split; [clean|]);
    first [apply fn_label_clean|apply formatError_clean|apply (clean_object all_clean)|apply (clean_utc all_clean)|apply not_elem_of_nil].
Qed.

Lemma no_keys_painted l :
  match no_keys_text h fn_name error_text error_instance ctx l, no_keys_text h fn_name error_text error_instance (plain_context ctx) l with
  | Some s, Some t => painted s t
  | None, None => True
  | _, _ => False
  end.
Proof.
  unfold no_keys_text. repeat case_match; simplify_eq; try done;
    first [apply stylize_painted, fn_label_clean|apply stylize_painted, (clean_object all_clean)|apply painted_refl, formatError_clean].
Qed.

Lemma property_line_painted vis key array s t :
  esc ∉ key -> painted s t -> painted (property_line ctx vis key array s) (property_line (plain_context ctx) vis key array t).
Proof.
  intros Hkey Hst. unfold property_line.
  assert (painted («": "» ++ s) («": "» ++ t)) as Hst2 by (apply painted_app; [apply painted_refl; clean|done]).
  repeat case_match; [done| |].
  - apply painted_app; [|done]. unfold stylize. rewrite coloured. apply property_name_painted.
  - do 3 (apply painted_app; [apply painted_refl; clean|]). done.
Qed.

Lemma property_text_painted f g seen l rt key array :
  (forall v r, painted_result (f v r) (g v r)) ->
  painted_result (property_text h accessor hidden_value f ctx seen l rt key array)
    (property_text h accessor hidden_value g (plain_context ctx) seen l rt key array).
Proof.
  intros Hfg. unfold property_text. specialize (Hfg (value_of h hidden_value l key) (Z.pred <$> rt)).
  set (v := value_of h hidden_value l key) in *.
  assert (painted_result
    match f v (Z.pred <$> rt) with
    | OutOfFuel => OutOfFuel
    | Text str => Text (if has_newline str then if array then drop 2 (indent «"  "» str) else [newline] ++ indent «"   "» str else str)
    end
    match g v (Z.pred <$> rt) with
    | OutOfFuel => OutOfFuel
    | Text str => Text (if has_newline str then if array then drop 2 (indent «"  "» str) else [newline] ++ indent «"   "» str else str)
    end) as Hdata.
  { destruct (f _ _) as [s|], (g _ _) as [t|]; try done. cbn [painted_result] in Hfg |- *. rewrite (painted_newline s t Hfg).
    destruct (has_newline t); [|done]. destruct array.
    - destruct (indent_prefix «"  "» s) as (r & Er & _). apply painted_drop; [|rewrite Er; cbn; lia|by apply painted_indent; [clean|]].
      rewrite Er. clean.
    - apply (painted_app [newline] [newline]); [apply painted_refl; clean|]. by apply painted_indent; [clean|]. }
  destruct (accessor l key) as [[[] []]|]; try (apply stylize_painted; clean);
    (destruct (existsb _ seen); [apply stylize_painted; clean|exact Hdata]).
Qed.

Lemma formatProperty_painted f g seen l rt vis key array :
  (forall v r, painted_result (f v r) (g v r)) -> esc ∉ key ->
  painted_result (prop f ctx seen l rt vis key array) (prop g (plain_context ctx) seen l rt vis key array).
Proof.
  intros Hfg Hkey. pose proof (property_text_painted f g seen l rt key array Hfg) as Ht. unfold prop, formatProperty.
  destruct (property_text _ _ _ f _ _ _ _ _ _), (property_text _ _ _ g _ _ _ _ _ _); try done. by apply property_line_painted.
Qed.

Lemma all_printed_painted {A} (f g : A -> printed) l :
  (forall x, x ∈ l -> painted_result (f x) (g x)) ->
  match all_printed (map f l), all_printed (map g l) with
  | Some ss, Some ts => Forall2 painted ss ts
  | None, None => True
  | _, _ => False
  end.
Proof.
  induction l as [|x l IH]; intros Hfg; cbn [map all_printed]; [constructor|].
  pose proof (Hfg x ltac:(by left)) as Hx. specialize (IH ltac:(intros y Hy; apply Hfg; by right)).
  destruct (f x), (g x); try done. destruct (all_printed (map f l)), (all_printed (map g l)); try done. cbn. by constructor.
Qed.

Lemma array_keys_clean l keys : Forall (fun k => esc ∉ k) keys -> Forall (fun k => esc ∉ k) (array_keys h l keys).
Proof.
  intros Hk. apply Forall_app. split.
  - apply Forall_forall. intros k Hin. apply elem_of_lookup_imap in Hin as (i & x & -> & _).
    intros Hin. pose proof (pretty_chars (Z.of_nat i)) as Hz. rewrite Forall_forall in Hz.
    destruct (Hz esc) as [H|H]; [|unfold esc in H; lia..]. unfold index_key in Hin. by destruct i.
  - apply Forall_forall. intros k [_ Hin]%list_elem_of_filter. rewrite Forall_forall in Hk. by apply Hk.
Qed.

Lemma formatValue_painted fuel seen v rt :
  painted_result (fmt fuel ctx seen v rt) (fmt fuel (plain_context ctx) seen v rt).
Proof.
  revert seen v rt. induction fuel as [|fuel IH]; intros seen v rt; [done|]. unfold fmt. cbn [formatValue].
  change (customInspect (plain_context ctx)) with (customInspect ctx). change (showHidden (plain_context ctx)) with (showHidden ctx).
  destruct (match v with Ref l => _ | _ => None end) as [w|] eqn:Ec.
  { destruct w as [| | | |s|]; try apply IH. apply painted_refl. destruct v as [| | | | |l]; try done.
    destruct (customInspect ctx); [|done]. by apply (clean_custom all_clean l rt). }
  pose proof (formatPrimitive_painted v) as Hp.
  destruct (formatPrimitive ctx v), (formatPrimitive (plain_context ctx) v); try done.
  destruct v as [| | | | |l]; try done. pose proof (formatError_clean l) as He.
  set (keys := if showHidden ctx then own_names l else keys_of h l).
  assert (Forall (fun k => esc ∉ k) keys) as Hkeys.
  { pose proof (clean_keys all_clean l) as Hk. apply Forall_app in Hk as [Hk1 Hk2]. unfold keys. by destruct (showHidden ctx). }
  destruct (isError _ _ _ && _); [by apply painted_refl|].
  pose proof (no_keys_painted l) as Hn.
  assert (match (if decide (keys = []) then no_keys_text h fn_name error_text error_instance ctx l else None),
                (if decide (keys = []) then no_keys_text h fn_name error_text error_instance (plain_context ctx) l else None) with
          | Some s, Some t => painted s t | None, None => True | _, _ => False end) as Hn' by (by destruct (decide _)).
  destruct (if decide (keys = []) then no_keys_text _ _ _ _ ctx l else None),
           (if decide (keys = []) then no_keys_text _ _ _ _ (plain_context ctx) l else None); try done. clear Hn Hn'.
  assert ((esc ∉ (braces_of h l).1) /\ (esc ∉ (braces_of h l).2)) as [Hb1 Hb2] by (unfold braces_of; destruct (class_is h l CArray); cbn [fst snd]; split; clean).
  pose proof (base_clean l) as Hbase.
  destruct (decide (keys = [] /\ _)); [by apply painted_refl; rewrite !not_elem_of_app|].
  destruct (negative rt).
  { cbn [painted_result]. destruct (class_is h l CRegExp); apply stylize_painted; [apply (clean_object all_clean)|clean]. }
  set (ks := if class_is h l CArray then array_keys h l keys else keys).
  assert (Forall (fun k => esc ∉ k) ks) as Hks by (unfold ks; destruct (class_is h l CArray); [by apply array_keys_clean|done]).
  match goal with |- painted_result match all_printed (map ?f _) with _ => _ end match all_printed (map ?g _) with _ => _ end =>
    pose proof (all_printed_painted f g ks) as Hall end.
  specialize (Hall ltac:(intros k Hk; rewrite Forall_forall in Hks; apply formatProperty_painted; [by intros; apply IH|by apply Hks])).
  match goal with |- painted_result match ?a with _ => _ end match ?b with _ => _ end => destruct a, b end; try done.
  by apply painted_reduce.
Qed.
End Colours.

(** Colours do not change the layout: taking the colour codes out of what
    [util.inspect] prints with colours gives what it prints without, the
    choice between one line and many included. *)
Theorem inspect_colours h fn_name error_text utc_text error_instance own_names accessor hidden_value custom fuel obj
    showHidden depth customInspect :
  clean_texts h fn_name error_text utc_text own_names custom ->
  let print colors := inspect h fn_name error_text utc_text error_instance own_names accessor hidden_value custom fuel obj
    (Given showHidden depth (Some colors) customInspect) in
  match print true, print false with
  | Text s, Text t => strip_codes 0 s = t
  | OutOfFuel, OutOfFuel => True
  | _, _ => False
  end.
Proof.
  intros Hc print. unfold print, inspect.
  set (ctx := context_of (Given showHidden depth (Some true) customInspect)).
  pose proof (formatValue_painted h fn_name error_text utc_text error_instance own_names accessor hidden_value custom Hc ctx eq_refl
    fuel [] obj (Util.depth ctx)) as Hp.
  change (context_of (Given showHidden depth (Some false) customInspect)) with (plain_context ctx).
  change (Util.depth (plain_context ctx)) with (Util.depth ctx).
  destruct (formatValue _ _ _ _ _ _ _ _ _ fuel ctx _ _ _), (formatValue _ _ _ _ _ _ _ _ _ fuel (plain_context ctx) _ _ _); try done.
  by apply strip_painted.
Qed.

Lemma inspect_colours_witness :
  match show 5 (Ref 0) (Given None None (Some true) None), show 5 (Ref 0) (Given None None (Some false) None) with
  | Text s, Text t => strip_codes 0 s = t
  | OutOfFuel, OutOfFuel => True
  | _, _ => False
  end.
Proof.
  apply (inspect_colours ring (fun _ => []) (fun _ => []) (fun _ => []) (fun _ => false) (fun _ => []) (fun _ _ => None)
    (fun _ _ => Undefined) (fun _ _ => None) 5 (Ref 0) None None None).
  split; intros l; [clean..| | |done].
  - destruct l as [|[|[|l]]]; clean.
  - destruct l as [|[|[|l]]]; clean.
Defined.

(** ** format, deprecate, _extend *)

Section Format.
Variable h : heap.
Variable to_text : nat -> jsstr.
Variable to_number : val -> num.
Variable stringify : val -> option jsstr.

Let specs := format_specs to_text to_number stringify.

(** The specifiers of a format, in order. *)
Fixpoint specifiers (f : jsstr) : list N :=
  match f with
  | c :: ((x :: f2) as f1) =>
      if decide (c = percent) then
        if decide (x = percent) then specifiers f2
        else if decide (x ∈ «"sdj"») then x :: specifiers f2
        else specifiers f1
      else specifiers f1
  | _ => []
  end.

Lemma format_specs_rest f args : (specs f args).2 = drop (length (specifiers f)) args.
Proof.
  assert (forall n f args, length f <= n -> (specs f args).2 = drop (length (specifiers f)) args) as H; [|by apply (H (length f))].
  clear f args. intros n. induction n as [|n IH]; intros [|c [|x f]] args Hn; try (cbn; by rewrite ?drop_0); [cbn in Hn; lia|].
  cbn [length] in Hn. pose proof (IH f args ltac:(lia)) as Hf. pose proof (IH (x :: f) args ltac:(cbn; lia)) as Hxf.
  change (specifiers (c :: x :: f)) with
    (if decide (c = percent) then
       if decide (x = percent) then specifiers f
       else if decide (x ∈ «"sdj"») then x :: specifiers f else specifiers (x :: f)
     else specifiers (x :: f)).
  unfold specs in *. remember (x :: f) as f1 eqn:E. cbn [format_specs]. rewrite E. rewrite <- E.
  destruct (decide (c = percent)); [destruct (decide (x = percent)); [|destruct (decide (x ∈ «"sdj"»))]|]; try done.
  destruct args as [|a args]; cbn [fst snd length drop]; [by rewrite drop_nil in Hf|apply IH; lia].
Qed.

(** A format without specifiers and without doubled percent signs stays as it
    is. *)
Lemma format_specs_plain f args : percent ∉ f -> specs f args = (f, args).
Proof.
  intros Hf. induction f as [|c f IH]; [done|]. apply not_elem_of_cons in Hf as [Hc Hf]. destruct f as [|x f]; [done|].
  transitivity (c :: (specs (x :: f) args).1, (specs (x :: f) args).2); [|by rewrite IH].
  unfold specs. remember (x :: f) as f1 eqn:E. cbn [format_specs]. rewrite E. rewrite <- E.
  by rewrite decide_False by congruence.
Qed.
End Format.

(** Deprecated functions warn once, unless they are made before there is a
    [process]. *)
Lemma deprecated_warns_once fl n :
  noDeprecation fl = false -> throwDeprecation fl = false ->
  notices (deprecated fl) (S n) false = [if traceDeprecation fl then Traced else Printed].
Proof.
  intros H1 H2.
  assert (forall n, notices (deprecated fl) n true = []) as Hrest.
  { clear n. intros n. induction n as [|n IH]; [done|]. change (notices (deprecated fl) (S n) true) with (option_list (deprecated fl true).1.1 ++ notices (deprecated fl) n (deprecated fl true).2).
    assert (deprecated fl true = (None, true, true)) as -> by (unfold deprecated; by rewrite H1). exact IH. }
  assert (deprecated fl false = (Some (if traceDeprecation fl then Traced else Printed), true, true)) as E by (unfold deprecated; by rewrite H1, H2).
  cbn [notices]. by rewrite E, Hrest.
Qed.

Example early_warns_always :
  notices (fun w => default (None, false, w) (deprecated_early (Some (Flags false false false)) w)) 3 false = [Printed; Printed; Printed].
Proof. done. Qed.

Lemma get_put_prop k v ps k' : get_prop (put_prop k v ps) k' = if decide (k = k') then Some v else get_prop ps k'.
Proof.
  induction ps as [|[k0 w] ps IH]; cbn [put_prop get_prop]; [done|]. destruct (decide (k0 = k)) as [->|Hk]; cbn [get_prop].
  - by destruct (decide (k = k')).
  - rewrite IH. repeat case_decide; congruence.
Qed.

(** What [_extend] leaves in the object: the properties of [add] over its own,
    without [__proto__]. *)
Lemma extend_lookup origin ps k :
  k <> «"__proto__"» ->
  get_prop (_extend origin (Some ps)) k = match get_prop ps k with Some v => Some v | None => get_prop origin k end.
Proof.
  intros Hk. unfold _extend. induction ps as [|[k' v] ps IH]; cbn [foldr get_prop fst snd]; [done|].
  unfold assign_prop at 1. case_decide as Hp.
  - rewrite IH, decide_False by congruence. done.
  - rewrite get_put_prop. destruct (decide (k' = k)); done.
Qed.
