(* ===== verification/Events.v ===== *)
(** * EventEmitter

    Module 14 of wordcut.js.  An emitter maps event types to listeners: a
    single function, or an array of functions when there were more.  The
    arrays are objects in a store, since [removeAllListeners] holds on to an
    array that the calls it makes may change or detach.

    Listeners are arbitrary code.  A plain listener is a number; the
    parameter [behaviour] says which operations on the same emitter it
    performs when it is called (it may depend on the calls made before), and
    whether it then throws.  Event types are assumed not to be names of
    properties that every object inherits. *)

From S2P Require Import Prelude.

Abbreviation etype := jsstr.

(** A user's function, or a wrapper made by [once]. *)
Inductive fn := Fn (n : nat) | Wrapper (w : nat).

#[export] Instance fn_eq_dec : EqDecision fn.
Proof. solve_decision. Defined.

Inductive val := VData (n : nat) | VType (t : etype) | VFn (f : fn).

Inductive entry := One (f : fn) | Many (a : nat).

(** The closure of a wrapper: its type, its listener, its flag [fired]. *)
Record wrap := Wrap { w_type : etype; w_listener : fn; w_fired : bool }.

(** A call of a user's function, with its arguments and the wrapper through
    which it was made. *)
Record call := Call { c_fn : nat; c_args : list val; c_via : option nat }.

Record emitter := Emitter {
  events : list (etype * entry);            (** in order of creation *)
  arrays : list (list fn * bool);           (** the array objects, with [warned] *)
  wraps : list wrap;
  maxListeners : option Z;
  calls : list call;                        (** history: calls of user functions *)
  warnings : nat                            (** history: leak warnings printed *)
}.

Definition new_emitter : emitter := Emitter [] [] [] None [] 0.

(** Operations that a listener may perform. *)
Inductive op :=
| OpOn (t : etype) (n : nat)
| OpOnce (t : etype) (n : nat)
| OpRemove (t : etype) (n : nat)
| OpEmit (t : etype) (args : list val)
| OpRemoveAll (t : option etype)
| OpSetMax (m : Z).

(** ** The monad: state, exceptions and fuel *)

(** A run that is cut off when the fuel is used up keeps the state it had. *)
Inductive res (A : Type) := Ok (a : A) (st : emitter) | Threw (st : emitter) | NoFuel (st : emitter).
Arguments Ok {A} a st.
Arguments Threw {A} st.
Arguments NoFuel {A} st.

Definition M (A : Type) : Type := emitter -> res A.

Definition ret {A} (a : A) : M A := fun st => Ok a st.
Definition throw {A} : M A := fun st => Threw st.
Definition no_fuel {A} : M A := fun st => NoFuel st.
Definition get : M emitter := fun st => Ok st st.
Definition put (st : emitter) : M unit := fun _ => Ok tt st.
Definition bind {A B} (m : M A) (k : A -> M B) : M B :=
  fun st => match m st with
            | Ok a st => k a st
            | Threw st => Threw st
            | NoFuel st => NoFuel st
            end.

Declare Scope emitter_scope.
Delimit Scope emitter_scope with em.
Notation "x <- m ;; k" := (bind m (fun x => k))
  (at level 100, m at next level, right associativity) : emitter_scope.
Notation "m ;;; k" := (bind m (fun _ => k)) (at level 100, right associativity) : emitter_scope.
Open Scope emitter_scope.

(** ** The properties of [this._events] *)

Fixpoint assoc {A} (t : etype) (l : list (etype * A)) : option A :=
  match l with
  | [] => None
  | (u, x) :: l => if decide (t = u) then Some x else assoc t l
  end.

(** Assignment to a property: in place, or at the end if it is new. *)
Fixpoint assign {A} (t : etype) (x : A) (l : list (etype * A)) : list (etype * A) :=
  match l with
  | [] => [(t, x)]
  | (u, y) :: l => if decide (t = u) then (u, x) :: l else (u, y) :: assign t x l
  end.

Definition unassign {A} (t : etype) (l : list (etype * A)) : list (etype * A) :=
  filter (fun p => p.1 <> t) l.

Definition with_events (ev : list (etype * entry)) (st : emitter) : emitter :=
  Emitter ev (arrays st) (wraps st) (maxListeners st) (calls st) (warnings st).
Definition with_arrays (ar : list (list fn * bool)) (st : emitter) : emitter :=
  Emitter (events st) ar (wraps st) (maxListeners st) (calls st) (warnings st).
Definition with_wraps (ws : list wrap) (st : emitter) : emitter :=
  Emitter (events st) (arrays st) ws (maxListeners st) (calls st) (warnings st).
Definition with_max (m : option Z) (st : emitter) : emitter :=
  Emitter (events st) (arrays st) (wraps st) m (calls st) (warnings st).
Definition with_call (c : call) (st : emitter) : emitter :=
  Emitter (events st) (arrays st) (wraps st) (maxListeners st) (calls st ++ [c]) (warnings st).
Definition with_warning (st : emitter) : emitter :=
  Emitter (events st) (arrays st) (wraps st) (maxListeners st) (calls st) (S (warnings st)).

Definition set_event (t : etype) (e : entry) (st : emitter) : emitter :=
  with_events (assign t e (events st)) st.
Definition delete_event (t : etype) (st : emitter) : emitter :=
  with_events (unassign t (events st)) st.

Definition array_of (a : nat) (st : emitter) : list fn := from_option fst [] (arrays st !! a).
Definition warned_of (a : nat) (st : emitter) : bool := from_option snd false (arrays st !! a).
Definition set_array (a : nat) (l : list fn) (st : emitter) : emitter :=
  with_arrays (<[a := (l, warned_of a st)]> (arrays st)) st.
Definition set_warned (a : nat) (st : emitter) : emitter :=
  with_arrays (<[a := (array_of a st, true)]> (arrays st)) st.

(** [f.listener] *)
Definition listener_of (f : fn) (st : emitter) : option fn :=
  match f with Fn _ => None | Wrapper w => w_listener <$> wraps st !! w end.

Definition entry_fns (e : entry) (st : emitter) : list fn :=
  match e with One f => [f] | Many a => array_of a st end.

Definition listeners (t : etype) (st : emitter) : list fn :=
  match assoc t (events st) with None => [] | Some e => entry_fns e st end.

Definition listenerCount (t : etype) (st : emitter) : nat :=
  match assoc t (events st) with
  | None => 0
  | Some (One _) => 1
  | Some (Many a) => length (array_of a st)
  end.

Definition newListener : etype := «"newListener"».
Definition removeListener_t : etype := «"removeListener"».
Definition error_t : etype := «"error"».

Definition has_event (t : etype) (st : emitter) : bool :=
  match assoc t (events st) with Some _ => true | None => false end.

(** [setMaxListeners(n)] *)
Definition setMaxListeners (n : Z) : M unit :=
  if decide (n < 0)%Z then throw else st <- get ;; put (with_max (Some n) st).

(** The new listener at the end: alone, in an array of two, or in the array. *)
Definition push_listener (t : etype) (f : fn) (st : emitter) : emitter :=
  match assoc t (events st) with
  | None => set_event t (One f) st
  | Some (Many a) => set_array a (array_of a st ++ [f]) st
  | Some (One g) =>
      set_event t (Many (length (arrays st))) (with_arrays (arrays st ++ [([g; f], false)]) st)
  end.

Section Emitter.
Variable behaviour : list call -> nat -> list op * bool.

Section Operations.
(** The recursive calls of the operations, through the events they emit. *)
Variable emit_ : etype -> list val -> M bool.

(** [addListener], also called [on]. *)
Definition addListener (t : etype) (f : fn) : M unit :=
  st <- get ;;
  (if has_event newListener st
   then emit_ newListener [VType t; VFn (default f (listener_of f st))] ;;; ret tt
   else ret tt) ;;;
  st <- get ;;
  put (push_listener t f st) ;;;
  st <- get ;;
  match assoc t (events st) with
  | Some (Many a) =>
      let m := default 10%Z (maxListeners st) in
      if decide (warned_of a st = false /\ 0 < m < Z.of_nat (length (array_of a st)))%Z
      then put (with_warning (set_warned a st)) else ret tt
  | _ => ret tt
  end.

Definition once (t : etype) (f : fn) : M unit :=
  st <- get ;;
  put (with_wraps (wraps st ++ [Wrap t f false]) st) ;;;
  addListener t (Wrapper (length (wraps st))).

(** [f === listener || f.listener === listener] *)
Definition is_listener (f : fn) (st : emitter) (g : fn) : bool :=
  bool_decide (g = f) || bool_decide (listener_of g st = Some f).

(** The last index at which the test holds. *)
Fixpoint last_index (P : fn -> bool) (l : list fn) : option nat :=
  match l with
  | [] => None
  | x :: l => match last_index P l with
              | Some i => Some (S i)
              | None => if P x then Some 0 else None
              end
  end.

Definition emit_removed (t : etype) (f : fn) : M unit :=
  st <- get ;;
  if has_event removeListener_t st then emit_ removeListener_t [VType t; VFn f] ;;; ret tt else ret tt.

Definition removeListener (t : etype) (f : fn) : M unit :=
  st <- get ;;
  match assoc t (events st) with
  | None => ret tt
  | Some (One g) =>
      if is_listener f st g then put (delete_event t st) ;;; emit_removed t f else ret tt
  | Some (Many a) =>
      match last_index (is_listener f st) (array_of a st) with
      | None => ret tt
      | Some i =>
          (if decide (length (array_of a st) = 1)
           then put (delete_event t (set_array a [] st))
           else put (set_array a (take i (array_of a st) ++ drop (S i) (array_of a st)) st)) ;;;
          emit_removed t f
      end
  end.

(** [while (listeners.length)] over the array object [a]. *)
Fixpoint remove_array (fuel : nat) (t : etype) (a : nat) : M unit :=
  match fuel with
  | O => no_fuel
  | S fuel =>
      st <- get ;;
      match last (array_of a st) with
      | None => ret tt
      | Some f => removeListener t f ;;; remove_array fuel t a
      end
  end.

(** [removeAllListeners(type)] *)
Definition removeAllOf (fuel : nat) (t : etype) : M unit :=
  st <- get ;;
  if negb (has_event removeListener_t st) then put (delete_event t st)
  else
    (match assoc t (events st) with
     | Some (One f) => removeListener t f
     | Some (Many a) => remove_array fuel t a
     | None => throw
     end) ;;;
    st <- get ;; put (delete_event t st).

(** The [for (key in this._events)] loop: the keys at its start, without those
    that are gone when their turn comes. *)
Fixpoint remove_keys (fuel : nat) (keys : list etype) : M unit :=
  match keys with
  | [] => ret tt
  | k :: keys =>
      st <- get ;;
      (if decide (k = removeListener_t \/ has_event k st = false) then ret tt
       else removeAllOf fuel k) ;;;
      remove_keys fuel keys
  end.

Definition removeAllListeners (fuel : nat) (t : option etype) : M unit :=
  match t with
  | Some t => removeAllOf fuel t
  | None =>
      st <- get ;;
      (if negb (has_event removeListener_t st) then ret tt
       else remove_keys fuel (map fst (events st)) ;;; removeAllOf fuel removeListener_t) ;;;
      st <- get ;; put (with_events [] st)
  end.

Definition perform (fuel : nat) (o : op) : M unit :=
  match o with
  | OpOn t n => addListener t (Fn n)
  | OpOnce t n => once t (Fn n)
  | OpRemove t n => removeListener t (Fn n)
  | OpEmit t args => emit_ t args ;;; ret tt
  | OpRemoveAll t => removeAllListeners fuel t
  | OpSetMax m => setMaxListeners m
  end.

Fixpoint perform_all (fuel : nat) (os : list op) : M unit :=
  match os with
  | [] => ret tt
  | o :: os => perform fuel o ;;; perform_all fuel os
  end.

(** Calling a function: a user's function does what [behaviour] says; a
    wrapper first takes itself off and then calls its listener if it has not
    done so. *)
Fixpoint call_fn (depth fuel : nat) (via : option nat) (f : fn) (args : list val) : M unit :=
  match f with
  | Fn n =>
      st <- get ;;
      let '(os, throws) := behaviour (calls st) n in
      put (with_call (Call n args via) st) ;;;
      perform_all fuel os ;;;
      if throws then throw else ret tt
  | Wrapper w =>
      match depth with
      | O => no_fuel
      | S depth =>
          st <- get ;;
          match wraps st !! w with
          | None => throw
          | Some g =>
              removeListener (w_type g) (Wrapper w) ;;;
              st <- get ;;
              if (from_option w_fired true (wraps st !! w)) then ret tt
              else
                put (with_wraps (<[w := Wrap (w_type g) (w_listener g) true]> (wraps st)) st) ;;;
                call_fn depth fuel (Some w) (w_listener g) args
          end
      end
  end.

Fixpoint call_all (depth fuel : nat) (fs : list fn) (args : list val) : M unit :=
  match fs with
  | [] => ret tt
  | f :: fs => call_fn depth fuel None f args ;;; call_all depth fuel fs args
  end.

Definition emit_body (depth fuel : nat) (t : etype) (args : list val) : M bool :=
  st <- get ;;
  let unhandled :=
    match assoc t (events st) with
    | None => true
    | Some (One _) => false
    | Some (Many a) => bool_decide (array_of a st = [])
    end in
  if decide (t = error_t /\ unhandled = true) then throw
  else match assoc t (events st) with
       | None => ret false
       | Some e => call_all depth fuel (entry_fns e st) args ;;; ret true
       end.
End Operations.

(** [emit], with the nesting of events bounded by the fuel. *)
Fixpoint emit (fuel : nat) (t : etype) (args : list val) : M bool :=
  match fuel with
  | O => no_fuel
  | S fuel => emit_body (emit fuel) (S fuel) (S fuel) t args
  end.
End Emitter.

(** ** Preservation

    [keeps P m]: the computation keeps the invariant [P], also when it
    throws. *)
Definition keeps (P : emitter -> Prop) {A} (m : M A) : Prop :=
  forall st, P st -> match m st with Ok _ st' => P st' | Threw st' => P st' | NoFuel st' => P st' end.

Section Keeps.
Variable P : emitter -> Prop.

Lemma keeps_ret {A} (a : A) : keeps P (ret a).
Proof. by intros st. Qed.
Lemma keeps_throw {A} : keeps P (@throw A).
Proof. by intros st. Qed.
Lemma keeps_no_fuel {A} : keeps P (@no_fuel A).
Proof. by intros st. Qed.
Lemma keeps_bind {A B} (m : M A) (k : A -> M B) :
  keeps P m -> (forall a, keeps P (k a)) -> keeps P (bind m k).
Proof.
  intros Hm Hk st HP. unfold bind. specialize (Hm st HP). destruct (m st) as [a st'| |]; [|done|done].
  by apply Hk.
Qed.

(** After [get] the rest starts in the state that was read. *)
Lemma keeps_get {B} (k : emitter -> M B) :
  (forall st, P st -> match k st st with Ok _ st' => P st' | Threw st' => P st' | NoFuel st' => P st' end) ->
  keeps P (bind get k).
Proof. intros H st HP. by apply H. Qed.

Lemma keeps_at {A} (m : M A) st :
  keeps P m -> P st -> match m st with Ok _ st' => P st' | Threw st' => P st' | NoFuel st' => P st' end.
Proof. intros H HP. by apply H. Qed.
End Keeps.

(** ** Well-formed emitters

    Every array in use is in the store, not empty, and belongs to one event
    type. *)
Definition wf (st : emitter) : Prop :=
  (forall t a, assoc t (events st) = Some (Many a) -> is_Some (arrays st !! a) /\ array_of a st <> []) /\
  (forall t u a, assoc t (events st) = Some (Many a) -> assoc u (events st) = Some (Many a) -> t = u).

Lemma assoc_assign {A} t u (x : A) l :
  assoc u (assign t x l) = if decide (u = t) then Some x else assoc u l.
Proof.
  induction l as [|[v y] l IH]; cbn [assign assoc]; [repeat case_decide; congruence|].
  destruct (decide (t = v)) as [->|Hv]; cbn [assoc]; repeat case_decide; congruence.
Qed.

Lemma assoc_unassign {A} t u (l : list (etype * A)) :
  assoc u (unassign t l) = if decide (u = t) then None else assoc u l.
Proof.
  unfold unassign. induction l as [|[v y] l IH]; cbn [assoc]; [by case_decide|].
  rewrite filter_cons. cbn [fst]. destruct (decide (v <> t)) as [Hv|Hv]; cbn [assoc]; rewrite ?IH;
    repeat case_decide; (congruence || done || (exfalso; apply Hv; congruence)).
Qed.

Lemma array_set a b l st :
  is_Some (arrays st !! a) -> array_of b (set_array a l st) = if decide (b = a) then l else array_of b st.
Proof.
  intros Ha%lookup_lt_is_Some_1. unfold array_of, set_array. simpl.
  destruct (decide (b = a)) as [->|Hb]; [by rewrite list_lookup_insert_eq|by rewrite list_lookup_insert_ne].
Qed.

Lemma listeners_cases t st :
  listeners t st = match assoc t (events st) with
                   | None => [] | Some (One f) => [f] | Some (Many a) => array_of a st end.
Proof. unfold listeners, entry_fns. by repeat case_match. Qed.

(** Operations change neither the emitter's wrappers nor its history. *)
Definition same_rest (st st' : emitter) : Prop :=
  wraps st' = wraps st /\ calls st' = calls st /\ maxListeners st' = maxListeners st.

Lemma wf_set_array a l st t :
  wf st -> assoc t (events st) = Some (Many a) -> l <> [] ->
  wf (set_array a l st) /\
  forall u, listeners u (set_array a l st) = if decide (u = t) then l else listeners u st.
Proof.
  intros [W1 W2] Ha Hl. destruct (W1 _ _ Ha) as [Hs _]. split; [split|].
  - intros u b Hb. change (events (set_array a l st)) with (events st) in Hb.
    destruct (W1 _ _ Hb) as [Hs' Hne]. split.
    + unfold set_array. simpl. apply lookup_lt_is_Some. rewrite length_insert. by apply lookup_lt_is_Some.
    + rewrite array_set by done. by case_decide.
  - exact W2.
  - intros u. rewrite !listeners_cases. change (events (set_array a l st)) with (events st).
    destruct (decide (u = t)) as [->|Hu].
    + rewrite Ha, array_set by done. by rewrite decide_True.
    + destruct (assoc u (events st)) as [[f|b]|] eqn:Eu; [done| |done].
      rewrite array_set by done. rewrite decide_False; [done|]. intros ->. apply Hu. by eapply W2.
Qed.

Lemma wf_delete t st :
  wf st -> wf (delete_event t st) /\
  forall u, listeners u (delete_event t st) = if decide (u = t) then [] else listeners u st.
Proof.
  intros [W1 W2].
  assert (forall u, assoc u (events (delete_event t st)) =
    if decide (u = t) then None else assoc u (events st)) as Ha by (intros u; apply assoc_unassign).
  split; [split|].
  - intros u a. rewrite Ha. case_decide; [done|]. apply W1.
  - intros u v a. rewrite !Ha. repeat case_decide; [done..|]. apply W2.
  - intros u. rewrite !listeners_cases, Ha. by case_decide.
Qed.

(** Taking the only listener out of an array detaches the array. *)
Lemma wf_remove_only t a st :
  wf st -> assoc t (events st) = Some (Many a) ->
  wf (delete_event t (set_array a [] st)) /\
  forall u, listeners u (delete_event t (set_array a [] st)) = if decide (u = t) then [] else listeners u st.
Proof.
  intros [W1 W2] Ha. destruct (W1 _ _ Ha) as [Hs _].
  assert (forall u, assoc u (events (delete_event t (set_array a [] st))) =
    if decide (u = t) then None else assoc u (events st)) as Hu by (intros u; apply assoc_unassign).
  assert (forall u b, u <> t -> assoc u (events st) = Some (Many b) ->
    array_of b (delete_event t (set_array a [] st)) = array_of b st) as Hb.
  { intros u b Hne Hub. change (array_of b (delete_event t ?s)) with (array_of b s).
    rewrite array_set by done. rewrite decide_False; [done|]. intros ->. apply Hne. by eapply W2. }
  split; [split|].
  - intros u b. rewrite Hu. case_decide; [done|]. intros Hub. destruct (W1 _ _ Hub) as [Hs' Hne].
    split; [|by rewrite (Hb u)]. simpl. apply lookup_lt_is_Some. rewrite length_insert.
    by apply lookup_lt_is_Some.
  - intros u v b. rewrite !Hu. repeat case_decide; [done..|]. apply W2.
  - intros u. rewrite !listeners_cases, Hu. case_decide; [done|].
    destruct (assoc u (events st)) as [[h|b]|] eqn:Eu; [done| |done]. by rewrite (Hb u).
Qed.

Lemma last_index_lt P l i : last_index P l = Some i -> i < length l.
Proof.
  revert i. induction l as [|x l IH]; intros i; cbn [last_index]; [done|].
  destruct (last_index P l) as [j|] eqn:E.
  - intros [= <-]. specialize (IH j eq_refl). simpl. lia.
  - destruct (P x); [|done]. intros [= <-]. simpl. lia.
Qed.

Lemma wf_new_emitter : wf new_emitter.
Proof. by split. Qed.

Lemma wf_push_first t f st :
  wf st -> assoc t (events st) = None ->
  wf (set_event t (One f) st) /\ same_rest st (set_event t (One f) st) /\
  forall u, listeners u (set_event t (One f) st) = if decide (u = t) then [] ++ [f] else listeners u st.
Proof.
  intros [W1 W2] Hn.
  assert (forall u, assoc u (events (set_event t (One f) st)) =
    if decide (u = t) then Some (One f) else assoc u (events st)) as Ha by (intros u; apply assoc_assign).
  split; [split|split; [done|]].
  - intros u a. rewrite Ha. case_decide; [done|]. apply W1.
  - intros u v a. rewrite !Ha. repeat case_decide; [done..|]. apply W2.
  - intros u. rewrite !listeners_cases, Ha. by case_decide.
Qed.

(** The second listener of a type moves into a fresh array. *)
Lemma wf_push_second t f g st :
  wf st -> assoc t (events st) = Some (One g) ->
  let st' := set_event t (Many (length (arrays st))) (with_arrays (arrays st ++ [([g; f], false)]) st) in
  wf st' /\ same_rest st st' /\
  forall u, listeners u st' = if decide (u = t) then [g] ++ [f] else listeners u st.
Proof.
  intros [W1 W2] Hn st'.
  assert (forall u, assoc u (events st') =
    if decide (u = t) then Some (Many (length (arrays st))) else assoc u (events st)) as Ha
    by (intros u; apply assoc_assign).
  assert (forall a, is_Some (arrays st !! a) -> arrays st' !! a = arrays st !! a) as Hold.
  { intros a Hs%lookup_lt_is_Some_1. unfold st'. simpl. by rewrite lookup_app_l. }
  assert (arrays st' !! length (arrays st) = Some ([g; f], false)) as Hnew.
  { unfold st'. simpl. by rewrite lookup_app_r, Nat.sub_diag by lia. }
  assert (forall u a, u <> t -> assoc u (events st) = Some (Many a) -> a <> length (arrays st)) as Hfresh.
  { intros u a _ Hu ->. destruct (W1 _ _ Hu) as [Hs _]. apply lookup_lt_is_Some_1 in Hs. lia. }
  split; [split|split; [done|]].
  - intros u a. rewrite Ha. unfold array_of. case_decide as Hu.
    + intros [= <-]. by rewrite Hnew.
    + intros Hua. destruct (W1 _ _ Hua) as [Hs Hne]. by rewrite Hold.
  - intros u v a. rewrite !Ha. repeat case_decide; subst; [done| | |apply W2].
    + intros [= <-] Hv. by destruct (Hfresh v (length (arrays st))).
    + intros Hu [= <-]. by destruct (Hfresh u (length (arrays st))).
  - intros u. rewrite !listeners_cases, Ha. case_decide; [unfold array_of; by rewrite Hnew|].
    destruct (assoc u (events st)) as [[h|a]|] eqn:Eu; [done| |done].
    destruct (W1 _ _ Eu) as [Hs _]. unfold array_of. by rewrite Hold.
Qed.

(** The leak warning changes no listener. *)
Lemma wf_warn a st st1 (L : etype -> list fn) :
  wf st1 -> same_rest st st1 -> (forall u, listeners u st1 = L u) ->
  wf (with_warning (set_warned a st1)) /\ same_rest st (with_warning (set_warned a st1)) /\
  forall u, listeners u (with_warning (set_warned a st1)) = L u.
Proof.
  intros [W1 W2] R HL.
  assert (forall b, is_Some (arrays st1 !! b) ->
    array_of b (with_warning (set_warned a st1)) = array_of b st1 /\
    is_Some (arrays (with_warning (set_warned a st1)) !! b)) as Hb.
  { intros b Hs. unfold array_of, set_warned. simpl. split.
    - destruct (decide (b = a)) as [->|Hne]; [|by rewrite list_lookup_insert_ne].
      by rewrite list_lookup_insert_eq by (by apply lookup_lt_is_Some_1).
    - apply lookup_lt_is_Some. rewrite length_insert. by apply lookup_lt_is_Some. }
  split; [split|split; [done|]].
  - intros u b Hu. destruct (W1 u b Hu) as [Hs Hne]. destruct (Hb b Hs) as [-> ?]. done.
  - exact W2.
  - intros u. rewrite <- HL, !listeners_cases. change (events (with_warning (set_warned a st1))) with (events st1).
    destruct (assoc u (events st1)) as [[h|b]|] eqn:Eu; [done| |done].
    by destruct (Hb b) as [-> _]; [destruct (W1 _ _ Eu)|].
Qed.

(** ** An invariant of all operations

    An invariant is kept by every operation, through all nested events and
    exceptions, if it is kept at the places where the state changes. *)
Class EmitterInvariant (P : emitter -> Prop) : Prop := {
  P_push : forall t f st, P st -> P (push_listener t f st);
  P_warn : forall a st, P st -> P (with_warning (set_warned a st));
  P_delete : forall t st, P st -> P (delete_event t st);
  P_clear : forall st, P st -> P (with_events [] st);
  P_take : forall t a i st,
    P st -> assoc t (events st) = Some (Many a) -> i < length (array_of a st) ->
    length (array_of a st) <> 1 ->
    P (set_array a (take i (array_of a st) ++ drop (S i) (array_of a st)) st);
  P_take_only : forall t a st,
    P st -> assoc t (events st) = Some (Many a) -> P (delete_event t (set_array a [] st));
  P_max : forall m st, P st -> P (with_max m st);
  P_wrap : forall t n st, P st -> P (with_wraps (wraps st ++ [Wrap t (Fn n) false]) st);
  P_call : forall n args st, P st -> P (with_call (Call n args None) st);
  P_fire : forall w n args t st,
    P st -> from_option w_fired true (wraps st !! w) = false ->
    P (with_call (Call n args (Some w)) (with_wraps (<[w := Wrap t (Fn n) true]> (wraps st)) st));
  P_fn : forall w g st, P st -> wraps st !! w = Some g -> exists n, w_listener g = Fn n
}.

Section Generic.
Variable behaviour : list call -> nat -> list op * bool.
Variable P : emitter -> Prop.
Context {stable : EmitterInvariant P}.

Create HintDb emitter.
Let inv_push := @P_push P stable.
Let inv_warn := @P_warn P stable.
Let inv_delete := @P_delete P stable.
Let inv_clear := @P_clear P stable.
Let inv_take := @P_take P stable.
Let inv_take_only := @P_take_only P stable.
Let inv_max := @P_max P stable.
Let inv_call := @P_call P stable.
#[local] Hint Resolve inv_push inv_warn inv_delete inv_clear inv_take inv_take_only inv_max inv_call : emitter.
#[local] Hint Resolve keeps_ret keeps_throw keeps_no_fuel : emitter.

Section WithEmit.
Variable emit_ : etype -> list val -> M bool.
Hypothesis emit_keeps : forall t args, keeps P (emit_ t args).
#[local] Hint Resolve emit_keeps : emitter.

Lemma emit_unit_keeps t args : keeps P (emit_ t args ;;; ret tt).
Proof. apply keeps_bind; auto with emitter. Qed.
#[local] Hint Resolve emit_unit_keeps : emitter.

Lemma addListener_keeps t f : keeps P (addListener emit_ t f).
Proof.
  unfold addListener. apply keeps_get. intros st0 HP. apply keeps_at; [|done].
  apply keeps_bind; [destruct (has_event _ _); auto with emitter|]. intros _.
  apply keeps_get. intros st1 HP1. apply keeps_at; [|done]. clear st0 HP. apply keeps_bind.
  - intros st _. simpl. auto with emitter.
  - intros _. apply keeps_get. intros st HPst.
    destruct (assoc t (events st)) as [[g|a]|]; [done| |done]. case_decide; [|done].
    simpl. auto with emitter.
Qed.

Lemma emit_removed_keeps t f : keeps P (emit_removed emit_ t f).
Proof.
  unfold emit_removed. apply keeps_get. intros st HP. apply keeps_at; [|done].
  destruct (has_event _ _); auto with emitter.
Qed.

Lemma put_then_keeps {A} (m : M A) st' : keeps P m -> P st' -> keeps P (put st' ;;; m).
Proof. intros Hm HP st _. unfold bind, put. by apply Hm. Qed.

Lemma removeListener_keeps t f : keeps P (removeListener emit_ t f).
Proof.
  unfold removeListener. apply keeps_get. intros st HP. apply keeps_at; [|done].
  destruct (assoc t (events st)) as [[g|a]|] eqn:Ea; [| |by auto with emitter].
  - destruct (is_listener f st g); [|by auto with emitter].
    apply put_then_keeps; [apply emit_removed_keeps|]. auto with emitter.
  - destruct (last_index _ _) as [i|] eqn:Ei; [|by auto with emitter].
    apply last_index_lt in Ei.
    case_decide; (apply put_then_keeps; [apply emit_removed_keeps|]); eauto with emitter.
Qed.

Lemma remove_array_keeps fuel t a : keeps P (remove_array emit_ fuel t a).
Proof.
  induction fuel as [|fuel IH]; cbn [remove_array]; [by auto with emitter|].
  apply keeps_get. intros st HP. apply keeps_at; [|done].
  destruct (last _); [|by auto with emitter]. apply keeps_bind; [apply removeListener_keeps|done].
Qed.

Lemma delete_then_keeps t : keeps P (st <- get ;; put (delete_event t st)).
Proof. apply keeps_get. intros st HP. simpl. auto with emitter. Qed.

Lemma removeAllOf_keeps fuel t : keeps P (removeAllOf emit_ fuel t).
Proof.
  unfold removeAllOf. apply keeps_get. intros st HP. destruct (negb _); simpl.
  { auto with emitter. }
  apply keeps_at; [|done]. apply keeps_bind; [|intros _; apply delete_then_keeps].
  destruct (assoc t (events st)) as [[g|a]|];
    [apply removeListener_keeps|apply remove_array_keeps|auto with emitter].
Qed.

Lemma remove_keys_keeps fuel keys : keeps P (remove_keys emit_ fuel keys).
Proof.
  induction keys as [|k keys IH]; cbn [remove_keys]; [by auto with emitter|].
  apply keeps_get. intros st HP. apply keeps_at; [|done]. apply keeps_bind; [|done].
  case_decide; [by auto with emitter|apply removeAllOf_keeps].
Qed.

Lemma perform_keeps fuel o : keeps P (perform emit_ fuel o).
Proof.
  destruct o as [t n|t n|t n|t args|[t|]|m]; simpl.
  - apply addListener_keeps.
  - unfold once. apply keeps_get. intros st HP. apply keeps_at; [|done].
    apply put_then_keeps; [apply addListener_keeps|by apply P_wrap].
  - apply removeListener_keeps.
  - apply emit_unit_keeps.
  - apply removeAllOf_keeps.
  - apply keeps_get. intros st HP. apply keeps_at; [|done]. apply keeps_bind.
    + destruct (negb _); [by auto with emitter|].
      apply keeps_bind; [apply remove_keys_keeps|intros _; apply removeAllOf_keeps].
    + intros _. apply keeps_get. intros st' HP'. simpl. auto with emitter.
  - unfold setMaxListeners. case_decide; [by auto with emitter|].
    apply keeps_get. intros st HP. simpl. auto with emitter.
Qed.

Lemma perform_all_keeps fuel os : keeps P (perform_all emit_ fuel os).
Proof.
  induction os as [|o os IH]; cbn [perform_all]; [by auto with emitter|].
  apply keeps_bind; [apply perform_keeps|done].
Qed.

Lemma call_fn_user depth fuel via n args st :
  call_fn behaviour emit_ depth fuel via (Fn n) args st =
  let '(os, throws) := behaviour (calls st) n in
  (perform_all emit_ fuel os ;;; if throws then throw else ret tt) (with_call (Call n args via) st).
Proof.
  destruct depth; cbn [call_fn]; unfold bind at 1; cbn [get];
    by destruct (behaviour (calls st) n) as [os throws].
Qed.

(** Calling a user's function, in a state that already counts the call. *)
Lemma call_user_keeps depth fuel via n args st :
  P (with_call (Call n args via) st) ->
  match call_fn behaviour emit_ depth fuel via (Fn n) args st with
  | Ok _ st' => P st' | Threw st' => P st' | NoFuel st' => P st' end.
Proof.
  intros HP. rewrite call_fn_user. destruct (behaviour (calls st) n) as [os throws].
  apply keeps_at; [|done]. apply keeps_bind; [apply perform_all_keeps|].
  intros _. destruct throws; auto with emitter.
Qed.

Lemma call_fn_keeps depth fuel f args : keeps P (call_fn behaviour emit_ depth fuel None f args).
Proof.
  destruct f as [n|w].
  { intros st HP. apply call_user_keeps. auto with emitter. }
  destruct depth as [|depth]; cbn [call_fn]; [by auto with emitter|].
  apply keeps_get. intros st HP. destruct (wraps st !! w) as [g|] eqn:Hg; [|done].
  destruct (P_fn w g st HP Hg) as [n Hn]. rewrite Hn.
  apply keeps_at; [|done]. apply keeps_bind; [apply removeListener_keeps|]. intros _.
  apply keeps_get. intros st1 HP1. destruct (from_option w_fired true (wraps st1 !! w)) eqn:Ef; [done|].
  unfold bind, put. apply call_user_keeps. by apply P_fire.
Qed.

Lemma call_all_keeps depth fuel fs args : keeps P (call_all behaviour emit_ depth fuel fs args).
Proof.
  induction fs as [|f fs IH]; cbn [call_all]; [by auto with emitter|].
  apply keeps_bind; [apply call_fn_keeps|done].
Qed.
End WithEmit.

Lemma emit_keeps fuel t args : keeps P (emit behaviour fuel t args).
Proof.
  revert t args. induction fuel as [|fuel IH]; intros t args; cbn [emit]; [by auto with emitter|].
  unfold emit_body. apply keeps_get. intros st HP. case_decide; [done|].
  apply keeps_at; [|done]. destruct (assoc t (events st)) as [e|]; [|by auto with emitter].
  apply keeps_bind; [by apply call_all_keeps|auto with emitter].
Qed.
End Generic.

Section Quiet.
Variable emit_ : etype -> list val -> M bool.

(** The state after the listener was added, before the check for leaks. *)
Lemma addListener_quiet t f st :
  wf st -> has_event newListener st = false ->
  exists st', addListener emit_ t f st = Ok tt st' /\ wf st' /\ same_rest st st' /\
    forall u, listeners u st' = if decide (u = t) then listeners t st ++ [f] else listeners u st.
Proof.
  intros Hwf Hq.
  assert (wf (push_listener t f st) /\ same_rest st (push_listener t f st) /\
    forall u, listeners u (push_listener t f st) =
      if decide (u = t) then listeners t st ++ [f] else listeners u st) as (W & R & L).
  { unfold push_listener. rewrite (listeners_cases t st). destruct (assoc t (events st)) as [[g|a]|] eqn:Ea.
    - by apply wf_push_second.
    - destruct (wf_set_array a (array_of a st ++ [f]) st t Hwf Ea) as [? ?]; [by destruct (array_of a st)|].
      split_and!; done.
    - by apply wf_push_first. }
  unfold addListener, bind, get, put, ret. rewrite Hq.
  destruct (assoc t (events (push_listener t f st))) as [[g|a]|]; [by eauto 10| |by eauto 10].
  case_decide; [|by eauto 10]. eexists. split; [done|]. by apply wf_warn.
Qed.

(** What is left of a list when the last listener that is meant is taken out. *)
Definition remove_last (f : fn) (st : emitter) (l : list fn) : list fn :=
  match last_index (is_listener f st) l with
  | Some i => take i l ++ drop (S i) l
  | None => l
  end.

Lemma removeListener_quiet t f st :
  wf st -> has_event removeListener_t st = false ->
  exists st', removeListener emit_ t f st = Ok tt st' /\ wf st' /\ same_rest st st' /\
    has_event removeListener_t st' = false /\
    forall u, listeners u st' = if decide (u = t) then remove_last f st (listeners t st) else listeners u st.
Proof.
  intros Hwf Hq.
  assert (forall st', (has_event removeListener_t st' = false) -> emit_removed emit_ t f st' = Ok tt st') as He.
  { intros st' Hq'. unfold emit_removed, bind, get. by rewrite Hq'. }
  assert (t <> removeListener_t \/ assoc t (events st) = None) as Ht.
  { destruct (decide (t = removeListener_t)) as [->|]; [right|by left].
    unfold has_event in Hq. by destruct (assoc _ _). }
  assert (forall a l, has_event removeListener_t (set_array a l st) = false) as Hq1 by done.
  assert (forall st', has_event removeListener_t st' = false ->
    has_event removeListener_t (delete_event t st') = false) as Hq2.
  { intros st' Hq'. unfold has_event, delete_event. simpl. rewrite assoc_unassign. case_decide; [done|exact Hq']. }
  unfold removeListener, bind at 1, get, remove_last. rewrite (listeners_cases t st).
  destruct (assoc t (events st)) as [[g|a]|] eqn:Ea.
  - cbn [last_index]. destruct (is_listener f st g).
    + unfold bind, put. rewrite He by auto. eexists. split; [done|].
      destruct (wf_delete t st Hwf) as [W L]. split_and!; try done. by apply Hq2.
    + exists st. split_and!; try done. intros u. case_decide; [|done]. subst. by rewrite listeners_cases, Ea.
  - destruct (last_index (is_listener f st) (array_of a st)) as [i|] eqn:Ei.
    + case_decide as Hlen.
      * unfold bind, put. rewrite He by auto. eexists. split; [done|].
        assert (i = 0) as ->.
        { destruct (array_of a st) as [|x [|y l]]; [done| |done]. cbn [last_index] in Ei.
          by destruct (is_listener f st x); simplify_eq. }
        destruct (wf_remove_only t a st Hwf Ea) as [W L]. split_and!; try done; [by apply Hq2, Hq1|].
        intros u. rewrite L. case_decide; [|done].
        destruct (array_of a st) as [|x [|y l]]; [done| |done]. done.
      * unfold bind, put. rewrite He by auto. eexists. split; [done|].
        destruct (wf_set_array a (take i (array_of a st) ++ drop (S i) (array_of a st)) st t Hwf Ea) as [W L].
        { intros E%(f_equal length). rewrite length_app, length_take, length_drop in E. simpl in E.
          apply last_index_lt in Ei. lia. }
        split_and!; done.
    + exists st. split_and!; try done. intros u. case_decide; [|done]. subst. by rewrite listeners_cases, Ea.
  - exists st. split_and!; try done. intros u. case_decide; [|done]. subst. by rewrite listeners_cases, Ea.
Qed.
End Quiet.

(** ** Sessions: operations from outside, exceptions caught there *)

Section Session.
Variable behaviour : list call -> nat -> list op * bool.

(** Whether all operations came to an end, and the state then. *)
Fixpoint session (fuel : nat) (os : list op) (st : emitter) : bool * emitter :=
  match os with
  | [] => (true, st)
  | o :: os =>
      match perform (emit behaviour fuel) fuel o st with
      | Ok _ st' | Threw st' => session fuel os st'
      | NoFuel st' => (false, st')
      end
  end.

(** How often the wrapper called its listener. *)
Definition fired_count (w : nat) (st : emitter) : nat :=
  length (filter (fun c => c_via c = Some w) (calls st)).

Definition once_inv (st : emitter) : Prop :=
  wf st /\ Forall (fun g => exists n, w_listener g = Fn n) (wraps st) /\
  forall w, fired_count w st = if from_option w_fired false (wraps st !! w) then 1 else 0.

Lemma push_listener_wf t f st : wf st -> wf (push_listener t f st).
Proof.
  intros Hwf. unfold push_listener. destruct (assoc t (events st)) as [[g|a]|] eqn:Ea.
  - by destruct (wf_push_second t f g st).
  - destruct (wf_set_array a (array_of a st ++ [f]) st t) as [? _]; try done. by destruct (array_of a st).
  - by destruct (wf_push_first t f st).
Qed.

Lemma once_inv_frame st st' :
  wraps st' = wraps st -> calls st' = calls st -> wf st' -> once_inv st -> once_inv st'.
Proof. intros Ew Ec Hwf (_ & H1 & H2). unfold once_inv, fired_count. by rewrite Ew, Ec. Qed.

Lemma fired_count_call w c st :
  fired_count w (with_call c st) = fired_count w st + if decide (c_via c = Some w) then 1 else 0.
Proof.
  unfold fired_count. simpl. rewrite filter_app, length_app. f_equal. rewrite filter_cons. by case_decide.
Qed.

#[local] Instance once_inv_stable : EmitterInvariant once_inv.
Proof.
  split.
  - intros u f st H. eapply once_inv_frame; [..|exact H]; try (by unfold push_listener; repeat case_match).
    apply push_listener_wf, H.
  - intros a st H. eapply once_inv_frame; [..|exact H]; [done|done|].
    by eapply wf_warn; [apply H|..].
  - intros u st H. eapply once_inv_frame; [..|exact H]; [done|done|]. apply wf_delete, H.
  - intros st H. eapply once_inv_frame; [..|exact H]; [done|done|]. by split.
  - intros u a i st H Ha Hi Hl. eapply once_inv_frame; [..|exact H]; [done|done|].
    eapply wf_set_array; [apply H|done|]. intros E%(f_equal length).
    rewrite length_app, length_take, length_drop in E. simpl in E. lia.
  - intros u a st H Ha. eapply once_inv_frame; [..|exact H]; [done|done|]. by apply wf_remove_only; [apply H|].
  - intros m st H. eapply once_inv_frame; [..|exact H]; [done|done|]. apply H.
  - intros u n st (Hwf & H1 & H2). split_and!; [done| |].
    + simpl. apply Forall_app. split; [done|]. constructor; [by exists n|constructor].
    + intros w. specialize (H2 w). unfold fired_count in *. simpl.
      destruct (decide (w < length (wraps st))) as [Hw|Hw].
      * by rewrite lookup_app_l.
      * rewrite (lookup_ge_None_2 (wraps st)) in H2 by lia. rewrite lookup_app_r, H2 by lia.
        by destruct (w - length (wraps st)).
  - intros n args' st (Hwf & H1 & H2). split_and!; [done|done|]. intros w. rewrite fired_count_call.
    rewrite decide_False by done. rewrite Nat.add_0_r. apply H2.
  - intros w n args' u st (Hwf & H1 & H2) Hf. split_and!; [done| |].
    + simpl. apply Forall_insert; [done|by exists n].
    + intros v. rewrite fired_count_call. cbn [c_via].
      change (fired_count v (with_wraps ?x st)) with (fired_count v st).
      change (wraps (with_call ?c (with_wraps ?x st))) with x. specialize (H2 v).
      destruct (decide (v = w)) as [->|Hne].
      * destruct (wraps st !! w) as [g|] eqn:Eg; [|done]. simpl in Hf, H2. rewrite Hf in H2.
        rewrite list_lookup_insert_eq by (by apply lookup_lt_Some in Eg). simpl.
        rewrite decide_True by done. lia.
      * rewrite list_lookup_insert_ne by done. rewrite decide_False by congruence. lia.
  - intros w g st (_ & H1 & _) Hg. rewrite Forall_lookup in H1. by apply (H1 w).
Qed.

Lemma session_once_inv fuel os st : once_inv st -> once_inv (session fuel os st).2.
Proof.
  revert st. induction os as [|o os IH]; intros st Hst; cbn [session]; [done|].
  pose proof (perform_keeps once_inv (emit behaviour fuel) (emit_keeps behaviour once_inv fuel) fuel o st Hst) as H.
  destruct (perform _ _ _ _) as [u st1|st1|st1]; [by apply IH..|done].
Qed.

Lemma once_inv_new : once_inv new_emitter.
Proof. split_and!; [apply wf_new_emitter|constructor|]. intros w. simpl. unfold fired_count. simpl. lia. Qed.

(** C26. A listener added with [once] is called at most once, and exactly when its
    wrapper is marked as fired, in every session: whatever the listeners do
    when they are called (adding, removing and emitting on the same emitter,
    nested to any depth, or throwing).  Sessions that do not end, in which
    listeners emit without bound, are included: with any amount of fuel the
    session is cut off in some state, and the claim holds of the calls made up to
    there. *)
Theorem once_fires_at_most_once (fuel : nat) (os : list op) (w : nat) :
  let st := (session fuel os new_emitter).2 in
  fired_count w st <= 1 /\
  (fired_count w st = 1 <-> from_option w_fired false (wraps st !! w) = true).
Proof.
  intros st. destruct (session_once_inv fuel os _ once_inv_new) as (_ & _ & H).
  specialize (H w). fold st in H. destruct (from_option _ _ _); split; naive_solver lia.
Qed.
End Session.

(** ** Quiet listeners

    Listeners that do not touch the emitter when they are called, and no
    listeners for the events about listeners. *)

(** C39. While nobody listens to the events about listeners ([newListener] and
    [removeListener]), an emitter is a map from types to
    lists of functions: [addListener] appends, [removeListener] takes out the
    last occurrence (of the function or of a wrapper around it), both leave
    the other types alone, and the sharing of arrays stays sound. *)
Theorem listeners_are_lists (emit_ : etype -> list val -> M bool) (t : etype) (f : fn) (st : emitter) :
  wf st -> has_event newListener st = false -> has_event removeListener_t st = false ->
  (exists st', addListener emit_ t f st = Ok tt st' /\ wf st' /\
    forall u, listeners u st' = if decide (u = t) then listeners t st ++ [f] else listeners u st) /\
  (exists st', removeListener emit_ t f st = Ok tt st' /\ wf st' /\
    forall u, listeners u st' = if decide (u = t) then remove_last f st (listeners t st) else listeners u st).
Proof.
  intros Hwf H1 H2. split.
  - destruct (addListener_quiet emit_ t f st Hwf H1) as (st' & ? & ? & _ & ?). eauto.
  - destruct (removeListener_quiet emit_ t f st Hwf H2) as (st' & ? & ? & _ & _ & ?). eauto.
Qed.

Section EmitOrder.
Variable behaviour : list call -> nat -> list op * bool.
Hypothesis quiet : forall log n, behaviour log n = ([], false).

Definition is_fn (f : fn) : bool := match f with Fn _ => true | Wrapper _ => false end.

(** The call of a listener, as it is recorded. *)
Definition call_of (st : emitter) (args : list val) (f : fn) : option call :=
  match f with
  | Fn n => Some (Call n args None)
  | Wrapper w =>
      match wraps st !! w with
      | Some g => match w_listener g with Fn n => Some (Call n args (Some w)) | _ => None end
      | None => None
      end
  end.

(** A listener that can be called: a function, or a wrapper for this type that
    has not fired. *)
Definition ready (t : etype) (st : emitter) (f : fn) : Prop :=
  match f with Fn _ => True | Wrapper w => exists n, wraps st !! w = Some (Wrap t (Fn n) false) end.

Lemma last_index_app P l1 l2 :
  last_index P (l1 ++ l2) =
  match last_index P l2 with Some i => Some (length l1 + i) | None => last_index P l1 end.
Proof.
  induction l1 as [|x l1 IH]; cbn [app last_index length]; [by destruct (last_index P l2)|].
  rewrite IH. by destruct (last_index P l2).
Qed.

Lemma last_index_none P l : Forall (fun x => P x = false) l -> last_index P l = None.
Proof. induction 1 as [|x l Hx Hl IH]; [done|]. cbn [last_index]. by rewrite IH, Hx. Qed.

Lemma remove_wrapper t st kept w fs :
  Forall (ready t st) (kept ++ Wrapper w :: fs) -> Wrapper w ∉ fs ->
  remove_last (Wrapper w) st (kept ++ Wrapper w :: fs) = kept ++ fs.
Proof.
  intros Hr Hni. unfold remove_last. rewrite last_index_app. cbn [last_index].
  rewrite last_index_none.
  - unfold is_listener at 1. rewrite bool_decide_true by done. cbn [orb].
    rewrite Nat.add_0_r, take_app_length. change (S (length kept)) with (1 + length kept).
    by rewrite Nat.add_comm, <- drop_drop, drop_app_length.
  - apply Forall_app in Hr as [_ Hr]. apply Forall_cons in Hr as [_ Hr]. rewrite Forall_forall in *.
    intros x Hx. specialize (Hr x Hx). unfold is_listener. rewrite bool_decide_false by set_solver.
    destruct x as [m|v]; [done|]. destruct Hr as [m Hm]. simpl. rewrite Hm. done.
Qed.

Lemma call_all_quiet emit_ depth fuel t args kept fs st :
  wf st -> has_event removeListener_t st = false -> listeners t st = kept ++ fs ->
  Forall (ready t st) (kept ++ fs) -> NoDup (filter (fun f => is_fn f = false) fs) ->
  Forall (fun f => is_fn f = true) kept ->
  exists st', call_all behaviour emit_ (S (S depth)) fuel fs args st = Ok tt st' /\
    listeners t st' = kept ++ filter (fun f => is_fn f = true) fs /\
    Some <$> calls st' = (Some <$> calls st) ++ map (call_of st args) fs.
Proof.
  revert kept st. induction fs as [|f fs IH]; intros kept st Hwf Hq Hl Hr Hnd Hk; cbn [call_all].
  { exists st. split_and!; [done|by rewrite Hl|by rewrite app_nil_r]. }
  destruct f as [n|w].
  - unfold bind at 1. rewrite call_fn_user, quiet. cbn [perform_all]. unfold bind at 1. cbn [ret].
    rewrite filter_cons_False in Hnd by done.
    destruct (IH (kept ++ [Fn n]) (with_call (Call n args None) st)) as (st' & H1 & H2 & H3);
      [done|done|rewrite <- app_assoc; exact Hl|by rewrite <- app_assoc|done|
       apply Forall_app; split; [done|by constructor]|].
    exists st'. split; [done|]. rewrite H2, H3. split.
    + rewrite filter_cons_True by done. by rewrite <- app_assoc.
    + cbn [calls with_call map]. rewrite fmap_app. by rewrite <- app_assoc.
  - rewrite filter_cons_True in Hnd by done. apply NoDup_cons in Hnd as [Hni Hnd].
    assert (Wrapper w ∉ fs) as Hw. { intros Hin. apply Hni, list_elem_of_filter. done. }
    assert (ready t st (Wrapper w)) as [n Hg].
    { rewrite Forall_forall in Hr. apply Hr. set_solver. }
    destruct (removeListener_quiet emit_ t (Wrapper w) st Hwf Hq) as (st1 & E1 & Hwf1 & (Ew & Ec & _) & Hq1 & L1).
    specialize (L1 t). rewrite decide_True, Hl, (remove_wrapper t) in L1 by done.
    set (st2 := with_call (Call n args (Some w)) (with_wraps (<[w := Wrap t (Fn n) true]> (wraps st1)) st1)).
    assert (call_fn behaviour emit_ (S (S depth)) fuel None (Wrapper w) args st = Ok tt st2) as Ecall.
    { cbn [call_fn]. unfold bind at 1. cbn [get]. rewrite Hg. cbn [w_type w_listener].
      unfold bind at 1. rewrite E1. unfold bind at 1. cbn [get]. rewrite Ew, Hg. cbn [from_option w_fired].
      unfold bind at 1. cbn [put]. unfold bind at 1. cbn [get]. rewrite quiet.
      unfold bind, put, ret. cbn [perform_all]. unfold st2. by rewrite Ew. }
    unfold bind. rewrite Ecall.
    destruct (IH kept st2) as (st' & H1 & H2 & H3).
    + exact Hwf1.
    + exact Hq1.
    + exact L1.
    + rewrite Forall_forall in *. intros x Hx.
      assert (ready t st x) as Hx' by (apply Hr; set_solver).
      destruct x as [m|v]; [done|]. destruct Hx' as [m Hm]. exists m. unfold st2. simpl. rewrite Ew.
      rewrite list_lookup_insert_ne; [done|]. intros ->. apply elem_of_app in Hx as [Hx%Hk|Hx]; done.
    + done.
    + done.
    + exists st'. split; [done|]. rewrite H2, H3. split; [by rewrite filter_cons_False|].
      unfold st2. simpl. rewrite Ec, fmap_app. rewrite <- app_assoc. f_equal. simpl. rewrite Hg. simpl.
      f_equal. apply map_ext_in. intros x Hx%list_elem_of_In. destruct x as [m|v]; [done|]. simpl.
      rewrite Ew, list_lookup_insert_ne; [done|]. by intros ->.
Qed.

(** [emit] calls the listeners of the type in the order in which they were
    added, each exactly once with the arguments of the event, and afterwards
    the wrappers made by [once] are gone and the other listeners are left. *)
Theorem emit_calls_in_order (fuel : nat) (t : etype) (args : list val) (st : emitter) :
  wf st -> has_event removeListener_t st = false -> has_event t st = true ->
  Forall (ready t st) (listeners t st) ->
  NoDup (filter (fun f => is_fn f = false) (listeners t st)) ->
  exists st', emit behaviour (2 + fuel) t args st = Ok true st' /\
    listeners t st' = filter (fun f => is_fn f = true) (listeners t st) /\
    Some <$> calls st' = (Some <$> calls st) ++ map (call_of st args) (listeners t st).
Proof.
  intros Hwf Hq Ht Hr Hnd.
  change (emit behaviour (2 + fuel) t args) with
    (emit_body behaviour (emit behaviour (S fuel)) (S (S fuel)) (S (S fuel)) t args).
  unfold emit_body. unfold bind at 1. cbn [get].
  destruct (call_all_quiet (emit behaviour (S fuel)) fuel (S (S fuel)) t args [] (listeners t st) st)
    as (st' & H1 & H2 & H3); [done..|].
  unfold has_event in Ht. unfold listeners in H1 at 1. destruct (assoc t (events st)) as [e|] eqn:Ee; [|done].
  rewrite decide_False.
  - unfold bind at 1. rewrite H1. by exists st'.
  - intros [_ Hu]. destruct e as [f|a]; [done|]. apply bool_decide_eq_true in Hu.
    destruct Hwf as [W1 _]. by destruct (W1 t a Ee).
Qed.
End EmitOrder.

(** ** Concrete sessions *)

(** Function 1, called for the first time, emits the event again. *)
Definition reentrant (log : list call) (n : nat) : list op * bool :=
  if decide (n = 1 /\ log = []) then ([OpEmit «"x"» []], false) else ([], false).

Definition reentrant_ops : list op := [OpOnce «"x"» 1; OpOn «"x"» 2; OpEmit «"x"» [VData 7]].

Example reentrant_run :
  (fun r => (r.1, map c_fn (calls r.2), listeners «"x"» r.2)) (session reentrant 5 reentrant_ops new_emitter) =
  (true, [1; 2; 2], [Fn 2]).
Proof. vm_compute. reflexivity. Qed.

(** Function 1 emits the event again whenever it is called: the session is cut
    off at any fuel, and the listener added with [once] was called once. *)
Example endless_run :
  (fun r => (r.1, map c_fn (calls r.2), fired_count 0 r.2))
    (session (fun _ n => (if decide (n = 1) then [OpEmit «"x"» []] else [], false)) 4
       [OpOnce «"x"» 2; OpOn «"x"» 1; OpEmit «"x"» []] new_emitter) =
  (false, [2; 1; 1; 1; 1], 1).
Proof. vm_compute. reflexivity. Qed.

(** Listeners 1 and 2 for [x], the first of them once. *)
Definition two_listeners : emitter :=
  Emitter [(«"x"», Many 0)] [([Wrapper 0; Fn 2], false)] [Wrap «"x"» (Fn 1) false] None [] 0.

Lemma two_listeners_wf : wf two_listeners.
Proof.
  split.
  - intros t a. simpl. case_decide; [|done]. intros [= <-]. split; [by eexists|done].
  - intros t u a. simpl. repeat case_decide; congruence.
Qed.

Lemma listeners_are_lists_witness :
  exists st', removeListener (fun _ _ => ret true) «"x"» (Fn 1) two_listeners = Ok tt st' /\ wf st' /\
    forall u, listeners u st' = if decide (u = «"x"») then [Fn 2] else listeners u two_listeners.
Proof.
  destruct (listeners_are_lists (fun _ _ => ret true) «"x"» (Fn 1) two_listeners two_listeners_wf
    eq_refl eq_refl) as [_ H]. exact H.
Defined.

Lemma emit_calls_in_order_witness :
  exists st', emit (fun _ _ => ([], false)) 2 «"x"» [VData 7] two_listeners = Ok true st' /\
    listeners «"x"» st' = [Fn 2] /\
    Some <$> calls st' = [Some (Call 1 [VData 7] (Some 0)); Some (Call 2 [VData 7] None)].
Proof.
  apply (emit_calls_in_order (fun _ _ => ([], false)) (fun _ _ => eq_refl) 0 «"x"» [VData 7] two_listeners).
  - exact two_listeners_wf.
  - reflexivity.
  - reflexivity.
  - constructor; [by exists 1|]. constructor; [exact I|constructor].
  - apply NoDup_singleton.
Defined.

(** With a listener for [removeListener], [removeAllListeners(t)] throws when
    [t] has no listeners: it reads the length of an undefined value. *)
Example remove_all_of_nothing_throws :
  exists st, session (fun _ _ => ([], false)) 5 [OpOn «"removeListener"» 1] new_emitter = (true, st) /\
    perform (emit (fun _ _ => ([], false)) 5) 5 (OpRemoveAll (Some «"x"»)) st = Threw st.
Proof. eexists. split; [vm_compute; reflexivity|]. vm_compute. reflexivity. Qed.
