(* ===== verification/ProcessTick.v ===== *)
(** * The [process] shim: timers and the [nextTick] queue

    Module 24 of wordcut.js.  The shim keeps the functions submitted with
    [process.nextTick] in a queue that a zero-delay timer drains; while it
    drains, a second timer is armed that resumes the work when a callback
    throws out of the drain loop.

    The host is the environment of the model: the functions bound to
    [setTimeout] and [clearTimeout], and what a callback does when it is run,
    are parameters.  The host fires pending timers, in any order and only when
    no JavaScript is running; the loop of [drainQueue] is split at its test, so
    that a drain that never ends is a sequence of steps like any other. *)

From S2P Require Import Prelude.

(** ** [runTimeout] and [runClearTimeout] *)

(** A function value of the host, or the default of the shim, which throws. *)
Inductive timer_fn := DefaultFn | HostFn (n : nat).

#[export] Instance timer_fn_eq_dec : EqDecision timer_fn.
Proof. solve_decision. Defined.

(** How a host function is called: plainly, with [this] null, with the
    enclosing [this]. *)
Inductive call_style := Plain | CallNull | CallThis.

Section Timers.
(** Whether the host function, called this way, does its work (or throws). *)
Variable accepts : nat -> call_style -> bool.

(** What is cached at load time, from the global binding if it is there. *)
Definition cached_at_load (global : option nat) : timer_fn :=
  match global with Some n => HostFn n | None => DefaultFn end.

Definition call_fn (f : timer_fn) (style : call_style) : bool :=
  match f with DefaultFn => false | HostFn n => accepts n style end.

(** The function that ends up doing the work, and what is cached after the
    call; [None] when the call throws (also when the global is not declared,
    as the first comparison is then a reference error). *)
Definition run_cached (global : option nat) (cached : timer_fn) : option timer_fn * timer_fn :=
  match global with
  | None => (None, cached)
  | Some n =>
      if decide (cached = HostFn n) then
        (if call_fn (HostFn n) Plain then Some (HostFn n) else None, cached)
      else if decide (cached = DefaultFn) then
        (if call_fn (HostFn n) Plain then Some (HostFn n) else None, HostFn n)
      else
        (if call_fn cached Plain || call_fn cached CallNull || call_fn cached CallThis
         then Some cached else None, cached)
  end.
End Timers.

(** ** The queue *)

Inductive timer := DrainQueue | CleanUpNextTick.

#[export] Instance timer_eq_dec : EqDecision timer.
Proof. solve_decision. Defined.

(** Where control is: back in the host, or at the test of the inner loop of
    [drainQueue] with its locals [len] and [timeout]. *)
Inductive control := Host | Draining (len : nat) (timeout : nat).

(** A submitted function with its arguments is a number here. *)
Abbreviation item := nat.

Record state := State {
  queue : list item;
  draining : bool;
  currentQueue : option (list item);
  queueIndex : Z;
  cachedSetTimeout : timer_fn;
  cachedClearTimeout : timer_fn;
  timers : list (nat * timer);   (** armed in the host, by marker *)
  markers : nat;                 (** the next marker of the host *)
  pc : control;
  submitted : list item;         (** history: arguments of [nextTick] *)
  ran : list item                (** history: items whose [run] was called *)
}.

(** What the code of the shim reads of its host. *)
Record host := {
  global_setTimeout : option nat;
  global_clearTimeout : option nat;
  set_accepts : nat -> call_style -> bool;
  clear_accepts : nat -> call_style -> bool;
  (** the [nextTick] calls that an item makes when it runs after the items
      [ran], and whether it then throws *)
  behaviour : list item -> item -> list item * bool
}.

Definition set_queue (q : list item) (st : state) : state :=
  State q (draining st) (currentQueue st) (queueIndex st) (cachedSetTimeout st)
    (cachedClearTimeout st) (timers st) (markers st) (pc st) (submitted st) (ran st).
Definition set_draining (b : bool) (st : state) : state :=
  State (queue st) b (currentQueue st) (queueIndex st) (cachedSetTimeout st)
    (cachedClearTimeout st) (timers st) (markers st) (pc st) (submitted st) (ran st).
Definition set_currentQueue (q : option (list item)) (st : state) : state :=
  State (queue st) (draining st) q (queueIndex st) (cachedSetTimeout st)
    (cachedClearTimeout st) (timers st) (markers st) (pc st) (submitted st) (ran st).
Definition set_queueIndex (i : Z) (st : state) : state :=
  State (queue st) (draining st) (currentQueue st) i (cachedSetTimeout st)
    (cachedClearTimeout st) (timers st) (markers st) (pc st) (submitted st) (ran st).
Definition set_timers (ts : list (nat * timer)) (st : state) : state :=
  State (queue st) (draining st) (currentQueue st) (queueIndex st) (cachedSetTimeout st)
    (cachedClearTimeout st) ts (markers st) (pc st) (submitted st) (ran st).
Definition set_pc (c : control) (st : state) : state :=
  State (queue st) (draining st) (currentQueue st) (queueIndex st) (cachedSetTimeout st)
    (cachedClearTimeout st) (timers st) (markers st) c (submitted st) (ran st).
Definition log_submitted (x : item) (st : state) : state :=
  State (queue st) (draining st) (currentQueue st) (queueIndex st) (cachedSetTimeout st)
    (cachedClearTimeout st) (timers st) (markers st) (pc st) (submitted st ++ [x]) (ran st).
Definition log_ran (x : item) (st : state) : state :=
  State (queue st) (draining st) (currentQueue st) (queueIndex st) (cachedSetTimeout st)
    (cachedClearTimeout st) (timers st) (markers st) (pc st) (submitted st) (ran st ++ [x]).

Section Shim.
Variable h : host.

Definition load : state :=
  State [] false None (-1) (cached_at_load (global_setTimeout h))
    (cached_at_load (global_clearTimeout h)) [] 0 Host [] [].

(** The marker of the new timer, or [None] when the call throws. *)
Definition runTimeout (f : timer) (st : state) : option nat * state :=
  let '(worker, cached) := run_cached (set_accepts h) (global_setTimeout h) (cachedSetTimeout st) in
  match worker with
  | Some _ =>
      (Some (markers st),
       State (queue st) (draining st) (currentQueue st) (queueIndex st) cached
         (cachedClearTimeout st) (timers st ++ [(markers st, f)]) (S (markers st))
         (pc st) (submitted st) (ran st))
  | None =>
      (None, State (queue st) (draining st) (currentQueue st) (queueIndex st) cached
         (cachedClearTimeout st) (timers st) (markers st) (pc st) (submitted st) (ran st))
  end.

Definition runClearTimeout (marker : nat) (st : state) : state :=
  let '(worker, cached) :=
    run_cached (clear_accepts h) (global_clearTimeout h) (cachedClearTimeout st) in
  State (queue st) (draining st) (currentQueue st) (queueIndex st) (cachedSetTimeout st) cached
    (match worker with Some _ => filter (fun t => t.1 <> marker) (timers st) | None => timers st end)
    (markers st) (pc st) (submitted st) (ran st).

(** The boolean is false when the call throws. *)
Definition nextTick (x : item) (st : state) : bool * state :=
  let st := log_submitted x (set_queue (queue st ++ [x]) st) in
  if decide (length (queue st) = 1 /\ draining st = false) then
    let '(marker, st) := runTimeout DrainQueue st in
    (match marker with Some _ => true | None => false end, st)
  else (true, st).

(** The calls of [nextTick] that a callback makes, up to the first that
    throws. *)
Fixpoint nextTicks (xs : list item) (st : state) : bool * state :=
  match xs with
  | [] => (true, st)
  | x :: xs' =>
      let '(ok, st) := nextTick x st in
      if ok then nextTicks xs' st else (false, st)
  end.

(** [while(len)]: start a round, or finish the drain. *)
Definition drain_round (len timeout : nat) (st : state) : state :=
  match len with
  | S _ => set_pc (Draining len timeout) (set_queue [] (set_currentQueue (Some (queue st)) st))
  | O => set_pc Host (runClearTimeout timeout (set_draining false (set_currentQueue None st)))
  end.

Definition drainQueue (st : state) : state :=
  if draining st then st
  else
    let '(timeout, st) := runTimeout CleanUpNextTick st in
    match timeout with
    | Some timeout => drain_round (length (queue st)) timeout (set_draining true st)
    | None => st
    end.

Definition cleanUpNextTick (st : state) : state :=
  match draining st, currentQueue st with
  | true, Some cq =>
      let st := set_draining false st in
      let st := if decide (cq = []) then set_queueIndex (-1) st
                else set_queue (cq ++ queue st) st in
      if decide (queue st = []) then st else drainQueue st
  | _, _ => st
  end.

(** [Item.prototype.run]: the boolean is false when the callback throws. *)
Definition run_item (x : item) (st : state) : bool * state :=
  let '(pushes, throws) := behaviour h (ran st) x in
  let '(ok, st) := nextTicks pushes (log_ran x st) in
  (ok && negb throws, st).

(** [while (++queueIndex < len)] and its body; an exception leaves
    [drainQueue] at once, with its variables as they are. *)
Definition drain_test (len timeout : nat) (st : state) : state :=
  let st := set_queueIndex (queueIndex st + 1) st in
  if decide (queueIndex st < Z.of_nat len)%Z then
    match currentQueue st with
    | Some cq =>
        match zlookup cq (queueIndex st) with
        | Some x => let '(ok, st) := run_item x st in if ok then st else set_pc Host st
        | None => set_pc Host st
        end
    | None => st
    end
  else
    let st := set_queueIndex (-1) st in
    drain_round (length (queue st)) timeout st.

(** ** Steps

    The host submits an item or fires an armed timer when no JavaScript runs;
    otherwise the drain goes on. *)
Inductive event := Submit (x : item) | Fire (marker : nat) | Continue.

Definition step (e : event) (st : state) : option state :=
  match pc st, e with
  | Host, Submit x => Some (nextTick x st).2
  | Host, Fire m =>
      '(_, f) ← list_find (fun t => t.1 = m) (timers st);
      let st := set_timers (filter (fun t => t.1 <> m) (timers st)) st in
      Some (match f.2 with DrainQueue => drainQueue st | CleanUpNextTick => cleanUpNextTick st end)
  | Draining len timeout, Continue => Some (drain_test len timeout st)
  | _, _ => None
  end.

Fixpoint steps (es : list event) (st : state) : option state :=
  match es with
  | [] => Some st
  | e :: es' => st ← step e st; steps es' st
  end.

Inductive reachable : state -> Prop :=
| reachable_load : reachable load
| reachable_step e st st' : reachable st -> step e st = Some st' -> reachable st'.
End Shim.

(** ** Invariant *)

(** The items that are submitted and not yet run, in the order in which the
    code will run them. *)
Definition pending (st : state) : list item :=
  match currentQueue st with
  | Some cq => drop (Z.to_nat (queueIndex st + 1)) cq
  | None => []
  end ++ queue st.

Definition armed (f : timer) (st : state) : Prop := exists m, (m, f) ∈ timers st.

(** The shared variables in each phase of the shim: idle, stopped inside a
    round by an exception, or at the test of the inner loop. *)
Definition phase_ok (st : state) : Prop :=
  match pc st, draining st with
  | Host, false =>
      currentQueue st = None /\ queueIndex st = (-1)%Z /\ (queue st <> [] -> armed DrainQueue st)
  | Host, true =>
      exists cq, currentQueue st = Some cq /\ (0 <= queueIndex st < Z.of_nat (length cq))%Z /\
        armed CleanUpNextTick st
  | Draining len _, b =>
      b = true /\ armed CleanUpNextTick st /\
      exists cq, currentQueue st = Some cq /\ length cq = len /\
        (-1 <= queueIndex st < Z.of_nat len)%Z
  end.

Definition markers_ok (st : state) : Prop :=
  NoDup (timers st).*1 /\ Forall (fun t => t.1 < markers st) (timers st).

Section Proofs.
Variable h : host.
Variable n : nat.
(** The host has a working [setTimeout], the same one at load and later. *)
Hypothesis global_ok : global_setTimeout h = Some n.
Hypothesis accepts_ok : set_accepts h n Plain = true.

Record inv (st : state) : Prop := {
  inv_fifo : submitted st = ran st ++ pending st;
  inv_cached : cachedSetTimeout st = HostFn n;
  inv_markers : markers_ok st;
  inv_phase : phase_ok st
}.

Definition arm (f : timer) (st : state) : state :=
  State (queue st) (draining st) (currentQueue st) (queueIndex st) (cachedSetTimeout st)
    (cachedClearTimeout st) (timers st ++ [(markers st, f)]) (S (markers st))
    (pc st) (submitted st) (ran st).

Lemma runTimeout_arms f st :
  cachedSetTimeout st = HostFn n -> runTimeout h f st = (Some (markers st), arm f st).
Proof.
  intros Hc. unfold runTimeout, run_cached, arm. rewrite global_ok, Hc, decide_True by done.
  simpl. by rewrite accepts_ok.
Qed.

Lemma arm_armed f st : armed f (arm f st).
Proof. exists (markers st). simpl. set_solver. Qed.

Lemma arm_markers f st : markers_ok st -> markers_ok (arm f st).
Proof.
  intros [Hnd Hlt]. split; simpl.
  - rewrite fmap_app. apply NoDup_app. split_and!; [done| |by apply NoDup_singleton].
    intros m Hm Hm'. apply list_elem_of_singleton in Hm'. simpl in Hm'. subst.
    apply list_elem_of_fmap in Hm as (t & Ht & Hin). rewrite Forall_forall in Hlt.
    apply Hlt in Hin. lia.
  - apply Forall_app. split; [eapply Forall_impl; [exact Hlt|simpl; lia]|].
    constructor; [simpl; lia|constructor].
Qed.

Lemma filter_markers m st :
  markers_ok st -> markers_ok (set_timers (filter (fun t => t.1 <> m) (timers st)) st).
Proof.
  intros [Hnd Hlt]. split; simpl.
  - eapply sublist_NoDup; [exact Hnd|]. apply fmap_sublist, sublist_filter.
  - rewrite Forall_forall in *. intros t [_ Ht]%list_elem_of_filter. by apply Hlt.
Qed.

(** Firing a timer of one kind leaves the timers of the other kind armed. *)
Lemma armed_other f g m st :
  markers_ok st -> (m, f) ∈ timers st -> f <> g -> armed g st ->
  armed g (set_timers (filter (fun t => t.1 <> m) (timers st)) st).
Proof.
  intros [Hnd _] Hf Hne (m' & Hg). exists m'. simpl. apply list_elem_of_filter.
  split; [|done]. simpl. intros ->. apply Hne.
  clear -Hnd Hf Hg. induction (timers st) as [|t l IH]; [set_solver|].
  apply NoDup_cons in Hnd as [Hni Hnd].
  apply elem_of_cons in Hf as [<-|Hf]; apply elem_of_cons in Hg as [E|Hg].
  - congruence.
  - destruct Hni. apply list_elem_of_fmap. by exists (m, g).
  - subst t. destruct Hni. apply list_elem_of_fmap. by exists (m, f).
  - by apply IH.
Qed.

Lemma inv_load : inv (load h).
Proof.
  split; simpl; [done|by rewrite global_ok| |].
  - split; constructor.
  - split_and!; done.
Qed.

(** *** Submitting *)

Lemma pending_push x st :
  pending (log_submitted x (set_queue (queue st ++ [x]) st)) = pending st ++ [x].
Proof. unfold pending. simpl. by rewrite app_assoc. Qed.

Lemma armed_ext f st st' : timers st' = timers st -> armed f st -> armed f st'.
Proof. unfold armed. by intros ->. Qed.

Lemma nextTick_inv x st :
  inv st -> (nextTick h x st).1 = true /\ inv (nextTick h x st).2 /\
    ran (nextTick h x st).2 = ran st /\ pc (nextTick h x st).2 = pc st.
Proof.
  intros [Hf Hc Hm Hp]. unfold nextTick.
  set (st1 := log_submitted x (set_queue (queue st ++ [x]) st)).
  assert (submitted st1 = ran st1 ++ pending st1) as Hf1.
  { unfold st1 at 3. rewrite pending_push. simpl. by rewrite Hf, app_assoc. }
  case_decide as Hd.
  - rewrite runTimeout_arms by done. simpl. split_and!; [done| |done|done].
    split; [done|done|by apply arm_markers|].
    unfold phase_ok in *. destruct Hd as [Hlen Hd]. cbn [draining pc arm] in *.
    unfold st1 in Hd. simpl in Hd. rewrite Hd in Hp.
    change (pc st1) with (pc st). change (draining st1) with (draining st). rewrite Hd.
    destruct (pc st) as [|len t]; [|by destruct Hp].
    destruct Hp as (H1 & H2 & _). split_and!; [done|done|]. intros _. apply arm_armed.
  - simpl. split_and!; [done| |done|done]. split; [done|done|done|].
    unfold phase_ok in *. change (pc st1) with (pc st). change (draining st1) with (draining st).
    destruct (pc st) as [|len t], (draining st) eqn:Ed; try done.
    destruct Hp as (H1 & H2 & H3). split_and!; [done|done|]. intros _. apply H3.
    intros E. apply Hd. unfold st1. simpl. by rewrite E.
Qed.

Lemma nextTicks_inv xs st :
  inv st -> (nextTicks h xs st).1 = true /\ inv (nextTicks h xs st).2 /\
    ran (nextTicks h xs st).2 = ran st /\ pc (nextTicks h xs st).2 = pc st.
Proof.
  revert st. induction xs as [|x xs IH]; intros st Hinv; [done|]. simpl.
  destruct (nextTick_inv x st Hinv) as (H1 & H2 & H3 & H4).
  destruct (nextTick h x st) as [ok st1]. simpl in *. subst ok.
  destruct (IH st1 H2) as (? & ? & ? & ?). split_and!; congruence || done.
Qed.

(** *** Draining *)

(** The state in which a round starts: the next item to run is at
    [queueIndex + 1] of [queue]. *)
Definition round_ready (st : state) : Prop :=
  draining st = true /\ armed CleanUpNextTick st /\ cachedSetTimeout st = HostFn n /\
  markers_ok st /\ submitted st = ran st ++ drop (Z.to_nat (queueIndex st + 1)) (queue st) /\
  (-1 <= queueIndex st)%Z /\ (queueIndex st = (-1)%Z \/ (queueIndex st < Z.of_nat (length (queue st)))%Z).

Lemma runClearTimeout_frame m st :
  exists cached ts, runClearTimeout h m st =
    State (queue st) (draining st) (currentQueue st) (queueIndex st) (cachedSetTimeout st)
      cached ts (markers st) (pc st) (submitted st) (ran st) /\
    (ts = timers st \/ ts = filter (fun t => t.1 <> m) (timers st)).
Proof.
  unfold runClearTimeout. destruct (run_cached _ _ _) as [worker cached].
  exists cached, (match worker with Some _ => filter (fun t => t.1 <> m) (timers st) | None => timers st end).
  split; [done|]. destruct worker; [by right|by left].
Qed.

Lemma drain_round_inv timeout st :
  round_ready st -> inv (drain_round h (length (queue st)) timeout st).
Proof.
  intros (Hd & Ha & Hc & Hm & Hf & Hlo & Hhi). unfold drain_round.
  destruct (length (queue st)) as [|len] eqn:El.
  - apply nil_length_inv in El. assert (queueIndex st = (-1)%Z) as Eq by lia.
    destruct (runClearTimeout_frame timeout (set_draining false (set_currentQueue None st)))
      as (cached & ts & -> & Hts).
    rewrite El, Eq in Hf. split; simpl.
    + by unfold pending; simpl; rewrite El.
    + done.
    + destruct Hts as [-> | ->]; [done|by apply filter_markers].
    + split_and!; [done|done|]. by rewrite El.
  - split; simpl; [|done|done|].
    + unfold pending. simpl. by rewrite app_nil_r.
    + split_and!; [done|done|]. exists (queue st). simpl. split_and!; [done|done|lia|lia].
Qed.

Lemma drainQueue_inv st :
  draining st = false -> cachedSetTimeout st = HostFn n -> markers_ok st ->
  submitted st = ran st ++ drop (Z.to_nat (queueIndex st + 1)) (queue st) ->
  (-1 <= queueIndex st)%Z -> (queueIndex st = (-1)%Z \/ (queueIndex st < Z.of_nat (length (queue st)))%Z) ->
  inv (drainQueue h st).
Proof.
  intros Hd Hc Hm Hf Hlo Hhi. unfold drainQueue. rewrite Hd, runTimeout_arms by done.
  apply (drain_round_inv (markers st) (set_draining true (arm CleanUpNextTick st))). split_and!; simpl; try done.
  - eapply armed_ext, arm_armed. done.
  - by apply arm_markers.
Qed.

Lemma run_item_inv x st :
  inv (log_ran x st) ->
  inv (run_item h x st).2 /\ ran (run_item h x st).2 = ran st ++ [x] /\
    pc (run_item h x st).2 = pc st.
Proof.
  intros Hinv. unfold run_item. destruct (behaviour h (ran st) x) as [pushes throws].
  destruct (nextTicks_inv pushes (log_ran x st) Hinv) as (_ & H2 & H3 & H4).
  by destruct (nextTicks h pushes (log_ran x st)) as [ok st1].
Qed.

(** A round that is left by an exception is an idle state that waits for
    [cleanUpNextTick]. *)
Lemma inv_throw st len t :
  inv st -> pc st = Draining len t -> (0 <= queueIndex st)%Z -> inv (set_pc Host st).
Proof.
  intros [Hf Hc Hm Hp] Hpc Hlo. split; [done..|]. unfold phase_ok in *. simpl. rewrite Hpc in Hp.
  destruct Hp as (-> & Ha & cq & H1 & H2 & H3). exists cq. split_and!; (done || lia).
Qed.

Lemma nextTick_queueIndex x st : queueIndex (nextTick h x st).2 = queueIndex st.
Proof.
  unfold nextTick. case_decide; [|done]. unfold runTimeout.
  destruct (run_cached _ _ _) as [[w|] c]; done.
Qed.

Lemma nextTicks_queueIndex xs st : queueIndex (nextTicks h xs st).2 = queueIndex st.
Proof.
  revert st. induction xs as [|x xs IH]; intros st; [done|]. simpl.
  pose proof (nextTick_queueIndex x st) as E. destruct (nextTick h x st) as [[] st1]; simpl in *; [|done].
  by rewrite IH.
Qed.

Lemma run_item_queueIndex x st : queueIndex (run_item h x st).2 = queueIndex st.
Proof.
  unfold run_item. destruct (behaviour h (ran st) x) as [pushes throws].
  pose proof (nextTicks_queueIndex pushes (log_ran x st)) as E.
  by destruct (nextTicks h pushes (log_ran x st)) as [ok st1].
Qed.

(** One turn of the inner loop: it either runs the first pending item, or
    starts the next round, which runs nothing. *)
Lemma drain_test_inv len t st :
  inv st -> pc st = Draining len t ->
  inv (drain_test h len t st) /\
  match currentQueue st with
  | Some cq =>
      match cq !! Z.to_nat (queueIndex st + 1) with
      | Some x => ran (drain_test h len t st) = ran st ++ [x]
      | None => ran (drain_test h len t st) = ran st /\
                pending (drain_test h len t st) = pending st
      end
  | None => False
  end.
Proof.
  intros Hinv Hpc. destruct Hinv as [Hf Hc Hm Hp]. unfold phase_ok in Hp. rewrite Hpc in Hp.
  destruct Hp as (Hd & Ha & cq & Hcq & Hlen & Hlo). rewrite Hcq.
  unfold drain_test. cbn [queueIndex set_queueIndex currentQueue]. rewrite Hcq.
  case_decide as Hlt.
  - destruct (lookup_lt_is_Some_2 cq (Z.to_nat (queueIndex st + 1))) as [x Hx]; [lia|].
    assert (zlookup cq (queueIndex st + 1) = Some x) as -> by (apply zlookup_Some; split; [lia|done]).
    rewrite Hx. set (st1 := set_queueIndex (queueIndex st + 1) st).
    assert (inv (log_ran x st1)) as Hinv1.
    { split; [|done|done|].
      - unfold pending in *. simpl. rewrite Hcq in *. rewrite Hf.
        rewrite (drop_S cq x (Z.to_nat (queueIndex st + 1))) by done.
        replace (Z.to_nat (queueIndex st + 1 + 1)) with (S (Z.to_nat (queueIndex st + 1))) by lia.
        by rewrite <- !app_assoc.
      - unfold phase_ok. simpl. rewrite Hpc. split_and!; [done|done|]. exists cq. split_and!; (done || lia). }
    destruct (run_item_inv x st1 Hinv1) as (H1 & H2 & H3).
    pose proof (run_item_queueIndex x st1) as H4.
    destruct (run_item h x st1) as [[] st2]; simpl in *; split; try done.
    eapply inv_throw; [done|by rewrite H3|]. simpl in H4. lia.
  - assert (queueIndex st + 1 = Z.of_nat (length cq))%Z as Eq by lia.
    rewrite lookup_ge_None_2 by lia.
    assert (drop (Z.to_nat (queueIndex st + 1)) cq = []) as Edrop by (apply drop_ge; lia).
    unfold pending in *. rewrite Hcq, Edrop in *. cbn [queue set_queueIndex].
    assert (round_ready (set_queueIndex (-1) (set_queueIndex (queueIndex st + 1) st))) as Hr.
    { split_and!; simpl; try done. by left. }
    split; [exact (drain_round_inv t _ Hr)|].
    unfold drain_round. destruct (length (queue st)) eqn:El; simpl.
    + destruct (runClearTimeout_frame t (set_draining false (set_currentQueue None
        (set_queueIndex (-1) (set_queueIndex (queueIndex st + 1) st))))) as (c & ts & -> & _).
      apply nil_length_inv in El. simpl. by rewrite El.
    + by rewrite app_nil_r.
Qed.

Lemma cleanUpNextTick_inv st :
  pc st = Host -> draining st = true -> submitted st = ran st ++ pending st ->
  cachedSetTimeout st = HostFn n -> markers_ok st ->
  (exists cq, currentQueue st = Some cq /\ (0 <= queueIndex st < Z.of_nat (length cq))%Z) ->
  inv (cleanUpNextTick h st).
Proof.
  intros Hpc Hd Hf Hc Hm (cq & Hcq & Hq). unfold cleanUpNextTick. rewrite Hd, Hcq.
  assert (cq <> []) as Hne by (intros ->; simpl in Hq; lia).
  rewrite (decide_False (P := cq = [])) by done. cbn [queue set_queue set_draining].
  rewrite decide_False by (by destruct cq).
  apply drainQueue_inv; simpl; try done; [|lia|rewrite length_app; lia].
  unfold pending in Hf. rewrite Hcq in Hf. by rewrite Hf, drop_app_le by lia.
Qed.

Lemma step_inv e st st' : inv st -> step h e st = Some st' -> inv st'.
Proof.
  intros Hinv. unfold step. destruct (pc st) as [|len t] eqn:Hpc.
  - destruct e as [x|m|]; [| |done].
    + intros [= <-]. by apply nextTick_inv.
    + destruct (list_find _ (timers st)) as [[i [m' f]]|] eqn:Ef; [|done]. cbn [mbind option_bind].
      apply list_find_Some in Ef as (Hi & Hm & _). simpl in Hm. subst m'.
      apply list_elem_of_lookup_2 in Hi.
      destruct Hinv as [Hf Hc Hmk Hp]. set (st1 := set_timers _ st). simpl.
      assert (markers_ok st1) as Hmk1 by (by apply filter_markers).
      unfold phase_ok in Hp. rewrite Hpc in Hp.
      destruct f; intros [= <-]; destruct (draining st) eqn:Ed.
      * unfold drainQueue. simpl. rewrite Ed. split; [done..|]. unfold phase_ok. simpl.
        rewrite Hpc, Ed. destruct Hp as (cq & H1 & H2 & H3). exists cq. refine (conj H1 (conj H2 _)).
        by apply (armed_other DrainQueue).
      * destruct Hp as (H1 & H2 & _). apply drainQueue_inv; simpl; try done; [|lia|by left].
        rewrite H2, Hf. unfold pending. by rewrite H1.
      * destruct Hp as (cq & H1 & H2 & _). apply cleanUpNextTick_inv; simpl; eauto.
      * unfold cleanUpNextTick. simpl. rewrite Ed. split; [done..|]. unfold phase_ok. simpl.
        rewrite Hpc, Ed. destruct Hp as (H1 & H2 & H3). split_and!; [done..|]. intros Hq.
        by apply (armed_other CleanUpNextTick); [..|apply H3].
  - destruct e; [done|done|]. intros [= <-]. by apply drain_test_inv.
Qed.

Lemma reachable_inv st : reachable h st -> inv st.
Proof. induction 1; [apply inv_load|by eapply step_inv]. Qed.

(** ** Progress *)

(** Steps of the shim alone, without new work from outside. *)
Definition internal (e : event) : Prop := match e with Submit _ => False | _ => True end.

Lemma inv_pending st st' :
  inv st -> inv st' -> submitted st' = submitted st -> ran st' = ran st -> pending st' = pending st.
Proof.
  intros [Hf _ _ _] [Hf' _ _ _] Es Er. apply (app_inv_head (ran st)). congruence.
Qed.

Lemma fire_step st m f :
  inv st -> pc st = Host -> (m, f) ∈ timers st ->
  step h (Fire m) st =
    Some (match f with DrainQueue => drainQueue h | CleanUpNextTick => cleanUpNextTick h end
            (set_timers (filter (fun t => t.1 <> m) (timers st)) st)).
Proof.
  intros [_ _ [Hnd _] _] Hpc Hin. unfold step. rewrite Hpc.
  destruct (list_find _ (timers st)) as [[i [m' f']]|] eqn:Ef.
  - apply list_find_Some in Ef as (Hi & Hm & _). simpl in Hm. subst m'.
    apply list_elem_of_lookup_1 in Hin as [j Hj].
    assert (i = j) as ->.
    { eapply (NoDup_lookup _ _ _ m Hnd); rewrite list_lookup_fmap; [by rewrite Hi|by rewrite Hj]. }
    rewrite Hi in Hj. injection Hj as ->. by destruct f.
  - apply list_find_None in Ef. rewrite Forall_forall in Ef. by destruct (Ef _ Hin).
Qed.

Lemma drainQueue_starts st :
  draining st = false -> cachedSetTimeout st = HostFn n -> queue st <> [] ->
  ran (drainQueue h st) = ran st /\ submitted (drainQueue h st) = submitted st /\
  exists len t, pc (drainQueue h st) = Draining len t.
Proof.
  intros Hd Hc Hq. unfold drainQueue. rewrite Hd, runTimeout_arms by done.
  unfold drain_round. cbn [queue arm]. destruct (queue st); [done|]. simpl. eauto.
Qed.

(** Some timer starts a drain when there is work and no drain is running. *)
Lemma fire_starts st :
  inv st -> pc st = Host -> pending st <> [] ->
  exists m st', step h (Fire m) st = Some st' /\ ran st' = ran st /\
    submitted st' = submitted st /\ exists len t, pc st' = Draining len t.
Proof.
  intros Hinv Hpc Hne. pose proof (inv_phase _ Hinv) as Hp. unfold phase_ok in Hp. rewrite Hpc in Hp.
  destruct (draining st) eqn:Ed.
  - destruct Hp as (cq & Hcq & Hq & m & Hm). exists m.
    assert (cq <> []) as Hcq0 by (intros ->; simpl in Hq; lia).
    eexists. split; [by apply fire_step|]. cbv beta iota. unfold cleanUpNextTick.
    cbn [draining set_timers currentQueue]. rewrite Ed, Hcq.
    rewrite (decide_False (P := cq = [])) by done. cbn [queue set_queue set_draining].
    rewrite decide_False by (by destruct cq).
    edestruct drainQueue_starts as (-> & -> & Hx); [..|split_and!; [done|done|exact Hx]];
      simpl; [done|apply Hinv|by destruct cq].
  - destruct Hp as (Hcq & Hq & Ha). assert (queue st <> []) as Hq0.
    { unfold pending in Hne. by rewrite Hcq in Hne. }
    destruct (Ha Hq0) as [m Hm]. exists m. eexists. split; [by apply fire_step|]. cbv beta iota.
    edestruct drainQueue_starts as (-> & -> & Hx); [..|split_and!; [done|done|exact Hx]];
      simpl; [done|apply Hinv|done].
Qed.

Lemma drain_runs_next st len t x rest :
  inv st -> pc st = Draining len t -> pending st = x :: rest ->
  exists es st', Forall internal es /\ steps h es st = Some st' /\ inv st' /\
    ran st' = ran st ++ [x].
Proof.
  intros Hinv Hpc Hpend. destruct (drain_test_inv len t st Hinv Hpc) as [Hinv1 H1].
  destruct (currentQueue st) as [cq|] eqn:Hcq; [|done].
  assert (step h Continue st = Some (drain_test h len t st)) as Hs1 by (unfold step; by rewrite Hpc).
  destruct (cq !! _) as [y|] eqn:Hy.
  - unfold pending in Hpend. rewrite Hcq, (drop_S cq y) in Hpend by done. simpl in Hpend.
    assert (y = x) as -> by congruence. exists [Continue], (drain_test h len t st).
    split_and!; [by constructor|by simpl; rewrite Hs1|done|done].
  - destruct H1 as [Hran Hpend1]. set (st1 := drain_test h len t st) in *.
    apply lookup_ge_None_1 in Hy.
    assert (exists len1 t1, pc st1 = Draining len1 t1 /\ exists y q,
      currentQueue st1 = Some (y :: q) /\ queueIndex st1 = (-1)%Z) as (len1 & t1 & Hpc1 & y & q & Hcq1 & Hq1).
    { unfold pending in Hpend. rewrite Hcq, drop_ge in Hpend by done. simpl in Hpend.
      pose proof (inv_phase _ Hinv) as Hp. unfold phase_ok in Hp. rewrite Hpc, Hcq in Hp.
      destruct Hp as (_ & _ & cq' & [= <-] & Hl & Hlo).
      unfold st1, drain_test. cbn [queueIndex set_queueIndex]. rewrite decide_False by lia.
      cbn [queue set_queueIndex]. rewrite Hpend. simpl. rewrite Hpend. eauto 10. }
    destruct (drain_test_inv len1 t1 st1 Hinv1 Hpc1) as [Hinv2 H2].
    rewrite Hcq1, Hq1 in H2. change (Z.to_nat (-1 + 1)) with 0 in H2. cbn in H2.
    assert (y = x) as ->.
    { rewrite Hpend in Hpend1. unfold pending in Hpend1. rewrite Hcq1, Hq1 in Hpend1.
      simpl in Hpend1. congruence. }
    exists [Continue; Continue], (drain_test h len1 t1 st1).
    split_and!; [by repeat constructor| |done|congruence].
    simpl. rewrite Hs1. simpl. fold st1. unfold step. by rewrite Hpc1.
Qed.

Lemma steps_app es1 es2 st st1 :
  steps h es1 st = Some st1 -> steps h (es1 ++ es2) st = steps h es2 st1.
Proof.
  revert st. induction es1 as [|e es1 IH]; intros st; simpl; [by intros [= ->]|].
  destruct (step h e st) as [st'|]; simpl; [apply IH|done].
Qed.

Lemma runs_next st x rest :
  inv st -> pending st = x :: rest ->
  exists es st', Forall internal es /\ steps h es st = Some st' /\ inv st' /\
    ran st' = ran st ++ [x].
Proof.
  intros Hinv Hpend. destruct (pc st) as [|len t] eqn:Hpc; [|by eapply drain_runs_next].
  destruct (fire_starts st Hinv Hpc) as (m & st1 & Hs & Hr & Hsub & len & t & Hpc1); [by rewrite Hpend|].
  assert (inv st1) as Hinv1 by (by eapply step_inv).
  destruct (drain_runs_next st1 len t x rest Hinv1 Hpc1) as (es & st' & Hes & Hst & Hinv' & Hran).
  { rewrite <- Hpend. by apply inv_pending. }
  exists (Fire m :: es), st'. split_and!; [by constructor|simpl; by rewrite Hs|done|congruence].
Qed.

(** The history of submissions only grows. *)
Lemma nextTick_submitted x st : submitted (nextTick h x st).2 = submitted st ++ [x].
Proof.
  unfold nextTick. case_decide; [|done]. unfold runTimeout.
  by destruct (run_cached _ _ _) as [[w|] c].
Qed.

Lemma nextTicks_submitted xs st : submitted st `prefix_of` submitted (nextTicks h xs st).2.
Proof.
  revert st. induction xs as [|x xs IH]; intros st; [done|]. simpl.
  pose proof (nextTick_submitted x st) as E. destruct (nextTick h x st) as [[] st1]; simpl in *.
  - etrans; [|apply IH]. rewrite E. by apply prefix_app_r.
  - rewrite E. by apply prefix_app_r.
Qed.

Lemma drain_round_submitted len t st : submitted (drain_round h len t st) = submitted st.
Proof.
  destruct len; [|done]. simpl. unfold runClearTimeout. by destruct (run_cached _ _ _) as [[w|] c].
Qed.

Lemma drainQueue_submitted st : submitted (drainQueue h st) = submitted st.
Proof.
  unfold drainQueue. destruct (draining st); [done|]. unfold runTimeout.
  destruct (run_cached _ _ _) as [[w|] c]; [|done]. by rewrite drain_round_submitted.
Qed.

Lemma step_submitted e st st' : step h e st = Some st' -> submitted st `prefix_of` submitted st'.
Proof.
  unfold step. destruct (pc st) as [|len t], e as [x|m|]; try done.
  - intros [= <-]. rewrite nextTick_submitted. by apply prefix_app_r.
  - destruct (list_find _ _) as [[i [m' f]]|]; [|done]. simpl. intros [= <-].
    destruct f; [by rewrite drainQueue_submitted|]. unfold cleanUpNextTick. simpl.
    destruct (draining st), (currentQueue st) as [cq|]; try done.
    repeat case_decide; rewrite ?drainQueue_submitted; done.
  - intros [= <-]. unfold drain_test. simpl. case_decide; [|by rewrite drain_round_submitted].
    destruct (currentQueue st) as [cq|]; [|done]. destruct (zlookup cq _) as [x|]; [|done].
    unfold run_item. destruct (behaviour _ _ _) as [pushes throws].
    pose proof (nextTicks_submitted pushes
      (log_ran x (set_queueIndex (queueIndex st + 1) st))) as Hp.
    destruct (nextTicks _ _ _) as [ok st1]. simpl in *. by destruct (ok && negb throws).
Qed.

Lemma steps_submitted es st st' : steps h es st = Some st' -> submitted st `prefix_of` submitted st'.
Proof.
  revert st. induction es as [|e es IH]; intros st; simpl; [by intros [= ->]|].
  destruct (step h e st) as [st1|] eqn:E; [|done]. simpl. intros Hs%IH.
  etrans; [by eapply step_submitted|done].
Qed.

Lemma runs_all k st :
  inv st -> k <= length (pending st) ->
  exists es st', Forall internal es /\ steps h es st = Some st' /\ inv st' /\
    ran st' = ran st ++ take k (pending st).
Proof.
  revert st. induction k as [|k IH]; intros st Hinv Hk.
  { exists [], st. rewrite take_0, app_nil_r. done. }
  destruct (pending st) as [|x rest] eqn:Hp; [simpl in Hk; lia|].
  destruct (runs_next st x rest Hinv Hp) as (es1 & st1 & He1 & Hs1 & Hinv1 & Hr1).
  assert (rest `prefix_of` pending st1) as [more Hmore].
  { pose proof (inv_fifo _ Hinv) as E. pose proof (inv_fifo _ Hinv1) as E1.
    assert (submitted st `prefix_of` submitted st1) as [m Em] by (by eapply steps_submitted).
    exists m. apply (app_inv_head (ran st ++ [x])). rewrite <- Hr1, <- E1, Em, E, Hp, Hr1.
    by rewrite <- !app_assoc. }
  destruct (IH st1 Hinv1) as (es2 & st2 & He2 & Hs2 & Hinv2 & Hr2).
  { rewrite Hmore, length_app. simpl in Hk. lia. }
  exists (es1 ++ es2), st2. split_and!; [by apply Forall_app|by erewrite steps_app|done|].
  rewrite Hr2, Hr1, Hmore, take_app_le by (simpl in Hk; lia). by rewrite <- app_assoc.
Qed.

(** ** Properties *)

(** C17. First in, first out, exactly once: at every point of every execution,
    also in the middle of a drain and after callbacks have thrown, the items
    run so far are the first of the items submitted, in order, and when the
    host is idle with no timer armed all of them have been run.  The host has a
    [setTimeout] that works. *)
Theorem ticks_run_in_order (st : state) :
  reachable h st ->
  ran st `prefix_of` submitted st /\ (pc st = Host -> timers st = [] -> ran st = submitted st).
Proof.
  intros [Hf _ _ Hp]%reachable_inv. rewrite Hf. split; [by apply prefix_app_r|].
  intros Hpc Ht. unfold phase_ok, armed in Hp. rewrite Hpc, Ht in Hp. unfold pending.
  destruct (draining st).
  - destruct Hp as (cq & _ & _ & m & Hm). set_solver.
  - destruct Hp as (-> & _ & Hq). destruct (queue st); [by rewrite app_nil_r|].
    destruct Hq as [m Hm]; [done|set_solver].
Qed.

(** C25. No submitted item is lost: from every reachable state the shim, left to
    itself (firing its own timers and going on with its own loop), reaches a
    state in which everything submitted up to now has been run, whatever the
    callbacks submit or throw meanwhile. *)
Theorem every_tick_runs (st : state) :
  reachable h st ->
  exists es st', Forall internal es /\ steps h es st = Some st' /\
    submitted st `prefix_of` ran st'.
Proof.
  intros Hinv%reachable_inv.
  destruct (runs_all (length (pending st)) st Hinv) as (es & st' & He & Hs & _ & Hr); [lia|].
  exists es, st'. split_and!; [done|done|]. rewrite firstn_all in Hr.
  by rewrite Hr, (inv_fifo _ Hinv).
Qed.
End Proofs.

Lemma steps_reachable h es st st' : reachable h st -> steps h es st = Some st' -> reachable h st'.
Proof.
  revert st. induction es as [|e es IH]; intros st Hr; simpl; [by intros [= ->]|].
  destruct (step h e st) as [st1|] eqn:E; [|done]. apply IH. by eapply reachable_step.
Qed.

(** ** A concrete run

    Item 1 submits item 3 and throws; the others only run. *)
Definition demo_host : host := {|
  global_setTimeout := Some 0; global_clearTimeout := Some 1;
  set_accepts := fun _ _ => true; clear_accepts := fun _ _ => true;
  behaviour := fun _ x => if decide (x = 1) then ([3], true) else ([], false) |}.

Definition demo_events : list event := [Submit 1; Submit 2; Fire 0; Continue].
Definition demo_state : state := default (load demo_host) (steps demo_host demo_events (load demo_host)).

Lemma demo_reachable : reachable demo_host demo_state.
Proof. apply (steps_reachable _ demo_events (load demo_host)); [constructor|vm_compute; reflexivity]. Qed.

Example demo_resumes :
  (fun st => (ran st, submitted st, timers st)) <$>
    steps demo_host [Fire 1; Continue; Continue; Continue] demo_state =
  Some ([1; 2; 3], [1; 2; 3], []).
Proof. vm_compute. reflexivity. Qed.

Lemma ticks_run_in_order_witness :
  ran demo_state = [1] /\ ran demo_state `prefix_of` submitted demo_state.
Proof.
  split; [vm_compute; reflexivity|].
  apply (ticks_run_in_order demo_host 0); [reflexivity..|exact demo_reachable].
Defined.

Lemma every_tick_runs_witness :
  submitted demo_state = [1; 2; 3] /\
  exists es st', Forall internal es /\ steps demo_host es demo_state = Some st' /\
    submitted demo_state `prefix_of` ran st'.
Proof.
  split; [vm_compute; reflexivity|].
  apply (every_tick_runs demo_host 0); [reflexivity..|exact demo_reachable].
Defined.

(** ** The other members of [process] *)

Inductive pvalue := PText (s : jsstr) | PTrue | PZero | PObject | PArray | PUndefined.

(** A member: a value, a function that returns the same each time, one that
    throws an error with a message. *)
Inductive member := Data (v : pvalue) | Returning (v : pvalue) | Throwing (message : jsstr).

Definition noop : member := Returning PUndefined.

Definition process_members : list (string * member) :=
  [ ("title", Data (PText «"browser"»)); ("browser", Data PTrue); ("env", Data PObject); ("argv", Data PArray);
    ("version", Data (PText [])); ("versions", Data PObject);
    ("on", noop); ("addListener", noop); ("once", noop); ("off", noop); ("removeListener", noop);
    ("removeAllListeners", noop); ("emit", noop); ("prependListener", noop); ("prependOnceListener", noop);
    ("listeners", Returning PArray);
    ("binding", Throwing «"process.binding is not supported"»);
    ("cwd", Returning (PText «"/"»));
    ("chdir", Throwing «"process.chdir is not supported"»);
    ("umask", Returning PZero) ]%string.

(** [process[name]] *)
Definition process_get (name : string) : option member :=
  '(_, p) ← list_find (fun p => p.1 = name) process_members; Some p.2.

(** [process[name](...)]: a value, or the message of an error. *)
Definition process_call (name : string) : option (pvalue + jsstr) :=
  match process_get name with
  | Some (Returning v) => Some (inl v)
  | Some (Throwing m) => Some (inr m)
  | _ => None
  end.

(** The working directory is the root and cannot be changed; there is no
    [platform], so that modules that ask for it take the branch for POSIX; and
    the methods of emitters do nothing. *)
Lemma process_shim :
  process_call "cwd" = Some (inl (PText «"/"»)) /\
  process_call "chdir" = Some (inr «"process.chdir is not supported"») /\
  process_get "platform" = None /\
  Forall (fun n => process_call n = Some (inl PUndefined))
    ["on"; "addListener"; "once"; "off"; "removeListener"; "removeAllListeners"; "emit"]%string.
Proof. split_and!; [done..|]. by repeat constructor. Qed.
