(* ===== verification/Inflight.v ===== *)
(** * once, wrappy and inflight

    Modules 18 (inflight), 21 (once) and 29 (wrappy) of wordcut.js.  inflight
    groups concurrent requests for the same key: the first caller gets a
    function to respond with, later callers only leave their callbacks, and a
    response calls all of them.

    Keys and callbacks are numbers.  The parameter [behaviour] says which
    requests a callback makes itself when it is called, and whether it throws.
    [process.nextTick] is the queue [ticks], of which module 24 guarantees
    that its items run once and in order (ProcessTick.v). *)

From S2P Require Import Prelude.

(** ** once *)

Section Once.
Context {S V : Type}.

(** The properties that [once] keeps on the function it returns. *)
Record once_fn := OnceFn { o_called : bool; o_value : option V }.

(** The wrapped function: a computation that returns or throws. *)
Variable fn : S -> option V * S.

Inductive once_result := Returned (v : option V) | Thrown.

Definition call_once (f : once_fn) (st : S) : once_result * once_fn * S :=
  if o_called f then (Returned (o_value f), f, st)
  else match fn st with
       | (Some v, st) => (Returned (Some v), OnceFn true (Some v), st)
       | (None, st) => (Thrown, OnceFn true (o_value f), st)
       end.

Definition call_onceStrict (f : once_fn) (st : S) : once_result * once_fn * S :=
  if o_called f then (Thrown, f, st)
  else match fn st with
       | (Some v, st) => (Returned (Some v), OnceFn true (Some v), st)
       | (None, st) => (Thrown, OnceFn true (o_value f), st)
       end.

(** A function that was just wrapped. *)
Definition wrapped : once_fn := OnceFn false None.

Lemma call_once_again f st r f' st' st2 :
  call_once f st = (r, f', st') -> call_once f' st2 = (Returned (o_value f'), f', st2).
Proof.
  unfold call_once. destruct (o_called f) eqn:E.
  - intros [= <- <- <-]. by rewrite E.
  - destruct (fn st) as [[v|] st1]; intros [= <- <- <-]; done.
Qed.
End Once.
Arguments once_fn V : clear implicits.

(** ** wrappy *)

(** A function object: its identity and its own enumerable properties. *)
Record fun_obj := FunObj { fo_id : nat; fo_props : gmap string nat }.

(** The result of the wrapper around [fn] on arguments whose last is [cb]:
    what [fn] returns, with the properties of [cb] copied over it if it is
    another function. *)
Definition wrapper (ret : option fun_obj) (cb : fun_obj) : option fun_obj :=
  match ret with
  | Some r => if decide (fo_id r = fo_id cb) then Some r
              else Some (FunObj (fo_id r) (fo_props cb ∪ fo_props r))
  | None => None
  end.

(** ** inflight *)

Record istate := IState {
  reqs : gmap nat (list nat);
  handles : list (nat * bool);       (** the responders: their key, and whether they were called *)
  ticks : list nat;                  (** responses put off to the next tick *)
  registered : list (nat * nat);     (** history: requests, as key and callback *)
  called : list (nat * nat)          (** history: callbacks called *)
}.

Definition istart : istate := IState ∅ [] [] [] [].

(** [inflight(key, cb)]: the responder for the first request, else null. *)
Definition inflight (key cb : nat) (st : istate) : option nat * istate :=
  match reqs st !! key with
  | Some cbs =>
      (None, IState (<[key := cbs ++ [cb]]> (reqs st)) (handles st) (ticks st)
               (registered st ++ [(key, cb)]) (called st))
  | None =>
      (Some (length (handles st)),
       IState (<[key := [cb]]> (reqs st)) (handles st ++ [(key, false)]) (ticks st)
         (registered st ++ [(key, cb)]) (called st))
  end.

Section Respond.
(** Requests that a callback makes when it is called, and whether it throws. *)
Variable behaviour : nat -> list (nat * nat) * bool.

Fixpoint inflights (rs : list (nat * nat)) (st : istate) : istate :=
  match rs with
  | [] => st
  | (k, cb) :: rs => inflights rs (inflight k cb st).2
  end.

Definition call_cb (key cb : nat) (st : istate) : bool * istate :=
  let st := IState (reqs st) (handles st) (ticks st) (registered st) (called st ++ [(key, cb)]) in
  let '(rs, throws) := behaviour cb in
  (negb throws, inflights rs st).

(** [for (i = 0; i < len; i++) cbs[i].apply(null, args)] *)
Fixpoint call_cbs (key : nat) (cbs : list nat) (st : istate) : bool * istate :=
  match cbs with
  | [] => (true, st)
  | cb :: cbs =>
      let '(ok, st) := call_cb key cb st in
      if ok then call_cbs key cbs st else (false, st)
  end.

(** [RES], with its [finally]; false when it throws. *)
Definition RES (key : nat) (st : istate) : bool * istate :=
  match reqs st !! key with
  | None => (false, st)
  | Some cbs =>
      let '(ok, st) := call_cbs key cbs st in
      let now := default [] (reqs st !! key) in
      (ok,
       if decide (length cbs < length now) then
         IState (<[key := drop (length cbs) now]> (reqs st)) (handles st) (ticks st ++ [key])
           (registered st) (called st)
       else IState (delete key (reqs st)) (handles st) (ticks st) (registered st) (called st))
  end.

(** The responder that [makeres] returns, which goes through [once]. *)
Definition respond (h : nat) (st : istate) : bool * istate :=
  match handles st !! h with
  | Some (key, false) =>
      RES key (IState (reqs st) (<[h := (key, true)]> (handles st)) (ticks st) (registered st) (called st))
  | _ => (true, st)
  end.

Definition tick (st : istate) : bool * istate :=
  match ticks st with
  | key :: ks => RES key (IState (reqs st) (handles st) ks (registered st) (called st))
  | [] => (true, st)
  end.

Inductive ievent := Request (key cb : nat) | Respond (h : nat) | Tick.

Definition istep (e : ievent) (st : istate) : istate :=
  match e with
  | Request key cb => (inflight key cb st).2
  | Respond h => (respond h st).2
  | Tick => (tick st).2
  end.

Definition irun (es : list ievent) : istate := foldl (fun st e => istep e st) istart es.

(** ** Invariant *)

Definition of_key (k : nat) (l : list (nat * nat)) : list nat :=
  map snd (filter (fun p => p.1 = k) l).

Definition waiting (k : nat) (st : istate) : list nat := default [] (reqs st !! k).

(** The responses that are still to come for a key. *)
Definition responders (k : nat) (st : istate) : nat :=
  length (filter (fun h => h = (k, false)) (handles st)) + length (filter (fun t => t = k) (ticks st)).

Lemma of_key_app k l1 l2 : of_key k (l1 ++ l2) = of_key k l1 ++ of_key k l2.
Proof. unfold of_key. by rewrite filter_app, map_app. Qed.

Lemma of_key_one k key cb : of_key k [(key, cb)] = if decide (k = key) then [cb] else [].
Proof.
  unfold of_key. rewrite filter_cons. cbn [fst]. destruct (decide (key = k)), (decide (k = key)); done.
Qed.

(** The callbacks that were called or still wait, against those that were
    registered: all of them, in order, or, when callbacks may throw and so take
    the ones after them along, some of them, in order. *)
Definition kept (lossless : bool) (l registered : list nat) : Prop :=
  if lossless then l = registered else l `sublist_of` registered.

Lemma kept_app lossless l1 l2 l : kept lossless l1 l2 -> kept lossless (l1 ++ l) (l2 ++ l).
Proof. destruct lossless; cbn; [by intros ->|]. intros. by apply sublist_app. Qed.

Section Lossless.
Variable lossless : bool.
Hypothesis no_throw : lossless = true -> forall cb, (behaviour cb).2 = false.

(** In the middle of a response to [cur], after [i] of its callbacks. *)
Definition mid_inv (cur : option (nat * nat)) (st : istate) : Prop :=
  forall k,
    let i := match cur with Some (key, i) => if decide (k = key) then i else 0 | None => 0 end in
    kept lossless (of_key k (called st) ++ drop i (waiting k st)) (of_key k (registered st)) /\
    i <= length (waiting k st) /\
    (forall cbs, reqs st !! k = Some cbs -> cbs <> []) /\
    responders k st = match reqs st !! k with
                      | Some _ => match cur with
                                  | Some (key, _) => if decide (k = key) then 0 else 1
                                  | None => 1
                                  end
                      | None => 0
                      end.

Lemma inflight_mid cur key cb st :
  mid_inv cur st -> (forall k i, cur = Some (k, i) -> is_Some (reqs st !! k)) ->
  mid_inv cur (inflight key cb st).2 /\
  (forall k, is_Some (reqs st !! k) -> exists more,
     reqs (inflight key cb st).2 !! k = Some (waiting k st ++ more)).
Proof.
  intros Hinv Hcur. split.
  - intros k. specialize (Hinv k). cbv zeta in *.
    set (i := match cur with Some (key, i) => _ | None => 0 end) in *.
    destruct Hinv as (H1 & H2 & H3 & H4). unfold inflight, waiting, responders in *.
    destruct (reqs st !! key) as [cbs|] eqn:Ek; simpl.
    + rewrite of_key_app, of_key_one. destruct (decide (k = key)) as [->|Hne].
      * rewrite Ek in *. rewrite lookup_insert_eq. simpl in *. split_and!.
        -- rewrite drop_app_le, app_assoc by done. by apply kept_app.
        -- rewrite length_app. lia.
        -- intros cbs' [= <-]. by destruct cbs.
        -- exact H4.
      * rewrite lookup_insert_ne by done. rewrite app_nil_r. done.
    + rewrite of_key_app, of_key_one, filter_app, length_app. destruct (decide (k = key)) as [->|Hne].
      * assert (i = 0) as Hi by (rewrite Ek in H2; simpl in H2; lia).
        rewrite Ek in *. rewrite lookup_insert_eq. simpl in *. rewrite Hi in *. split_and!.
        -- rewrite app_nil_r in H1. by apply kept_app.
        -- simpl. lia.
        -- by intros cbs' [= <-].
        -- rewrite filter_cons_True by done. simpl. destruct cur as [[key' i']|]; [|lia].
           destruct (decide (key = key')) as [->|]; [|lia].
           destruct (Hcur key' i' eq_refl) as [? ?]. congruence.
      * rewrite lookup_insert_ne by done. rewrite app_nil_r, filter_cons_False by congruence.
        simpl. rewrite Nat.add_0_r. done.
  - intros k [cbs Hk]. unfold inflight, waiting. rewrite Hk. simpl.
    destruct (reqs st !! key) as [cbs'|] eqn:Ek; simpl; destruct (decide (k = key)) as [->|Hne].
    + rewrite lookup_insert_eq. exists [cb]. congruence.
    + rewrite lookup_insert_ne by done. exists []. by rewrite app_nil_r.
    + congruence.
    + rewrite lookup_insert_ne by done. exists []. by rewrite app_nil_r.
Qed.

Lemma inflights_mid cur rs st :
  mid_inv cur st -> (forall k i, cur = Some (k, i) -> is_Some (reqs st !! k)) ->
  mid_inv cur (inflights rs st) /\
  (forall k, is_Some (reqs st !! k) -> exists more,
     reqs (inflights rs st) !! k = Some (waiting k st ++ more)).
Proof.
  revert st. induction rs as [|[key cb] rs IH]; intros st Hinv Hcur; simpl.
  { split; [done|]. intros k [w Hw]. exists []. unfold waiting. by rewrite Hw, app_nil_r. }
  destruct (inflight_mid cur key cb st Hinv Hcur) as [H1 H2].
  destruct (IH (inflight key cb st).2 H1) as [H3 H4].
  { intros k i Hc. destruct (H2 k (Hcur k i Hc)) as [more Hm]. by rewrite Hm. }
  split; [exact H3|]. intros k Hk. destruct (H2 k Hk) as [m1 Hm1].
  destruct (H4 k) as [m2 Hm2]; [by rewrite Hm1|]. exists (m1 ++ m2). rewrite Hm2.
  unfold waiting at 1. rewrite Hm1. simpl. by rewrite app_assoc.
Qed.

(** Recording a call moves the position in the list of the current key. *)
Lemma record_call_mid key i cb st :
  mid_inv (Some (key, i)) st -> waiting key st !! i = Some cb ->
  mid_inv (Some (key, S i))
    (IState (reqs st) (handles st) (ticks st) (registered st) (called st ++ [(key, cb)])).
Proof.
  intros Hinv Hi k. specialize (Hinv k). cbv zeta in *.
  unfold waiting, responders in *. cbn [reqs handles ticks registered called] in *.
  rewrite of_key_app, of_key_one. destruct (decide (k = key)) as [->|Hne].
  - destruct Hinv as (H1 & _ & H3 & H4). split_and!; [|by eapply lookup_lt_Some in Hi|done|done].
    rewrite <- app_assoc. cbn [app]. by rewrite <- (drop_S _ _ _ Hi).
  - by rewrite app_nil_r.
Qed.

(** Callbacks that are passed over after an exception. *)
Lemma mid_skip key i j st : lossless = false -> i <= j -> j <= length (waiting key st) ->
  mid_inv (Some (key, i)) st -> mid_inv (Some (key, j)) st.
Proof.
  intros Hl Hij Hj Hinv k. specialize (Hinv k). cbv zeta in *. revert Hinv. repeat case_decide; [subst k|done..].
  intros (H1 & _ & H3 & H4). split_and!; [|done..]. unfold kept in *. rewrite Hl in *.
  etrans; [|exact H1]. apply sublist_app; [done|]. replace j with (i + (j - i)) by lia. rewrite <- drop_drop. apply sublist_drop.
Qed.

Lemma call_cbs_mid key cbs i st tl :
  mid_inv (Some (key, i)) st -> is_Some (reqs st !! key) ->
  drop i (waiting key st) = cbs ++ tl ->
  exists ok st' more, call_cbs key cbs st = (ok, st') /\
    mid_inv (Some (key, i + length cbs)) st' /\
    reqs st' !! key = Some (waiting key st ++ more).
Proof.
  revert i st tl. induction cbs as [|cb cbs IH]; intros i st tl Hinv Hk Hd; simpl.
  { exists true, st, []. rewrite Nat.add_0_r. split_and!; [done|done|].
    destruct Hk as [w Hw]. unfold waiting. by rewrite Hw, app_nil_r. }
  assert (waiting key st !! i = Some cb) as Hcb.
  { rewrite <- (Nat.add_0_r i), <- lookup_drop, Hd. done. }
  pose proof (record_call_mid key i cb st Hinv Hcb) as Hrec.
  unfold call_cb. destruct (behaviour cb) as [rs b] eqn:Eb.
  destruct (inflights_mid (Some (key, S i)) rs _ Hrec) as [H1 H2].
  { by intros k j [= <- _]. }
  destruct (H2 key Hk) as [m1 Hm1]. change (waiting key _) with (waiting key st) in Hm1.
  destruct b; cbn [negb].
  { assert (lossless = false) as Hl.
    { apply not_true_is_false. intros Hl. pose proof (no_throw Hl cb) as Ht. by rewrite Eb in Ht. }
    eexists false, _, m1. split_and!; [done| |done]. apply (mid_skip key (S i)); [done|lia| |done].
    unfold waiting at 1. rewrite Hm1. cbn [default id]. apply (f_equal length) in Hd. rewrite length_drop, length_app in Hd.
    rewrite length_app. cbn in Hd. lia. }
  destruct (IH (S i) _ (tl ++ m1) H1) as (ok & st' & m2 & E & H3 & H4).
  - by rewrite Hm1.
  - unfold waiting at 1. rewrite Hm1. simpl default.
    rewrite drop_app_le by (apply lookup_lt_Some in Hcb; lia).
    rewrite app_assoc. f_equal. apply (drop_S _ cb) in Hcb. rewrite Hcb in Hd. by simplify_eq/=.
  - exists ok, st', (m1 ++ m2). split_and!; [done| |].
    + by replace (i + S (length cbs)) with (S i + length cbs) by lia.
    + rewrite H4. unfold waiting at 1. rewrite Hm1. simpl default. by rewrite app_assoc.
Qed.

(** A response to [key], whose responder has just been used up, ends in a
    state between responses. *)
Lemma RES_inv key st :
  mid_inv (Some (key, 0)) st -> is_Some (reqs st !! key) ->
  exists ok st', RES key st = (ok, st') /\ mid_inv None st'.
Proof.
  intros Hinv [cbs Hk]. unfold RES. rewrite Hk.
  assert (waiting key st = cbs) as Hw by (unfold waiting; by rewrite Hk).
  destruct (call_cbs_mid key cbs 0 st [] Hinv) as (ok & st' & more & E & H1 & H2); [done| |].
  { by rewrite drop_0, app_nil_r. }
  rewrite Hw in H2. rewrite E, H2. eexists _, _. split; [reflexivity|].
  intros k. specialize (H1 k). cbv zeta in *. simpl in H1.
  unfold waiting, responders in *. simpl default. rewrite length_app.
  destruct more as [|m more]; simpl length;
    [rewrite decide_False by lia|rewrite decide_True by lia];
    cbn [reqs handles ticks registered called].
  - destruct (decide (k = key)) as [->|Hne].
    + rewrite H2 in H1. rewrite lookup_delete_eq. destruct H1 as (E1 & _ & _ & E4).
      split_and!; [|simpl; lia|done|done]. simpl in E1 |- *.
      by rewrite app_nil_r, drop_all in E1.
    + rewrite lookup_delete_ne by done. done.
  - rewrite filter_app, length_app. destruct (decide (k = key)) as [->|Hne].
    + rewrite H2 in H1. rewrite lookup_insert_eq. destruct H1 as (E1 & _ & _ & E4).
      rewrite drop_app_length. simpl default.
      simpl default in E1. rewrite drop_app_length in E1.
      split_and!; [done|lia|by intros ? [= <-]|].
      rewrite filter_cons_True by done. simpl. lia.
    + rewrite lookup_insert_ne, filter_cons_False by done. simpl. by rewrite Nat.add_0_r.
Qed.

Lemma count_pos_in_flight k st : mid_inv None st -> 1 <= responders k st -> is_Some (reqs st !! k).
Proof.
  intros Hinv Hr. destruct (Hinv k) as (_ & _ & _ & H4). destruct (reqs st !! k); [done|lia].
Qed.

(** Using up one of the responders of a key. *)
Lemma use_responder key st st' :
  mid_inv None st -> 1 <= responders key st ->
  reqs st' = reqs st -> registered st' = registered st -> called st' = called st ->
  S (responders key st') = responders key st ->
  (forall k, k <> key -> responders k st' = responders k st) ->
  mid_inv (Some (key, 0)) st'.
Proof.
  intros Hinv Hr E1 E2 E3 E4 E5 k. specialize (Hinv k). cbv zeta in *.
  unfold waiting in *. rewrite E1, E2, E3.
  destruct (decide (k = key)) as [->|Hne]; [|by rewrite E5].
  destruct Hinv as (H1 & H2 & H3 & H4). split_and!; [done..|].
  destruct (reqs st !! key); lia.
Qed.

Lemma filter_insert_used k key h (hs : list (nat * bool)) :
  hs !! h = Some (key, false) ->
  length (filter (fun x => x = (k, false)) hs) =
  length (filter (fun x => x = (k, false)) (<[h := (key, true)]> hs)) +
  (if decide (k = key) then 1 else 0).
Proof.
  revert h. induction hs as [|x hs IH]; intros [|h] Hh; simplify_eq/=.
  - rewrite !filter_cons. rewrite (decide_False (P := (key, true) = _)) by congruence.
    repeat case_decide; simplify_eq/=; lia.
  - specialize (IH h Hh). rewrite !filter_cons.
    destruct (decide (x = (k, false))), (decide (k = key)); simpl; lia.
Qed.

Lemma istep_inv e st : mid_inv None st -> mid_inv None (istep e st).
Proof.
  intros Hinv. destruct e as [key cb|h|]; simpl.
  - by apply inflight_mid.
  - unfold respond. destruct (handles st !! h) as [[key []]|] eqn:Eh; [done| |done].
    pose proof (filter_insert_used key key h _ Eh) as Hf. rewrite decide_True in Hf by done.
    assert (1 <= responders key st) as Hr by (unfold responders; lia).
    destruct (RES_inv key (IState (reqs st) (<[h := (key, true)]> (handles st)) (ticks st)
                             (registered st) (called st))) as (ok & st' & E & H).
    + apply (use_responder _ st); try done; unfold responders; cbn [handles ticks]; [lia|].
      intros k Hk. rewrite (filter_insert_used k key h _ Eh), (decide_False (P := k = key)) by done.
      lia.
    + by apply (count_pos_in_flight key st).
    + by rewrite E.
  - unfold tick. destruct (ticks st) as [|key ks] eqn:Et; [done|].
    assert (1 <= responders key st) as Hr.
    { unfold responders. rewrite Et, filter_cons_True by done. simpl. lia. }
    destruct (RES_inv key (IState (reqs st) (handles st) ks (registered st) (called st)))
      as (ok & st' & E & H).
    + apply (use_responder _ st); try done; unfold responders; cbn [handles ticks]; rewrite Et.
      * rewrite filter_cons_True by done. simpl. lia.
      * intros k Hk. by rewrite filter_cons_False.
    + by apply (count_pos_in_flight key st).
    + by rewrite E.
Qed.

Lemma irun_inv es : mid_inv None (irun es).
Proof.
  unfold irun. assert (mid_inv None istart) as H0.
  { intros k. cbv zeta. unfold waiting, responders, istart. cbn [reqs handles ticks registered called].
    rewrite lookup_empty. simpl. split_and!; [by destruct lossless|lia|done|done]. }
  revert H0. generalize istart. induction es as [|e es IH]; intros st H; simpl; [done|].
  by apply IH, istep_inv.
Qed.
End Lossless.
End Respond.

(** ** Theorems *)

(** C24. After any sequence of requests, responses and ticks, with callbacks that
    may make requests themselves and may throw, for each key: the callbacks that
    were called and those that wait are, in order, among those registered, so
    none is called more often than it was registered; while callbacks wait there is
    exactly one responder or scheduled response for the key, and otherwise there is
    none; and if no callback throws then none is lost: the callbacks registered
    are those called followed by those waiting.  A callback that throws does take
    the ones after it along: [inflight_drops_after_throw]. *)
Theorem inflight_exactly_once behaviour es k :
  let st := irun behaviour es in
  (of_key k (called st) ++ waiting k st) `sublist_of` of_key k (registered st) /\
  (responders k st = if decide (waiting k st = []) then 0 else 1) /\
  ((forall cb, (behaviour cb).2 = false) -> of_key k (registered st) = of_key k (called st) ++ waiting k st).
Proof.
  intros st. destruct (irun_inv behaviour false ltac:(done) es k) as (H1 & _ & H3 & H4). fold st in H1, H3, H4.
  rewrite drop_0 in H1. split_and!; [exact H1| |].
  - rewrite H4. unfold waiting. destruct (reqs _ !! k) as [cbs|]; simpl; [|done]. by rewrite decide_False by (by apply H3).
  - intros Hnt. destruct (irun_inv behaviour true ltac:(done) es k) as (E1 & _). fold st in E1. by rewrite drop_0 in E1.
Qed.

(** A callback that asks for the same key again while it is called back. *)
Definition again (cb : nat) : list (nat * nat) * bool :=
  (if decide (cb < 2) then [(7, cb + 10)] else [], false).

Lemma inflight_exactly_once_witness :
  let st := irun again [Request 7 0; Request 7 1; Request 8 2; Respond 0; Respond 0] in
  of_key 7 (registered st) = of_key 7 (called st) ++ waiting 7 st.
Proof. apply (inflight_exactly_once again _ 7). intros cb. unfold again. by case_decide. Defined.

(** The two requests made during the response wait for the next tick. *)
Example inflight_reentrant :
  let st := irun again [Request 7 0; Request 7 1; Request 8 2; Respond 0; Respond 0] in
  called st = [(7, 0); (7, 1)] /\ waiting 7 st = [10; 11] /\ ticks st = [7] /\
  called (irun again [Request 7 0; Request 7 1; Respond 0; Tick]) = [(7, 0); (7, 1); (7, 10); (7, 11)].
Proof. vm_compute. done. Qed.

(** When a callback throws, the callbacks after it in the same response are
    dropped: they are neither called nor kept. *)
Example inflight_drops_after_throw :
  let st := irun (fun cb => ([], bool_decide (cb = 0))) [Request 7 0; Request 7 1; Respond 0] in
  registered st = [(7, 0); (7, 1)] /\ called st = [(7, 0)] /\ waiting 7 st = [] /\ responders 7 st = 0.
Proof. vm_compute. done. Qed.

(** A function wrapped by [once] runs its body at most once: after its first
    call, whatever the outcome, any further sequence of calls leaves the state
    alone and returns the value of the first one. *)
Theorem once_runs_once {St V} (fn : St -> option V * St) (st : St) (n : nat) :
  let '(r, f, st1) := call_once fn wrapped st in
  Nat.iter n (fun p => let '(_, f, s) := p in call_once fn f s) (r, f, st1) =
  (if decide (n = 0) then r else Returned (fn st).1, f, (fn st).2).
Proof.
  destruct (call_once fn wrapped st) as [[r f] st1] eqn:E.
  assert (st1 = (fn st).2 /\ o_value f = (fn st).1) as [-> Hv].
  { unfold call_once in E. simpl in E. destruct (fn st) as [[v|] s] eqn:Ef; by simplify_eq/=. }
  induction n as [|n IH]; [done|]. rewrite Nat.iter_succ, IH.
  rewrite (call_once_again _ _ _ _ _ _ _ E), Hv. done.
Qed.
