(* ===== verification/BraceExpansion.v ===== *)
(** * Brace expansion

    Modules 10 (balanced-match), 11 (brace-expansion) and 13 (concat-map) of
    wordcut.js, as minimatch uses them: [balanced] is called with the strings
    ["{"] and ["}"] only, so its branch for regular expressions is not
    modelled.  The numbers of sequences are doubles (JsNumber.v). *)

From stdpp Require Import pretty.
From S2P Require Import Prelude JsNumber.

(** ** JavaScript string operations *)

Fixpoint find_from (pat s : jsstr) (k : nat) : option nat :=
  if decide (pat `prefix_of` s) then Some k
  else match s with [] => None | _ :: s' => find_from pat s' (S k) end.

(** [s.indexOf(pat, from)] for [from >= 0]. *)
Definition indexOf (s pat : jsstr) (from : nat) : Z :=
  match find_from pat (drop from s) from with Some k => Z.of_nat k | None => -1 end.

(** [s.split(pat)] for a non-empty [pat]: [acc] is the piece being read, and
    [skip] counts the units of a separator still to be dropped. *)
Fixpoint split_str_go (pat s acc : jsstr) (skip : nat) : list jsstr :=
  match s with
  | [] => [acc]
  | c :: s' =>
      match skip with
      | S skip' => split_str_go pat s' acc skip'
      | O => if decide (pat `prefix_of` s) then acc :: split_str_go pat s' [] (length pat - 1)
             else split_str_go pat s' (acc ++ [c]) 0
      end
  end.

Definition split_str (pat s : jsstr) : list jsstr := split_str_go pat s [] 0.

(** [s.split(pat).join(rep)] *)
Definition replace_all (pat rep s : jsstr) : jsstr := join rep (split_str pat s).

(** ** balanced-match *)

(** The loop of [range]; [right] is [undefined] until a pair was closed. *)
Fixpoint range_loop (fuel : nat) (a b str : jsstr) (i ai bi : Z) (begs : list Z)
    (left : Z) (right : option Z) : option (option (Z * option Z)) :=
  match fuel with
  | O => None
  | S fuel =>
      if decide (i < 0)%Z then
        Some (if decide (begs = []) then None else Some (left, right))
      else if decide (i = ai) then
        let ai := indexOf str a (Z.to_nat (i + 1)) in
        range_loop fuel a b str (if decide (ai < bi /\ 0 <= ai)%Z then ai else bi) ai bi
          (i :: begs) left right
      else match begs with
           | [beg] => Some (Some (beg, Some bi))
           | beg :: begs =>
               let left' := if decide (beg < left)%Z then beg else left in
               let right' := if decide (beg < left)%Z then Some bi else right in
               let bi := indexOf str b (Z.to_nat (i + 1)) in
               range_loop fuel a b str (if decide (ai < bi /\ 0 <= ai)%Z then ai else bi) ai bi
                 begs left' right'
           | [] =>
               (* [begs.pop()] is undefined, no comparison with it holds *)
               let bi := indexOf str b (Z.to_nat (i + 1)) in
               range_loop fuel a b str (if decide (ai < bi /\ 0 <= ai)%Z then ai else bi) ai bi
                 [] left right
           end
  end.

(** The outer option is the fuel; a turn of the loop consumes an occurrence of
    [a] or of [b]. *)
Definition balanced_range (a b str : jsstr) : option (option (Z * option Z)) :=
  let ai := indexOf str a 0 in
  let bi := indexOf str b (Z.to_nat (ai + 1)) in
  if decide (0 <= ai /\ 0 < bi)%Z then
    range_loop (3 + 2 * length str) a b str ai ai bi [] (Z.of_nat (length str)) None
  else Some None.

Record balance := Balance { b_start : nat; b_end : nat; pre : jsstr; body : jsstr; post : jsstr }.

Definition balanced (a b str : jsstr) : option balance :=
  match balanced_range a b str with
  | Some (Some (l, Some r)) =>
      let l := Z.to_nat l in
      let r := Z.to_nat r in
      Some (Balance l r (take l str) (take (r - (l + length a)) (drop (l + length a) str))
              (drop (r + length b) str))
  | _ => None
  end.

(** ** brace-expansion *)

Definition lbrace : N := 123%N.
Definition rbrace : N := 125%N.
Definition comma : N := 44%N.

Definition in_braces (str : jsstr) : jsstr := lbrace :: str ++ [rbrace].

Definition find_braces : jsstr -> option balance := balanced [lbrace] [rbrace].

(** [p[p.length-1] += x] *)
Fixpoint append_last (p : list jsstr) (x : jsstr) : list jsstr :=
  match p with
  | [] => []
  | [q] => [q ++ x]
  | q :: p' => q :: append_last p' x
  end.

(** The fuel bounds the depth of the recursion, on a shorter string each
    time. *)
Fixpoint parseCommaParts_go (fuel : nat) (str : jsstr) : list jsstr :=
  match fuel with
  | O => [str]
  | S fuel =>
      if decide (str = []) then [[]]
      else match find_braces str with
           | None => split_on comma str
           | Some m =>
               let p := append_last (split_on comma (pre m)) (in_braces (body m)) in
               let postParts := parseCommaParts_go fuel (post m) in
               if decide (post m = []) then p
               else match postParts with
                    | first :: others => append_last p first ++ others
                    | [] => p
                    end
           end
  end.

Definition parseCommaParts (str : jsstr) : list jsstr := parseCommaParts_go (S (length str)) str.

Definition concatMap {A} (xs : list A) (fn : A -> list jsstr) : list jsstr :=
  foldl (fun res x => res ++ fn x) [] xs.

Definition embrace (str : jsstr) : jsstr := in_braces str.

Definition is_ascii_digit (c : N) : bool := in_range 48 57 c.
Definition is_ascii_letter (c : N) : bool := in_range 97 122 c || in_range 65 90 c.

Definition strip_minus (s : jsstr) : jsstr :=
  match s with c :: s' => if decide (c = 45%N) then s' else s | [] => [] end.

(** [-?\d+] *)
Definition is_integer (s : jsstr) : bool :=
  bool_decide (strip_minus s <> []) && forallb is_ascii_digit (strip_minus s).

Definition is_one_letter (s : jsstr) : bool :=
  match s with [c] => is_ascii_letter c | _ => false end.

(** [-?0\d] at the start *)
Definition isPadded (el : jsstr) : bool :=
  match strip_minus el with
  | c :: d :: _ => bool_decide (c = 48%N) && is_ascii_digit d
  | _ => false
  end.

(** The two regular expressions for sequences: integers and letters contain no
    dots, so they match just when the pieces between [..] do. *)
Definition is_numeric_sequence (parts : list jsstr) : bool :=
  match parts with
  | [p; q] => is_integer p && is_integer q
  | [p; q; r] => is_integer p && is_integer q && is_integer r
  | _ => false
  end.

Definition is_alpha_sequence (parts : list jsstr) : bool :=
  match parts with
  | [p; q] => is_one_letter p && is_one_letter q
  | [p; q; r] => is_one_letter p && is_one_letter q && is_integer r
  | _ => false
  end.

Definition parse_digits (s : jsstr) : Z :=
  foldl (fun acc c => (10 * acc + (Z.of_N c - 48))%Z) 0%Z s.

(** On the pieces of a sequence: an integer, as a double, or one letter. *)
Definition numeric (str : jsstr) : Z :=
  if is_integer str then
    round64 (if decide (head str = Some 45%N) then - parse_digits (strip_minus str)
             else parse_digits (strip_minus str))
  else match str with c :: _ => Z.of_N c | [] => 0 end.

(** [for (i = x; test(i, y); i += incr)]: the values of [i], which is [None]
    when it is not a number. *)
Fixpoint seq_loop (fuel : nat) (i : option Z) (y incr : Z) (reverse : bool) : option (list Z) :=
  match fuel with
  | O => None
  | S fuel =>
      match i with
      | Some i =>
          if (if reverse then bool_decide (y <= i)%Z else bool_decide (i <= y)%Z)
          then (cons i) <$> seq_loop fuel (add64 i incr) y incr reverse
          else Some []
      | None => Some []
      end
  end.

Definition seq_item (isAlphaSequence pad : bool) (width : nat) (i : Z) : jsstr :=
  if isAlphaSequence then
    (if decide (i = 92%Z) then [] else [Z.to_N i])
  else
    let c := number_string i in
    if pad then
      let z := replicate (width - length c) 48%N in
      if decide (i < 0)%Z then
        (if decide (length c < width) then 45%N :: z ++ drop 1 c else c)
      else z ++ c
    else c.

(** What a call ends with: a value, a loop without end, over the sequence with
    these pieces, or (in the model only) the fuel. *)
Inductive outcome (A : Type) := Value (a : A) | Hangs (n : list jsstr) | OutOfFuel.
Arguments Value {A} a.
Arguments Hangs {A} n.
Arguments OutOfFuel {A}.

Definition obind {A B} (m : outcome A) (f : A -> outcome B) : outcome B :=
  match m with Value a => f a | Hangs n => Hangs n | OutOfFuel => OutOfFuel end.

Notation "x <~ m ;; k" := (obind m (fun x => k)) (at level 100, m at next level, right associativity).

Fixpoint omapM {A B} (f : A -> outcome B) (xs : list A) : outcome (list B) :=
  match xs with
  | [] => Value []
  | x :: xs' => y <~ f x ;; ys <~ omapM f xs' ;; Value (y :: ys)
  end.

(** The values of the loop over a sequence. *)
Definition seq_step (rest : list jsstr) : Z := match rest with n2 :: _ => Z.abs (numeric n2) | [] => 1%Z end.

Definition seq_values (fuel : nat) (n0 n1 : jsstr) (rest : list jsstr) : option (list Z) :=
  let x := numeric n0 in
  let y := numeric n1 in
  let reverse := bool_decide (y < x)%Z in
  let incr := if reverse then (- seq_step rest)%Z else seq_step rest in
  seq_loop fuel (Some x) y incr reverse.

(** A fuel of [|y - x| + 2] is enough for every loop that ends. *)
Definition sequence (isAlphaSequence : bool) (n : list jsstr) : outcome (list jsstr) :=
  match n with
  | n0 :: n1 :: rest =>
      let width := Nat.max (length n0) (length n1) in
      let pad := existsb isPadded n in
      match seq_values (2 + Z.to_nat (Z.abs (numeric n1 - numeric n0))) n0 n1 rest with
      | Some vals => Value (map (seq_item isAlphaSequence pad width) vals)
      | None => Hangs n
      end
  | _ => Value []
  end.

Definition is_line_terminator (c : N) : bool :=
  bool_decide (c ∈ [10; 13; 0x2028; 0x2029]%N).

(** [/,.*\}/]: a comma and, on the same line, a closing brace after it. *)
Fixpoint comma_then_close (s : jsstr) : bool :=
  match s with
  | [] => false
  | c :: s' =>
      (bool_decide (c = comma) &&
       bool_decide (rbrace ∈ take_while (fun d => negb (is_line_terminator d)) s')) ||
      comma_then_close s'
  end.

(** [pre + N[j] + post[k]] for all [j] and [k]. *)
Definition combine (pre : jsstr) (N post : list jsstr) : list jsstr :=
  concat (map (fun n => map (fun p => pre ++ n ++ p) post) N).

Section Expand.
(** The five values of [Math.random()], as strings. *)
Variables rSlash rOpen rClose rComma rPeriod : jsstr.

Definition marker (name r : jsstr) : jsstr := 0%N :: name ++ r ++ [0%N].
Definition escSlash := marker «"SLASH"» rSlash.
Definition escOpen := marker «"OPEN"» rOpen.
Definition escClose := marker «"CLOSE"» rClose.
Definition escComma := marker «"COMMA"» rComma.
Definition escPeriod := marker «"PERIOD"» rPeriod.

Definition escapeBraces (str : jsstr) : jsstr :=
  replace_all «"\."» escPeriod
    (replace_all «"\,"» escComma
      (replace_all «"\}"» escClose
        (replace_all «"\{"» escOpen
          (replace_all «"\\"» escSlash str)))).

Definition unescapeBraces (str : jsstr) : jsstr :=
  replace_all escPeriod «"."»
    (replace_all escComma «","»
      (replace_all escClose «"}"»
        (replace_all escOpen «"{"»
          (replace_all escSlash «"\"» str)))).

Fixpoint expand (fuel : nat) (str : jsstr) (isTop : bool) : outcome (list jsstr) :=
  match fuel with
  | O => OutOfFuel
  | S fuel =>
      match find_braces str with
      | None => Value [str]
      | Some m =>
          let pieces := split_str «".."» (body m) in
          let isAlphaSequence := is_alpha_sequence pieces in
          let isSequence := is_numeric_sequence pieces || isAlphaSequence in
          let isOptions := bool_decide (0 <= indexOf (body m) [comma] 0)%Z in
          let expand_post := if decide (post m = []) then Value [[]] else expand fuel (post m) false in
          let finish (N : outcome (list jsstr)) :=
            post <~ expand_post ;;
            N <~ N ;;
            Value (filter (fun e => isTop = false \/ isSequence = true \/ e <> [])
                     (combine (pre m) N post)) in
          let options (n : list jsstr) :=
            finish (es <~ omapM (fun el => expand fuel el false) n ;; Value (concatMap es id)) in
          if decide (last (pre m) = Some 36%N) then Value [str]
          else if negb isSequence && negb isOptions then
            if comma_then_close (post m)
            then expand fuel (pre m ++ lbrace :: body m ++ escClose ++ post m) false
            else Value [str]
          else if isSequence then finish (sequence isAlphaSequence pieces)
          else
            match parseCommaParts (body m) with
            | [n0] =>
                es <~ expand fuel n0 false ;;
                match map embrace es with
                | [n0] => post <~ expand_post ;; Value (map (fun p => pre m ++ n0 ++ p) post)
                | n => options n
                end
            | n => options n
            end
      end
  end.

(** One more than the closing braces of the string are enough. *)
Definition closers (s : jsstr) : nat := length (filter (fun c => c = rbrace) s).
Definition expand_fuel (str : jsstr) : nat := S (closers str).

Definition expandTop (str : jsstr) : outcome (list jsstr) :=
  if decide (str = []) then Value []
  else
    let str := if decide (take 2 str = «"{}"») then «"\{\}"» ++ drop 2 str else str in
    let str := escapeBraces str in
    es <~ expand (expand_fuel str) str true ;;
    Value (map unescapeBraces es).
End Expand.

Section Tests.
Let e (s : string) := expandTop «"1"» «"2"» «"3"» «"4"» «"5"» (lit s).
Example expand_options : e "a{b,c{d,e},}f" = Value [«"abf"»; «"acdf"»; «"acef"»; «"af"»].
Proof. vm_compute. reflexivity. Qed.
Example expand_sequence : e "{08..11..2}{c..a}" =
  Value [«"08c"»; «"08b"»; «"08a"»; «"10c"»; «"10b"»; «"10a"»].
Proof. vm_compute. reflexivity. Qed.
Example expand_single : e "x{{a,b}}y" = Value [«"x{a}y"»; «"x{b}y"»].
Proof. vm_compute. reflexivity. Qed.
Example expand_escaped : e "{},a}b{a\,b,c}" = Value [«"{},a}ba,b"»; «"{},a}bc"»].
Proof. vm_compute. reflexivity. Qed.
Example expand_late_close : e "{a},b}" = Value [«"a}"»; «"b"»].
Proof. vm_compute. reflexivity. Qed.
Example expand_hangs : e "{1..2..0}" = Hangs [«"1"»; «"2"»; «"0"»].
Proof. vm_compute. reflexivity. Qed.
End Tests.

(** ** [balanced] on braces

    The loop over occurrences is a scan of the characters. *)

Definition index_ok (str : jsstr) (c : N) (i : Z) : Prop :=
  (0 <= i)%Z /\ str !! Z.to_nat i = Some c.

Lemma indexOf_nil str x p : drop p str = [] -> indexOf str [x] p = (-1)%Z.
Proof. unfold indexOf. by intros ->. Qed.

Lemma indexOf_cons str x p c s :
  drop p str = c :: s ->
  indexOf str [x] p = if decide (c = x) then Z.of_nat p else indexOf str [x] (S p).
Proof.
  intros E. unfold indexOf. rewrite E. cbn [find_from].
  assert (drop (S p) str = s) as ->.
  { change (S p) with (1 + p). by rewrite Nat.add_comm, <- drop_drop, E. }
  destruct (decide (c = x)) as [->|Hne].
  - rewrite decide_True; [done|]. by exists s.
  - rewrite decide_False; [done|]. intros [k Hk]. simplify_eq/=.
Qed.

Lemma drop_S_tail {A} (l : list A) p c s : drop p l = c :: s -> drop (S p) l = s.
Proof. intros E. change (S p) with (1 + p). by rewrite Nat.add_comm, <- drop_drop, E. Qed.

Lemma indexOf_ge str x p : indexOf str [x] p = (-1)%Z \/ (Z.of_nat p <= indexOf str [x] p)%Z.
Proof.
  remember (drop p str) as s eqn:E. revert p E. induction s as [|c s IH]; intros p E.
  - left. by apply indexOf_nil.
  - rewrite (indexOf_cons str x p c s) by done. case_decide; [right; lia|].
    symmetry in E. apply drop_S_tail in E. destruct (IH (S p)) as [?|?]; [done|by left|right; lia].
Qed.

Lemma indexOf_not_in str x p : x ∉ drop p str -> indexOf str [x] p = (-1)%Z.
Proof.
  remember (drop p str) as s eqn:E. revert p E. induction s as [|c s IH]; intros p E Hni.
  - by apply indexOf_nil.
  - rewrite (indexOf_cons str x p c s), decide_False by set_solver.
    symmetry in E. apply drop_S_tail in E. apply IH; set_solver.
Qed.

Lemma indexOf_in str x p : x ∈ drop p str -> (Z.of_nat p <= indexOf str [x] p)%Z.
Proof.
  remember (drop p str) as s eqn:E. revert p E. induction s as [|c s IH]; intros p E Hin; [set_solver|].
  rewrite (indexOf_cons str x p c s) by done. case_decide; [lia|].
  symmetry in E. apply drop_S_tail in E.
  assert (Z.of_nat (S p) <= indexOf str [x] (S p))%Z by (apply IH; set_solver). lia.
Qed.

Fixpoint scan (s : jsstr) (pos : nat) (begs : list Z) (left : Z) (right : option Z)
    : option (Z * option Z) :=
  match s with
  | [] => if decide (begs = []) then None else Some (left, right)
  | c :: s' =>
      if decide (c = lbrace) then scan s' (S pos) (Z.of_nat pos :: begs) left right
      else if decide (c = rbrace) then
        match begs with
        | [beg] => Some (beg, Some (Z.of_nat pos))
        | beg :: begs =>
            scan s' (S pos) begs (if decide (beg < left)%Z then beg else left)
              (if decide (beg < left)%Z then Some (Z.of_nat pos) else right)
        | [] => scan s' (S pos) [] left right
        end
      else scan s' (S pos) begs left right
  end.

Lemma scan_no_close s pos begs left right :
  begs <> [] -> rbrace ∉ s -> scan s pos begs left right = Some (left, right).
Proof.
  revert pos begs. induction s as [|c s IH]; intros pos begs Hne Hni; simpl.
  - by rewrite decide_False.
  - case_decide; [apply IH; set_solver|]. rewrite decide_False by set_solver. apply IH; set_solver.
Qed.

Definition next_brace (ai bi : Z) : Z := if decide (ai < bi /\ 0 <= ai)%Z then ai else bi.

Lemma range_loop_scan str p s fuel begs left right :
  drop p str = s -> length s < fuel -> begs <> [] ->
  let ai := indexOf str [lbrace] p in
  let bi := indexOf str [rbrace] p in
  range_loop fuel [lbrace] [rbrace] str (next_brace ai bi) ai bi begs left right =
    Some (scan s p begs left right).
Proof.
  revert p fuel begs left right. induction s as [|c s IH]; intros p fuel begs left right E Hfuel Hne ai bi;
    subst ai bi.
  - rewrite !indexOf_nil by done. destruct fuel as [|fuel]; [simpl in Hfuel; lia|].
    simpl. by rewrite decide_False.
  - pose proof (drop_S_tail _ _ _ _ E) as E'. simpl in Hfuel.
    pose proof (indexOf_ge str lbrace (S p)) as Ha. pose proof (indexOf_ge str rbrace (S p)) as Hb.
    rewrite !(indexOf_cons str _ p c s) by done. cbn [scan].
    destruct (decide (c = lbrace)) as [->|Hl].
    { rewrite (decide_False (P := lbrace = rbrace)) by done.
      destruct (decide (rbrace ∈ s)) as [Hin|Hni].
      - assert (Z.of_nat (S p) <= indexOf str [rbrace] (S p))%Z as Hb2
          by (apply indexOf_in; by rewrite E').
        unfold next_brace at 1. rewrite decide_True by lia.
        destruct fuel as [|fuel]; [lia|]. cbn [range_loop].
        rewrite decide_False by lia. rewrite decide_True by done.
        replace (Z.to_nat (Z.of_nat p + 1)) with (S p) by lia.
        apply IH; [done|lia|done].
      - rewrite indexOf_not_in by (by rewrite E'). unfold next_brace. rewrite decide_False by lia.
        destruct fuel as [|fuel]; [lia|]. cbn [range_loop]. rewrite decide_True by lia.
        rewrite decide_False by done. by rewrite scan_no_close. }
    destruct (decide (c = rbrace)) as [->|Hr]; [|by apply IH; [|lia|]].
    unfold next_brace at 1. rewrite decide_False by lia.
    destruct fuel as [|fuel]; [lia|]. cbn [range_loop].
    rewrite decide_False by lia. rewrite decide_False by lia.
    replace (Z.to_nat (Z.of_nat p + 1)) with (S p) by lia.
    destruct begs as [|beg [|beg2 begs]]; [done|done|]. apply IH; [done|lia|done].
Qed.

Definition pair_ok (str : jsstr) (l : Z) (r : option Z) : Prop :=
  match r with
  | Some r => index_ok str lbrace l /\ index_ok str rbrace r /\ (l < r)%Z
  | None => l = Z.of_nat (length str)
  end.

Lemma scan_keeps_right s p begs l0 r0 l : scan s p begs l0 (Some r0) <> Some (l, None).
Proof.
  revert p begs l0 r0. induction s as [|c s IH]; intros p begs l0 r0; simpl; [by case_decide|].
  repeat case_decide; try apply IH; repeat case_match; try apply IH; congruence.
Qed.

Lemma scan_result str s p begs left right :
  drop p str = s -> begs <> [] ->
  Forall (fun b => index_ok str lbrace b /\ (b < Z.of_nat p)%Z) begs -> pair_ok str left right ->
  exists l r, scan s p begs left right = Some (l, r) /\ pair_ok str l r /\
    (r = None -> rbrace ∉ s).
Proof.
  revert p begs left right. induction s as [|c s IH]; intros p begs left right E Hne Hb Hp.
  { exists left, right. simpl. rewrite decide_False by done. split_and!; [done|done|set_solver]. }
  pose proof (drop_S_tail _ _ _ _ E) as E'.
  assert (str !! p = Some c) as Hc.
  { rewrite <- (Nat.add_0_r p), <- lookup_drop, E. done. }
  assert (forall bs, Forall (fun b => index_ok str lbrace b /\ (b < Z.of_nat p)%Z) bs ->
    Forall (fun b => index_ok str lbrace b /\ (b < Z.of_nat (S p))%Z) bs) as Hmono.
  { intros bs Hbs. eapply Forall_impl; [exact Hbs|]. intros b [? ?]. split; [done|lia]. }
  cbn [scan]. destruct (decide (c = lbrace)) as [->|Hl].
  { destruct (IH (S p) (Z.of_nat p :: begs) left right) as (l & r & H1 & H2 & H3); [done|done| |done|].
    { constructor; [|by apply Hmono]. split; [|lia]. split; [lia|by rewrite Nat2Z.id]. }
    exists l, r. split_and!; [done|done|]. intros Hr. apply not_elem_of_cons. by split; [|apply H3]. }
  destruct (decide (c = rbrace)) as [->|Hr].
  - assert (index_ok str rbrace (Z.of_nat p)) as Hi by (split; [lia|by rewrite Nat2Z.id]).
    destruct begs as [|beg [|beg2 begs]]; [done| |].
    + apply Forall_singleton in Hb as [Hb1 Hb2]. exists beg, (Some (Z.of_nat p)). done.
    + apply Forall_cons in Hb as [[Hb1 Hb2] Hb].
      edestruct (IH (S p) (beg2 :: begs)) as (l & r & H1 & H2 & H3);
        [done|done|by apply Hmono| |exists l, r; split_and!; [exact H1|done|]].
      { case_decide; [done|exact Hp]. }
      intros ->. simpl in H2.
      (* the pair that was just closed is a candidate *)
      exfalso. clear IH. revert H1.
      assert (exists l0 r0, (if decide (beg < left)%Z then beg else left) = l0 /\
        (if decide (beg < left)%Z then Some (Z.of_nat p) else right) = Some r0) as (l0 & r0 & -> & ->).
      { case_decide as Hd; [by eauto|]. destruct right as [r0|]; [by eauto|]. simpl in Hp.
        destruct Hb1 as [Hb0 Hb1]. apply lookup_lt_Some in Hb1. lia. }
      apply scan_keeps_right.
  - destruct (IH (S p) begs left right) as (l & r & H1 & H2 & H3); [done|done|by apply Hmono|done|].
    exists l, r. split_and!; [done|done|]. intros Hn. apply not_elem_of_cons. by split; [|apply H3].
Qed.

Lemma drop_app_cons {A} (p : list A) c s : drop (length p) (p ++ c :: s) = c :: s.
Proof. apply drop_app_length. Qed.

Lemma indexOf_first p c s : c ∉ p -> indexOf (p ++ c :: s) [c] 0 = Z.of_nat (length p).
Proof.
  intros Hni. cut (forall q, indexOf (q ++ p ++ c :: s) [c] (length q) = Z.of_nat (length q + length p)).
  { intros H. exact (H []). }
  revert Hni. induction p as [|d p IH]; intros Hni q.
  - rewrite (indexOf_cons _ c _ c s) by (by rewrite drop_app_length). rewrite decide_True by done.
    simpl. lia.
  - rewrite (indexOf_cons _ c _ d (p ++ c :: s)) by (by rewrite drop_app_length).
    rewrite decide_False by set_solver.
    replace (q ++ (d :: p) ++ c :: s) with ((q ++ [d]) ++ p ++ c :: s) by (by rewrite <- app_assoc).
    replace (S (length q)) with (length (q ++ [d])) by (rewrite length_app; simpl; lia).
    rewrite IH by set_solver. rewrite length_app. simpl. lia.
Qed.

Lemma balanced_range_scan p s :
  lbrace ∉ p -> rbrace ∈ s ->
  balanced_range [lbrace] [rbrace] (p ++ lbrace :: s) =
  Some (scan s (S (length p)) [Z.of_nat (length p)] (Z.of_nat (length (p ++ lbrace :: s))) None).
Proof.
  intros Hp Hs. set (str := p ++ lbrace :: s). unfold balanced_range.
  assert (indexOf str [lbrace] 0 = Z.of_nat (length p)) as -> by (by apply indexOf_first).
  replace (Z.to_nat (Z.of_nat (length p) + 1)) with (S (length p)) by lia.
  assert (drop (length p) str = lbrace :: s) as E by apply drop_app_cons.
  pose proof (drop_S_tail _ _ _ _ E) as E'.
  assert (Z.of_nat (S (length p)) <= indexOf str [rbrace] (S (length p)))%Z as Hb
    by (apply indexOf_in; by rewrite E').
  rewrite decide_True by lia.
  assert (length str = length p + S (length s)) as Hlen by (unfold str; by rewrite length_app).
  cbn [Nat.add range_loop]. rewrite decide_False by lia. rewrite decide_True by done.
  replace (Z.to_nat (Z.of_nat (length p) + 1)) with (S (length p)) by lia.
  rewrite <- (range_loop_scan str (S (length p)) s (S (S (2 * length str)))); [done|done|lia|done].
Qed.

Lemma balanced_range_no_pair str :
  (lbrace ∉ str \/ exists p s, str = p ++ lbrace :: s /\ (lbrace ∉ p) /\ (rbrace ∉ s)) ->
  balanced_range [lbrace] [rbrace] str = Some None.
Proof.
  unfold balanced_range. intros [Hni|(p & s & -> & Hp & Hs)].
  - rewrite indexOf_not_in by done. by rewrite decide_False by lia.
  - rewrite indexOf_first by done.
    rewrite (indexOf_not_in _ rbrace); [by rewrite decide_False by lia|].
    replace (Z.to_nat (Z.of_nat (length p) + 1)) with (S (length p)) by lia.
    by rewrite (drop_S_tail _ _ _ _ (drop_app_cons p lbrace s)).
Qed.

Lemma first_lbrace str : lbrace ∈ str -> exists p s, str = p ++ lbrace :: s /\ lbrace ∉ p.
Proof. intros H. apply list_elem_of_split_l in H as (p & s & -> & Hp). eauto. Qed.

(** [balanced] always ends, and what it returns is a decomposition of the
    string at an opening brace and a later closing brace. *)
Lemma find_braces_split str m :
  find_braces str = Some m -> str = pre m ++ in_braces (body m) ++ post m.
Proof.
  unfold find_braces, balanced.
  destruct (decide (lbrace ∈ str)) as [Hin|Hni]; [|by rewrite balanced_range_no_pair by (by left)].
  apply first_lbrace in Hin as (p & s & -> & Hp).
  destruct (decide (rbrace ∈ s)) as [Hs|Hs]; [|rewrite balanced_range_no_pair by (right; eauto); done].
  rewrite balanced_range_scan by done. set (str := p ++ lbrace :: s).
  destruct (scan_result str s (S (length p)) [Z.of_nat (length p)] (Z.of_nat (length str)) None)
    as (l & r & -> & Hlr & Hr).
  - apply (drop_S_tail _ _ lbrace), drop_app_cons.
  - done.
  - apply Forall_singleton. split; [|lia]. split; [lia|]. rewrite Nat2Z.id.
    unfold str. by rewrite lookup_app_r, Nat.sub_diag by lia.
  - done.
  - destruct r as [r|]; [|by destruct Hr]. intros [= <-]. cbn [pre body post length].
    destruct Hlr as ([Hl Hl'] & [Hr0 Hr'] & Hlt).
    pose proof (lookup_lt_Some _ _ _ Hr') as Hlen.
    rewrite <- (take_drop (Z.to_nat l) str) at 1. f_equal.
    rewrite (drop_S str lbrace) by done. unfold in_braces. cbn [app]. f_equal.
    replace (Z.to_nat l + 1) with (S (Z.to_nat l)) by lia.
    set (t := drop (S (Z.to_nat l)) str).
    rewrite <- (take_drop (Z.to_nat r - S (Z.to_nat l)) t) at 1. rewrite <- app_assoc. f_equal.
    unfold t. rewrite drop_drop.
    replace (S (Z.to_nat l) + (Z.to_nat r - S (Z.to_nat l))) with (Z.to_nat r) by lia.
    rewrite (drop_S str rbrace) by done. by rewrite Nat.add_1_r.
Qed.

(** ** Well-nested strings *)

(** The nesting depth after reading [s] at depth [d]; [None] when a closing
    brace has no partner. *)
Fixpoint nest (d : nat) (s : jsstr) : option nat :=
  match s with
  | [] => Some d
  | c :: s' =>
      if decide (c = lbrace) then nest (S d) s'
      else if decide (c = rbrace) then match d with S d' => nest d' s' | O => None end
      else nest d s'
  end.

Definition well_nested (s : jsstr) : Prop := nest 0 s = Some 0.

Lemma nest_app d s t : nest d (s ++ t) = (d' ← nest d s; nest d' t).
Proof.
  revert d. induction s as [|c s IH]; intros d; [done|]. cbn [app nest].
  repeat case_decide; [by apply IH| |by apply IH]. destruct d; [done|by apply IH].
Qed.

Lemma nest_shift k d s d' : nest d s = Some d' -> nest (k + d) s = Some (k + d').
Proof.
  revert d. induction s as [|c s IH]; intros d; cbn [nest]; [by intros [= ->]|].
  repeat case_decide; [| |by apply IH].
  - intros Hn%IH. by rewrite Nat.add_succ_r in Hn.
  - destruct d as [|d]; [done|]. intros Hn%IH. by rewrite Nat.add_succ_r.
Qed.

Lemma nest_no_braces d s : lbrace ∉ s -> rbrace ∉ s -> nest d s = Some d.
Proof.
  revert d. induction s as [|c s IH]; intros d Hl Hr; [done|]. cbn [nest].
  rewrite !decide_False by set_solver. apply IH; set_solver.
Qed.

Lemma nest_in_braces d b : well_nested b -> nest d (in_braces b) = Some d.
Proof.
  intros Hb. unfold in_braces. cbn [nest]. rewrite decide_True by done. rewrite nest_app.
  replace (S d) with (S d + 0) by lia. rewrite (nest_shift (S d) 0 b 0) by done.
  cbn [mbind option_bind Nat.add]. by rewrite Nat.add_0_r.
Qed.

Lemma well_nested_app s t : well_nested s -> well_nested t -> well_nested (s ++ t).
Proof. unfold well_nested. intros Hs Ht. by rewrite nest_app, Hs. Qed.

Lemma well_nested_braces b : well_nested b -> well_nested (in_braces b).
Proof. apply nest_in_braces. Qed.

Lemma well_nested_plain s : lbrace ∉ s -> rbrace ∉ s -> well_nested s.
Proof. apply nest_no_braces. Qed.

(** The partner of an opening brace. *)
Lemma nest_close d s :
  nest (S d) s = Some 0 ->
  exists b q, s = b ++ rbrace :: q /\ nest d b = Some 0 /\ well_nested q.
Proof.
  revert d. induction s as [|c s IH]; intros d; cbn [nest]; [done|].
  destruct (decide (c = lbrace)) as [->|Hl].
  { intros (b & q & -> & Hb & Hq)%IH. exists (lbrace :: b), q. split_and!; [done| |done].
    cbn [nest]. by rewrite decide_True. }
  destruct (decide (c = rbrace)) as [->|Hr].
  - destruct d as [|d].
    + intros Hs. by exists [], s.
    + intros (b & q & -> & Hb & Hq)%IH. exists (rbrace :: b), q. split_and!; [done| |done].
      cbn [nest]. by rewrite decide_False, decide_True.
  - intros (b & q & -> & Hb & Hq)%IH. exists (c :: b), q. split_and!; [done| |done].
    cbn [nest]. by rewrite !decide_False.
Qed.

Lemma well_nested_split s :
  well_nested s ->
  ((lbrace ∉ s) /\ (rbrace ∉ s)) \/
  exists p b q, s = p ++ in_braces b ++ q /\ (lbrace ∉ p) /\ (rbrace ∉ p) /\ well_nested b /\ well_nested q.
Proof.
  intros Hs. unfold well_nested in Hs.
  assert (forall p t, lbrace ∉ p -> nest 0 (p ++ t) = Some 0 -> rbrace ∉ p) as Hp.
  { intros p t. induction p as [|c p IH]; intros Hl; [set_solver|]. cbn [app nest].
    rewrite decide_False by set_solver. case_decide; [done|]. intros Hn%IH; set_solver. }
  destruct (decide (lbrace ∈ s)) as [Hin|Hni].
  - right. apply first_lbrace in Hin as (p & t & -> & Hl). pose proof (Hp _ _ Hl Hs) as Hr.
    rewrite nest_app, nest_no_braces in Hs by done. cbn in Hs.
    apply nest_close in Hs as (b & q & -> & Hb & Hq). exists p, b, q.
    split; [|done]. unfold in_braces. cbn. by rewrite <- app_assoc.
  - left. split; [done|]. apply (Hp s []); [done|by rewrite app_nil_r].
Qed.

Lemma scan_nested b t inner base pos l r :
  nest (length inner) b = Some 0 -> base <> [] ->
  exists l' r', scan (b ++ t) pos (inner ++ base) l r = scan t (pos + length b) base l' r'.
Proof.
  revert inner pos l r. induction b as [|c b IH]; intros inner pos l r; cbn [app nest].
  - intros Hd Hne. assert (inner = []) as -> by (apply nil_length_inv; congruence).
    exists l, r. by rewrite Nat.add_0_r.
  - intros Hd Hne. cbn [scan length]. rewrite <- Nat.add_succ_comm.
    destruct (decide (c = lbrace)) as [->|Hl].
    { exact (IH (Z.of_nat pos :: inner) (S pos) l r Hd Hne). }
    destruct (decide (c = rbrace)) as [->|Hr]; [|by apply IH].
    destruct inner as [|beg inner]; [done|]. cbn [app length] in *.
    destruct (inner ++ base) as [|x rest] eqn:E.
    { apply app_eq_nil in E as [_ E]. done. }
    rewrite <- E. by apply IH.
Qed.

(** On a string whose first opening brace has its partner, [balanced] finds
    exactly this pair. *)
Lemma find_braces_first p b q :
  lbrace ∉ p -> well_nested b ->
  find_braces (p ++ in_braces b ++ q) = Some (Balance (length p) (length p + S (length b)) p b q).
Proof.
  intros Hp Hb.
  assert (p ++ in_braces b ++ q = p ++ lbrace :: b ++ rbrace :: q) as E
    by (unfold in_braces; cbn; by rewrite <- app_assoc).
  unfold find_braces, balanced. rewrite E. rewrite balanced_range_scan by set_solver.
  destruct (scan_nested b (rbrace :: q) [] [Z.of_nat (length p)] (S (length p))
    (Z.of_nat (length (p ++ lbrace :: b ++ rbrace :: q))) None) as (l' & r' & Hs); [done|done|].
  cbn [app] in Hs. rewrite Hs. cbn [scan]. rewrite decide_False, decide_True by done.
  rewrite !Nat2Z.id. cbn [length].
  replace (S (length p) + length b) with (length p + S (length b)) by lia.
  rewrite take_app_length. f_equal. f_equal.
  - rewrite Nat.add_1_r, (drop_S_tail _ _ _ _ (drop_app_cons p lbrace _)).
    replace (length p + S (length b) - S (length p)) with (length b) by lia.
    by rewrite take_app_length.
  - replace (length p + S (length b) + 1) with (S (length (p ++ lbrace :: b)))
      by (rewrite length_app; simpl; lia).
    apply (drop_S_tail _ _ rbrace).
    replace (p ++ lbrace :: b ++ rbrace :: q) with ((p ++ lbrace :: b) ++ rbrace :: q)
      by (by rewrite <- app_assoc).
    apply drop_app_length.
Qed.

Lemma find_braces_none s : lbrace ∉ s -> find_braces s = None.
Proof. intros H. unfold find_braces, balanced. by rewrite balanced_range_no_pair by (by left). Qed.

(** ** [parseCommaParts] *)

Lemma append_last_ne p x : p <> [] -> append_last p x <> [].
Proof. by destruct p as [|y [|z p]]. Qed.

Lemma append_last_snoc p y x : append_last (p ++ [y]) x = p ++ [y ++ x].
Proof.
  induction p as [|z p IH]; [done|]. cbn [app append_last]. rewrite <- IH. by destruct (p ++ [y]) eqn:E; [destruct p|].
Qed.

Lemma append_last_empty p : append_last p [] = p.
Proof.
  induction p as [|y p IH]; [done|]. cbn [append_last]. destruct p; [by rewrite app_nil_r|].
  by rewrite IH.
Qed.

(** Two lists of pieces whose pieces at the seam are one piece. *)
Definition glue (p q : list jsstr) : list jsstr :=
  match q with first :: others => append_last p first ++ others | [] => p end.

Lemma glue_cons x p q : p <> [] -> glue (x :: p) q = x :: glue p q.
Proof. intros Hp. destruct q as [|f q]; [done|]. simpl. by destruct p. Qed.

Lemma glue_assoc p q r : p <> [] -> q <> [] -> glue (glue p q) r = glue p (glue q r).
Proof.
  intros Hp Hq. destruct (exists_last Hp) as (p' & y & ->). destruct q as [|f q]; [done|].
  destruct r as [|g r]; [done|]. unfold glue at 2. rewrite append_last_snoc, <- app_assoc.
  unfold glue. destruct (decide (q = [])) as [->|Hq'].
  - cbn [append_last app]. rewrite !append_last_snoc. by rewrite <- !app_assoc.
  - destruct (exists_last Hq') as (q' & z & ->).
    replace (append_last (f :: q' ++ [z]) g) with (f :: q' ++ [z ++ g])
      by (symmetry; apply (append_last_snoc (f :: q') z g)).
    cbn [app]. rewrite append_last_snoc.
    replace (p' ++ (y ++ f) :: q' ++ [z]) with ((p' ++ (y ++ f) :: q') ++ [z]) by (by rewrite <- app_assoc).
    rewrite append_last_snoc. by rewrite <- !app_assoc.
Qed.

Lemma join_glue p q : p <> [] -> q <> [] -> join [comma] (glue p q) = join [comma] p ++ join [comma] q.
Proof.
  intros Hp Hq. destruct q as [|f q]; [done|]. unfold glue.
  induction p as [|x p IH]; [done|]. destruct p as [|y p].
  - cbn. destruct q; [done|]. cbn. by rewrite <- app_assoc.
  - assert (append_last (x :: y :: p) f ++ q = x :: (append_last (y :: p) f ++ q)) as -> by done.
    specialize (IH ltac:(done)).
    assert (forall z zs, zs <> [] -> join [comma] (z :: zs) = z ++ comma :: join [comma] zs) as Hj
      by (intros z [|? ?] ?; done).
    rewrite (Hj x (y :: p)), (Hj x (_ ++ q)), IH; [by rewrite <- app_assoc| |done].
    intros E. apply app_eq_nil in E as [E _]. by apply (append_last_ne (y :: p) f).
Qed.

Lemma parseCommaParts_step fuel str :
  parseCommaParts_go (S fuel) str =
  match find_braces str with
  | None => split_on comma str
  | Some m => glue (glue (split_on comma (pre m)) [in_braces (body m)]) (parseCommaParts_go fuel (post m))
  end.
Proof.
  cbn [parseCommaParts_go]. destruct (decide (str = [])) as [->|Hne]; [done|].
  destruct (find_braces str) as [m|]; [|done]. unfold glue at 2. rewrite app_nil_r.
  destruct (decide (post m = [])) as [->|Hp]; [|done].
  destruct fuel as [|fuel]; simpl; by rewrite append_last_empty, app_nil_r.
Qed.

Lemma glue_ne p q : p <> [] -> glue p q <> [].
Proof.
  intros Hp. destruct q as [|f q]; [done|]. simpl. intros E. apply app_eq_nil in E as [E _].
  by apply (append_last_ne p f).
Qed.

Lemma parseCommaParts_go_ne fuel str : parseCommaParts_go fuel str <> [].
Proof.
  destruct fuel as [|fuel]; [done|]. rewrite parseCommaParts_step.
  destruct (find_braces str); [|apply split_on_nonempty]. apply glue_ne, glue_ne, split_on_nonempty.
Qed.

Lemma parseCommaParts_join fuel str : join [comma] (parseCommaParts_go fuel str) = str.
Proof.
  revert str. induction fuel as [|fuel IH]; intros str; [done|]. rewrite parseCommaParts_step.
  destruct (find_braces str) as [m|] eqn:E; [|apply join_split_on].
  apply find_braces_split in E as E'.
  rewrite !join_glue by (apply parseCommaParts_go_ne || apply glue_ne, split_on_nonempty || apply split_on_nonempty || done).
  rewrite join_split_on, IH. rewrite E'. cbn [join]. by rewrite <- app_assoc.
Qed.

(** The pieces between the commas at depth 0. *)
Fixpoint top_split (d : nat) (s : jsstr) : list jsstr :=
  match s with
  | [] => [[]]
  | c :: s' =>
      if decide (c = comma /\ d = 0) then [] :: top_split 0 s'
      else glue [[c]] (top_split (if decide (c = lbrace) then S d
                                  else if decide (c = rbrace) then pred d else d) s')
  end.

Lemma top_split_ne d s : top_split d s <> [].
Proof. destruct s; simpl; [done|]. case_decide; [done|]. by destruct (top_split _ s). Qed.

Lemma top_split_app d s t d' :
  nest d s = Some d' -> top_split d (s ++ t) = glue (top_split d s) (top_split d' t).
Proof.
  revert d. induction s as [|c s IH]; intros d; cbn [app nest].
  - intros [= ->]. pose proof (top_split_ne d' t). simpl. by destruct (top_split d' t).
  - intros Hn. cbn [top_split]. destruct (decide (c = comma /\ d = 0)) as [[-> ->]|Hc].
    + cbn in Hn. rewrite (IH 0) by done. rewrite glue_cons; [done|apply top_split_ne].
    + rewrite glue_assoc by (done || apply top_split_ne). f_equal. apply IH.
      repeat case_decide; [done| |done]. by destruct d.
Qed.

Lemma top_split_inside d b : nest d b = Some 0 -> top_split (S d) b = [b].
Proof.
  revert d. induction b as [|c b IH]; intros d; cbn [nest top_split]; [done|].
  intros Hn. rewrite decide_False by naive_solver.
  repeat case_decide; [by rewrite (IH (S d))| |by rewrite (IH d)].
  destruct d as [|d]; [done|]. cbn [pred]. by rewrite (IH d).
Qed.

Lemma top_split_braces b : well_nested b -> top_split 0 (in_braces b) = [in_braces b].
Proof.
  intros Hb. unfold in_braces. cbn [top_split].
  rewrite (decide_False (P := lbrace = comma /\ 0 = 0)) by (intros [? _]; done).
  rewrite (decide_True (P := lbrace = lbrace)) by done.
  rewrite (top_split_app 1 b [rbrace] 1) by exact (nest_shift 1 0 b 0 Hb).
  by rewrite top_split_inside.
Qed.

Lemma top_split_plain s : lbrace ∉ s -> rbrace ∉ s -> top_split 0 s = split_on comma s.
Proof.
  induction s as [|c s IH]; intros Hl Hr; [done|]. cbn [top_split split_on].
  rewrite <- IH by set_solver. destruct (decide (c = comma)) as [->|Hc].
  - by rewrite decide_True.
  - rewrite decide_False by naive_solver. rewrite !decide_False by set_solver.
    pose proof (top_split_ne 0 s). by destruct (top_split 0 s).
Qed.

Lemma parseCommaParts_top fuel str :
  well_nested str -> length str < fuel -> parseCommaParts_go fuel str = top_split 0 str.
Proof.
  revert str. induction fuel as [|fuel IH]; intros str Hw Hf; [lia|]. rewrite parseCommaParts_step.
  destruct (well_nested_split str Hw) as [[Hl Hr]|(p & b & q & -> & Hl & Hr & Hb & Hq)].
  - rewrite find_braces_none by done. by rewrite top_split_plain.
  - rewrite find_braces_first by done. cbn [pre body post].
    unfold in_braces in Hf. rewrite IH by (done || (rewrite !length_app in Hf; simpl in Hf; lia)).
    rewrite (top_split_app 0 p _ 0) by (by apply nest_no_braces).
    rewrite (top_split_app 0 (in_braces b) q 0) by (by apply nest_in_braces).
    rewrite top_split_braces, (top_split_plain p) by done.
    by rewrite glue_assoc by (done || apply split_on_nonempty).
Qed.

(** ** Replacing *)

Lemma join_split_str_go pat s acc skip :
  pat <> [] -> join pat (split_str_go pat s acc skip) = acc ++ drop skip s.
Proof.
  intros Hpat. assert (forall s acc skip, split_str_go pat s acc skip <> []) as Hne.
  { clear s acc skip. induction s as [|c s IH]; intros acc skip; cbn [split_str_go]; [done|].
    destruct skip; [case_decide|]; done. }
  revert acc skip. induction s as [|c s IH]; intros acc skip; cbn [split_str_go].
  - by rewrite drop_nil, app_nil_r.
  - destruct skip as [|skip]; [|by rewrite IH]. rewrite drop_0. case_decide as Hp.
    + specialize (Hne s [] (length pat - 1)). specialize (IH [] (length pat - 1)).
      destruct (split_str_go pat s [] (length pat - 1)) as [|x xs]; [done|].
      rewrite join_cons, IH. f_equal. destruct Hp as [k Hk]. destruct pat as [|d pat]; [done|].
      simplify_eq/=. by rewrite Nat.sub_0_r, drop_app_length.
    + rewrite IH, drop_0. by rewrite <- app_assoc.
Qed.

Lemma join_split_str pat s : pat <> [] -> join pat (split_str pat s) = s.
Proof. intros H. unfold split_str. by rewrite join_split_str_go. Qed.

Lemma split_str_absent x pat s acc : x ∉ s -> split_str_go (x :: pat) s acc 0 = [acc ++ s].
Proof.
  revert acc. induction s as [|c s IH]; intros acc Hni; cbn [split_str_go]; [by rewrite app_nil_r|].
  rewrite decide_False; [|intros [k Hk]; simplify_eq/=; set_solver].
  rewrite IH by set_solver. by rewrite <- app_assoc.
Qed.

Lemma replace_all_absent x pat rep s : x ∉ s -> replace_all (x :: pat) rep s = s.
Proof. intros H. unfold replace_all, split_str. by rewrite split_str_absent. Qed.

(** ** Reference semantics: brace words

    A word is a sequence of characters and groups of at least two words; it
    denotes the list of its expansions, the leftmost choice varying slowest. *)
Inductive word :=
| WNil
| WChar (c : N) (w : word)
| WGroup (o : choices) (w : word)
with choices :=
| OTwo (w1 w2 : word)
| OCons (w : word) (o : choices).

Scheme word_mut := Induction for word Sort Prop
with choices_mut := Induction for choices Sort Prop.
Combined Scheme word_choices_ind from word_mut, choices_mut.

Fixpoint print_word (w : word) : jsstr :=
  match w with
  | WNil => []
  | WChar c w => c :: print_word w
  | WGroup o w => in_braces (join [comma] (print_options o)) ++ print_word w
  end
with print_options (o : choices) : list jsstr :=
  match o with
  | OTwo w1 w2 => [print_word w1; print_word w2]
  | OCons w o => print_word w :: print_options o
  end.

Fixpoint denote (w : word) : list jsstr :=
  match w with
  | WNil => [[]]
  | WChar c w => map (cons c) (denote w)
  | WGroup o w => combine [] (denote_options o) (denote w)
  end
with denote_options (o : choices) : list jsstr :=
  match o with
  | OTwo w1 w2 => denote w1 ++ denote w2
  | OCons w o => denote w ++ denote_options o
  end.

(** Characters without a meaning for the expansion: not NUL (of the markers),
    not a dollar sign, a comma, a backslash or a brace. *)
Definition plain (c : N) : bool := bool_decide (c ∉ [0; 36; 44; 92; 123; 125]%N).

Fixpoint plain_word (w : word) : bool :=
  match w with
  | WNil => true
  | WChar c w => plain c && plain_word w
  | WGroup o w => plain_options o && plain_word w
  end
with plain_options (o : choices) : bool :=
  match o with
  | OTwo w1 w2 => plain_word w1 && plain_word w2
  | OCons w o => plain_word w && plain_options o
  end.

Fixpoint words (o : choices) : list word :=
  match o with OTwo w1 w2 => [w1; w2] | OCons w o => w :: words o end.

Lemma print_options_words o : print_options o = map print_word (words o).
Proof. induction o; simpl; congruence. Qed.

Lemma denote_options_words o : denote_options o = concat (map denote (words o)).
Proof. induction o as [w1 w2|w o IH]; simpl; [by rewrite app_nil_r|by rewrite IH]. Qed.

Lemma plain_options_words o : plain_options o = true -> Forall (fun w => plain_word w = true) (words o).
Proof.
  induction o as [w1 w2|w o IH]; simpl; rewrite andb_true_iff; intros [H1 H2];
    repeat constructor; auto.
Qed.

Lemma plain_spec c :
  plain c = true -> c <> 0%N /\ c <> 36%N /\ c <> comma /\ c <> 92%N /\ c <> lbrace /\ c <> rbrace.
Proof. unfold plain, comma, lbrace, rbrace. rewrite bool_decide_eq_true. set_solver. Qed.

Lemma words_two o : exists w1 w2 ws, words o = w1 :: w2 :: ws.
Proof. destruct o as [w1 w2|w o]; simpl; [eauto|]. destruct o; simpl; eauto. Qed.

(** The printed form: well nested, and without commas at depth 0. *)
Lemma top_split_comma s t :
  well_nested s -> top_split 0 s = [s] -> top_split 0 (s ++ comma :: t) = s :: top_split 0 t.
Proof.
  intros Hs Hs'. rewrite (top_split_app 0 s _ 0) by done. rewrite Hs'.
  cbn [top_split]. rewrite decide_True by done. cbn. by rewrite app_nil_r.
Qed.

Definition one_piece (s : jsstr) : Prop := well_nested s /\ top_split 0 s = [s].

Lemma one_piece_join ss :
  ss <> [] -> Forall one_piece ss -> well_nested (join [comma] ss) /\ top_split 0 (join [comma] ss) = ss.
Proof.
  intros Hne Hall. induction Hall as [|s ss [Hs Hs'] Hall IH]; [done|].
  destruct ss as [|s2 ss]; [done|]. rewrite join_cons. destruct IH as [IH1 IH2]; [done|]. split.
  - apply well_nested_app; [done|]. cbn [app]. unfold well_nested. cbn [nest]. exact IH1.
  - cbn [app]. rewrite top_split_comma by done. by rewrite IH2.
Qed.

Lemma print_one_piece :
  (forall w, plain_word w = true -> one_piece (print_word w)) /\
  (forall o, plain_options o = true -> Forall one_piece (print_options o)).
Proof.
  apply word_choices_ind; cbn [print_word print_options plain_word plain_options].
  - done.
  - intros c w IH [Hc Hw]%andb_true_iff. apply plain_spec in Hc as (_ & _ & H1 & _ & H2 & H3).
    destruct (IH Hw) as [IH1 IH2]. split.
    + unfold well_nested. cbn [nest]. by rewrite !decide_False.
    + cbn [top_split]. rewrite decide_False by naive_solver. rewrite !decide_False by done.
      by rewrite IH2.
  - intros o IHo w IHw [Ho Hw]%andb_true_iff. destruct (IHw Hw) as [IH1 IH2].
    destruct (one_piece_join (print_options o)) as [IH3 IH4].
    { rewrite print_options_words. by destruct (words_two o) as (? & ? & ? & ->). }
    { by apply IHo. }
    split; [by apply well_nested_app; [apply well_nested_braces|]|].
    rewrite (top_split_app 0 _ _ 0) by (by apply nest_in_braces).
    by rewrite top_split_braces, IH2.
  - intros w1 H1 w2 H2 [? ?]%andb_true_iff. constructor; [auto|]. constructor; auto.
  - intros w Hw o Ho [? ?]%andb_true_iff. constructor; auto.
Qed.

Lemma parse_options o :
  plain_options o = true -> parseCommaParts (join [comma] (print_options o)) = print_options o.
Proof.
  intros Ho. destruct (one_piece_join (print_options o)) as [H1 H2].
  - rewrite print_options_words. by destruct (words_two o) as (? & ? & ? & ->).
  - by apply print_one_piece.
  - unfold parseCommaParts. rewrite parseCommaParts_top by (done || lia). done.
Qed.

(** ** [expand] on printed words *)

Lemma join_in sep ss x : x ∈ sep -> 2 <= length ss -> x ∈ join sep ss.
Proof.
  destruct ss as [|s [|t ss]]; simpl; [lia|lia|]. intros Hx _. set_solver.
Qed.

Lemma join_not_in sep ss x : x ∉ sep -> Forall (fun s => x ∉ s) ss -> x ∉ join sep ss.
Proof.
  intros Hsep Hall. induction Hall as [|s ss Hs Hall IH]; [set_solver|].
  destruct ss as [|t ss]; [done|]. rewrite join_cons. set_solver.
Qed.

Lemma is_integer_no_comma s : is_integer s = true -> comma ∉ s.
Proof.
  unfold is_integer. rewrite andb_true_iff, bool_decide_eq_true, forallb_Forall, Forall_forall.
  intros [_ Hall] Hin. assert (comma ∈ strip_minus s) as Hin'.
  { destruct s as [|c s]; [set_solver|]. simpl. case_decide as Hc; [|done]. subst.
    unfold comma in *. set_solver. }
  apply Hall in Hin'. unfold is_ascii_digit, in_range, comma in Hin'. done.
Qed.

Lemma is_one_letter_no_comma s : is_one_letter s = true -> comma ∉ s.
Proof.
  destruct s as [|c [|d s]]; [done| |done]. simpl. intros Hc. rewrite list_elem_of_singleton.
  intros <-. done.
Qed.

(** A body with a comma is not a sequence. *)
Lemma comma_no_sequence body :
  comma ∈ body ->
  is_numeric_sequence (split_str «".."» body) || is_alpha_sequence (split_str «".."» body) = false.
Proof.
  intros Hin. apply not_true_is_false. intros Hseq.
  assert (Forall (fun s => comma ∉ s) (split_str «".."» body)) as Hall.
  { destruct (split_str «".."» body) as [|p [|q [|r [|? ?]]]]; simpl in Hseq; try done;
      rewrite ?orb_true_iff, ?andb_true_iff in Hseq;
      destruct Hseq as [Hseq|Hseq]; destruct_and? Hseq;
      repeat constructor; auto using is_integer_no_comma, is_one_letter_no_comma. }
  apply (join_not_in «".."») in Hall; [|unfold comma; simpl; set_solver].
  by rewrite join_split_str in Hall.
Qed.

Lemma comma_is_option body :
  comma ∈ body -> bool_decide (0 <= indexOf body [comma] 0)%Z = true.
Proof. intros H. apply bool_decide_eq_true. by apply (indexOf_in body comma 0). Qed.

(** The characters before the first group. *)
Fixpoint leading (w : word) : jsstr :=
  match w with WChar c w => c :: leading w | _ => [] end.

Fixpoint first_group (w : word) : option (choices * word) :=
  match w with
  | WNil => None
  | WChar _ w => first_group w
  | WGroup o w => Some (o, w)
  end.

Lemma print_first_group w :
  print_word w = leading w ++
    match first_group w with
    | Some (o, w') => in_braces (join [comma] (print_options o)) ++ print_word w'
    | None => []
    end.
Proof.
  induction w as [|c w IH|o w IH]; [done| |done]. cbn [print_word leading first_group app].
  by rewrite IH.
Qed.

Lemma combine_map pre N post : combine pre N post = map (app pre) (combine [] N post).
Proof.
  unfold combine. induction N as [|n N IH]; [done|]. simpl. rewrite map_app, IH. f_equal.
  by rewrite map_map.
Qed.

Lemma denote_first_group w :
  denote w = match first_group w with
             | Some (o, w') => combine (leading w) (denote_options o) (denote w')
             | None => [leading w]
             end.
Proof.
  induction w as [|c w IH|o w IH]; [done| |done]. cbn [denote leading first_group]. rewrite IH.
  destruct (first_group w) as [[o w']|]; [|done].
  rewrite !(combine_map (_ :: _)), (combine_map (leading w)), map_map. done.
Qed.

Lemma plain_first_group w :
  plain_word w = true ->
  Forall (fun c => plain c = true) (leading w) /\
  match first_group w with
  | Some (o, w') => plain_options o = true /\ plain_word w' = true
  | None => True
  end.
Proof.
  induction w as [|c w IH|o w IH]; cbn [plain_word leading first_group]; [done| |].
  - intros [Hc [H1 H2]%IH]%andb_true_iff. split; [by constructor|done].
  - rewrite andb_true_iff. done.
Qed.

Lemma closers_app s t : closers (s ++ t) = closers s + closers t.
Proof. unfold closers. by rewrite filter_app, length_app. Qed.

Lemma closers_in_braces s : closers (in_braces s) = S (closers s).
Proof.
  unfold in_braces. change (lbrace :: s ++ [rbrace]) with ([lbrace] ++ s ++ [rbrace]).
  rewrite !closers_app. change (closers [lbrace]) with 0. change (closers [rbrace]) with 1. lia.
Qed.

Lemma closers_join ss s : s ∈ ss -> closers s <= closers (join [comma] ss).
Proof.
  induction ss as [|t ss IH]; [set_solver|]. rewrite elem_of_cons.
  destruct ss as [|t2 ss]; [simpl; intros [->|?]; [lia|set_solver]|].
  rewrite join_cons, !closers_app. intros [->|Hin]; [lia|]. specialize (IH Hin). lia.
Qed.

Lemma option_closers o v :
  v ∈ words o -> closers (print_word v) <= closers (join [comma] (print_options o)).
Proof. intros Hv. apply closers_join. rewrite print_options_words. by apply list_elem_of_fmap_2. Qed.

Lemma concatMap_concat {A} (xs : list A) fn : concatMap xs fn = concat (map fn xs).
Proof.
  unfold concatMap. cut (forall res, foldl (fun res x => res ++ fn x) res xs = res ++ concat (map fn xs)).
  { intros H. apply H. }
  induction xs as [|x xs IH]; intros res; simpl; [by rewrite app_nil_r|]. by rewrite IH, <- app_assoc.
Qed.

Lemma filter_all {A} (P : A -> Prop) `{forall x, Decision (P x)} (l : list A) :
  Forall P l -> filter P l = l.
Proof.
  induction 1 as [|x l Hx Hl IH]; [done|]. by rewrite filter_cons_True, IH.
Qed.

Lemma leading_last w : plain_word w = true -> last (leading w) <> Some 36%N.
Proof.
  intros [Hp _]%plain_first_group Hl. rewrite Forall_forall in Hp.
  apply last_Some in Hl as [l Hl]. rewrite Hl in Hp.
  specialize (Hp 36%N ltac:(set_solver)). done.
Qed.

Lemma leading_no_lbrace w : plain_word w = true -> lbrace ∉ leading w.
Proof.
  intros [Hp _]%plain_first_group Hin. rewrite Forall_forall in Hp. by apply Hp in Hin.
Qed.

(** The expansion of a word with a group, from the expansions of its parts. *)
Lemma expand_group rClose fuel w o w' top :
  plain_word w = true -> first_group w = Some (o, w') ->
  expand rClose fuel (print_word w') false = Value (denote w') ->
  Forall (fun v => expand rClose fuel (print_word v) false = Value (denote v)) (words o) ->
  expand rClose (S fuel) (print_word w) top =
    Value (filter (fun e => top = false \/ e <> []) (denote w)).
Proof.
  intros Hw Hg Hpost Hopts. pose proof (plain_first_group w Hw) as [_ Hg']. rewrite Hg in Hg'.
  destruct Hg' as [Ho Hw']. cbn [expand]. rewrite (print_first_group w), Hg.
  destruct (one_piece_join (print_options o)) as [Hnest _].
  { rewrite print_options_words. by destruct (words_two o) as (? & ? & ? & ->). }
  { by apply print_one_piece. }
  rewrite find_braces_first by (done || by apply leading_no_lbrace). cbn [pre body post].
  set (bd := join [comma] (print_options o)) in *.
  assert (comma ∈ bd) as Hc.
  { apply join_in; [set_solver|]. rewrite print_options_words.
    destruct (words_two o) as (? & ? & ? & ->). simpl. lia. }
  rewrite comma_no_sequence, comma_is_option by done.
  rewrite decide_False by (by apply leading_last). cbn [negb andb].
  assert ((if decide (print_word w' = []) then Value [[]] else expand rClose fuel (print_word w') false)
    = Value (denote w')) as ->.
  { case_decide as E; [|done]. destruct w' as [|c w'|o' w']; [done|done|by destruct (join _ _)]. }
  unfold bd. rewrite parse_options, print_options_words by done.
  destruct (words_two o) as (w1 & w2 & ws & Ews). rewrite Ews at 1. cbn [map].
  change (print_word w1 :: print_word w2 :: map print_word ws) with (map print_word (w1 :: w2 :: ws)).
  rewrite <- Ews. cbn [obind].
  assert (omapM (fun el => expand rClose fuel el false) (map print_word (words o)) =
    Value (map denote (words o))) as Hm.
  { clear -Hopts. induction Hopts as [|v vs Hv Hvs IH]; [done|]. simpl. by rewrite Hv, IH. }
  rewrite Hm. cbn [obind]. rewrite concatMap_concat, map_id, <- denote_options_words.
  rewrite (denote_first_group w), Hg. f_equal. apply list_filter_iff. naive_solver.
Qed.

Lemma expand_word rClose fuel w :
  plain_word w = true -> closers (print_word w) < fuel ->
  expand rClose fuel (print_word w) false = Value (denote w).
Proof.
  revert w. induction fuel as [|fuel IH]; intros w Hw Hf; [lia|].
  destruct (first_group w) as [[o w']|] eqn:Hg.
  - pose proof (plain_first_group w Hw) as [_ Hg']. rewrite Hg in Hg'. destruct Hg' as [Ho Hw'].
    rewrite (print_first_group w), Hg, !closers_app, closers_in_braces in Hf.
    rewrite (expand_group rClose fuel w o w' false); [|done|done|apply IH; [done|lia]|].
    + f_equal. apply filter_all, Forall_forall. by left.
    + apply plain_options_words in Ho as Hos. rewrite Forall_forall in Hos |- *. intros v Hv.
      pose proof (option_closers o v Hv). apply IH; [by apply Hos|lia].
  - cbn [expand]. rewrite (print_first_group w), (denote_first_group w), Hg, app_nil_r.
    by rewrite find_braces_none by (by apply leading_no_lbrace).
Qed.

Lemma expand_word_top rClose fuel w :
  plain_word w = true -> closers (print_word w) < fuel -> print_word w <> [] ->
  expand rClose fuel (print_word w) true = Value (filter (fun e => e <> []) (denote w)).
Proof.
  intros Hw Hf Hne. destruct fuel as [|fuel]; [lia|].
  destruct (first_group w) as [[o w']|] eqn:Hg.
  - pose proof (plain_first_group w Hw) as [_ Hg']. rewrite Hg in Hg'. destruct Hg' as [Ho Hw'].
    rewrite (print_first_group w), Hg, !closers_app, closers_in_braces in Hf.
    rewrite (expand_group rClose fuel w o w' true); [|done|done|apply expand_word; [done|lia]|].
    + f_equal. apply list_filter_iff. naive_solver.
    + apply plain_options_words in Ho as Hos. rewrite Forall_forall in Hos |- *. intros v Hv.
      pose proof (option_closers o v Hv). apply expand_word; [by apply Hos|lia].
  - cbn [expand]. rewrite (print_first_group w), Hg, app_nil_r in Hne |- *.
    rewrite (denote_first_group w), Hg.
    rewrite find_braces_none by (by apply leading_no_lbrace).
    by rewrite filter_cons_True.
Qed.

(** *** At the top *)

Lemma denote_plain :
  (forall w, plain_word w = true -> Forall (Forall (fun c => plain c = true)) (denote w)) /\
  (forall o, plain_options o = true -> Forall (Forall (fun c => plain c = true)) (denote_options o)).
Proof.
  apply word_choices_ind; cbn [denote denote_options plain_word plain_options].
  - intros _. by repeat constructor.
  - intros c w IH [Hc Hw]%andb_true_iff. apply Forall_fmap. eapply Forall_impl; [exact (IH Hw)|].
    intros e He. by constructor.
  - intros o IHo w IHw [Ho Hw]%andb_true_iff. specialize (IHo Ho). specialize (IHw Hw).
    unfold combine. apply Forall_concat, Forall_fmap. eapply Forall_impl; [exact IHo|].
    intros n Hn. apply Forall_fmap. eapply Forall_impl; [exact IHw|].
    intros p Hp. apply Forall_app. by split.
  - intros w1 H1 w2 H2 [? ?]%andb_true_iff. apply Forall_app. auto.
  - intros w Hw o Ho [? ?]%andb_true_iff. apply Forall_app. auto.
Qed.

Lemma plain_absent (x : N) s : plain x = false -> Forall (fun c => plain c = true) s -> x ∉ s.
Proof. intros Hx Hs Hin. rewrite Forall_forall in Hs. apply Hs in Hin. congruence. Qed.

Lemma print_word_absent (x : N) :
  plain x = false -> x ∉ [lbrace; rbrace; comma] ->
  (forall w, plain_word w = true -> x ∉ print_word w) /\
  (forall o, plain_options o = true -> Forall (fun s => x ∉ s) (print_options o)).
Proof.
  intros Hx Hni. apply word_choices_ind; cbn [print_word print_options plain_word plain_options].
  - set_solver.
  - intros c w IH [Hc Hw]%andb_true_iff. apply not_elem_of_cons. split; [congruence|auto].
  - intros o IHo w IHw [Ho Hw]%andb_true_iff. unfold in_braces.
    assert (x ∉ join [comma] (print_options o)) by (apply join_not_in; [set_solver|auto]).
    specialize (IHw Hw). set_solver.
  - intros w1 H1 w2 H2 [? ?]%andb_true_iff. constructor; [auto|]. constructor; auto.
  - intros w Hw o Ho [? ?]%andb_true_iff. constructor; auto.
Qed.

Lemma unescape_plain rSlash rOpen rClose rComma rPeriod s :
  0%N ∉ s -> unescapeBraces rSlash rOpen rClose rComma rPeriod s = s.
Proof.
  intros H. unfold unescapeBraces, escSlash, escOpen, escClose, escComma, escPeriod, marker.
  by rewrite !(replace_all_absent _ _ _ s H).
Qed.

Lemma escape_plain rSlash rOpen rClose rComma rPeriod s :
  92%N ∉ s -> escapeBraces rSlash rOpen rClose rComma rPeriod s = s.
Proof.
  intros H. unfold escapeBraces. change «"\."» with [92; 46]%N. change «"\,"» with [92; 44]%N.
  change «"\}"» with [92; 125]%N. change «"\{"» with [92; 123]%N. change «"\\"» with [92; 92]%N.
  by rewrite !(replace_all_absent _ _ _ s H).
Qed.

(** A printed word never starts with an empty pair of braces. *)
Lemma print_word_take2 w : plain_word w = true -> take 2 (print_word w) <> «"{}"».
Proof.
  assert (forall v rest, plain_word v = true -> head (print_word v ++ comma :: rest) <> Some rbrace) as Hv.
  { intros v rest. destruct v as [|c v|o v]; simpl; [done| |done].
    intros [Hc _]%andb_true_iff [= ->]. done. }
  destruct w as [|c w|o w]; cbn [print_word plain_word]; [done| |].
  - intros [Hc _]%andb_true_iff E. destruct (print_word w); [done|]. injection E as -> _. done.
  - intros [Ho _]%andb_true_iff. rewrite print_options_words.
    apply plain_options_words in Ho. destruct (words_two o) as (w1 & w2 & ws & Ews).
    rewrite Ews in *. apply Forall_cons in Ho as [H1 _]. unfold in_braces. cbn [map].
    rewrite join_cons. specialize (Hv w1 (join [comma] (map print_word (w2 :: ws))) H1).
    cbn [app map] in *. rewrite <- !app_assoc. intros E.
    destruct (print_word w1) as [|d ?]; [done|]. injection E as ->. done.
Qed.

(** C3. On every brace word built from plain characters and groups of at least
    two alternatives, nested to any depth, the expansion is the reference
    semantics: all combinations in order, the leftmost choice varying slowest,
    with empty results dropped at the top level. *)
Theorem expandTop_denotes (rSlash rOpen rClose rComma rPeriod : jsstr) (w : word) :
  plain_word w = true ->
  expandTop rSlash rOpen rClose rComma rPeriod (print_word w) =
    Value (filter (fun e => e <> []) (denote w)).
Proof.
  intros Hw. unfold expandTop. case_decide as Hne.
  - rewrite (denote_first_group w). rewrite (print_first_group w) in Hne.
    apply app_eq_nil in Hne as [-> E]. by destruct (first_group w) as [[o w']|].
  - rewrite (decide_False (P := take 2 _ = _)) by (by apply print_word_take2).
    rewrite escape_plain by (by apply (print_word_absent 92); [|unfold lbrace, rbrace, comma; set_solver|]).
    rewrite expand_word_top by (done || (unfold expand_fuel; lia)). cbn [obind]. f_equal.
    rewrite <- (map_id (filter _ (denote w))) at 2. apply map_ext_in. intros e He.
    apply unescape_plain, plain_absent; [done|].
    destruct denote_plain as [Hd _]. specialize (Hd w Hw). rewrite Forall_forall in Hd.
    apply Hd. apply list_elem_of_In in He. by apply list_elem_of_filter in He as [_ ?].
Qed.

(** ** Sequences *)

(** How many of [i, i + incr, i + 2 incr, ...] are at most [y]. *)
Definition terms (i y incr : Z) : nat := if decide (i <= y)%Z then S (Z.to_nat ((y - i) / incr)) else 0.

Lemma terms_step i y incr :
  (0 < incr)%Z -> (i <= y)%Z -> terms i y incr = S (terms (i + incr) y incr).
Proof.
  intros Hi Hy. unfold terms. rewrite decide_True by done. f_equal.
  assert ((y - i) / incr = (y - (i + incr)) / incr + 1)%Z as E.
  { replace (y - i)%Z with ((y - (i + incr)) + 1 * incr)%Z by lia. rewrite Z.div_add by lia. done. }
  case_decide.
  - pose proof (Z.div_pos (y - (i + incr)) incr). lia.
  - rewrite Z.div_small by lia. done.
Qed.

(** Doubles up to the infinities. *)
Definition double (z : Z) : Prop := is_double z /\ (Z.abs z <= INF)%Z.

Lemma double_round z : double (round64 z).
Proof. split; [apply round64_double|apply round64_range]. Qed.

Lemma double_small z : (Z.abs z <= 2 ^ 53)%Z -> double z.
Proof. intros H. pose proof INF_pos. split; [by apply round64_small|lia]. Qed.

Lemma add64_step i incr c : double i -> (0 <= incr <= INF)%Z -> add64 i incr = Some c -> double c /\ (i <= c)%Z.
Proof.
  intros [Hi Hi'] Hincr E. split; [|apply (add64_up i incr); done || lia]. unfold add64 in E. pose proof INF_pos.
  repeat case_decide; [done|by injection E as <-| |injection E as <-; apply double_round].
  injection E as <-. replace incr with INF by lia. split; [apply INF_double|lia].
Qed.

(** Below [2^53] a step that is not zero leads on. *)
Lemma add64_beyond i incr y : (Z.abs i < 2 ^ 53)%Z -> (0 < incr <= INF)%Z -> (y < 2 ^ 53)%Z ->
  exists c, add64 i incr = Some c /\ (c = i + incr \/ i + incr > y /\ c > y)%Z /\ c <> i.
Proof.
  intros Hi Hincr Hy. pose proof INF_pos. unfold add64. rewrite decide_False by lia. case_decide as Hb.
  { exists incr. split_and!; [done|right; lia|lia]. }
  exists (round64 (i + incr)). split; [done|]. destruct (decide (i + incr <= 2 ^ 53)%Z).
  - rewrite round64_small by lia. split; [by left|lia].
  - assert (2 ^ 53 <= round64 (i + incr))%Z by (rewrite <- (round64_small (2 ^ 53)) by lia; apply round64_mono; lia).
    split; [right; lia|lia].
Qed.

Lemma seq_loop_up fuel i y incr :
  (0 < incr <= INF)%Z -> (Z.abs i < 2 ^ 53)%Z -> (Z.abs y < 2 ^ 53)%Z -> terms i y incr < fuel ->
  seq_loop fuel (Some i) y incr false =
    Some (map (fun k => i + Z.of_nat k * incr)%Z (seq 0 (terms i y incr))).
Proof.
  revert i. induction fuel as [|fuel IH]; intros i Hi Hs Hy Hf; [lia|]. cbn [seq_loop].
  destruct (decide (i <= y)%Z) as [Hle|Hle].
  - rewrite bool_decide_true by done. rewrite terms_step in Hf |- * by lia.
    destruct (add64_beyond i incr y) as (c & -> & Hc & _); [lia..|].
    assert (seq_loop fuel (Some c) y incr false =
      Some (map (fun k => i + incr + Z.of_nat k * incr)%Z (seq 0 (terms (i + incr) y incr)))) as ->.
    { destruct (decide (i + incr <= y)%Z) as [Hy'|Hy'].
      - assert (c = i + incr)%Z as -> by lia. apply IH; lia.
      - unfold terms in *. rewrite decide_False in * by lia. destruct fuel; [lia|]. cbn [seq_loop].
        by rewrite bool_decide_false by lia. }
    cbn [seq map fmap option_fmap option_map]. f_equal. f_equal; [lia|].
    rewrite <- seq_shift, map_map. apply map_ext. intros k. lia.
  - rewrite bool_decide_false by done. unfold terms. by rewrite decide_False.
Qed.

Lemma seq_loop_reverse fuel i y incr :
  seq_loop fuel i y incr true = map Z.opp <$> seq_loop fuel (Z.opp <$> i) (- y) (- incr) false.
Proof.
  revert i. induction fuel as [|fuel IH]; intros i; [done|]. cbn [seq_loop]. destruct i as [i|]; [|done].
  cbn [fmap option_fmap option_map]. rewrite (bool_decide_ext (- i <= - y)%Z (y <= i)%Z) by lia. case_bool_decide; [|done].
  rewrite IH, add64_opp. destruct (seq_loop fuel _ _ _ false); [|done]. simpl. by rewrite Z.opp_involutive.
Qed.

(** From [x] towards [y] in steps of [step], as far as [y]. *)
Definition progression (x y step : Z) : list Z :=
  map (fun k => x + Z.of_nat k * (if decide (y < x) then - step else step))%Z
      (seq 0 (S (Z.to_nat (Z.abs (y - x) / step)))).

Lemma seq_loop_progression x y step :
  (0 < step <= INF)%Z -> (Z.abs x < 2 ^ 53)%Z -> (Z.abs y < 2 ^ 53)%Z ->
  seq_loop (2 + Z.to_nat (Z.abs (y - x))) (Some x) y
    (if bool_decide (y < x)%Z then (- step)%Z else step) (bool_decide (y < x)%Z) =
  Some (progression x y step).
Proof.
  intros Hs Hx Hy.
  assert (forall z, (0 <= z)%Z -> (0 <= z / step <= z)%Z) as Hdiv.
  { intros z Hz. pose proof (Z.div_pos z step). split; [lia|]. apply Z.div_le_upper_bound; nia. }
  unfold progression. destruct (decide (y < x)%Z) as [Hlt|Hge].
  - rewrite !bool_decide_true by done. rewrite seq_loop_reverse, Z.opp_involutive. cbn [fmap option_fmap option_map].
    pose proof (Hdiv (x - y)%Z). assert (terms (- x) (- y) step = S (Z.to_nat ((x - y) / step))) as Et.
    { unfold terms. rewrite decide_True by lia. by replace (- y - - x)%Z with (x - y)%Z by lia. }
    rewrite seq_loop_up by (lia || rewrite Et; lia). rewrite Et. cbn [fmap option_fmap option_map].
    rewrite map_map. replace (Z.abs (y - x)) with (x - y)%Z by lia.
    f_equal. apply map_ext. intros k. lia.
  - rewrite !bool_decide_false by done.
    pose proof (Hdiv (y - x)%Z). assert (terms x y step = S (Z.to_nat ((y - x) / step))) as Et.
    { unfold terms. by rewrite decide_True by lia. }
    rewrite seq_loop_up by (lia || rewrite Et; lia). rewrite Et.
    replace (Z.abs (y - x)) with (y - x)%Z by lia. done.
Qed.

(** ** Loops that do not end *)

Lemma seq_loop_stuck v y incr (reverse : bool) fuel :
  (if reverse then y <= v else v <= y)%Z -> add64 v incr = Some v -> seq_loop fuel (Some v) y incr reverse = None.
Proof.
  intros Ht Hv. induction fuel as [|fuel IH]; [done|]. cbn [seq_loop]. rewrite Hv.
  destruct reverse; rewrite bool_decide_true by done; by rewrite IH.
Qed.

(** A loop that has not ended after as many steps as there are integers up to
    [y] has come to stand still, and never ends. *)
Lemma seq_loop_stands fuel i y incr :
  double i -> (0 <= incr <= INF)%Z -> (y - i + 1 < Z.of_nat fuel)%Z -> 0 < fuel ->
  seq_loop fuel (Some i) y incr false = None ->
  (forall fuel', seq_loop fuel' (Some i) y incr false = None) /\
  exists v, (i <= v <= y)%Z /\ add64 v incr = Some v.
Proof.
  revert i. induction fuel as [|fuel IH]; intros i Hi Hincr Hf Hpos Hl; [lia|]. cbn [seq_loop] in Hl.
  case_bool_decide as Ht; [|done]. destruct (add64 i incr) as [c|] eqn:Ec; [|destruct fuel; [lia|done]].
  destruct (add64_step i incr c Hi Hincr Ec) as [Hc Hle].
  destruct (decide (c = i)) as [->|Hne].
  { split; [intros fuel'; by apply seq_loop_stuck|]. exists i. split; [lia|done]. }
  apply fmap_None in Hl. destruct (IH c Hc Hincr ltac:(lia) ltac:(lia) Hl) as [Hall (v & Hv & Ev)]. split.
  - intros [|fuel']; [done|]. cbn [seq_loop]. rewrite bool_decide_true, Ec by done. by rewrite Hall.
  - exists v. split; [lia|done].
Qed.

Lemma stands_still v incr : (0 <= incr <= INF)%Z -> add64 v incr = Some v -> incr = 0%Z \/ (2 ^ 53 <= Z.abs v)%Z.
Proof.
  intros Hincr Hv. destruct (decide (incr = 0)%Z); [by left|]. right.
  destruct (decide (Z.abs v < 2 ^ 53)%Z) as [Hs|]; [|lia].
  destruct (add64_beyond v incr v) as (c & Ec & _ & Hne); [lia..|]. congruence.
Qed.

(** A sequence [{x..y}] or [{x..y..step}] with a step that is not zero and
    bounds below [2^53] yields the arithmetic progression from [x] towards [y],
    upwards or downwards, each value printed as the source does.  With a step of
    zero the loop never ends, whatever the bounds. *)
Theorem sequence_progression (isAlphaSequence : bool) (n0 n1 : jsstr) (rest : list jsstr) :
  let x := numeric n0 in
  let y := numeric n1 in
  let item := seq_item isAlphaSequence (existsb isPadded (n0 :: n1 :: rest))
                (Nat.max (length n0) (length n1)) in
  (0 < seq_step rest <= INF -> Z.abs x < 2 ^ 53 -> Z.abs y < 2 ^ 53 ->
    sequence isAlphaSequence (n0 :: n1 :: rest) = Value (map item (progression x y (seq_step rest))))%Z /\
  (seq_step rest = 0%Z -> double x ->
    sequence isAlphaSequence (n0 :: n1 :: rest) = Hangs (n0 :: n1 :: rest) /\
    forall fuel, seq_values fuel n0 n1 rest = None).
Proof.
  intros x y item. unfold sequence. fold x y item. split.
  - intros Hs Hx Hy. unfold seq_values. fold x y. by rewrite seq_loop_progression.
  - intros Hs [Hx Hx']. assert (forall fuel, seq_values fuel n0 n1 rest = None) as Hn; [|by rewrite Hn].
    intros fuel. unfold seq_values. fold x y. rewrite Hs. pose proof INF_pos.
    replace (if bool_decide (y < x)%Z then (- 0)%Z else 0%Z) with 0%Z by (by case_bool_decide).
    apply seq_loop_stuck; [case_bool_decide; lia|]. unfold add64. rewrite Z.add_0_r.
    repeat case_decide; [lia|done|lia|by rewrite Hx].
Qed.

(** ** Termination

    The number of closing braces goes down with every recursive call, also
    along the detour through [embrace]: an expansion has at most the closing
    braces of its source, and fewer when there is more than one. *)

Lemma number_no_rbrace (z : Z) : rbrace ∉ number_string z.
Proof. pose proof (number_string_chars z) as H. rewrite Forall_forall in H. by intros Hin%H. Qed.

Lemma seq_item_no_rbrace a pad width i :
  (a = true -> i <> 125%Z) -> (a = true -> (0 <= i)%Z) -> rbrace ∉ seq_item a pad width i.
Proof.
  intros Ha Ha'. pose proof (number_no_rbrace i) as Hp. unfold seq_item.
  assert (forall k, rbrace ∉ replicate k 48%N) as Hz
    by (intros k Hin%elem_of_replicate; by destruct Hin).
  destruct a.
  - specialize (Ha eq_refl). specialize (Ha' eq_refl). case_decide; [set_solver|].
    rewrite list_elem_of_singleton. unfold rbrace. intros E. apply Ha. lia.
  - specialize (Hz (width - length (number_string i))). destruct pad; [|done].
    repeat case_decide; [|done|set_solver]. apply not_elem_of_cons. split; [done|].
    apply not_elem_of_app. split; [done|].
    rewrite <- (take_drop 1 (number_string _)) in Hp. by apply not_elem_of_app in Hp as [_ ?].
Qed.

Lemma seq_loop_bounds_up fuel i y incr vs :
  seq_loop fuel (Some i) y incr false = Some vs -> double i -> (0 <= incr <= INF)%Z -> Forall (fun v => i <= v <= y)%Z vs.
Proof.
  revert i vs. induction fuel as [|fuel IH]; intros i vs; [done|]. cbn [seq_loop]. intros Hl Hi Hincr.
  case_bool_decide as Ht; [|injection Hl as <-; constructor].
  apply fmap_Some in Hl as (vs' & Hl & ->). constructor; [lia|].
  destruct (add64 i incr) as [c|] eqn:Ec; [|destruct fuel; by simplify_eq/=; constructor].
  destruct (add64_step i incr c Hi Hincr Ec) as [Hc Hle]. specialize (IH c vs' Hl Hc Hincr).
  eapply Forall_impl; [exact IH|]. simpl. lia.
Qed.

Lemma double_opp z : double z -> double (- z).
Proof. intros [H1 H2]. split; [|lia]. unfold is_double in *. rewrite round64_opp. lia. Qed.

Lemma seq_loop_bounds fuel i y incr reverse vs :
  seq_loop fuel (Some i) y incr reverse = Some vs -> double i -> (Z.abs incr <= INF)%Z -> (if reverse then incr <= 0 else 0 <= incr)%Z ->
  Forall (fun v => if reverse then y <= v <= i else i <= v <= y)%Z vs.
Proof.
  intros Hl Hi Hb Hincr. destruct reverse; [|eapply seq_loop_bounds_up; eauto; lia].
  rewrite seq_loop_reverse in Hl. apply fmap_Some in Hl as (vs' & Hl & ->).
  apply seq_loop_bounds_up in Hl; [|by apply double_opp|lia]. apply Forall_fmap.
  eapply Forall_impl; [exact Hl|]. simpl. lia.
Qed.

Lemma numeric_integer s : is_integer s = true -> double (numeric s).
Proof. intros H. unfold numeric. rewrite H. apply double_round. Qed.

Lemma letter_bounds s : is_one_letter s = true -> (0 <= numeric s <= 122)%Z.
Proof.
  destruct s as [|c [|d s]]; [done| |done]. simpl. unfold is_ascii_letter, in_range.
  rewrite orb_true_iff, !andb_true_iff, !N.leb_le. intros Hc. unfold numeric. assert (is_integer [c] = false) as ->; [|simpl; lia].
  apply not_true_is_false. unfold is_integer. intros [_ Hd]%andb_true_iff. simpl in Hd.
  case_decide as E; [subst; lia|]. simpl in Hd. unfold is_ascii_digit, in_range in Hd.
  rewrite !andb_true_iff, !N.leb_le in Hd. lia.
Qed.

(** The pieces of a sequence are numbers. *)
Lemma sequence_numbers n0 n1 rest : is_numeric_sequence (n0 :: n1 :: rest) || is_alpha_sequence (n0 :: n1 :: rest) = true ->
  double (numeric n0) /\ double (numeric n1) /\ (0 <= seq_step rest <= INF)%Z.
Proof.
  intros H. pose proof INF_pos.
  assert (forall s, is_one_letter s = true -> double (numeric s)) as Hl.
  { intros s Hs%letter_bounds. apply double_small. lia. }
  assert (forall s, is_integer s = true -> (0 <= Z.abs (numeric s) <= INF)%Z) as Hs.
  { intros s [_ Hs]%numeric_integer. lia. }
  unfold seq_step. simpl in H. destruct rest as [|n2 [|n3 rest]]; rewrite ?orb_true_iff, ?andb_true_iff in H; [| |by destruct H];
    destruct_or! H; destruct_and? H; (split; [by auto using numeric_integer|split; [by auto using numeric_integer|]]);
    first [by apply Hs|lia].
Qed.

(** The sequences over which the loop never ends *)
Definition endless (n : list jsstr) : Prop :=
  is_numeric_sequence n || is_alpha_sequence n = true /\
  exists n0 n1 rest, n = n0 :: n1 :: rest /\ (forall fuel, seq_values fuel n0 n1 rest = None) /\
    (seq_step rest = 0 \/ 2 ^ 53 <= Z.abs (numeric n0) \/ 2 ^ 53 <= Z.abs (numeric n1))%Z.

Lemma sequence_endless n m :
  is_numeric_sequence n || is_alpha_sequence n = true -> sequence (is_alpha_sequence n) n = Hangs m -> m = n /\ endless n.
Proof.
  intros Hseq. destruct n as [|n0 [|n1 rest]]; [done|done|]. unfold sequence.
  destruct (seq_values _ n0 n1 rest) eqn:El; [done|]. intros [= <-]. split; [done|]. split; [done|].
  exists n0, n1, rest. split; [done|]. destruct (sequence_numbers n0 n1 rest Hseq) as (Hx & Hy & Hs).
  unfold seq_values in *. set (x := numeric n0) in *. set (y := numeric n1) in *.
  destruct (decide (y < x)%Z) as [Hlt|Hge].
  - rewrite bool_decide_true in * by done. rewrite seq_loop_reverse, Z.opp_involutive in El. apply fmap_None in El.
    cbn [fmap option_fmap option_map] in El.
    apply seq_loop_stands in El as [Hall (v & Hv & Ev)]; [|by apply double_opp|done|lia|lia].
    split; [intros fuel; rewrite seq_loop_reverse, Z.opp_involutive; cbn [fmap option_fmap option_map]; by rewrite Hall|].
    apply stands_still in Ev; [|done]. lia.
  - rewrite bool_decide_false in * by done.
    apply seq_loop_stands in El as [Hall (v & Hv & Ev)]; [|done|done|lia|lia].
    split; [done|]. apply stands_still in Ev; [|done]. lia.
Qed.

Lemma sequence_no_rbrace pieces vs :
  is_numeric_sequence pieces || is_alpha_sequence pieces = true ->
  sequence (is_alpha_sequence pieces) pieces = Value vs -> Forall (fun v => rbrace ∉ v) vs.
Proof.
  intros Hseq. destruct pieces as [|n0 [|n1 rest]]; [done|done|]. unfold sequence.
  destruct (seq_values _ n0 n1 rest) as [is_|] eqn:El; [|done]. intros [= <-].
  destruct (sequence_numbers n0 n1 rest Hseq) as (Hx & Hy & Hs).
  apply Forall_fmap. apply seq_loop_bounds in El; [|done|case_bool_decide; lia|case_bool_decide; lia].
  eapply Forall_impl; [exact El|]. intros v Hv. cbn beta in Hv.
  assert (is_alpha_sequence (n0 :: n1 :: rest) = true ->
    (0 <= numeric n0 <= 122)%Z /\ (0 <= numeric n1 <= 122)%Z) as Hb.
  { simpl. destruct rest as [|n2 [|? ?]]; rewrite ?andb_true_iff; [| |done];
      intros Ha; destruct_and? Ha; auto using letter_bounds. }
  apply seq_item_no_rbrace; intros Ha; destruct (Hb Ha); destruct (bool_decide _); lia.
Qed.

Lemma closers_absent s : rbrace ∉ s -> closers s = 0.
Proof.
  intros H. unfold closers. induction s as [|c s IH]; [done|].
  rewrite filter_cons_False by set_solver. apply IH. set_solver.
Qed.

Lemma combine_elem e pre N post :
  e ∈ combine pre N post <-> exists n p, n ∈ N /\ p ∈ post /\ e = pre ++ n ++ p.
Proof.
  unfold combine. rewrite list_elem_of_In, in_concat. split.
  - intros (l & Hl & He). apply in_map_iff in Hl as (n & <- & Hn).
    apply in_map_iff in He as (p & <- & Hp). rewrite <- list_elem_of_In in Hn, Hp. eauto.
  - intros (n & p & Hn & Hp & ->). rewrite list_elem_of_In in Hn, Hp.
    exists (map (fun p => pre ++ n ++ p) post). split; apply in_map_iff; eauto.
Qed.

Lemma omapM_inv {A B} (f : A -> outcome B) xs ys :
  omapM f xs = Value ys -> Forall2 (fun x y => f x = Value y) xs ys.
Proof.
  revert ys. induction xs as [|x xs IH]; intros ys; simpl; [by intros [= <-]; constructor|].
  destruct (f x) eqn:E; [|done|done]. simpl. destruct (omapM f xs); [|done|done].
  simpl. intros [= <-]. constructor; [done|by apply IH].
Qed.

(** What [expand] may end with: a value, or a sequence that has no end. *)
Definition ends {A} (o : outcome A) : Prop :=
  match o with Value _ => True | Hangs n => endless n | OutOfFuel => False end.

Lemma ends_bind {A B} (m : outcome A) (f : A -> outcome B) : ends m -> (forall a, m = Value a -> ends (f a)) -> ends (obind m f).
Proof. destruct m; cbn; auto. Qed.

Lemma ends_omapM {A B} (f : A -> outcome B) xs : Forall (fun x => ends (f x)) xs -> ends (omapM f xs).
Proof.
  induction 1 as [|x xs Hx _ IH]; [done|]. cbn [omapM]. apply ends_bind; [done|]. intros y _. by apply ends_bind.
Qed.

Lemma ends_sequence n : is_numeric_sequence n || is_alpha_sequence n = true -> ends (sequence (is_alpha_sequence n) n).
Proof.
  intros Hn. destruct (sequence (is_alpha_sequence n) n) as [|m|] eqn:E; [done| |].
  - by apply sequence_endless in E as [-> ?].
  - unfold sequence in E. by repeat case_match.
Qed.

Definition sizes (s : jsstr) (es : list jsstr) : Prop :=
  Forall (fun e => closers e <= closers s) es /\
  (length es <> 1 -> Forall (fun e => closers e < closers s) es).

Lemma sizes_strict s es : Forall (fun e => closers e < closers s) es -> sizes s es.
Proof. intros H. split; [|done]. eapply Forall_impl; [exact H|]. simpl. lia. Qed.

Lemma sizes_self s : sizes s [s].
Proof. split; [by repeat constructor|done]. Qed.

Section Sizes.
Variable rClose : jsstr.
Hypothesis rClose_ok : rbrace ∉ rClose.

Lemma closers_escClose : closers (escClose rClose) = 0.
Proof. apply closers_absent. unfold escClose, marker. simpl. unfold rbrace in *. set_solver. Qed.

(** A closing brace that is escaped no longer counts. *)
Lemma closers_late p b q :
  S (closers (p ++ lbrace :: b ++ escClose rClose ++ q)) = closers (p ++ in_braces b ++ q).
Proof.
  rewrite !closers_app, closers_in_braces.
  change (closers (lbrace :: ?s)) with (closers s). rewrite !closers_app, closers_escClose. lia.
Qed.

Lemma combine_sizes str m N ps (P : jsstr -> Prop) `{forall e, Decision (P e)} :
  str = pre m ++ in_braces (body m) ++ post m ->
  Forall (fun e => closers e <= closers (body m)) N -> sizes (post m) ps ->
  sizes str (filter P (combine (pre m) N ps)).
Proof.
  intros E HN [Hps _]. apply sizes_strict. rewrite Forall_forall in *. intros e [_ He]%list_elem_of_filter.
  apply combine_elem in He as (n & p & Hn & Hp & ->). apply HN in Hn. apply Hps in Hp.
  rewrite E, !closers_app, closers_in_braces. lia.
Qed.

Lemma options_sizes fuel s ns es :
  (forall str top es, expand rClose fuel str top = Value es -> sizes str es) ->
  omapM (fun el => expand rClose fuel el false) ns = Value es ->
  Forall (fun n => closers n <= closers s) ns ->
  Forall (fun e => closers e <= closers s) (concatMap es id).
Proof.
  intros IH Hm%omapM_inv Hns. rewrite concatMap_concat, map_id. apply Forall_concat.
  induction Hm as [|n e ns es Hn Hm IHm]; [constructor|].
  apply Forall_cons in Hns as [H1 H2]. constructor; [|by apply IHm].
  apply IH in Hn as [Hn _]. eapply Forall_impl; [exact Hn|]. simpl. lia.
Qed.

Lemma parse_sizes s : Forall (fun n => closers n <= closers s) (parseCommaParts s).
Proof.
  apply Forall_forall. intros n Hn. rewrite <- (parseCommaParts_join (S (length s)) s).
  by apply closers_join.
Qed.

(** What [map embrace] does to the expansions of the only part of a body. *)
Lemma embrace_sizes s es : sizes s es -> length es <> 1 ->
  Forall (fun n => closers n <= closers s) (map embrace es).
Proof.
  intros [_ H] Hl. apply Forall_fmap. eapply Forall_impl; [exact (H Hl)|].
  intros e He. simpl in *. unfold embrace. rewrite closers_in_braces. lia.
Qed.

Lemma expand_sizes fuel str top es : expand rClose fuel str top = Value es -> sizes str es.
Proof.
  revert str top es. induction fuel as [|fuel IH]; intros str top es; [done|]. cbn [expand].
  destruct (find_braces str) as [m|] eqn:Em; [|intros [= <-]; apply sizes_self].
  apply find_braces_split in Em.
  set (Epost := if decide (post m = []) then _ else _).
  assert (forall ps, Epost = Value ps -> sizes (post m) ps) as Hpost.
  { unfold Epost. intros ps. case_decide as E; [|apply IH]. intros [= <-]. rewrite E. apply sizes_self. }
  set (seqb := is_numeric_sequence _ || _).
  case_decide; [intros [= <-]; apply sizes_self|].
  destruct (negb seqb && _).
  { destruct (comma_then_close (post m)); [|intros [= <-]; apply sizes_self].
    intros [Hes _]%IH. apply sizes_strict. eapply Forall_impl; [exact Hes|]. intros e He.
    rewrite Em, <- closers_late. cbn beta in He. lia. }
  destruct seqb eqn:Eseq.
  { destruct Epost as [ps| |]; [|done|done]. cbn [obind].
    destruct (sequence _ _) as [N| |] eqn:EN; [|done|done]. cbn [obind]. intros [= <-].
    apply combine_sizes; [done| |by apply Hpost].
    eapply Forall_impl; [by eapply sequence_no_rbrace|]. intros v Hv. simpl in Hv.
    rewrite closers_absent by done. lia. }
  assert (forall ns es, Forall (fun n => closers n <= closers (body m)) ns ->
    (post <~ Epost ;; N <~ (es <~ omapM (fun el => expand rClose fuel el false) ns ;;
        Value (concatMap es id)) ;;
      Value (filter (fun e => top = false \/ false = true \/ e <> []) (combine (pre m) N post)))
    = Value es -> sizes str es) as Hopts.
  { intros ns es' Hns. destruct Epost as [ps| |]; [|done|done]. cbn [obind].
    destruct (omapM _ ns) as [ess| |] eqn:Em'; [|done|done]. cbn [obind]. intros [= <-].
    apply combine_sizes; [done| |by apply Hpost]. by eapply options_sizes. }
  pose proof (parse_sizes (body m)) as Hparse.
  destruct (parseCommaParts (body m)) as [|n0 [|n1 ns]]; [by apply Hopts| |by apply Hopts].
  apply Forall_cons in Hparse as [Hparse _].
  destruct (expand rClose fuel n0 false) as [es0| |] eqn:E0; [|done|done]. cbn [obind].
  apply IH in E0. destruct es0 as [|e0 [|e1 es0]]; cbn [map].
  - by apply Hopts.
  - destruct Epost as [ps| |]; [|done|done]. cbn [obind]. intros [= <-].
    destruct E0 as [E0 _]. apply Forall_cons in E0 as [E0 _]. destruct (Hpost ps eq_refl) as [H1 H2].
    assert (forall p, closers (pre m ++ embrace e0 ++ p) + closers (post m) <=
      closers str + closers p) as Hc.
    { intros p. cbn beta in *. rewrite Em. unfold embrace. rewrite !closers_app, !closers_in_braces. lia. }
    split; [|rewrite length_map; intros Hl; specialize (H2 Hl); clear H1];
      rewrite Forall_forall in *; intros e [p [-> Hp]]%list_elem_of_fmap; specialize (Hc p);
      change (lbrace :: (e0 ++ [rbrace]) ++ p) with (embrace e0 ++ p).
    + specialize (H1 p Hp). lia.
    + specialize (H2 p Hp). lia.
  - apply Hopts. apply (embrace_sizes n0 (e0 :: e1 :: es0)) in E0; [|done].
    eapply Forall_impl; [exact E0|]. simpl. lia.
Qed.

Lemma expand_ends fuel str top : closers str < fuel -> ends (expand rClose fuel str top).
Proof.
  revert str top. induction fuel as [|fuel IH]; intros str top Hf; [lia|]. cbn [expand].
  destruct (find_braces str) as [m|] eqn:Em; [|done]. apply find_braces_split in Em.
  assert (closers (body m) + closers (post m) < fuel) as Hf'.
  { rewrite Em, !closers_app, closers_in_braces in Hf. lia. }
  set (Epost := if decide (post m = []) then _ else _).
  assert (ends Epost) as Hpost by (unfold Epost; case_decide; [done|apply IH; lia]).
  set (seqb := is_numeric_sequence _ || _).
  case_decide; [done|]. destruct (negb seqb && _).
  { destruct (comma_then_close (post m)); [|done]. apply IH.
    rewrite Em, <- closers_late in Hf. lia. }
  destruct seqb eqn:Eseq.
  { apply ends_bind; [done|]. intros ps _. apply ends_bind; [|done]. by apply ends_sequence. }
  assert (forall ns, Forall (fun n => closers n <= closers (body m)) ns ->
    ends (post <~ Epost ;; N <~ (es <~ omapM (fun el => expand rClose fuel el false) ns ;;
        Value (concatMap es id)) ;;
      Value (filter (fun e => top = false \/ false = true \/ e <> []) (combine (pre m) N post)))) as Hopts.
  { intros ns Hns. apply ends_bind; [done|]. intros ps _. apply ends_bind; [|done]. apply ends_bind; [|done]. apply ends_omapM.
    eapply Forall_impl; [exact Hns|]. intros n Hn. apply IH. cbn beta in Hn. lia. }
  pose proof (parse_sizes (body m)) as Hparse.
  destruct (parseCommaParts (body m)) as [|n0 [|n1 ns]]; [by apply Hopts| |by apply Hopts].
  apply Forall_cons in Hparse as [Hparse _]. apply ends_bind; [apply IH; lia|]. intros es0 E0.
  apply expand_sizes in E0. destruct es0 as [|e0 [|e1 es0]]; cbn [map].
  - by apply Hopts.
  - by apply ends_bind.
  - apply Hopts. apply (embrace_sizes n0 (e0 :: e1 :: es0)) in E0; [|done].
    eapply Forall_impl; [exact E0|]. intros e He. cbn beta in He. lia.
Qed.

(** C33. Brace expansion ends on every string, with a recursion depth of at most
    the number of closing braces, but for sequences of numbers that have no end:
    [expandTop] returns a list of expansions, or it loops in a sequence
    [{x..y..step}] of integers or letters whose loop goes on with any number of
    steps, and whose step is zero or one of whose bounds is at least [2^53] in
    size, where adding the step to a double may leave it as it is.
    ([Math.random()] prints digits and a dot, in particular no brace.) *)
Theorem expandTop_terminates (rSlash rOpen rComma rPeriod str : jsstr) :
  (exists es, expandTop rSlash rOpen rClose rComma rPeriod str = Value es) \/
  (exists n, expandTop rSlash rOpen rClose rComma rPeriod str = Hangs n /\ endless n).
Proof.
  unfold expandTop. case_decide; [by eauto|].
  set (s := escapeBraces _ _ _ _ _ _).
  assert (ends (expand rClose (expand_fuel s) s true)) as Hf
    by (apply expand_ends; unfold expand_fuel; lia).
  destruct (expand _ _ _ _) as [es|n|]; simpl; [by eauto|by eauto|done].
Qed.
End Sizes.

(** [parseCommaParts] splits at commas: on every string the pieces joined
    by commas give the string back, and on a string with well-nested braces
    the commas it splits at are exactly those outside all braces. *)
Theorem parseCommaParts_splits (str : jsstr) :
  join [comma] (parseCommaParts str) = str /\
  (well_nested str -> parseCommaParts str = top_split 0 str).
Proof.
  unfold parseCommaParts. split; [apply parseCommaParts_join|].
  intros H. apply parseCommaParts_top; [done|lia].
Qed.

(** [balanced] on braces always ends, and its result cuts the string at an
    opening and a later closing brace; when the first opening brace has a
    partner, it finds exactly that pair. *)
Theorem balanced_finds_pair (str : jsstr) :
  balanced_range [lbrace] [rbrace] str <> None /\
  match find_braces str with
  | Some m =>
      str = pre m ++ in_braces (body m) ++ post m /\
      forall p b q, str = p ++ in_braces b ++ q -> lbrace ∉ p -> well_nested b ->
        (pre m, body m, post m) = (p, b, q)
  | None => forall p b q, str = p ++ in_braces b ++ q -> lbrace ∉ p -> ~ well_nested b
  end.
Proof.
  split.
  - destruct (decide (lbrace ∈ str)) as [Hin|Hni]; [|by rewrite balanced_range_no_pair by (by left)].
    apply first_lbrace in Hin as (p & s & -> & Hp).
    destruct (decide (rbrace ∈ s)); [by rewrite balanced_range_scan|].
    rewrite balanced_range_no_pair by (right; eauto). done.
  - destruct (find_braces str) as [m|] eqn:Em.
    + split; [by apply find_braces_split|]. intros p b q -> Hp Hb.
      rewrite find_braces_first in Em by done. by injection Em as <-.
    + intros p b q -> Hp Hb. by rewrite find_braces_first in Em.
Qed.

Lemma expandTop_terminates_witness :
  (exists es, expandTop «"1"» «"1"» «"0.5"» «"1"» «"1"» «"a{b,c}{9..1..4}"» = Value es) \/
  (exists n, expandTop «"1"» «"1"» «"0.5"» «"1"» «"1"» «"a{b,c}{9..1..4}"» = Hangs n /\ endless n).
Proof.
  apply (expandTop_terminates «"0.5"»). apply (bool_decide_unpack _). vm_compute. exact I.
Defined.

(** Beyond [2^53] adding one changes nothing. *)
Example add_stands_still : add64 (numeric «"9007199254740992"») 1 = Some (numeric «"9007199254740993"»).
Proof. by vm_compute. Qed.

(** [a{b,c{d,}}] *)
Definition sample_word : word :=
  WChar 97 (WGroup (OTwo (WChar 98 WNil) (WChar 99 (WGroup (OTwo (WChar 100 WNil) WNil) WNil))) WNil).

Lemma expandTop_denotes_witness :
  expandTop «"1"» «"2"» «"3"» «"4"» «"5"» «"a{b,c{d,}}"» = Value [«"ab"»; «"acd"»; «"ac"»].
Proof. apply (expandTop_denotes «"1"» «"2"» «"3"» «"4"» «"5"» sample_word). reflexivity. Defined.
