(* ===== verification/Regex.v ===== *)
(** * Regular expressions of the language

    minimatch builds regular expressions as strings and hands them to
    [RegExp].  This file is the part of the language that this needs: the
    syntax of ECMAScript 5 patterns with the web extensions (Annex B), which
    decides what [new RegExp] accepts, and whether an expression matches.
    Only the existence of a match is observed by the code, so captures and the
    order of alternatives are left out, and greedy and lazy repetitions are
    the same. *)

From S2P Require Import Prelude.

(** ** Syntax *)

Inductive char_class := Digit | Word | Space.

Inductive set_item :=
| One (c : N)
| Between (a b : N)
| Class (neg : bool) (k : char_class).

Inductive regex :=
| Nothing                                   (** the empty expression *)
| Chr (c : N)
| AnyChar                                   (** [.] *)
| OneOf (neg : bool) (items : list set_item)
| Seq (r1 r2 : regex)
| Alt (r1 r2 : regex)
| Rep (r : regex) (lo : nat) (hi : option nat)
| Look (neg : bool) (r : regex)             (** [(?=r)] and [(?!r)] *)
| Bol | Eol
| WordEdge (neg : bool).

#[export] Instance char_class_eq_dec : EqDecision char_class.
Proof. solve_decision. Defined.
#[export] Instance set_item_eq_dec : EqDecision set_item.
Proof. solve_decision. Defined.
#[export] Instance regex_eq_dec : EqDecision regex.
Proof. solve_decision. Defined.

(** ** Characters *)

Definition is_line_end (c : N) : bool := bool_decide (c ∈ [10; 13; 0x2028; 0x2029]%N).

(** White space of [\s] and of [trim]. *)
Definition is_js_space (c : N) : bool :=
  in_range 9 13 c || in_range 0x2000 0x200A c ||
  bool_decide (c ∈ [32; 0xA0; 0x1680; 0x2028; 0x2029; 0x202F; 0x205F; 0x3000; 0xFEFF]%N).

Definition is_word_unit (c : N) : bool :=
  in_range 97 122 c || in_range 65 90 c || in_range 48 57 c || (c =? 95)%N.

Definition in_class (k : char_class) (c : N) : bool :=
  match k with
  | Digit => in_range 48 57 c
  | Word => is_word_unit c
  | Space => is_js_space c
  end.

(** ** Reading a pattern *)

Definition hex_value (c : N) : option N :=
  if in_range 48 57 c then Some (c - 48)%N
  else if in_range 97 102 c then Some (c - 87)%N
  else if in_range 65 70 c then Some (c - 55)%N
  else None.

Fixpoint hex_values (n : nat) (s : jsstr) (acc : N) : option (N * jsstr) :=
  match n with
  | O => Some (acc, s)
  | S n => match s with
           | c :: s' => d ← hex_value c; hex_values n s' (16 * acc + d)%N
           | [] => None
           end
  end.

(** What follows a backslash: a class or a single character. *)
Definition read_escape (s : jsstr) : option (set_item * jsstr) :=
  match s with
  | [] => None
  | c :: s' =>
      let one (d : N) := Some (One d, s') in
      if decide (c = 100%N) then Some (Class false Digit, s')
      else if decide (c = 68%N) then Some (Class true Digit, s')
      else if decide (c = 119%N) then Some (Class false Word, s')
      else if decide (c = 87%N) then Some (Class true Word, s')
      else if decide (c = 115%N) then Some (Class false Space, s')
      else if decide (c = 83%N) then Some (Class true Space, s')
      else if decide (c = 102%N) then one 12%N
      else if decide (c = 110%N) then one 10%N
      else if decide (c = 114%N) then one 13%N
      else if decide (c = 116%N) then one 9%N
      else if decide (c = 118%N) then one 11%N
      else if decide (c = 99%N) then
        match s' with
        | l :: s2 => if in_range 97 122 l || in_range 65 90 l
                     then Some (One (l mod 32)%N, s2) else Some (One 92%N, s)
        | [] => Some (One 92%N, s)
        end
      else if decide (c = 120%N) then
        match hex_values 2 s' 0 with Some (v, s2) => Some (One v, s2) | None => one c end
      else if decide (c = 117%N) then
        match hex_values 4 s' 0 with Some (v, s2) => Some (One v, s2) | None => one c end
      else if in_range 48 55 c then
        match s' with
        | d :: s2 =>
            if in_range 48 55 d then
              match s2 with
              | e :: s3 =>
                  if in_range 48 51 c && in_range 48 55 e
                  then Some (One (64 * (c - 48) + 8 * (d - 48) + (e - 48))%N, s3)
                  else Some (One (8 * (c - 48) + (d - 48))%N, s2)
              | [] => Some (One (8 * (c - 48) + (d - 48))%N, s2)
              end
            else one (c - 48)%N
        | [] => one (c - 48)%N
        end
      else one c
  end.

(** An element of a bracketed set; [b] is the backspace there. *)
Definition read_set_atom (s : jsstr) : option (set_item * jsstr) :=
  match s with
  | [] => None
  | c :: s' =>
      if decide (c = 92%N) then
        match s' with
        | d :: s2 => if decide (d = 98%N) then Some (One 8%N, s2) else read_escape s'
        | [] => None
        end
      else Some (One c, s')
  end.

(** The items up to the closing bracket, and what follows it. *)
Fixpoint read_set (fuel : nat) (s : jsstr) (acc : list set_item) : option (list set_item * jsstr) :=
  match fuel with
  | O => None
  | S fuel =>
      match s with
      | [] => None
      | c :: s' =>
          if decide (c = 93%N) then Some (acc, s')
          else
            '(a, s1) ← read_set_atom s;
            match s1 with
            | d :: e :: s2 =>
                if decide (d = 45%N /\ e <> 93%N) then
                  '(b, s3) ← read_set_atom (e :: s2);
                  match a, b with
                  | One x, One y => if decide (x <= y)%N then read_set fuel s3 (acc ++ [Between x y]) else None
                  | _, _ => read_set fuel s3 (acc ++ [a; One 45%N; b])
                  end
                else read_set fuel s1 (acc ++ [a])
            | _ => read_set fuel s1 (acc ++ [a])
            end
      end
  end.

Fixpoint read_number (s : jsstr) (acc : option nat) : option nat * jsstr :=
  match s with
  | c :: s' =>
      if in_range 48 57 c
      then read_number s' (Some (10 * default 0 acc + N.to_nat (c - 48)))
      else (acc, s)
  | [] => (acc, s)
  end.

(** [{n}], [{n,}] and [{n,m}], after the opening brace. *)
Definition read_braces (s : jsstr) : option (nat * option nat * jsstr) :=
  match read_number s None with
  | (Some lo, 125%N :: s1) => Some (lo, Some lo, s1)
  | (Some lo, 44%N :: s1) =>
      match read_number s1 None with
      | (hi, 125%N :: s2) => Some (lo, hi, s2)
      | _ => None
      end
  | _ => None
  end.

(** A quantifier and its laziness mark, if there is one; the outer option is a
    syntax error. *)
Definition read_quantifier (r : regex) (s : jsstr) : option (regex * jsstr) :=
  let lazy_mark (t : jsstr) := match t with 63%N :: t' => t' | _ => t end in
  match s with
  | 42%N :: s' => Some (Rep r 0 None, lazy_mark s')
  | 43%N :: s' => Some (Rep r 1 None, lazy_mark s')
  | 63%N :: s' => Some (Rep r 0 (Some 1), lazy_mark s')
  | 123%N :: s' =>
      match read_braces s' with
      | Some (lo, hi, s2) =>
          if (match hi with Some h => bool_decide (lo <= h) | None => true end)
          then Some (Rep r lo hi, lazy_mark s2) else None
      | None => Some (r, s)
      end
  | _ => Some (r, s)
  end.

(** Alternatives, terms in sequence, and one term: each turn consumes fuel. *)
Fixpoint read_alts (fuel : nat) (s : jsstr) : option (regex * jsstr) :=
  match fuel with
  | O => None
  | S fuel =>
      '(r, s1) ← read_terms fuel s;
      match s1 with
      | 124%N :: s2 => '(r2, s3) ← read_alts fuel s2; Some (Alt r r2, s3)
      | _ => Some (r, s1)
      end
  end
with read_terms (fuel : nat) (s : jsstr) : option (regex * jsstr) :=
  match fuel with
  | O => None
  | S fuel =>
      match s with
      | [] => Some (Nothing, [])
      | 124%N :: _ | 41%N :: _ => Some (Nothing, s)
      | _ =>
          '(r, s1) ← read_term fuel s;
          '(r2, s2) ← read_terms fuel s1;
          Some (Seq r r2, s2)
      end
  end
with read_term (fuel : nat) (s : jsstr) : option (regex * jsstr) :=
  match fuel with
  | O => None
  | S fuel =>
      let group (s : jsstr) (wrap : regex -> regex) :=
        '(r, s1) ← read_alts fuel s;
        match s1 with
        | 41%N :: s2 => read_quantifier (wrap r) s2
        | _ => None
        end in
      match s with
      | [] => None
      | 94%N :: s' => Some (Bol, s')
      | 36%N :: s' => Some (Eol, s')
      | 40%N :: 63%N :: 58%N :: s' => group s' id
      | 40%N :: 63%N :: 61%N :: s' => group s' (Look false)
      | 40%N :: 63%N :: 33%N :: s' => group s' (Look true)
      | 40%N :: s' => group s' id
      | 46%N :: s' => read_quantifier AnyChar s'
      | 42%N :: _ | 43%N :: _ | 63%N :: _ => None
      | 123%N :: s' => match read_braces s' with
                       | Some _ => None
                       | None => read_quantifier (Chr 123) s'
                       end
      | 91%N :: 94%N :: s' => '(items, s1) ← read_set (S (length s')) s' []; read_quantifier (OneOf true items) s1
      | 91%N :: s' => '(items, s1) ← read_set (S (length s')) s' []; read_quantifier (OneOf false items) s1
      | 92%N :: 98%N :: s' => Some (WordEdge false, s')
      | 92%N :: 66%N :: s' => Some (WordEdge true, s')
      | 92%N :: s' =>
          '(i, s1) ← read_escape s';
          read_quantifier (match i with One c => Chr c | _ => OneOf false [i] end) s1
      | c :: s' => read_quantifier (Chr c) s'
      end
  end.

(** [new RegExp(s)]: [None] is a syntax error.  Between two characters read
    there are at most three turns. *)
Definition RegExp (s : jsstr) : option regex :=
  match read_alts (3 * S (length s)) s with
  | Some (r, []) => Some r
  | _ => None
  end.

(** ** Matching

    [canonicalize] is the case folding of the [i] flag, the identity without
    it. *)
Section Matching.
Variable canonicalize : N -> N.

Definition same_char (c d : N) : bool := (canonicalize c =? canonicalize d)%N.

Definition item_has (c : N) (i : set_item) : bool :=
  match i with
  | One d => same_char c d
  | Between a b =>
      in_range a b c ||
      existsb (fun k => same_char c (a + N.of_nat k)%N) (seq 0 (N.to_nat (b - a + 1)))
  | Class neg k => xorb neg (in_class k c)
  end.

Definition word_at (s : jsstr) (i : nat) : bool :=
  match s !! i with Some c => is_word_unit c | None => false end.

(** Where one more repetition can lead, without standing still. *)
Fixpoint repeat_from (f : nat -> list nat) (fuel : nat) (i : nat) : list nat :=
  match fuel with
  | O => [i]
  | S fuel => i :: concat (map (fun j => if decide (i < j) then repeat_from f fuel j else []) (f i))
  end.

Fixpoint iterate (f : nat -> list nat) (n : nat) (i : nat) : list nat :=
  match n with
  | O => [i]
  | S n => concat (map (iterate f n) (f i))
  end.

(** The ends of the matches of [r] in [s] that start at [i]. *)
Fixpoint ends (r : regex) (s : jsstr) (i : nat) : list nat :=
  match r with
  | Nothing => [i]
  | Chr c => match s !! i with Some d => if same_char c d then [S i] else [] | None => [] end
  | AnyChar => match s !! i with Some d => if is_line_end d then [] else [S i] | None => [] end
  | OneOf neg items =>
      match s !! i with
      | Some d => if xorb neg (existsb (item_has d) items) then [S i] else []
      | None => []
      end
  | Seq r1 r2 => concat (map (ends r2 s) (ends r1 s i))
  | Alt r1 r2 => ends r1 s i ++ ends r2 s i
  | Rep r lo hi =>
      concat (map (repeat_from (ends r s) (match hi with Some h => h - lo | None => length s end))
                (iterate (ends r s) lo i))
  | Look neg r => if xorb neg (bool_decide (ends r s i <> [])) then [i] else []
  | Bol => if decide (i = 0) then [i] else []
  | Eol => if decide (i = length s) then [i] else []
  | WordEdge neg =>
      if xorb neg (xorb (match i with O => false | S j => word_at s j end) (word_at s i)) then [i] else []
  end.

(** [s.match(r)] is truthy. *)
Definition regex_test (r : regex) (s : jsstr) : bool :=
  existsb (fun i => bool_decide (ends r s i <> [])) (seq 0 (S (length s))).
End Matching.
