(* ===== verification/Minimatch.v ===== *)
(** * minimatch

    Module 20 of wordcut.js: glob patterns are expanded at braces, split at
    slashes and translated, part by part, into regular expressions, which are
    then matched against the parts of a path.  The state of the translation
    loop of [parse] is a record; regular expressions are built as strings, as
    the code does, and compiled by [Regex.RegExp]. *)

From S2P Require Import Prelude BraceExpansion Regex.

(** ** Options

    The options that the code reads; [debug] only prints. *)
Record options := Options {
  nocomment : bool; nonegate : bool; nobrace : bool; noglobstar : bool; noext : bool;
  nocase : bool; dot : bool; matchBase : bool; flipNegate : bool; nonull : bool
}.

Definition no_options : options :=
  Options false false false false false false false false false false.

(** [ext(a, b)]: the keys of [b], then those of [a] over them. *)
Definition ext {V} (a b : gmap string V) : gmap string V := a ∪ b.

(** ** Strings of the translation *)

Definition qmark : jsstr := «"[^/]"».
Definition star : jsstr := qmark ++ «"*?"».
Definition twoStarDot : jsstr := «"(?:(?!(?:\/|^)(?:\.{1,2})($|\/)).)*?"».
Definition twoStarNoDot : jsstr := «"(?:(?!(?:\/|^)\.).)*?"».

Definition reSpecials (c : N) : bool := bool_decide (c ∈ «"().*{}+?[]^$\!"»).

Definition bslash : N := 92%N.

(** [plTypes], by the character that starts the list. *)
Definition pl_open (t : N) : jsstr := if decide (t = 33%N) then «"(?:(?!(?:"» else «"(?:"».
Definition pl_close (t : N) : jsstr :=
  if decide (t = 33%N) then «"))[^/]*?)"»
  else if decide (t = 63%N) then «")?"»
  else if decide (t = 43%N) then «")+"»
  else if decide (t = 42%N) then «")*"»
  else «")"».

Record plist := PList { pl_type : N; pl_reStart : nat; pl_reEnd : nat }.

(** The local variables of [parse]. *)
Record pstate := PState {
  re : jsstr;
  hasMagic : bool;
  escaping : bool;
  patternListStack : list plist;   (** the top first *)
  negativeLists : list plist;      (** the last pushed first *)
  stateChar : option N;
  inClass : bool;
  reClassStart : nat;
  classStart : Z
}.

Definition add_re (s : jsstr) (st : pstate) : pstate :=
  PState (re st ++ s) (hasMagic st) (escaping st) (patternListStack st) (negativeLists st)
    (stateChar st) (inClass st) (reClassStart st) (classStart st).
Definition set_re (s : jsstr) (st : pstate) : pstate :=
  PState s (hasMagic st) (escaping st) (patternListStack st) (negativeLists st)
    (stateChar st) (inClass st) (reClassStart st) (classStart st).
Definition set_magic (b : bool) (st : pstate) : pstate :=
  PState (re st) b (escaping st) (patternListStack st) (negativeLists st)
    (stateChar st) (inClass st) (reClassStart st) (classStart st).
Definition set_escaping (b : bool) (st : pstate) : pstate :=
  PState (re st) (hasMagic st) b (patternListStack st) (negativeLists st)
    (stateChar st) (inClass st) (reClassStart st) (classStart st).
Definition set_stateChar (c : option N) (st : pstate) : pstate :=
  PState (re st) (hasMagic st) (escaping st) (patternListStack st) (negativeLists st)
    c (inClass st) (reClassStart st) (classStart st).
Definition set_inClass (b : bool) (st : pstate) : pstate :=
  PState (re st) (hasMagic st) (escaping st) (patternListStack st) (negativeLists st)
    (stateChar st) b (reClassStart st) (classStart st).
Definition open_class (i : nat) (st : pstate) : pstate :=
  PState (re st) (hasMagic st) (escaping st) (patternListStack st) (negativeLists st)
    (stateChar st) true (length (re st)) (Z.of_nat i).
Definition set_lists (stack negs : list plist) (st : pstate) : pstate :=
  PState (re st) (hasMagic st) (escaping st) stack negs
    (stateChar st) (inClass st) (reClassStart st) (classStart st).

Definition clearStateChar (st : pstate) : pstate :=
  match stateChar st with
  | None => st
  | Some c =>
      set_stateChar None
        (if decide (c = 42%N) then set_magic true (add_re star st)
         else if decide (c = 63%N) then set_magic true (add_re qmark st)
         else add_re [bslash; c] st)
  end.

(** What a recursive call returns to [sp[0]] and [sp[1]]; on a result that is
    not an array both are [undefined], which prints as such. *)
Definition undefined_sub : jsstr * bool := («"undefined"», false).

Section Parse.
Variable opts : options.

(** One turn of the loop on the character [c] at [i]; [None] when the pattern
    contains a slash.  [sub] is the recursive call on a piece of a pattern. *)
Definition parse_char (sub : jsstr -> jsstr * bool) (pattern : jsstr) (i : nat) (c : N)
    (st : pstate) : option pstate :=
  if escaping st && reSpecials c then Some (set_escaping false (add_re [bslash; c] st))
  else if decide (c = 47%N) then None
  else if decide (c = bslash) then Some (set_escaping true (clearStateChar st))
  else if decide (c ∈ «"?*+@!"») then
    if inClass st then
      Some (add_re [if decide (c = 33%N /\ Z.of_nat i = classStart st + 1)%Z then 94%N else c] st)
    else
      let st := set_stateChar (Some c) (clearStateChar st) in
      Some (if noext opts then clearStateChar st else st)
  else if decide (c = 40%N) then
    if inClass st then Some (add_re «"("» st)
    else match stateChar st with
         | None => Some (add_re «"\("» st)
         | Some t =>
             let st := set_lists (PList t (length (re st)) 0 :: patternListStack st)
                         (negativeLists st) st in
             Some (set_stateChar None
                     (add_re (if decide (t = 33%N) then «"(?:(?!(?:"» else «"(?:"») st))
         end
  else if decide (c = 41%N) then
    match inClass st, patternListStack st with
    | false, pl :: stack =>
        let st := set_magic true (clearStateChar st) in
        let st := add_re (pl_close (pl_type pl)) st in
        let pl := PList (pl_type pl) (pl_reStart pl) (length (re st)) in
        Some (set_lists stack
                (if decide (pl_type pl = 33%N) then pl :: negativeLists st else negativeLists st) st)
    | _, _ => Some (add_re «"\)"» st)
    end
  else if decide (c = 124%N) then
    if inClass st || bool_decide (patternListStack st = []) || escaping st
    then Some (set_escaping false (add_re «"\|"» st))
    else Some (add_re «"|"» (clearStateChar st))
  else if decide (c = 91%N) then
    let st := clearStateChar st in
    if inClass st then Some (add_re «"\["» st)
    else Some (add_re «"["» (open_class i st))
  else if decide (c = 93%N) then
    if decide (Z.of_nat i = classStart st + 1 \/ inClass st = false)%Z
    then Some (set_escaping false (add_re «"\]"» st))
    else
      let cs := substring pattern (Z.to_nat (classStart st + 1)) i in
      match RegExp («"["» ++ cs ++ «"]"») with
      | None =>
          let sp := sub cs in
          Some (set_inClass false
                 (set_magic (hasMagic st || sp.2)
                   (set_re (take (reClassStart st) (re st) ++ «"\["» ++ sp.1 ++ «"\]"») st)))
      | Some _ => Some (add_re «"]"» (set_inClass false (set_magic true st)))
      end
  else
    let st := clearStateChar st in
    if escaping st then Some (add_re [c] (set_escaping false st))
    else if reSpecials c && negb (bool_decide (c = 94%N) && inClass st)
    then Some (add_re [bslash; c] st)
    else Some (add_re [c] st).

Fixpoint parse_chars (sub : jsstr -> jsstr * bool) (pattern rest : jsstr) (i : nat)
    (st : pstate) : option pstate :=
  match rest with
  | [] => Some st
  | c :: rest => st ← parse_char sub pattern i c st; parse_chars sub pattern rest (S i) st
  end.

(** [tail.replace(/((?:\\{2}){0,64})(\\?)\|/g, ...)]: a bar with up to 129
    backslashes before it; of these the pairs are doubled, and the bar ends up
    behind a single one.  [skip] counts the characters of a match that are
    still to be dropped. *)
Fixpoint escape_bars (skip : nat) (s : jsstr) : jsstr :=
  match s with
  | [] => []
  | c :: s' =>
      match skip with
      | S skip => escape_bars skip s'
      | O =>
          let run := length (take_while (fun d => (d =? bslash)%N) s) in
          if decide (s !! run = Some 124%N /\ run <= 129) then
            replicate (4 * (run / 2)) bslash ++ [bslash; 124%N] ++ escape_bars run s'
          else c :: escape_bars 0 s'
      end
  end.

(** A list that is still open at the end of the pattern. *)
Definition close_list (pl : plist) (st : pstate) : pstate :=
  let tail := escape_bars 0 (drop (pl_reStart pl + length (pl_open (pl_type pl))) (re st)) in
  let t := if decide (pl_type pl = 42%N) then star
           else if decide (pl_type pl = 63%N) then qmark
           else [bslash; pl_type pl] in
  set_magic true (set_re (take (pl_reStart pl) (re st) ++ t ++ «"\("» ++ tail) st).

(** [s.replace(/\)[+*?]?/, '')]: the first match only. *)
Fixpoint drop_close (s : jsstr) : jsstr :=
  match s with
  | [] => []
  | c :: s' =>
      if decide (c = 41%N) then
        match s' with
        | d :: s2 => if decide (d ∈ «"+*?"») then s2 else s'
        | [] => []
        end
      else c :: drop_close s'
  end.

Definition js_slice (s : jsstr) (a b : nat) : jsstr := take (b - a) (drop a s).

Definition extend_negative (isSub : bool) (nl : plist) (re : jsstr) : jsstr :=
  let nlBefore := js_slice re 0 (pl_reStart nl) in
  let nlFirst := js_slice re (pl_reStart nl) (pl_reEnd nl - 8) in
  let nlLast := js_slice re (pl_reEnd nl - 8) (pl_reEnd nl) in
  let nlAfter := drop (pl_reEnd nl) re in
  let nlLast := nlLast ++ nlAfter in
  let openParensBefore := length (split_on 40%N nlBefore) - 1 in
  let nlAfter := Nat.iter openParensBefore drop_close nlAfter in
  let dollar := if decide (nlAfter = [] /\ isSub = false) then «"$"» else [] in
  nlBefore ++ nlFirst ++ nlAfter ++ dollar ++ nlLast.

Definition patternStart (pattern : jsstr) : jsstr :=
  if decide (head pattern = Some 46%N) then []
  else if dot opts then «"(?!(?:^|\/)\.{1,2}(?:$|\/))"»
  else «"(?!\.)"».

(** After the loop: an open class, open lists, what is pending at the end, the
    negative lists, the guards at the start. *)
Definition parse_end (sub : jsstr -> jsstr * bool) (isSub : bool) (pattern : jsstr)
    (st : pstate) : jsstr * bool :=
  let st :=
    if inClass st then
      let sp := sub (drop (Z.to_nat (classStart st + 1)) pattern) in
      set_magic (hasMagic st || sp.2)
        (set_re (take (reClassStart st) (re st) ++ «"\["» ++ sp.1) st)
    else st in
  let st := foldl (fun st pl => close_list pl st) st (patternListStack st) in
  let st := clearStateChar st in
  let st := if escaping st then add_re [bslash; bslash] st else st in
  let addPatternStart := bool_decide (head (re st) ∈ [Some 46%N; Some 91%N; Some 40%N]) in
  let r := foldl (fun r nl => extend_negative isSub nl r) (re st) (negativeLists st) in
  let r := if decide (r <> [] /\ hasMagic st = true) then «"(?=.)"» ++ r else r in
  ((if addPatternStart then patternStart pattern else []) ++ r, hasMagic st).

Definition initial_pstate : pstate := PState [] (nocase opts) false [] [] None false 0 (-1).

(** The body of [parse] after its shortcuts. *)
Definition parse_body (sub : jsstr -> jsstr * bool) (isSub : bool) (pattern : jsstr)
    : option (jsstr * bool) :=
  st ← parse_chars sub pattern pattern 0 initial_pstate;
  Some (parse_end sub isSub pattern st).

(** [this.parse(cs, SUBPARSE)] and the two elements read from its result; the
    piece of a pattern is shorter than the pattern. *)
Fixpoint subparse (fuel : nat) (cs : jsstr) : jsstr * bool :=
  match fuel with
  | O => undefined_sub
  | S fuel =>
      if decide (noglobstar opts = false /\ cs = «"**"») then undefined_sub
      else if decide (cs = []) then undefined_sub
      else default undefined_sub (parse_body (subparse fuel) true cs)
  end.

Definition parse_re (pattern : jsstr) : option (jsstr * bool) :=
  parse_body (subparse (length pattern)) false pattern.

(** [s.replace(/\\(.)/g, '$1')] *)
Fixpoint globUnescape (s : jsstr) : jsstr :=
  match s with
  | c :: ((d :: s2) as s1) =>
      if decide (c = bslash /\ is_line_end d = false) then d :: globUnescape s2
      else c :: globUnescape s1
  | _ => s
  end.

(** What [parse] returns: the globstar object, a string, or a regular
    expression with its [_src] and its [_glob] (which the one that never matches
    has not). *)
Inductive part :=
| Globstar
| Text (s : jsstr)
| Magic (r : regex) (src glob : option jsstr).

#[export] Instance part_eq_dec : EqDecision part.
Proof. solve_decision. Defined.

Inductive parse_result := TooLong | ContainsSlash | Part (p : part).

Definition never : regex := Seq Eol (Seq AnyChar Nothing).

Definition parse (pattern : jsstr) : parse_result :=
  if decide (1024 * 64 < N.of_nat (length pattern))%N then TooLong
  else if decide (noglobstar opts = false /\ pattern = «"**"») then Part Globstar
  else if decide (pattern = []) then Part (Text [])
  else match parse_re pattern with
       | None => ContainsSlash
       | Some (r, false) => Part (Text (globUnescape pattern))
       | Some (r, true) =>
           Part (match RegExp («"^"» ++ r ++ «"$"») with
                 | Some x => Magic x (Some r) (Some pattern)
                 | None => Magic never None None
                 end)
       end.
End Parse.

(** ** The Minimatch object *)

(** [s.split(/\/+/)] *)
Fixpoint split_slashes_go (in_run : bool) (s : jsstr) : list jsstr :=
  match s with
  | [] => [[]]
  | c :: s' =>
      if decide (c = 47%N) then
        if in_run then split_slashes_go true s' else [] :: split_slashes_go true s'
      else match split_slashes_go false s' with
           | w :: ws => (c :: w) :: ws
           | [] => [[c]]
           end
  end.

Definition slashSplit (s : jsstr) : list jsstr := split_slashes_go false s.

(** [s.trim()] *)
Fixpoint trim_left (s : jsstr) : jsstr :=
  match s with c :: s' => if is_js_space c then trim_left s' else s | [] => [] end.
Definition js_trim (s : jsstr) : jsstr := rev (trim_left (rev (trim_left s))).

(** [/\{.*\}/] *)
Fixpoint has_braces (s : jsstr) : bool :=
  match s with
  | [] => false
  | c :: s' =>
      (bool_decide (c = lbrace) &&
       bool_decide (rbrace ∈ take_while (fun d => negb (is_line_end d)) s')) || has_braces s'
  end.

(** [this.regexp] before and after [makeRe]. *)
Inductive made := NotMade | MadeFalse | Made (r : regex).

Record minimatch_obj := MinimatchObj {
  m_options : options;
  m_globSet : list jsstr;
  m_set : list (list part);
  m_pattern : jsstr;
  m_regexp : made;
  m_negate : bool;
  m_comment : bool;
  m_empty : bool
}.

(** What a call may end with: a value, an exception, or an endless loop in the
    brace expansion. *)
Inductive result (A : Type) := Returns (a : A) | Throws | Loops.
Arguments Returns {A} a.
Arguments Throws {A}.
Arguments Loops {A}.

Section Minimatch.
(** [Math.random()] in the brace expansion. *)
Variables rSlash rOpen rClose rComma rPeriod : jsstr.
(** The case tables of the language. *)
Variable toLowerCase : jsstr -> jsstr.
Variable canonicalize : N -> N.

(** [/^!*/]: the sign, and the pattern behind the exclamation marks. *)
Fixpoint skip_negations (pattern : jsstr) (negate : bool) : bool * jsstr :=
  match pattern with
  | c :: rest => if decide (c = 33%N) then skip_negations rest (negb negate) else (negate, pattern)
  | [] => (negate, [])
  end.

Definition parseNegate (opts : options) (pattern : jsstr) : bool * jsstr :=
  if nonegate opts then (false, pattern) else skip_negations pattern false.

Definition braceExpand (opts : options) (pattern : jsstr) : outcome (list jsstr) :=
  if nobrace opts || negb (has_braces pattern) then Value [pattern]
  else expandTop rSlash rOpen rClose rComma rPeriod pattern.

(** The parts of one pattern of the set; [Some None] when one of them does not
    compile, [None] when one is too long. *)
Fixpoint parse_parts (opts : options) (ps : list jsstr) : option (option (list part)) :=
  match ps with
  | [] => Some (Some [])
  | p :: ps =>
      match parse opts p with
      | TooLong => None
      | ContainsSlash => match parse_parts opts ps with None => None | Some _ => Some None end
      | Part x =>
          match parse_parts opts ps with
          | None => None
          | Some None => Some None
          | Some (Some xs) => Some (Some (x :: xs))
          end
      end
  end.

(** [new Minimatch(pattern, options)], with [make]. *)
Definition new_Minimatch (opts : options) (pattern : jsstr) : result minimatch_obj :=
  let pattern := js_trim pattern in
  if decide (nocomment opts = false /\ head pattern = Some 35%N) then
    Returns (MinimatchObj opts [] [] pattern NotMade false true false)
  else if decide (pattern = []) then
    Returns (MinimatchObj opts [] [] pattern NotMade false false true)
  else
    let '(negate, pattern) := parseNegate opts pattern in
    match braceExpand opts pattern with
    | Value globSet =>
        match mapM (fun s => parse_parts opts (slashSplit s)) globSet with
        | Some sets => Returns (MinimatchObj opts globSet (omap id sets) pattern NotMade negate false false)
        | None => Throws
        end
    | _ => Loops
    end.

(** ** Matching *)

Definition flag_i (opts : options) : N -> N := if nocase opts then canonicalize else id.

(** A part other than [**] against a segment. *)
Definition part_hit (opts : options) (p : part) (f : jsstr) : bool :=
  match p with
  | Globstar => false
  | Text s => if nocase opts then bool_decide (toLowerCase f = toLowerCase s) else bool_decide (f = s)
  | Magic r _ _ => regex_test (flag_i opts) r f
  end.

(** What [**] does not swallow: [.], [..] and, without [dot], hidden names. *)
Definition swallows (opts : options) (f : jsstr) : bool :=
  negb (bool_decide (f = «"."») || bool_decide (f = «".."») ||
        negb (dot opts) && bool_decide (charAt f 0 = «"."»)).

(** What a [**] that is not the last part swallows, before [match_rest] is
    true of the rest. *)
Fixpoint globstar_loop (opts : options) (match_rest : list jsstr -> bool) (partial : bool)
    (file : list jsstr) : bool :=
  match file with
  | [] => partial
  | swallowee :: rest =>
      if match_rest file then true
      else if swallows opts swallowee then globstar_loop opts match_rest partial rest
      else false
  end.

Fixpoint matchOne (opts : options) (pattern : list part) (file : list jsstr) (partial : bool)
    {struct pattern} : bool :=
  match pattern, file with
  | [], [] => true
  | _ :: _, [] => partial
  | [], f :: fs => bool_decide (f = [] /\ fs = [])
  | Globstar :: ps, _ =>
      match ps with
      | [] => forallb (swallows opts) file
      | _ => globstar_loop opts (fun file => matchOne opts ps file partial) partial file
      end
  | p :: ps, f :: fs => if part_hit opts p f then matchOne opts ps fs partial else false
  end.

(** The last segment that is not empty, or the first one. *)
Fixpoint last_name (f : list jsstr) : jsstr :=
  match f with
  | [] => []
  | [x] => x
  | x :: rest => if decide (last_name rest = []) then x else last_name rest
  end.

Definition match_ (m : minimatch_obj) (f : jsstr) (partial : bool) : bool :=
  if m_comment m then false
  else if m_empty m then bool_decide (f = [])
  else if decide (f = «"/"» /\ partial = true) then true
  else
    let opts := m_options m in
    let file := slashSplit f in
    let one (pattern : list part) :=
      matchOne opts pattern
        (if decide (matchBase opts = true /\ length pattern = 1) then [last_name file] else file)
        partial in
    if existsb one (m_set m) then
      if flipNegate opts then true else negb (m_negate m)
    else if flipNegate opts then false else m_negate m.

Definition minimatch (p pattern : jsstr) (opts : options) : result bool :=
  if decide (nocomment opts = false /\ head pattern = Some 35%N) then Returns false
  else if decide (js_trim pattern = []) then Returns (bool_decide (p = []))
  else match new_Minimatch opts pattern with
       | Returns m => Returns (match_ m p false)
       | Throws => Throws
       | Loops => Loops
       end.

(** [minimatch.filter] *)
Definition filter_ (pattern : jsstr) (opts : options) : jsstr -> result bool :=
  fun p => minimatch p pattern opts.

(** [minimatch.match]: the members of a list that match. *)
Definition match_list (list_ : list jsstr) (pattern : jsstr) (opts : options) : result (list jsstr) :=
  match new_Minimatch opts pattern with
  | Returns mm =>
      let found := filter (fun f => match_ mm f false = true) list_ in
      Returns (if decide (nonull opts = true /\ found = []) then [pattern] else found)
  | Throws => Throws
  | Loops => Loops
  end.

(** ** One regular expression for a whole pattern *)

Definition re_escaped (c : N) : bool :=
  bool_decide (c ∈ «"-[]{}()*+?.,\^$|#"») || is_js_space c.

Definition regExpEscape (s : jsstr) : jsstr :=
  concat (map (fun c => if re_escaped c then [bslash; c] else [c]) s).

Definition part_source (opts : options) (p : part) : jsstr :=
  match p with
  | Globstar => if noglobstar opts then star else if dot opts then twoStarDot else twoStarNoDot
  | Text s => regExpEscape s
  | Magic _ src _ => default «"undefined"» src
  end.

Definition set_regexp (x : made) (m : minimatch_obj) : minimatch_obj :=
  MinimatchObj (m_options m) (m_globSet m) (m_set m) (m_pattern m) x (m_negate m) (m_comment m) (m_empty m).

(** [makeRe]: the regular expression is made once. *)
Definition makeRe (m : minimatch_obj) : made * minimatch_obj :=
  match m_regexp m with
  | NotMade =>
      let x :=
        if decide (m_set m = []) then MadeFalse
        else
          let re := join «"|"»
            (map (fun ps => join «"\/"» (map (part_source (m_options m)) ps)) (m_set m)) in
          let re := «"^(?:"» ++ re ++ «")$"» in
          let re := if m_negate m then «"^(?!"» ++ re ++ «").*$"» else re in
          match RegExp re with Some r => Made r | None => MadeFalse end in
      (x, set_regexp x m)
  | x => (x, m)
  end.

(** ** Defaults *)

(** The options that an options object of Booleans gives. *)
Definition read_options (o : gmap string bool) : options :=
  let get k := default false (o !! k) in
  Options (get "nocomment") (get "nonegate") (get "nobrace") (get "noglobstar") (get "noext")
    (get "nocase") (get "dot") (get "matchBase") (get "flipNegate") (get "nonull").

(** The properties that the module gives the function [minimatch]. *)
Definition minimatch_properties : list string :=
  ["Minimatch"; "GLOBSTAR"; "filter"; "defaults"; "braceExpand"; "makeRe"; "match"].

(** [minimatch.defaults(def)] as a function of its arguments; calling
    [orig.minimatch] throws unless the function has that property. *)
Definition minimatch_defaults (def : gmap string bool) (p pattern : jsstr) (o : gmap string bool) : result bool :=
  if decide (def = ∅) then minimatch p pattern (read_options o)
  else if bool_decide ("minimatch" ∈ minimatch_properties) then minimatch p pattern (read_options (ext def o))
  else Throws.

(** [minimatch.defaults(def).Minimatch], also [Minimatch.defaults(def)] *)
Definition Minimatch_defaults (def : gmap string bool) (pattern : jsstr) (o : gmap string bool) : result minimatch_obj :=
  if decide (def = ∅) then new_Minimatch (read_options o) pattern else new_Minimatch (read_options (ext def o)) pattern.
End Minimatch.

Section Tests.
Let mm (p pattern : string) := minimatch «"1"» «"2"» «"3"» «"4"» «"5"» id id (lit p) (lit pattern) no_options.
Example mm_star : mm "abc.js" "*.js" = Returns true. Proof. vm_compute. reflexivity. Qed.
Example mm_hidden : mm ".abc.js" "*.js" = Returns false. Proof. vm_compute. reflexivity. Qed.
Example mm_globstar : mm "a/x/y/b/z/c" "a/**/b/**/c" = Returns true. Proof. vm_compute. reflexivity. Qed.
Example mm_globstar_no : mm "a/x/.y/b" "a/**/b" = Returns false. Proof. vm_compute. reflexivity. Qed.
Example mm_brace : mm "src/x.ts" "{src,lib}/?.{js,ts}" = Returns true. Proof. vm_compute. reflexivity. Qed.
Example mm_class : mm "b" "[!a]" = Returns true. Proof. vm_compute. reflexivity. Qed.
Example mm_class_no : mm "a" "[!a]" = Returns false. Proof. vm_compute. reflexivity. Qed.
Example mm_ext : mm "foo.js" "+(foo|bar).js" = Returns true. Proof. vm_compute. reflexivity. Qed.
Example mm_ext_not : mm "a.xyz.yz" "*.!(x).!(y|z)" = Returns true. Proof. vm_compute. reflexivity. Qed.
Example mm_ext_not2 : mm "a.x.y" "*.!(x).!(y|z)" = Returns false. Proof. vm_compute. reflexivity. Qed.
Example mm_neg : mm "a.js" "!*.ts" = Returns true. Proof. vm_compute. reflexivity. Qed.
Example mm_bad_class : mm "[z-a]x" "[z-a]*" = Returns true. Proof. vm_compute. reflexivity. Qed.
Example mm_slash : mm "a/b/" "a/*" = Returns true. Proof. vm_compute. reflexivity. Qed.
End Tests.
