(* ===== verification/MinimatchProps.v ===== *)
(** * Properties of minimatch

    The path-level matcher against a declarative relation, and the translation
    of wildcard patterns against a reference matcher. *)

From S2P Require Import Prelude BraceExpansion Regex Minimatch.

(** ** [matchOne] *)

Section MatchOne.
Variable toLowerCase : jsstr -> jsstr.
Variable canonicalize : N -> N.
Variable opts : options.

Let hit := part_hit toLowerCase canonicalize opts.
Let matches := matchOne toLowerCase canonicalize opts.

(** When a path, as a list of segments, matches a list of parts: a part takes
    one segment; a [**] takes any number of segments it may swallow, and at
    the end of the pattern at least one; one empty segment (a trailing slash)
    may be left over. *)
Inductive path_match : list part -> list jsstr -> Prop :=
| match_end : path_match [] []
| match_trailing_slash : path_match [] [[]]
| match_part p ps f fs :
    p <> Globstar -> hit p f = true -> path_match ps fs -> path_match (p :: ps) (f :: fs)
| match_skip ps fs : ps <> [] -> path_match ps fs -> path_match (Globstar :: ps) fs
| match_swallow ps f fs :
    swallows opts f = true -> path_match (Globstar :: ps) fs -> path_match (Globstar :: ps) (f :: fs)
| match_last f : swallows opts f = true -> path_match [Globstar] [f].

Lemma matchOne_globstar ps f fs partial :
  ps <> [] -> matches (Globstar :: ps) (f :: fs) partial =
    globstar_loop opts (fun file => matches ps file partial) partial (f :: fs).
Proof. by destruct ps. Qed.

Lemma matchOne_globstar_end f fs partial :
  matches [Globstar] (f :: fs) partial = forallb (swallows opts) (f :: fs).
Proof. done. Qed.

Lemma matchOne_part p ps f fs partial :
  p <> Globstar -> matches (p :: ps) (f :: fs) partial = hit p f && matches ps fs partial.
Proof. intros Hp. unfold matches, hit. destruct p; [done| |]; cbn [matchOne]; by case_match. Qed.

Lemma globstar_loop_exists ps partial file :
  globstar_loop opts (fun file => matches ps file partial) partial file = true <->
  (exists skipped rest, file = skipped ++ rest /\ Forall (fun f => swallows opts f = true) skipped /\
     rest <> [] /\ matches ps rest partial = true) \/
  (partial = true /\ Forall (fun f => swallows opts f = true) file).
Proof.
  induction file as [|f fs IH]; cbn [globstar_loop].
  - split; [by intros ->; right|]. intros [(sk & r & E & _ & Hr & _)|[-> _]]; [|done].
    symmetry in E. apply app_eq_nil in E as [_ ->]. done.
  - destruct (matches ps (f :: fs) partial) eqn:Em.
    { split; [|done]. intros _. left. exists [], (f :: fs). done. }
    destruct (swallows opts f) eqn:Es.
    + rewrite IH. split.
      * intros [(sk & r & -> & Hsk & Hr & Hm)|[-> Hall]]; [left|right; split; [done|by constructor]].
        exists (f :: sk), r. split_and!; [done|by constructor|done|done].
      * intros [(sk & r & E & Hsk & Hr & Hm)|[-> Hall]].
        -- destruct sk as [|x sk]; simplify_eq/=; [congruence|]. left. exists sk, r.
           apply Forall_cons in Hsk as [_ Hsk]. done.
        -- right. apply Forall_cons in Hall as [_ Hall]. done.
    + split; [done|]. intros [(sk & r & E & Hsk & Hr & Hm)|[-> Hall]].
      * destruct sk as [|x sk]; simplify_eq/=; [congruence|]. apply Forall_cons in Hsk as [? _]. congruence.
      * apply Forall_cons in Hall as [? _]. congruence.
Qed.

Lemma path_match_nonempty ps fs : path_match ps fs -> ps <> [] -> fs <> [].
Proof. induction 1; naive_solver. Qed.

Lemma path_match_swallow_all sk ps rest :
  Forall (fun f => swallows opts f = true) sk ->
  path_match (Globstar :: ps) rest -> path_match (Globstar :: ps) (sk ++ rest).
Proof. induction 1 as [|f sk Hf Hsk IH]; [done|]. intros H. simpl. apply match_swallow; auto. Qed.

Lemma path_match_globstar_inv ps fs :
  path_match (Globstar :: ps) fs ->
  (exists sk rest, fs = sk ++ rest /\ Forall (fun f => swallows opts f = true) sk /\
     ps <> [] /\ path_match ps rest) \/
  (ps = [] /\ fs <> [] /\ Forall (fun f => swallows opts f = true) fs).
Proof.
  remember (Globstar :: ps) as gps eqn:E. intros H. revert ps E.
  induction H as [| |p ps' f fs Hp Hh H IH|ps' fs Hps H IH|ps' f fs Hs H IH|f Hs]; intros ps E; simplify_eq.
  - left. by exists [], fs.
  - destruct (IH ps eq_refl) as [(sk & r & -> & Hsk & Hne & Hm)|(-> & Hne & Hall)].
    + left. exists (f :: sk), r. split_and!; [done|by constructor|done|done].
    + right. split_and!; [done|done|by constructor].
  - right. split_and!; [done|done|by constructor].
Qed.

Lemma matchOne_path_match ps fs : matches ps fs false = true <-> path_match ps fs.
Proof.
  revert fs. induction ps as [|p ps IH]; intros fs.
  - destruct fs as [|f fs]; [split; [constructor|done]|].
    change (matches [] (f :: fs) false) with (bool_decide (f = [] /\ fs = [])).
    rewrite bool_decide_eq_true. split; [intros [-> ->]; constructor|by inversion 1].
  - destruct fs as [|f fs].
    { split; [by destruct p|]. intros H%path_match_nonempty; done. }
    destruct (decide (p = Globstar)) as [->|Hp].
    + destruct (decide (ps = [])) as [->|Hps].
      * rewrite matchOne_globstar_end, forallb_Forall. split.
        -- intros Hall. destruct (exists_last (l := f :: fs)) as (sk & x & E); [done|].
           rewrite E in *. apply Forall_app in Hall as [Hsk Hx]. apply Forall_cons in Hx as [Hx _].
           apply path_match_swallow_all; [done|by constructor].
        -- intros [(? & ? & _ & _ & ? & _)|(_ & _ & ?)]%path_match_globstar_inv; done.
      * rewrite matchOne_globstar by done. rewrite globstar_loop_exists. split.
        -- intros [(sk & r & -> & Hsk & Hr & Hm)|[? _]]; [|done].
           apply path_match_swallow_all; [done|]. apply match_skip; [done|by apply IH].
        -- intros [(sk & r & -> & Hsk & _ & Hm)|(? & _)]%path_match_globstar_inv; [|done].
           left. exists sk, r. split_and!; [done|done|by eapply path_match_nonempty|by apply IH].
    + rewrite matchOne_part, andb_true_iff, IH by done. split.
      * intros [H1 H2]. by constructor.
      * inversion 1; subst; [done|done..].
Qed.

(** A path that matches is never cut off: every prefix of it matches in
    partial mode. *)
Lemma matchOne_partial ps fs rest :
  matches ps (fs ++ rest) false = true -> matches ps fs true = true.
Proof.
  revert fs rest. induction ps as [|p ps IH]; intros fs rest.
  - destruct fs as [|f fs]; [done|].
    change (bool_decide (f = [] /\ fs ++ rest = []) = true -> bool_decide (f = [] /\ fs = []) = true).
    rewrite !bool_decide_eq_true.
    intros [-> E]. by apply app_eq_nil in E as [-> _].
  - destruct fs as [|f fs]; [by destruct p|]. rewrite <- app_comm_cons.
    destruct (decide (p = Globstar)) as [->|Hp].
    + destruct (decide (ps = [])) as [->|Hps].
      * rewrite !matchOne_globstar_end, app_comm_cons, forallb_app, andb_true_iff. tauto.
      * rewrite !matchOne_globstar, !globstar_loop_exists by done.
        intros [(sk & r & E & Hsk & Hr & Hm)|[? _]]; [|done].
        rewrite app_comm_cons in E. apply app_eq_app in E as (l & [[E1 E2]|[E1 E2]]).
        -- destruct (decide (l = [])) as [->|Hl].
           { right. split; [done|]. rewrite E1, app_nil_r. done. }
           left. exists sk, l. split_and!; [done|done|done|]. apply (IH _ rest). by rewrite <- E2.
        -- right. split; [done|]. rewrite E1 in Hsk. by apply Forall_app in Hsk as [? _].
    + rewrite !matchOne_part, !andb_true_iff by done. intros [H1 H2]. split; [done|]. by eapply IH.
Qed.
End MatchOne.

(** ** Wildcard patterns

    A part built from literal characters, [?] and [*]. *)
Inductive wild := WLit (c : N) | WOne | WMany.

Definition print_wild (w : wild) : N := match w with WLit c => c | WOne => 63%N | WMany => 42%N end.

(** Characters with a meaning in the syntax of parts, and the slash. *)
Definition glob_char (c : N) : bool := bool_decide (c ∈ «"\/?*+@!()|[]"»).

Definition literal (w : wild) : bool := match w with WLit c => negb (glob_char c) | _ => true end.
Definition wildcard (w : wild) : bool := match w with WLit _ => false | _ => true end.

(** When a name matches: literals stand for themselves, [?] for one character
    and [*] for any number, slashes excluded. *)
Inductive wild_match : list wild -> jsstr -> Prop :=
| wild_nil : wild_match [] []
| wild_lit c ws s : wild_match ws s -> wild_match (WLit c :: ws) (c :: s)
| wild_one c ws s : c <> 47%N -> wild_match ws s -> wild_match (WOne :: ws) (c :: s)
| wild_stop ws s : wild_match ws s -> wild_match (WMany :: ws) s
| wild_more c ws s : c <> 47%N -> wild_match (WMany :: ws) s -> wild_match (WMany :: ws) (c :: s).

(** *** The translation *)

Definition wild_re (w : wild) : jsstr :=
  match w with
  | WLit c => if reSpecials c then [bslash; c] else [c]
  | WOne => qmark
  | WMany => star
  end.

Definition add_wild (st : pstate) (w : wild) : pstate :=
  set_magic (hasMagic st || wildcard w) (add_re (wild_re w) st).

(** Between two characters of a wildcard pattern. *)
Definition simple (st : pstate) : Prop :=
  escaping st = false /\ inClass st = false /\ patternListStack st = [] /\ negativeLists st = [] /\
  (stateChar st = None \/ stateChar st = Some 42%N \/ stateChar st = Some 63%N).

Lemma glob_char_spec c :
  glob_char c = false ->
  c <> 47%N /\ c <> bslash /\ (c ∉ «"?*+@!"») /\ c <> 40%N /\ c <> 41%N /\ c <> 124%N /\
  c <> 91%N /\ c <> 93%N.
Proof. unfold glob_char, bslash. rewrite bool_decide_eq_false. simpl. set_solver. Qed.

Lemma clear_fields st :
  simple st ->
  escaping (clearStateChar st) = false /\ inClass (clearStateChar st) = false /\
  patternListStack (clearStateChar st) = [] /\ negativeLists (clearStateChar st) = [] /\
  stateChar (clearStateChar st) = None.
Proof.
  intros (H1 & H2 & H3 & H4 & H5). unfold clearStateChar.
  destruct H5 as [E|[E|E]]; rewrite E; simpl; by rewrite ?E.
Qed.

Lemma clear_none st : stateChar st = None -> clearStateChar st = st.
Proof. unfold clearStateChar. by intros ->. Qed.

(** A wildcard is remembered and written later, or at once with [noext]. *)
Lemma state_char_wild (noext : bool) st1 w :
  escaping st1 = false -> inClass st1 = false -> patternListStack st1 = [] ->
  negativeLists st1 = [] -> stateChar st1 = None -> wildcard w = true ->
  let st' := if noext then clearStateChar (set_stateChar (Some (print_wild w)) st1)
             else set_stateChar (Some (print_wild w)) st1 in
  simple st' /\ clearStateChar st' = add_wild st1 w.
Proof.
  intros C1 C2 C3 C4 C5 Hw. destruct w as [c| |]; [done| |]; destruct noext; cbv zeta;
    (split; [split_and!; simpl; by auto|]); rewrite ?(clear_none (clearStateChar _)) by done;
    unfold clearStateChar, add_wild, set_magic, add_re, set_stateChar; simpl;
    by rewrite orb_true_r, C5.
Qed.

Lemma parse_char_wild opts sub pattern i w st :
  simple st -> literal w = true ->
  exists st', parse_char opts sub pattern i (print_wild w) st = Some st' /\ simple st' /\
    clearStateChar st' = add_wild (clearStateChar st) w.
Proof.
  intros Hs Hw. pose proof (clear_fields st Hs) as (C1 & C2 & C3 & C4 & C5).
  destruct Hs as (H1 & H2 & H3 & H4 & H5). unfold parse_char. rewrite H1. cbn [andb].
  destruct w as [c| |]; cbn [print_wild].
  - apply negb_true_iff, glob_char_spec in Hw as (G1 & G2 & G3 & G4 & G5 & G6 & G7 & G8).
    rewrite (decide_False (P := c = 47%N)), (decide_False (P := c = bslash)),
      (decide_False (P := c ∈ «"?*+@!"»)), (decide_False (P := c = 40%N)), (decide_False (P := c = 41%N)),
      (decide_False (P := c = 124%N)), (decide_False (P := c = 91%N)), (decide_False (P := c = 93%N)) by done.
    rewrite C1, C2, andb_false_r, andb_true_r.
    exists (add_re (wild_re (WLit c)) (clearStateChar st)). split; [|split].
    + cbn [wild_re]. by destruct (reSpecials c).
    + split_and!; simpl; try done. by left.
    + rewrite clear_none by done. unfold add_wild, set_magic, add_re. simpl. by rewrite orb_false_r.
  - rewrite H2. cbn -[clearStateChar]. eexists. split; [done|].
    by apply (state_char_wild (noext opts) (clearStateChar st) WOne).
  - rewrite H2. cbn -[clearStateChar]. eexists. split; [done|].
    by apply (state_char_wild (noext opts) (clearStateChar st) WMany).
Qed.

Lemma parse_chars_wild opts sub pattern ws i st :
  simple st -> forallb literal ws = true ->
  exists st', parse_chars opts sub pattern (map print_wild ws) i st = Some st' /\ simple st' /\
    clearStateChar st' = foldl add_wild (clearStateChar st) ws.
Proof.
  revert i st. induction ws as [|w ws IH]; intros i st Hs Hw; [by exists st|].
  simpl in Hw. apply andb_true_iff in Hw as [Hw Hws].
  destruct (parse_char_wild opts sub pattern i w st Hs Hw) as (st1 & E1 & Hs1 & Hc1).
  destruct (IH (S i) st1 Hs1 Hws) as (st2 & E2 & Hs2 & Hc2).
  exists st2. cbn [map parse_chars]. rewrite E1. cbn [mbind option_bind].
  split_and!; [done|done|]. by rewrite Hc2, Hc1.
Qed.

Lemma foldl_add_wild ws st :
  foldl add_wild st ws =
  set_magic (hasMagic st || existsb wildcard ws) (add_re (concat (map wild_re ws)) st).
Proof.
  revert st. induction ws as [|w ws IH]; intros st; simpl.
  - destruct st. unfold set_magic, add_re. simpl. by rewrite orb_false_r, app_nil_r.
  - rewrite IH. unfold add_wild, set_magic, add_re. simpl. by rewrite <- orb_assoc, <- app_assoc.
Qed.

Lemma parse_re_wild opts ws :
  nocase opts = false -> forallb literal ws = true ->
  parse_re opts (map print_wild ws) =
  let r := concat (map wild_re ws) in
  let magic := existsb wildcard ws in
  let start := match ws with w :: _ => wildcard w | [] => false end in
  Some ((if start then patternStart opts (map print_wild ws) else []) ++
        (if magic then «"(?=.)"» ++ r else r), magic).
Proof.
  intros Hn Hw. cbv zeta. unfold parse_re, parse_body.
  destruct (parse_chars_wild opts (subparse opts (length (map print_wild ws))) (map print_wild ws)
    ws 0 (initial_pstate opts)) as (st & -> & Hs & Hc); [|done|].
  { split_and!; simpl; try done. by left. }
  cbn [mbind option_bind]. f_equal. unfold parse_end.
  pose proof Hs as (H1 & H2 & H3 & H4 & H5). rewrite H2. cbv zeta. rewrite H3. cbn [foldl].
  pose proof (clear_fields st Hs) as (C1 & _ & _ & C4 & _). rewrite C1, C4. cbn [foldl].
  rewrite Hc, foldl_add_wild. cbn [re add_re set_magic hasMagic clearStateChar initial_pstate stateChar].
  rewrite Hn. cbn [orb app]. set (r := concat (map wild_re ws)).
  assert (existsb wildcard ws = true -> r <> []) as Hr.
  { unfold r. clear. destruct ws as [|w ws]; [done|]. intros _. destruct w; simpl; [|done|done].
    by destruct (reSpecials c). }
  f_equal. f_equal.
  - assert (bool_decide (head r ∈ [Some 46%N; Some 91%N; Some 40%N]) =
      match ws with w :: _ => wildcard w | [] => false end) as ->; [|done].
    unfold r. destruct ws as [|w ws]; [done|]. destruct w as [c| |]; [|done|done].
    simpl in Hw. apply andb_true_iff in Hw as [Hw _]. apply bool_decide_eq_false. simpl.
    unfold reSpecials. case_bool_decide as Hc'; simpl in *; [unfold bslash; set_solver|].
    intros Hin. apply Hc'. set_solver.
  - destruct (existsb wildcard ws) eqn:E.
    + rewrite decide_True; [done|]. split; [by apply Hr|done].
    + by rewrite decide_False by naive_solver.
Qed.

(** *** The regular expression *)

Definition not_slash_re : regex := OneOf true [One 47%N].

Definition wild_regex (w : wild) : regex :=
  match w with WLit c => Chr c | WOne => not_slash_re | WMany => Rep not_slash_re 0 None end.

(** The first character does not quantify what precedes it. *)
Definition no_quantifier (s : jsstr) : Prop := forall c, head s = Some c -> c ∉ «"*+?{"».

Lemma read_quantifier_none r s : no_quantifier s -> read_quantifier r s = Some (r, s).
Proof.
  intros H. destruct s as [|c s]; [done|]. specialize (H c eq_refl). simpl in H.
  unfold read_quantifier. repeat case_match; subst; (done || exfalso; set_solver).
Qed.

Lemma read_plain fuel c s :
  glob_char c = false -> reSpecials c = false -> no_quantifier s ->
  read_term (S fuel) (c :: s) = Some (Chr c, s).
Proof.
  intros Hg Hs Hq. rewrite <- (read_quantifier_none (Chr c) s) by done.
  unfold glob_char in Hg. unfold reSpecials in Hs. apply bool_decide_eq_false in Hg, Hs. simpl in Hg, Hs.
  cbn [read_term]. repeat case_match; subst; (done || exfalso; set_solver).
Qed.

Lemma read_special fuel c s :
  glob_char c = false -> reSpecials c = true -> no_quantifier s ->
  read_term (S fuel) (bslash :: c :: s) = Some (Chr c, s).
Proof.
  intros Hg Hs Hq. rewrite <- (read_quantifier_none (Chr c) s) by done.
  unfold glob_char in Hg. unfold reSpecials in Hs. apply bool_decide_eq_false in Hg.
  apply bool_decide_eq_true in Hs. simpl in Hg, Hs.
  assert (c ∈ [46; 123; 125; 94; 36]%N) as Hc by set_solver.
  repeat (apply elem_of_cons in Hc as [->|Hc]; [reflexivity|]). by apply elem_of_nil in Hc.
Qed.

Lemma read_wild fuel w s :
  literal w = true -> no_quantifier s -> read_term (S fuel) (wild_re w ++ s) = Some (wild_regex w, s).
Proof.
  intros Hw Hq. destruct w as [c| |].
  - apply negb_true_iff in Hw. cbn [wild_re]. destruct (reSpecials c) eqn:E.
    + by apply read_special.
    + by apply read_plain.
  - cbn [wild_regex]. rewrite <- (read_quantifier_none not_slash_re s) by done. destruct s; reflexivity.
  - reflexivity.
Qed.

Lemma wild_re_head w s : literal w = true -> no_quantifier (wild_re w ++ s).
Proof.
  intros Hw c Hc. destruct w as [d| |];
    [|change (Some 91%N = Some c) in Hc; injection Hc as <-; simpl; set_solver..].
  cbn [wild_re] in Hc. apply negb_true_iff in Hw. destruct (reSpecials d) eqn:E.
  - injection Hc as <-. unfold bslash. simpl. set_solver.
  - injection Hc as <-. unfold reSpecials in E. apply bool_decide_eq_false in E. simpl in *. set_solver.
Qed.

Lemma read_terms_step fuel c s :
  c <> 124%N -> c <> 41%N ->
  read_terms (S fuel) (c :: s) =
    ('(r, s1) ← read_term fuel (c :: s); '(r2, s2) ← read_terms fuel s1; Some (Seq r r2, s2)).
Proof. intros H1 H2. cbn [read_terms]. repeat case_match; simplify_eq; done. Qed.

Definition wilds_regex (ws : list wild) : regex :=
  foldr (fun w r => Seq (wild_regex w) r) (Seq Eol Nothing) ws.

Lemma read_wilds fuel ws :
  forallb literal ws = true -> length ws + 2 <= fuel ->
  read_terms fuel (concat (map wild_re ws) ++ [36%N]) = Some (wilds_regex ws, []).
Proof.
  revert fuel. induction ws as [|w ws IH]; intros fuel Hw Hf.
  { destruct fuel as [|[|fuel]]; [simpl in Hf; lia..|]. by destruct fuel. }
  simpl in Hw. apply andb_true_iff in Hw as [Hw Hws]. simpl in Hf.
  destruct fuel as [|fuel]; [lia|]. cbn [map concat]. rewrite <- app_assoc.
  set (rest := concat (map wild_re ws) ++ [36%N]).
  assert (no_quantifier rest) as Hq.
  { unfold rest. destruct ws as [|w2 ws]; [intros c Hc; injection Hc as <-; simpl; set_solver|].
    simpl in Hws. apply andb_true_iff in Hws as [Hw2 _]. cbn [map concat]. rewrite <- app_assoc.
    by apply wild_re_head. }
  assert (read_term fuel (wild_re w ++ rest) = Some (wild_regex w, rest)) as Ht.
  { destruct fuel as [|fuel]; [lia|]. by apply read_wild. }
  assert (exists c s, wild_re w ++ rest = c :: s /\ c <> 124%N /\ c <> 41%N) as (c & s & E & H1 & H2).
  { destruct w as [c| |]; cbn [wild_re]; [|by eexists _, _..].
    apply negb_true_iff, glob_char_spec in Hw. destruct (reSpecials c); [by eexists _, _|].
    exists c, rest. naive_solver. }
  rewrite E, read_terms_step, <- E, Ht by done. cbn [mbind option_bind].
  unfold rest. rewrite IH by (done || lia). done.
Qed.

Definition nonempty_re : regex := Look false (Seq AnyChar Nothing).

Definition start_re (opts : options) : regex :=
  if dot opts then
    Look true (Seq (Alt (Seq Bol Nothing) (Seq (Chr 47) Nothing))
      (Seq (Rep (Chr 46) 1 (Some 2)) (Seq (Alt (Seq Eol Nothing) (Seq (Chr 47) Nothing)) Nothing)))
  else Look true (Seq (Chr 46) Nothing).

Lemma read_bol fuel t : 1 <= fuel -> read_term fuel (94%N :: t) = Some (Bol, t).
Proof. intros H. by destruct fuel; [lia|]. Qed.

Lemma read_nonempty fuel t :
  10 <= fuel -> no_quantifier t -> read_term fuel («"(?=.)"» ++ t) = Some (nonempty_re, t).
Proof.
  intros Hf H. rewrite <- (read_quantifier_none nonempty_re t) by done.
  replace fuel with (10 + (fuel - 10)) by lia. reflexivity.
Qed.

Definition start_string (opts : options) : jsstr :=
  if dot opts then «"(?!(?:^|\/)\.{1,2}(?:$|\/))"» else «"(?!\.)"».

Lemma read_start opts fuel t :
  20 <= fuel -> no_quantifier t -> read_term fuel (start_string opts ++ t) = Some (start_re opts, t).
Proof.
  intros Hf H. rewrite <- (read_quantifier_none (start_re opts) t) by done.
  replace fuel with (20 + (fuel - 20)) by lia. unfold start_re, start_string.
  destruct (dot opts); reflexivity.
Qed.

Lemma read_terms_first fuel s r rest r2 :
  (exists c t, s = c :: t /\ c <> 124%N /\ c <> 41%N) ->
  read_term fuel s = Some (r, rest) -> read_terms fuel rest = Some (r2, []) ->
  read_terms (S fuel) s = Some (Seq r r2, []).
Proof.
  intros (c & t & -> & H1 & H2) Hr Hrest. rewrite read_terms_step, Hr by done.
  cbn [mbind option_bind]. by rewrite Hrest.
Qed.

Lemma RegExp_terms s r : read_terms (2 + 3 * length s) s = Some (r, []) -> RegExp s = Some r.
Proof.
  intros H. unfold RegExp. replace (3 * S (length s)) with (S (2 + 3 * length s)) by lia.
  cbn [read_alts]. by rewrite H.
Qed.

Lemma concat_wild_length ws : length ws <= length (concat (map wild_re ws)).
Proof.
  induction ws as [|w ws IH]; simpl; [lia|]. rewrite length_app.
  assert (1 <= length (wild_re w)); [|lia]. destruct w as [c| |]; simpl; [|lia|lia].
  destruct (reSpecials c); simpl; lia.
Qed.

Lemma wilds_no_quantifier ws : forallb literal ws = true -> no_quantifier (concat (map wild_re ws) ++ [36%N]).
Proof.
  destruct ws as [|w ws]; simpl; [intros _ c [= <-]; simpl; set_solver|].
  rewrite andb_true_iff. intros [Hw _]. rewrite <- app_assoc. by apply wild_re_head.
Qed.

Lemma RegExp_wild opts ws (start : bool) :
  forallb literal ws = true ->
  RegExp («"^"» ++ ((if start then start_string opts else []) ++
     «"(?=.)"» ++ concat (map wild_re ws)) ++ «"$"») =
  Some (Seq Bol ((if start then Seq (start_re opts) else id) (Seq nonempty_re (wilds_regex ws)))).
Proof.
  intros Hw. rewrite <- !app_assoc. change «"$"» with [36%N].
  set (Q := concat (map wild_re ws) ++ [36%N]).
  pose proof (wilds_no_quantifier ws Hw) as HQ. fold Q in HQ.
  set (N := «"(?=.)"» ++ Q). set (P := (if start then start_string opts else []) ++ N).
  assert (7 + length ws <= length («"^"» ++ P)) as Hlen.
  { pose proof (concat_wild_length ws). unfold P, N, Q. rewrite !length_app.
    change (length «"^"») with 1. change (length «"(?=.)"») with 5.
    change (length [36%N]) with 1. lia. }
  assert (exists u, N = 40%N :: u) as [u Hu] by (eexists; reflexivity).
  assert (no_quantifier N) as HN by (rewrite Hu; intros c [= <-]; simpl; set_solver).
  assert (forall fuel, length ws + 13 <= fuel ->
    read_terms fuel N = Some (Seq nonempty_re (wilds_regex ws), [])) as Hrest.
  { intros fuel Hf. destruct fuel as [|fuel]; [lia|].
    apply (read_terms_first _ _ _ Q); [by exists 40%N, u|apply read_nonempty; [lia|done]|].
    apply read_wilds; [done|lia]. }
  apply RegExp_terms. remember (3 * length («"^"» ++ P)) as f eqn:Ef.
  apply (read_terms_first _ _ _ P).
  - by exists 94%N, P.
  - apply read_bol. lia.
  - unfold P. destruct start; [|by apply Hrest; lia].
    apply (read_terms_first _ _ _ N); [|apply read_start; [lia|done]|apply Hrest; lia].
    unfold start_string. destruct (dot opts); eexists 40%N, _; by split; [reflexivity|].
Qed.

(** *** Matching *)

Section Reach.
Variable s : jsstr.
Let reach (r : regex) (i : nat) : Prop := ends id r s i <> [].

Lemma concat_map_nonempty {A B} (f : A -> list B) l :
  concat (map f l) <> [] <-> exists x, x ∈ l /\ f x <> [].
Proof.
  induction l as [|x l IH]; simpl.
  { split; [done|]. intros (x & Hx & _). by apply elem_of_nil in Hx. }
  split.
  - intros H. destruct (f x) eqn:E; [|exists x; split; [by left|congruence]].
    apply IH in H as (y & ? & ?). exists y. split; [by right|done].
  - intros (y & Hy & Hf) E. apply app_eq_nil in E as [E1 E2].
    apply elem_of_cons in Hy as [->|Hy]; [done|]. apply IH; eauto.
Qed.

Lemma reach_seq r1 r2 i : reach (Seq r1 r2) i <-> exists j, j ∈ ends id r1 s i /\ reach r2 j.
Proof. unfold reach. cbn [ends]. apply concat_map_nonempty. Qed.

Lemma reach_chr c r i : reach (Seq (Chr c) r) i <-> s !! i = Some c /\ reach r (S i).
Proof.
  rewrite reach_seq. cbn [ends]. destruct (s !! i) as [d|]; [|set_solver].
  unfold same_char, id. destruct (N.eqb_spec c d) as [->|Hne].
  - split; [intros (j & ->%list_elem_of_singleton & ?); done|]. intros [_ ?]. exists (S i). set_solver.
  - split; [set_solver|]. by intros [[= ->] _].
Qed.

Lemma ends_not_slash i :
  ends id not_slash_re s i =
    match s !! i with Some d => if (d =? 47)%N then [] else [S i] | None => [] end.
Proof.
  unfold not_slash_re. cbn [ends]. destruct (s !! i) as [d|]; [|done].
  cbn [existsb item_has]. unfold same_char, id. rewrite orb_false_r. by destruct (d =? 47)%N.
Qed.

Lemma reach_not_slash r i :
  reach (Seq not_slash_re r) i <-> exists c, s !! i = Some c /\ c <> 47%N /\ reach r (S i).
Proof.
  rewrite reach_seq, ends_not_slash. destruct (s !! i) as [d|]; [|set_solver].
  destruct (N.eqb_spec d 47) as [->|Hne]; [set_solver|]. split.
  - intros (j & ->%list_elem_of_singleton & ?). eauto.
  - intros (c & [= ->] & _ & ?). exists (S i). set_solver.
Qed.

(** The loop of a repetition of [[^/]]. *)
Lemma repeat_not_slash r fuel i :
  length s - i <= fuel ->
  (exists j, j ∈ repeat_from (ends id not_slash_re s) fuel i /\ reach r j) <->
  (reach r i \/ exists c, s !! i = Some c /\ c <> 47%N /\
     exists j, j ∈ repeat_from (ends id not_slash_re s) (pred fuel) (S i) /\ reach r j).
Proof.
  intros Hf. destruct fuel as [|fuel].
  - cbn [repeat_from]. assert (s !! i = None) as Hi by (apply lookup_ge_None_2; lia). split.
    + intros (j & ->%list_elem_of_singleton & ?). by left.
    + intros [?|(c & ? & _)]; [exists i; set_solver|congruence].
  - cbn [repeat_from pred]. rewrite ends_not_slash. split.
    + intros (j & [->|Hj]%elem_of_cons & Hr); [by left|right].
      destruct (s !! i) as [c|]; [|set_solver]. destruct (N.eqb_spec c 47); [set_solver|].
      simpl in Hj. rewrite decide_True, app_nil_r in Hj by lia. eauto 10.
    + intros [Hr|(c & Hc & Hne & j & Hj & Hr)]; [exists i; set_solver|].
      exists j. split; [|done]. rewrite Hc. apply N.eqb_neq in Hne. rewrite Hne. simpl.
      rewrite decide_True, app_nil_r by lia. set_solver.
Qed.

Lemma reach_many r i :
  reach (Seq (Rep not_slash_re 0 None) r) i <->
  (exists j, j ∈ repeat_from (ends id not_slash_re s) (length s) i /\ reach r j).
Proof. rewrite reach_seq. cbn [ends iterate map concat]. by rewrite app_nil_r. Qed.

Lemma drop_lookup i c : s !! i = Some c -> drop i s = c :: drop (S i) s.
Proof. apply drop_S. Qed.

Lemma wild_match_many ws i fuel :
  (forall j, j <= length s -> reach (wilds_regex ws) j <-> wild_match ws (drop j s)) ->
  i <= length s -> length s - i <= fuel ->
  (exists j, j ∈ repeat_from (ends id not_slash_re s) fuel i /\ reach (wilds_regex ws) j) <->
  wild_match (WMany :: ws) (drop i s).
Proof.
  intros IH. revert i. induction fuel as [|fuel IHf]; intros i Hi Hf;
    rewrite repeat_not_slash by done; cbn [pred].
  - assert (i = length s) as -> by lia. rewrite IH by lia. rewrite drop_all. split.
    + intros [H|(c & Hc & _)]; [by constructor|]. apply lookup_lt_Some in Hc. lia.
    + inversion 1; subst. by left.
  - rewrite IH by lia. split.
    + intros [H|(c & Hc & Hne & Hj)]; [by constructor|].
      rewrite (drop_lookup i c) by done. apply wild_more; [done|]. apply lookup_lt_Some in Hc as Hl.
      apply IHf; [lia|lia|done].
    + inversion 1 as [| | |ws' s' Hm|c ws' s' Hne Hm E1 E2]; subst; [by left|].
      right. exists c. assert (s !! i = Some c) as Hc.
      { rewrite <- (Nat.add_0_r i), <- lookup_drop, <- E2. done. }
      split_and!; [done|done|]. apply lookup_lt_Some in Hc as Hl. apply IHf; [lia|lia|].
      rewrite (drop_lookup i c) in E2 by done. by injection E2 as ->.
Qed.

Lemma reach_wilds ws i :
  i <= length s -> reach (wilds_regex ws) i <-> wild_match ws (drop i s).
Proof.
  revert i. induction ws as [|w ws IH]; intros i Hi; cbn [wilds_regex foldr].
  - unfold reach. cbn [ends]. case_decide as E.
    + subst. rewrite drop_all. split; [constructor|done].
    + split; [done|]. assert (drop i s <> []) as Hne.
      { intros E'%(f_equal length). rewrite length_drop in E'. simpl in E'. lia. }
      inversion 1; congruence.
  - fold (wilds_regex ws). destruct w as [c| |]; cbn [wild_regex].
    + rewrite reach_chr. split.
      * intros [Hc Hr]. rewrite (drop_lookup i c) by done. constructor.
        apply lookup_lt_Some in Hc as Hl. by apply IH; [lia|].
      * inversion 1 as [|c' ws' s' Hm E1 E2| | |]; subst. assert (s !! i = Some c) as Hc.
        { rewrite <- (Nat.add_0_r i), <- lookup_drop, <- E2. done. }
        split; [done|]. apply lookup_lt_Some in Hc as Hl. apply IH; [lia|].
        rewrite (drop_lookup i c) in E2 by done. by injection E2 as ->.
    + rewrite reach_not_slash. split.
      * intros (c & Hc & Hne & Hr). rewrite (drop_lookup i c) by done. constructor; [done|].
        apply lookup_lt_Some in Hc as Hl. by apply IH; [lia|].
      * inversion 1 as [| |c ws' s' Hne Hm E1 E2| |]; subst. exists c. assert (s !! i = Some c) as Hc.
        { rewrite <- (Nat.add_0_r i), <- lookup_drop, <- E2. done. }
        split_and!; [done|done|]. apply lookup_lt_Some in Hc as Hl. apply IH; [lia|].
        rewrite (drop_lookup i c) in E2 by done. by injection E2 as ->.
    + rewrite reach_many. apply wild_match_many; [done|done|lia].
Qed.
End Reach.

(** What a leading wildcard does not match: hidden names or, with [dot], the
    names [.] and [..]. *)
Definition hidden (opts : options) (f : jsstr) : bool :=
  if dot opts then bool_decide (f = «"."» \/ f = «".."») else bool_decide (head f = Some 46%N).

Lemma wild_match_no_slash ws f : wild_match ws f -> forallb literal ws = true -> 47%N ∉ f.
Proof.
  induction 1 as [|c ws s H IH|c ws s Hc H IH|ws s H IH|c ws s Hc H IH]; simpl;
    rewrite ?andb_true_iff; intros Hl; destruct_and? Hl; [set_solver| | |by apply IH|].
  - assert (c <> 47%N) by (by apply (glob_char_spec c), negb_true_iff). set_solver.
  - set_solver.
  - apply not_elem_of_cons. split; [done|]. apply IH. by simpl.
Qed.

Lemma ends_look neg r s i : ends id (Look neg r) s i = if xorb neg (bool_decide (ends id r s i <> [])) then [i] else [].
Proof. done. Qed.

Lemma reach_look neg r1 r s i :
  ends id (Seq (Look neg r1) r) s i <> [] <->
  xorb neg (bool_decide (ends id r1 s i <> [])) = true /\ ends id r s i <> [].
Proof.
  rewrite reach_seq, ends_look. destruct (xorb _ _).
  - split; [intros (j & ->%list_elem_of_singleton & ?); done|]. intros [_ ?]. exists i. set_solver.
  - split; [intros (j & ?%elem_of_nil & ?); done|]. by intros [? _].
Qed.

Lemma reach_nonempty r s i :
  ends id (Seq nonempty_re r) s i <> [] <->
  (exists c, s !! i = Some c /\ is_line_end c = false) /\ ends id r s i <> [].
Proof.
  unfold nonempty_re. rewrite reach_look. apply and_iff_compat_r. cbn [xorb ends].
  destruct (s !! i) as [c|]; [|simpl; naive_solver].
  destruct (is_line_end c) eqn:E; simpl; split; (naive_solver || intros (? & [= <-] & ?); congruence).
Qed.

Lemma ends_chr c s i : ends id (Chr c) s i = if decide (s !! i = Some c) then [S i] else [].
Proof.
  cbn [ends]. destruct (s !! i) as [d|]; [|done]. unfold same_char, id.
  destruct (N.eqb_spec c d) as [->|Hne]; [by rewrite decide_True|by rewrite decide_False by congruence].
Qed.

(** One or two dots, and what follows. *)
Lemma reach_dots r s i :
  ends id (Seq (Rep (Chr 46) 1 (Some 2)) r) s i <> [] <->
  s !! i = Some 46%N /\
  (ends id r s (S i) <> [] \/ s !! S i = Some 46%N /\ ends id r s (S (S i)) <> []).
Proof.
  rewrite reach_seq.
  assert (ends id (Rep (Chr 46) 1 (Some 2)) s i =
    if decide (s !! i = Some 46%N) then S i :: (if decide (s !! S i = Some 46%N) then [S (S i)] else [])
    else []) as ->.
  { change (ends id (Rep (Chr 46) 1 (Some 2)) s i) with
      (concat (map (repeat_from (ends id (Chr 46) s) 1) (concat (map (fun j => [j]) (ends id (Chr 46) s i))))).
    rewrite ends_chr. case_decide; [|done]. cbn [map concat app repeat_from].
    rewrite ends_chr. case_decide; [|done]. cbn [map concat app]. by rewrite decide_True by lia. }
  case_decide as E; [|set_solver]. split.
  - intros (j & [->|Hj]%elem_of_cons & Hr); [by auto|]. case_decide; [|set_solver].
    apply list_elem_of_singleton in Hj as ->. auto.
  - intros [_ [Hr|[Hd Hr]]]; [exists (S i); set_solver|]. exists (S (S i)).
    rewrite decide_True by done. set_solver.
Qed.

Lemma no_slash_lookup (s : jsstr) (i : nat) : 47%N ∉ s -> s !! i <> Some 47%N.
Proof. intros Hs H%list_elem_of_lookup_2. done. Qed.

Lemma reach_end_or_slash s i :
  47%N ∉ s -> ends id (Seq (Alt (Seq Eol Nothing) (Seq (Chr 47) Nothing)) Nothing) s i <> [] <-> i = length s.
Proof.
  intros Hs. rewrite reach_seq.
  change (ends id (Alt (Seq Eol Nothing) (Seq (Chr 47) Nothing)) s i) with
    (concat (map (fun j => [j]) (ends id Eol s i)) ++ concat (map (fun j => [j]) (ends id (Chr 47) s i))).
  rewrite ends_chr, decide_False by (by apply no_slash_lookup). cbn [ends]. case_decide; simpl; [|set_solver].
  split; [done|]. intros _. exists i. split; [set_solver|done].
Qed.

Lemma reach_start_or_slash r s :
  47%N ∉ s -> ends id (Seq (Alt (Seq Bol Nothing) (Seq (Chr 47) Nothing)) r) s 0 <> [] <-> ends id r s 0 <> [].
Proof.
  intros Hs. rewrite reach_seq.
  change (ends id (Alt (Seq Bol Nothing) (Seq (Chr 47) Nothing)) s 0) with
    ([0] ++ concat (map (fun j => [j]) (ends id (Chr 47) s 0))).
  rewrite ends_chr, decide_False by (by apply no_slash_lookup). simpl. split.
  - intros (j & ->%list_elem_of_singleton & ?). done.
  - intros ?. exists 0. split; [set_solver|done].
Qed.

Lemma reach_start opts r s :
  47%N ∉ s ->
  ends id (Seq (start_re opts) r) s 0 <> [] <-> hidden opts s = false /\ ends id r s 0 <> [].
Proof.
  intros Hs. unfold start_re, hidden. destruct (dot opts); rewrite reach_look; apply and_iff_compat_r;
    rewrite xorb_true_l, negb_true_iff, !bool_decide_eq_false.
  - rewrite reach_start_or_slash, reach_dots, !reach_end_or_slash by done.
    change «"."» with [46%N]. change «".."» with [46; 46]%N. f_equiv.
    destruct s as [|a [|b [|c s]]]; simpl; naive_solver lia.
  - rewrite (reach_chr s). rewrite head_lookup. f_equiv. split; [by intros [? _]|]. done.
Qed.

Lemma regex_test_bol r s : regex_test id (Seq Bol r) s = bool_decide (ends id r s 0 <> []).
Proof.
  unfold regex_test. cbn [seq existsb].
  assert (existsb (fun i => bool_decide (ends id (Seq Bol r) s i <> [])) (seq 1 (length s)) = false) as ->.
  { apply not_true_is_false. rewrite existsb_exists. intros (i & Hi%in_seq & H).
    apply bool_decide_eq_true, reach_seq in H as (j & Hj & _). cbn [ends] in Hj.
    rewrite decide_False in Hj by lia. by apply elem_of_nil in Hj. }
  rewrite orb_false_r. apply bool_decide_ext. rewrite reach_seq. split.
  - intros (j & ->%list_elem_of_singleton & ?). done.
  - intros ?. exists 0. split; [apply list_elem_of_singleton; done|done].
Qed.

(** A part without wildcards is the literal text. *)
Lemma wild_match_text ws f :
  existsb wildcard ws = false -> wild_match ws f <-> f = map print_wild ws.
Proof.
  revert f. induction ws as [|w ws IH]; intros f; simpl.
  { intros _. split; [by inversion 1|intros ->; constructor]. }
  rewrite orb_false_iff. intros [Hw Hws]. destruct w as [c| |]; [|done|done]. simpl. split.
  - inversion 1; subst. f_equal. by apply IH.
  - intros ->. constructor. by apply IH.
Qed.

Lemma globUnescape_plain s : bslash ∉ s -> globUnescape s = s.
Proof.
  induction s as [|c s IH]; intros Hs; [done|]. destruct s as [|d s]; [done|].
  change (globUnescape (c :: d :: s)) with
    (if decide (c = bslash /\ is_line_end d = false) then d :: globUnescape s
     else c :: globUnescape (d :: s)).
  rewrite decide_False by set_solver. f_equal. apply IH. set_solver.
Qed.

Lemma wild_no_backslash ws : forallb literal ws = true -> bslash ∉ map print_wild ws.
Proof.
  induction ws as [|w ws IH]; simpl; [set_solver|]. rewrite andb_true_iff. intros [Hw Hws].
  apply not_elem_of_cons. split; [|by apply IH]. destruct w as [c| |]; [|done|done].
  apply negb_true_iff, glob_char_spec in Hw. naive_solver.
Qed.

Section WildParts.
Variable toLowerCase : jsstr -> jsstr.
Variable canonicalize : N -> N.

(** When the translated part hits a name. *)
Definition wild_hit (opts : options) (ws : list wild) (f : jsstr) : Prop :=
  wild_match ws f /\
  (existsb wildcard ws = true -> exists c, f !! 0 = Some c /\ is_line_end c = false) /\
  (match ws with w :: _ => wildcard w | [] => false end = true -> hidden opts f = false).

Lemma parse_wild_hit (opts : options) (ws : list wild) :
  nocase opts = false -> forallb literal ws = true -> ws <> [] ->
  (N.of_nat (length ws) <= 65536)%N -> map print_wild ws <> «"**"» ->
  exists p, parse opts (map print_wild ws) = Part p /\ p <> Globstar /\
    forall f, part_hit toLowerCase canonicalize opts p f = true <-> wild_hit opts ws f.
Proof.
  unfold wild_hit. intros Hn Hw Hne Hlen Hgs. unfold parse.
  rewrite decide_False by (rewrite length_map; lia). rewrite decide_False by naive_solver.
  rewrite decide_False by (by destruct ws).
  rewrite parse_re_wild by done. cbv zeta. destruct (existsb wildcard ws) eqn:Em.
  - set (start := match ws with w :: _ => wildcard w | [] => false end).
    assert ((if start then patternStart opts (map print_wild ws) else []) =
            if start then start_string opts else []) as ->.
    { unfold start. destruct ws as [|[c| |] ws]; done. }
    rewrite RegExp_wild by done. eexists. split; [done|]. split; [done|]. intros f.
    unfold part_hit, flag_i. rewrite Hn, regex_test_bol, bool_decide_eq_true.
    assert (forall g, ends id (Seq nonempty_re (wilds_regex ws)) g 0 <> [] <->
      (exists c, g !! 0 = Some c /\ is_line_end c = false) /\ wild_match ws g) as Hbody.
    { intros g. rewrite reach_nonempty. rewrite (reach_wilds g ws 0) by lia. by rewrite drop_0. }
    destruct start.
    + destruct (decide (47%N ∈ f)) as [Hs|Hs].
      * split; [|intros [Hm _]; by destruct (wild_match_no_slash ws f)].
        intros H. apply reach_seq in H as (j & Hj & H). unfold start_re in Hj.
        assert (j = 0) as ->. { destruct (dot opts); rewrite ends_look in Hj; case_match; set_solver. }
        apply Hbody in H as [_ Hm]. by destruct (wild_match_no_slash ws f).
      * rewrite reach_start, Hbody by done. naive_solver.
    + cbn [id]. unfold id. rewrite Hbody. naive_solver.
  - assert (match ws with w :: _ => wildcard w | [] => false end = false) as ->.
    { destruct ws as [|w ws]; [done|]. simpl in Em. by apply orb_false_iff in Em as [? _]. }
    eexists. split; [done|]. split; [done|]. intros f. unfold part_hit. rewrite Hn, bool_decide_eq_true.
    rewrite globUnescape_plain by (by apply wild_no_backslash).
    rewrite wild_match_text by done. naive_solver.
Qed.

(** A part written with literal characters, [?] and [*] matches a name just
    as the wildcards say: the translation into a regular expression, its
    compilation and its matching together implement the reference matcher.
    With a wildcard in the part the name must not be empty (nor start with a
    line terminator, which the guard of the regular expression does not see),
    and if the wildcard comes first, the name must not be hidden. *)
Theorem wildcard_part_matches (opts : options) (ws : list wild) :
  nocase opts = false -> forallb literal ws = true -> ws <> [] ->
  (N.of_nat (length ws) <= 65536)%N -> map print_wild ws <> «"**"» ->
  exists p, parse opts (map print_wild ws) = Part p /\ p <> Globstar /\
    forall f, part_hit toLowerCase canonicalize opts p f = true <-> wild_hit opts ws f.
Proof. apply parse_wild_hit. Qed.

(** [matchOne] decides the declarative relation on paths: one segment per
    part, and any number of segments that may be swallowed for each [**]. *)
Theorem matchOne_correct (opts : options) (pattern : list part) (file : list jsstr) :
  matchOne toLowerCase canonicalize opts pattern file false = true <->
  path_match toLowerCase canonicalize opts pattern file.
Proof. apply matchOne_path_match. Qed.

(** Partial matching never cuts off a traversal: if a path matches, then
    every directory on the way to it matches partially. *)
Theorem partial_match_complete (opts : options) (pattern : list part) (dir rest : list jsstr) :
  matchOne toLowerCase canonicalize opts pattern (dir ++ rest) false = true ->
  matchOne toLowerCase canonicalize opts pattern dir true = true.
Proof. apply matchOne_partial. Qed.
End WildParts.

(** ** Whole patterns

    A path pattern without braces, negation or comments: names with wildcards
    and [**], separated by slashes. *)
Inductive comp := Stars | Name (ws : list wild).

Definition print_comp (x : comp) : jsstr :=
  match x with Stars => «"**"» | Name ws => map print_wild ws end.

(** Characters that mean themselves anywhere in a pattern. *)
Definition plain_char (c : N) : bool :=
  negb (glob_char c) && negb (is_js_space c) && negb (bool_decide (c ∈ «"{#"»)).

Definition comp_ok (x : comp) : Prop :=
  match x with
  | Stars => True
  | Name ws =>
      Forall (fun w => match w with WLit c => plain_char c = true | _ => True end) ws /\ ws <> [] /\
      (N.of_nat (length ws) <= 65536)%N /\ map print_wild ws <> «"**"»
  end.

Inductive glob_match (opts : options) : list comp -> list jsstr -> Prop :=
| glob_end : glob_match opts [] []
| glob_trailing_slash : glob_match opts [] [[]]
| glob_name ws xs f fs :
    wild_hit opts ws f -> glob_match opts xs fs -> glob_match opts (Name ws :: xs) (f :: fs)
| glob_skip xs fs : xs <> [] -> glob_match opts xs fs -> glob_match opts (Stars :: xs) fs
| glob_swallow xs f fs :
    swallows opts f = true -> glob_match opts (Stars :: xs) fs -> glob_match opts (Stars :: xs) (f :: fs)
| glob_last f : swallows opts f = true -> glob_match opts [Stars] [f].

(** ** Splitting at slashes *)

Lemma split_slashes_ne b s : split_slashes_go b s <> [].
Proof.
  revert b. induction s as [|c s IH]; intros b; cbn [split_slashes_go]; [done|].
  case_decide; [destruct b; [apply IH|done]|]. by destruct (split_slashes_go false s).
Qed.

Lemma split_slashes_segment (b : bool) s t :
  47%N ∉ s -> s <> [] -> split_slashes_go b (s ++ t) =
    match split_slashes_go false t with w :: ws => (s ++ w) :: ws | [] => [s ++ t] end.
Proof.
  intros Hs Hne. destruct s as [|c s]; [done|]. clear Hne. revert b c Hs.
  induction s as [|d s IH]; intros b c Hs; cbn [app split_slashes_go]; rewrite decide_False by set_solver.
  - pose proof (split_slashes_ne false t). by destruct (split_slashes_go false t).
  - cbn [app split_slashes_go] in IH. rewrite (IH false d) by set_solver.
    by destruct (split_slashes_go false t).
Qed.

Lemma slashSplit_join ss (b : bool) :
  ss <> [] -> Forall (fun s => (47%N ∉ s) /\ s <> []) ss -> split_slashes_go b (join [47%N] ss) = ss.
Proof.
  intros Hne Hall. revert b. induction Hall as [|s ss [Hs Hs'] Hall IH]; [done|]. intros b.
  destruct ss as [|t ss].
  - cbn [join]. rewrite <- (app_nil_r s) at 1. rewrite split_slashes_segment by done. cbn.
    by rewrite app_nil_r.
  - rewrite join_cons. cbn [app]. rewrite split_slashes_segment by done.
    cbn [split_slashes_go]. rewrite decide_True by done. rewrite IH by done. by rewrite app_nil_r.
Qed.

Section Paths.
Variables rSlash rOpen rClose rComma rPeriod : jsstr.
Variable toLowerCase : jsstr -> jsstr.
Variable canonicalize : N -> N.
Variable opts : options.
Hypothesis case_sensitive : nocase opts = false.
Hypothesis globstars : noglobstar opts = false.

Lemma plain_literals ws :
  Forall (fun w => match w with WLit c => plain_char c = true | _ => True end) ws ->
  forallb literal ws = true.
Proof.
  induction 1 as [|w ws Hw Hws IH]; [done|]. simpl. rewrite IH, andb_true_r.
  destruct w as [c| |]; [|done|done]. unfold plain_char in Hw. rewrite !andb_true_iff in Hw. by destruct Hw as [[? _] _].
Qed.

(** What [parse] makes of a component. *)
Definition compiled (x : comp) (p : part) : Prop :=
  match x with
  | Stars => p = Globstar
  | Name ws => p <> Globstar /\
      forall f, part_hit toLowerCase canonicalize opts p f = true <-> wild_hit opts ws f
  end.

Lemma parse_parts_comps xs :
  Forall comp_ok xs ->
  exists ps, parse_parts opts (map print_comp xs) = Some (Some ps) /\ Forall2 compiled xs ps.
Proof.
  induction 1 as [|x xs Hx Hxs (ps & Hps & Hc)]; [by exists []|]. cbn [map parse_parts].
  assert (exists p, parse opts (print_comp x) = Part p /\ compiled x p) as (p & -> & Hp).
  { destruct x as [|ws].
    - exists Globstar. split; [|done]. unfold parse. rewrite decide_False by done.
      by rewrite decide_True.
    - destruct Hx as (H1 & H2 & H3 & H4).
      destruct (parse_wild_hit toLowerCase canonicalize opts ws) as (p & ? & ? & ?);
        [done|by apply plain_literals|done..|]. exists p. done. }
  rewrite Hps. exists (p :: ps). split; [done|by constructor].
Qed.

Lemma compiled_path_match xs ps fs :
  Forall2 compiled xs ps ->
  path_match toLowerCase canonicalize opts ps fs <-> glob_match opts xs fs.
Proof.
  intros Hc. split.
  - intros H. revert xs Hc. induction H as [| |p ps f fs Hp Hh H IH|ps fs Hps H IH|ps f fs Hs H IH|f Hs];
      intros xs Hc; inversion Hc as [|x p' xs' ps' Hx Hxs]; subst; try constructor.
    + destruct x; [done|]. destruct Hx as [_ Hx]. constructor; [by apply Hx|by apply IH].
    + destruct x as [|ws]; [|by destruct Hx]. apply glob_skip; [intros ->; by inversion Hxs|by apply IH].
    + destruct x as [|ws]; [|by destruct Hx]. apply glob_swallow; [done|]. apply IH. by constructor.
    + destruct x as [|ws]; [|by destruct Hx]. inversion Hxs; subst. by apply glob_last.
  - intros H. revert ps Hc. induction H as [| |ws xs f fs Hh H IH|xs fs Hne H IH|xs f fs Hs H IH|f Hs];
      intros ps Hc; inversion Hc as [|x p xs' ps' Hx Hxs]; subst;
      [constructor|constructor| |simpl in Hx; subst..].
    + destruct Hx as [Hx1 Hx2]. constructor; [done|by apply Hx2|by apply IH].
    + apply match_skip; [intros ->; by inversion Hxs|by apply IH].
    + apply match_swallow; [done|]. apply IH. by constructor.
    + inversion Hxs; subst. by apply match_last.
Qed.

(** Characters of a printed pattern. *)
Definition pattern_char (c : N) : Prop := plain_char c = true \/ c = 42%N \/ c = 63%N.

Lemma print_comp_chars x : comp_ok x -> Forall pattern_char (print_comp x) /\ print_comp x <> [].
Proof.
  destruct x as [|ws]; cbn [print_comp comp_ok].
  - intros _. split; [|done]. change «"**"» with [42; 42]%N. unfold pattern_char. by rewrite !Forall_cons; auto.
  - intros (H1 & H2 & _). split; [|by destruct ws]. apply Forall_fmap. eapply Forall_impl; [exact H1|].
    intros [c| |] Hc; unfold compose, pattern_char; simpl; auto.
Qed.

Lemma pattern_char_spec c :
  pattern_char c -> is_js_space c = false /\ c <> 47%N /\ c <> 33%N /\ c <> 35%N /\ c <> lbrace.
Proof.
  intros [H|[->| ->]]; [|done..]. unfold plain_char in H. rewrite !andb_true_iff, !negb_true_iff in H.
  destruct H as [[Hg Hs] Hb]. unfold glob_char in Hg. apply bool_decide_eq_false in Hg, Hb.
  simpl in Hg, Hb. unfold lbrace. split; [done|]. set_solver.
Qed.

Lemma join_forall (P : N -> Prop) sep ss :
  Forall P sep -> Forall (Forall P) ss -> Forall P (join sep ss).
Proof.
  intros Hsep. induction 1 as [|s ss Hs Hss IH]; [constructor|].
  destruct ss as [|t ss]; [done|]. rewrite join_cons. rewrite !Forall_app. done.
Qed.

Lemma trim_left_id s : Forall (fun c => is_js_space c = false) s -> trim_left s = s.
Proof. destruct 1 as [|c s Hc Hs]; [done|]. simpl. by rewrite Hc. Qed.

Lemma js_trim_id s : Forall (fun c => is_js_space c = false) s -> js_trim s = s.
Proof.
  intros H. unfold js_trim. rewrite (trim_left_id s) by done.
  rewrite trim_left_id by (by apply Forall_rev). apply rev_involutive.
Qed.

Lemma has_braces_none s : lbrace ∉ s -> has_braces s = false.
Proof.
  induction s as [|c s IH]; [done|]. intros H. cbn [has_braces].
  rewrite bool_decide_false by set_solver. apply IH. set_solver.
Qed.

(** C18. On patterns of names with wildcards and [**] between slashes,
    [minimatch] decides the reference relation on the segments of the path:
    splitting, translation, compilation and matching compose correctly.  The
    options nocase, noglobstar and matchBase are off, as by default. *)
Theorem minimatch_paths (xs : list comp) (f : jsstr) :
  xs <> [] -> Forall comp_ok xs -> matchBase opts = false ->
  exists b, minimatch rSlash rOpen rClose rComma rPeriod toLowerCase canonicalize f
              (join [47%N] (map print_comp xs)) opts = Returns b /\
    (b = true <-> glob_match opts xs (slashSplit f)).
Proof.
  intros Hne Hok Hmb. set (P := join [47%N] (map print_comp xs)).
  assert (Forall (fun c => pattern_char c \/ c = 47%N) P) as HP.
  { apply join_forall; [constructor; [by right|done]|]. apply Forall_fmap. eapply Forall_impl; [exact Hok|].
    intros x [Hx _]%print_comp_chars. unfold compose. eapply Forall_impl; [exact Hx|]. by left. }
  assert (slashSplit P = map print_comp xs) as Hsplit.
  { apply slashSplit_join; [by destruct xs|]. apply Forall_fmap. eapply Forall_impl; [exact Hok|].
    intros x [Hx Hx']%print_comp_chars. split; [|done]. rewrite Forall_forall in Hx.
    intros Hin%Hx. by apply pattern_char_spec in Hin as (_ & ? & _). }
  assert (exists c s, P = c :: s /\ pattern_char c) as (c & s & EP & Hc).
  { destruct xs as [|x xs]; [done|]. apply Forall_cons in Hok as [Hx _].
    apply print_comp_chars in Hx as [Hx Hx']. unfold P. cbn [map].
    destruct (print_comp x) as [|c s]; [done|]. apply Forall_cons in Hx as [Hc _].
    destruct (map print_comp xs); eexists _, _; (split; [reflexivity|done]). }
  assert (js_trim P = P) as Htrim.
  { apply js_trim_id. eapply Forall_impl; [exact HP|].
    intros d [Hd%pattern_char_spec| ->]; [by destruct Hd|done]. }
  apply pattern_char_spec in Hc as (_ & _ & Hbang & Hhash & _).
  assert (head P <> Some 35%N) as Hhead by (rewrite EP; simpl; congruence).
  unfold minimatch. rewrite decide_False by naive_solver. rewrite Htrim.
  rewrite decide_False by (by rewrite EP). unfold new_Minimatch. rewrite Htrim.
  rewrite decide_False by naive_solver. rewrite decide_False by (by rewrite EP).
  assert (parseNegate opts P = (false, P)) as ->.
  { unfold parseNegate. destruct (nonegate opts); [done|]. rewrite EP. simpl. by rewrite decide_False. }
  assert (braceExpand rSlash rOpen rClose rComma rPeriod opts P = Value [P]) as ->.
  { unfold braceExpand. rewrite has_braces_none; [by rewrite orb_true_r|].
    rewrite Forall_forall in HP. intros [Hd%pattern_char_spec|?]%HP; [naive_solver|done]. }
  destruct (parse_parts_comps xs Hok) as (ps & Hps & Hcomp).
  cbn [mapM]. rewrite Hsplit, Hps. cbn [mbind option_bind mret option_ret omap list_omap id].
  eexists. split; [reflexivity|]. unfold match_. cbn [m_comment m_empty m_options m_set m_negate].
  rewrite decide_False by naive_solver. rewrite Hmb. cbn [existsb].
  rewrite (decide_False (P := false = true /\ length ps = 1)) by naive_solver. rewrite orb_false_r.
  rewrite <- (compiled_path_match xs ps) by done. rewrite <- matchOne_path_match.
  destruct (matchOne _ _ _ _ _ _), (flipNegate opts); done.
Qed.
End Paths.

(** ** Instances *)

(** The pattern [*.js]. *)
Definition star_js : list wild := [WMany; WLit 46; WLit 106; WLit 115].

Lemma wildcard_part_matches_witness :
  exists p, parse no_options «"*.js"» = Part p /\ p <> Globstar /\
    forall f, part_hit id id no_options p f = true <-> wild_hit no_options star_js f.
Proof.
  apply (wildcard_part_matches id id no_options star_js).
  - reflexivity.
  - reflexivity.
  - discriminate.
  - vm_compute. discriminate.
  - vm_compute. discriminate.
Defined.

(** The pattern [a/**/*.js] as a list of parts. *)
Definition sample_comps : list comp := [Name [WLit 97]; Stars; Name star_js].

Definition sample_parts : list part :=
  match parse_parts no_options (map print_comp sample_comps) with Some (Some ps) => ps | _ => [] end.

Lemma partial_match_complete_witness :
  matchOne id id no_options sample_parts ([«"a"»; «"b"»] ++ [«"c"»; «"x.js"»]) false = true /\
  matchOne id id no_options sample_parts [«"a"»; «"b"»] true = true.
Proof.
  assert (matchOne id id no_options sample_parts ([«"a"»; «"b"»] ++ [«"c"»; «"x.js"»]) false = true)
    as H by (vm_compute; reflexivity).
  split; [exact H|exact (partial_match_complete id id no_options sample_parts _ _ H)].
Defined.

Lemma minimatch_paths_witness :
  exists b, minimatch «"1"» «"2"» «"3"» «"4"» «"5"» id id «"a/b/x.js"» «"a/**/*.js"» no_options = Returns b /\
    (b = true <-> glob_match no_options sample_comps (slashSplit «"a/b/x.js"»)).
Proof.
  apply (minimatch_paths «"1"» «"2"» «"3"» «"4"» «"5"» id id no_options eq_refl eq_refl
    sample_comps «"a/b/x.js"»).
  - discriminate.
  - repeat constructor; vm_compute; discriminate.
  - reflexivity.
Defined.

(** A bracket that is left open at the end of a part is translated through a
    recursive call on the empty string, whose result is not the pair that the
    caller reads: the word [undefined] ends up in the regular expression. *)
Example open_bracket_undefined :
  let mm p := minimatch «"1"» «"2"» «"3"» «"4"» «"5"» id id p «"*["» no_options in
  mm «"x["» = Returns false /\ mm «"x[undefined"» = Returns true.
Proof. split; vm_compute; reflexivity. Qed.

(** An escaped at-sign leaves the translation in its escaping state, so that a
    backslash is expected at the end. *)
Example escaped_at_sign :
  let mm p := minimatch «"1"» «"2"» «"3"» «"4"» «"5"» id id p «"*\@"» no_options in
  mm «"x@"» = Returns false /\ mm «"x@\"» = Returns true.
Proof. split; vm_compute; reflexivity. Qed.

(** The name that a comment in [parse] says the negative lists exclude. *)
Example negative_lists_comment :
  minimatch «"1"» «"2"» «"3"» «"4"» «"5"» id id «"a.xyz.yz"» «"*.!(x).!(y|z)"» no_options = Returns true.
Proof. vm_compute. reflexivity. Qed.

(** [ext(def, options)] gives the defaults precedence over the options of the
    call. *)
Lemma ext_defaults_win {V} (def opts : gmap string V) k v :
  def !! k = Some v -> ext def opts !! k = Some v.
Proof. intros H. unfold ext. by apply lookup_union_Some_l. Qed.

(** What [minimatch.defaults] makes: without defaults the function itself; with
    any, a function that throws on every call. *)
Theorem defaults_throw rSlash rOpen rClose rComma rPeriod toLowerCase canonicalize def p pattern o :
  minimatch_defaults rSlash rOpen rClose rComma rPeriod toLowerCase canonicalize def p pattern o =
    if decide (def = ∅) then minimatch rSlash rOpen rClose rComma rPeriod toLowerCase canonicalize p pattern (read_options o)
    else Throws.
Proof. unfold minimatch_defaults. by case_decide. Qed.

(** The class that comes with it works, and its option cannot be overridden:
    with the default [nocase] an object made with [nocase: false] ignores
    case. *)
Lemma default_option_wins rSlash rOpen rClose rComma rPeriod def pattern o m :
  Minimatch_defaults rSlash rOpen rClose rComma rPeriod def pattern o = Returns m ->
  def !! "nocase"%string = Some true -> nocase (m_options m) = true.
Proof.
  intros H Hd. unfold Minimatch_defaults in H. rewrite decide_False in H by (intros ->; by rewrite lookup_empty in Hd).
  assert (m_options m = read_options (ext def o)) as ->.
  { revert H. unfold new_Minimatch. repeat case_match; by intros [= <-]. }
  cbn. by rewrite (ext_defaults_win _ _ _ _ Hd).
Qed.

(** ** The set of a Minimatch object *)

(** What kind of part a piece of a pattern between slashes may become. *)
Definition part_of (s : jsstr) (p : part) : Prop :=
  match p with
  | Globstar => s = «"**"»
  | Text t => t = globUnescape s /\ 47%N ∉ t
  | Magic _ (Some _) g => g = Some s
  | Magic r None g => r = never /\ g = None
  end.

Lemma globUnescape_sub s c : c ∈ globUnescape s -> c ∈ s.
Proof.
  assert (forall n s, length s <= n -> c ∈ globUnescape s -> c ∈ s) as Hall; [|by apply (Hall (length s))].
  clear s. intros n. induction n as [|n IH]; intros [|d [|e s]] Hn; try done; [cbn in Hn; lia|].
  cbn [length] in Hn. cbn [globUnescape]. case_decide.
  - intros [->|Hin]%elem_of_cons; [right; by left|]. right. right. apply IH; [lia|done].
  - intros [->|Hin]%elem_of_cons; [by left|]. right. apply IH; [cbn; lia|done].
Qed.

Lemma parse_char_total opts sub pattern i c st : c <> 47%N -> is_Some (parse_char opts sub pattern i c st).
Proof.
  intros Hc. unfold parse_char. rewrite (decide_False (P := c = 47%N)) by done.
  repeat case_match; by eexists.
Qed.

Lemma parse_chars_total opts sub pattern rest i st :
  47%N ∉ rest -> is_Some (parse_chars opts sub pattern rest i st).
Proof.
  revert i st. induction rest as [|c rest IH]; intros i st Hn; cbn [parse_chars]; [by eexists|].
  apply not_elem_of_cons in Hn as [Hc Hn].
  destruct (parse_char_total opts sub pattern i c st) as [st' ->]; [done|]. by apply IH.
Qed.

Lemma parse_typed opts s p : 47%N ∉ s -> parse opts s = Part p -> part_of s p.
Proof.
  intros Hs. unfold parse. case_decide; [done|]. case_decide as Hg; [by destruct Hg as [_ ->]; intros [= <-]|].
  case_decide as He; [intros [= <-]; subst; by split|].
  destruct (parse_re opts s) as [[r []]|]; [| |done].
  - intros [= <-]. by destruct (RegExp _).
  - intros [= <-]. split; [done|]. by intros ?%globUnescape_sub.
Qed.

Lemma parse_no_slash opts s : 47%N ∉ s -> parse opts s <> ContainsSlash.
Proof.
  intros Hs. unfold parse. repeat case_decide; try done.
  assert (is_Some (parse_re opts s)) as [[r []] ->]; [|done|done].
  unfold parse_re, parse_body.
  destruct (parse_chars_total opts (subparse opts (length s)) s s 0 (initial_pstate opts)) as [st ->]; [done|]. by eexists.
Qed.

Lemma parse_parts_typed opts ss r :
  Forall (fun s => 47%N ∉ s) ss -> parse_parts opts ss = Some r -> exists ps, r = Some ps /\ Forall2 part_of ss ps.
Proof.
  intros Hall. revert r. induction Hall as [|s ss Hs Hall IH]; intros r Hp; cbn [parse_parts] in Hp.
  { injection Hp as <-. eauto. }
  pose proof (parse_no_slash opts s Hs). destruct (parse opts s) as [| |p] eqn:Ep; try done.
  destruct (parse_parts opts ss) as [r'|]; [|done]. destruct (IH r' eq_refl) as (ps & -> & Hps). injection Hp as <-.
  exists (p :: ps). split; [done|]. constructor; [|done]. by eapply parse_typed.
Qed.

Lemma split_slashes_no_slash b s : Forall (fun x => 47%N ∉ x) (split_slashes_go b s).
Proof.
  revert b. induction s as [|c s IH]; intros b; cbn [split_slashes_go]; [repeat constructor; by intros ?%elem_of_nil|].
  case_decide as Hc; [destruct b; [done|constructor; [by intros ?%elem_of_nil|done]]|].
  specialize (IH false). destruct (split_slashes_go false s) as [|w ws].
  - constructor; [|constructor]. rewrite list_elem_of_singleton. congruence.
  - apply Forall_cons in IH as [Hw Hws]. constructor; [|done]. rewrite elem_of_cons. naive_solver.
Qed.

(** The set of a Minimatch object has, for each of the patterns in
    [globSet] and at the same index, the parts of that pattern, one for each
    piece between slashes: the globstar object for two stars only, strings
    without slashes, and regular expressions that know their piece. *)
Theorem minimatch_set_typed rSlash rOpen rClose rComma rPeriod opts pattern m :
  new_Minimatch rSlash rOpen rClose rComma rPeriod opts pattern = Returns m ->
  Forall2 (fun s ps => Forall2 part_of (slashSplit s) ps) (m_globSet m) (m_set m).
Proof.
  unfold new_Minimatch. case_decide; [intros [= <-]; constructor|]. case_decide; [intros [= <-]; constructor|].
  destruct (parseNegate opts (js_trim pattern)) as [negate p]. destruct (braceExpand _ _ _ _ _ _ _) as [globSet| |]; try done.
  destruct (mapM _ globSet) as [sets|] eqn:Em; [|done]. intros [= <-]. cbn [m_globSet m_set].
  apply mapM_Some_1 in Em. induction Em as [|s r globSet sets Hs _ IH]; [constructor|].
  destruct (parse_parts_typed opts (slashSplit s) r) as (ps & -> & Hps); [apply split_slashes_no_slash|done|].
  cbn [omap list_omap id]. by constructor.
Qed.

Lemma minimatch_set_typed_witness :
  exists m, new_Minimatch «"1"» «"2"» «"3"» «"4"» «"5"» no_options «"a/{**,b*}"» = Returns m /\
    Forall2 (fun s ps => Forall2 part_of (slashSplit s) ps) (m_globSet m) (m_set m) /\
    m_globSet m = [«"a/**"»; «"a/b*"»].
Proof.
  destruct (new_Minimatch «"1"» «"2"» «"3"» «"4"» «"5"» no_options «"a/{**,b*}"») as [m| |] eqn:E;
    [|exfalso; revert E; by vm_compute..].
  exists m. split_and!; [done|exact (minimatch_set_typed _ _ _ _ _ _ _ _ E)|].
  revert E. vm_compute. intros E. injection E as <-. done.
Defined.
