(* ===== verification/GlobSync.v ===== *)
(** * glob: common and sync

    Modules 15 and 17 of wordcut.js: a pattern is compiled by minimatch and
    walked over the file system, with caches of what [lstat], [stat] and
    [readdir] returned.

    The file system is a parameter, as are the case and collation tables of
    the language; the platform is that of the bundle's process object, which is
    not Windows and whose working directory is [/]. *)

From S2P Require Import Prelude BraceExpansion Regex Minimatch NodePath.

(** ** The file system *)

Inductive ftype := File | Directory | SymbolicLink.

#[export] Instance ftype_eq_dec : EqDecision ftype.
Proof. solve_decision. Defined.

(** [er.code] *)
Inductive ecode := ENOTSUP | ENOTDIR | ENOENT | ELOOP | ENAMETOOLONG | UNKNOWN | OtherCode (c : jsstr).

#[export] Instance ecode_eq_dec : EqDecision ecode.
Proof. solve_decision. Defined.

(** [None] where the call throws; [realpathSync] throws errors of the system
    call [stat], or others. *)
Record fs := Fs {
  lstatSync : jsstr -> option ftype;
  statSync : jsstr -> option ftype;
  readdirSync : jsstr -> list jsstr + ecode;
  realpathSync : jsstr -> jsstr + bool
}.

(** ** State

    A cache entry; [Entries] is the array that [readdir] returned. *)
Inductive centry := CFalse | CTrue | CFile | CDir | Entries (l : list jsstr).

#[export] Instance centry_eq_dec : EqDecision centry.
Proof. solve_decision. Defined.

(** [matches] has for every pattern of the set the keys of an object, in the
    order in which they were added. *)
Record state := State {
  cache : gmap jsstr centry;
  statCache : gmap jsstr ftype;
  symlinks : gmap jsstr bool;
  matches : list (option (list jsstr));
  printed : list ecode                   (** history: [console.error] *)
}.

Definition set_cache (k : jsstr) (c : centry) (st : state) : state :=
  State (<[k := c]> (cache st)) (statCache st) (symlinks st) (matches st) (printed st).
Definition set_statCache (k : jsstr) (t : ftype) (st : state) : state :=
  State (cache st) (<[k := t]> (statCache st)) (symlinks st) (matches st) (printed st).
Definition set_symlinks (k : jsstr) (b : bool) (st : state) : state :=
  State (cache st) (statCache st) (<[k := b]> (symlinks st)) (matches st) (printed st).
Definition set_matches (m : list (option (list jsstr))) (st : state) : state :=
  State (cache st) (statCache st) (symlinks st) m (printed st).
Definition print_error (e : ecode) (st : state) : state :=
  State (cache st) (statCache st) (symlinks st) (matches st) (printed st ++ [e]).

(** ** Exceptions, state and fuel *)

Inductive error :=
  | FsError (e : ecode)
  | RealpathError
  | NoGlob                    (** [charAt] of an undefined [_glob] *)
  | MustProvidePattern
  | NeedsGlobstar
  | BadPattern                (** thrown by minimatch *)
  | EndlessBraces.            (** not an exception: the brace expansion loops *)

Inductive res (A : Type) := Ok (a : A) (st : state) | Threw (e : error) (st : state) | NoFuel.
Arguments Ok {A} a st.
Arguments Threw {A} e st.
Arguments NoFuel {A}.

Definition M (A : Type) : Type := state -> res A.

Definition ret {A} (a : A) : M A := fun st => Ok a st.
Definition throw {A} (e : error) : M A := fun st => Threw e st.
Definition get : M state := fun st => Ok st st.
Definition modify (f : state -> state) : M unit := fun st => Ok tt (f st).
Definition bind {A B} (m : M A) (k : A -> M B) : M B :=
  fun st => match m st with
            | Ok a st => k a st
            | Threw e st => Threw e st
            | NoFuel => NoFuel
            end.

Declare Scope glob_scope.
Delimit Scope glob_scope with glob.
Notation "x <- m ;; k" := (bind m (fun x => k))
  (at level 100, m at next level, right associativity) : glob_scope.
Notation "m ;;; k" := (bind m (fun _ => k)) (at level 100, right associativity) : glob_scope.
Open Scope glob_scope.

(** A loop over a list. *)
Fixpoint for_each {A} (l : list A) (f : A -> M unit) : M unit :=
  match l with
  | [] => ret tt
  | x :: l => f x ;;; for_each l f
  end.

(** ** Objects used as sets *)

Definition add_key (k : jsstr) (ks : list jsstr) : list jsstr := if decide (k ∈ ks) then ks else ks ++ [k].

(** A canonical array index, which [Object.keys] lists before other keys. *)
Definition array_index (k : jsstr) : option N :=
  match k with
  | [] => None
  | [c] => if in_range 48 57 c then Some (c - 48)%N else None
  | c :: _ =>
      if in_range 49 57 c && forallb (in_range 48 57) k then
        let n := foldl (fun n d => n * 10 + (d - 48))%N 0%N k in
        if decide (n < 2 ^ 32 - 1)%N then Some n else None
      else None
  end.

Definition index_le (a b : jsstr) : Prop := (default 0 (array_index a) <= default 0 (array_index b))%N.
#[export] Instance index_le_dec : RelDecision index_le.
Proof. intros a b. unfold index_le. apply _. Defined.

Definition object_keys (ks : list jsstr) : list jsstr :=
  merge_sort index_le (filter (fun k => is_Some (array_index k)) ks) ++
  filter (fun k => ~ is_Some (array_index k)) ks.

(** ** Options *)

(** [s.slice(-n)] *)
Definition slice_last (n : nat) (s : jsstr) : jsstr := drop (length s - n) s.

(** The options that are read; those of minimatch are in the same object, and
    [nonegate] and [nocomment] may be absent. *)
Record glob_options := GlobOptions {
  o_minimatch : options;
  o_nonegate : option bool; o_nocomment : option bool; o_strict : option bool;
  o_silent : bool; o_realpath : bool; o_follow : bool; o_mark : bool; o_nodir : bool;
  o_nounique : bool; o_nosort : bool; o_stat : bool; o_noprocess : bool; o_nomount : bool;
  o_maxLength : option nat;
  o_ignore : list jsstr;
  o_cwd : option jsstr; o_root : option jsstr;
  o_cache : gmap jsstr centry; o_statCache : gmap jsstr ftype; o_symlinks : gmap jsstr bool
}.

Definition no_glob_options : glob_options :=
  GlobOptions no_options None None None false false false false false false false false false false None []
    None None ∅ ∅ ∅.

Record ignore_item := IgnoreItem { matcher : minimatch_obj; gmatcher : option minimatch_obj }.

(** What [setopts] puts on the object and nothing changes afterwards. *)
Record glob := Glob {
  silent : bool; strict : bool; realpath : bool; follow : bool; g_dot : bool; mark : bool; nodir : bool;
  nounique : bool; g_nonull : bool; nosort : bool; g_nocase : bool; stat : bool; noprocess : bool;
  nomount : bool;
  maxLength : option nat;
  ignore : list ignore_item;
  cwd : jsstr; changedCwd : bool; root : jsstr;
  minimatch_ : minimatch_obj
}.

(** What [ignoreMap] cuts off the end of a pattern: the longest run of a slash
    and two stars; the pattern is given in reverse. *)
Fixpoint drop_globstars (rev_pattern : jsstr) : jsstr :=
  match rev_pattern with
  | 42%N :: 42%N :: 47%N :: rest => drop_globstars rest
  | _ => rev_pattern
  end.

(** [path.resolve] and [path.join] of strings. *)
Definition path_resolve (args : list jsstr) : jsstr := default [] (resolve (map Some args)).
Definition join_paths (args : list jsstr) : jsstr := default [] (path_join (map Some args)).

Section GlobSync.
Variables rSlash rOpen rClose rComma rPeriod : jsstr.
Variable toLowerCase : jsstr -> jsstr.
Variable canonicalize : N -> N.
(** [a.localeCompare(b) <= 0] *)
Variable locale_le : jsstr -> jsstr -> bool.
Variable the_fs : fs.

Definition compile (opts : options) (pattern : jsstr) : error + minimatch_obj :=
  match new_Minimatch rSlash rOpen rClose rComma rPeriod opts pattern with
  | Returns m => inr m
  | Throws => inl BadPattern
  | Loops => inl EndlessBraces
  end.

Definition ignoreMap (pattern : jsstr) : error + ignore_item :=
  match (if decide (slice_last 3 pattern = «"/**"»)
         then match compile no_options (rev (drop_globstars (rev pattern))) with
              | inr m => inr (Some m)
              | inl e => inl e
              end
         else inr None) with
  | inl e => inl e
  | inr gmatcher =>
      match compile no_options pattern with
      | inr m => inr (IgnoreItem m gmatcher)
      | inl e => inl e
      end
  end.

Fixpoint setupIgnores (patterns : list jsstr) : error + list ignore_item :=
  match patterns with
  | [] => inr []
  | p :: patterns =>
      match ignoreMap p with
      | inl e => inl e
      | inr i => match setupIgnores patterns with inl e => inl e | inr items => inr (i :: items) end
      end
  end.

(** The object that [new Minimatch] gets: [nonegate] and [nocomment] are set
    unless they were given as false. *)
Definition effective_options (o : glob_options) : options :=
  let m := o_minimatch o in
  Options (default true (o_nocomment o)) (default true (o_nonegate o)) (nobrace m) (noglobstar m) (noext m)
    (nocase m) (dot m) (matchBase m) (flipNegate m) (nonull m).

Definition setopts (pattern : jsstr) (o : glob_options) : error + glob :=
  let m := o_minimatch o in
  let base := matchBase m && bool_decide (slash ∉ pattern) in
  if base && noglobstar m then inl NeedsGlobstar
  else
    let pattern := if base then «"**/"» ++ pattern else pattern in
    match setupIgnores (o_ignore o) with
    | inl e => inl e
    | inr ignore =>
        let cwd := default process_cwd (o_cwd o) in
        let changedCwd := match o_cwd o with Some c => bool_decide (path_resolve [c] <> process_cwd) | None => false end in
        let root := match o_root o with Some (c :: r) => c :: r | _ => path_resolve [cwd; [slash]] end in
        match compile (effective_options o) pattern with
        | inl e => inl e
        | inr mm =>
            inr (Glob (o_silent o) (default true (o_strict o)) (o_realpath o) (o_follow o) (dot m)
                   (o_mark o || o_nodir o) (o_nodir o) (o_nounique o) (nonull m) (o_nosort o) (nocase m)
                   (o_stat o) (o_noprocess o) (o_nomount o)
                   (match o_maxLength o with Some (S n) => Some (S n) | _ => None end)
                   ignore cwd changedCwd (path_resolve [root]) mm)
        end
    end.

Definition initial_state (o : glob_options) (g : glob) : state :=
  State (o_cache o) (o_statCache o) (o_symlinks o) (replicate (length (m_set (minimatch_ g))) None) [].

Section Walk.
Variable self : glob.

(** ** common *)

Definition makeAbs (f : jsstr) : jsstr :=
  if decide (charAt f 0 = [slash]) then join_paths [root self; f]
  else if posix_isAbsolute f || bool_decide (f = []) then f
  else if changedCwd self then path_resolve [cwd self; f]
  else path_resolve [f].

Definition isIgnored (path : jsstr) : bool :=
  existsb (fun item => match_ toLowerCase canonicalize (matcher item) path false ||
                       match gmatcher item with Some m => match_ toLowerCase canonicalize m path false | None => false end)
    (ignore self).

Definition childrenIgnored (path : jsstr) : bool :=
  existsb (fun item => match gmatcher item with Some m => match_ toLowerCase canonicalize m path false | None => false end)
    (ignore self).

Definition is_dir_entry (c : centry) : bool := match c with CDir | Entries _ => true | _ => false end.
Definition truthy_entry (c : centry) : bool := match c with CFalse => false | _ => true end.

(** [mark]: a directory gets a slash at its end, anything else none; what is
    known about the name is copied to the new name. *)
Definition copy_entry {A} (from to : jsstr) (m : gmap jsstr A) : gmap jsstr A := partial_alter (fun _ => m !! from) to m.

Definition mark_ (p : jsstr) : M jsstr :=
  st <- get ;;
  let abs := makeAbs p in
  match cache st !! abs with
  | None => ret p
  | Some c =>
      let slashed := bool_decide (slice_last 1 p = [slash]) in
      let m := if truthy_entry c then
                 if is_dir_entry c && negb slashed then p ++ [slash]
                 else if negb (is_dir_entry c) && slashed then take (length p - 1) p
                 else p
               else p in
      if decide (m = p) then ret m
      else
        let mabs := makeAbs m in
        modify (fun st => State (copy_entry abs mabs (cache st)) (copy_entry abs mabs (statCache st))
                            (symlinks st) (matches st) (printed st)) ;;;
        ret m
  end.

(** ** sync: readdir *)

Definition _readdirEntries (abs : jsstr) (entries : list jsstr) : M (option (list jsstr)) :=
  (if mark self || stat self then ret tt
   else for_each entries (fun e =>
          modify (set_cache (if decide (abs = [slash]) then abs ++ e else abs ++ [slash] ++ e) CTrue))) ;;;
  modify (set_cache abs (Entries entries)) ;;;
  ret (Some entries).

Definition _readdirError (f : jsstr) (er : ecode) : M unit :=
  match er with
  | ENOTSUP | ENOTDIR => modify (set_cache (makeAbs f) CFile)
  | ENOENT | ELOOP | ENAMETOOLONG | UNKNOWN => modify (set_cache (makeAbs f) CFalse)
  | OtherCode _ =>
      modify (set_cache (makeAbs f) CFalse) ;;;
      (if strict self then throw (FsError er) else ret tt) ;;;
      (if silent self then ret tt else modify (print_error er))
  end.

(** [_readdir(abs, false)] *)
Definition _readdir_plain (abs : jsstr) : M (option (list jsstr)) :=
  st <- get ;;
  match cache st !! abs with
  | Some CFalse | Some CFile => ret None
  | Some (Entries c) => ret (Some c)
  | _ =>
      match readdirSync the_fs abs with
      | inl entries => _readdirEntries abs entries
      | inr er => _readdirError abs er ;;; ret None
      end
  end.

Definition _readdirInGlobStar (abs : jsstr) : M (option (list jsstr)) :=
  if follow self then _readdir_plain abs
  else match lstatSync the_fs abs with
       | None => ret None
       | Some lstat =>
           let isSym := bool_decide (lstat = SymbolicLink) in
           modify (set_symlinks abs isSym) ;;;
           if negb isSym && negb (bool_decide (lstat = Directory))
           then modify (set_cache abs CFile) ;;; ret None
           else _readdir_plain abs
       end.

Definition _readdir (abs : jsstr) (inGlobStar : bool) : M (option (list jsstr)) :=
  st <- get ;;
  if inGlobStar && bool_decide (symlinks st !! abs = None) then _readdirInGlobStar abs
  else _readdir_plain abs.

(** ** sync: stat

    The stat of a link is that of its target, or its own if it has none. *)
Definition fresh_stat (abs : jsstr) : option ftype :=
  match lstatSync the_fs abs with
  | Some SymbolicLink =>
      match statSync the_fs abs with Some t => Some t | None => Some SymbolicLink end
  | r => r
  end.

Definition _stat (f : jsstr) : M centry :=
  st <- get ;;
  let abs := makeAbs f in
  let needDir := bool_decide (slice_last 1 f = [slash]) in
  if match maxLength self with Some n => bool_decide (n < length f) | None => false end then ret CFalse
  else
    let cached :=
      if stat self then None
      else match cache st !! abs with
           | None => None
           | Some c =>
               let c := match c with Entries _ => CDir | c => c end in
               if negb needDir || bool_decide (c = CDir) then Some c
               else if bool_decide (c = CFile) then Some CFalse
               else None
           end in
    match cached with
    | Some c => ret c
    | None =>
        match (match statCache st !! abs with Some t => Some t | None => fresh_stat abs end) with
        | None => ret CFalse
        | Some t =>
            modify (set_statCache abs t) ;;;
            let c := if decide (t = Directory) then CDir else CFile in
            modify (fun st => set_cache abs (match cache st !! abs with
                                             | Some c' => if truthy_entry c' then c' else c
                                             | None => c
                                             end) st) ;;;
            ret (if needDir && negb (bool_decide (c = CDir)) then CFalse else c)
        end
    end.

(** ** sync: the walk *)

(** [if (!this.matches[index]) this.matches[index] = Object.create(null)] *)
Definition ensure_matches (index : nat) : M unit :=
  modify (fun st => set_matches (alter (fun m => Some (default [] m)) index (matches st)) st).

(** [this.matches[index][e] = true] *)
Definition add_match (index : nat) (e : jsstr) : M unit :=
  modify (fun st => set_matches (alter (fmap (add_key e)) index (matches st)) st).

(** [_emitMatch] *)
Definition _emitMatch (index : nat) (e : jsstr) : M unit :=
  e <- (if mark self then mark_ e else ret e) ;;
  st <- get ;;
  if bool_decide (e ∈ default [] (mjoin (matches st !! index))) then ret tt
  else if nodir self && match cache st !! makeAbs e with Some c => is_dir_entry c | None => false end then ret tt
  else add_match index e ;;; (if stat self then _stat e ;;; ret tt else ret tt).

Definition mount (prefix : jsstr) : jsstr :=
  if decide (prefix <> [] /\ posix_isAbsolute prefix = true /\ nomount self = false) then
    if decide (charAt prefix 0 = [slash]) then join_paths [root self; prefix]
    else path_resolve [root self; prefix] ++
         (if bool_decide (slice_last 1 prefix ∈ [[slash]; [bslash]]) then [slash] else [])
  else prefix.

Definition _processSimple (prefix : jsstr) (index : nat) : M unit :=
  exists_ <- _stat prefix ;;
  ensure_matches index ;;;
  if truthy_entry exists_ then add_match index (mount prefix) else ret tt.

(** The strings at the front of a pattern. *)
Fixpoint leading_texts (pattern : list part) : list jsstr :=
  match pattern with
  | Text s :: pattern => s :: leading_texts pattern
  | _ => []
  end.

(** [pattern.join('/')] *)
Definition part_string (p : part) : jsstr :=
  match p with
  | Globstar => «"[object Object]"»
  | Text s => s
  | Magic _ (Some src) _ => «"/^"» ++ src ++ «"$/"» ++ (if g_nocase self then «"i"» else [])
  | Magic _ None _ => «"/$./"»
  end.

Definition pattern_join (pattern : list part) : jsstr := join [slash] (map part_string pattern).

(** [prefix] as the code changes it, and [read]. *)
Definition absolute_prefix (pattern : list part) (prefix : jsstr) : jsstr :=
  if posix_isAbsolute prefix || posix_isAbsolute (pattern_join pattern) then
    if posix_isAbsolute prefix then prefix else [slash] ++ prefix
  else prefix.

Definition is_hidden (e : jsstr) : bool := bool_decide (charAt e 0 = «"."»).

(** The entries of a directory that one part selects. *)
Definition matchedEntries (prefix : option jsstr) (r : regex) (rawGlob : jsstr) (entries : list jsstr) : list jsstr :=
  let dotOk := g_dot self || is_hidden rawGlob in
  let noPrefix := match prefix with Some (_ :: _) => false | _ => true end in
  filter (fun e =>
    (negb (is_hidden e) || dotOk) &&
    xorb (m_negate (minimatch_ self) && noPrefix)
      (regex_test (flag_i canonicalize (m_options (minimatch_ self))) r e) = true) entries.

(** The name under which an entry is a match. *)
Definition entry_name (prefix : option jsstr) (e : jsstr) : jsstr :=
  let e := match prefix with
           | Some (c :: p) => if decide (slice_last 1 (c :: p) = [slash]) then c :: p ++ e else (c :: p) ++ [slash] ++ e
           | _ => e
           end in
  if decide (charAt e 0 = [slash] /\ nomount self = false) then join_paths [root self; e] else e.

(** [prefix ? [prefix] : []] *)
Definition prefix_part (prefix : option jsstr) : list part :=
  match prefix with Some (c :: p) => [Text (c :: p)] | _ => [] end.

(** [_processReaddir] and [_processGlobStar], with [process] for
    [this._process]; [remain] is [pn :: rest]. *)
Definition _processReaddir (process : list part -> nat -> bool -> M unit) (prefix : option jsstr) (abs : jsstr)
    (pn : part) (rest : list part) (index : nat) (inGlobStar : bool) : M unit :=
  entries <- _readdir abs inGlobStar ;;
  match entries with
  | None => ret tt
  | Some entries =>
      match pn with
      | Magic r _ (Some rawGlob) =>
          let matched := matchedEntries prefix r rawGlob entries in
          if decide (matched = []) then ret tt
          else if decide (rest = [] /\ mark self = false /\ stat self = false) then
            ensure_matches index ;;;
            for_each matched (fun e => add_match index (entry_name prefix e))
          else for_each matched (fun e => process (prefix_part prefix ++ Text e :: rest) index inGlobStar)
      | Magic r _ None => throw NoGlob
      | _ => ret tt                        (** not called so *)
      end
  end.

Definition _processGlobStar (process : list part -> nat -> bool -> M unit) (prefix : option jsstr) (abs : jsstr)
    (rest : list part) (index : nat) (inGlobStar : bool) : M unit :=
  entries <- _readdir abs inGlobStar ;;
  match entries with
  | None => ret tt
  | Some entries =>
      process (prefix_part prefix ++ rest) index false ;;;
      st <- get ;;
      if default false (symlinks st !! abs) && inGlobStar then ret tt
      else for_each entries (fun e =>
        if is_hidden e && negb (g_dot self) then ret tt
        else
          process (prefix_part prefix ++ Text e :: rest) index true ;;;
          process (prefix_part prefix ++ Text e :: Globstar :: rest) index true)
  end.

Fixpoint _process (fuel : nat) (pattern : list part) (index : nat) (inGlobStar : bool) {struct fuel} : M unit :=
  match fuel with
  | O => fun _ => NoFuel
  | S fuel =>
      let texts := leading_texts pattern in
      match drop (length texts) pattern with
      | [] => _processSimple (join [slash] texts) index
      | pn :: rest =>
          let prefix := match texts with [] => None | _ => Some (absolute_prefix pattern (join [slash] texts)) end in
          let read := default «"."» prefix in
          let abs := makeAbs read in
          if childrenIgnored read then ret tt
          else match pn with
               | Globstar => _processGlobStar (_process fuel) prefix abs rest index inGlobStar
               | _ => _processReaddir (_process fuel) prefix abs pn rest index inGlobStar
               end
      end
  end.

(** ** The result *)

Definition realpath_keys (ks : list jsstr) : M (list jsstr) :=
  fun st =>
    match foldl (fun (r : option (list jsstr)) p =>
                   match r with
                   | None => None
                   | Some set =>
                       match realpathSync the_fs (makeAbs p) with
                       | inl real => Some (add_key real set)
                       | inr true => Some (add_key (makeAbs (makeAbs p)) set)
                       | inr false => None
                       end
                   end) (Some []) (object_keys ks) with
    | Some set => Ok set st
    | None => Threw RealpathError st
    end.

Fixpoint realpath_all (i : nat) (ms : list (option (list jsstr))) : M unit :=
  match ms with
  | [] => ret tt
  | None :: ms => realpath_all (S i) ms
  | Some ks :: ms =>
      set <- realpath_keys ks ;;
      modify (fun st => set_matches (<[i := Some set]> (matches st)) st) ;;;
      realpath_all (S i) ms
  end.

(** What the sets contribute, in order: their keys, or the pattern itself. *)
Definition contributed (st : state) : list (list jsstr) :=
  imap (fun i m =>
          match m with
          | None | Some [] => if g_nonull self then [default «"undefined"» (m_globSet (minimatch_ self) !! i)] else []
          | Some ks => object_keys ks
          end) (matches st).

Definition alphasort : relation jsstr :=
  fun a b => (if g_nocase self then locale_le (toLowerCase a) (toLowerCase b) else locale_le a b) = true.

#[local] Instance alphasort_dec : RelDecision alphasort.
Proof. intros a b. unfold alphasort. apply _. Defined.

Fixpoint mark_all (l : list jsstr) : M (list jsstr) :=
  match l with
  | [] => ret []
  | p :: l => m <- mark_ p ;; ms <- mark_all l ;; ret (m :: ms)
  end.

Definition finish : M (list jsstr) :=
  st <- get ;;
  let all := concat (contributed st) in
  let all := if nounique self then all else object_keys (foldl (fun ks k => add_key k ks) [] all) in
  let all := if nosort self then all else merge_sort alphasort all in
  all <- (if mark self then
            ms <- mark_all all ;;
            ret (if nodir self then filter (fun e => slice_last 1 e <> [slash]) ms else ms)
          else ret all) ;;
  ret (filter (fun m => isIgnored m = false) all).

Definition _finish : M (list jsstr) :=
  st <- get ;;
  (if realpath self then realpath_all 0 (matches st) else ret tt) ;;;
  finish.

(** The patterns of the set, one after the other. *)
Fixpoint process_all (fuel : nat) (i : nat) (set : list (list part)) : M unit :=
  match set with
  | [] => ret tt
  | p :: set => _process fuel p i false ;;; process_all fuel (S i) set
  end.
End Walk.

(** [new GlobSync(pattern, options)]: the list [found], which is left
    undefined with [noprocess]. *)
Definition GlobSync (fuel : nat) (pattern : jsstr) (o : glob_options) : res (option (list jsstr)) :=
  let st0 := State (o_cache o) (o_statCache o) (o_symlinks o) [] [] in
  if decide (pattern = []) then Threw MustProvidePattern st0
  else match setopts pattern o with
       | inl e => Threw e st0
       | inr self =>
           if noprocess self then Ok None st0
           else (process_all self fuel 0 (m_set (minimatch_ self)) ;;;
                 found <- _finish self ;; ret (Some found)) (initial_state o self)
       end.

Definition globSync := GlobSync.
End GlobSync.
