(* ===== verification/GlobProps.v ===== *)
(** * glob: the caches and the walk

    Theorems about [GlobSync]. *)

From S2P Require Import Prelude BraceExpansion Regex Minimatch NodePath GlobSync.

(** ** Absolute names

    The form of what [makeAbs] returns when the root is [/]. *)
Definition abs_path (parts : list jsstr) (trailing : bool) : jsstr :=
  slash :: join [slash] parts ++ (if trailing && bool_decide (parts <> []) then [slash] else []).

(** The name under which [_readdirEntries] caches an entry. *)
Definition child_key (abs e : jsstr) : jsstr := if decide (abs = [slash]) then abs ++ e else abs ++ [slash] ++ e.

Lemma join_paths_absolute f :
  isAbsolute f = true ->
  join_paths [[slash]; f] = abs_path (names (walk (segments f))) (bool_decide (last f = Some slash)).
Proof.
  intros Hf. destruct f as [|c f]; [done|]. apply isAbsolute_head in Hf. simplify_eq/=.
  unfold join_paths, path_join. cbn [mapM map mbind option_bind id mret option_ret default from_option filter list_filter].
  rewrite !decide_True by done. cbn [join app].
  rewrite normalize_eq. cbv zeta. rewrite isAbsolute_cons. cbn [negb].
  change (slash :: slash :: slash :: f) with ([] ++ slash :: ([] ++ slash :: slash :: f)).
  rewrite !segments_app. change (segments []) with (@nil jsstr). cbn [app].
  assert (last (slash :: slash :: slash :: f) = last (slash :: f)) as -> by done.
  rewrite normalizeArray_walk. cbn [app]. unfold abs_path, normal_path.
  set (ns := names (walk (segments (slash :: f)))). destruct (decide (ns = [])) as [->|Hne]; [simpl|].
  - by rewrite andb_false_r.
  - rewrite (bool_decide_true (ns <> [])) by done. rewrite andb_true_r. by destruct (bool_decide _).
Qed.

Lemma abs_path_segments ns trailing : Forall is_name ns -> segments (abs_path ns trailing) = ns.
Proof.
  intros Hall. assert (Forall is_part ns) as Hp by (eapply Forall_impl; [done|apply is_name_part]).
  unfold abs_path. destruct (decide (ns = [])) as [->|Hne]; [by rewrite andb_false_r|].
  rewrite (bool_decide_true (ns <> [])) by done. rewrite andb_true_r.
  by apply (normal_path_parts true trailing).
Qed.

Lemma walk_of_names ns : Forall is_name ns -> names (walk ns) = ns.
Proof. intros Hall. pose proof (walk_normal 0 ns Hall) as E. cbn [replicate app] in E. by rewrite E. Qed.

Lemma abs_path_snoc ns e : Forall is_name ns -> abs_path (ns ++ [e]) false = child_key (abs_path ns false) e.
Proof.
  intros Hns. unfold child_key, abs_path. cbn [andb]. rewrite !app_nil_r.
  destruct (decide (ns = [])) as [->|Hne]; [done|]. rewrite join_app by done.
  assert (slash :: join [slash] ns <> [slash]) as Hj.
  { intros [= E]. apply Hne, (join_nil_inv [slash]); [|done]. eapply Forall_impl; [done|]. by intros x (? & _). }
  rewrite decide_False by done. done.
Qed.

Section Names.
Variable self : glob.
Hypothesis root_slash : root self = [slash].

(** The segments of the directory that relative names start from. *)
Definition base (f : jsstr) : list jsstr :=
  if isAbsolute f then [] else if changedCwd self then effective_segments [cwd self] else [].

Lemma makeAbs_shape f :
  f <> [] ->
  makeAbs self f = abs_path (names (walk (base f ++ segments f))) (isAbsolute f && bool_decide (last f = Some slash)).
Proof.
  intros Hne. unfold makeAbs, base. destruct (isAbsolute f) eqn:Hf.
  - rewrite decide_True by (by apply bool_decide_eq_true in Hf). rewrite root_slash. by apply join_paths_absolute.
  - rewrite decide_False by (by apply bool_decide_eq_false in Hf).
    replace (posix_isAbsolute f) with (isAbsolute f) by done. rewrite Hf, bool_decide_false by done. cbn [orb andb].
    unfold path_resolve. destruct (changedCwd self); rewrite resolve_strings; cbn [rev app effective_segments];
      rewrite Hf; unfold abs_path; by rewrite app_nil_r.
Qed.

Lemma makeAbs_names f : Forall is_name (names (walk (base f ++ segments f))).
Proof.
  apply walk_names, Forall_app. split; [|apply segments_parts]. unfold base.
  repeat case_match; try constructor. apply effective_segments_parts.
Qed.

Lemma makeAbs_abs_path ns trailing : Forall is_name ns -> makeAbs self (abs_path ns trailing) = abs_path ns trailing.
Proof.
  intros Hall. rewrite makeAbs_shape by done. unfold base. change (isAbsolute (abs_path ns trailing)) with true. cbn [app andb].
  rewrite abs_path_segments, walk_of_names by done. unfold abs_path. f_equal. f_equal.
  destruct (decide (ns = [])) as [->|Hne]; [by rewrite !andb_false_r|].
  rewrite (bool_decide_true (ns <> [])), !andb_true_r by done.
  assert (Forall is_part ns) as Hp by (eapply Forall_impl; [done|apply is_name_part]).
  destruct (normal_path_parts true trailing ns Hp Hne) as (_ & E & _). unfold normal_path in E. cbn [app] in E.
  by rewrite E.
Qed.

(** Making a name absolute twice changes nothing. *)
Lemma makeAbs_idem f : makeAbs self (makeAbs self f) = makeAbs self f.
Proof.
  destruct (decide (f = [])) as [->|Hne]; [done|]. rewrite (makeAbs_shape f) by done.
  apply makeAbs_abs_path, makeAbs_names.
Qed.

(** The names on the way to [f] from the root. *)
Definition dir_names (f : jsstr) : list jsstr := names (walk (base f ++ segments f)).

Lemma segments_name e : is_name e -> segments e = [e].
Proof.
  intros (Hn & _ & _ & Hs). unfold segments. rewrite split_on_no_sep by done. by rewrite filter_cons, decide_True.
Qed.

Lemma is_name_relative e : is_name e -> isAbsolute e = false.
Proof.
  intros (Hn & _ & _ & Hs). apply not_true_is_false. rewrite isAbsolute_head. destruct e; [done|]. intros [= ->]. apply Hs. by left.
Qed.

Lemma walk_name parts e : is_name e -> names (walk (parts ++ [e])) = names (walk parts) ++ [e].
Proof.
  intros He. rewrite walk_snoc. change (enter ?d e) with (foldl enter d [e]).
  by rewrite (enter_all_names _ [e]) by (by constructor).
Qed.

Lemma dir_names_child f e : f <> [] -> is_name e -> dir_names (f ++ [slash] ++ e) = dir_names f ++ [e].
Proof.
  intros Hne He. unfold dir_names, base. assert (isAbsolute (f ++ [slash] ++ e) = isAbsolute f) as -> by (by destruct f).
  cbn [app]. by rewrite segments_app, (segments_name e), app_assoc, walk_name.
Qed.

Lemma dir_names_entry e : is_name e -> dir_names e = dir_names «"."» ++ [e].
Proof.
  intros He. unfold dir_names, base. rewrite (is_name_relative e), (segments_name e), walk_name by done.
  change (isAbsolute «"."») with false. change (segments «"."») with [«"."»]. by rewrite walk_snoc.
Qed.

Lemma makeAbs_inner f : f <> [] -> last f <> Some slash -> makeAbs self f = abs_path (dir_names f) false.
Proof. intros Hne Hl. rewrite makeAbs_shape, (bool_decide_false (last f = _)) by done. by rewrite andb_false_r. Qed.

Lemma name_end f e : is_name e -> last (f ++ [slash] ++ e) <> Some slash /\ last e <> Some slash.
Proof.
  intros (Hn & _ & _ & Hs). rewrite !last_app. destruct (last e) as [d|] eqn:E; [|by apply last_None in E].
  split; intros [= ->]; by apply last_Some_elem_of in E.
Qed.

(** An entry of a directory has the name under which it is cached. *)
Lemma makeAbs_child f e :
  f <> [] -> last f <> Some slash \/ f = [slash] -> is_name e ->
  makeAbs self (f ++ [slash] ++ e) = child_key (makeAbs self f) e.
Proof.
  intros Hne Hl He. rewrite makeAbs_inner; [|by destruct f|by apply (name_end f e)].
  rewrite dir_names_child, abs_path_snoc by (done || apply makeAbs_names). f_equal.
  destruct Hl as [Hl | ->]; [by rewrite makeAbs_inner|]. rewrite makeAbs_shape by done. done.
Qed.

Lemma makeAbs_entry e : is_name e -> makeAbs self e = child_key (makeAbs self «"."») e.
Proof.
  intros He. pose proof He as (Hn & _). rewrite !makeAbs_inner by (done || by apply (name_end [] e)).
  rewrite (dir_names_entry e) by done. by rewrite abs_path_snoc by apply makeAbs_names.
Qed.
End Names.

(** ** The caches

    A file system that can be read: [readdir] lists directories, and links to
    them, and the entries exist; it fails on what is no directory, and on what
    does not exist.  There are no dangling links. *)
Record readable (the_fs : fs) : Prop := Readable {
  read_entries p l : readdirSync the_fs p = inl l ->
    fresh_stat the_fs p = Some Directory /\ Forall (fun e => is_Some (lstatSync the_fs (child_key p e))) l;
  read_error p er : readdirSync the_fs p = inr er ->
    match er with
    | ENOTSUP | ENOTDIR => exists t, fresh_stat the_fs p = Some t /\ t <> Directory
    | OtherCode _ => False
    | _ => lstatSync the_fs p = None
    end
}.

Definition readdir_opt (the_fs : fs) (abs : jsstr) : option (list jsstr) :=
  match readdirSync the_fs abs with inl l => Some l | inr _ => None end.

Definition is_link (the_fs : fs) (abs : jsstr) : bool := bool_decide (lstatSync the_fs abs = Some SymbolicLink).

(** What a cache entry says is so. *)
Definition entry_true (the_fs : fs) (k : jsstr) (c : centry) : Prop :=
  match c with
  | CFalse => lstatSync the_fs k = None
  | CTrue => is_Some (lstatSync the_fs k)
  | CFile => exists t, fresh_stat the_fs k = Some t /\ t <> Directory
  | CDir => fresh_stat the_fs k = Some Directory
  | Entries l => readdirSync the_fs k = inl l
  end.

Record coherent (the_fs : fs) (st : state) : Prop := Coherent {
  cache_true k c : cache st !! k = Some c -> entry_true the_fs k c;
  stat_true k t : statCache st !! k = Some t -> fresh_stat the_fs k = Some t;
  links_true k b : symlinks st !! k = Some b -> b = is_link the_fs k
}.

Section Caches.
Variable the_fs : fs.
Hypothesis fs_ok : readable the_fs.

Lemma lstat_fresh p : fresh_stat the_fs p = None <-> lstatSync the_fs p = None.
Proof. unfold fresh_stat. destruct (lstatSync the_fs p) as [[]|]; [done| |by destruct (statSync the_fs p)|done]. done. Qed.

Lemma coherent_cache k c st : coherent the_fs st -> entry_true the_fs k c -> coherent the_fs (set_cache k c st).
Proof.
  intros [H1 H2 H3] Hk. split; cbn; [|done..]. intros k' c' [[-> ->]|[_ ?]]%lookup_insert_Some; eauto.
Qed.

Lemma coherent_stat k t st : coherent the_fs st -> fresh_stat the_fs k = Some t -> coherent the_fs (set_statCache k t st).
Proof.
  intros [H1 H2 H3] Hk. split; cbn; [done| |done]. intros k' c' [[-> ->]|[_ ?]]%lookup_insert_Some; eauto.
Qed.

Lemma coherent_link k st : coherent the_fs st -> coherent the_fs (set_symlinks k (is_link the_fs k) st).
Proof.
  intros [H1 H2 H3]. split; cbn; [done|done|]. intros k' c' [[-> ->]|[_ ?]]%lookup_insert_Some; eauto.
Qed.

Lemma coherent_matches m st : coherent the_fs st -> coherent the_fs (set_matches m st).
Proof. by intros [H1 H2 H3]. Qed.
End Caches.

Create HintDb glob discriminated.
#[export] Hint Resolve coherent_cache coherent_stat coherent_link coherent_matches : glob.

(** Only the caches of [st] and [st'] differ, and no link is forgotten. *)
Definition same_matches (st st' : state) : Prop :=
  matches st' = matches st /\ forall k, is_Some (symlinks st !! k) -> is_Some (symlinks st' !! k).

Lemma same_matches_refl st : same_matches st st.
Proof. done. Qed.

Lemma same_matches_trans st1 st2 st3 : same_matches st1 st2 -> same_matches st2 st3 -> same_matches st1 st3.
Proof. intros [H1 H2] [H3 H4]. split; [congruence|eauto]. Qed.

Lemma set_cache_same k c st : same_matches st (set_cache k c st).
Proof. done. Qed.

Lemma set_statCache_same k c st : same_matches st (set_statCache k c st).
Proof. done. Qed.

Lemma set_symlinks_same k b st : same_matches st (set_symlinks k b st).
Proof. split; [done|]. intros k' Hk. cbn. rewrite lookup_insert_is_Some'. by right. Qed.

#[export] Hint Resolve same_matches_refl set_cache_same set_statCache_same set_symlinks_same : glob.

Section Refinement.
Variable toLowerCase : jsstr -> jsstr.
Variable canonicalize : N -> N.
Variable the_fs : fs.
Variable self : glob.
Hypothesis root_slash : root self = [slash].
Hypothesis fs_ok : readable the_fs.

(** A call that returns [r] and changes the caches only. *)
Definition reads {A} (m : M A) (r : A) (P : state -> Prop) : Prop :=
  forall st, coherent the_fs st -> exists st', m st = Ok r st' /\ coherent the_fs st' /\ same_matches st st' /\ P st'.

Lemma cache_children_ok abs l st :
  Forall (fun e => is_Some (lstatSync the_fs (child_key abs e))) l -> coherent the_fs st ->
  exists st', for_each l (fun e => modify (set_cache (child_key abs e) CTrue)) st = Ok tt st' /\
    coherent the_fs st' /\ same_matches st st'.
Proof.
  intros Hl. revert st. induction Hl as [|e l He Hl IH]; intros st Hst; [by eexists|].
  cbn [for_each]. unfold bind, modify. destruct (IH (set_cache (child_key abs e) CTrue st)) as (st' & E & Hc & Hs).
  { auto with glob. }
  exists st'. split_and!; [done|done|]. eapply same_matches_trans; [|done]. auto with glob.
Qed.

Lemma readdirEntries_ok abs l :
  readdirSync the_fs abs = inl l -> reads (_readdirEntries self abs l) (Some l) (fun _ => True).
Proof.
  intros Hr st Hst. destruct (read_entries _ fs_ok abs l Hr) as [Hd Hl]. unfold _readdirEntries, bind.
  assert (exists st1, (if mark self || stat self then ret tt
    else for_each l (fun e => modify (set_cache (child_key abs e) CTrue))) st = Ok tt st1 /\
    coherent the_fs st1 /\ same_matches st st1) as (st1 & E & Hc & Hs).
  { destruct (_ || _); [by eexists|]. by apply cache_children_ok. }
  unfold child_key in E. rewrite E. eexists. split; [reflexivity|]. split_and!; [by apply coherent_cache| |done].
  eapply same_matches_trans; [done|]. auto with glob.
Qed.

Lemma readdir_plain_ok f :
  reads (_readdir_plain the_fs self (makeAbs self f)) (readdir_opt the_fs (makeAbs self f)) (fun _ => True).
Proof.
  intros st Hst. set (abs := makeAbs self f).
  assert (forall c, cache st !! abs = Some c -> entry_true the_fs abs c) as Hc by apply Hst.
  assert (exists st', match readdirSync the_fs abs with
      | inl entries => _readdirEntries self abs entries
      | inr er => _readdirError self abs er ;;; ret None
      end st = Ok (readdir_opt the_fs abs) st' /\ coherent the_fs st' /\ same_matches st st' /\ True) as Hfresh.
  { unfold readdir_opt. destruct (readdirSync the_fs abs) as [l|er] eqn:Er.
    - by apply readdirEntries_ok.
    - pose proof (read_error _ fs_ok abs er Er) as He. unfold _readdirError, bind.
      assert (makeAbs self abs = abs) as -> by (by apply makeAbs_idem).
      destruct er; try done; (eexists; split; [reflexivity|]; split_and!; [by apply coherent_cache|done|done]). }
  unfold _readdir_plain, bind, get, ret. unfold readdir_opt in *.
  destruct (cache st !! abs) as [[| | | |l]|] eqn:E; try done;
    specialize (Hc _ eq_refl); cbn in Hc; [| |by rewrite Hc; eauto with glob].
  - destruct (readdirSync the_fs abs) as [l|er] eqn:Er; [|by eauto with glob].
    apply (read_entries _ fs_ok) in Er as [Hd _]. apply lstat_fresh in Hc. congruence.
  - destruct (readdirSync the_fs abs) as [l|er] eqn:Er; [|by eauto with glob].
    apply (read_entries _ fs_ok) in Er as [Hd _]. destruct Hc as (t & Ht & Hn). congruence.
Qed.

Hypothesis no_follow : follow self = false.

(** Reading a directory, from the caches or not, gives its entries; below a
    globstar it is also known afterwards whether it is a link. *)
Lemma readdir_ok f inGlobStar :
  reads (_readdir the_fs self (makeAbs self f) inGlobStar) (readdir_opt the_fs (makeAbs self f))
    (fun st' => inGlobStar = true -> is_Some (readdir_opt the_fs (makeAbs self f)) ->
       symlinks st' !! makeAbs self f = Some (is_link the_fs (makeAbs self f))).
Proof.
  intros st Hst. set (abs := makeAbs self f). unfold _readdir.
  assert (forall st, coherent the_fs st -> is_Some (symlinks st !! abs) ->
    symlinks st !! abs = Some (is_link the_fs abs)) as Hlink.
  { intros st1 H1 [b Hb]. rewrite Hb. f_equal. by apply (links_true _ _ H1). }
  unfold bind at 1, get. destruct inGlobStar; cbn [andb].
  2: { destruct (readdir_plain_ok f st Hst) as (st' & E & Hc & Hs & _). exists st'. by split_and!. }
  case_bool_decide as Hn.
  2: { destruct (readdir_plain_ok f st Hst) as (st' & E & Hc & Hs & _). exists st'. split_and!; [done..|].
       intros _ _. apply Hlink; [done|]. apply Hs. by apply not_eq_None_Some. }
  unfold _readdirInGlobStar. rewrite no_follow.
  destruct (lstatSync the_fs abs) as [t|] eqn:Et.
  2: { exists st. unfold readdir_opt. destruct (readdirSync the_fs abs) as [l|er] eqn:Er; [|split_and!; auto with glob].
       - apply (read_entries _ fs_ok) in Er as [Hd _]. apply lstat_fresh in Et. congruence.
       - intros _ [? ?]. done. }
  assert (bool_decide (t = SymbolicLink) = is_link the_fs abs) as Et'.
  { unfold is_link. rewrite Et. apply bool_decide_ext. naive_solver. }
  unfold bind, modify. rewrite Et'.
  assert (coherent the_fs (set_symlinks abs (is_link the_fs abs) st)) as Hst1 by auto with glob.
  assert (symlinks (set_symlinks abs (is_link the_fs abs) st) !! abs = Some (is_link the_fs abs)) as Hl1
    by (cbn; by rewrite lookup_insert_eq).
  set (st1 := set_symlinks abs (is_link the_fs abs) st) in *.
  assert (same_matches st st1) as Hs1 by apply set_symlinks_same. clearbody st1.
  destruct (negb (is_link the_fs abs) && negb (bool_decide (t = Directory))) eqn:Eb.
  - apply andb_true_iff in Eb as [Eb1 Eb2]. apply negb_true_iff in Eb1, Eb2. apply bool_decide_eq_false in Eb2.
    assert (t = File) as -> by (rewrite <- Et' in Eb1; apply bool_decide_eq_false in Eb1; by destruct t).
    assert (fresh_stat the_fs abs = Some File) as Ef by (unfold fresh_stat; by rewrite Et).
    exists (set_cache abs CFile st1). unfold readdir_opt.
    destruct (readdirSync the_fs abs) as [l|er] eqn:Er; [apply (read_entries _ fs_ok) in Er as [Hd _]; congruence|].
    split_and!; [done|apply coherent_cache; [done|by exists File]| |by intros _ [? ?]].
    eapply same_matches_trans; [done|]. auto with glob.
  - destruct (readdir_plain_ok f st1 Hst1) as (st' & E & Hc & Hs & _). exists st'. fold abs in E.
    split_and!; [done|done|by eapply same_matches_trans|]. intros _ _. apply Hlink; [done|]. apply Hs. by rewrite Hl1.
Qed.

(** Existence, without caches. *)
Definition exists_at (f : jsstr) : bool :=
  negb (match maxLength self with Some n => bool_decide (n < length f) | None => false end) &&
  match fresh_stat the_fs (makeAbs self f) with
  | None => false
  | Some t => negb (bool_decide (slice_last 1 f = [slash])) || bool_decide (t = Directory)
  end.

Lemma stat_fresh_ok f abs t st :
  coherent the_fs st -> fresh_stat the_fs abs = Some t ->
  let c := if decide (t = Directory) then CDir else CFile in
  entry_true the_fs abs (match cache (set_statCache abs t st) !! abs with
    | Some c' => if truthy_entry c' then c' else c | None => c end) /\
  truthy_entry (if f && negb (bool_decide (c = CDir)) then CFalse else c) = negb f || bool_decide (t = Directory).
Proof.
  intros Hst Ht c. assert (entry_true the_fs abs c) as Hc.
  { unfold c. case_decide as Hd; [by subst|]. by exists t. }
  split.
  - cbn. destruct (cache st !! abs) as [c'|] eqn:E; [|done]. destruct (truthy_entry c'); [|done].
    by apply (cache_true _ _ Hst).
  - unfold c. destruct f, (decide (t = Directory)) as [->|Hd]; cbn; rewrite ?bool_decide_false by done; done.
Qed.

Lemma stat_ok f st :
  coherent the_fs st -> exists c st', _stat the_fs self f st = Ok c st' /\ truthy_entry c = exists_at f /\
    coherent the_fs st' /\ same_matches st st'.
Proof.
  intros Hst. unfold _stat, exists_at, bind, get, ret, modify. set (abs := makeAbs self f).
  set (needDir := bool_decide (slice_last 1 f = [slash])).
  destruct (match maxLength self with Some n => _ | None => false end); [by eauto 10 with glob|]. cbn [negb andb].
  assert (forall c, cache st !! abs = Some c -> entry_true the_fs abs c) as Hc by apply Hst.
  match goal with |- context [match ?x with Some c => _ | None => _ end] => destruct x as [c|] eqn:Ecached end.
  - exists c, st. split_and!; auto with glob. destruct (stat self); [done|].
    destruct (cache st !! abs) as [c0|] eqn:E0; [|done]. specialize (Hc _ eq_refl).
    destruct c0 as [| | | |l]; cbn [entry_true] in Hc.
    + apply lstat_fresh in Hc. rewrite Hc. by destruct needDir; simplify_eq/=.
    + destruct (fresh_stat the_fs abs) as [t|] eqn:Ef; [by destruct needDir; simplify_eq/=|].
      apply lstat_fresh in Ef. rewrite Ef in Hc. by destruct Hc.
    + destruct Hc as (t & -> & Hn). rewrite (bool_decide_false (t = _)) by done. by destruct needDir; simplify_eq/=.
    + rewrite Hc. by destruct needDir; simplify_eq/=.
    + apply (read_entries _ fs_ok) in Hc as [-> _]. by destruct needDir; simplify_eq/=.
  - clear Ecached.
    assert (match statCache st !! abs with Some t => Some t | None => fresh_stat the_fs abs end = fresh_stat the_fs abs) as ->.
    { destruct (statCache st !! abs) eqn:E; [|done]. symmetry. by apply (stat_true _ _ Hst). }
    destruct (fresh_stat the_fs abs) as [t|] eqn:Ef; [|by eauto 10 with glob].
    destruct (stat_fresh_ok needDir abs t st Hst Ef) as [H1 H2].
    eexists _, _. split; [reflexivity|]. split; [exact H2|]. split; [|done].
    apply coherent_cache; [by apply coherent_stat|exact H1].
Qed.

(** ** The walk without caches *)

Fixpoint search (fuel : nat) (pattern : list part) (inGlobStar : bool) {struct fuel} : option (list jsstr) :=
  match fuel with
  | O => None
  | S fuel =>
      let texts := leading_texts pattern in
      match drop (length texts) pattern with
      | [] => Some (if exists_at (join [slash] texts) then [mount self (join [slash] texts)] else [])
      | pn :: rest =>
          let prefix := match texts with [] => None | _ => Some (absolute_prefix self pattern (join [slash] texts)) end in
          let read := default «"."» prefix in
          let abs := makeAbs self read in
          if childrenIgnored toLowerCase canonicalize self read then Some []
          else match readdir_opt the_fs abs, pn with
          | Some entries, Globstar =>
              here ← search fuel (prefix_part prefix ++ rest) false;
              if is_link the_fs abs && inGlobStar then Some here
              else
                below ← mapM (fun e =>
                  if is_hidden e && negb (g_dot self) then Some []
                  else
                    a ← search fuel (prefix_part prefix ++ Text e :: rest) true;
                    b ← search fuel (prefix_part prefix ++ Text e :: Globstar :: rest) true;
                    Some (a ++ b)) entries;
                Some (here ++ concat below)
          | Some entries, Magic r _ (Some rawGlob) =>
              let matched := matchedEntries canonicalize self prefix r rawGlob entries in
              if decide (rest = [] /\ mark self = false /\ stat self = false)
              then Some (map (entry_name self prefix) matched)
              else @concat jsstr <$> mapM (fun e => search fuel (prefix_part prefix ++ Text e :: rest) inGlobStar) matched
          | _, _ => Some []
          end
      end
  end.

(** The parts that the parser makes of patterns that compile. *)
Definition has_glob (p : part) : Prop := match p with Magic _ _ None => False | _ => True end.

(** The keys of [this.matches[i]], and the keys after more have been added. *)
Definition keys (st : state) (i : nat) : list jsstr := default [] (mjoin (matches st !! i)).
Definition add_all (ks names : list jsstr) : list jsstr := foldl (fun ks k => add_key k ks) ks names.

Definition found_more (index : nat) (names : list jsstr) (st st' : state) : Prop :=
  length (matches st') = length (matches st) /\
  (forall k, is_Some (symlinks st !! k) -> is_Some (symlinks st' !! k)) /\
  (forall i, keys st' i = if decide (i = index) then add_all (keys st i) names else keys st i).

(** [m] adds the names [w] to the matches of [index], or both run out of
    fuel. *)
Definition adds (index : nat) (w : option (list jsstr)) (m : M unit) (st : state) : Prop :=
  match w with
  | None => m st = NoFuel
  | Some names => exists st', m st = Ok tt st' /\ coherent the_fs st' /\ found_more index names st st'
  end.

Definition refines (index : nat) (w : option (list jsstr)) (m : M unit) : Prop :=
  forall st, coherent the_fs st -> index < length (matches st) -> adds index w m st.

Lemma found_more_trans index n1 n2 st1 st2 st3 :
  found_more index n1 st1 st2 -> found_more index n2 st2 st3 -> found_more index (n1 ++ n2) st1 st3.
Proof.
  intros (L1 & S1 & K1) (L2 & S2 & K2). split_and!; [congruence|eauto|]. intros i. rewrite K2, K1.
  destruct (decide (i = index)); [|done]. unfold add_all. by rewrite foldl_app.
Qed.

Lemma found_nothing index st st' : same_matches st st' -> found_more index [] st st'.
Proof.
  intros [Hm Hs]. split_and!; [by rewrite Hm|done|]. intros i. unfold keys. rewrite Hm. by destruct (decide _).
Qed.

Lemma refines_ret index : refines index (Some []) (ret tt).
Proof. intros st Hst _. exists st. split_and!; [done|done|]. by apply found_nothing. Qed.

Lemma adds_bind index n1 w2 m1 m2 st st1 :
  m1 st = Ok tt st1 -> found_more index n1 st st1 -> adds index w2 m2 st1 ->
  adds index (b ← w2; Some (n1 ++ b)) (m1 ;;; m2) st.
Proof.
  intros E1 Hf1 H2. unfold adds, bind in *. rewrite E1. destruct w2 as [n2|]; [|done].
  destruct H2 as (st2 & -> & Hst2 & Hf2). exists st2. split_and!; [done|done|]. by eapply found_more_trans.
Qed.

Lemma adds_read {A} index w (m : M A) (k : A -> M unit) a st st1 :
  m st = Ok a st1 -> same_matches st st1 -> adds index w (k a) st1 -> adds index w (bind m k) st.
Proof.
  intros E Hs H. unfold adds, bind in *. rewrite E. destruct w as [names|]; [|done].
  destruct H as (st2 & -> & Hst2 & Hf2). exists st2. split_and!; [done|done|].
  apply (found_nothing index) in Hs. by apply (found_more_trans index [] names st st1 st2).
Qed.

Lemma refines_bind index w1 w2 m1 m2 :
  refines index w1 m1 -> refines index w2 m2 ->
  refines index (a ← w1; b ← w2; Some (a ++ b)) (m1 ;;; m2).
Proof.
  intros H1 H2 st Hst Hi. specialize (H1 st Hst Hi). destruct w1 as [n1|]; cbn in H1 |- *; [|unfold bind; by rewrite H1].
  destruct H1 as (st1 & E1 & Hst1 & Hf1). apply (adds_bind index n1 w2 m1 m2 st st1); [done|done|].
  apply H2; [done|]. by destruct Hf1 as [-> _].
Qed.

Lemma refines_for_each {A} index (g : A -> option (list jsstr)) (f : A -> M unit) l :
  (forall x, x ∈ l -> refines index (g x) (f x)) -> refines index (@concat jsstr <$> mapM g l) (for_each l f).
Proof.
  induction l as [|x l IH]; intros Hall; [apply refines_ret|]. cbn [for_each mapM].
  pose proof (refines_bind index (g x) (@concat jsstr <$> mapM g l) (f x) (for_each l f)) as Hb.
  replace (@concat jsstr <$> (y ← g x; k ← mapM g l; mret (y :: k))) with (a ← g x; b ← @concat jsstr <$> mapM g l; Some (a ++ b)).
  - apply Hb; [apply Hall; by left|]. apply IH. intros y Hy. apply Hall. by right.
  - destruct (g x); [|done]. cbn. by destruct (mapM g l).
Qed.

(** *** Adding matches *)

Lemma ensure_matches_ok index st :
  index < length (matches st) ->
  exists st', ensure_matches index st = Ok tt st' /\ found_more index [] st st' /\
    (coherent the_fs st -> coherent the_fs st') /\ matches st' !! index = Some (Some (keys st index)).
Proof.
  intros Hi. eexists. split; [reflexivity|]. cbn.
  destruct (lookup_lt_is_Some_2 _ _ Hi) as [m Hm].
  split_and!; [|by apply coherent_matches|].
  - split_and!; [apply length_alter|done|]. intros i. unfold keys. cbn.
    destruct (decide (i = index)) as [->|Hne]; [|by rewrite list_lookup_alter_ne].
    rewrite list_lookup_alter_eq, Hm. done.
  - rewrite list_lookup_alter_eq. unfold keys. by rewrite Hm.
Qed.

Lemma add_match_ok index e ks st :
  matches st !! index = Some (Some ks) ->
  exists st', add_match index e st = Ok tt st' /\ found_more index [e] st st' /\
    (coherent the_fs st -> coherent the_fs st') /\ matches st' !! index = Some (Some (add_key e ks)).
Proof.
  intros Hm. eexists. split; [reflexivity|]. cbn. split_and!; [|by apply coherent_matches|].
  - split_and!; [apply length_alter|done|]. intros i. unfold keys. cbn.
    destruct (decide (i = index)) as [->|Hne]; [|by rewrite list_lookup_alter_ne].
    rewrite list_lookup_alter_eq, Hm. done.
  - by rewrite list_lookup_alter_eq, Hm.
Qed.

Lemma add_names_ok {A} index (g : A -> jsstr) l ks st :
  matches st !! index = Some (Some ks) ->
  exists st', for_each l (fun e => add_match index (g e)) st = Ok tt st' /\ found_more index (map g l) st st' /\
    (coherent the_fs st -> coherent the_fs st').
Proof.
  revert ks st. induction l as [|x l IH]; intros ks st Hm; cbn [for_each map].
  { exists st. split_and!; [done| |done]. by apply found_nothing. }
  destruct (add_match_ok index (g x) ks st Hm) as (st1 & E1 & F1 & C1 & M1). unfold bind. rewrite E1.
  destruct (IH _ st1 M1) as (st2 & E2 & F2 & C2). exists st2. split_and!; [done| |by auto].
  by apply (found_more_trans index [g x] (map g l) st st1 st2).
Qed.

Lemma processSimple_ok index f :
  refines index (Some (if exists_at f then [mount self f] else [])) (_processSimple the_fs self f index).
Proof.
  intros st Hst Hi. unfold adds, _processSimple. unfold bind at 1.
  destruct (stat_ok f st Hst) as (c & st1 & -> & Hc & Hst1 & Hs1). rewrite Hc.
  assert (index < length (matches st1)) as Hi1 by (destruct Hs1 as [-> _]; done).
  destruct (ensure_matches_ok index st1 Hi1) as (st2 & E2 & F2 & C2 & M2). unfold bind. rewrite E2.
  apply (found_nothing index) in Hs1. pose proof (found_more_trans _ _ _ _ _ _ Hs1 F2) as F12.
  destruct (exists_at f).
  - destruct (add_match_ok index (mount self f) _ st2 M2) as (st3 & E3 & F3 & C3 & _). exists st3.
    split_and!; [done|by auto|]. by apply (found_more_trans index [] [mount self f] st st2 st3).
  - exists st2. by split_and!; auto.
Qed.

(** *** The walk *)

Lemma refines_if index (b : bool) w1 w2 m1 m2 :
  refines index w1 m1 -> refines index w2 m2 -> refines index (if b then w1 else w2) (if b then m1 else m2).
Proof. by destruct b. Qed.

Lemma has_glob_rest pattern pn rest :
  Forall has_glob pattern -> drop (length (leading_texts pattern)) pattern = pn :: rest ->
  has_glob pn /\ Forall has_glob rest.
Proof. intros Hall E. apply (Forall_drop _ (length (leading_texts pattern))) in Hall. rewrite E in Hall. by apply Forall_cons. Qed.

Lemma has_glob_prefix prefix ps : Forall has_glob ps -> Forall has_glob (prefix_part prefix ++ ps).
Proof. intros Hall. apply Forall_app. split; [|done]. unfold prefix_part. repeat case_match; by repeat constructor. Qed.

Section Step.
Variable index : nat.
Variable sub_search : list part -> bool -> option (list jsstr).
Variable sub_process : list part -> bool -> M unit.
Hypothesis sub_ok : forall ps b, Forall has_glob ps -> refines index (sub_search ps b) (sub_process ps b).

(** [_processGlobStar] after the directory has been read. *)
Lemma globstar_ok prefix abs rest inGlobStar entries st :
  Forall has_glob rest -> coherent the_fs st -> index < length (matches st) ->
  (inGlobStar = true -> symlinks st !! abs = Some (is_link the_fs abs)) ->
  adds index (here ← sub_search (prefix_part prefix ++ rest) false;
         if is_link the_fs abs && inGlobStar then Some here
         else
           below ← mapM (fun e =>
             if is_hidden e && negb (g_dot self) then Some []
             else
               a ← sub_search (prefix_part prefix ++ Text e :: rest) true;
               b ← sub_search (prefix_part prefix ++ Text e :: Globstar :: rest) true;
               Some (a ++ b)) entries;
           Some (here ++ concat below))
        (sub_process (prefix_part prefix ++ rest) false ;;;
         st <- get ;;
         if default false (symlinks st !! abs) && inGlobStar then ret tt
         else for_each entries (fun e =>
           if is_hidden e && negb (g_dot self) then ret tt
           else
             sub_process (prefix_part prefix ++ Text e :: rest) true ;;;
             sub_process (prefix_part prefix ++ Text e :: Globstar :: rest) true)) st.
Proof.
  intros Hrest Hst Hi Hsym.
  assert (refines index (sub_search (prefix_part prefix ++ rest) false) (sub_process (prefix_part prefix ++ rest) false)) as H0
    by (apply sub_ok; by apply has_glob_prefix).
  specialize (H0 st Hst Hi). destruct (sub_search (prefix_part prefix ++ rest) false) as [here|]; cbn [mbind option_bind].
  2: { unfold adds in H0 |- *. unfold bind at 1. by rewrite H0. }
  destruct H0 as (st1 & E1 & Hst1 & Hf1).
  assert (default false (symlinks st1 !! abs) && inGlobStar = is_link the_fs abs && inGlobStar) as Elink.
  { destruct inGlobStar; [|by rewrite !andb_false_r]. rewrite !andb_true_r. destruct Hf1 as (_ & Hs & _).
    destruct (Hs abs) as [b Hb]; [by rewrite Hsym|]. rewrite Hb. by apply (links_true _ _ Hst1). }
  destruct (is_link the_fs abs && inGlobStar) eqn:El.
  { exists st1. unfold bind, get. rewrite E1, Elink. by split_and!. }
  pose proof (refines_for_each index (fun e => if is_hidden e && negb (g_dot self) then Some []
      else a ← sub_search (prefix_part prefix ++ Text e :: rest) true;
           b ← sub_search (prefix_part prefix ++ Text e :: Globstar :: rest) true; Some (a ++ b))
    (fun e => if is_hidden e && negb (g_dot self) then ret tt
      else sub_process (prefix_part prefix ++ Text e :: rest) true ;;;
           sub_process (prefix_part prefix ++ Text e :: Globstar :: rest) true) entries) as Hall.
  assert (index < length (matches st1)) as Hi1 by (destruct Hf1 as [-> _]; done).
  specialize (Hall ltac:(intros e _; apply refines_if; [apply refines_ret|apply refines_bind];
    apply sub_ok, has_glob_prefix; by repeat constructor) st1 Hst1 Hi1).
  pose proof (adds_bind index _ _ _ _ st st1 E1 Hf1 Hall) as Hb. unfold adds, bind at 1 in Hb. rewrite E1 in Hb.
  unfold adds. set (r := bind _ _ st). assert (r = for_each entries (fun e =>
    if is_hidden e && negb (g_dot self) then ret tt
    else sub_process (prefix_part prefix ++ Text e :: rest) true ;;;
         sub_process (prefix_part prefix ++ Text e :: Globstar :: rest) true) st1) as ->.
  { unfold r, bind at 1. rewrite E1. unfold bind at 1, get. by rewrite Elink. }
  by destruct (mapM _ entries).
Qed.

(** [_processReaddir] after the directory has been read. *)
Lemma magic_ok prefix r rawGlob rest inGlobStar entries :
  Forall has_glob rest ->
  refines index
    (let matched := matchedEntries canonicalize self prefix r rawGlob entries in
     if decide (rest = [] /\ mark self = false /\ stat self = false)
     then Some (map (entry_name self prefix) matched)
     else @concat jsstr <$> mapM (fun e => sub_search (prefix_part prefix ++ Text e :: rest) inGlobStar) matched)
    (let matched := matchedEntries canonicalize self prefix r rawGlob entries in
     if decide (matched = []) then ret tt
     else if decide (rest = [] /\ mark self = false /\ stat self = false) then
       ensure_matches index ;;; for_each matched (fun e => add_match index (entry_name self prefix e))
     else for_each matched (fun e => sub_process (prefix_part prefix ++ Text e :: rest) inGlobStar)).
Proof.
  intros Hrest. cbv zeta. set (matched := matchedEntries _ _ _ _ _ _).
  destruct (decide (matched = [])) as [->|_].
  { replace (if decide _ then _ else _) with (Some (@nil jsstr)) by (by destruct (decide _)). apply refines_ret. }
  destruct (decide _).
  - intros st Hst Hi. destruct (ensure_matches_ok index st Hi) as (st1 & E1 & F1 & C1 & M1). unfold adds, bind. rewrite E1.
    destruct (add_names_ok index (entry_name self prefix) matched _ st1 M1) as (st2 & E2 & F2 & C2).
    exists st2. split_and!; [done|by auto|]. by apply (found_more_trans index [] _ st st1 st2).
  - apply refines_for_each. intros e _. apply sub_ok, has_glob_prefix. by repeat constructor.
Qed.
End Step.

Lemma process_search fuel index pattern inGlobStar :
  Forall has_glob pattern ->
  refines index (search fuel pattern inGlobStar) (_process toLowerCase canonicalize the_fs self fuel pattern index inGlobStar).
Proof.
  revert pattern inGlobStar. induction fuel as [|fuel IH]; intros pattern inGlobStar Hp; [by intros st _ _|].
  cbn [search _process]. destruct (drop _ pattern) as [|pn rest] eqn:Ed; [apply processSimple_ok|].
  destruct (has_glob_rest _ _ _ Hp Ed) as [Hpn Hrest]. cbv zeta.
  set (prefix := match leading_texts pattern with [] => None | _ => _ end). clearbody prefix.
  destruct (childrenIgnored _ _ _ _); [apply refines_ret|].
  intros st Hst Hi.
  destruct (readdir_ok (default «"."» prefix) inGlobStar st Hst) as (st1 & E1 & Hst1 & Hs1 & Hl1).
  assert (index < length (matches st1)) as Hi1 by (destruct Hs1 as [-> _]; done).
  set (sub_process := fun ps b => _process toLowerCase canonicalize the_fs self fuel ps index b).
  assert (match pn with
    | Globstar => _processGlobStar the_fs self (_process toLowerCase canonicalize the_fs self fuel) prefix
                    (makeAbs self (default «"."» prefix)) rest index inGlobStar
    | _ => _processReaddir canonicalize the_fs self (_process toLowerCase canonicalize the_fs self fuel) prefix
             (makeAbs self (default «"."» prefix)) pn rest index inGlobStar
    end = bind (_readdir the_fs self (makeAbs self (default «"."» prefix)) inGlobStar) (fun entries =>
      match entries with
      | None => ret tt
      | Some entries => match pn with
        | Globstar => _
        | _ => _
        end
      end)) as -> by (by destruct pn).
  eapply adds_read; [exact E1|exact Hs1|].
  destruct (readdir_opt the_fs _) as [entries|]; [|by apply refines_ret].
  destruct pn as [|t|r src [rawGlob|]]; [| | |done].
  - apply (globstar_ok index (search fuel) sub_process IH); [done..|]. intros ->. apply Hl1; [done|]. by eexists.
  - by apply refines_ret.
  - by apply (magic_ok index (search fuel) sub_process IH).
Qed.

Lemma process_all_search fuel i set st nss :
  Forall (Forall has_glob) set -> coherent the_fs st -> i + length set <= length (matches st) ->
  mapM (fun p => search fuel p false) set = Some nss ->
  exists st', process_all toLowerCase canonicalize the_fs self fuel i set st = Ok tt st' /\ coherent the_fs st' /\
    length (matches st') = length (matches st) /\
    (forall j names, nss !! j = Some names -> keys st' (i + j) = add_all (keys st (i + j)) names) /\
    (forall j, j < i -> keys st' j = keys st j).
Proof.
  revert i st nss. induction set as [|p set IH]; intros i st nss Hall Hst Hlen Hm; cbn [mapM process_all length] in *.
  { injection Hm as <-. exists st. by split_and!. }
  apply Forall_cons in Hall as [Hp Hall].
  assert (i < length (matches st)) as Hi by lia.
  pose proof (process_search fuel i p false Hp st Hst Hi) as Hs. unfold adds in Hs.
  destruct (search fuel p false) as [names|]; [|done]. cbn in Hm.
  destruct (mapM _ set) as [nss'|] eqn:Em; [|done]. injection Hm as <-.
  destruct Hs as (st1 & E1 & Hst1 & Hl1 & _ & K1). unfold bind. rewrite E1.
  destruct (IH (S i) st1 nss' Hall Hst1) as (st2 & E2 & Hst2 & Hl2 & K2 & K2'); [lia|done|].
  exists st2. split_and!; [done|done|lia| |].
  - intros [|j] n Hj; cbn in Hj; simplify_eq.
    + rewrite Nat.add_0_r, K2' by lia. rewrite K1. by rewrite decide_True.
    + replace (i + S j) with (S i + j) by lia. rewrite (K2 j n Hj), K1. by rewrite decide_False by lia.
  - intros j Hj. rewrite K2' by lia. rewrite K1. by rewrite decide_False by lia.
Qed.
End Refinement.

(** ** The list of names *)

Lemma elem_of_add_key k ks x : x ∈ add_key k ks <-> x ∈ ks \/ x = k.
Proof. unfold add_key. case_decide; set_solver. Qed.

Lemma elem_of_add_all ks names x : x ∈ add_all ks names <-> x ∈ ks \/ x ∈ names.
Proof.
  unfold add_all. revert ks. induction names as [|k names IH]; intros ks; cbn [foldl]; [set_solver|].
  rewrite IH, elem_of_add_key. set_solver.
Qed.

Lemma NoDup_add_all ks names : NoDup ks -> NoDup (add_all ks names).
Proof.
  unfold add_all. revert ks. induction names as [|k names IH]; intros ks Hks; cbn [foldl]; [done|].
  apply IH. unfold add_key. case_decide; [done|]. apply NoDup_app. split_and!; [done|set_solver|apply NoDup_singleton].
Qed.

Lemma object_keys_perm ks : object_keys ks ≡ₚ ks.
Proof.
  unfold object_keys. rewrite merge_sort_Permutation.
  induction ks as [|k ks IH]; [done|]. rewrite !filter_cons.
  destruct (decide (is_Some (array_index k))) as [H|H]; case_decide; try done.
  - cbn [app]. by rewrite IH.
  - rewrite <- Permutation_middle. by rewrite IH.
Qed.

Lemma contributed_elem (self : glob) st x :
  x ∈ concat (contributed self st) <->
  exists i, i < length (matches st) /\
    (x ∈ keys st i \/ keys st i = [] /\ g_nonull self = true /\ x = default «"undefined"» (m_globSet (minimatch_ self) !! i)).
Proof.
  unfold contributed. rewrite list_elem_of_In, in_concat. split.
  - intros (l & Hl & Hx). apply list_elem_of_In in Hl. apply list_elem_of_In in Hx. apply elem_of_lookup_imap in Hl as (i & m & -> & Hi). exists i.
    split; [by eapply lookup_lt_Some|]. unfold keys. rewrite Hi. cbn [mjoin option_join].
    destruct m as [[|k ks]|]; cbn [default from_option id].
    + destruct (g_nonull self); set_solver.
    + left. by rewrite object_keys_perm in Hx.
    + destruct (g_nonull self); set_solver.
  - intros (i & Hi & Hx). destruct (lookup_lt_is_Some_2 _ _ Hi) as [m Hm]. unfold keys in Hx. rewrite Hm in Hx. cbn [mjoin option_join] in Hx.
    eexists. split; [apply list_elem_of_In, elem_of_lookup_imap; exists i, m; split; [reflexivity|done]|].
    apply list_elem_of_In.
    destruct m as [[|k ks]|]; cbn [default from_option id] in Hx; [|by rewrite object_keys_perm; destruct Hx as [|[? _]]|];
      (destruct Hx as [Hx|(_ & -> & ->)]; [by apply elem_of_nil in Hx|by left]).
Qed.

(** ** Termination

    Directories nest finitely deep: a rank below [R] goes down from every
    directory that is not reached through a link as its last step. *)
Definition nested (the_fs : fs) (rank : list jsstr -> nat) (R : nat) : Prop :=
  (forall ns, rank ns < R) /\
  (forall p l, readdirSync the_fs p = inl l -> Forall is_name l) /\
  (forall ns l e, Forall is_name ns -> lstatSync the_fs (abs_path ns false) = Some Directory ->
     readdirSync the_fs (abs_path ns false) = inl l -> e ∈ l -> rank (ns ++ [e]) < rank ns).

(** The parts of a pattern that are not strings. *)
Fixpoint magics (ps : list part) : nat :=
  match ps with
  | [] => 0
  | Text _ :: ps => magics ps
  | _ :: ps => S (magics ps)
  end.

Lemma magics_app ps qs : magics (ps ++ qs) = magics ps + magics qs.
Proof. induction ps as [|[] ps IH]; cbn; congruence. Qed.

Lemma magics_prefix prefix ps : magics (prefix_part prefix ++ ps) = magics ps.
Proof. rewrite magics_app. unfold prefix_part. repeat case_match; done. Qed.

Lemma leading_texts_rest ps :
  ps = map Text (leading_texts ps) ++ drop (length (leading_texts ps)) ps /\
  (forall s rest, drop (length (leading_texts ps)) ps <> Text s :: rest).
Proof. induction ps as [|[|s|r src g] ps [IH1 IH2]]; cbn; [done|done| |done]. split; [by f_equal|done]. Qed.

Lemma magics_rest ps pn rest :
  drop (length (leading_texts ps)) ps = pn :: rest -> magics ps = S (magics rest) /\ (forall s, pn <> Text s).
Proof.
  intros E. destruct (leading_texts_rest ps) as [Hps Hn]. rewrite E in Hps, Hn.
  assert (magics (map Text (leading_texts ps)) = 0) as H0.
  { generalize (leading_texts ps). intros l. by induction l. }
  split; [|by intros s ->; eapply Hn]. rewrite Hps, magics_app, H0. destruct pn as [|s|]; [done| |done]. by destruct (Hn s rest).
Qed.

Section Termination.
Variable toLowerCase : jsstr -> jsstr.
Variable canonicalize : N -> N.
Variable the_fs : fs.
Variable self : glob.
Hypothesis root_slash : root self = [slash].
Hypothesis fs_ok : readable the_fs.
Variable rank : list jsstr -> nat.
Variable R : nat.
Hypothesis fs_nested : nested the_fs rank R.

Let srch := search toLowerCase canonicalize the_fs self.

(** Fuel for patterns with [k] parts that are not strings. *)
Definition enough (k : nat) : nat := k * (R + 2) + 1.

Lemma mapM_total {A B} (f : A -> option B) l : (forall x, x ∈ l -> is_Some (f x)) -> is_Some (mapM f l).
Proof. intros H. apply mapM_is_Some, Forall_forall. done. Qed.

Lemma matchedEntries_sub prefix r g entries : matchedEntries canonicalize self prefix r g entries ⊆ entries.
Proof. intros e He. unfold matchedEntries in He. by apply list_elem_of_filter in He as [_ He]. Qed.

(** The prefix that the walk goes on with below a directory. *)
Lemma prefix_not_empty ps pn rest :
  drop (length (leading_texts ps)) ps = pn :: rest -> leading_texts ps <> [] ->
  absolute_prefix self ps (join [slash] (leading_texts ps)) <> [].
Proof.
  intros E Hne. destruct (leading_texts_rest ps) as [Hps _]. rewrite E in Hps. unfold absolute_prefix.
  destruct (join [slash] (leading_texts ps)) as [|c q] eqn:Ej.
  - assert (leading_texts ps = [[]]) as El by (by destruct (leading_texts ps) as [|[|] []]).
    rewrite El in Hps. rewrite Hps. cbn. done.
  - repeat case_match; done.
Qed.

Definition next_prefix (prefix : option jsstr) (e : jsstr) : jsstr :=
  match prefix with Some (c :: p) => (c :: p) ++ [slash] ++ e | _ => e end.

Lemma below_shape prefix e rest :
  is_name e -> (forall p, prefix = Some p -> p <> []) ->
  let ps := prefix_part prefix ++ Text e :: Globstar :: rest in
  leading_texts ps <> [] /\ drop (length (leading_texts ps)) ps = Globstar :: rest /\
  absolute_prefix self ps (join [slash] (leading_texts ps)) = next_prefix prefix e.
Proof.
  intros He Hp. pose proof He as (Hne & _). apply is_name_relative in He.
  destruct prefix as [[|c p]|]; [by destruct (Hp [])| |]; cbn [prefix_part app leading_texts length drop join next_prefix].
  - split_and!; [done..|]. unfold absolute_prefix.
    assert (posix_isAbsolute (pattern_join self (Text (c :: p) :: Text e :: Globstar :: rest)) =
            posix_isAbsolute ((c :: p) ++ slash :: e)) as -> by done.
    by destruct (posix_isAbsolute _).
  - split_and!; [done..|]. unfold absolute_prefix.
    assert (posix_isAbsolute (pattern_join self (Text e :: Globstar :: rest)) = isAbsolute e) as -> by (by destruct e).
    change (posix_isAbsolute e) with (isAbsolute e). by rewrite He.
Qed.

Lemma next_prefix_names prefix e :
  is_name e -> (forall p, prefix = Some p -> p <> []) ->
  dir_names self (next_prefix prefix e) = dir_names self (default «"."» prefix) ++ [e] /\
  makeAbs self (next_prefix prefix e) = abs_path (dir_names self (next_prefix prefix e)) false /\
  next_prefix prefix e <> [].
Proof.
  intros He Hp. pose proof He as (Hne & _). pose proof (name_end (default [] prefix) e He) as [Hl1 Hl2].
  destruct prefix as [[|c p]|]; [by destruct (Hp [])| |]; cbn [next_prefix default from_option id] in *.
  - split_and!; [by apply dir_names_child|by apply makeAbs_inner|done].
  - split_and!; [by apply dir_names_entry|by apply makeAbs_inner|done].
Qed.

(** The prefix that [_process] computes. *)
Definition prefix_of_pattern (ps : list part) : option jsstr :=
  match leading_texts ps with [] => None | _ => Some (absolute_prefix self ps (join [slash] (leading_texts ps))) end.

Lemma search_step fuel ps b :
  (forall qs b', magics qs < magics ps -> is_Some (srch fuel qs b')) ->
  (forall rest l e, drop (length (leading_texts ps)) ps = Globstar :: rest ->
     readdirSync the_fs (makeAbs self (default «"."» (prefix_of_pattern ps))) = inl l -> e ∈ l ->
     is_link the_fs (makeAbs self (default «"."» (prefix_of_pattern ps))) && b = false ->
     is_Some (srch fuel (prefix_part (prefix_of_pattern ps) ++ Text e :: Globstar :: rest) true)) ->
  is_Some (srch (S fuel) ps b).
Proof.
  intros H1 H2. unfold srch in *. cbn [search]. fold (prefix_of_pattern ps).
  destruct (drop _ ps) as [|pn rest] eqn:Ed; [by eexists|].
  destruct (magics_rest ps pn rest Ed) as [Hm Hpn].
  destruct (childrenIgnored _ _ _ _); [by eexists|]. unfold readdir_opt.
  destruct (readdirSync the_fs _) as [l|er] eqn:Er; [|by eexists].
  assert (forall e b', is_Some (search toLowerCase canonicalize the_fs self fuel
    (prefix_part (prefix_of_pattern ps) ++ Text e :: rest) b')) as Hi by (intros e b'; apply H1; rewrite magics_prefix; cbn; lia).
  destruct pn as [|s|r src [g|]]; [|by destruct (Hpn s)| |by eexists].
  - destruct (H1 (prefix_part (prefix_of_pattern ps) ++ rest) false) as [here Eh]; [rewrite magics_prefix; lia|].
    rewrite Eh. cbn [mbind option_bind]. destruct (is_link _ _ && b) eqn:El; [by eexists|].
    match goal with |- is_Some (mbind _ ?m) => assert (is_Some m) as [below ->]; [|by eexists] end.
    apply mapM_total. intros e He. destruct (is_hidden e && negb (g_dot self)); [by eexists|].
    destruct (Hi e true) as [x ->]. destruct (H2 rest l e eq_refl eq_refl He eq_refl) as [y ->]. by eexists.
  - cbv zeta. destruct (decide _); [by eexists|]. apply fmap_is_Some, mapM_total. intros e _. apply Hi.
Qed.

Lemma below_total k :
  (forall qs b fuel, magics qs <= k -> enough k <= fuel -> is_Some (srch fuel qs b)) ->
  forall fuel prefix e rest, is_name e -> (forall p, prefix = Some p -> p <> []) -> magics rest <= k ->
  enough k + 1 + rank (dir_names self (next_prefix prefix e)) <= fuel ->
  is_Some (srch fuel (prefix_part prefix ++ Text e :: Globstar :: rest) true).
Proof.
  intros HA fuel. induction fuel as [|fuel IH]; intros prefix e rest He Hp Hk Hf; [lia|].
  destruct (below_shape prefix e rest He Hp) as (Hl & Hd & Ha).
  destruct (next_prefix_names prefix e He Hp) as (_ & Habs & Hnp). set (np := next_prefix prefix e) in *.
  assert (prefix_of_pattern (prefix_part prefix ++ Text e :: Globstar :: rest) = Some np) as Epre.
  { unfold prefix_of_pattern. rewrite Ha. by destruct (leading_texts _). }
  apply search_step; rewrite ?Epre; cbn [default from_option id].
  - intros qs b' Hq. rewrite magics_prefix in Hq. cbn in Hq. apply HA; lia.
  - intros rest' l e' Hd' Hr He' Hlink. rewrite Hd in Hd'. injection Hd' as <-. rewrite andb_true_r in Hlink.
    destruct fs_nested as (_ & Hnames & Hrank). pose proof (Hnames _ _ Hr) as Hall. rewrite Forall_forall in Hall.
    assert (forall p, Some np = Some p -> p <> []) as Hp' by (by intros p [= <-]).
    destruct (next_prefix_names (Some np) e' (Hall _ He') Hp') as (Hn' & _). cbn [default from_option id] in Hn'.
    apply IH; [by apply Hall|done|done|]. rewrite Hn'. rewrite Habs in Hr, Hlink.
    assert (rank (dir_names self np ++ [e']) < rank (dir_names self np)); [|lia].
    apply (Hrank _ l); [by apply makeAbs_names| |done|done].
    apply (read_entries _ fs_ok) in Hr as [Hst _]. unfold fresh_stat, is_link in *.
    destruct (lstatSync the_fs _) as [[]|]; try done.
Qed.

(** The walk always ends, within a number of steps that the depth of the
    directories and the pattern give. *)
Lemma search_total k ps b fuel : magics ps <= k -> enough k <= fuel -> is_Some (srch fuel ps b).
Proof.
  revert ps b fuel. induction k as [|k IH]; intros ps b [|fuel] Hk Hf; unfold enough in Hf; try lia.
  - apply search_step; intros qs; [intros; lia|]. intros l e Hd. apply magics_rest in Hd as [Hd _]. lia.
  - apply search_step.
    + intros qs b' Hq. apply IH; unfold enough; lia.
    + intros rest l e Hd Hr He _. destruct fs_nested as (HR & Hnames & _).
      pose proof (Hnames _ _ Hr) as Hall. rewrite Forall_forall in Hall.
      destruct (magics_rest _ _ _ Hd) as [Hm _]. apply (below_total k IH); [by apply Hall| |lia|].
      * intros p Hp. pose proof (prefix_not_empty ps _ rest Hd) as Hne. unfold prefix_of_pattern in Hp.
        destruct (leading_texts ps); [done|]. injection Hp as <-. by apply Hne.
      * specialize (HR (dir_names self (next_prefix (prefix_of_pattern ps) e))). unfold enough. lia.
Qed.
End Termination.
