(* ===== verification/GlobTheorems.v ===== *)
(** * glob: what [GlobSync] finds

    The names that the walk finds are matched by minimatch; and what the whole
    of [GlobSync] returns. *)

From S2P Require Import Prelude BraceExpansion Regex Minimatch MinimatchProps NodePath GlobSync GlobProps.

(** ** The names match the pattern *)

(** Relative patterns, as minimatch splits them; the first part may already be
    a path. *)
Definition text_part (p : part) : Prop := match p with Text s => is_part s | _ => True end.

Definition relative_path (t : jsstr) : Prop := t <> [] /\ isAbsolute t = false /\ last t <> Some slash.

Definition relative_pattern (ps : list part) : Prop :=
  match ps with Text t :: _ => relative_path t | _ => True end /\ Forall text_part (tail ps).

Lemma matchOne_texts lower canon opts texts ps segs :
  matchOne lower canon opts (map Text texts ++ ps) (texts ++ segs) false = matchOne lower canon opts ps segs false.
Proof.
  induction texts as [|t texts IH]; [done|]. cbn [map app matchOne part_hit].
  by destruct (nocase opts); rewrite bool_decide_true by done.
Qed.

Lemma matchOne_globstar_here lower canon opts ps segs :
  ps <> [] -> matchOne lower canon opts ps segs false = true -> matchOne lower canon opts (Globstar :: ps) segs false = true.
Proof.
  intros Hne H. destruct segs as [|s segs]; [by destruct ps as [|[] ps]|].
  cbn [matchOne]. destruct ps as [|p ps]; [done|]. cbn [globstar_loop]. by rewrite H.
Qed.

Lemma matchOne_globstar_below lower canon opts ps e segs :
  ps <> [] -> swallows opts e = true -> matchOne lower canon opts (Globstar :: ps) segs false = true ->
  matchOne lower canon opts (Globstar :: ps) (e :: segs) false = true.
Proof.
  intros Hne He H. destruct segs as [|s segs]; [by destruct ps|].
  destruct ps as [|p ps]; [done|]. cbn [matchOne] in H |- *.
  change (globstar_loop ?o ?f ?b (e :: s :: segs)) with
    (if f (e :: s :: segs) then true else if swallows o e then globstar_loop o f b (s :: segs) else false).
  rewrite He, H. match goal with |- (if ?b then _ else _) = _ => by destruct b end.
Qed.

Section Sound.
Variable toLowerCase : jsstr -> jsstr.
Variable canonicalize : N -> N.
Variable the_fs : fs.
Variable self : glob.
Let opts := m_options (minimatch_ self).
Hypothesis same_dot : g_dot self = dot opts.
Hypothesis not_negated : m_negate (minimatch_ self) = false.
Hypothesis same_case : nocase opts = false.
Hypothesis names_only : forall p l, readdirSync the_fs p = inl l -> Forall is_name l.

Let srch := search toLowerCase canonicalize the_fs self.
Let hits := matchOne toLowerCase canonicalize opts.

(** [name] is a path of segments that the pattern matches. *)
Definition matched_by (ps : list part) (name : jsstr) : Prop :=
  exists segs, name = join [slash] segs /\ hits ps segs false = true /\ segs <> [] /\ Forall is_part (tail segs) /\
    match ps with Text t :: _ => head segs = Some t | _ => Forall is_part segs end.

Lemma entry_swallowed e : is_name e -> is_hidden e && negb (g_dot self) = false -> swallows opts e = true.
Proof.
  intros (Hn & H1 & H2 & _) Hh. unfold swallows. rewrite !bool_decide_false by done. cbn [orb].
  rewrite <- same_dot. unfold is_hidden in Hh. by rewrite andb_comm, Hh.
Qed.

Lemma join_prefix_cons (ts : list jsstr) segs :
  ts <> [] -> segs <> [] -> join [slash] (join [slash] ts :: segs) = join [slash] (ts ++ segs).
Proof. intros H1 H2. rewrite join_app by done. destruct segs; [done|]. by rewrite join_cons. Qed.

Lemma is_part_relative s : is_part s -> relative_path s.
Proof.
  intros [Hne Hs]. split_and!; [done| |].
  - apply not_true_is_false. rewrite isAbsolute_head. destruct s; [done|]. intros [= ->]. apply Hs. by left.
  - intros Hl. by apply last_Some_elem_of in Hl.
Qed.

Lemma join_relative t ts : relative_path t -> Forall is_part ts -> relative_path (join [slash] (t :: ts)).
Proof.
  intros (Hne & Ha & Hl) Hts. destruct t as [|c t]; [done|]. destruct ts as [|u ts]; [done|].
  rewrite join_cons. split_and!; [done|done|]. rewrite !last_app.
  destruct (join_last slash (u :: ts)) as (d & Hd & Hds); [done|done|]. rewrite Hd. congruence.
Qed.

(** The shape of a pattern at the first part that is not a string. *)
Lemma pattern_shape ps :
  relative_pattern ps ->
  ps = map Text (leading_texts ps) ++ drop (length (leading_texts ps)) ps /\
  match leading_texts ps with
  | [] => True
  | t :: ts => relative_path (join [slash] (t :: ts)) /\ Forall is_part ts /\
      absolute_prefix self ps (join [slash] (t :: ts)) = join [slash] (t :: ts)
  end /\
  Forall text_part (tail (drop (length (leading_texts ps)) ps)).
Proof.
  intros [Hh Ht]. destruct (leading_texts_rest ps) as [E _]. split; [done|].
  set (d := drop (length (leading_texts ps)) ps) in *. clearbody d.
  destruct (leading_texts ps) as [|t ts] eqn:El; cbn [map app] in E; [by subst|].
  clear El. subst ps. cbn [tail] in Hh, Ht. apply Forall_app in Ht as [Hts Ht].
  assert (Forall is_part ts) as Hts' by (by rewrite Forall_map in Hts).
  assert (relative_path (join [slash] (t :: ts))) as Hrel by (by apply join_relative).
  split_and!; [done|done| |by destruct Ht].
  unfold absolute_prefix. destruct Hrel as (_ & Ha & _). change (posix_isAbsolute ?x) with (isAbsolute x). rewrite Ha.
  assert (isAbsolute (pattern_join self (Text t :: map Text ts ++ d)) = isAbsolute t) as ->.
  { destruct Hh as (Hne & _ & _). destruct t as [|c t]; [done|]. unfold pattern_join. cbn [map part_string].
    by destruct (map (part_string self) _). }
  destruct Hh as (_ & -> & _). done.
Qed.

(** The two ways in which a directory is named. *)
Definition good_prefix (texts : list jsstr) (prefix : option jsstr) : Prop :=
  match texts with
  | [] => prefix = None
  | t :: ts => prefix = Some (join [slash] (t :: ts)) /\ relative_path (join [slash] (t :: ts)) /\ Forall is_part ts
  end.

Lemma sub_relative texts prefix qs :
  good_prefix texts prefix -> Forall text_part qs -> relative_pattern (prefix_part prefix ++ qs).
Proof.
  destruct texts as [|t ts]; cbn [good_prefix].
  - intros -> Hq. cbn. split; [|by destruct Hq]. destruct Hq as [|[| |] qs Hq _]; [done|done| |done]. by apply is_part_relative.
  - intros (-> & Hr & _) Hq. destruct Hr as (Hne & Ha & Hl). unfold prefix_part.
    destruct (join [slash] (t :: ts)) as [|c p]; [done|]. by split.
Qed.

(** A name found below a directory is the directory's name and segments that
    match the rest. *)
Lemma sub_matched texts prefix qs name :
  good_prefix texts prefix -> Forall text_part qs -> matched_by (prefix_part prefix ++ qs) name ->
  exists segs, name = join [slash] (texts ++ segs) /\ hits qs segs false = true /\ Forall is_part segs.
Proof.
  destruct texts as [|t ts]; cbn [good_prefix].
  - intros -> Hq (segs & -> & Hh & Hne & Ht & Hhd). exists segs. split_and!; [done|done|].
    destruct qs as [|[|s|] qs]; try done. destruct segs as [|x segs]; [done|]. cbn in Hhd. injection Hhd as ->.
    apply Forall_cons in Hq as [Hq _]. by constructor.
  - intros (-> & Hr & Hts) Hq Hm. set (p := join [slash] (t :: ts)) in *.
    assert (prefix_part (Some p) ++ qs = Text p :: qs) as E by (by destruct p; [destruct Hr|]).
    rewrite E in Hm. destruct Hm as (segs & -> & Hh & Hne & Ht & Hhd).
    destruct segs as [|x segs]; [done|]. cbn in Hhd. injection Hhd as ->. exists segs.
    split_and!; [|unfold hits in *; by rewrite <- (matchOne_texts toLowerCase canonicalize opts [p] qs segs)|done].
    destruct segs as [|y segs]; [by rewrite app_nil_r|]. by apply (join_prefix_cons (t :: ts)).
Qed.

Lemma close_match ps segs :
  relative_pattern ps -> hits (drop (length (leading_texts ps)) ps) segs false = true ->
  leading_texts ps ++ segs <> [] -> Forall is_part segs -> matched_by ps (join [slash] (leading_texts ps ++ segs)).
Proof.
  intros Hps Hh Hne Hs. destruct (pattern_shape ps Hps) as (E & Ht & _). destruct (leading_texts_rest ps) as [_ Hn].
  exists (leading_texts ps ++ segs). split_and!; [done| |done| |].
  - rewrite E at 1. unfold hits in *. by rewrite <- (matchOne_texts toLowerCase canonicalize opts (leading_texts ps)) in Hh.
  - destruct (leading_texts ps) as [|t ts]; [by destruct Hs|]. destruct Ht as (_ & Hts & _). by apply Forall_app.
  - destruct ps as [|[| |] ps]; done.
Qed.

Lemma mapM_elem {A B} (f : A -> option (list B)) l ls x :
  mapM f l = Some ls -> x ∈ concat ls -> exists a bs, a ∈ l /\ f a = Some bs /\ x ∈ bs.
Proof.
  intros Hm Hx. apply list_elem_of_In, in_concat in Hx as (bs & Hbs & Hx).
  apply list_elem_of_In in Hbs. apply list_elem_of_In in Hx.
  apply mapM_Some_1 in Hm. apply list_elem_of_lookup in Hbs as [i Hi].
  destruct (Forall2_lookup_r _ _ _ _ _ Hm Hi) as (a & Ha & Hfa). exists a, bs. split_and!; [|done|done].
  by eapply list_elem_of_lookup_2.
Qed.

Lemma matchedEntries_hit texts prefix r src g entries e :
  good_prefix texts prefix -> e ∈ matchedEntries canonicalize self prefix r g entries ->
  e ∈ entries /\ part_hit toLowerCase canonicalize opts (Magic r src (Some g)) e = true.
Proof.
  intros _ He. unfold matchedEntries in He. apply list_elem_of_filter in He as [He Hin]. split; [done|].
  apply andb_true_iff in He as [_ He]. rewrite not_negated in He.
  cbn [andb xorb] in He. by destruct (regex_test (flag_i canonicalize (m_options (minimatch_ self))) r e) eqn:E.
Qed.

Lemma entry_name_relative texts prefix e :
  good_prefix texts prefix -> is_name e -> entry_name self prefix e = join [slash] (texts ++ [e]).
Proof.
  intros Hp He. pose proof (is_name_relative e He) as Ha. destruct texts as [|t ts]; cbn [good_prefix] in Hp.
  - subst prefix. unfold entry_name. rewrite decide_False; [done|]. intros [Hc _].
    unfold isAbsolute in Ha. by rewrite bool_decide_true in Ha.
  - destruct Hp as (-> & (Hne & Hpa & Hl) & _). rewrite join_app by done. change (join [slash] [e]) with e.
    destruct (join [slash] (t :: ts)) as [|c p] eqn:Ej; [done|]. unfold entry_name.
    rewrite (decide_False (P := slice_last 1 _ = _)).
    2: { intros Hs. apply Hl. unfold slice_last in Hs. rewrite last_lookup. cbn [length] in *.
         replace (pred (S (length p))) with (S (length p) - 1) by lia.
         rewrite <- (Nat.add_0_r (S (length p) - 1)), <- lookup_drop, Hs. done. }
    rewrite decide_False; [done|]. intros [Hc _]. unfold isAbsolute in Hpa. cbn in Hc, Hpa. by rewrite bool_decide_true in Hpa.
Qed.

Lemma mount_relative f : isAbsolute f = false -> mount self f = f.
Proof. intros Ha. unfold mount. rewrite decide_False; [done|]. intros (_ & H & _). change (isAbsolute f = true) in H. congruence. Qed.

Lemma hits_text e qs segs : hits (Text e :: qs) segs false = true -> exists segs', segs = e :: segs' /\ hits qs segs' false = true.
Proof.
  unfold hits. destruct segs as [|f segs]; [done|]. cbn [matchOne part_hit]. rewrite same_case.
  case_bool_decide as E; [subst|done]. eauto.
Qed.

Lemma hits_not_nil q qs : hits (q :: qs) [] false = true -> False.
Proof. by destruct q. Qed.

(** One step: names found below the directory, by the sub-patterns of a part,
    give names that the part and the rest match. *)
Section SoundStep.
Variable ps : list part.
Variable prefix : option jsstr.
Variable sub : list part -> bool -> option (list jsstr).
Hypothesis Hps : relative_pattern ps.
Hypothesis Hgp : good_prefix (leading_texts ps) prefix.
Hypothesis IH : forall q b names name, relative_pattern q -> last q <> Some Globstar -> q <> [] ->
  sub q b = Some names -> name ∈ names -> matched_by q name.

Lemma sub_sound q b names name :
  Forall text_part q -> q <> [] -> last q <> Some Globstar -> sub (prefix_part prefix ++ q) b = Some names -> name ∈ names ->
  exists segs, name = join [slash] (leading_texts ps ++ segs) /\ hits q segs false = true /\ Forall is_part segs.
Proof.
  intros Hq Hne Hl Hs Hin. eapply sub_matched; [done|done|]. apply (IH _ b names); [by eapply sub_relative| | |done|done].
  - rewrite last_app. destruct (last q) eqn:E; [done|]. by apply last_None in E.
  - by destruct (prefix_part prefix), q.
Qed.

Lemma globstar_sound b rest entries names name :
  drop (length (leading_texts ps)) ps = Globstar :: rest -> Forall text_part rest -> rest <> [] -> last rest <> Some Globstar ->
  (forall e, e ∈ entries -> is_name e) ->
  (here ← sub (prefix_part prefix ++ rest) false;
   if b : bool then Some here
   else below ← mapM (fun e =>
          if is_hidden e && negb (g_dot self) then Some []
          else a ← sub (prefix_part prefix ++ Text e :: rest) true;
               b ← sub (prefix_part prefix ++ Text e :: Globstar :: rest) true;
               Some (a ++ b)) entries;
        Some (here ++ concat below)) = Some names ->
  name ∈ names -> matched_by ps name.
Proof.
  intros Ed Hrest Hne Hl Hnames Hs Hin.
  assert (forall segs, hits (Globstar :: rest) segs false = true -> Forall is_part segs ->
    matched_by ps (join [slash] (leading_texts ps ++ segs))) as Hclose.
  { intros segs Hh Hp. apply close_match; [done|by rewrite Ed| |done]. destruct segs; [done|by destruct (leading_texts ps)]. }
  destruct (sub (prefix_part prefix ++ rest) false) as [here|] eqn:Eh; [|done]. cbn [mbind option_bind] in Hs.
  assert (name ∈ here -> matched_by ps name) as Hhere.
  { intros Hi. destruct (sub_sound rest false here name) as (segs & -> & Hh & Hp); [done..|]. apply Hclose; [|done].
    by apply matchOne_globstar_here. }
  destruct b; [injection Hs as <-; by apply Hhere|].
  destruct (mapM _ entries) as [below|] eqn:Eb; [|done]. injection Hs as <-.
  apply elem_of_app in Hin as [Hin|Hin]; [by apply Hhere|].
  destruct (mapM_elem _ _ _ _ Eb Hin) as (e & found & He & Hf & Hi). specialize (Hnames e He).
  destruct (is_hidden e && negb (g_dot self)) eqn:Ehid; [injection Hf as <-; by apply elem_of_nil in Hi|].
  pose proof (entry_swallowed e Hnames Ehid) as Hsw.
  destruct (sub (_ ++ Text e :: rest) true) as [a|] eqn:Ea; [|done]. cbn in Hf.
  destruct (sub (_ ++ Text e :: Globstar :: rest) true) as [c|] eqn:Ec; [|done]. cbn in Hf. injection Hf as <-.
  assert (Forall text_part (Text e :: rest)) as Hq by (constructor; [by apply is_name_part|done]).
  apply elem_of_app in Hi as [Hi|Hi].
  - destruct (sub_sound (Text e :: rest) true a name) as (segs & -> & Hh & Hp); [done|done| |done|done|].
    { destruct rest; [done|]. by rewrite last_cons_cons. }
    apply hits_text in Hh as (segs' & -> & Hh). apply Hclose; [|done].
    apply matchOne_globstar_below; [done|done|]. by apply matchOne_globstar_here.
  - destruct (sub_sound (Text e :: Globstar :: rest) true c name) as (segs & -> & Hh & Hp); [|done| |done|done|].
    { apply Forall_cons in Hq as [Hq1 Hq2]. constructor; [done|by constructor]. }
    { destruct rest; [done|]. by rewrite !last_cons_cons. }
    apply hits_text in Hh as (segs' & -> & Hh). apply Hclose; [|done]. by apply matchOne_globstar_below.
Qed.

Lemma magic_sound b short r src g rest entries names name :
  drop (length (leading_texts ps)) ps = Magic r src (Some g) :: rest -> Forall text_part rest -> last rest <> Some Globstar ->
  (short = true -> rest = []) -> (forall e, e ∈ entries -> is_name e) ->
  (let matched := matchedEntries canonicalize self prefix r g entries in
   if short : bool then Some (map (entry_name self prefix) matched)
   else @concat jsstr <$> mapM (fun e => sub (prefix_part prefix ++ Text e :: rest) b) matched) = Some names ->
  name ∈ names -> matched_by ps name.
Proof.
  intros Ed Hrest Hl Hshort Hnames Hs Hin. cbv zeta in Hs.
  assert (forall e segs, e ∈ matchedEntries canonicalize self prefix r g entries -> hits rest segs false = true ->
    Forall is_part segs -> matched_by ps (join [slash] (leading_texts ps ++ e :: segs))) as Hclose.
  { intros e segs He Hh Hp. destruct (matchedEntries_hit _ _ r src g entries e Hgp He) as [Hin' Hhit].
    apply close_match; [done| | |constructor; [by apply is_name_part, Hnames|done]].
    - rewrite Ed. unfold hits in *. cbn [matchOne]. by rewrite Hhit.
    - by destruct (leading_texts ps). }
  destruct short.
  - injection Hs as <-. apply list_elem_of_fmap in Hin as (e & -> & He). rewrite (Hshort eq_refl) in *.
    destruct (matchedEntries_hit _ _ r src g entries e Hgp He) as [Hin' _].
    rewrite (entry_name_relative _ _ e Hgp) by (by apply Hnames). by apply Hclose.
  - destruct (mapM _ _) as [ls|] eqn:Em; [|done]. injection Hs as <-.
    destruct (mapM_elem _ _ _ _ Em Hin) as (e & found & He & Hf & Hi).
    destruct (matchedEntries_hit _ _ r src g entries e Hgp He) as [Hin' _].
    destruct (sub_sound (Text e :: rest) b found name) as (segs & -> & Hh & Hp); [|done| |done|done|].
    { constructor; [by apply is_name_part, Hnames|done]. }
    { destruct rest; [done|]. by rewrite last_cons_cons. }
    apply hits_text in Hh as (segs' & -> & Hh). apply Forall_cons in Hp as [_ Hp]. by apply Hclose.
Qed.
End SoundStep.

(** Every name that the walk finds is matched by the pattern. *)
Lemma search_sound fuel ps inGlobStar names name :
  relative_pattern ps -> last ps <> Some Globstar -> ps <> [] ->
  srch fuel ps inGlobStar = Some names -> name ∈ names -> matched_by ps name.
Proof.
  revert ps inGlobStar names name. induction fuel as [|fuel IH]; intros ps b names name Hps Hlast Hne0 Hs Hin; [done|].
  destruct (pattern_shape ps Hps) as (E & Hpre & Htail). unfold srch in *. cbn [search] in Hs.
  set (prefix := match leading_texts ps with [] => None | _ => _ end) in Hs.
  assert (good_prefix (leading_texts ps) prefix) as Hgp.
  { unfold prefix, good_prefix. destruct (leading_texts ps); [done|]. destruct Hpre as (? & ? & ->). done. }
  clearbody prefix. destruct (drop _ ps) as [|pn rest] eqn:Ed.
  { injection Hs as <-. destruct (exists_at _ _ _); [|by apply elem_of_nil in Hin]. apply list_elem_of_singleton in Hin as ->.
    rewrite app_nil_r in E. pose proof (close_match ps [] Hps) as Hclose. rewrite app_nil_r, Ed in Hclose.
    destruct (leading_texts ps) as [|t ts]; [by rewrite E in Hne0|]. rewrite mount_relative by apply Hpre.
    by apply Hclose. }
  cbn [tail] in Htail. destruct (childrenIgnored _ _ _ _); [injection Hs as <-; by apply elem_of_nil in Hin|].
  unfold readdir_opt in Hs.
  destruct (readdirSync the_fs _) as [entries|er] eqn:Er; [|by injection Hs as <-; apply elem_of_nil in Hin].
  apply names_only in Er. rewrite Forall_forall in Er.
  assert (last (pn :: rest) <> Some Globstar) as Hl by (rewrite E, last_app_cons in Hlast; done).
  assert (last rest <> Some Globstar) as Hlr by (destruct rest; [done|by rewrite last_cons_cons in Hl]).
  destruct pn as [|s|r src [g|]]; try (injection Hs as <-; by apply elem_of_nil in Hin).
  - eapply (globstar_sound ps prefix _ Hps Hgp IH _ rest entries); [done|done|by intros ->|done|done|exact Hs|done].
  - eapply (magic_sound ps prefix _ Hps Hgp IH b (bool_decide (rest = [] /\ mark self = false /\ stat self = false)) r src g rest entries);
      [done|done|done|by intros [? _]%bool_decide_eq_true|done| |done].
    rewrite <- Hs. cbv zeta. case_bool_decide as Hb; [by rewrite decide_True|by rewrite decide_False].
Qed.
End Sound.

(** ** The whole of [GlobSync] *)

(** A search of the real root that does not follow links or ask for real
    paths or marks. *)
Record plain_search (self : glob) : Prop := PlainSearch {
  at_root : root self = [slash];
  no_follow : follow self = false;
  no_realpath : realpath self = false;
  no_mark : mark self = false;
  does_process : noprocess self = false
}.

Lemma StronglySorted_filter {A} (R : relation A) (P : A -> Prop) `{!forall x, Decision (P x)} l :
  StronglySorted R l -> StronglySorted R (filter P l).
Proof.
  induction 1 as [|x l Hl IH Hx]; [constructor|]. rewrite filter_cons. case_decide; [|done].
  constructor; [done|]. rewrite Forall_forall in Hx |- *. intros y [_ Hy]%list_elem_of_filter. by apply Hx.
Qed.

Section Whole.
Variables rSlash rOpen rClose rComma rPeriod : jsstr.
Variable toLowerCase : jsstr -> jsstr.
Variable canonicalize : N -> N.
Variable locale_le : jsstr -> jsstr -> bool.
Variable the_fs : fs.

(** [localeCompare] orders strings. *)
Definition collation : Prop :=
  (forall a b, locale_le a b = true \/ locale_le b a = true) /\
  (forall a b c, locale_le a b = true -> locale_le b c = true -> locale_le a c = true).

Lemma finish_ok self st :
  mark self = false ->
  exists found, finish toLowerCase canonicalize locale_le self st = Ok found st /\
    (forall x, x ∈ found <-> x ∈ concat (contributed self st) /\ isIgnored toLowerCase canonicalize self x = false) /\
    (nounique self = false -> NoDup found) /\
    (nosort self = false -> collation -> StronglySorted (alphasort toLowerCase locale_le self) found).
Proof.
  intros Hm. unfold finish, bind, get, ret. rewrite Hm. eexists. split; [reflexivity|].
  set (all := concat (contributed self st)).
  set (uniq := if nounique self then all else _).
  set (sorted := if nosort self then uniq else _).
  assert (forall x, x ∈ uniq <-> x ∈ all) as Hu.
  { intros x. unfold uniq. destruct (nounique self); [done|]. rewrite object_keys_perm.
    change (foldl _ [] all) with (add_all [] all). rewrite elem_of_add_all. set_solver. }
  assert (forall x, x ∈ sorted <-> x ∈ uniq) as Hs.
  { intros x. unfold sorted. destruct (nosort self); [done|]. by rewrite merge_sort_Permutation. }
  split_and!.
  - intros x. rewrite list_elem_of_filter, Hs, Hu. naive_solver.
  - intros Hn. apply NoDup_filter. assert (NoDup uniq) as Hnd.
    { unfold uniq. rewrite Hn, object_keys_perm. apply NoDup_add_all. constructor. }
    unfold sorted. destruct (nosort self); [done|]. by rewrite merge_sort_Permutation.
  - intros Hn [Htot Htrans]. apply StronglySorted_filter. unfold sorted. rewrite Hn.
    apply StronglySorted_merge_sort; unfold alphasort.
    + intros a b c. destruct (g_nocase self); eauto.
    + intros a b. destruct (g_nocase self); eauto.
Qed.

(** What one pattern of the set contributes. *)
Definition contributes (self : glob) (i : nat) (names : list jsstr) (x : jsstr) : Prop :=
  x ∈ names \/ names = [] /\ g_nonull self = true /\ x = default «"undefined"» (m_globSet (minimatch_ self) !! i).

Lemma globSync_result pattern o self fuel nss :
  pattern <> [] -> setopts rSlash rOpen rClose rComma rPeriod pattern o = inr self -> plain_search self ->
  readable the_fs -> coherent the_fs (initial_state o self) -> Forall (Forall has_glob) (m_set (minimatch_ self)) ->
  mapM (fun ps => search toLowerCase canonicalize the_fs self fuel ps false) (m_set (minimatch_ self)) = Some nss ->
  exists found st,
    GlobSync rSlash rOpen rClose rComma rPeriod toLowerCase canonicalize locale_le the_fs fuel pattern o = Ok (Some found) st /\
    coherent the_fs st /\
    (forall x, x ∈ found <-> isIgnored toLowerCase canonicalize self x = false /\
       exists i names, nss !! i = Some names /\ contributes self i names x) /\
    (nounique self = false -> NoDup found) /\
    (nosort self = false -> collation -> StronglySorted (alphasort toLowerCase locale_le self) found).
Proof.
  intros Hne Hset [Hroot Hfol Hreal Hmark Hnop] Hfs Hst Hparts Hm. unfold GlobSync.
  rewrite decide_False by done. rewrite Hset, Hnop.
  pose proof (length_replicate (length (m_set (minimatch_ self))) (@None (list jsstr))) as Hlen.
  destruct (process_all_search toLowerCase canonicalize the_fs self Hroot Hfs Hfol fuel 0 (m_set (minimatch_ self))
    (initial_state o self) nss) as (st1 & E1 & Hst1 & Hl1 & K1 & _); [done|done|cbn; lia|done|].
  destruct (finish_ok self st1 Hmark) as (found & Ef & Hel & Hnd & Hsort).
  exists found, st1. split_and!; [|done| |done|done].
  { unfold bind at 1. rewrite E1. unfold _finish, bind, get, ret. rewrite Hreal. cbv beta iota.
    by rewrite Ef. }
  intros x. rewrite Hel, contributed_elem. apply length_mapM in Hm.
  assert (forall i, keys (initial_state o self) i = []) as K0.
  { intros i. unfold keys. cbn. destruct (replicate _ _ !! i) as [m|] eqn:E; [|done].
    apply lookup_replicate in E as [-> _]. done. }
  assert (forall i names, nss !! i = Some names -> keys st1 i = add_all [] names) as Hk.
  { intros i names Hi. rewrite <- (K0 i). by apply (K1 i). }
  assert (forall i names, nss !! i = Some names ->
    (x ∈ keys st1 i \/ keys st1 i = [] /\ g_nonull self = true /\ x = default «"undefined"» (m_globSet (minimatch_ self) !! i)) <->
    contributes self i names x) as Hc.
  { intros i names Hi. rewrite (Hk i names Hi), elem_of_add_all. unfold contributes.
    assert (add_all [] names = [] <-> names = []) as ->; [|set_solver].
    split; [|by intros ->]. intros E. destruct names as [|n ns]; [done|]. exfalso.
    assert (n ∈ add_all [] (n :: ns)) as Hin by (apply elem_of_add_all; right; by left). rewrite E in Hin. by apply elem_of_nil in Hin. }
  split.
  - intros [(i & Hi & Hx) Hig]. split; [done|].
    destruct (lookup_lt_is_Some_2 nss i) as [names Hn]; [cbn in Hl1; lia|]. exists i, names. split; [done|]. by apply Hc.
  - intros [Hig (i & names & Hn & Hx)]. split; [|done]. exists i. split; [|by apply (Hc i names)].
    apply lookup_lt_Some in Hn. cbn in Hl1. lia.
Qed.
End Whole.


(** ** File systems given by a table *)

Inductive node := AFile | ADir (entries : list jsstr) | ALink (target : jsstr).

Fixpoint find_node (t : list (jsstr * node)) (p : jsstr) : option node :=
  match t with
  | [] => None
  | (q, n) :: t => if decide (q = p) then Some n else find_node t p
  end.

Definition follow_link (t : list (jsstr * node)) (p : jsstr) : option node :=
  match find_node t p with Some (ALink q) => find_node t q | r => r end.

Definition table_fs (t : list (jsstr * node)) : fs := Fs
  (fun p => match find_node t p with
            | Some AFile => Some File | Some (ADir _) => Some Directory | Some (ALink _) => Some SymbolicLink | None => None
            end)
  (fun p => match follow_link t p with Some AFile => Some File | Some (ADir _) => Some Directory | _ => None end)
  (fun p => match follow_link t p with Some AFile => inr ENOTDIR | Some (ADir l) => inl l | _ => inr ENOENT end)
  (fun p => inl p).

(** The table is closed and has no links that dangle, and no directory is
    deeper than [d]. *)
Definition is_nameb (e : jsstr) : bool :=
  bool_decide (e <> []) && bool_decide (e <> dot_part) && bool_decide (e <> dotdot_part) && bool_decide (slash ∉ e).

Definition node_ok (t : list (jsstr * node)) (d : nat) (p : jsstr) (n : node) : bool :=
  match n with
  | AFile => true
  | ADir l =>
      forallb (fun e => is_nameb e && bool_decide (is_Some (find_node t (child_key p e)))) l &&
      bool_decide (length (segments p) < d)
  | ALink q =>
      match find_node t q with
      | Some (ADir l) => forallb (fun e => is_nameb e && bool_decide (is_Some (find_node t (child_key p e)))) l
      | Some AFile => true
      | _ => false
      end
  end.

Definition table_ok (t : list (jsstr * node)) (d : nat) : bool := forallb (fun x => node_ok t d x.1 x.2) t.

Lemma is_nameb_spec e : is_nameb e = true -> is_name e.
Proof. unfold is_nameb. rewrite !andb_true_iff, !bool_decide_eq_true. by intros [[[? ?] ?] ?]. Qed.

Lemma find_node_ok t d p n : table_ok t d = true -> find_node t p = Some n -> node_ok t d p n = true.
Proof.
  unfold table_ok. rewrite forallb_Forall, Forall_forall. intros Hall Hf. apply (Hall (p, n)). clear Hall.
  induction t as [|[q m] t IH]; cbn in Hf; [done|]. case_decide; simplify_eq; [by left|]. right. by apply IH.
Qed.

Lemma table_entries t d p l :
  table_ok t d = true -> follow_link t p = Some (ADir l) ->
  Forall (fun e => is_name e /\ is_Some (find_node t (child_key p e))) l.
Proof.
  intros Ht Hf. unfold follow_link in Hf.
  assert (forallb (fun e => is_nameb e && bool_decide (is_Some (find_node t (child_key p e)))) l = true) as H.
  { destruct (find_node t p) as [[|l'|q]|] eqn:E; try done; apply (find_node_ok t d) in E; [|done| |done]; cbn in E.
    - injection Hf as ->. by apply andb_true_iff in E as [E _].
    - by rewrite Hf in E. }
  rewrite forallb_Forall in H. eapply Forall_impl; [exact H|]. intros e He. apply andb_true_iff in He as [H1 H2].
  split; [by apply is_nameb_spec|]. by apply bool_decide_eq_true in H2.
Qed.

Lemma table_readable t d : table_ok t d = true -> readable (table_fs t).
Proof.
  intros Ht. split; cbn.
  - intros p l H. destruct (follow_link t p) as [[|l'|]|] eqn:E; simplify_eq.
    pose proof (table_entries t d p l Ht E) as He. split.
    + unfold fresh_stat. cbn. unfold follow_link in *. destruct (find_node t p) as [[|l'|q]|] eqn:Ep; try done. by rewrite E.
    + eapply Forall_impl; [exact He|]. intros e [_ [n Hn]]. rewrite Hn. by destruct n.
  - intros p er H. unfold follow_link, fresh_stat in *. cbn. unfold follow_link.
    destruct (find_node t p) as [[|l'|q]|] eqn:Ep; simplify_eq; [by exists File| |done].
    pose proof (find_node_ok t d p _ Ht Ep) as Hq. cbn in Hq.
    destruct (find_node t q) as [[|l'|q']|]; simplify_eq; try done. by exists File.
Qed.

Lemma table_nested t d : table_ok t d = true -> nested (table_fs t) (fun ns => d - length ns) (S d).
Proof.
  intros Ht. split_and!; cbn [table_fs lstatSync readdirSync].
  - intros ns. lia.
  - intros p l H. destruct (follow_link t p) as [[|l'|]|] eqn:E; simplify_eq.
    eapply Forall_impl; [by eapply table_entries|]. by intros e [? _].
  - intros ns l e Hns Hl _ _. destruct (find_node t (abs_path ns false)) as [[|l'|]|] eqn:E; simplify_eq.
    apply (find_node_ok t d) in E; [|done]. cbn [node_ok] in E. apply andb_true_iff in E as [_ E]. apply bool_decide_eq_true in E.
    rewrite abs_path_segments in E by done. rewrite length_app. cbn [length]. lia.
Qed.

Lemma empty_coherent the_fs o self :
  o_cache o = ∅ -> o_statCache o = ∅ -> o_symlinks o = ∅ -> coherent the_fs (initial_state o self).
Proof. intros H1 H2 H3. split; cbn; [rewrite H1|rewrite H2|rewrite H3]; intros k x Hx; by rewrite lookup_empty in Hx. Qed.
(** ** Theorems *)

(** C19. Where the caches of [GlobSync] do not show, and the search ends: on a
    file system that can be read (listed entries exist, no dangling links, no
    directory refuses to be listed) and whose directories nest finitely deep,
    from caches that hold nothing false, with the root [/], none of the
    options follow, realpath, mark and noprocess and a non-empty pattern whose
    wildcards compile, and with fuel for the depth and the pattern, [GlobSync] returns exactly the names that the walk without
    caches finds and that are not ignored (or the pattern itself where that is
    asked for), without repetition unless nounique is set and in the order of the
    collation unless nosort is set; and the caches it leaves say what is so.
    Without these conditions the caches do show: [dangling_link_hidden],
    [root_poisons_cache]. *)
Theorem globSync_finds rSlash rOpen rClose rComma rPeriod toLowerCase canonicalize locale_le the_fs
    pattern o self rank R fuel :
  pattern <> [] -> setopts rSlash rOpen rClose rComma rPeriod pattern o = inr self -> plain_search self ->
  readable the_fs -> nested the_fs rank R ->
  coherent the_fs (initial_state o self) -> Forall (Forall has_glob) (m_set (minimatch_ self)) ->
  (forall ps, ps ∈ m_set (minimatch_ self) -> enough R (magics ps) <= fuel) ->
  exists found st nss,
    GlobSync rSlash rOpen rClose rComma rPeriod toLowerCase canonicalize locale_le the_fs fuel pattern o = Ok (Some found) st /\
    coherent the_fs st /\
    mapM (fun ps => search toLowerCase canonicalize the_fs self fuel ps false) (m_set (minimatch_ self)) = Some nss /\
    (forall x, x ∈ found <-> isIgnored toLowerCase canonicalize self x = false /\
       exists i names, nss !! i = Some names /\ contributes self i names x) /\
    (nounique self = false -> NoDup found) /\
    (nosort self = false -> collation locale_le -> StronglySorted (alphasort toLowerCase locale_le self) found).
Proof.
  intros Hne Hset Hplain Hfs Hn Hst Hparts Hfuel.
  destruct (mapM_total (fun ps => search toLowerCase canonicalize the_fs self fuel ps false) (m_set (minimatch_ self))) as [nss Hm].
  { intros ps Hps. by apply (search_total toLowerCase canonicalize the_fs self (at_root _ Hplain) Hfs rank R Hn (magics ps)), Hfuel. }
  destruct (globSync_result rSlash rOpen rClose rComma rPeriod toLowerCase canonicalize locale_le the_fs
    pattern o self fuel nss) as (found & st & E & Hrest); [done..|].
  exists found, st, nss. naive_solver.
Qed.

(** The patterns of a search from the working directory, with nothing set
    that changes what minimatch accepts. *)
Record matching_search (self : glob) : Prop := MatchingSearch {
  s_plain : plain_search self;
  s_dot : g_dot self = dot (m_options (minimatch_ self));
  s_negate : m_negate (minimatch_ self) = false;
  s_case : nocase (m_options (minimatch_ self)) = false;
  s_kind : m_comment (minimatch_ self) = false /\ m_empty (minimatch_ self) = false;
  s_nonull : g_nonull self = false;
  s_set : Forall (fun ps => Forall has_glob ps /\ relative_pattern ps /\ last ps <> Some Globstar /\ ps <> [] /\
                            Forall text_part ps) (m_set (minimatch_ self))
}.

Lemma matched_by_minimatch toLowerCase canonicalize self ps name :
  matching_search self -> ps ∈ m_set (minimatch_ self) ->
  matched_by toLowerCase canonicalize self ps name ->
  match_ toLowerCase canonicalize (minimatch_ self) name false = true.
Proof.
  intros [_ _ Hneg _ [Hcom Hemp] _ Hset] Hps (segs & -> & Hh & Hne & Ht & Hhd).
  rewrite Forall_forall in Hset. destruct (Hset ps Hps) as (_ & _ & Hlast & Hpne & Htext).
  assert (Forall is_part segs) as Hparts.
  { destruct ps as [|[|t|] ps]; [done|done| |done]. destruct segs as [|s segs]; [done|]. injection Hhd as ->.
    apply Forall_cons in Htext as [Htext _]. by constructor. }
  assert (slashSplit (join [slash] segs) = segs) as Hsplit.
  { apply slashSplit_join; [done|]. eapply Forall_impl; [exact Hparts|]. by intros s [? ?]. }
  unfold match_. rewrite Hcom, Hemp, Hneg. rewrite decide_False by naive_solver. rewrite Hsplit.
  assert (existsb (fun pattern => matchOne toLowerCase canonicalize (m_options (minimatch_ self)) pattern
    (if decide (matchBase (m_options (minimatch_ self)) = true /\ length pattern = 1) then [last_name segs] else segs) false)
    (m_set (minimatch_ self)) = true) as ->; [|by destruct (flipNegate _)].
  apply existsb_exists. exists ps. split; [by apply list_elem_of_In|].
  destruct (decide _) as [[_ Hl]|_]; [|done].
  assert (exists s, segs = [s]) as [s ->]; [|done].
  destruct ps as [|p [|]]; [done| |done]. destruct segs as [|s segs]; [done|]. exists s. f_equal.
  destruct p as [|t|]; [done| |]; cbn [matchOne] in Hh; (destruct (part_hit _ _ _ _ s); [|done]);
    (destruct segs as [|s2 segs]; [done|]; cbn in Hh; apply bool_decide_eq_true in Hh as [-> ->];
     apply Forall_cons in Ht as [[? _] _]; done).
Qed.

(** C21. The synchronous search of relative patterns of which none ends in a
    globstar, on a file system and from caches as in C19, with the root [/] and
    none of the options follow, realpath, mark, noprocess, nocase and nonull, and
    with a pattern that is no comment and no negation and whose wildcards
    compile, returns, with fuel for the depth and the patterns, and every name it returns is one that minimatch accepts.
    A pattern that ends in a globstar also finds the directory itself, which
    minimatch does not accept: [globstar_finds_directory]. *)
Theorem globSync_matches rSlash rOpen rClose rComma rPeriod toLowerCase canonicalize locale_le the_fs
    pattern o self rank R fuel :
  pattern <> [] -> setopts rSlash rOpen rClose rComma rPeriod pattern o = inr self -> matching_search self ->
  readable the_fs -> nested the_fs rank R -> coherent the_fs (initial_state o self) ->
  (forall ps, ps ∈ m_set (minimatch_ self) -> enough R (magics ps) <= fuel) ->
  exists found st,
    GlobSync rSlash rOpen rClose rComma rPeriod toLowerCase canonicalize locale_le the_fs fuel pattern o = Ok (Some found) st /\
    forall name, name ∈ found -> match_ toLowerCase canonicalize (minimatch_ self) name false = true.
Proof.
  intros Hne Hset Hms Hfs Hn Hst Hfuel. pose proof Hms as [Hplain Hdot Hneg Hcase _ Hnon Hparts].
  destruct (mapM_total (fun ps => search toLowerCase canonicalize the_fs self fuel ps false) (m_set (minimatch_ self))) as [nss Hm].
  { intros ps Hps. by apply (search_total toLowerCase canonicalize the_fs self (at_root _ Hplain) Hfs rank R Hn (magics ps)), Hfuel. }
  destruct (globSync_result rSlash rOpen rClose rComma rPeriod toLowerCase canonicalize locale_le the_fs
    pattern o self fuel nss) as (found & st & E & _ & Hel & _); [done..| |done|].
  { eapply Forall_impl; [exact Hparts|]. by intros ps (? & _). }
  exists found, st. split; [done|]. intros name Hin.
  apply Hel in Hin as (_ & i & names & Hi & [Hx|(_ & H & _)]); [|congruence].
  apply mapM_Some_1 in Hm. destruct (Forall2_lookup_r _ _ _ _ _ Hm Hi) as (ps & Hps & Hs).
  apply list_elem_of_lookup_2 in Hps. rewrite Forall_forall in Hparts. destruct (Hparts ps Hps) as (_ & Hrel & Hlast & Hpne & _).
  apply (matched_by_minimatch toLowerCase canonicalize self ps); [done|done|]. destruct Hn as (_ & Hnames & _).
  by apply (search_sound toLowerCase canonicalize the_fs self Hdot Hneg Hcase Hnames fuel ps false names name).
Qed.

(** ** Runs *)

(** A project with a link to one of its directories. *)
Definition project : list (jsstr * node) :=
  [(«"/"», ADir [«"a"»; «"b.js"»; «"l"»; «".h"»]); («"/a"», ADir [«"c.js"»; «"e"»]); («"/a/c.js"», AFile);
   («"/a/e"», ADir []); («"/b.js"», AFile); («"/.h"», AFile); («"/l"», ALink «"/a"»); («"/l/c.js"», AFile);
   («"/l/e"», ADir [])].

Definition compiled (pattern : jsstr) (o : glob_options) : option glob :=
  match setopts «"1"» «"2"» «"3"» «"4"» «"5"» pattern o with inr g => Some g | inl _ => None end.

Definition run (t : list (jsstr * node)) (pattern : jsstr) (o : glob_options) : option (list jsstr) :=
  match GlobSync «"1"» «"2"» «"3"» «"4"» «"5"» id id str_leb (table_fs t) 30 pattern o with
  | Ok found _ => found
  | _ => None
  end.

(** The link is listed, and its entries are names one level down, but no
    globstar goes through it. *)
Example project_js :
  run project «"**/*.js"» no_glob_options = Some [«"a/c.js"»; «"b.js"»; «"l/c.js"»] /\
  run project «"**"» no_glob_options = Some [«"a"»; «"a/c.js"»; «"a/e"»; «"b.js"»; «"l"»].
Proof. by vm_compute. Qed.

Definition js_search : glob := Eval vm_compute in
  default (Glob false false false false false false false false false false false false false false None [] [] false []
             (MinimatchObj no_options [] [] [] NotMade false false false)) (compiled «"**/*.js"» no_glob_options).

Lemma globSync_finds_witness :
  exists found st nss,
    GlobSync «"1"» «"2"» «"3"» «"4"» «"5"» id id str_leb (table_fs project) 30 «"**/*.js"» no_glob_options = Ok (Some found) st /\
    coherent (table_fs project) st /\
    mapM (fun ps => search id id (table_fs project) js_search 30 ps false) (m_set (minimatch_ js_search)) = Some nss /\
    (forall x, x ∈ found <-> isIgnored id id js_search x = false /\
       exists i names, nss !! i = Some names /\ contributes js_search i names x) /\
    (nounique js_search = false -> NoDup found) /\
    (nosort js_search = false -> collation str_leb -> StronglySorted (alphasort id str_leb js_search) found).
Proof.
  apply (globSync_finds «"1"» «"2"» «"3"» «"4"» «"5"» id id str_leb (table_fs project) «"**/*.js"» no_glob_options js_search
           (fun ns => 3 - length ns) 4 30).
  - done.
  - by vm_compute.
  - by split; vm_compute.
  - apply (table_readable project 3). by vm_compute.
  - apply (table_nested project 3). by vm_compute.
  - by apply empty_coherent.
  - repeat (apply Forall_cons; split); try apply Forall_nil; by vm_compute.
  - intros ps Hps. apply list_elem_of_singleton in Hps as ->. vm_compute. lia.
Defined.

Lemma js_matching : matching_search js_search.
Proof.
  split; [by split|done|done|done|done|done|].
  apply Forall_cons. split; [|by apply Forall_nil].
  split; [by apply Forall_cons_2; [|apply Forall_cons_2; [|apply Forall_nil_2]]|].
  split; [split; [done|by apply Forall_cons_2; [|apply Forall_nil_2]]|].
  split; [done|]. split; [done|]. by apply Forall_cons_2; [|apply Forall_cons_2; [|apply Forall_nil_2]].
Qed.

Lemma globSync_matches_witness :
  exists found st,
    GlobSync «"1"» «"2"» «"3"» «"4"» «"5"» id id str_leb (table_fs project) 30 «"**/*.js"» no_glob_options = Ok (Some found) st /\
    forall name, name ∈ found -> match_ id id (minimatch_ js_search) name false = true.
Proof.
  apply (globSync_matches «"1"» «"2"» «"3"» «"4"» «"5"» id id str_leb (table_fs project) «"**/*.js"» no_glob_options js_search
           (fun ns => 3 - length ns) 4 30).
  - done.
  - by vm_compute.
  - apply js_matching.
  - apply (table_readable project 3). by vm_compute.
  - apply (table_nested project 3). by vm_compute.
  - by apply empty_coherent.
  - intros ps Hps. apply list_elem_of_singleton in Hps as ->. vm_compute. lia.
Defined.

(** A pattern that ends in a globstar finds the directory it starts from, which
    minimatch rejects. *)
Example globstar_finds_directory :
  run project «"a/**"» no_glob_options = Some [«"a"»; «"a/c.js"»; «"a/e"»] /\
  (fun g => match_ id id (minimatch_ g) «"a"» false) <$> compiled «"a/**"» no_glob_options = Some false.
Proof. by vm_compute. Qed.

(** *** Where the caches show

    Reading a link that dangles caches that it does not exist; a later part of
    the same pattern, for which it does, then misses it. *)
Definition dangling : list (jsstr * node) := [(«"/"», ADir [«"a"»; «"d"»]); («"/a"», AFile); («"/d"», ALink «"/gone"»)].

Example dangling_link_hidden :
  run dangling «"**"» no_glob_options = Some [«"a"»; «"d"»] /\
  run dangling «"{**/x,**}"» no_glob_options = Some [«"a"»] /\
  run dangling «"{d,d/*}"» no_glob_options = Some [«"d"»] /\
  run dangling «"{d/*,d}"» no_glob_options = Some [].
Proof. by vm_compute. Qed.

(** With a root, [_readdirError] makes an absolute name absolute again: what
    failed at [/r/x] is remembered of [/r/r/x], which exists. *)
Definition rooted : list (jsstr * node) :=
  [(«"/"», ADir [«"r"»]); («"/r"», ADir [«"r"»]); («"/r/"», ADir [«"r"»]); («"/r/r"», ADir [«"x"»]); («"/r/r/x"», AFile)].

Definition root_options : glob_options :=
  GlobOptions no_options None None None false false false false false false false false false false None [] None (Some «"/r"») ∅ ∅ ∅.

Example root_poisons_cache :
  run rooted «"/r/x"» root_options = Some [«"/r/r/x"»] /\ run rooted «"{/x/*,/r/x}"» root_options = Some [].
Proof. by vm_compute. Qed.

(** With a root, the names found are under the root already when they are
    looked up to be marked: directories are not marked, and not left out. *)
Definition root_nodir : glob_options :=
  GlobOptions no_options None None None false false false true true false false false false false None [] None (Some «"/r"») ∅ ∅ ∅.

Example root_marks_nothing : run rooted «"/*"» root_nodir = Some [«"/r/r"»].
Proof. by vm_compute. Qed.

(** [_stat] may also return [true]. *)
Example stat_returns_true :
  let st := State {[«"/a"» := CTrue]} ∅ ∅ [] [] in
  _stat (table_fs project) js_search «"a"» st = Ok CTrue st.
Proof. by vm_compute. Qed.
