(* ===== verification/GlobEntry.v ===== *)
(** * The entry of glob and its warning about options

    [glob(pattern, options, cb)] of glob.js chooses between the two walks;
    [deprecationWarning] of common.js, which [setopts] calls, warns once in a
    process.  What a walk gives is a parameter of the entry. *)

From S2P Require Import Prelude Minimatch GlobSync.

(** ** The warning *)

Record process_flags := ProcessFlags { noDeprecation : bool; throwDeprecation : bool; traceDeprecation : bool }.

Inductive output := Trace (msg : jsstr) | ErrorLine (msg : jsstr).

Definition deprecation_msg : jsstr := «"glob WARNING: comments and negation will be disabled in v6"».

(** The module keeps whether it has warned; the result is an error thrown or what is written. *)
Definition deprecationWarning (p : process_flags) (nonegate nocomment : bool) (deprecationWarned : bool) : (jsstr + list output) * bool :=
  if negb nonegate || negb nocomment then
    if negb (noDeprecation p) && negb deprecationWarned then
      if throwDeprecation p then (inl deprecation_msg, deprecationWarned)
      else (inr [if traceDeprecation p then Trace deprecation_msg else ErrorLine deprecation_msg], true)
    else (inr [], deprecationWarned)
  else (inr [], deprecationWarned).

(** The options as [setopts] has set them before the warning: only an explicit false turns them off. *)
Definition warned_options (o : glob_options) : bool * bool :=
  (negb (bool_decide (o_nonegate o = Some false)), negb (bool_decide (o_nocomment o = Some false))).

Definition setopts_warns (p : process_flags) (o : glob_options) (warned : bool) : (jsstr + list output) * bool :=
  let '(nonegate, nocomment) := warned_options o in deprecationWarning p nonegate nocomment warned.

(** ** The entry *)

(** The second argument: nothing, a function that is the callback, or options with their sync flag *)
Inductive options_arg (F O : Type) := NoOptions | Callback (f : F) | Options (sync : bool) (o : O).
Arguments NoOptions {F O}.
Arguments Callback {F O} f.
Arguments Options {F O} sync o.

Inductive entry_result (F O S : Type) := Found (r : S) | Started (o : option O) (cb : option F) | CallbackToSync.
Arguments Found {F O S} r.
Arguments Started {F O S} o cb.
Arguments CallbackToSync {F O S}.

Definition glob {F O S : Type} (globSync : jsstr -> O -> S) (pattern : jsstr) (options : options_arg F O) (cb : option F) : entry_result F O S :=
  match options with
  | Callback f => Started None (Some f)
  | NoOptions => Started None cb
  | Options true o => match cb with Some _ => CallbackToSync | None => Found (globSync pattern o) end
  | Options false o => Started (Some o) cb
  end.

(** Over any sequence of globs the warning is written at most once, and it is
    when one of them turns comments or negation on and the process does not
    forbid it. *)
Definition warnings (p : process_flags) (os : list glob_options) (warned : bool) : list output * bool :=
  foldl (fun acc o => match setopts_warns p o acc.2 with (inr l, w) => (acc.1 ++ l, w) | (inl _, w) => (acc.1, w) end) ([], warned) os.

Lemma warnings_snoc p os o w : warnings p (os ++ [o]) w =
  match setopts_warns p o (warnings p os w).2 with (inr l, w') => ((warnings p os w).1 ++ l, w') | (inl _, w') => ((warnings p os w).1, w') end.
Proof. unfold warnings. by rewrite foldl_app. Qed.

Definition turned_on (o : glob_options) : bool := let '(a, b) := warned_options o in negb a || negb b.

Lemma warns_at_most_once p os :
  let '(out, w) := warnings p os false in
  length out <= 1 /\
  w = existsb turned_on os && negb (noDeprecation p) && negb (throwDeprecation p) /\
  (w = true <-> out <> []).
Proof.
  induction os as [|o os IH] using rev_ind; [cbn; split_and!; [lia|done|naive_solver]|].
  rewrite warnings_snoc, existsb_app. destruct (warnings p os false) as [out w]. destruct IH as (Hl & Hw & Ho).
  unfold setopts_warns, deprecationWarning. cbn [existsb fst snd]. rewrite orb_false_r.
  assert (Et : turned_on o = negb (warned_options o).1 || negb (warned_options o).2) by (unfold turned_on; by destruct (warned_options o)).
  rewrite Et. destruct (warned_options o) as [a b]. cbn [fst snd]. generalize dependent (existsb turned_on os). intros e Hw.
  assert (w = false -> out = []) as Hnil by (intros ->; destruct out; [done|]; exfalso; by assert (false = true) by (by apply Ho)).
  destruct p as [no th tr]. cbn [noDeprecation throwDeprecation traceDeprecation] in *.
  destruct (negb a || negb b), no, th, e, w; cbn in *; try discriminate Hw; rewrite ?app_nil_r; try rewrite Hnil by done;
    split_and!; try done; cbn; lia.
Qed.
