(* ===== verification/AsyncGlob.v ===== *)
(** * glob: the asynchronous walk

    Module 16 of wordcut.js, on top of inflight (module 18).  A [Glob] walks
    like [GlobSync], but every question to the file system is a request that
    is answered later; requests for the same thing are joined by inflight, and
    a counter of work in progress tells when to report the result.  Listeners
    may pause, resume or abort the walk at any event, and the user at any time.

    The walk is a machine: the code that runs is a stack of tasks, of which the
    first is run until there is none; then one of the pending requests is
    answered, in any order, or the user calls a method.  A function of the
    code that calls another and goes on afterwards leaves the rest of its work
    as the next task.

    There is one [Glob]; errors have a listener, as they have for all callers
    that pass a callback.  The exception that the code raises for a part
    without [_glob] stops the machine. *)

From S2P Require Import Prelude BraceExpansion Regex Minimatch NodePath GlobSync.

(** ** Requests, callbacks and events *)

(** The keys of inflight: what is read, and where. *)
Inductive key := KReaddir (abs : jsstr) (inGlobStar : bool) | KLstat (abs : jsstr) | KStat (abs : jsstr).

#[export] Instance key_eq_dec : EqDecision key.
Proof. solve_decision. Defined.

(** What gets the entries of a directory: the second halves of
    [_processReaddir] and [_processGlobStar], or the function that inflight
    made for a key. *)
Inductive rcb :=
  | Readdir2 (prefix : option jsstr) (pn : part) (rest : list part) (index : nat) (inGlobStar : bool)
  | GlobStar2 (prefix : option jsstr) (abs : jsstr) (rest : list part) (index : nat) (inGlobStar : bool)
  | Res (k : key).

(** What is given to inflight: [lstatcb_] of [_readdirInGlobStar] and of
    [_stat] close over their arguments. *)
Inductive callback :=
  | OnReaddir (cb : rcb)
  | OnLstatGlobStar (abs : jsstr) (cb : rcb)
  | OnLstat (f : jsstr) (index : nat).

(** The arguments of a response: entries or [undefined], a stat or an error. *)
Inductive answer := Dirs (entries : option (list jsstr)) | AStat (t : option ftype).

(** Calls of the file system, and of [process.nextTick], that are under way. *)
Inductive request :=
  | PReaddir (abs : jsstr) (cb : rcb)
  | PLstat (abs : jsstr) (k : key)
  | PStat (abs f : jsstr) (lstat : ftype) (index : nat)
  | PTick (k : key) (a : answer)
  | PRealpath (index : nat) (p : jsstr).

Inductive command := CAbort | CPause | CResume.

Inductive event :=
  | EvMatch (e : jsstr) | EvStat (e : jsstr) (t : ftype) | EvEnd (found : list jsstr)
  | EvError | EvAbort | EvPause | EvResume.

(** Code that is left to run. *)
Inductive task :=
  | Process (pattern : list part) (index : nat) (inGlobStar : bool)
  | Requeued (pattern : list part) (index : nat) (inGlobStar : bool)
  | Done
  | Call (c : callback) (a : answer)
  | Respond (k : key) (a : answer)
  | Responded (k : key) (len : nat) (a : answer)
  | ReaddirCb (abs : jsstr) (r : list jsstr + ecode) (cb : rcb)
  | AfterError (er : ecode) (cb : rcb)
  | GlobStarRest (prefix : option jsstr) (abs : jsstr) (rest : list part) (index : nat) (inGlobStar : bool) (entries : list jsstr)
  | EmitMatch (index : nat) (e : jsstr)
  | Emit (ev : event)
  | Finish
  | RealpathSet (index : nat)
  | RealpathOne (index : nat)
  | RealpathNext
  | Command (c : command)
  | Unpause
  | FlushProcess
  | Crash.

(** ** The state of a walk

    [walk] has the caches, the matches and what was printed; [missing] are the
    keys of the stat cache with the value false. *)
Record async := Async {
  walk : state;
  missing : gset jsstr;
  reqs : list (key * list callback);
  pending : list request;
  processing : Z;
  emitQueue : list (nat * jsstr);
  processQueue : list (list part * nat * bool);
  paused : bool;
  aborted : bool;
  didRealpath : bool;
  realpathLeft : list (nat * nat);        (** [n] of each [_realpathSet] *)
  realpathSets : nat;                     (** [n] of [_realpath] *)
  events : list event                     (** history *)
}.

Definition set_walk (w : state) (st : async) : async :=
  Async w (missing st) (reqs st) (pending st) (processing st) (emitQueue st) (processQueue st) (paused st) (aborted st)
    (didRealpath st) (realpathLeft st) (realpathSets st) (events st).
Definition set_missing (m : gset jsstr) (st : async) : async :=
  Async (walk st) m (reqs st) (pending st) (processing st) (emitQueue st) (processQueue st) (paused st) (aborted st)
    (didRealpath st) (realpathLeft st) (realpathSets st) (events st).
Definition set_reqs (r : list (key * list callback)) (st : async) : async :=
  Async (walk st) (missing st) r (pending st) (processing st) (emitQueue st) (processQueue st) (paused st) (aborted st)
    (didRealpath st) (realpathLeft st) (realpathSets st) (events st).
Definition set_pending (p : list request) (st : async) : async :=
  Async (walk st) (missing st) (reqs st) p (processing st) (emitQueue st) (processQueue st) (paused st) (aborted st)
    (didRealpath st) (realpathLeft st) (realpathSets st) (events st).
Definition set_processing (n : Z) (st : async) : async :=
  Async (walk st) (missing st) (reqs st) (pending st) n (emitQueue st) (processQueue st) (paused st) (aborted st)
    (didRealpath st) (realpathLeft st) (realpathSets st) (events st).
Definition set_queues (eq : list (nat * jsstr)) (pq : list (list part * nat * bool)) (st : async) : async :=
  Async (walk st) (missing st) (reqs st) (pending st) (processing st) eq pq (paused st) (aborted st)
    (didRealpath st) (realpathLeft st) (realpathSets st) (events st).
Definition set_flags (p a : bool) (st : async) : async :=
  Async (walk st) (missing st) (reqs st) (pending st) (processing st) (emitQueue st) (processQueue st) p a
    (didRealpath st) (realpathLeft st) (realpathSets st) (events st).
Definition set_realpath (did : bool) (left : list (nat * nat)) (sets : nat) (st : async) : async :=
  Async (walk st) (missing st) (reqs st) (pending st) (processing st) (emitQueue st) (processQueue st) (paused st) (aborted st)
    did left sets (events st).
Definition log_event (ev : event) (st : async) : async :=
  Async (walk st) (missing st) (reqs st) (pending st) (processing st) (emitQueue st) (processQueue st) (paused st) (aborted st)
    (didRealpath st) (realpathLeft st) (realpathSets st) (events st ++ [ev]).

Definition request_ (p : request) (st : async) : async := set_pending (pending st ++ [p]) st.
Definition cached (k : jsstr) (c : centry) (st : async) : async := set_walk (set_cache k c (walk st)) st.

(** A part of the walk that the synchronous code has too. *)
Definition via {A} (m : M A) (d : A) (st : async) : A * async :=
  match m (walk st) with
  | Ok a w => (a, set_walk w st)
  | _ => (d, st)
  end.

(** ** inflight *)

Definition waiting (k : key) (rs : list (key * list callback)) : option (list callback) :=
  snd <$> find (fun r => bool_decide (r.1 = k)) rs.

Definition waiting_set (k : key) (cbs : list callback) (rs : list (key * list callback)) : list (key * list callback) :=
  map (fun r => if decide (r.1 = k) then (k, cbs) else r) rs.

(** [inflight(key, cb)]: whether the caller has to make the request. *)
Definition inflight (k : key) (c : callback) (st : async) : bool * async :=
  match waiting k (reqs st) with
  | Some cbs => (false, set_reqs (waiting_set k (cbs ++ [c]) (reqs st)) st)
  | None => (true, set_reqs (reqs st ++ [(k, [c])]) st)
  end.

(** [RES]: the callbacks that wait now are called, then those that came in the
    meantime are left for the next tick. *)
Definition respond (k : key) (a : answer) (st : async) : list task * async :=
  let cbs := default [] (waiting k (reqs st)) in
  (map (fun c => Call c a) cbs ++ [Responded k (length cbs) a], st).

Definition responded (k : key) (len : nat) (a : answer) (st : async) : list task * async :=
  let cbs := default [] (waiting k (reqs st)) in
  if decide (len < length cbs) then ([], request_ (PTick k a) (set_reqs (waiting_set k (drop len cbs) (reqs st)) st))
  else ([], set_reqs (List.filter (fun r => negb (bool_decide (r.1 = k))) (reqs st)) st).

Section AsyncGlob.
Variable toLowerCase : jsstr -> jsstr.
Variable canonicalize : N -> N.
Variable locale_le : jsstr -> jsstr -> bool.
Variable the_fs : fs.
Variable self : glob.
(** What the listeners do when an event is emitted. *)
Variable listener : list event -> event -> list command.

Let abs_of := makeAbs self.

(** ** Matches and events *)

Definition emit (ev : event) (st : async) : list task * async :=
  (map Command (listener (events st) ev), log_event ev st).

Definition _mark (e : jsstr) (st : async) : jsstr * async :=
  let r := via (mark_ self e) e st in
  if decide (r.1 = e) then r
  else (r.1, set_missing (if decide (abs_of e ∈ missing st) then missing st ∪ {[abs_of r.1]} else missing st ∖ {[abs_of r.1]}) r.2).

Definition _emitMatch (index : nat) (e : jsstr) (st : async) : list task * async :=
  if aborted st then ([], st)
  else if bool_decide (e ∈ default [] (mjoin (matches (walk st) !! index))) then ([], st)
  else if isIgnored toLowerCase canonicalize self e then ([], st)
  else if paused st then ([], set_queues (emitQueue st ++ [(index, e)]) (processQueue st) st)
  else
    let abs := abs_of e in
    if nodir self && match cache (walk st) !! abs with Some c => is_dir_entry c | None => false end then ([], st)
    else
      let r := if mark self then _mark e st else (e, st) in
      let e := r.1 in
      let st := (via (add_match index e) tt r.2).2 in
      (match statCache (walk st) !! abs with Some t => [Emit (EvStat e t)] | None => [] end ++ [Emit (EvMatch e)], st).

(** ** stat *)

Definition _processSimple2 (prefix : jsstr) (index : nat) (exists_ : bool) (st : async) : list task * async :=
  let st := (via (ensure_matches index) tt st).2 in
  if exists_ then ([EmitMatch index (mount self prefix); Done], st) else ([Done], st).

Definition _stat2 (f abs : jsstr) (stat : option ftype) (index : nat) (st : async) : list task * async :=
  match stat with
  | None => _processSimple2 f index false (set_missing (missing st ∪ {[abs]})
              (set_walk (State (cache (walk st)) (delete abs (statCache (walk st))) (symlinks (walk st)) (matches (walk st)) (printed (walk st))) st))
  | Some t =>
      let needDir := bool_decide (slice_last 1 f = [slash]) in
      let st := set_missing (missing st ∖ {[abs]}) (set_walk (set_statCache abs t (walk st)) st) in
      if bool_decide (slice_last 1 abs = [slash]) && negb (bool_decide (t = Directory))
      then _processSimple2 f index false st
      else
        let c := if decide (t = Directory) then CDir else CFile in
        let st := cached abs (match cache (walk st) !! abs with
                              | Some c' => if truthy_entry c' then c' else c
                              | None => c
                              end) st in
        _processSimple2 f index (negb (needDir && negb (bool_decide (t = Directory)))) st
  end.

(** [_stat(f, cb)] with the callback of [_processSimple]. *)
Definition _stat (f : jsstr) (index : nat) (st : async) : list task * async :=
  let abs := abs_of f in
  let needDir := bool_decide (slice_last 1 f = [slash]) in
  if match maxLength self with Some n => bool_decide (n < length f) | None => false end
  then _processSimple2 f index false st
  else
    let known :=
      if stat self then None
      else match cache (walk st) !! abs with
           | None => None
           | Some c =>
               let c := match c with Entries _ => CDir | c => c end in
               if negb needDir || bool_decide (c = CDir) then Some (truthy_entry c)
               else if bool_decide (c = CFile) then Some false
               else None
           end in
    match known with
    | Some b => _processSimple2 f index b st
    | None =>
        if decide (abs ∈ missing st) then _processSimple2 f index false st
        else match statCache (walk st) !! abs with
             | Some t => _processSimple2 f index (negb (needDir && negb (bool_decide (t = Directory)))) st
             | None =>
                 let r := inflight (KStat abs) (OnLstat f index) st in
                 ([], if r.1 : bool then request_ (PLstat abs (KStat abs)) r.2 else r.2)
             end
    end.

(** ** readdir *)

(** [_readdir(abs, inGlobStar, cb)] once the key is taken, and with
    [inGlobStar] false. *)
Definition _readdir_cached (abs : jsstr) (cb : rcb) (st : async) : list task * async :=
  match cache (walk st) !! abs with
  | Some CFalse | Some CFile => ([Call (OnReaddir cb) (Dirs None)], st)
  | Some (Entries c) => ([Call (OnReaddir cb) (Dirs (Some c))], st)
  | _ => ([], request_ (PReaddir abs cb) st)
  end.

Definition _readdir_false (abs : jsstr) (cb : rcb) (st : async) : list task * async :=
  if aborted st then ([], st)
  else
    let k := KReaddir abs false in
    let r := inflight k (OnReaddir cb) st in
    if r.1 : bool then _readdir_cached abs (Res k) r.2 else ([], r.2).

Definition _readdirInGlobStar (abs : jsstr) (cb : rcb) (st : async) : list task * async :=
  if aborted st then ([], st)
  else if follow self then _readdir_false abs cb st
  else
    let r := inflight (KLstat abs) (OnLstatGlobStar abs cb) st in
    ([], if r.1 : bool then request_ (PLstat abs (KLstat abs)) r.2 else r.2).

Definition _readdir (abs : jsstr) (inGlobStar : bool) (cb : rcb) (st : async) : list task * async :=
  if inGlobStar then
    if aborted st then ([], st)
    else
      let k := KReaddir abs true in
      let r := inflight k (OnReaddir cb) st in
      if r.1 : bool then
        if decide (symlinks (walk r.2) !! abs = None) then _readdirInGlobStar abs (Res k) r.2
        else _readdir_cached abs (Res k) r.2
      else ([], r.2)
  else _readdir_false abs cb st.

Definition _readdirEntries (abs : jsstr) (entries : list jsstr) (cb : rcb) (st : async) : list task * async :=
  if aborted st then ([], st)
  else
    let st := (via (GlobSync._readdirEntries self abs entries) None st).2 in
    ([Call (OnReaddir cb) (Dirs (Some entries))], st).

Definition _readdirError (f : jsstr) (er : ecode) (cb : rcb) (st : async) : list task * async :=
  if aborted st then ([], st)
  else
    match er with
    | ENOTSUP | ENOTDIR => ([Call (OnReaddir cb) (Dirs None)], cached (abs_of f) CFile st)
    | ENOENT | ELOOP | ENAMETOOLONG | UNKNOWN => ([Call (OnReaddir cb) (Dirs None)], cached (abs_of f) CFalse st)
    | OtherCode _ =>
        ((if strict self then [Emit EvError; Command CAbort] else []) ++ [AfterError er cb], cached (abs_of f) CFalse st)
    end.

(** [console.error], then the callback. *)
Definition after_error (er : ecode) (cb : rcb) (st : async) : list task * async :=
  ([Call (OnReaddir cb) (Dirs None)], if silent self then st else set_walk (print_error er (walk st)) st).

(** ** The walk *)

(** [prefix + '/' + e], or [prefix + e] for the root. *)
Definition below_prefix (prefix : option jsstr) (e : jsstr) : jsstr :=
  match prefix with
  | Some (c :: p) => if decide (c :: p = [slash]) then [slash] ++ e else (c :: p) ++ [slash] ++ e
  | _ => e
  end.

Definition mounted (e : jsstr) : jsstr :=
  if decide (charAt e 0 = [slash] /\ nomount self = false) then join_paths [root self; e] else e.

Definition _processReaddir2 (prefix : option jsstr) (pn : part) (rest : list part) (index : nat) (inGlobStar : bool)
    (entries : option (list jsstr)) (st : async) : list task * async :=
  match entries with
  | None => ([Done], st)
  | Some entries =>
      match pn with
      | Magic r _ (Some rawGlob) =>
          let matched := matchedEntries canonicalize self prefix r rawGlob entries in
          if decide (matched = []) then ([Done], st)
          else if decide (rest = [] /\ mark self = false /\ stat self = false) then
            (map (fun e => EmitMatch index (mounted (below_prefix prefix e))) matched ++ [Done],
             (via (ensure_matches index) tt st).2)
          else (map (fun e => Process (Text (below_prefix prefix e) :: rest) index inGlobStar) matched ++ [Done], st)
      | Magic _ _ None => ([Crash], st)
      | _ => ([Done], st)                                    (** not called so *)
      end
  end.

Definition _processGlobStar2 (prefix : option jsstr) (abs : jsstr) (rest : list part) (index : nat) (inGlobStar : bool)
    (entries : option (list jsstr)) (st : async) : list task * async :=
  match entries with
  | None => ([Done], st)
  | Some entries =>
      ([Process (prefix_part prefix ++ rest) index false; GlobStarRest prefix abs rest index inGlobStar entries], st)
  end.

Definition globstar_entry (prefix : option jsstr) (rest : list part) (index : nat) (e : jsstr) : list task :=
  if is_hidden e && negb (g_dot self) then []
  else [Process (prefix_part prefix ++ Text e :: rest) index true;
        Process (prefix_part prefix ++ Text e :: Globstar :: rest) index true].

Definition globstar_rest (prefix : option jsstr) (abs : jsstr) (rest : list part) (index : nat) (inGlobStar : bool)
    (entries : list jsstr) (st : async) : list task * async :=
  if default false (symlinks (walk st) !! abs) && inGlobStar then ([Done], st)
  else (concat (map (globstar_entry prefix rest index) entries) ++ [Done], st).

Definition _process (pattern : list part) (index : nat) (inGlobStar : bool) (st : async) : list task * async :=
  if aborted st then ([], st)
  else
    let st := set_processing (processing st + 1) st in
    if paused st then ([], set_queues (emitQueue st) (processQueue st ++ [(pattern, index, inGlobStar)]) st)
    else
      let texts := leading_texts pattern in
      match drop (length texts) pattern with
      | [] => _stat (join [slash] texts) index st
      | pn :: rest =>
          let prefix := match texts with [] => None | _ => Some (absolute_prefix self pattern (join [slash] texts)) end in
          let read := default «"."» prefix in
          let abs := abs_of read in
          if childrenIgnored toLowerCase canonicalize self read then ([Done], st)
          else match pn with
               | Globstar => _readdir abs inGlobStar (GlobStar2 prefix abs rest index inGlobStar) st
               | _ => _readdir abs inGlobStar (Readdir2 prefix pn rest index inGlobStar) st
               end
      end.

(** ** Callbacks *)

Definition call (c : callback) (a : answer) (st : async) : list task * async :=
  match c, a with
  | OnReaddir (Readdir2 prefix pn rest index b), Dirs entries => _processReaddir2 prefix pn rest index b entries st
  | OnReaddir (GlobStar2 prefix abs rest index b), Dirs entries => _processGlobStar2 prefix abs rest index b entries st
  | OnReaddir (Res k), _ => ([Respond k a], st)
  | OnLstatGlobStar abs cb, AStat None => ([Call (OnReaddir cb) (Dirs None)], st)
  | OnLstatGlobStar abs cb, AStat (Some t) =>
      let isSym := bool_decide (t = SymbolicLink) in
      let st := set_walk (set_symlinks abs isSym (walk st)) st in
      if negb isSym && negb (bool_decide (t = Directory))
      then ([Call (OnReaddir cb) (Dirs None)], cached abs CFile st)
      else _readdir_false abs cb st
  | OnLstat f index, AStat t =>
      if decide (t = Some SymbolicLink) then ([], request_ (PStat (abs_of f) f SymbolicLink index) st)
      else _stat2 f (abs_of f) t index st
  | _, _ => ([Crash], st)                                    (** not called so *)
  end.

(** ** The end *)

Definition done (st : async) : list task * async :=
  let st := set_processing (processing st - 1) st in
  if decide (processing st <= 0)%Z then ([Finish], st) else ([], st).

Definition _realpath (st : async) : list task * async :=
  let n := length (matches (walk st)) in
  let st := set_realpath true (realpathLeft st) n st in
  if decide (n = 0) then ([Finish], st) else (map RealpathSet (seq 0 n), st).

Definition _finish (st : async) : list task * async :=
  if aborted st then ([], st)
  else if realpath self && negb (didRealpath st) then _realpath st
  else
    let r := via (finish toLowerCase canonicalize locale_le self) [] st in
    ([Emit (EvEnd r.1)], r.2).

Definition _realpathSet (index : nat) (st : async) : list task * async :=
  match matches (walk st) !! index with
  | Some (Some ((_ :: _) as ks)) =>
      let found := object_keys ks in
      let st := set_walk (set_matches (<[index := Some []]> (matches (walk st))) (walk st)) st in
      ([], set_pending (pending st ++ map (fun p => PRealpath index (abs_of p)) found)
             (set_realpath (didRealpath st) ((index, length found) :: realpathLeft st) (realpathSets st) st))
  | _ => ([RealpathNext], st)
  end.

(** [if (--n === 0)] of [_realpathSet] and of [_realpath]. *)
Definition realpath_one (index : nat) (st : async) : list task * async :=
  let n := default 0 (snd <$> find (fun x => bool_decide (x.1 = index)) (realpathLeft st)) - 1 in
  (if decide (n = 0) then [RealpathNext] else [],
   set_realpath (didRealpath st) (map (fun x => if decide (x.1 = index) then (index, n) else x) (realpathLeft st)) (realpathSets st) st).

Definition realpath_next (st : async) : list task * async :=
  let n := realpathSets st - 1 in
  (if decide (n = 0) then [Finish] else [], set_realpath (didRealpath st) (realpathLeft st) n st).

(** ** Methods of the user *)

Definition abort (st : async) : list task * async := ([Emit EvAbort], set_flags (paused st) true st).

Definition pause (st : async) : list task * async :=
  if paused st then ([], st) else ([Emit EvPause], set_flags true (aborted st) st).

Definition resume (st : async) : list task * async :=
  if paused st then ([Emit EvResume; Unpause], st) else ([], st).

Definition unpause (st : async) : list task * async :=
  let st := set_flags false (aborted st) st in
  (map (fun x => EmitMatch x.1 x.2) (emitQueue st) ++ [FlushProcess], set_queues [] (processQueue st) st).

Definition flush_process (st : async) : list task * async :=
  (map (fun x => Requeued x.1.1 x.1.2 x.2) (processQueue st), set_queues (emitQueue st) [] st).

(** ** The machine *)

Definition run_task (t : task) (st : async) : list task * async :=
  match t with
  | Process ps index b => _process ps index b st
  | Requeued ps index b => ([Process ps index b], set_processing (processing st - 1) st)
  | Done => done st
  | Call c a => call c a st
  | Respond k a => respond k a st
  | Responded k len a => responded k len a st
  | ReaddirCb abs (inl entries) cb => _readdirEntries abs entries cb st
  | ReaddirCb abs (inr er) cb => _readdirError abs er cb st
  | AfterError er cb => after_error er cb st
  | GlobStarRest prefix abs rest index b entries => globstar_rest prefix abs rest index b entries st
  | EmitMatch index e => _emitMatch index e st
  | Emit ev => emit ev st
  | Finish => _finish st
  | RealpathSet index => _realpathSet index st
  | RealpathOne index => realpath_one index st
  | RealpathNext => realpath_next st
  | Command CAbort => abort st
  | Command CPause => pause st
  | Command CResume => resume st
  | Unpause => unpause st
  | FlushProcess => flush_process st
  | Crash => ([Crash], st)
  end.

(** The callback of a request, with what the file system says at that time. *)
Definition answered (p : request) (st : async) : list task * async :=
  match p with
  | PReaddir abs cb => ([ReaddirCb abs (readdirSync the_fs abs) cb], st)
  | PLstat abs k => ([Respond k (AStat (lstatSync the_fs abs))], st)
  | PStat abs f lstat index =>
      _stat2 f abs (Some (default lstat (statSync the_fs abs))) index st
  | PTick k a => ([Respond k a], st)
  | PRealpath index p =>
      match realpathSync the_fs p with
      | inl real => ([RealpathOne index], (via (add_match index real) tt st).2)
      | inr true => ([RealpathOne index], (via (add_match index p) tt st).2)
      | inr false => ([Emit EvError; RealpathOne index], st)
      end
  end.

Definition machine : Type := list task * async.

(** The walk goes on: the next task runs, or a request is answered. *)
Inductive go : machine -> machine -> Prop :=
  | go_run t ts st ts' st' : t <> Crash -> run_task t st = (ts', st') -> go (t :: ts, st) (ts' ++ ts, st')
  | go_answer i p st ts' st' :
      pending st !! i = Some p -> answered p (set_pending (delete i (pending st)) st) = (ts', st') -> go ([], st) (ts', st').

(** Or the user calls a method. *)
Inductive step : machine -> machine -> Prop :=
  | step_go m m' : go m m' -> step m m'
  | step_user c st : step ([], st) ([Command c], st).

(** ** The constructor *)

Definition start (cache0 : gmap jsstr centry) (statCache0 : gmap jsstr ftype) (symlinks0 : gmap jsstr bool) : machine :=
  let n := length (m_set (minimatch_ self)) in
  (if noprocess self then []
   else if decide (n = 0) then [Done]
   else imap (fun i ps => Process ps i false) (m_set (minimatch_ self)),
   Async (State cache0 statCache0 symlinks0 (replicate n None) []) ∅ [] [] 0 [] [] false false false [] 0 []).

(** [glob.hasMagic]; it throws on an empty set. *)
Definition hasMagic : option bool :=
  match m_set (minimatch_ self) with
  | [] => None
  | [ps] => Some (existsb (fun p => match p with Text _ => false | _ => true end) ps)
  | _ => Some true
  end.

(** A run that answers requests in the order given, the first one when the
    order ends. *)
Fixpoint drive (fuel : nat) (order : list nat) (m : machine) : option async :=
  match fuel with
  | O => None
  | S fuel =>
      match m with
      | (Crash :: _, _) => None
      | (t :: ts, st) => let r := run_task t st in drive fuel order (r.1 ++ ts, r.2)
      | ([], st) =>
          let i := match order with [] => 0 | i :: _ => i mod length (pending st) end in
          match pending st !! i with
          | None => Some st
          | Some p => drive fuel (tail order) (answered p (set_pending (delete i (pending st)) st))
          end
      end
  end.
End AsyncGlob.
