(* ===== verification/AsyncExamples.v ===== *)
(** * glob: runs of the asynchronous walk

    Runs on small file systems, with requests answered in different orders,
    and runs in which the result is reported too early or not at all. *)

From S2P Require Import Prelude BraceExpansion Regex Minimatch NodePath GlobSync GlobProps GlobTheorems AsyncGlob.

(** The events of a run, the number of keys that inflight keeps at its end and
    of matches that are still queued. *)
Definition run_async (t : list (jsstr * node)) (pattern : jsstr) (o : glob_options)
    (listener : list event -> event -> list command) (order : list nat) : option (list event * nat * nat) :=
  match compiled pattern o with
  | Some g =>
      (fun st => (events st, length (reqs st), length (emitQueue st))) <$>
        drive id id str_leb (table_fs t) g listener 500 order (start g (o_cache o) (o_statCache o) (o_symlinks o))
  | None => None
  end.

(** Listeners that call no method of the walk. *)
Definition quiet : list event -> event -> list command := fun _ _ => [].

(** The order of the answers changes the order of the matches, not the result,
    which is that of the synchronous walk. *)
Example answers_in_two_orders :
  run_async project «"**/*.js"» no_glob_options quiet [] =
    Some ([EvMatch «"b.js"»; EvMatch «"a/c.js"»; EvMatch «"l/c.js"»; EvEnd [«"a/c.js"»; «"b.js"»; «"l/c.js"»]], 0, 0) /\
  run_async project «"**/*.js"» no_glob_options quiet [3; 2; 1; 5; 2; 3; 1; 1; 2; 3] =
    Some ([EvMatch «"l/c.js"»; EvMatch «"b.js"»; EvMatch «"a/c.js"»; EvEnd [«"a/c.js"»; «"b.js"»; «"l/c.js"»]], 0, 0).
Proof. by vm_compute. Qed.

(** A pattern of the set that needs no request (its directory is ignored) ends
    the walk before the next pattern has begun: the result is reported without
    it, and once more later. *)
Definition ignore_a : glob_options :=
  GlobOptions no_options None None None false false false false false false false false false false None [«"a/**"»] None None ∅ ∅ ∅.

Example early_end :
  run_async project «"{a/*,l/*}"» ignore_a quiet [] =
    Some ([EvEnd []; EvMatch «"l/c.js"»; EvMatch «"l/e"»; EvEnd [«"l/c.js"»; «"l/e"»]], 0, 0) /\
  run_async project «"{l/*,a/*}"» ignore_a quiet [] =
    Some ([EvMatch «"l/c.js"»; EvMatch «"l/e"»; EvEnd [«"l/c.js"»; «"l/e"»]], 0, 0).
Proof. by vm_compute. Qed.

(** A walk that is paused at its first match queues the others, but still
    reports its result, without them. *)
Example pause_loses_matches :
  run_async project «"*"» no_glob_options (fun _ ev => match ev with EvMatch _ => [CPause] | _ => [] end) [] =
    Some ([EvMatch «"a"»; EvPause; EvEnd [«"a"»]], 0, 2).
Proof. by vm_compute. Qed.

(** A walk that is aborted leaves its keys in inflight, whose table all walks
    share: the next one that reads the same directory waits for ever. *)
Example abort_blocks_key :
  run_async project «"{*,a/*}"» no_glob_options (fun _ ev => match ev with EvMatch _ => [CAbort] | _ => [] end) [] =
    Some ([EvMatch «"a"»; EvAbort], 1, 0).
Proof. by vm_compute. Qed.
