(* ===== verification/AsyncSearch.v ===== *)
(** * glob: the walk without caches, for the asynchronous walk

    The names that a pattern finds and what the walk costs, as functions with
    their recursion equations; both come from [GlobProps.search], which ends
    on every file system whose directories nest finitely deep. *)

From S2P Require Import Prelude BraceExpansion Regex Minimatch MinimatchProps NodePath GlobSync GlobProps GlobTheorems AsyncGlob.

Section Search.
Variable toLowerCase : jsstr -> jsstr.
Variable canonicalize : N -> N.
Variable the_fs : fs.
Variable self : glob.
Hypothesis root_slash : root self = [slash].
Hypothesis fs_ok : readable the_fs.
Variable rank : list jsstr -> nat.
Variable R : nat.
Hypothesis fs_nested : nested the_fs rank R.

Let srch := search toLowerCase canonicalize the_fs self.

(** The first part of a pattern that is not a string, the rest after it, the
    directory to read. *)
Definition rest_of (ps : list part) : list part := drop (length (leading_texts ps)) ps.
Definition read_of (ps : list part) : jsstr := default «"."» (prefix_of_pattern self ps).
Definition dir_of (ps : list part) : jsstr := makeAbs self (read_of ps).
Definition ignored (ps : list part) : bool := childrenIgnored toLowerCase canonicalize self (read_of ps).

(** The patterns that the walk goes on with, and the names it finds at once. *)
Definition below_entry (prefix : option jsstr) (rest : list part) (e : jsstr) : list (list part * bool) :=
  if is_hidden e && negb (g_dot self) then []
  else [(prefix_part prefix ++ Text e :: rest, true); (prefix_part prefix ++ Text e :: Globstar :: rest, true)].

Definition globstar_next (prefix : option jsstr) (abs : jsstr) (rest : list part) (b : bool) (entries : list jsstr) : list (list part * bool) :=
  if is_link the_fs abs && b then [] else concat (map (below_entry prefix rest) entries).

Definition nexts (ps : list part) (b : bool) : list (list part * bool) :=
  match rest_of ps, readdir_opt the_fs (dir_of ps) with
  | pn :: rest, Some entries =>
      if ignored ps then []
      else match pn with
           | Globstar =>
               (prefix_part (prefix_of_pattern self ps) ++ rest, false) ::
               globstar_next (prefix_of_pattern self ps) (dir_of ps) rest b entries
           | Magic r _ (Some g) =>
               if decide (rest = [] /\ mark self = false /\ stat self = false) then []
               else map (fun e => (prefix_part (prefix_of_pattern self ps) ++ Text e :: rest, b))
                      (matchedEntries canonicalize self (prefix_of_pattern self ps) r g entries)
           | _ => []
           end
  | _, _ => []
  end.

Definition names_now (ps : list part) : list jsstr :=
  match rest_of ps with
  | [] => if exists_at the_fs self (join [slash] (leading_texts ps)) then [mount self (join [slash] (leading_texts ps))] else []
  | pn :: rest =>
      if ignored ps then []
      else match readdir_opt the_fs (dir_of ps), pn with
           | Some entries, Magic r _ (Some g) =>
               if decide (rest = [] /\ mark self = false /\ stat self = false)
               then map (entry_name self (prefix_of_pattern self ps)) (matchedEntries canonicalize self (prefix_of_pattern self ps) r g entries)
               else []
           | _, _ => []
           end
  end.

(** *** One step of the walk *)

Definition flat (m : option (list (list jsstr))) : option (list jsstr) := @concat jsstr <$> m.

Lemma flat_mapM_app {A} (f : A -> option (list jsstr)) l1 l2 :
  flat (mapM f (l1 ++ l2)) = (a ← flat (mapM f l1); b ← flat (mapM f l2); Some (a ++ b)).
Proof.
  unfold flat. induction l1 as [|x l1 IH]; cbn [mapM app].
  - cbn. by destruct (mapM f l2).
  - destruct (f x) as [y|]; [|done]. cbn [mbind option_bind]. destruct (mapM f (l1 ++ l2)) as [r|], (mapM f l1) as [r1|]; cbn in IH |- *; try done.
    + destruct (mapM f l2) as [r2|]; [|done]. injection IH as ->. cbn. by rewrite app_assoc.
    + by destruct (mapM f l2).
Qed.

Lemma flat_mapM_concat {A B} (f : A -> option (list jsstr)) (h : B -> list A) l :
  flat (mapM f (concat (map h l))) = flat (mapM (fun x => flat (mapM f (h x))) l).
Proof.
  induction l as [|x l IH]; [done|]. cbn [map concat]. rewrite flat_mapM_app, IH. cbn [mapM].
  destruct (flat (mapM f (h x))) as [a|]; [|done]. cbn [mbind option_bind]. unfold flat. by destruct (mapM _ l).
Qed.

Lemma mapM_ext_eq {A B} (f g : A -> option B) l : (forall x, f x = g x) -> mapM f l = mapM g l.
Proof. intros H. induction l as [|x l IH]; [done|]. cbn [mapM]. by rewrite H, IH. Qed.

Lemma mapM_map {A B C} (f : B -> option C) (h : A -> B) l : mapM f (map h l) = mapM (fun x => f (h x)) l.
Proof. induction l as [|x l IH]; [done|]. cbn [map mapM]. by rewrite IH. Qed.

Lemma search_eq fuel ps b :
  srch (S fuel) ps b = (subs ← flat (mapM (fun q => srch fuel q.1 q.2) (nexts ps b)); Some (names_now ps ++ subs)).
Proof.
  unfold srch. cbn [search]. fold (prefix_of_pattern self ps). unfold nexts, names_now, ignored, dir_of, read_of, rest_of.
  destruct (drop _ ps) as [|pn rest]; [cbn; by rewrite app_nil_r|].
  destruct (childrenIgnored _ _ _ _); [by destruct (readdir_opt _ _)|].
  destruct (readdir_opt the_fs _) as [entries|]; [|done]. set (prefix := prefix_of_pattern self ps). set (abs := makeAbs self _).
  destruct pn as [|t|r src [g|]]; [|done| |done].
  - cbn [mapM fst snd]. set (f := fun q : list part * bool => search toLowerCase canonicalize the_fs self fuel q.1 q.2).
    destruct (search _ _ _ _ fuel (prefix_part prefix ++ rest) false) as [here|]; [|done]. cbn [mbind option_bind app].
    unfold globstar_next. destruct (is_link the_fs abs && b); [cbn; by rewrite app_nil_r|].
    pose proof (flat_mapM_concat f (below_entry prefix rest) entries) as H.
    rewrite (mapM_ext_eq (fun x => flat (mapM f (below_entry prefix rest x))) (fun e =>
      if is_hidden e && negb (g_dot self) then Some []
      else a ← search toLowerCase canonicalize the_fs self fuel (prefix_part prefix ++ Text e :: rest) true;
           b ← search toLowerCase canonicalize the_fs self fuel (prefix_part prefix ++ Text e :: Globstar :: rest) true;
           Some (a ++ b))) in H.
    + unfold flat in *. destruct (mapM f (concat _)) as [r|], (mapM _ entries) as [r'|]; try done. injection H as H. cbn. by rewrite H.
    + intros e. unfold below_entry. destruct (_ && _); [done|]. cbn [mapM]. unfold f. cbn [fst snd].
      destruct (search _ _ _ _ fuel (prefix_part prefix ++ Text e :: rest) true) as [x|]; [|done]. cbn [mbind option_bind].
      destruct (search _ _ _ _ fuel (prefix_part prefix ++ Text e :: Globstar :: rest) true) as [y|]; [|done]. cbn. by rewrite app_nil_r.
  - cbv zeta. destruct (decide _); [cbn; by rewrite app_nil_r|]. rewrite mapM_map. cbn [fst snd app]. unfold flat.
    by destruct (mapM _ _).
Qed.

(** *** Names and costs, once there is fuel enough *)

Lemma search_more fuel fuel' ps b names : fuel <= fuel' -> srch fuel ps b = Some names -> srch fuel' ps b = Some names.
Proof.
  revert fuel' ps b names. induction fuel as [|fuel IH]; intros [|fuel'] ps b names Hf; [done|done|lia|].
  rewrite !search_eq. intros H. apply bind_Some in H as (subs & Hs & [= <-]).
  unfold flat in *. apply fmap_Some in Hs as (l & Hl & ->).
  assert (mapM (fun q => srch fuel' q.1 q.2) (nexts ps b) = Some l) as ->; [|done].
  apply mapM_Some in Hl. apply mapM_Some. eapply Forall2_impl; [exact Hl|]. intros q n. cbn. apply IH. lia.
Qed.

(** Steps that the machine makes for a pattern, itself and all that follows. *)
Fixpoint costF (fuel : nat) (ps : list part) (b : bool) : nat :=
  match fuel with
  | O => 0
  | S fuel => 40 + 10 * length (names_now ps) + sum_list (map (fun q => costF fuel q.1 q.2) (nexts ps b))
  end.

Lemma costF_more fuel fuel' ps b : fuel <= fuel' -> is_Some (srch fuel ps b) -> costF fuel' ps b = costF fuel ps b.
Proof.
  revert fuel' ps b. induction fuel as [|fuel IH]; intros [|fuel'] ps b Hf [n Hn]; [done|done|lia|].
  rewrite search_eq in Hn. apply bind_Some in Hn as (subs & Hs & _). unfold flat in Hs. apply fmap_Some in Hs as (l & Hl & _).
  cbn [costF]. f_equal. f_equal. apply map_ext_in. intros q Hq. apply IH; [lia|].
  apply mapM_Some_1 in Hl. apply list_elem_of_In, list_elem_of_lookup in Hq as [i Hi].
  eapply Forall2_lookup_l in Hl as (y & _ & Hy); [|exact Hi]. eauto.
Qed.

Definition fuel_for (ps : list part) : nat := enough R (magics ps).
Definition found (ps : list part) (b : bool) : list jsstr := default [] (srch (fuel_for ps) ps b).
Definition cost (ps : list part) (b : bool) : nat := costF (fuel_for ps) ps b.

Lemma search_ends ps b : srch (fuel_for ps) ps b = Some (found ps b).
Proof.
  unfold found. destruct (search_total toLowerCase canonicalize the_fs self root_slash fs_ok rank R fs_nested (magics ps) ps b (fuel_for ps))
    as [n Hn]; [done|done|]. unfold srch. by rewrite Hn.
Qed.

Lemma found_fuel fuel ps b : fuel_for ps <= fuel -> srch fuel ps b = Some (found ps b).
Proof. intros H. by apply (search_more (fuel_for ps)), search_ends. Qed.

Lemma cost_fuel fuel ps b : fuel_for ps <= fuel -> costF fuel ps b = cost ps b.
Proof. intros H. apply costF_more; [done|]. rewrite search_ends. by eexists. Qed.

Lemma nexts_magics ps b q : q ∈ nexts ps b -> magics q.1 <= magics ps.
Proof.
  unfold nexts, rest_of. intros Hq. destruct (drop _ ps) as [|pn rest] eqn:Ed; [by apply not_elem_of_nil in Hq|].
  destruct (magics_rest ps pn rest Ed) as [Hm _]. destruct (readdir_opt _ _) as [entries|]; [|by apply not_elem_of_nil in Hq].
  destruct (ignored ps); [by apply not_elem_of_nil in Hq|].
  destruct pn as [|t|r src [g|]]; [| | |]; try by apply not_elem_of_nil in Hq.
  - apply elem_of_cons in Hq as [-> | Hq]; [cbn [fst]; rewrite magics_prefix; lia|]. unfold globstar_next in Hq.
    destruct (_ && b); [by apply not_elem_of_nil in Hq|]. apply list_elem_of_In, in_concat in Hq as (l & Hl & Hq).
    apply in_map_iff in Hl as (e & <- & _). unfold below_entry in Hq. destruct (_ && _); [done|].
    destruct Hq as [<-|[<-|[]]]; cbn [fst]; rewrite magics_prefix; cbn; lia.
  - destruct (decide _); [by apply not_elem_of_nil in Hq|]. apply list_elem_of_fmap in Hq as (e & -> & _). cbn [fst].
    rewrite magics_prefix. cbn. lia.
Qed.

Lemma fuel_for_mono ps qs : magics ps <= magics qs -> fuel_for ps <= fuel_for qs.
Proof. unfold fuel_for, enough. intros H. nia. Qed.

(** The recursion equations. *)
Lemma found_eq ps b : found ps b = names_now ps ++ concat (map (fun q => found q.1 q.2) (nexts ps b)).
Proof.
  pose proof (found_fuel (S (fuel_for ps)) ps b ltac:(lia)) as H. rewrite search_eq in H.
  assert (mapM (fun q => srch (fuel_for ps) q.1 q.2) (nexts ps b) = Some (map (fun q => found q.1 q.2) (nexts ps b))) as E.
  { apply mapM_Some, Forall2_fmap_r, Forall_Forall2_diag, Forall_forall. intros q Hq. cbn.
    apply found_fuel, fuel_for_mono. by eapply nexts_magics. }
  rewrite E in H. by injection H as <-.
Qed.

Lemma cost_eq ps b : cost ps b = 40 + 10 * length (names_now ps) + sum_list (map (fun q => cost q.1 q.2) (nexts ps b)).
Proof.
  rewrite <- (cost_fuel (S (fuel_for ps))) by lia. cbn [costF]. f_equal. f_equal. apply map_ext_in. intros q Hq.
  apply cost_fuel, fuel_for_mono. eapply (nexts_magics ps b), list_elem_of_In, Hq.
Qed.

Lemma elem_of_found ps b x :
  x ∈ found ps b <-> x ∈ names_now ps \/ exists q, q ∈ nexts ps b /\ x ∈ found q.1 q.2.
Proof.
  rewrite found_eq, elem_of_app, (list_elem_of_In (concat _) x), in_concat. f_equiv. split.
  - intros (l & Hl & Hx). apply in_map_iff in Hl as (q & <- & Hq). exists q. by rewrite !list_elem_of_In.
  - intros (q & Hq & Hx). exists (found q.1 q.2). apply list_elem_of_In in Hx. split; [|done].
    apply in_map_iff. exists q. by rewrite <- list_elem_of_In.
Qed.

(** *** Patterns that are walked alike *)

Definition same_walk (ps qs : list part) : Prop :=
  rest_of ps = rest_of qs /\ prefix_of_pattern self ps = prefix_of_pattern self qs /\
  join [slash] (leading_texts ps) = join [slash] (leading_texts qs).

Lemma same_walk_found ps qs b : same_walk ps qs -> found ps b = found qs b /\ cost ps b = cost qs b.
Proof.
  intros (H1 & H2 & H3). rewrite !found_eq, !cost_eq.
  assert (names_now ps = names_now qs) as ->.
  { unfold names_now, ignored, dir_of, read_of. by rewrite H1, H2, H3. }
  assert (nexts ps b = nexts qs b) as ->; [|done].
  unfold nexts, ignored, dir_of, read_of. by rewrite H1, H2.
Qed.

Definition good_dir (prefix : option jsstr) : Prop := match prefix with Some p => relative_path p | None => True end.

Lemma relative_prefix ps :
  relative_pattern ps ->
  prefix_of_pattern self ps = (match leading_texts ps with [] => None | _ => Some (join [slash] (leading_texts ps)) end) /\
  good_dir (prefix_of_pattern self ps).
Proof.
  intros H. destruct (pattern_shape self ps H) as (_ & Hl & _). unfold prefix_of_pattern.
  destruct (leading_texts ps) as [|t ts]; [done|]. destruct Hl as (Hr & _ & ->). done.
Qed.

Lemma relative_same ps qs :
  relative_pattern ps -> relative_pattern qs -> rest_of ps = rest_of qs ->
  join [slash] (leading_texts ps) = join [slash] (leading_texts qs) ->
  (leading_texts ps = [] <-> leading_texts qs = []) -> same_walk ps qs.
Proof.
  intros Hp Hq Hr Hj Hl. split_and!; [done| |done].
  rewrite (proj1 (relative_prefix ps Hp)), (proj1 (relative_prefix qs Hq)), Hj.
  destruct Hl as [Hl1 Hl2]. destruct (leading_texts ps), (leading_texts qs); [done|by specialize (Hl1 eq_refl)|by specialize (Hl2 eq_refl)|done].
Qed.

Lemma good_dir_prefix prefix : good_dir prefix -> good_prefix (match prefix with Some p => [p] | None => [] end) prefix.
Proof. destruct prefix as [p|]; [|done]. intros H. cbn. done. Qed.

Lemma prefix_part_relative prefix qs :
  good_dir prefix -> Forall text_part qs -> relative_pattern (prefix_part prefix ++ qs).
Proof. intros H. apply (sub_relative (match prefix with Some p => [p] | None => [] end)). by apply good_dir_prefix. Qed.

Lemma prefix_part_good prefix : good_dir prefix -> prefix_part prefix = match prefix with Some p => [Text p] | None => [] end.
Proof. destruct prefix as [[|c p]|]; [|done..]. by intros [H _]. Qed.

(** The pattern as [_process] takes it apart. *)
Lemma same_walk_parts ps pn rest :
  relative_pattern ps -> rest_of ps = pn :: rest -> same_walk ps (prefix_part (prefix_of_pattern self ps) ++ pn :: rest).
Proof.
  intros Hp Hr. destruct (relative_prefix ps Hp) as [Epre Hg]. destruct (leading_texts_rest ps) as [_ Hn].
  destruct (pattern_shape self ps Hp) as (_ & _ & Ht). fold (rest_of ps) in Hn, Ht. rewrite Hr in Hn, Ht. cbn [tail] in Ht.
  assert (leading_texts (pn :: rest) = []) as El by (destruct pn; [done|by destruct (Hn s rest)|done]).
  assert (leading_texts (prefix_part (prefix_of_pattern self ps) ++ pn :: rest) =
    match prefix_of_pattern self ps with Some p => [p] | None => [] end) as Elp.
  { rewrite prefix_part_good by done. destruct (prefix_of_pattern self ps) as [p|]; [|done]. by apply (f_equal (cons p)). }
  apply relative_same; [done|apply prefix_part_relative; [done|]| |rewrite Elp|rewrite Elp].
  - constructor; [|done]. by destruct pn; [|destruct (Hn s rest)|].
  - unfold rest_of. rewrite Elp, prefix_part_good by done. fold (rest_of ps). rewrite Hr. by destruct (prefix_of_pattern self ps).
  - rewrite Epre. by destruct (leading_texts ps).
  - rewrite Epre. by destruct (leading_texts ps).
Qed.

(** The names of entries, as the asynchronous walk makes them. *)
Lemma below_prefix_good prefix e :
  good_dir prefix -> is_name e -> below_prefix prefix e = join [slash] (match prefix with Some p => [p] | None => [] end ++ [e]).
Proof.
  destruct prefix as [[|c p]|]; [by intros [? _]| |done]. intros (_ & Ha & Hl) He. unfold below_prefix.
  rewrite decide_False; [done|]. intros E. by rewrite E in Ha.
Qed.

Lemma below_prefix_relative prefix e : good_dir prefix -> is_name e -> relative_path (below_prefix prefix e).
Proof.
  intros Hp He. rewrite below_prefix_good by done. destruct He as (H1 & _ & _ & H2). destruct prefix as [p|]; cbn [app].
  - apply join_relative; [done|by constructor].
  - by apply is_part_relative.
Qed.

Lemma mounted_entry prefix e : good_dir prefix -> is_name e -> mounted self (below_prefix prefix e) = entry_name self prefix e.
Proof.
  intros Hp He. rewrite (entry_name_relative self (match prefix with Some p => [p] | None => [] end)) by (try apply good_dir_prefix; done).
  rewrite <- below_prefix_good by done. destruct (below_prefix_relative prefix e Hp He) as (_ & Ha & _).
  unfold mounted. rewrite decide_False; [done|]. intros [Hc _]. unfold isAbsolute in Ha. by rewrite bool_decide_true in Ha.
Qed.

Lemma same_walk_below prefix e rest :
  good_dir prefix -> is_name e -> Forall text_part rest ->
  relative_pattern (Text (below_prefix prefix e) :: rest) /\
  same_walk (Text (below_prefix prefix e) :: rest) (prefix_part prefix ++ Text e :: rest).
Proof.
  intros Hp He Hr. assert (relative_pattern (Text (below_prefix prefix e) :: rest)) as H1.
  { split; [by apply below_prefix_relative|done]. }
  split; [done|]. assert (text_part (Text e)) as Hte by (destruct He as (? & _ & _ & ?); done).
  apply relative_same; [done|by apply prefix_part_relative; [|constructor]|..]; rewrite prefix_part_good by done;
    destruct prefix as [p|]; cbn [app leading_texts]; try done.
  rewrite below_prefix_good by done. cbn [app]. set (l := leading_texts rest). clearbody l.
  destruct l as [|y l]; [done|]. cbn [join]. by rewrite <- !app_assoc.
Qed.
End Search.
