(* ===== verification/AsyncItems.v ===== *)
(** * glob: the work that an asynchronous walk has under way

    The items of a machine of [AsyncGlob]: the tasks of its stack, the
    callbacks that wait in inflight and have not been called, the requests.
    A step replaces some items by others and leaves the rest. *)

From S2P Require Import Prelude BraceExpansion Regex Minimatch NodePath GlobSync AsyncGlob.

Inductive item := IT (t : task) | IW (k : key) (c : callback) | IP (p : request).

(** How many of the callbacks that wait for [k] are being called. *)
Fixpoint called (ts : list task) (k : key) : nat :=
  match ts with
  | [] => 0
  | Responded k' len _ :: ts => if decide (k' = k) then len else called ts k
  | _ :: ts => called ts k
  end.

Definition uncalled (n : key -> nat) (r : key * list callback) : list item := map (IW r.1) (drop (n r.1) r.2).
Definition waits (n : key -> nat) (rs : list (key * list callback)) : list item := concat (map (uncalled n) rs).

Definition items (m : machine) : list item :=
  map IT m.1 ++ waits (called m.1) (reqs m.2) ++ map IP (pending m.2).

(** ** inflight *)

(** The table after [inflight(key, cb)]. *)
Definition joined (rs : list (key * list callback)) (k : key) (c : callback) : list (key * list callback) :=
  match waiting k rs with
  | Some cbs => waiting_set k (cbs ++ [c]) rs
  | None => rs ++ [(k, [c])]
  end.

Lemma inflight_joined k c st :
  inflight k c st = (bool_decide (waiting k (reqs st) = None), set_reqs (joined (reqs st) k c) st).
Proof. unfold inflight, joined. by destruct (waiting k (reqs st)). Qed.

Lemma waiting_Some k rs cbs :
  waiting k rs = Some cbs -> exists r1 r2, rs = r1 ++ (k, cbs) :: r2 /\ (k ∉ map fst r1).
Proof.
  unfold waiting. induction rs as [|[k' cs] rs IH]; [done|]. cbn [find fst]. case_bool_decide as E.
  - intros [= <-]. subst. exists [], rs. split; [done|apply not_elem_of_nil].
  - intros H. destruct (IH H) as (r1 & r2 & -> & Hn). exists ((k', cs) :: r1), r2. split; [done|]. cbn. apply not_elem_of_cons. naive_solver.
Qed.

Lemma waiting_None k rs : waiting k rs = None <-> k ∉ map fst rs.
Proof.
  unfold waiting. induction rs as [|[k' cs] rs IH]; [split; [intros _; apply not_elem_of_nil|done]|].
  cbn [find fst map]. rewrite not_elem_of_cons. case_bool_decide as E; naive_solver.
Qed.

Lemma waiting_set_split k cbs cbs' r1 r2 :
  k ∉ map fst r1 -> k ∉ map fst r2 -> waiting_set k cbs' (r1 ++ (k, cbs) :: r2) = r1 ++ (k, cbs') :: r2.
Proof.
  assert (forall rs, k ∉ map fst rs -> waiting_set k cbs' rs = rs) as H.
  { induction rs as [|[k' cs] rs IH]; [done|]. cbn. intros [H1 H2]%not_elem_of_cons. rewrite decide_False by congruence. f_equal. by apply IH. }
  intros H1 H2. unfold waiting_set. rewrite map_app. cbn [map fst]. rewrite decide_True by done.
  f_equal; [by apply H|f_equal; by apply H].
Qed.

(** A key that waits is at one place of the table. *)
Lemma waiting_split k rs cbs :
  NoDup (map fst rs) -> waiting k rs = Some cbs ->
  exists r1 r2, rs = r1 ++ (k, cbs) :: r2 /\ (k ∉ map fst r1) /\ (k ∉ map fst r2).
Proof.
  intros Hn Hw. destruct (waiting_Some k rs cbs Hw) as (r1 & r2 & -> & H1). exists r1, r2. split_and!; [done|done|].
  rewrite map_app in Hn. apply NoDup_app in Hn as (_ & _ & Hn). cbn in Hn. by apply NoDup_cons in Hn as [? _].
Qed.

Lemma waits_app n r1 r2 : waits n (r1 ++ r2) = waits n r1 ++ waits n r2.
Proof. unfold waits. by rewrite map_app, concat_app. Qed.

Lemma waits_ext n n' rs : (forall k, k ∈ map fst rs -> n k = n' k) -> waits n rs = waits n' rs.
Proof.
  unfold waits. induction rs as [|[k cbs] rs IH]; intros H; [done|]. cbn [map concat fst snd]. f_equal.
  - unfold uncalled. cbn [fst snd]. by rewrite (H k) by left.
  - apply IH. intros k' Hk. apply H. by right.
Qed.

(** The table is well-formed: one entry for a key, with callbacks, of which
    those that are being called are the first. *)
Record table_ok (n : key -> nat) (rs : list (key * list callback)) : Prop := TableOk {
  keys_once : NoDup (map fst rs);
  called_first k cbs : waiting k rs = Some cbs -> cbs <> [] /\ n k <= length cbs;
  called_known k : waiting k rs = None -> n k = 0
}.

Lemma waiting_app_ne k k' rs cbs : k <> k' -> waiting k (rs ++ [(k', cbs)]) = waiting k rs.
Proof.
  intros Hne. unfold waiting. induction rs as [|[k2 c2] rs IH]; cbn [app find fst].
  - by rewrite bool_decide_false.
  - case_bool_decide; done.
Qed.

Lemma waiting_app_eq k rs cbs : waiting k rs = None -> waiting k (rs ++ [(k, cbs)]) = Some cbs.
Proof.
  unfold waiting. induction rs as [|[k2 c2] rs IH]; cbn [app find fst].
  - by rewrite bool_decide_true.
  - case_bool_decide; done.
Qed.

Lemma waiting_waiting_set k k' cbs rs :
  waiting k (waiting_set k' cbs rs) = if decide (k = k') then (fun _ => cbs) <$> waiting k rs else waiting k rs.
Proof.
  unfold waiting, waiting_set. induction rs as [|[k2 c2] rs IH]; cbn [map find fst]; [by destruct (decide _)|].
  destruct (decide (k2 = k')) as [->|Hne]; cbn [fst].
  - case_bool_decide as E; destruct (decide (k = k')) as [E'|E']; try congruence; done.
  - case_bool_decide as E; destruct (decide (k = k')) as [E'|E']; try congruence; done.
Qed.

Lemma keys_waiting_set k cbs rs : map fst (waiting_set k cbs rs) = map fst rs.
Proof. unfold waiting_set. induction rs as [|[k2 c2] rs IH]; [done|]. cbn. rewrite IH. by destruct (decide (k2 = k)) as [->|]. Qed.

Lemma waiting_joined k k' c rs :
  waiting k (joined rs k' c) = if decide (k = k') then Some (default [] (waiting k rs) ++ [c]) else waiting k rs.
Proof.
  unfold joined. destruct (waiting k' rs) as [cbs|] eqn:E.
  - rewrite waiting_waiting_set. destruct (decide (k = k')) as [->|]; [by rewrite E|done].
  - destruct (decide (k = k')) as [->|]; [by rewrite waiting_app_eq, E|by rewrite waiting_app_ne].
Qed.

Lemma joined_ok n rs k c : table_ok n rs -> table_ok n (joined rs k c).
Proof.
  intros [H1 H2 H3]. split.
  - unfold joined. destruct (waiting k rs) eqn:E; [by rewrite keys_waiting_set|].
    apply waiting_None in E. rewrite map_app. cbn. apply NoDup_app. split_and!; [done| |apply NoDup_singleton].
    intros x Hx ->%list_elem_of_singleton. done.
  - intros k' cbs. rewrite waiting_joined. destruct (decide (k' = k)) as [->|]; [|apply H2]. intros [= <-].
    split; [by destruct (default [] _)|]. rewrite length_app. destruct (waiting k rs) as [cbs|] eqn:E; cbn [default from_option id].
    + destruct (H2 _ _ E). lia.
    + rewrite (H3 _ E). lia.
  - intros k'. rewrite waiting_joined. destruct (decide _); [done|]. apply H3.
Qed.

Lemma joined_waits n rs k c : table_ok n rs -> waits n (joined rs k c) ≡ₚ IW k c :: waits n rs.
Proof.
  intros [H1 H2 H3]. unfold joined. destruct (waiting k rs) as [cbs|] eqn:E.
  - destruct (waiting_split k rs cbs H1 E) as (r1 & r2 & -> & Hr1 & Hr2). rewrite waiting_set_split by done.
    rewrite !waits_app. change (waits n ((k, ?x) :: r2)) with (uncalled n (k, x) ++ waits n r2). unfold uncalled. cbn [fst snd].
    rewrite drop_app_le by (by apply (H2 k cbs)). rewrite map_app. cbn [map]. rewrite <- app_assoc. cbn [app].
    rewrite <- Permutation_middle, (Permutation_middle (waits n r1)). done.
  - rewrite waits_app. change (waits n [(k, [c])]) with (uncalled n (k, [c]) ++ []). unfold uncalled. cbn [fst snd].
    rewrite (H3 k E). cbn. by rewrite <- Permutation_cons_append.
Qed.

(** ** Steps of tasks *)

Definition plain_task (t : task) : Prop := match t with Responded _ _ _ => False | _ => True end.

Lemma called_plain ts ts' : Forall plain_task ts -> called (ts ++ ts') = called ts'.
Proof. induction 1 as [|t ts Ht _ IH]; [done|]. destruct t; done. Qed.

(** The state after callbacks joined and requests were made. *)
Record grown (st st' : async) (dw : list (key * callback)) (dp : list request) : Prop := Grown {
  grown_reqs : reqs st' = foldl (fun rs w => joined rs w.1 w.2) (reqs st) dw;
  grown_pending : pending st' = pending st ++ dp
}.

Lemma joined_all_ok n rs dw : table_ok n rs -> table_ok n (foldl (fun rs w => joined rs w.1 w.2) rs dw).
Proof. revert rs. induction dw as [|w dw IH]; intros rs H; [done|]. apply IH. by apply joined_ok. Qed.

Lemma joined_all_waits n rs dw :
  table_ok n rs -> waits n (foldl (fun rs w => joined rs w.1 w.2) rs dw) ≡ₚ map (fun w => IW w.1 w.2) dw ++ waits n rs.
Proof.
  revert rs. induction dw as [|w dw IH]; intros rs H; [done|]. cbn [foldl map app]. rewrite IH by (by apply joined_ok).
  rewrite joined_waits by done. by rewrite <- Permutation_middle.
Qed.

(** What a step makes. *)
Definition made (ts : list task) (dw : list (key * callback)) (dp : list request) : list item :=
  map IT ts ++ map (fun w => IW w.1 w.2) dw ++ map IP dp.

Definition rest_items (ts : list task) (st : async) : list item :=
  map IT ts ++ waits (called ts) (reqs st) ++ map IP (pending st).

Lemma items_grown ts ts' st st' dw dp :
  Forall plain_task ts' -> table_ok (called ts) (reqs st) -> grown st st' dw dp ->
  items (ts' ++ ts, st') ≡ₚ made ts' dw dp ++ rest_items ts st.
Proof.
  intros Hp Ht [H1 H2]. unfold items, made, rest_items. cbn [fst snd]. rewrite H1, H2, called_plain, !map_app by done.
  rewrite joined_all_waits by done. set (w := map _ dw). set (a := waits _ _).
  rewrite <- !app_assoc. apply Permutation_app_head.
  rewrite (app_assoc (map IT ts) w), (Permutation_app_comm (map IT ts) w), <- app_assoc. apply Permutation_app_head.
  rewrite (Permutation_app_comm (map IP dp)), <- !app_assoc. done.
Qed.

Lemma items_plain t ts st : plain_task t -> items (t :: ts, st) = IT t :: rest_items ts st.
Proof. intros H. unfold items, rest_items. cbn [fst snd map app]. by destruct t. Qed.

(** The callbacks that wait are called. *)
Lemma items_respond k a cbs ts st :
  table_ok (called ts) (reqs st) -> called ts k = 0 -> waiting k (reqs st) = Some cbs ->
  exists frame,
    items (Respond k a :: ts, st) ≡ₚ (IT (Respond k a) :: map (IW k) cbs) ++ frame /\
    items ((map (fun c => Call c a) cbs ++ [Responded k (length cbs) a]) ++ ts, st) ≡ₚ
      (map IT (map (fun c => Call c a) cbs) ++ [IT (Responded k (length cbs) a)]) ++ frame.
Proof.
  intros [H1 H2 H3] H0 Hw. destruct (waiting_split _ _ _ H1 Hw) as (r1 & r2 & E & Hr1 & Hr2).
  exists (map IT ts ++ (waits (called ts) r1 ++ waits (called ts) r2) ++ map IP (pending st)). split.
  - rewrite items_plain by done. cbn [app]. constructor. unfold rest_items. rewrite E, waits_app.
    change (waits ?n ((k, cbs) :: r2)) with (uncalled n (k, cbs) ++ waits n r2). unfold uncalled. cbn [fst snd]. rewrite H0, drop_0.
    set (x := map _ cbs). rewrite (app_assoc x). rewrite (Permutation_app_comm x (map IT ts)), <- !app_assoc.
    apply Permutation_app_head. rewrite !app_assoc. apply Permutation_app_tail.
    rewrite (Permutation_app_comm (waits _ r1) x). by rewrite <- !app_assoc.
  - unfold items. cbn [fst snd]. rewrite !map_app, <- !app_assoc.
    apply Permutation_app_head. cbn [map app]. constructor. apply Permutation_app_head. rewrite app_assoc. apply Permutation_app_tail.
    rewrite called_plain by (apply Forall_map, Forall_true; done). rewrite E, waits_app.
    change (waits ?n ((k, cbs) :: r2)) with (uncalled n (k, cbs) ++ waits n r2). unfold uncalled. cbn [fst snd].
    cbn [called]. rewrite decide_True by done. rewrite drop_all. cbn [map app].
    rewrite (waits_ext _ (called ts) r1), (waits_ext _ (called ts) r2); [done|..];
      intros k' Hk; cbn [called]; rewrite decide_False; congruence.
Qed.

(** The end of a response, with callbacks that came in the meantime or not. *)
Lemma items_responded k len a ts st cbs :
  table_ok (called (Responded k len a :: ts)) (reqs st) -> called ts k = 0 -> waiting k (reqs st) = Some cbs ->
  let r := responded k len a st in
  table_ok (called ts) (reqs r.2) /\
  exists frame, items (Responded k len a :: ts, st) ≡ₚ [IT (Responded k len a)] ++ frame /\
    items (r.1 ++ ts, r.2) ≡ₚ (if decide (len < length cbs) then [IP (PTick k a)] else []) ++ frame /\
    (forall k', k' ∈ map fst (reqs r.2) <-> k' ∈ map fst (reqs st) /\ (len < length cbs \/ k' <> k)).
Proof.
  intros [H1 H2 H3] H0 Hw. destruct (waiting_split _ _ _ H1 Hw) as (r1 & r2 & E & Hr1 & Hr2).
  assert (forall k', k' <> k -> called (Responded k len a :: ts) k' = called ts k') as Hc.
  { intros k' Hk. cbn [called]. by rewrite decide_False. }
  assert (called (Responded k len a :: ts) k = len) as Hck by (cbn [called]; by rewrite decide_True).
  set (n := called (Responded k len a :: ts)) in *.
  assert (waits n (reqs st) = waits (called ts) r1 ++ map (IW k) (drop len cbs) ++ waits (called ts) r2) as Ew.
  { rewrite E, waits_app. change (waits n ((k, cbs) :: r2)) with (uncalled n (k, cbs) ++ waits n r2). unfold uncalled. cbn [fst snd].
    rewrite Hck, (waits_ext n (called ts) r1), (waits_ext n (called ts) r2); [done|..]; intros k' Hk; apply Hc; congruence. }
  unfold responded. rewrite Hw. cbn [default from_option id]. destruct (decide (len < length cbs)) as [Hl|Hl]; cbn [fst snd].
  - split; [|exists (map IT ts ++ waits n (reqs st) ++ map IP (pending st)); split_and!].
    + cbn [request_ set_reqs set_pending reqs]. split; [by rewrite keys_waiting_set|..]; intros k' *; rewrite waiting_waiting_set.
      * destruct (decide (k' = k)) as [->|Hne]; [|rewrite <- Hc by done; apply H2]. rewrite Hw. cbn. intros [= <-].
        rewrite H0. split; [|lia]. intros Hd. apply (f_equal length) in Hd. rewrite length_drop in Hd. cbn in Hd. lia.
      * destruct (decide (k' = k)) as [->|Hne]; [by rewrite Hw|]. rewrite <- Hc by done. apply H3.
    + done.
    + unfold items. cbn [fst snd app]. cbn [request_ set_reqs set_pending reqs pending]. rewrite Ew, map_app. cbn [map].
      rewrite E, waiting_set_split, waits_app by done.
      change (waits ?n ((k, ?x) :: r2)) with (uncalled n (k, x) ++ waits n r2). unfold uncalled. cbn [fst snd]. rewrite H0, drop_0.
      rewrite (app_assoc _ _ [_]), (app_assoc _ _ [_]). by rewrite <- Permutation_cons_append.
    + intros k'. cbn [request_ set_reqs set_pending reqs]. rewrite keys_waiting_set. tauto.
  - assert (List.filter (fun r => negb (bool_decide (r.1 = k))) (reqs st) = r1 ++ r2) as Ef.
    { assert (forall rs : list (key * list callback), k ∉ map fst rs -> List.filter (fun r => negb (bool_decide (r.1 = k))) rs = rs) as Hf.
      { induction rs as [|[k' cs] rs IH]; [done|]. cbn. intros [Hx Hy]%not_elem_of_cons. rewrite bool_decide_false by congruence. cbn. f_equal. by apply IH. }
      rewrite E, List.filter_app. cbn [List.filter fst]. rewrite bool_decide_true by done. cbn [negb]. by rewrite !Hf. }
    cbn [set_reqs reqs]. rewrite Ef.
    assert (forall k', k' ∈ map fst (r1 ++ r2) <-> k' ∈ map fst (reqs st) /\ k' <> k) as Hk.
    { intros k'. rewrite E, !map_app. cbn [map fst]. rewrite !elem_of_app, elem_of_cons. split; [|tauto].
      intros [H|H]; (split; [tauto|]); intros ->; done. }
    assert (forall k', k' <> k -> waiting k' (r1 ++ r2) = waiting k' (reqs st)) as Hwk.
    { intros k' Hne. rewrite E. unfold waiting. clear -Hne. induction r1 as [|[k2 c2] r1 IH]; cbn [app find fst].
      - by rewrite bool_decide_false.
      - case_bool_decide; done. }
    assert (waiting k (r1 ++ r2) = None) as Hwn by (apply waiting_None; rewrite Hk; naive_solver).
    split; [|exists (map IT ts ++ waits n (reqs st) ++ map IP (pending st)); split_and!].
    + split.
      * rewrite E in H1. rewrite map_app in H1 |- *. apply NoDup_app in H1 as (Ha & Hb & Hd). cbn in Hb, Hd. apply NoDup_cons in Hd as [_ Hd].
        apply NoDup_app. split_and!; [done| |done]. intros x Hx Hx2. apply (Hb x Hx). by right.
      * intros k' c' Hk'. destruct (decide (k' = k)) as [->|Hne]; [congruence|]. rewrite <- Hc by done. apply H2. by rewrite <- Hwk.
      * intros k' Hk'. destruct (decide (k' = k)) as [->|Hne]; [done|]. rewrite <- Hc by done. apply H3. by rewrite <- Hwk.
    + done.
    + unfold items. cbn [fst snd app]. cbn [set_reqs reqs pending]. rewrite Ew, waits_app, drop_ge by lia. done.
    + intros k'. rewrite Hk. split; [naive_solver lia|]. intros [? [?|?]]; [lia|done].
Qed.

(** A request is answered. *)
Lemma items_answer i p ts' st st' dw dp :
  pending st !! i = Some p -> Forall plain_task ts' -> table_ok (called []) (reqs st) ->
  grown (set_pending (delete i (pending st)) st) st' dw dp ->
  exists frame, items ([], st) ≡ₚ [IP p] ++ frame /\ items (ts', st') ≡ₚ made ts' dw dp ++ frame.
Proof.
  intros Hp Hts Ht Hg. exists (rest_items [] (set_pending (delete i (pending st)) st)). split.
  - unfold items, rest_items. cbn [fst snd map app set_pending reqs pending].
    pose proof (Permutation_map IP (delete_Permutation (pending st) i p Hp)) as Hd. cbn [map] in Hd.
    rewrite Permutation_middle. by apply Permutation_app_head.
  - rewrite <- (app_nil_r ts') at 1. by apply items_grown.
Qed.
