(* ===== verification/AsyncSteps.v ===== *)
(** * glob: what each step of the asynchronous walk does

    The items of a walk are typed: their answers are what the file system
    says, their patterns are relative.  Each has a value: the names that it
    will find, the steps that it will take, what it owes to the counter, the
    key that it will respond to.  Every operation makes items whose values are
    those of the item it works on. *)

From S2P Require Import Prelude BraceExpansion Regex Minimatch MinimatchProps NodePath GlobSync GlobProps GlobTheorems AsyncGlob AsyncItems AsyncSearch.

Definition b2n (P : Prop) `{Decision P} : nat := if decide P then 1 else 0.

(** How often a response to [k] is outstanding. *)
Definition tok_rcb (k : key) (cb : rcb) : nat := match cb with Res k' => b2n (k' = k) | _ => 0 end.

Definition tok_callback (k : key) (c : callback) : nat :=
  match c with OnReaddir cb | OnLstatGlobStar _ cb => tok_rcb k cb | OnLstat _ _ => 0 end.

Definition tok (k : key) (i : item) : nat :=
  match i with
  | IW _ c | IT (Call c _) => tok_callback k c
  | IT (Respond k' _) | IT (Responded k' _ _) | IP (PLstat _ k') | IP (PTick k' _) => b2n (k' = k)
  | IT (ReaddirCb _ _ cb) | IP (PReaddir _ cb) => tok_rcb k cb
  | _ => 0
  end.

(** What is owed to the counter. *)
Definition owed_rcb (cb : rcb) : nat := match cb with Res _ => 0 | _ => 1 end.

Definition owed_callback (c : callback) : nat :=
  match c with OnReaddir cb | OnLstatGlobStar _ cb => owed_rcb cb | OnLstat _ _ => 1 end.

Definition owed (i : item) : nat :=
  match i with
  | IW _ c | IT (Call c _) => owed_callback c
  | IT (ReaddirCb _ _ cb) | IP (PReaddir _ cb) => owed_rcb cb
  | IT Done | IT (GlobStarRest _ _ _ _ _ _) | IP (PStat _ _ _ _) => 1
  | _ => 0
  end.

Definition total (v : item -> nat) (l : list item) : nat := sum_list (map v l).

Lemma total_app v l1 l2 : total v (l1 ++ l2) = total v l1 + total v l2.
Proof. unfold total. induction l1 as [|i l1 IH]; cbn [app map sum_list]; [done|]. change (sum_list (?a :: ?l)) with (a + sum_list l) in *. lia. Qed.

Lemma total_one v i : total v [i] = v i.
Proof. unfold total. cbn. lia. Qed.

Lemma total_cons v i l : total v (i :: l) = v i + total v l.
Proof. done. Qed.

#[export] Instance total_perm v : Proper ((≡ₚ) ==> (=)) (total v).
Proof. unfold total. induction 1; cbn [map] in *; repeat change (sum_list (?a :: ?l)) with (a + sum_list l) in *; lia. Qed.

(** Tasks that begin new work, which are followed by one that ends it. *)
Definition begins (t : task) : Prop := match t with Process _ _ _ | EmitMatch _ _ => True | _ => False end.

Fixpoint guarded (ts : list task) : Prop :=
  match ts with
  | [] => True
  | t :: ts => (begins t -> 0 < total owed (map IT ts)) /\ guarded ts
  end.

Lemma guarded_app ts1 ts2 : guarded ts1 -> guarded ts2 -> guarded (ts1 ++ ts2).
Proof.
  induction ts1 as [|t ts1 IH]; [done|]. cbn [guarded app]. intros [H1 H2] H. split; [|by apply IH].
  intros Hb. specialize (H1 Hb). rewrite map_app, total_app. lia.
Qed.

Lemma guarded_none ts : Forall (fun t => ~ begins t) ts -> guarded ts.
Proof. induction 1; cbn; naive_solver. Qed.

Lemma guarded_done ts : guarded (ts ++ [Done]).
Proof.
  induction ts as [|t ts IH]; cbn [app guarded]; [by split|]. split; [|done]. intros _.
  rewrite map_app, total_app. cbn. lia.
Qed.

(** Tasks that report. *)
Definition is_end (ev : event) : bool := match ev with EvEnd _ => true | _ => false end.
Definition reports (t : task) : Prop := match t with Finish | Emit _ => True | _ => False end.

(** Conditions on a list of tasks that is written out. *)
Ltac each_task := repeat first [apply Forall_nil_2 | apply Forall_cons_2]; try done; try (by cbn; tauto).

Definition inkeys (k : key) (rs : list (key * list callback)) : nat := b2n (k ∈ map fst rs).

Lemma inkeys_joined k k' c rs :
  inkeys k' (joined rs k c) = inkeys k' rs + (if decide (waiting k rs = None) then b2n (k = k') else 0).
Proof.
  unfold inkeys, joined, b2n. destruct (waiting k rs) as [cbs|] eqn:E.
  - rewrite (decide_False (P := Some cbs = None)) by done. rewrite keys_waiting_set. lia.
  - rewrite (decide_True (P := None = None)) by done. apply waiting_None in E. rewrite map_app. cbn [map fst].
    destruct (decide (k = k')) as [->|Hne].
    + rewrite decide_True by set_solver. by rewrite decide_False.
    + destruct (decide (k' ∈ map fst rs)); [rewrite decide_True by set_solver|rewrite decide_False by set_solver]; lia.
Qed.

Section Steps.
Variable toLowerCase : jsstr -> jsstr.
Variable canonicalize : N -> N.
Variable the_fs : fs.
Variable self : glob.
Hypothesis plain : plain_search self.
Hypothesis fs_ok : readable the_fs.
Variable rank : list jsstr -> nat.
Variable R : nat.
Hypothesis fs_nested : nested the_fs rank R.
Hypothesis root_dir : fresh_stat the_fs [slash] = Some Directory.

Let fnd := found toLowerCase canonicalize the_fs self R.
Let cst := cost toLowerCase canonicalize the_fs self R.

(** ** Names and costs *)

Definition rcb_pattern (cb : rcb) : list part * bool :=
  match cb with
  | Readdir2 prefix pn rest _ b => (prefix_part prefix ++ pn :: rest, b)
  | GlobStar2 prefix _ rest _ b => (prefix_part prefix ++ Globstar :: rest, b)
  | Res _ => ([], false)
  end.

Definition name_rcb (x : jsstr) (cb : rcb) : Prop :=
  match cb with Res _ => False | _ => x ∈ fnd (rcb_pattern cb).1 (rcb_pattern cb).2 end.

Definition name_simple (x f : jsstr) : Prop := exists_at the_fs self f = true /\ x = mount self f.

Definition name_callback (x : jsstr) (c : callback) : Prop :=
  match c with OnReaddir cb | OnLstatGlobStar _ cb => name_rcb x cb | OnLstat f _ => name_simple x f end.

Definition name (x : jsstr) (i : item) : Prop :=
  match i with
  | IT (Process ps _ b) => x ∈ fnd ps b
  | IW _ c | IT (Call c _) => name_callback x c
  | IT (ReaddirCb _ _ cb) | IP (PReaddir _ cb) => name_rcb x cb
  | IP (PStat _ f _ _) => name_simple x f
  | IT (GlobStarRest prefix abs rest _ b entries) => exists q, q ∈ globstar_next the_fs self prefix abs rest b entries /\ x ∈ fnd q.1 q.2
  | IT (EmitMatch _ e) => x = e
  | _ => False
  end.

Definition steps_rcb (cb : rcb) : nat :=
  match cb with Res _ => 3 | _ => cst (rcb_pattern cb).1 (rcb_pattern cb).2 - 30 end.

Definition steps_callback (c : callback) : nat :=
  match c with OnReaddir cb => steps_rcb cb | OnLstatGlobStar _ _ => 13 | OnLstat _ _ => 10 end.

Definition steps (i : item) : nat :=
  match i with
  | IT (Process ps _ b) => cst ps b
  | IW _ c => steps_callback c + 4
  | IT (Call c _) => steps_callback c
  | IT (GlobStarRest prefix abs rest _ b entries) =>
      6 + sum_list (map (fun q => cst q.1 q.2) (globstar_next the_fs self prefix abs rest b entries))
  | IT (ReaddirCb _ _ _) | IT Done | IT (EmitMatch _ _) | IT (Responded _ _ _) => 4
  | IT (Respond _ _) | IT Finish => 2
  | IP (PReaddir _ _) => 5
  | IP (PLstat _ _) | IP (PTick _ _) => 3
  | IP (PStat _ _ _ _) => 9
  | _ => 1
  end.

(** ** Types *)

Definition known (w : state) (abs : jsstr) : Prop := is_Some (symlinks w !! abs).
Definition fixed (abs : jsstr) : Prop := makeAbs self abs = abs.

(** Names whose absolute form does not end in a slash, unless it is the root. *)
Definition simple (f : jsstr) : Prop := slice_last 1 (makeAbs self f) = [slash] -> makeAbs self f = [slash].

Definition too_long (f : jsstr) : bool := match maxLength self with Some n => bool_decide (n < length f) | None => false end.

Definition answer_ok (w : state) (k : key) (a : answer) : Prop :=
  match k, a with
  | KReaddir abs b, Dirs e => e = readdir_opt the_fs abs /\ (b = true -> is_Some e -> known w abs)
  | KLstat abs, AStat t | KStat abs, AStat t => t = lstatSync the_fs abs
  | _, _ => False
  end.

Definition dir_ok (prefix : option jsstr) (abs : jsstr) (rest : list part) (index : nat) : Prop :=
  index = 0 /\ abs = makeAbs self (default «"."» prefix) /\ good_dir prefix /\ Forall text_part rest /\ Forall has_glob rest.

Definition rcb_ok (abs : jsstr) (b : bool) (cb : rcb) : Prop :=
  match cb with
  | Readdir2 prefix pn rest index b' =>
      b' = b /\ dir_ok prefix abs rest index /\ (exists r src g, pn = Magic r src (Some g)) /\
      childrenIgnored toLowerCase canonicalize self (default «"."» prefix) = false
  | GlobStar2 prefix abs' rest index b' =>
      b' = b /\ abs' = abs /\ dir_ok prefix abs rest index /\
      childrenIgnored toLowerCase canonicalize self (default «"."» prefix) = false
  | Res _ => False
  end.

(** A response to [_readdir] that has only to read the directory. *)
Definition res_ok (w : state) (abs : jsstr) (cb : rcb) : Prop :=
  exists b, cb = Res (KReaddir abs b) /\ fixed abs /\ (b = true -> known w abs).

Definition wait_ok (w : state) (k : key) (c : callback) : Prop :=
  match c with
  | OnReaddir (Res k') => exists abs, k = KReaddir abs false /\ k' = KReaddir abs true /\ fixed abs /\ known w abs
  | OnReaddir cb => exists abs b, k = KReaddir abs b /\ rcb_ok abs b cb
  | OnLstatGlobStar abs cb => k = KLstat abs /\ cb = Res (KReaddir abs true) /\ fixed abs
  | OnLstat f index => k = KStat (makeAbs self f) /\ index = 0 /\ simple f /\ too_long f = false
  end.

Definition call_ok (w : state) (c : callback) (a : answer) : Prop :=
  match c with
  | OnReaddir (Res k) => answer_ok w k a
  | OnReaddir cb => exists abs b, rcb_ok abs b cb /\ answer_ok w (KReaddir abs b) a
  | OnLstatGlobStar abs cb => cb = Res (KReaddir abs true) /\ fixed abs /\ a = AStat (lstatSync the_fs abs)
  | OnLstat f index => index = 0 /\ simple f /\ too_long f = false /\ a = AStat (lstatSync the_fs (makeAbs self f))
  end.

Definition task_ok (w : state) (t : task) : Prop :=
  match t with
  | Process ps index b => index = 0 /\ relative_pattern ps /\ Forall has_glob ps
  | Done | Finish | Emit (EvMatch _) | Emit (EvStat _ _) | Emit (EvEnd _) => True
  | Call c a => call_ok w c a
  | Respond k a | Responded k _ a => answer_ok w k a
  | ReaddirCb abs r cb => r = readdirSync the_fs abs /\ res_ok w abs cb
  | GlobStarRest prefix abs rest index b entries =>
      dir_ok prefix abs rest index /\ readdirSync the_fs abs = inl entries /\ (b = true -> known w abs)
  | EmitMatch index _ => index = 0 /\ is_Some (mjoin (matches w !! 0))
  | _ => False
  end.

Definition request_ok (w : state) (p : request) : Prop :=
  match p with
  | PReaddir abs cb => res_ok w abs cb
  | PLstat abs k => k = KLstat abs \/ k = KStat abs
  | PStat abs f lstat index =>
      index = 0 /\ simple f /\ too_long f = false /\ abs = makeAbs self f /\ lstat = SymbolicLink /\ lstatSync the_fs abs = Some SymbolicLink
  | PTick k a => answer_ok w k a
  | PRealpath _ _ => False
  end.

Definition typed (w : state) (i : item) : Prop :=
  match i with IT t => task_ok w t | IW k c => wait_ok w k c | IP p => request_ok w p end.

(** The state knows no less. *)
Definition no_less (w w' : state) : Prop :=
  (forall k, known w k -> known w' k) /\ (is_Some (mjoin (matches w !! 0)) -> is_Some (mjoin (matches w' !! 0))).

Lemma no_less_refl w : no_less w w.
Proof. done. Qed.

Lemma no_less_trans w1 w2 w3 : no_less w1 w2 -> no_less w2 w3 -> no_less w1 w3.
Proof. intros [H1 H2] [H3 H4]. split; eauto. Qed.

Lemma answer_no_less w w' k a : no_less w w' -> answer_ok w k a -> answer_ok w' k a.
Proof. intros [H _]. destruct k, a; cbn; naive_solver. Qed.

Lemma res_no_less w w' abs cb : no_less w w' -> res_ok w abs cb -> res_ok w' abs cb.
Proof. intros [H _] (b & -> & H1 & H2). exists b. naive_solver. Qed.

Lemma typed_no_less w w' i : no_less w w' -> typed w i -> typed w' i.
Proof.
  intros Hw. pose proof Hw as [Hk Hm]. destruct i as [t|k c|p]; cbn [typed].
  - destruct t as [| | |[[]| |] a| | | | | | |[]| | | | | | | |]; cbn [task_ok call_ok]; try done;
      intros; destruct_and?; split_and?; eauto using answer_no_less, res_no_less.
    + destruct H as (abs & b & ? & ?). exists abs, b. eauto using answer_no_less.
    + destruct H as (abs' & b & ? & ?). exists abs', b. eauto using answer_no_less.
  - destruct c as [[]| |]; cbn [wait_ok]; try done. intros (abs & ? & ? & ? & ?). exists abs. eauto.
  - destruct p; cbn [request_ok]; eauto using answer_no_less, res_no_less.
Qed.

(** ** States *)

Record state_ok (st : async) : Prop := StateOk {
  caches_true : coherent the_fs (walk st);
  missing_true k : k ∈ missing st -> lstatSync the_fs k = None;
  one_pattern : length (matches (walk st)) = 1;
  not_paused : paused st = false;
  not_aborted : aborted st = false
}.

(** Only caches, waiting callbacks and requests differ. *)
Record advanced (st st' : async) : Prop := Advanced {
  adv_no_less : no_less (walk st) (walk st');
  adv_keys : keys (walk st') 0 = keys (walk st) 0;
  adv_events : events st' = events st;
  adv_processing : processing st' = processing st
}.

Lemma advanced_refl st : advanced st st.
Proof. done. Qed.

Lemma advanced_trans st1 st2 st3 : advanced st1 st2 -> advanced st2 st3 -> advanced st1 st3.
Proof. intros [H1 H2 H3 H4] [K1 K2 K3 K4]. split; [by eapply no_less_trans|congruence..]. Qed.

(** An operation makes tasks, callbacks and requests that find the names [N],
    take less than [C] steps, owe [O] and respond as told by [K]. *)
Definition produces (st : async) (r : list task * async) (C : nat) (N : jsstr -> Prop) (O : nat) (K : key -> nat) : Prop :=
  exists dw dp,
    (grown st r.2 dw dp /\ Forall plain_task r.1 /\ guarded r.1 /\ Forall (fun t => ~ reports t) r.1) /\
    (state_ok r.2 /\ advanced st r.2 /\ Forall (typed (walk r.2)) (made r.1 dw dp)) /\
    total steps (made r.1 dw dp) < C /\
    (forall x, Exists (name x) (made r.1 dw dp) <-> N x) /\
    total owed (made r.1 dw dp) = O /\
    (forall k, total (tok k) (made r.1 dw dp) + inkeys k (reqs st) = K k + inkeys k (reqs r.2)).

Lemma produces_more st r C C' N N' O K :
  produces st r C N O K -> C <= C' -> (forall x, N x <-> N' x) -> produces st r C' N' O K.
Proof.
  intros (dw & dp & H1 & H2 & H3 & H4 & H5 & H6) HC HN. exists dw, dp.
  split; [done|]. split; [done|]. split; [lia|]. split; [|done]. intros x. by rewrite H4.
Qed.

(** The state is changed first. *)
Lemma produces_after st st1 r C N O K :
  reqs st1 = reqs st -> pending st1 = pending st -> advanced st st1 -> produces st1 r C N O K -> produces st r C N O K.
Proof.
  intros Hr Hp Ha (dw & dp & (H1 & H1') & (H2 & H2' & H2'') & H3 & H4 & H5 & H6). exists dw, dp. split_and!; try tauto.
  - destruct H1 as [G1 G2]. split; congruence.
  - by eapply advanced_trans.
  - intros k. rewrite <- Hr. apply H6.
Qed.

(** Tasks only. *)
Lemma produces_tasks st ts st' C N O K :
  reqs st' = reqs st -> pending st' = pending st -> advanced st st' -> state_ok st' ->
  Forall plain_task ts -> guarded ts -> Forall (fun t => ~ reports t) ts -> Forall (task_ok (walk st')) ts ->
  total steps (map IT ts) < C -> (forall x, Exists (name x) (map IT ts) <-> N x) -> total owed (map IT ts) = O ->
  (forall k, total (tok k) (map IT ts) = K k) -> produces st (ts, st') C N O K.
Proof.
  intros Hr Hp Ha Hok H1 H2 H3 H4 H5 H6 H7 H8. exists [], []. unfold made. cbn [map fst snd]. rewrite !app_nil_r.
  split_and!; try done; [split; [done|by rewrite app_nil_r]|by apply Forall_map|]. intros k. rewrite H8. by rewrite Hr.
Qed.

(** A request only. *)
Lemma produces_request st st' p C N O K :
  reqs st' = reqs st -> pending st' = pending st ++ [p] -> advanced st st' -> state_ok st' -> request_ok (walk st') p ->
  steps (IP p) < C -> (forall x, name x (IP p) <-> N x) -> owed (IP p) = O -> (forall k, tok k (IP p) = K k) ->
  produces st ([], st') C N O K.
Proof.
  intros Hr Hp Ha Hok H1 H2 H3 H4 H5. exists [], [p]. unfold made. cbn [map fst snd app]. rewrite !total_one.
  split_and!; try done; [by constructor| |].
  - intros x. rewrite Exists_cons, Exists_nil, <- H3. tauto.
  - intros k. by rewrite total_one, H5, Hr.
Qed.

(** Nothing. *)
Lemma produces_nothing st C : state_ok st -> 0 < C -> produces st ([], st) C (fun _ => False) 0 (fun _ => 0).
Proof.
  intros Hok HC. apply produces_tasks; try done. intros x. cbn. by rewrite Exists_nil.
Qed.

(** A callback joins those that wait. *)
Lemma produces_inflight st k c r C C' N N' O O' K K' :
  produces (set_reqs (joined (reqs st) k c) st) r C N O K -> wait_ok (walk st) k c ->
  C + steps_callback c + 4 <= C' -> (forall x, N' x <-> name_callback x c \/ N x) -> O' = O + owed_callback c ->
  (forall k', K k' + tok_callback k' c = K' k' + (if decide (waiting k (reqs st) = None) then b2n (k = k') else 0)) ->
  produces st r C' N' O' K'.
Proof.
  intros (dw & dp & ([G1 G2] & H1) & (H2 & H2' & H2'') & H3 & H4 & H5 & H6) Hw HC HN HO HK. exists ((k, c) :: dw), dp.
  assert (forall v, total v (made r.1 ((k, c) :: dw) dp) = v (IW k c) + total v (made r.1 dw dp)) as Ht.
  { intros v. unfold made. rewrite !total_app. cbn [map fst snd]. rewrite total_cons. lia. }
  assert (forall P, Exists P (made r.1 ((k, c) :: dw) dp) <-> P (IW k c) \/ Exists P (made r.1 dw dp)) as He.
  { intros P. unfold made. rewrite !Exists_app. cbn [map fst snd]. rewrite Exists_cons. tauto. }
  rewrite !Ht. split_and!; try tauto.
  - split; [done|done].
  - destruct H2' as [A1 A2 A3 A4]. by split.
  - unfold made in *. rewrite !Forall_app in H2'' |- *. cbn [map fst snd]. rewrite Forall_cons. destruct H2'' as (? & ? & ?).
    split_and!; try done. eapply typed_no_less; [|exact Hw]. apply H2'.
  - cbn [steps]. lia.
  - intros x. rewrite He, H4, HN. done.
  - cbn [owed]. lia.
  - intros k'. specialize (H6 k'). cbn [set_reqs reqs] in H6. rewrite inkeys_joined in H6. specialize (HK k'). rewrite Ht. cbn [tok]. lia.
Qed.

(** ** stat *)

Lemma ensured st :
  state_ok st ->
  let st' := (via (ensure_matches 0) tt st).2 in
  state_ok st' /\ advanced st st' /\ reqs st' = reqs st /\ pending st' = pending st /\ is_Some (mjoin (matches (walk st') !! 0)).
Proof.
  intros [H1 H2 H3 H4 H5]. destruct (ensure_matches_ok the_fs 0 (walk st) ltac:(lia)) as (w & E & (Hl & Hs & Hk) & Hc & Hm).
  unfold via. rewrite E. cbn [snd]. split_and!; [|split|done|done|]; cbn [set_walk walk missing paused aborted events processing]; try done.
  - split; cbn [set_walk walk missing paused aborted]; try done; [by auto|lia].
  - split; [exact Hs|]. by rewrite Hm.
  - by rewrite Hm.
Qed.

Lemma simple2_ok f st :
  state_ok st -> produces st (_processSimple2 self f 0 (exists_at the_fs self f) st) 9 (fun x => name_simple x f) 1 (fun _ => 0).
Proof.
  intros Hok. destruct (ensured st Hok) as (Hok' & Ha & Hr & Hp & Hm). unfold _processSimple2, name_simple.
  destruct (exists_at the_fs self f) eqn:E; apply produces_tasks; try done; cbn [map];
    try (by each_task); try (cbn; lia); try (intros x; rewrite !Exists_cons, Exists_nil; cbn; naive_solver).
Qed.

Lemma stat2_ok f st :
  state_ok st -> simple f -> too_long f = false ->
  produces st (_stat2 self f (makeAbs self f) (fresh_stat the_fs (makeAbs self f)) 0 st) 9 (fun x => name_simple x f) 1 (fun _ => 0).
Proof.
  intros Hok Hs Hl. pose proof Hok as [H1 H2 H3 H4 H5]. set (abs := makeAbs self f).
  assert (exists_at the_fs self f = match fresh_stat the_fs abs with None => false
    | Some t => negb (bool_decide (slice_last 1 f = [slash])) || bool_decide (t = Directory) end) as Hex.
  { unfold exists_at. fold (too_long f). rewrite Hl. done. }
  unfold _stat2. destruct (fresh_stat the_fs abs) as [t|] eqn:Ef.
  - set (st1 := set_missing _ _).
    assert (state_ok st1 /\ advanced st st1) as [Hok1 Ha1].
    { split; [|done]. split; cbn; try done; [by apply coherent_stat|]. intros k Hk. apply H2. set_solver. }
    assert (bool_decide (slice_last 1 abs = [slash]) && negb (bool_decide (t = Directory)) = false) as ->.
    { destruct (bool_decide (slice_last 1 abs = [slash])) eqn:Hsl; [|done]. apply bool_decide_eq_true in Hsl. unfold abs in Ef. rewrite (Hs Hsl), root_dir in Ef. by injection Ef as <-. }
    set (st2 := cached abs _ st1).
    assert (state_ok st2 /\ advanced st st2) as [Hok2 Ha2].
    { split; [|done]. split; cbn; try done; [|intros k Hk; apply H2; set_solver].
      apply coherent_cache; [by apply coherent_stat|].
      destruct (stat_fresh_ok the_fs false abs t (walk st) H1 Ef) as [Hc _]. exact Hc. }
    apply (produces_after st st2); [done..|].
    assert (negb (bool_decide (slice_last 1 f = [slash]) && negb (bool_decide (t = Directory))) = exists_at the_fs self f) as ->.
    { rewrite Hex. by destruct (bool_decide _), (bool_decide _). }
    by apply simple2_ok.
  - set (st1 := set_missing _ _).
    assert (state_ok st1 /\ advanced st st1) as [Hok1 Ha1].
    { split; [|done]. split; cbn; try done.
      - destruct H1 as [C1 C2 C3]. split; cbn; try done. intros k t [_ Hk]%lookup_delete_Some. by apply C2.
      - intros k [Hk|Hk]%elem_of_union; [by apply H2|]. apply elem_of_singleton in Hk as ->. by apply lstat_fresh. }
    apply (produces_after st st1); [done..|]. rewrite <- Hex. by apply simple2_ok.
Qed.

(** What the cache says of a name. *)
Lemma known_exists f st c :
  state_ok st -> too_long f = false -> stat self = false -> cache (walk st) !! makeAbs self f = Some c ->
  let needDir := bool_decide (slice_last 1 f = [slash]) in
  let c' := match c with Entries _ => CDir | c => c end in
  (negb needDir || bool_decide (c' = CDir) = true -> truthy_entry c' = exists_at the_fs self f) /\
  (c' = CFile -> needDir = true -> exists_at the_fs self f = false).
Proof.
  intros [H1 _ _ _ _] Hl Hst Hc needDir c'.
  destruct (stat_ok the_fs self fs_ok f (walk st) H1) as (r & w & E & <- & _).
  unfold GlobSync._stat, bind, get, ret in E. fold (too_long f) in E. rewrite Hl, Hst, Hc in E. cbv zeta in E. fold needDir in E. fold c' in E.
  split.
  - intros Hn. rewrite Hn in E. injection E as E1 _. by rewrite <- E1.
  - intros Hn Hd. rewrite Hd, Hn in E. injection E as E1 _. by rewrite <- E1.
Qed.

Lemma stat_op_ok f st :
  state_ok st -> simple f ->
  produces st (AsyncGlob._stat self f 0 st) 18 (fun x => name_simple x f) 1 (fun _ => 0).
Proof.
  intros Hok Hs. pose proof Hok as [H1 H2 H3 H4 H5]. unfold AsyncGlob._stat. fold (too_long f). set (abs := makeAbs self f).
  assert (forall b, b = exists_at the_fs self f -> produces st (_processSimple2 self f 0 b st) 18 (fun x => name_simple x f) 1 (fun _ => 0)) as Hsimple.
  { intros b ->. eapply produces_more; [by apply simple2_ok|lia|done]. }
  destruct (too_long f) eqn:Hl.
  { apply Hsimple. unfold exists_at. fold (too_long f). by rewrite Hl. }
  assert (exists_at the_fs self f = match fresh_stat the_fs abs with None => false
    | Some t => negb (bool_decide (slice_last 1 f = [slash])) || bool_decide (t = Directory) end) as Hex.
  { unfold exists_at. fold (too_long f). by rewrite Hl. }
  set (kn := if stat self then None else _). destruct kn as [b|] eqn:Ek.
  { apply Hsimple. unfold kn in Ek. destruct (stat self) eqn:Est; [done|]. destruct (cache (walk st) !! abs) as [c|] eqn:Ec; [|done].
    destruct (known_exists f st c Hok Hl Est Ec) as [K1 K2]. cbv zeta in *.
    destruct (negb (bool_decide (slice_last 1 f = [slash])) || _) eqn:En; [injection Ek as <-; by apply K1|].
    destruct (bool_decide (_ = CFile)) eqn:Ef; [|done]. injection Ek as <-. symmetry. apply K2; [by apply bool_decide_eq_true in Ef|].
    by destruct (bool_decide (slice_last 1 f = [slash])). }
  clear kn Ek. destruct (decide (abs ∈ missing st)) as [Hm|_].
  { apply Hsimple. rewrite Hex. apply H2, lstat_fresh in Hm. by rewrite Hm. }
  destruct (statCache (walk st) !! abs) as [t|] eqn:Es.
  { apply Hsimple. rewrite Hex, (stat_true _ _ H1 _ _ Es). by destruct (bool_decide _), (bool_decide _). }
  rewrite inflight_joined. cbn [fst snd].
  destruct (bool_decide (waiting (KStat abs) (reqs st) = None)) eqn:Ew.
  - apply bool_decide_eq_true in Ew.
    eapply (produces_inflight _ _ _ _ 4 _ (fun _ => False)); [apply produces_request with (p := PLstat abs (KStat abs)) (K := fun k => b2n (KStat abs = k)) (O := 0)|..]; try done.
    all: try (by right); try (cbn; lia); try (intros; cbn; tauto); try (split_and!; done).
    intros k. rewrite decide_True by done. cbn. lia.
  - apply bool_decide_eq_false in Ew.
    eapply (produces_inflight _ _ _ _ 1 _ (fun _ => False)); [apply produces_nothing|..]; try done; try lia.
    all: try (split_and!; done); try (cbn; lia); try (intros; cbn; tauto).
    intros k. by rewrite decide_False.
Qed.

(** ** readdir *)

Lemma readdir_cached_ok abs k st :
  state_ok st -> res_ok (walk st) abs (Res k) ->
  produces st (_readdir_cached abs (Res k) st) 6 (fun _ => False) 0 (fun k' => tok_rcb k' (Res k)).
Proof.
  intros Hok Hres. pose proof Hok as [H1 H2 H3 H4 H5]. unfold _readdir_cached.
  assert (forall e, e = readdir_opt the_fs abs ->
    produces st ([Call (OnReaddir (Res k)) (Dirs e)], st) 6 (fun _ => False) 0 (fun k' => tok_rcb k' (Res k))) as Hcall.
  { intros e ->. apply produces_tasks; try done; try (by each_task); try (cbn; lia).
    - apply Forall_singleton. destruct Hres as (b & [= ->] & Hf & Hk). cbn. eauto.
    - intros x. cbn [map]. rewrite Exists_cons, Exists_nil. cbn. tauto. }
  assert (produces st ([], request_ (PReaddir abs (Res k)) st) 6 (fun _ => False) 0 (fun k' => tok_rcb k' (Res k))) as Hreq.
  { apply produces_request with (p := PReaddir abs (Res k)); try done; try (cbn; lia). }
  destruct (cache (walk st) !! abs) as [c|] eqn:Ec; [|done]. pose proof (cache_true _ _ H1 _ _ Ec) as Ht.
  unfold readdir_opt in Hcall. destruct c as [| | | |l]; try done; apply Hcall; destruct (readdirSync the_fs abs) as [l'|er] eqn:Er; try done; cbn in Ht.
  - apply (read_entries _ fs_ok) in Er as [Hd _]. apply lstat_fresh in Ht. congruence.
  - apply (read_entries _ fs_ok) in Er as [Hd _]. destruct Ht as (t & Ht & Hn). congruence.
  - congruence.
  - congruence.
Qed.

Lemma readdir_false_ok abs cb st :
  state_ok st -> fixed abs -> wait_ok (walk st) (KReaddir abs false) (OnReaddir cb) ->
  produces st (_readdir_false abs cb st) (steps_rcb cb + 10) (fun x => name_rcb x cb) (owed_rcb cb) (fun k => tok_rcb k cb).
Proof.
  intros Hok Hf Hw. pose proof Hok as [H1 H2 H3 H4 H5]. unfold _readdir_false. rewrite H5, inflight_joined. cbn [fst snd].
  destruct (bool_decide (waiting (KReaddir abs false) (reqs st) = None)) eqn:Ew.
  - apply bool_decide_eq_true in Ew.
    eapply produces_inflight; [apply readdir_cached_ok|..]; try done.
    + by exists false.
    + cbn. lia.
    + intros x. cbn. tauto.
    + intros k. rewrite decide_True by done. cbn. lia.
  - apply bool_decide_eq_false in Ew.
    eapply produces_inflight; [apply (produces_nothing _ 1)|..]; try done; try lia.
    + cbn. lia.
    + intros x. cbn. tauto.
    + intros k. by rewrite decide_False.
Qed.

Lemma readdirInGlobStar_ok abs st :
  state_ok st -> fixed abs ->
  produces st (AsyncGlob._readdirInGlobStar self abs (Res (KReaddir abs true)) st) 21 (fun _ => False) 0
    (fun k => tok_rcb k (Res (KReaddir abs true))).
Proof.
  intros Hok Hf. pose proof Hok as [H1 H2 H3 H4 H5]. unfold AsyncGlob._readdirInGlobStar.
  rewrite H5, (no_follow _ plain), inflight_joined. cbn [fst snd].
  destruct (bool_decide (waiting (KLstat abs) (reqs st) = None)) eqn:Ew.
  - apply bool_decide_eq_true in Ew.
    eapply (produces_inflight _ _ _ _ 4 _ (fun _ => False)); [apply produces_request with (p := PLstat abs (KLstat abs)) (K := fun k => b2n (KLstat abs = k)) (O := 0)|..]; try done.
    all: try (by left); try (cbn; lia); try (intros; cbn; tauto).
    intros k. rewrite decide_True by done. cbn. lia.
  - apply bool_decide_eq_false in Ew.
    eapply (produces_inflight _ _ _ _ 1 _ (fun _ => False)); [apply produces_nothing|..]; try done; try lia.
    all: try (cbn; lia); try (intros; cbn; tauto).
    intros k. by rewrite decide_False.
Qed.

Lemma readdir_op_ok abs b cb st :
  state_ok st -> fixed abs -> rcb_ok abs b cb ->
  produces st (AsyncGlob._readdir self abs b cb st) (steps_rcb cb + 25) (fun x => name_rcb x cb) 1 (fun _ => 0).
Proof.
  intros Hok Hf Hcb. pose proof Hok as [H1 H2 H3 H4 H5].
  assert (wait_ok (walk st) (KReaddir abs b) (OnReaddir cb)) as Hw by (destruct cb; [eexists _, _; done..|done]).
  assert (owed_rcb cb = 1 /\ forall k, tok_rcb k cb = 0) as [Ho Ht] by (by destruct cb).
  unfold AsyncGlob._readdir. destruct b.
  2: { pose proof (readdir_false_ok abs cb st Hok Hf Hw) as H. rewrite Ho in H.
       destruct H as (dw & dp & K1 & K2 & K3 & K4 & K5 & K6). exists dw, dp.
       split; [done|]. split; [done|]. split; [lia|]. split; [done|]. split; [done|]. intros k. by rewrite K6, Ht. }
  rewrite H5, inflight_joined. cbn [fst snd].
  destruct (bool_decide (waiting (KReaddir abs true) (reqs st) = None)) eqn:Ew.
  - apply bool_decide_eq_true in Ew.
    assert (produces (set_reqs (joined (reqs st) (KReaddir abs true) (OnReaddir cb)) st)
      (if decide (symlinks (walk (set_reqs (joined (reqs st) (KReaddir abs true) (OnReaddir cb)) st)) !! abs = None)
       then AsyncGlob._readdirInGlobStar self abs (Res (KReaddir abs true)) (set_reqs (joined (reqs st) (KReaddir abs true) (OnReaddir cb)) st)
       else _readdir_cached abs (Res (KReaddir abs true)) (set_reqs (joined (reqs st) (KReaddir abs true) (OnReaddir cb)) st))
      21 (fun _ => False) 0 (fun k => tok_rcb k (Res (KReaddir abs true)))) as Hr.
    { destruct (decide _) as [Hn|Hn]; [by apply readdirInGlobStar_ok|].
      eapply produces_more; [apply readdir_cached_ok; [done|]|lia|done]. exists true. split_and!; [done|done|]. intros _. by apply not_eq_None_Some. }
    eapply produces_inflight; [exact Hr|done|cbn; lia|intros x; cbn; tauto|cbn; lia|].
    intros k. rewrite decide_True by done. cbn. rewrite Ht. lia.
  - apply bool_decide_eq_false in Ew.
    eapply produces_inflight; [apply (produces_nothing _ 1)|..]; try done; try lia.
    + cbn. lia.
    + intros x. cbn. tauto.
    + intros k. rewrite decide_False by done. cbn. rewrite Ht. lia.
Qed.

(** What [readdir] answered. *)
Lemma readdirCb_ok abs cb st :
  state_ok st -> res_ok (walk st) abs cb ->
  produces st (match readdirSync the_fs abs with
               | inl entries => AsyncGlob._readdirEntries self abs entries cb st
               | inr er => AsyncGlob._readdirError self abs er cb st
               end) 4 (fun _ => False) 0 (fun k => tok_rcb k cb).
Proof.
  intros Hok Hres. pose proof Hok as [H1 H2 H3 H4 H5].
  assert (forall st', reqs st' = reqs st -> pending st' = pending st -> advanced st st' -> state_ok st' ->
    produces st ([Call (OnReaddir cb) (Dirs (readdir_opt the_fs abs))], st') 4 (fun _ => False) 0 (fun k => tok_rcb k cb)) as Hcall.
  { intros st' Hr Hp Ha Hok'. eapply (res_no_less _ _ _ _ (adv_no_less _ _ Ha)) in Hres as (b & -> & Hf & Hk).
    apply produces_tasks; try done; try (by each_task); try (cbn; lia).
    intros x. cbn [map]. rewrite Exists_cons, Exists_nil. cbn. tauto. }
  destruct (readdirSync the_fs abs) as [entries|er] eqn:Er.
  - unfold AsyncGlob._readdirEntries. rewrite H5.
    destruct (readdirEntries_ok the_fs self fs_ok abs entries Er (walk st) H1) as (w & E & Hc & [Hs1 Hs2] & _).
    unfold via. rewrite E. cbn [snd]. unfold readdir_opt in Hcall. rewrite Er in Hcall. apply Hcall; try done; split; cbn; try done.
    + split; [done|]. by rewrite Hs1.
    + unfold keys. by rewrite Hs1.
    + by rewrite Hs1.
  - unfold AsyncGlob._readdirError. rewrite H5. destruct Hres as (b & -> & Hf & Hk). rewrite Hf.
    pose proof (read_error _ fs_ok abs er Er) as He. unfold readdir_opt in Hcall. rewrite Er in Hcall.
    destruct er; try done; (apply Hcall; try done; split; cbn; try done; by apply coherent_cache).
Qed.

(** ** Callbacks *)

Lemma lstat_none_readdir abs : lstatSync the_fs abs = None -> readdir_opt the_fs abs = None.
Proof.
  intros H. unfold readdir_opt. destruct (readdirSync the_fs abs) as [l|] eqn:Er; [|done].
  apply (read_entries _ fs_ok) in Er as [Hd _]. apply lstat_fresh in H. congruence.
Qed.

Lemma lstat_file_readdir abs : lstatSync the_fs abs = Some File -> readdir_opt the_fs abs = None /\ fresh_stat the_fs abs = Some File.
Proof.
  intros H. assert (fresh_stat the_fs abs = Some File) as Hf by (unfold fresh_stat; by rewrite H). split; [|done].
  unfold readdir_opt. destruct (readdirSync the_fs abs) as [l|] eqn:Er; [|done].
  apply (read_entries _ fs_ok) in Er as [Hd _]. congruence.
Qed.

Lemma call_res_ok k a st :
  state_ok st -> answer_ok (walk st) k a ->
  produces st ([Respond k a], st) 3 (fun _ => False) 0 (fun k' => tok_rcb k' (Res k)).
Proof.
  intros Hok Ha. apply produces_tasks; try done; try (by each_task); try (cbn; lia).
  intros x. cbn [map]. rewrite Exists_cons, Exists_nil. cbn. tauto.
Qed.

Lemma call_lstat_globstar_ok abs st :
  state_ok st -> fixed abs ->
  produces st (call canonicalize self (OnLstatGlobStar abs (Res (KReaddir abs true))) (AStat (lstatSync the_fs abs)) st)
    13 (fun _ => False) 0 (fun k => tok_rcb k (Res (KReaddir abs true))).
Proof.
  intros Hok Hf. pose proof Hok as [H1 H2 H3 H4 H5]. cbn [call].
  assert (forall st', readdir_opt the_fs abs = None -> reqs st' = reqs st -> pending st' = pending st -> advanced st st' -> state_ok st' ->
    produces st ([Call (OnReaddir (Res (KReaddir abs true))) (Dirs None)], st') 13 (fun _ => False) 0 (fun k => tok_rcb k (Res (KReaddir abs true)))) as Hcall.
  { intros st' He Hr Hp Ha Hok'. apply produces_tasks; try done; try (by each_task); try (cbn; lia).
    intros x. cbn [map]. rewrite Exists_cons, Exists_nil. cbn. tauto. }
  destruct (lstatSync the_fs abs) as [t|] eqn:Et; [|by apply Hcall; [apply lstat_none_readdir|..]].
  assert (bool_decide (t = SymbolicLink) = is_link the_fs abs) as Et'.
  { unfold is_link. rewrite Et. apply bool_decide_ext. naive_solver. }
  set (st1 := set_walk (set_symlinks abs (bool_decide (t = SymbolicLink)) (walk st)) st).
  assert (state_ok st1) as Hok1 by (unfold st1; rewrite Et'; split; cbn; try done; by apply coherent_link).
  assert (advanced st st1) as Ha1.
  { split; [|done..]. split; [|done]. intros k Hk. unfold st1, known. cbn. rewrite lookup_insert_is_Some'. by right. }
  assert (known (walk st1) abs) as Hk1 by (unfold known, st1; cbn; rewrite lookup_insert_is_Some'; by left).
  cbv zeta. destruct (negb _ && negb _) eqn:Eb.
  - apply andb_true_iff in Eb as [Eb1 Eb2]. apply negb_true_iff, bool_decide_eq_false in Eb1. apply negb_true_iff, bool_decide_eq_false in Eb2.
    assert (t = File) as -> by (by destruct t). destruct (lstat_file_readdir abs Et) as [Hr Hs].
    apply Hcall; try done; [split; [exact (adv_no_less _ _ Ha1)|done..]|].
    destruct Hok1 as [C1 C2 C3 C4 C5]. split; cbn; try done. apply coherent_cache; [done|]. by exists File.
  - apply (produces_after st st1); [done..|].
    apply (readdir_false_ok abs (Res (KReaddir abs true)) st1); [done|done|]. exists abs. done.
Qed.

Lemma call_lstat_ok f st :
  state_ok st -> simple f -> too_long f = false ->
  produces st (call canonicalize self (OnLstat f 0) (AStat (lstatSync the_fs (makeAbs self f))) st)
    10 (fun x => name_simple x f) 1 (fun _ => 0).
Proof.
  intros Hok Hs Hl. cbn [call]. destruct (decide (lstatSync the_fs (makeAbs self f) = Some SymbolicLink)) as [E|E].
  - apply produces_request with (p := PStat (makeAbs self f) f SymbolicLink 0); try done; try (cbn; lia). by destruct Hok.
  - assert (lstatSync the_fs (makeAbs self f) = fresh_stat the_fs (makeAbs self f)) as ->.
    { unfold fresh_stat. by destruct (lstatSync the_fs (makeAbs self f)) as [[]|]. }
    eapply produces_more; [by apply stat2_ok|lia|done].
Qed.

(** ** Directories *)

(** A pattern that has been taken apart. *)
Lemma parts_of prefix pn rest :
  good_dir prefix -> Forall text_part rest -> (forall s, pn <> Text s) ->
  let ps := prefix_part prefix ++ pn :: rest in
  relative_pattern ps /\ rest_of ps = pn :: rest /\ prefix_of_pattern self ps = prefix.
Proof.
  intros Hp Hr Hn ps.
  assert (relative_pattern ps) as Hrel by (apply prefix_part_relative; [done|constructor; [destruct pn as [|s|]; [done|exfalso; by apply (Hn s)|done]|done]]).
  assert (leading_texts ps = match prefix with Some p => [p] | None => [] end) as El.
  { unfold ps. rewrite prefix_part_good by done. destruct pn as [|s|]; [|exfalso; by apply (Hn s)|]; by destruct prefix. }
  split_and!; [done| |].
  - unfold rest_of. rewrite El. unfold ps. rewrite prefix_part_good by done. by destruct prefix.
  - rewrite (proj1 (relative_prefix self ps Hrel)), El. by destruct prefix.
Qed.

Lemma total_map_IT {A} v (g : A -> task) l : total v (map IT (map g l)) = sum_list (map (fun a => v (IT (g a))) l).
Proof. unfold total. by rewrite !map_map. Qed.

Lemma exists_map_IT {A} (P : item -> Prop) (g : A -> task) l : Exists P (map IT (map g l)) <-> exists a, a ∈ l /\ P (IT (g a)).
Proof.
  rewrite Exists_exists. split.
  - intros (i & Hi & HP). apply list_elem_of_fmap in Hi as (t & -> & Ht). apply list_elem_of_fmap in Ht as (a & -> & Ha). eauto.
  - intros (a & Ha & HP). exists (IT (g a)). split; [|done]. by apply list_elem_of_fmap_2, list_elem_of_fmap_2.
Qed.

Lemma sum_list_const {A} (n : nat) (l : list A) : sum_list (map (fun _ => n) l) = n * length l.
Proof. induction l as [|a l IH]; [by rewrite Nat.mul_0_r|]. cbn [map length]. rewrite Nat.mul_succ_r, <- IH. cbn. lia. Qed.

(** A loop that begins new work, and [cb()]. *)
Lemma produces_loop {A} st st' (g : A -> task) l C N :
  reqs st' = reqs st -> pending st' = pending st -> advanced st st' -> state_ok st' ->
  (forall a, a ∈ l -> begins (g a) /\ task_ok (walk st') (g a)) ->
  sum_list (map (fun a => steps (IT (g a))) l) + 4 < C ->
  (forall x, (exists a, a ∈ l /\ name x (IT (g a))) <-> N x) ->
  produces st (map g l ++ [Done], st') C N 1 (fun _ => 0).
Proof.
  intros Hr Hp Ha Hok Hg HC HN.
  assert (forall P : task -> Prop, (forall t, begins t -> P t) -> P Done -> Forall P (map g l ++ [Done])) as Hall.
  { intros P H1 H2. apply Forall_app. split; [|by constructor]. apply Forall_map, Forall_forall. intros a Hl. by apply H1, Hg. }
  apply produces_tasks; try done.
  - apply Hall; [by intros []|done].
  - apply guarded_done.
  - apply Hall; [intros []; cbn; tauto|by intros []].
  - apply Forall_app. split; [|by constructor]. apply Forall_map, Forall_forall. intros a Hl. by apply Hg.
  - rewrite map_app, total_app, total_map_IT. cbn [map]. rewrite total_one. change (steps (IT Done)) with 4. lia.
  - intros x. rewrite map_app, Exists_app, exists_map_IT, <- HN. cbn [map]. rewrite Exists_cons, Exists_nil. cbn. tauto.
  - rewrite map_app, total_app, total_map_IT. cbn [map]. rewrite total_one. cbn [owed].
    rewrite (map_ext_in _ (fun _ => 0)); [by rewrite sum_list_const|].
    intros a Hl%list_elem_of_In. apply Hg in Hl as [Hb _]. by destruct (g a).
  - intros k. rewrite map_app, total_app, total_map_IT. cbn [map]. rewrite total_one. cbn [tok].
    rewrite (map_ext_in _ (fun _ => 0)); [by rewrite sum_list_const|].
    intros a Hl%list_elem_of_In. apply Hg in Hl as [Hb _]. by destruct (g a).
Qed.

Lemma produces_done st C N :
  state_ok st -> 4 < C -> (forall x, ~ N x) -> produces st ([Done], st) C N 1 (fun _ => 0).
Proof.
  intros Hok HC HN. apply (produces_loop st st (fun t : task => t) []); try done; [intros a Ha; by apply not_elem_of_nil in Ha|].
  intros x. split; [|intros H; by destruct (HN x)]. intros (a & Ha & _). by apply not_elem_of_nil in Ha.
Qed.

Lemma found_next ps b x :
  x ∈ fnd ps b <-> x ∈ names_now toLowerCase canonicalize the_fs self ps \/
    exists q, q ∈ nexts toLowerCase canonicalize the_fs self ps b /\ x ∈ fnd q.1 q.2.
Proof. by apply (elem_of_found _ _ _ _ (at_root _ plain) fs_ok rank R fs_nested). Qed.

Lemma cost_next ps b :
  cst ps b = 40 + 10 * length (names_now toLowerCase canonicalize the_fs self ps) +
    sum_list (map (fun q => cst q.1 q.2) (nexts toLowerCase canonicalize the_fs self ps b)).
Proof. by apply (cost_eq _ _ _ _ (at_root _ plain) fs_ok rank R fs_nested). Qed.

Lemma entries_names abs entries e : readdir_opt the_fs abs = Some entries -> e ∈ entries -> is_name e.
Proof.
  unfold readdir_opt. destruct (readdirSync the_fs abs) as [l|] eqn:Er; [|done]. intros [= <-].
  destruct fs_nested as (_ & H & _). specialize (H _ _ Er). rewrite Forall_forall in H. apply H.
Qed.

Lemma readdir2_ok abs b prefix pn rest st :
  state_ok st -> rcb_ok abs b (Readdir2 prefix pn rest 0 b) ->
  let cb := Readdir2 prefix pn rest 0 b in
  produces st (_processReaddir2 canonicalize self prefix pn rest 0 b (readdir_opt the_fs abs) st) (steps_rcb cb) (fun x => name_rcb x cb) 1 (fun _ => 0).
Proof.
  intros Hok (_ & (_ & Habs & Hp & Ht & Hg) & (r & src & g & ->) & Hig) cb.
  destruct (parts_of prefix (Magic r src (Some g)) rest Hp Ht ltac:(done)) as (Hrel & Hrest & Hpre).
  unfold cb, steps_rcb, name_rcb. cbn [rcb_pattern fst snd]. set (ps := prefix_part prefix ++ _) in *.
  assert (dir_of self ps = abs) as Hdir by (unfold dir_of, read_of; by rewrite Hpre).
  assert (ignored toLowerCase canonicalize self ps = false) as Hign by (unfold ignored, read_of; by rewrite Hpre).
  pose proof (fun x => found_next ps b x) as Hf. pose proof (cost_next ps b) as Hc.
  unfold names_now, nexts in Hf, Hc. rewrite Hrest, Hdir, Hign, Hpre in Hf, Hc. unfold _processReaddir2.
  pose proof (entries_names abs) as Hnames.
  destruct (readdir_opt the_fs abs) as [entries|].
  2: { apply produces_done; [done|cbn in Hc; lia|]. intros x Hx. apply Hf in Hx as [Hx|(q & Hq & _)]; by eapply not_elem_of_nil. }
  specialize (Hnames entries). set (matched := matchedEntries canonicalize self prefix r g entries) in *.
  assert (forall e, e ∈ matched -> is_name e) as Hm by (intros e He; apply Hnames; [done|by apply (matchedEntries_sub canonicalize self prefix r g)]).
  destruct (decide (matched = [])) as [->|Hne].
  { apply produces_done; [done|cbn in Hc; destruct (decide _) in Hc; cbn in Hc; lia|].
    intros x Hx. apply Hf in Hx. destruct (decide _) in Hx; cbn in Hx; destruct Hx as [Hx|(q & Hq & _)]; by eapply not_elem_of_nil. }
  destruct (decide (rest = [] /\ _)) as [Hshort|Hlong].
  - destruct (ensured st Hok) as (Hok' & Ha & Hr' & Hpd & Hmm).
    apply produces_loop; try done.
    + rewrite (map_ext _ (fun _ : jsstr => 4)) by done. rewrite sum_list_const. cbn [map sum_list] in Hc. rewrite length_map in Hc.
      change (sum_list []) with 0 in Hc. lia.
    + intros x. rewrite Hf. split.
      * intros (e & He & ->). left. rewrite mounted_entry by auto. by apply list_elem_of_fmap_2.
      * intros [Hx|(q & Hq & _)]; [|by apply not_elem_of_nil in Hq]. apply list_elem_of_fmap in Hx as (e & -> & He).
        exists e. split; [done|]. cbn. by rewrite mounted_entry by auto.
  - assert (forall e, e ∈ matched -> relative_pattern (Text (below_prefix prefix e) :: rest) /\
      fnd (Text (below_prefix prefix e) :: rest) b = fnd (prefix_part prefix ++ Text e :: rest) b /\
      cst (Text (below_prefix prefix e) :: rest) b = cst (prefix_part prefix ++ Text e :: rest) b) as Hsame.
    { intros e He. destruct (same_walk_below self prefix e rest Hp (Hm e He) Ht) as [Hr' Hs]. split; [done|].
      by apply (same_walk_found _ _ _ _ (at_root _ plain) fs_ok rank R fs_nested). }
    apply produces_loop; try done.
    + intros e He. split; [done|]. cbn. split_and!; [done|by apply Hsame|by constructor].
    + rewrite map_map in Hc. cbn [fst snd length] in Hc. rewrite (map_ext_in _ (fun e => cst (prefix_part prefix ++ Text e :: rest) b)).
      2: { intros e He%list_elem_of_In. cbn. by apply Hsame. }
      lia.
    + intros x. rewrite Hf. split.
      * intros (e & He & Hx). right. eexists. split; [by apply list_elem_of_fmap_2|]. cbn [fst snd]. cbn in Hx. destruct (Hsame e He) as (_ & <- & _). done.
      * intros [Hx|(q & Hq & Hx)]; [by apply not_elem_of_nil in Hx|]. apply list_elem_of_fmap in Hq as (e & -> & He).
        exists e. split; [done|]. change (x ∈ fnd (Text (below_prefix prefix e) :: rest) b). by destruct (Hsame e He) as (_ & -> & _).
Qed.

Lemma globstar_facts abs b prefix rest :
  dir_ok prefix abs rest 0 -> childrenIgnored toLowerCase canonicalize self (default «"."» prefix) = false ->
  let ps := prefix_part prefix ++ Globstar :: rest in
  match readdir_opt the_fs abs with
  | None => cst ps b = 40 /\ forall x, x ∉ fnd ps b
  | Some entries =>
      let here := prefix_part prefix ++ rest in
      let below := globstar_next the_fs self prefix abs rest b entries in
      cst ps b = 40 + (cst here false + sum_list (map (fun q => cst q.1 q.2) below)) /\
      forall x, x ∈ fnd ps b <-> x ∈ fnd here false \/ exists q, q ∈ below /\ x ∈ fnd q.1 q.2
  end.
Proof.
  intros (_ & Habs & Hp & Ht & Hg) Hig ps. destruct (parts_of prefix Globstar rest Hp Ht ltac:(done)) as (Hrel & Hrest & Hpre).
  fold ps in Hrel, Hrest, Hpre.
  assert (dir_of self ps = abs) as Hdir by (unfold dir_of, read_of; by rewrite Hpre).
  assert (ignored toLowerCase canonicalize self ps = false) as Hign by (unfold ignored, read_of; by rewrite Hpre).
  pose proof (fun x => found_next ps b x) as Hf. pose proof (cost_next ps b) as Hc.
  unfold names_now, nexts in Hf, Hc. rewrite Hrest, Hdir, Hign, Hpre in Hf, Hc.
  destruct (readdir_opt the_fs abs) as [entries|].
  - split; [rewrite Hc; cbn [map fst snd length]; change (sum_list (?a :: ?l)) with (a + sum_list l); lia|]. intros x. rewrite Hf. split.
    + intros [Hx|(q & Hq & Hx)]; [by apply not_elem_of_nil in Hx|]. apply elem_of_cons in Hq as [-> | Hq]; [by left|right; eauto].
    + intros [Hx|(q & Hq & Hx)]; right; [eexists; split; [by left|done]|]. exists q. split; [by right|done].
  - split; [rewrite Hc; done|]. intros x Hx. apply Hf in Hx as [Hx|(q & Hq & _)]; by eapply not_elem_of_nil.
Qed.

Lemma globstar2_ok abs b prefix rest st :
  state_ok st -> rcb_ok abs b (GlobStar2 prefix abs rest 0 b) -> answer_ok (walk st) (KReaddir abs b) (Dirs (readdir_opt the_fs abs)) ->
  let cb := GlobStar2 prefix abs rest 0 b in
  produces st (_processGlobStar2 prefix abs rest 0 b (readdir_opt the_fs abs) st) (steps_rcb cb) (fun x => name_rcb x cb) 1 (fun _ => 0).
Proof.
  intros Hok (_ & _ & Hd & Hig) [_ Ha] cb. pose proof (globstar_facts abs b prefix rest Hd Hig) as Hf. cbv zeta in Hf.
  unfold cb, steps_rcb, name_rcb, _processGlobStar2. cbn [rcb_pattern fst snd]. unfold readdir_opt in *.
  destruct (readdirSync the_fs abs) as [entries|] eqn:Er.
  2: { destruct Hf as [Hc Hf]. apply produces_done; [done|lia|exact Hf]. }
  destruct Hf as [Hc Hf]. pose proof Hd as (_ & _ & Hp & Ht & Hg).
  apply produces_tasks; try done; try (by each_task).
  - cbn [guarded map]. rewrite total_one. cbn. naive_solver lia.
  - apply Forall_cons_2; [|apply Forall_singleton].
    + split_and!; [done|by apply prefix_part_relative|by apply has_glob_prefix].
    + split_and!; [done|done|]. intros ->. by apply Ha.
  - cbn [map]. rewrite total_cons, total_one. change (steps (IT (Process ?ps _ ?b))) with (cst ps b). cbn [steps]. lia.
  - intros x. cbn [map]. rewrite !Exists_cons, Exists_nil, Hf. cbn [name]. tauto.
Qed.

Lemma globstar_entries prefix rest entries :
  concat (map (globstar_entry self prefix rest 0) entries) =
  map (fun q => Process q.1 0 q.2) (concat (map (below_entry self prefix rest) entries)).
Proof.
  induction entries as [|e l IH]; [done|]. cbn [map concat]. rewrite map_app, IH. f_equal.
  unfold globstar_entry, below_entry. by destruct (_ && _).
Qed.

Lemma globstar_rest_ok abs b prefix rest entries st :
  state_ok st -> task_ok (walk st) (GlobStarRest prefix abs rest 0 b entries) ->
  let t := GlobStarRest prefix abs rest 0 b entries in
  produces st (globstar_rest self prefix abs rest 0 b entries st) (steps (IT t)) (fun x => name x (IT t)) 1 (fun _ => 0).
Proof.
  intros Hok (Hd & Er & Hk) t. pose proof Hok as [H1 _ _ _ _]. unfold t, globstar_rest.
  assert (default false (symlinks (walk st) !! abs) && b = is_link the_fs abs && b) as ->.
  { destruct b; [|by rewrite !andb_false_r]. destruct (Hk eq_refl) as [l Hl]. rewrite Hl. cbn. by rewrite (links_true _ _ H1 _ _ Hl). }
  cbn [steps name]. unfold globstar_next. destruct (is_link the_fs abs && b).
  { apply produces_done; [done|cbn; lia|]. intros x (q & Hq & _). by apply not_elem_of_nil in Hq. }
  rewrite globstar_entries. pose proof Hd as (_ & _ & Hp & Ht & Hg). apply produces_loop; try done.
  - intros q Hq. split; [done|]. apply list_elem_of_In, in_concat in Hq as (l & Hl & Hq). apply in_map_iff in Hl as (e & <- & He).
    assert (text_part (Text e)) as Hte.
    { apply list_elem_of_In, (entries_names abs entries) in He as (? & _ & _ & ?); [done|]. unfold readdir_opt. by rewrite Er. }
    unfold below_entry in Hq. destruct (_ && _); [done|]. cbn [task_ok].
    destruct Hq as [<-|[<-|[]]]; cbn [fst]; (split_and!; [done|apply prefix_part_relative; [done|]|apply has_glob_prefix]; repeat (apply Forall_cons_2; [done|]); done).
  - cbn [steps]. lia.
Qed.

(** ** [_process] *)

Lemma simple_relative f : f = [] \/ relative_path f -> simple f.
Proof.
  unfold simple. intros [-> | (Hne & _ & Hl)]; [done|]. rewrite (makeAbs_inner self (at_root _ plain)) by done.
  set (ns := dir_names self f). assert (Forall is_name ns) as Hns by apply makeAbs_names. clearbody ns.
  destruct ns as [|e ns' _] using rev_ind; [done|]. intros H. exfalso.
  apply Forall_app in Hns as [Hns' He]. rewrite Forall_singleton in He. rewrite abs_path_snoc in H by done.
  assert (last (child_key (abs_path ns' false) e) = Some slash) as Hlast.
  { unfold slice_last in H. rewrite <- (take_drop (length (child_key (abs_path ns' false) e) - 1) (child_key (abs_path ns' false) e)), H.
    by rewrite last_app. }
  unfold child_key in Hlast. destruct (decide _) as [E|_] in Hlast.
  - rewrite E in Hlast. apply (name_end [] e) in He as [He _]. done.
  - by apply (name_end (abs_path ns' false) e) in He as [He _].
Qed.

Lemma process_ok ps b st :
  state_ok st -> relative_pattern ps -> Forall has_glob ps ->
  produces (set_processing (processing st + 1) st) (AsyncGlob._process toLowerCase canonicalize self ps 0 b st) (cst ps b) (fun x => x ∈ fnd ps b) 1 (fun _ => 0).
Proof.
  intros Hok Hrel Hg. pose proof Hok as [H1 H2 H3 H4 H5]. unfold AsyncGlob._process. rewrite H5. cbn [set_processing paused]. rewrite H4.
  set (st1 := set_processing _ st). assert (state_ok st1) as Hok1 by done. clearbody st1.
  fold (rest_of ps). fold (prefix_of_pattern self ps).
  pose proof (relative_prefix self ps Hrel) as [Epre Hgood]. destruct (pattern_shape self ps Hrel) as (_ & Hsh & Htail). fold (rest_of ps) in Htail.
  pose proof (fun x => found_next ps b x) as Hf. pose proof (cost_next ps b) as Hc.
  destruct (rest_of ps) as [|pn rest] eqn:Er.
  - unfold names_now, nexts in Hf, Hc. rewrite Er in Hf, Hc.
    eapply produces_more; [apply stat_op_ok; [done|]|lia|].
    + apply simple_relative. destruct (leading_texts ps) as [|t ts]; [by left|]. right. by destruct Hsh.
    + intros x. rewrite Hf. unfold name_simple. destruct (exists_at the_fs self _).
      * rewrite list_elem_of_singleton. split; [naive_solver|]. intros [-> | (q & Hq & _)]; [done|by apply not_elem_of_nil in Hq].
      * split; [naive_solver|]. intros [Hx | (q & Hq & _)]; exfalso; by eapply not_elem_of_nil.
  - assert (forall s, pn <> Text s) as Hn by (by apply (magics_rest ps pn rest)).
    assert (Forall has_glob (pn :: rest)) as Hgr by (rewrite <- Er; by apply Forall_drop). apply Forall_cons in Hgr as [Hgp Hgr].
    pose proof (same_walk_parts self ps pn rest Hrel Er) as Hs.
    apply (same_walk_found toLowerCase canonicalize the_fs self (at_root _ plain) fs_ok rank R fs_nested _ _ b) in Hs as [Sf Sc].
    set (prefix := prefix_of_pattern self ps) in *. cbn [tail] in Htail.
    destruct (childrenIgnored toLowerCase canonicalize self (default «"."» prefix)) eqn:Hig.
    { unfold names_now, nexts in Hf, Hc. rewrite Er in Hf, Hc. change (ignored toLowerCase canonicalize self ps) with
        (childrenIgnored toLowerCase canonicalize self (default «"."» prefix)) in Hf, Hc. rewrite Hig in Hf, Hc.
      apply produces_done; [done|lia|]. intros x Hx.
      apply Hf in Hx as [Hx | (q & Hq & _)]; [by apply not_elem_of_nil in Hx|]. destruct (readdir_opt _ _); by apply not_elem_of_nil in Hq. }
    set (abs := makeAbs self (default «"."» prefix)).
    assert (fixed abs) as Hfix by (by apply makeAbs_idem, (at_root _ plain)).
    assert (dir_ok prefix abs rest 0) as Hd by done.
    assert (40 <= cst ps b) as H40 by lia. clear Hf Hc.
    destruct pn as [|s|r src [g|]]; [|by destruct (Hn s)| |done].
    + eapply produces_more; [apply (readdir_op_ok abs b (GlobStar2 prefix abs rest 0 b)); [done|done|done]|unfold steps_rcb; cbn [rcb_pattern fst snd]; fold cst in Sc; lia|].
      intros x. unfold name_rcb. cbn [rcb_pattern fst snd]. fold fnd in Sf. by rewrite Sf.
    + eapply produces_more; [apply (readdir_op_ok abs b (Readdir2 prefix (Magic r src (Some g)) rest 0 b)); [done|done|split_and!; [done|done|by eauto|done]]|unfold steps_rcb; cbn [rcb_pattern fst snd]; fold cst in Sc; lia|].
      intros x. unfold name_rcb. cbn [rcb_pattern fst snd]. fold fnd in Sf. by rewrite Sf.
Qed.
End Steps.
