(* ===== verification/AsyncProps.v ===== *)
(** * glob: the asynchronous walk ends with the right result

    A walk of one pattern, with listeners that only listen: in every order of
    the answers it ends, and reports once what the synchronous walk returns. *)

From S2P Require Import Prelude BraceExpansion Regex Minimatch MinimatchProps NodePath GlobSync GlobProps GlobTheorems AsyncGlob AsyncExamples AsyncItems AsyncSearch AsyncSteps.

(** What a machine has left of the end of the walk. *)
Definition fin (i : item) : nat := match i with IT Finish | IT (Emit (EvEnd _)) => 1 | _ => 0 end.

Definition count_ends (evs : list event) : nat := length (List.filter is_end evs).

Lemma count_ends_snoc evs ev : count_ends (evs ++ [ev]) = count_ends evs + (if is_end ev then 1 else 0).
Proof. unfold count_ends. rewrite List.filter_app, length_app. cbn [List.filter]. by destruct (is_end ev). Qed.

(** The matches that have been reported, or are about to be. *)
Definition ev_match (ev : event) : option jsstr := match ev with EvMatch e => Some e | _ => None end.
Definition about (i : item) : option jsstr := match i with IT (Emit ev) => ev_match ev | _ => None end.

Lemma total_zero v l : Forall (fun i => v i = 0) l -> total v l = 0.
Proof. induction 1 as [|i l Hi _ IH]; [done|]. rewrite total_cons. lia. Qed.

Lemma total_elem v i l : i ∈ l -> v i <= total v l.
Proof. induction 1 as [|j i l _ IH]; rewrite total_cons; lia. Qed.

Lemma made_fin ts dw dp : Forall (fun t => ~ reports t) ts -> total fin (made ts dw dp) = 0.
Proof.
  intros H. unfold made. apply total_zero, Forall_app. split; [|apply Forall_app; split; apply Forall_map, Forall_true; done].
  apply Forall_map. eapply Forall_impl; [exact H|]. intros [| | | | | | | | | |[]| | | | | | | |] Ht; try done; by destruct Ht.
Qed.

Section Props.
Variable toLowerCase : jsstr -> jsstr.
Variable canonicalize : N -> N.
Variable locale_le : jsstr -> jsstr -> bool.
Variable the_fs : fs.
Variable self : glob.
Hypothesis plain : plain_search self.
Hypothesis no_nodir : nodir self = false.
Hypothesis fs_ok : readable the_fs.
Variable rank : list jsstr -> nat.
Variable R : nat.
Hypothesis fs_nested : nested the_fs rank R.
Hypothesis root_dir : fresh_stat the_fs [slash] = Some Directory.
Variable p0 : list part.

Local Abbreviation fnd := (found toLowerCase canonicalize the_fs self R).
Local Abbreviation cst := (cost toLowerCase canonicalize the_fs self R).
Local Abbreviation iname := (name toLowerCase canonicalize the_fs self R).
Local Abbreviation isteps := (steps toLowerCase canonicalize the_fs self R).
Local Abbreviation ityped := (typed toLowerCase canonicalize the_fs self).
Local Abbreviation prod := (produces toLowerCase canonicalize the_fs self R).
Local Abbreviation run := (run_task toLowerCase canonicalize locale_le self quiet).
Local Abbreviation goes := (go toLowerCase canonicalize locale_le the_fs self quiet).
Local Abbreviation ign := (isIgnored toLowerCase canonicalize self).

(** ** Steps that only replace work by work *)

Definition works (t : task) : Prop :=
  match t with Call _ _ | ReaddirCb _ _ _ | GlobStarRest _ _ _ _ _ _ => True | _ => False end.

Lemma call_works c a st :
  state_ok the_fs st -> ityped (walk st) (IT (Call c a)) ->
  prod st (run (Call c a) st) (isteps (IT (Call c a))) (fun x => iname x (IT (Call c a))) (owed (IT (Call c a))) (fun k => tok k (IT (Call c a))).
Proof.
  intros Hok Ht. destruct c as [[prefix pn rest index b|prefix abs rest index b|k]|abs cb|f index]; cbn in Ht.
  - destruct Ht as (abs & b' & Hr & Ha). pose proof Hr as (-> & (-> & _) & _).
    destruct a as [e|]; [|done]. destruct Ha as [-> Ha]. by apply (readdir2_ok toLowerCase canonicalize the_fs self plain fs_ok rank R fs_nested abs).
  - destruct Ht as (abs' & b' & Hr & Ha). pose proof Hr as (-> & -> & (-> & _) & _).
    destruct a as [e|]; [|done]. pose proof Ha as [-> _]. by apply (globstar2_ok toLowerCase canonicalize the_fs self plain fs_ok rank R fs_nested).
  - by apply (call_res_ok toLowerCase canonicalize the_fs self R).
  - destruct Ht as (-> & Hf & ->). by apply (call_lstat_globstar_ok toLowerCase canonicalize the_fs self fs_ok R).
  - destruct Ht as (-> & Hs & Hl & ->). by apply (call_lstat_ok toLowerCase canonicalize the_fs self plain fs_ok rank R fs_nested root_dir).
Qed.

Lemma task_works t st :
  works t -> state_ok the_fs st -> ityped (walk st) (IT t) ->
  prod st (run t st) (isteps (IT t)) (fun x => iname x (IT t)) (owed (IT t)) (fun k => tok k (IT t)).
Proof.
  intros Hw Hok Ht. destruct t as [| | |c a| | |abs r cb| |prefix abs rest index b entries| | | | | | | | | |]; try done.
  - by apply call_works.
  - destruct Ht as [-> Hres]. pose proof (readdirCb_ok toLowerCase canonicalize the_fs self fs_ok R abs cb st Hok Hres) as H.
    destruct Hres as (b & -> & _). cbn [run_task]. by destruct (readdirSync the_fs abs).
  - pose proof Ht as ((-> & _) & _). by apply (globstar_rest_ok toLowerCase canonicalize the_fs self rank R fs_nested).
Qed.

Lemma answer_works p st :
  state_ok the_fs st -> ityped (walk st) (IP p) ->
  prod st (answered the_fs self p st) (isteps (IP p)) (fun x => iname x (IP p)) (owed (IP p)) (fun k => tok k (IP p)).
Proof.
  intros Hok Ht. destruct p as [abs cb|abs k|abs f l index|k a|]; [| | | |done]; cbn [answered].
  - apply produces_tasks; try done; try (by each_task); try (cbn; lia).
    intros x. cbn [map]. rewrite Exists_cons, Exists_nil. cbn. tauto.
  - apply produces_tasks; try done; try (by each_task); try (cbn; lia).
    + apply Forall_singleton. by destruct Ht as [-> | ->].
    + intros x. cbn [map]. rewrite Exists_cons, Exists_nil. cbn. tauto.
  - destruct Ht as (-> & Hs & Hl & -> & -> & Hlink).
    assert (Some (default SymbolicLink (statSync the_fs (makeAbs self f))) = fresh_stat the_fs (makeAbs self f)) as ->.
    { unfold fresh_stat. rewrite Hlink. by destruct (statSync the_fs _). }
    by apply (stat2_ok toLowerCase canonicalize the_fs self plain fs_ok rank R fs_nested root_dir).
  - apply produces_tasks; try done; try (by each_task); try (cbn; lia).
    intros x. cbn [map]. rewrite Exists_cons, Exists_nil. cbn. tauto.
Qed.

(** ** The invariant *)

Definition result_ok (l : list jsstr) : Prop :=
  (forall x, x ∈ l <-> ign x = false /\ contributes self 0 (filter (fun y => ign y = false) (fnd p0 false)) x) /\
  (nounique self = false -> NoDup l) /\
  (nosort self = false -> collation locale_le -> StronglySorted (alphasort toLowerCase locale_le self) l).

(** The work under way and the matches add up to what is to be found; the
    counter is what is owed; for every key that inflight has there is one
    response under way. *)
Record balanced (m : machine) : Prop := Balanced {
  bal_state : state_ok the_fs m.2;
  bal_table : table_ok (called m.1) (reqs m.2);
  bal_typed : Forall (ityped (walk m.2)) (items m);
  bal_tok k : total (tok k) (items m) = inkeys k (reqs m.2);
  bal_owed : processing m.2 = Z.of_nat (total owed (items m));
  bal_names x : ign x = false -> (x ∈ keys (walk m.2) 0 \/ Exists (iname x) (items m) <-> x ∈ fnd p0 false);
  bal_matches : keys (walk m.2) 0 ≡ₚ omap ev_match (events m.2) ++ omap about (items m);
  bal_keys : NoDup (keys (walk m.2) 0) /\ Forall (fun x => ign x = false) (keys (walk m.2) 0);
  bal_results l : IT (Emit (EvEnd l)) ∈ items m \/ EvEnd l ∈ events m.2 -> result_ok l
}.

Definition ends (m : machine) : nat := total fin (items m) + count_ends (events m.2).

(** The walk is at its beginning, or under way, or has ended. *)
Definition phase (m : machine) : Prop :=
  (exists ps i b, m.1 = [Process ps i b] /\ ends m = 0) \/
  (guarded m.1 /\ ends m = if decide (total owed (items m) = 0) then 1 else 0).

Definition inv (m : machine) : Prop := balanced m /\ phase m.

Lemma exists_perm (P : item -> Prop) l1 l2 : l1 ≡ₚ l2 -> Exists P l1 <-> Exists P l2.
Proof. intros H. rewrite !Exists_exists. by setoid_rewrite H. Qed.

(** A step replaces [xs] by [ys]. *)
Lemma balanced_step m m' xs ys frame new :
  balanced m -> items m ≡ₚ xs ++ frame -> items m' ≡ₚ ys ++ frame ->
  state_ok the_fs m'.2 -> no_less (walk m.2) (walk m'.2) -> table_ok (called m'.1) (reqs m'.2) ->
  Forall (ityped (walk m'.2)) ys ->
  (forall k, total (tok k) ys + inkeys k (reqs m.2) = total (tok k) xs + inkeys k (reqs m'.2)) ->
  (processing m'.2 - Z.of_nat (total owed ys) = processing m.2 - Z.of_nat (total owed xs))%Z ->
  (forall x, ign x = false -> (x ∈ keys (walk m'.2) 0 \/ Exists (iname x) ys <-> x ∈ keys (walk m.2) 0 \/ Exists (iname x) xs)) ->
  keys (walk m'.2) 0 ≡ₚ new ++ keys (walk m.2) 0 -> NoDup (new ++ keys (walk m.2) 0) -> Forall (fun x => ign x = false) new ->
  omap ev_match (events m'.2) ++ omap about ys ≡ₚ new ++ omap ev_match (events m.2) ++ omap about xs ->
  (forall l, IT (Emit (EvEnd l)) ∈ ys \/ EvEnd l ∈ events m'.2 ->
     (IT (Emit (EvEnd l)) ∈ xs \/ EvEnd l ∈ events m.2) \/ result_ok l) ->
  balanced m'.
Proof.
  intros [B1 B2 B3 B4 B5 B6 B7 B8 B9] Hx Hy H1 H2 H3 H4 H5 H6 H7 H8 H8' H8'' H9 H10. split; try done.
  - rewrite Hy. rewrite Hx in B3. apply Forall_app in B3 as [_ B3]. apply Forall_app. split; [done|].
    eapply Forall_impl; [exact B3|]. intros i. by apply typed_no_less.
  - intros k. specialize (B4 k). specialize (H5 k). rewrite Hx, total_app in B4. rewrite Hy, total_app. lia.
  - rewrite Hx, total_app in B5. rewrite Hy, total_app. lia.
  - intros x Hi. specialize (B6 x Hi). specialize (H7 x Hi). rewrite (exists_perm _ _ _ Hx), Exists_app in B6.
    rewrite (exists_perm _ _ _ Hy), Exists_app. tauto.
  - rewrite H8, B7, Hx, Hy, !omap_app. rewrite (app_assoc _ (omap about ys)), H9, <- !app_assoc. done.
  - rewrite H8. split; [done|]. apply Forall_app. tauto.
  - intros l. rewrite Hy, elem_of_app. intros Hl.
    assert (IT (Emit (EvEnd l)) ∈ items m \/ EvEnd l ∈ events m.2 \/ result_ok l) as [Hr|[Hr|Hr]]; [|by apply B9; left|by apply B9; right|done].
    rewrite Hx, elem_of_app. destruct Hl as [[Hl|Hl]|Hl]; [| |]; [|by left; right|]; destruct (H10 l) as [[?|?]|?]; tauto.
Qed.

Lemma made_about ts dw dp : Forall (fun t => ~ reports t) ts -> omap about (made ts dw dp) = [].
Proof.
  intros H. unfold made. rewrite !omap_app.
  assert (forall l, Forall (fun i => about i = None) l -> omap about l = []) as Hn.
  { induction 1 as [|i l Hi _ IH]; [done|]. cbn. by rewrite Hi. }
  rewrite !Hn; [done|..]; apply Forall_map; [apply Forall_true; done|apply Forall_true; done|].
  eapply Forall_impl; [exact H|]. intros [| | | | | | | | | |[]| | | | | | | |] Ht; try done; by destruct Ht.
Qed.

Lemma made_no_emit ts dw dp l : Forall (fun t => ~ reports t) ts -> IT (Emit (EvEnd l)) ∉ made ts dw dp.
Proof.
  intros H Hi. unfold made in Hi. rewrite !elem_of_app in Hi. destruct Hi as [Hi|[Hi|Hi]]; apply list_elem_of_fmap in Hi as (y & Ey & Hi); [|done..].
  injection Ey as <-. rewrite Forall_forall in H. by apply (H _ Hi).
Qed.

(** Work is replaced by work. *)
Lemma balanced_work m m' x frame r :
  balanced m -> items m ≡ₚ [x] ++ frame -> total fin [x] = 0 -> about x = None ->
  forall dw dp, items m' ≡ₚ made r dw dp ++ frame -> Forall (fun t => ~ reports t) r ->
  state_ok the_fs m'.2 -> advanced m.2 m'.2 -> table_ok (called m'.1) (reqs m'.2) ->
  Forall (ityped (walk m'.2)) (made r dw dp) ->
  total owed (made r dw dp) = owed x ->
  (forall y, Exists (iname y) (made r dw dp) <-> iname y x) ->
  (forall k, total (tok k) (made r dw dp) + inkeys k (reqs m.2) = tok k x + inkeys k (reqs m'.2)) ->
  balanced m' /\ total owed (items m') = total owed (items m) /\ ends m' = ends m.
Proof.
  intros Hb Hx Hfin Hab dw dp Hy Hr Hok [A1 A2 A3 A4] Ht Hty Ho Hn Hk. split_and!.
  - eapply (balanced_step m m' [x] (made r dw dp) frame []); try done.
    + intros k. by rewrite total_one.
    + rewrite total_one, Ho, A4. lia.
    + intros y _. rewrite A2, Hn, Exists_cons, Exists_nil. tauto.
    + by rewrite A2.
    + apply Hb.
    + rewrite made_about by done. cbn [omap list_omap]. rewrite Hab. by rewrite A3.
    + intros l [Hl|Hl]; [by apply made_no_emit in Hl|]. rewrite A3 in Hl. tauto.
  - by rewrite Hx, Hy, !total_app, total_one, Ho.
  - unfold ends. rewrite Hx, Hy, !total_app, Hfin, made_fin by done. by rewrite A3.
Qed.

(** ** One step keeps the invariant and leaves less to do *)

Definition goes_well (m m' : machine) : Prop := inv m' /\ total isteps (items m') < total isteps (items m).

Lemma called_cons t ts : plain_task t -> called (t :: ts) = called ts.
Proof. by destruct t. Qed.

Lemma grown_table n st st' dw dp : grown st st' dw dp -> table_ok n (reqs st) -> table_ok n (reqs st').
Proof. intros [-> _] H. by apply joined_all_ok. Qed.

(** A phase in which nothing ends. *)
Lemma phase_goes_on t ts st ts' st' :
  phase (t :: ts, st) -> ~ begins t -> guarded ts' ->
  total owed (items (ts' ++ ts, st')) = total owed (items (t :: ts, st)) -> ends (ts' ++ ts, st') = ends (t :: ts, st) ->
  phase (ts' ++ ts, st').
Proof.
  intros [(ps & i & b & [= -> ->] & _)|[[_ Hg] He]] Hn Hg' Ho Hends; [by destruct Hn|]. right. cbn [fst] in *.
  split; [by apply guarded_app|]. rewrite Hends, He. by rewrite Ho.
Qed.

Lemma step_work t ts st :
  works t -> inv (t :: ts, st) -> goes_well (t :: ts, st) ((run t st).1 ++ ts, (run t st).2).
Proof.
  intros Hw [Hb Hph]. pose proof Hb as [B1 B2 B3 _ _ _ _ _ _]. cbn [fst snd] in *.
  assert (plain_task t /\ ~ begins t /\ total fin [IT t] = 0 /\ about (IT t) = None) as (Hpt & Hnb & Hfin & Hab).
  { destruct t; try (by destruct Hw); split_and!; try done; by intros []. }
  rewrite called_cons in B2 by done. rewrite items_plain in B3 by done. apply Forall_cons in B3 as [Bt _].
  destruct (task_works t st Hw B1 Bt) as (dw & dp & (G & P & Gd & Rp) & (S1 & S2 & S3) & C & N & O & K).
  assert (items (t :: ts, st) ≡ₚ [IT t] ++ rest_items ts st) as Hx by (by rewrite items_plain).
  pose proof (items_grown ts (run t st).1 st (run t st).2 dw dp P B2 G) as Hy.
  destruct (balanced_work (t :: ts, st) ((run t st).1 ++ ts, (run t st).2) (IT t) (rest_items ts st) (run t st).1 Hb Hx
    Hfin Hab dw dp Hy Rp) as (Hb' & Ho & He); try done.
  { cbn [fst snd]. rewrite called_plain by done. by eapply grown_table. }
  split; [split; [done|]|].
  - by apply (phase_goes_on t ts st).
  - rewrite Hx, Hy, !total_app, total_one. lia.
Qed.

Lemma step_answer i p st :
  inv ([], st) -> pending st !! i = Some p ->
  let r := answered the_fs self p (set_pending (delete i (pending st)) st) in goes_well ([], st) r.
Proof.
  intros [Hb Hph] Hp r. pose proof Hb as [B1 B2 B3 _ _ _ _ _ _]. cbn [fst snd] in *.
  assert (ityped (walk st) (IP p)) as Bt.
  { rewrite Forall_forall in B3. apply B3. unfold items. cbn [fst snd map app]. apply elem_of_app. right.
    apply list_elem_of_fmap_2. by eapply list_elem_of_lookup_2. }
  assert (state_ok the_fs (set_pending (delete i (pending st)) st)) as Hok by (by destruct B1).
  destruct (answer_works p (set_pending (delete i (pending st)) st) Hok Bt) as (dw & dp & (G & P & Gd & Rp) & (S1 & S2 & S3) & C & N & O & K).
  fold r in G, P, Gd, Rp, S1, S2, S3, C, N, O, K.
  destruct (items_answer i p r.1 st r.2 dw dp Hp P B2 G) as (frame & Hx & Hy).
  rewrite <- (surjective_pairing r) in Hy.
  assert (advanced st r.2) as S2' by (by destruct S2).
  assert (table_ok (called r.1) (reqs r.2)) as Htab.
  { pose proof (called_plain r.1 [] P) as Ec. rewrite app_nil_r in Ec. rewrite Ec.
    by eapply (grown_table _ (set_pending (delete i (pending st)) st)). }
  destruct (balanced_work ([], st) r (IP p) frame r.1 Hb Hx eq_refl eq_refl dw dp Hy Rp) as (Hb' & Ho & He); try done.
  split; [split; [exact Hb'|]|].
  - destruct Hph as [(? & ? & ? & Ht & _)|[_ Hends]]; [done|]. right. split; [done|]. rewrite He, Hends. by rewrite Ho.
  - rewrite Hx, Hy, !total_app, total_one. lia.
Qed.

Lemma step_process ps index b ts st :
  inv (Process ps index b :: ts, st) ->
  goes_well (Process ps index b :: ts, st) ((run (Process ps index b) st).1 ++ ts, (run (Process ps index b) st).2).
Proof.
  intros [Hb Hph]. pose proof Hb as [B1 B2 B3 _ _ _ _ _ _]. cbn [fst snd] in *. rewrite called_cons in B2 by done.
  rewrite items_plain in B3 by done. apply Forall_cons in B3 as [(-> & Hrel & Hg) _]. set (t := Process ps 0 b) in *.
  destruct (process_ok toLowerCase canonicalize the_fs self plain fs_ok rank R fs_nested ps b st B1 Hrel Hg)
    as (dw & dp & (G & P & Gd & Rp) & (S1 & [A1 A2 A3 A4] & S3) & C & N & O & K).
  change (AsyncGlob._process toLowerCase canonicalize self ps 0 b st) with (run t st) in *.
  assert (items (t :: ts, st) ≡ₚ [IT t] ++ rest_items ts st) as Hx by (by rewrite items_plain).
  assert (grown st (run t st).2 dw dp) as G' by (by destruct G).
  pose proof (items_grown ts (run t st).1 st (run t st).2 dw dp P B2 G') as Hy.
  set (m' := ((run t st).1 ++ ts, (run t st).2)) in *.
  assert (total owed (items m') = S (total owed (items (t :: ts, st)))) as Ho.
  { rewrite Hx, Hy, !total_app, total_one, O. done. }
  assert (ends m' = ends (t :: ts, st)) as He.
  { unfold ends. rewrite Hx, Hy, !total_app, made_fin, total_one by done. cbn [m' snd fin t]. by rewrite A3. }
  split; [split|].
  - eapply (balanced_step (t :: ts, st) m' [IT t] (made (run t st).1 dw dp) (rest_items ts st) []); cbn [m' fst snd]; try done.
    + rewrite called_plain by done. by eapply grown_table.
    + rewrite O, A4, total_one. cbn. lia.
    + intros y _. rewrite A2, N, Exists_cons, Exists_nil. cbn. tauto.
    + by rewrite A2.
    + apply Hb.
    + rewrite made_about by done. by rewrite A3.
    + intros l [Hl|Hl]; [by apply made_no_emit in Hl|]. rewrite A3 in Hl. tauto.
  - right. rewrite Ho, He. destruct Hph as [(? & ? & ? & Ht & ->)|[[Hgt Hgs] ->]]; cbn [m' fst].
    + cbn in Ht. unfold t in Ht. injection Ht as _ _ _ Hts. by rewrite Hts, app_nil_r.
    + split; [by apply guarded_app|]. rewrite (decide_False (P := S _ = 0)) by done. apply decide_False.
      specialize (Hgt I). rewrite Hx, !total_app. unfold rest_items. rewrite !total_app. lia.
  - rewrite Hx, Hy, !total_app, total_one. change (isteps (IT t)) with (cst ps b). lia.
Qed.

(** Tasks that make only tasks. *)
Lemma items_tasks t ts ts' st st' :
  plain_task t -> Forall plain_task ts' -> reqs st' = reqs st -> pending st' = pending st ->
  items (t :: ts, st) ≡ₚ [IT t] ++ rest_items ts st /\ items (ts' ++ ts, st') ≡ₚ map IT ts' ++ rest_items ts st.
Proof.
  intros Ht Hts Hr Hp. rewrite items_plain by done. split; [done|]. unfold items, rest_items. cbn [fst snd].
  rewrite map_app, called_plain, Hr, Hp, <- app_assoc by done. done.
Qed.

Lemma step_done ts st : inv (Done :: ts, st) -> goes_well (Done :: ts, st) ((run Done st).1 ++ ts, (run Done st).2).
Proof.
  intros [Hb Hph]. pose proof Hb as [B1 B2 B3 B4 B5 B6 B7 B8 B9]. cbn [fst snd] in *. rewrite called_cons in B2 by done.
  cbn [run_task]. unfold done. set (st' := set_processing (processing st - 1) st).
  set (ts' := if decide (processing st' <= 0)%Z then [Finish] else []).
  assert ((if decide (processing st' <= 0)%Z then ([Finish], st') else ([], st')) = (ts', st')) as -> by (unfold ts'; by destruct (decide _)).
  cbn [fst snd]. assert (Forall plain_task ts') as Hpl by (unfold ts'; destruct (decide _); by each_task).
  destruct (items_tasks Done ts ts' st st') as [Hx Hy]; [done..|].
  rewrite Hx, total_app, total_one in B5. change (owed (IT Done)) with 1 in B5.
  assert (total owed (map IT ts') = 0 /\ total isteps (map IT ts') < 4) as [Ho' Hc'] by (unfold ts'; destruct (decide _); cbn; lia).
  assert (processing st' = Z.of_nat (total owed (rest_items ts st))) as Hp' by (cbn; lia).
  split; [split|].
  - eapply (balanced_step (Done :: ts, st) (ts' ++ ts, st') [IT Done] (map IT ts') (rest_items ts st) []); cbn [fst snd]; try done.
    + by destruct B1.
    + by rewrite called_plain.
    + unfold ts'. destruct (decide _); by each_task.
    + intros k. unfold ts'. by destruct (decide _).
    + rewrite Ho', total_one. cbn. lia.
    + intros y _. unfold ts'. destruct (decide _); cbn [map]; rewrite ?Exists_cons, ?Exists_nil; cbn; tauto.
    + apply B8.
    + unfold ts'. by destruct (decide _).
    + unfold ts'. intros l [Hl|Hl]; [|by left; right]. destruct (decide _); cbn [map] in Hl;
        [apply list_elem_of_singleton in Hl|apply not_elem_of_nil in Hl]; done.
  - right. destruct Hph as [(? & ? & ? & ? & _)|[[_ Hg] He]]; [done|]. cbn [fst] in *. split.
    + apply guarded_app; [|done]. unfold ts'. destruct (decide (processing st' <= 0)%Z); cbn; tauto.
    + assert (total owed (items (ts' ++ ts, st')) = total owed (rest_items ts st)) as -> by (by rewrite Hy, total_app, Ho').
      assert (total owed (items (Done :: ts, st)) = S (total owed (rest_items ts st))) as E by (by rewrite Hx, total_app, total_one).
      rewrite E, decide_False in He by done. unfold ends in *. cbn [snd] in *. rewrite Hx, total_app, total_one in He. cbn [fin] in He.
      rewrite Hy, total_app. change (events st') with (events st). unfold ts'.
      destruct (decide (processing st' <= 0)%Z) as [Hz|Hz]; [rewrite decide_True by lia|rewrite decide_False by lia]; cbn [map];
        rewrite ?total_one; cbn [fin]; [|change (total fin []) with 0]; lia.
  - rewrite Hx, Hy, !total_app, total_one. change (isteps (IT Done)) with 4. lia.
Qed.

(** The walk has not ended while a task that begins work is followed. *)
Lemma phase_under_way t ts st :
  phase (t :: ts, st) -> begins t -> (forall ps i b, t <> Process ps i b) ->
  guarded ts /\ 0 < total owed (map IT ts) /\ ends (t :: ts, st) = 0.
Proof.
  intros [(ps & i & b & Ht & _)|[[Hgt Hgs] He]] Hb Hn; [injection Ht as -> _; by destruct (Hn ps i b)|].
  specialize (Hgt Hb). split_and!; [done|done|]. rewrite He. apply decide_False. unfold items. cbn [fst]. cbn [map].
  rewrite total_app, total_cons. lia.
Qed.

(** A task that is done, with only reports left to make. *)
Lemma phase_reported t ts st ts' st' :
  phase (t :: ts, st) -> begins t -> (forall ps i b, t <> Process ps i b) -> Forall (fun t => ~ begins t) ts' ->
  ends (ts' ++ ts, st') = 0 -> phase (ts' ++ ts, st').
Proof.
  intros Hph Hb Hn Hts He. destruct (phase_under_way t ts st Hph Hb Hn) as (Hg & Ho & _). right. cbn [fst].
  split; [by apply guarded_app; [apply guarded_none|]|]. rewrite He. symmetry. apply decide_False.
  unfold items. cbn [fst]. rewrite map_app, !total_app. lia.
Qed.

Lemma add_key_new e ks : e ∉ ks -> add_key e ks = ks ++ [e].
Proof. intros H. unfold add_key. by rewrite decide_False. Qed.

(** The match is known, or ignored, or added and reported. *)
Lemma emitMatch_cases e st :
  state_ok the_fs st -> is_Some (mjoin (matches (walk st) !! 0)) ->
  let r := AsyncGlob._emitMatch toLowerCase canonicalize self 0 e st in
  (r = ([], st) /\ (e ∈ keys (walk st) 0 \/ ign e = true)) \/
  (exists evs, r.1 = map Emit evs ++ [Emit (EvMatch e)] /\ Forall (fun ev => exists e t, ev = EvStat e t) evs /\ length evs <= 1 /\
     (e ∉ keys (walk st) 0) /\ ign e = false /\
     state_ok the_fs r.2 /\ no_less (walk st) (walk r.2) /\ keys (walk r.2) 0 = keys (walk st) 0 ++ [e] /\
     reqs r.2 = reqs st /\ pending r.2 = pending st /\ events r.2 = events st /\ processing r.2 = processing st).
Proof.
  intros [H1 H2 H3 H4 H5] [ks Hks]. unfold AsyncGlob._emitMatch. rewrite H5, H4, no_nodir, (no_mark _ plain). cbn [andb].
  change (default [] (mjoin (matches (walk st) !! 0))) with (keys (walk st) 0).
  case_bool_decide as Hin; [left; by split; [|left]|]. destruct (ign e) eqn:Hig; [left; by split; [|right]|]. right. cbn [fst snd].
  assert (matches (walk st) !! 0 = Some (Some ks)) as Hm by (destruct (matches (walk st) !! 0) as [[]|]; [by injection Hks as ->|done..]).
  destruct (add_match_ok the_fs 0 e ks (walk st) Hm) as (w & E & (Fl & Fs & Fk) & Hc & Hm').
  unfold via. rewrite E. cbn [snd]. cbn [set_walk walk].
  exists (match statCache w !! makeAbs self e with Some t => [EvStat e t] | None => [] end). split_and!; try done.
  - by destruct (statCache w !! makeAbs self e).
  - destruct (statCache w !! makeAbs self e); [by constructor; eauto|done].
  - destruct (statCache w !! makeAbs self e); cbn; lia.
  - split; cbn; try done; [by auto|lia].
  - split; [exact Fs|]. by rewrite Hm'.
  - cbn. rewrite (Fk 0), decide_True by done. cbn. by apply add_key_new.
Qed.

Lemma step_emitMatch index e ts st :
  inv (EmitMatch index e :: ts, st) ->
  goes_well (EmitMatch index e :: ts, st) ((run (EmitMatch index e) st).1 ++ ts, (run (EmitMatch index e) st).2).
Proof.
  intros [Hb Hph]. pose proof Hb as [B1 B2 B3 B4 B5 B6 B7 B8 B9]. cbn [fst snd] in *. rewrite called_cons in B2 by done.
  rewrite items_plain in B3 by done. apply Forall_cons in B3 as [[-> Bm] _]. cbn [run_task].
  destruct (phase_under_way _ _ _ Hph I ltac:(done)) as (Hg & Ho & He). unfold ends in He. cbn [snd] in He.
  rewrite (items_plain (EmitMatch 0 e)), total_cons in He by done. cbn [fin] in He.
  assert (items (EmitMatch 0 e :: ts, st) ≡ₚ [IT (EmitMatch 0 e)] ++ rest_items ts st) as Hx by (by rewrite items_plain).
  destruct (emitMatch_cases e st B1 Bm) as [[-> Hdup]|(evs & E1 & Hevs & Hlen & Hnew & Hig & S1 & S2 & S3 & S4 & S5 & S6 & S7)].
  - cbn [fst snd app]. split; [split|].
    + eapply (balanced_step _ _ [IT (EmitMatch 0 e)] [] (rest_items ts st) []); [exact Hb|exact Hx|done|..]; cbn [fst snd]; try done.
      * intros x Hi. rewrite Exists_nil, Exists_cons, Exists_nil. cbn. destruct Hdup as [Hd|Hd]; [naive_solver|]. split; [tauto|].
        intros [?|[->|?]]; [tauto| |tauto]. congruence.
      * apply B8.
      * intros l [Hl|Hl]; [by apply not_elem_of_nil in Hl|tauto].
    + eapply (phase_reported _ _ _ []); [exact Hph|done|done|done|]. unfold ends. cbn [app snd].
      change (items (ts, st)) with (rest_items ts st). done.
    + rewrite Hx, total_app, total_one. change (items (ts, st)) with (rest_items ts st). cbn. lia.
  - set (r := AsyncGlob._emitMatch toLowerCase canonicalize self 0 e st) in *.
    assert (forall P : task -> Prop, (forall ev, ev = EvMatch e \/ (exists e t, ev = EvStat e t) -> P (Emit ev)) -> Forall P r.1) as Hall.
    { intros P HP. rewrite E1. apply Forall_app. split; [|constructor; [apply HP; by left|done]]. apply Forall_map.
      eapply Forall_impl; [exact Hevs|]. intros ev Hev. apply HP. by right. }
    destruct (items_tasks (EmitMatch 0 e) ts r.1 st r.2) as [_ Hy]; [done|apply Hall; done|done|done|].
    assert (forall v, (forall ev, ev = EvMatch e \/ (exists e t, ev = EvStat e t) -> v (IT (Emit ev)) = 0) -> total v (map IT r.1) = 0) as Hz.
    { intros v Hv. apply total_zero, Forall_map, Hall. exact Hv. }
    assert (omap ev_match evs = []) as Hom.
    { clear -Hevs. induction Hevs as [|ev evs (? & ? & ->) _ IH]; [done|]. done. }
    split; [split|].
    + eapply (balanced_step _ _ [IT (EmitMatch 0 e)] (map IT r.1) (rest_items ts st) [e]); [exact Hb|exact Hx|exact Hy|..]; cbn [fst snd]; try done.
      * rewrite called_plain by (apply Hall; done). by rewrite S4.
      * apply Forall_map, Hall. by intros ev [->|(? & ? & ->)].
      * intros k. rewrite Hz, total_one, S4; [done|]. done.
      * rewrite Hz, total_one, S7; [done|]. done.
      * intros x Hi. rewrite S3, elem_of_app, list_elem_of_singleton, Exists_cons, Exists_nil. cbn [name].
        assert (~ Exists (iname x) (map IT r.1)); [|tauto]. rewrite Exists_exists. intros (i & Hi' & Hn').
        apply list_elem_of_fmap in Hi' as (t & -> & Ht). assert (Forall (fun t => ~ iname x (IT t)) r.1) as Hf by (apply Hall; by intros ev [->|(? & ? & ->)] []).
        rewrite Forall_forall in Hf. by apply (Hf t).
      * rewrite S3. by rewrite Permutation_app_comm.
      * apply NoDup_app. split_and!; [apply NoDup_singleton|by intros y ->%list_elem_of_singleton|apply B8].
      * by constructor.
      * rewrite S6, E1, map_app, omap_app. cbn [map]. rewrite app_nil_r.
        assert (omap about (map IT (map Emit evs)) = []) as -> by (rewrite <- Hom; clear; induction evs as [|ev evs IH]; [done|]; cbn; by rewrite IH).
        cbn. by rewrite Permutation_app_comm.
      * intros l [Hl|Hl]; [|rewrite S6 in Hl; tauto]. exfalso. apply list_elem_of_fmap in Hl as (t & [= <-] & Ht).
        assert (Forall (fun t => forall l, t <> Emit (EvEnd l)) r.1) as Hf by (apply Hall; by intros ev [->|(? & ? & ->)]).
        rewrite Forall_forall in Hf. by apply (Hf _ Ht l).
    + eapply phase_reported; [exact Hph|done|done|apply Hall; by intros ev _ []|]. unfold ends. cbn [snd].
      rewrite Hy, total_app, Hz, S6 by (by intros ev [->|(? & ? & ->)]). lia.
    + rewrite Hx, Hy, !total_app, total_one. change (isteps (IT (EmitMatch 0 e))) with 4.
      rewrite E1, map_app, total_app, total_map_IT. cbn [map]. rewrite total_one.
      rewrite (map_ext _ (fun _ => 1)) by done. rewrite sum_list_const. cbn. lia.
Qed.

Lemma step_emit ev ts st :
  inv (Emit ev :: ts, st) -> goes_well (Emit ev :: ts, st) ((run (Emit ev) st).1 ++ ts, (run (Emit ev) st).2).
Proof.
  intros [Hb Hph]. pose proof Hb as [B1 B2 B3 B4 B5 B6 B7 B8 B9]. cbn [fst snd] in *. rewrite called_cons in B2 by done.
  cbn [run_task]. unfold emit. cbn [quiet map fst snd app].
  assert (items (Emit ev :: ts, st) ≡ₚ [IT (Emit ev)] ++ rest_items ts st) as Hx by (by rewrite items_plain).
  change (items (ts, log_event ev st)) with (rest_items ts st) in *.
  assert (count_ends (events st ++ [ev]) = fin (IT (Emit ev)) + count_ends (events st)) as Hc.
  { rewrite count_ends_snoc. destruct ev; cbn; lia. }
  split; [split|].
  - eapply (balanced_step _ (ts, log_event ev st) [IT (Emit ev)] [] (rest_items ts st) []); [exact Hb|exact Hx|done|..]; cbn [fst snd]; try done.
    + by destruct B1.
    + intros x _. rewrite Exists_cons, Exists_nil. cbn. tauto.
    + apply B8.
    + cbn [log_event events]. rewrite omap_app, app_nil_r. cbn. by destruct (ev_match ev).
    + intros l [Hl|Hl]; [by apply not_elem_of_nil in Hl|]. cbn [log_event events] in Hl. left. apply elem_of_app in Hl as [Hl|Hl]; [by right|].
      apply list_elem_of_singleton in Hl as ->. left. by left.
  - apply (phase_goes_on (Emit ev) ts st [] (log_event ev st)); [done|by intros []|done|by rewrite Hx|].
    unfold ends. cbn [snd app log_event events]. rewrite Hc, Hx, total_app, total_one. change (items (ts, log_event ev st)) with (rest_items ts st). lia.
  - rewrite Hx, total_app, total_one. change (items (ts, log_event ev st)) with (rest_items ts st). cbn. lia.
Qed.

(** When nothing is owed, there is nothing to find. *)
Lemma nothing_owed m x : guarded m.1 -> total owed (items m) = 0 -> ~ Exists (iname x) (items m).
Proof.
  intros Hg Ho Hn. apply Exists_exists in Hn as (i & Hi & Hn).
  assert (owed i = 0) as Hoi by (pose proof (total_elem owed i _ Hi); lia).
  assert (exists t, i = IT t /\ begins t) as (t & -> & Hb).
  { destruct i as [[| | |[[]|? []|]| | |? ? []| | | | | | | | | | | |]|? [[]|? []|]|[? []| | | |]];
      cbn in Hoi, Hn; try done; (eexists; split; [reflexivity|exact I]). }
  assert (t ∈ m.1) as Ht.
  { unfold items in Hi. rewrite !elem_of_app in Hi. destruct Hi as [Hi|[Hi|Hi]].
    - apply list_elem_of_fmap in Hi as (t' & [= ->] & Hi). done.
    - unfold waits in Hi. apply list_elem_of_In, in_concat in Hi as (l & Hl & Hi). apply in_map_iff in Hl as (r & <- & _).
      unfold uncalled in Hi. apply in_map_iff in Hi as (c & Hc & _). done.
    - apply list_elem_of_fmap in Hi as (p & Hp & _). done. }
  unfold items in Ho. rewrite total_app in Ho. clear Hi Hn Hoi. destruct m as [ts st]. cbn [fst snd] in *.
  assert (total owed (map IT ts) = 0) as Ho' by lia. clear Ho. rename Ho' into Ho.
  induction Ht as [t ts|t t' ts Ht IH]; cbn [map guarded] in *; rewrite total_cons in Ho; [|apply IH; try done; [tauto|lia]].
  destruct Hg as [Hg _]. specialize (Hg Hb). lia.
Qed.

Lemma finish_result st :
  length (matches (walk st)) = 1 -> Forall (fun x => ign x = false) (keys (walk st) 0) ->
  (forall x, ign x = false -> (x ∈ keys (walk st) 0 <-> x ∈ fnd p0 false)) ->
  exists l, finish toLowerCase canonicalize locale_le self (walk st) = Ok l (walk st) /\ result_ok l.
Proof.
  intros Hl Hi Hk. destruct (finish_ok toLowerCase canonicalize locale_le self (walk st) (no_mark _ plain)) as (l & E & Hel & Hnd & Hs).
  exists l. split; [done|]. split; [|done]. intros x. rewrite Hel, contributed_elem. unfold contributes. rewrite Forall_forall in Hi.
  assert (forall y, y ∈ filter (fun y => ign y = false) (fnd p0 false) <-> y ∈ keys (walk st) 0) as Hf.
  { intros y. rewrite list_elem_of_filter. split; [intros [Hy Hy']; by apply Hk|]. intros Hy. pose proof (Hi y Hy). split; [done|by apply Hk]. }
  assert (filter (fun y => ign y = false) (fnd p0 false) = [] <-> keys (walk st) 0 = []) as He.
  { split; intros He; apply elem_of_nil_inv; intros y; rewrite <- ?Hf, ?He; [apply not_elem_of_nil|]. rewrite Hf, He. apply not_elem_of_nil. }
  rewrite Hf, He. split.
  - intros [(i & Hlt & Hx) Hx']. split; [done|]. assert (i = 0) as -> by lia. done.
  - intros [Hx' Hx]. split; [|done]. exists 0. split; [lia|done].
Qed.

Lemma step_finish ts st :
  inv (Finish :: ts, st) -> goes_well (Finish :: ts, st) ((run Finish st).1 ++ ts, (run Finish st).2).
Proof.
  intros [Hb Hph]. pose proof Hb as [B1 B2 B3 B4 B5 B6 B7 B8 B9]. cbn [fst snd] in *. rewrite called_cons in B2 by done.
  assert (items (Finish :: ts, st) ≡ₚ [IT Finish] ++ rest_items ts st) as Hx by (by rewrite items_plain).
  pose proof Hph as [(? & ? & ? & ? & _)|[Hg He]]; [done|].
  assert (total owed (items (Finish :: ts, st)) = 0) as Ho.
  { destruct (decide _) as [|Hne] in He; [done|]. unfold ends in He. rewrite Hx, total_app, total_one in He. cbn [fin] in He. lia. }
  destruct (finish_result st (one_pattern _ _ B1) (proj2 B8)) as (l & E & Hl).
  { intros x Hi. rewrite <- (B6 x Hi). pose proof (nothing_owed _ x Hg Ho). tauto. }
  cbn [run_task]. unfold AsyncGlob._finish, via. rewrite (not_aborted _ _ B1), (no_realpath _ plain), E. cbn [andb fst snd app].
  assert (set_walk (walk st) st = st) as -> by (by destruct st).
  destruct (items_tasks Finish ts [Emit (EvEnd l)] st st) as [_ Hy]; [done|by each_task|done|done|]. cbn [app] in Hy.
  split; [split|].
  - eapply (balanced_step _ _ [IT Finish] [IT (Emit (EvEnd l))] (rest_items ts st) []); [exact Hb|exact Hx|exact Hy|..]; cbn [fst snd]; try done.
    + by each_task.
    + intros x _. rewrite !Exists_cons, !Exists_nil. cbn. tauto.
    + apply B8.
    + intros l' [Hl'|Hl']; [|by left; right]. apply list_elem_of_singleton in Hl'. injection Hl' as ->. by right.
  - apply (phase_goes_on Finish ts st [Emit (EvEnd l)] st); [done|by intros []|by cbn; naive_solver|by rewrite Hx, Hy|].
    unfold ends. by rewrite Hx, Hy, !total_app.
  - rewrite Hx, Hy, !total_app, !total_one. cbn. lia.
Qed.

(** ** Responses *)

Lemma called_token ts k : called ts k <> 0 -> 1 <= total (tok k) (map IT ts).
Proof.
  induction ts as [|t ts IH]; [done|]. cbn [map]. rewrite total_cons. destruct t; cbn [called]; try (intros H; specialize (IH H); lia).
  destruct (decide (k0 = k)) as [->|Hne]; [|intros H; specialize (IH H); lia]. intros _. cbn [tok]. unfold b2n. rewrite decide_True by done. lia.
Qed.

(** The task at hand has the only response to [k]. *)
Lemma only_response t ts st k :
  balanced (t :: ts, st) -> 1 <= tok k (IT t) ->
  called ts k = 0 /\ k ∈ map fst (reqs st) /\ exists cbs, waiting k (reqs st) = Some cbs.
Proof.
  intros Hb Ht. pose proof (bal_tok _ Hb k) as Hk. unfold items in Hk. cbn [fst snd map] in Hk. rewrite total_app, total_cons in Hk.
  unfold inkeys, b2n in Hk. destruct (decide (k ∈ map fst (reqs st))) as [Hin|Hn]; [|lia]. split_and!; [|done|].
  - destruct (decide (called ts k = 0)) as [|Hne]; [done|]. pose proof (called_token ts k Hne). lia.
  - destruct (waiting k (reqs st)) as [cbs|] eqn:E; [eauto|]. apply waiting_None in E. done.
Qed.

Lemma wait_call w k c a :
  wait_ok toLowerCase canonicalize self w k c -> answer_ok the_fs w k a -> call_ok toLowerCase canonicalize the_fs self w c a.
Proof.
  destruct c as [[]| |]; cbn [wait_ok call_ok].
  - intros (abs & b & -> & Hr) Ha. eauto.
  - intros (abs' & b & -> & Hr) Ha. eauto.
  - intros (abs & -> & -> & Hf & Hk) Ha. destruct a; [|done]. cbn in *. tauto.
  - intros (-> & -> & Hf) Ha. destruct a; [done|]. cbn in Ha. by subst.
  - intros (-> & -> & Hs & Hl) Ha. destruct a; [done|]. cbn in Ha. by subst.
Qed.

Lemma total_map {A} v (f : A -> item) l : total v (map f l) = sum_list (map (fun a => v (f a)) l).
Proof. unfold total. by rewrite map_map. Qed.

Lemma sum_list_plus {A} (f g : A -> nat) l : sum_list (map (fun a => f a + g a) l) = sum_list (map f l) + sum_list (map g l).
Proof. induction l as [|a l IH]; [done|]. cbn [map]. change (sum_list (?x :: ?y)) with (x + sum_list y). lia. Qed.

Lemma step_respond k a ts st :
  inv (Respond k a :: ts, st) -> goes_well (Respond k a :: ts, st) ((run (Respond k a) st).1 ++ ts, (run (Respond k a) st).2).
Proof.
  intros [Hb Hph]. pose proof Hb as [B1 B2 B3 B4 B5 B6 B7 B8 B9]. cbn [fst snd] in *. rewrite called_cons in B2 by done.
  destruct (only_response _ _ _ k Hb) as (Hc & Hin & cbs & Hw); [cbn; unfold b2n; by rewrite decide_True|].
  cbn [run_task]. unfold respond. rewrite Hw. cbn [default from_option id fst snd].
  destruct (items_respond k a cbs ts st B2 Hc Hw) as (frame & Hx & Hy). pose proof B2 as [T1 T2 T3]. destruct (T2 k cbs Hw) as [Hne _].
  set (calls := map (fun c => Call c a) cbs) in *. set (xs := IT (Respond k a) :: map (IW k) cbs) in *.
  set (ys := map IT calls ++ [IT (Responded k (length cbs) a)]) in *.
  assert (forall v, (forall c, v (IT (Call c a)) = v (IW k c)) -> v (IT (Responded k (length cbs) a)) = v (IT (Respond k a)) -> total v ys = total v xs) as Hv.
  { intros v H1 H2. unfold xs, ys, calls. rewrite total_app, total_one, total_cons, total_map_IT, total_map, H2.
    rewrite (map_ext _ (fun c => v (IW k c))) by (intros c; apply H1). lia. }
  rewrite Hx in B3. apply Forall_app in B3 as [B3 _]. apply Forall_cons in B3 as [Ba B3].
  split; [split|].
  - eapply (balanced_step _ _ xs ys frame []); [exact Hb|exact Hx|exact Hy|..]; cbn [fst snd]; try done.
    + rewrite <- app_assoc, called_plain by (apply Forall_map, Forall_true; done). cbn [app].
      split; [done|..]; intros k'; cbn [called]; destruct (decide (k = k')) as [<-|Hne']; [|apply T2| |apply T3].
      * intros cbs' Hw'. rewrite Hw in Hw'. injection Hw' as <-. split; [done|lia].
      * congruence.
    + apply Forall_app. split; [|by constructor]. apply Forall_map, Forall_map. rewrite Forall_map in B3.
      eapply Forall_impl; [exact B3|]. intros c Hwc. by eapply wait_call.
    + intros k'. by rewrite Hv.
    + by rewrite Hv.
    + intros x _. unfold xs, ys, calls. rewrite Exists_app, exists_map_IT, Exists_cons, Exists_cons, Exists_nil. cbn [name].
      assert (Exists (iname x) (map (IW k) cbs) <-> exists c, c ∈ cbs /\ name_callback toLowerCase canonicalize the_fs self R x c); [|tauto].
      rewrite Exists_exists. split; [intros (i & Hi & Hn); apply list_elem_of_fmap in Hi as (c & -> & Hi); eauto|].
      intros (c & Hc' & Hn). exists (IW k c). split; [by apply list_elem_of_fmap_2|done].
    + apply B8.
    + unfold xs, ys, calls. rewrite omap_app. cbn. rewrite app_nil_r.
      assert (omap about (map IT (map (fun c => Call c a) cbs)) = []) as -> by (clear; by induction cbs).
      assert (omap about (map (IW k) cbs) = []) as -> by (clear; by induction cbs). done.
    + intros l [Hl|Hl]; [|tauto]. unfold ys in Hl. apply elem_of_app in Hl as [Hl|Hl]; [|by apply list_elem_of_singleton in Hl].
      apply list_elem_of_fmap in Hl as (t & [= <-] & Hl). by apply list_elem_of_fmap in Hl as (c & Hcc & _).
  - apply (phase_goes_on (Respond k a) ts st (calls ++ [Responded k (length cbs) a]) st); [done|by intros []|..].
    + apply guarded_none, Forall_app. split; [apply Forall_map, Forall_true; by intros c []|by each_task].
    + rewrite Hx, Hy, !total_app. by rewrite Hv.
    + unfold ends. rewrite Hx, Hy, !total_app. by rewrite Hv.
  - assert (total isteps (map (IW k) cbs) = total isteps (map IT calls) + 4 * length cbs) as Hs.
    { unfold calls. rewrite total_map_IT, total_map, <- (sum_list_const 4 cbs), <- sum_list_plus. done. }
    assert (0 < length cbs) by (destruct cbs; cbn; [done|lia]).
    rewrite Hx, Hy, !total_app. unfold xs, ys. rewrite total_app, total_one, total_cons, Hs.
    change (isteps (IT (Respond k a))) with 2. change (isteps (IT (Responded k (length cbs) a))) with 4. lia.
Qed.

Lemma step_responded k len a ts st :
  inv (Responded k len a :: ts, st) ->
  goes_well (Responded k len a :: ts, st) ((run (Responded k len a) st).1 ++ ts, (run (Responded k len a) st).2).
Proof.
  intros [Hb Hph]. pose proof Hb as [B1 B2 B3 B4 B5 B6 B7 B8 B9]. cbn [fst snd] in *.
  destruct (only_response _ _ _ k Hb) as (Hc & Hin & cbs & Hw); [cbn; unfold b2n; by rewrite decide_True|].
  destruct (items_responded k len a ts st cbs B2 Hc Hw) as (T & frame & Hx & Hy & Hk). cbn [run_task].
  assert (forall r, r = responded k len a st -> r.1 = [] /\ state_ok the_fs r.2 /\ walk r.2 = walk st /\ events r.2 = events st /\ processing r.2 = processing st) as Hr.
  { intros r ->. unfold responded. destruct (decide (len < length (default [] (waiting k (reqs st))))); cbn [fst snd];
      (split; [done|split; [by destruct B1|done]]). }
  destruct (Hr _ eq_refl) as (R1 & R2 & R3 & R4 & R5). set (r := responded k len a st) in *. clearbody r.
  set (ys := if decide (len < length cbs) then [IP (PTick k a)] else []) in *.
  rewrite Hx in B3. apply Forall_app in B3 as [B3 _]. apply Forall_cons in B3 as [Ba _].
  assert (total owed ys = 0 /\ total fin ys = 0 /\ total isteps ys < 4) as (Yo & Yf & Ys) by (unfold ys; destruct (decide _); cbn; lia).
  split; [split|].
  - eapply (balanced_step _ _ [IT (Responded k len a)] ys frame []); [exact Hb|exact Hx|exact Hy|..]; cbn [fst snd]; rewrite ?R3, ?R4, ?R5; try done.
    + by rewrite R1.
    + unfold ys. destruct (decide _); by each_task.
    + intros k'. rewrite total_one. cbn [tok]. specialize (Hk k'). unfold inkeys, b2n. unfold ys.
      destruct (decide (len < length cbs)) as [Hl|Hl]; rewrite ?total_one; cbn [tok]; unfold b2n; destruct (decide (k = k')) as [<-|Hne];
        destruct (decide (_ ∈ map fst (reqs st))) as [Hi|Hi], (decide (_ ∈ map fst (reqs r.2))) as [Hi'|Hi']; cbn; try lia; naive_solver.
    + rewrite Yo, total_one. done.
    + intros x _. unfold ys. destruct (decide _); rewrite ?Exists_cons, ?Exists_nil; cbn; tauto.
    + apply B8.
    + unfold ys. by destruct (decide _).
    + intros l [Hl|Hl]; [|tauto]. unfold ys in Hl. destruct (decide _);
        [by apply list_elem_of_singleton in Hl|by apply not_elem_of_nil in Hl].
  - apply (phase_goes_on (Responded k len a) ts st r.1 r.2); [done|by intros []|by rewrite R1|..].
    + by rewrite Hx, Hy, !total_app, Yo.
    + unfold ends. cbn [snd]. by rewrite Hx, Hy, !total_app, Yf, R4.
  - rewrite Hx, Hy, !total_app, total_one. change (isteps (IT (Responded k len a))) with 4. lia.
Qed.

(** ** The whole walk *)

Lemma go_well m m' : inv m -> goes m m' -> goes_well m m'.
Proof.
  intros Hi Hgo. destruct Hgo as [t ts st ts' st' Hne E|i p st ts' st' Hp E].
  - assert ((ts' ++ ts, st') = ((run t st).1 ++ ts, (run t st).2)) as -> by (by rewrite E).
    assert (task_ok toLowerCase canonicalize the_fs self (walk st) t) as Ht.
    { pose proof (bal_typed _ (proj1 Hi)) as B. unfold items in B. cbn [fst map app] in B. by apply Forall_cons in B as [B _]. }
    destruct t as [| | | | | | | | | |ev| | | | |[]| | |]; try done.
    + by apply step_process.
    + by apply step_done.
    + by apply step_work.
    + by apply step_respond.
    + by apply step_responded.
    + by apply step_work.
    + by apply step_work.
    + by apply step_emitMatch.
    + by apply step_emit.
    + by apply step_finish.
  - rewrite <- E. by apply step_answer.
Qed.

Lemma go_bounded n m m' : inv m -> nsteps goes n m m' -> inv m' /\ n + total isteps (items m') <= total isteps (items m).
Proof.
  intros Hi Hn. induction Hn as [m|n m1 m2 m3 H12 Hn IH]; [split; [done|lia]|].
  destruct (go_well _ _ Hi H12) as [Hi2 Hlt]. destruct (IH Hi2) as [Hi3 Hle]. split; [done|lia].
Qed.

(** What a waiting callback responds to. *)
Lemma waits_only st k :
  Forall (ityped (walk st)) (items ([], st)) -> pending st = [] -> 1 <= total (tok k) (items ([], st)) ->
  exists abs, k = KReaddir abs true /\ exists k', k' ∈ map fst (reqs st) /\ forall abs', k' <> KReaddir abs' true.
Proof.
  intros Ht Hp Hk. assert (exists i, i ∈ items ([], st) /\ 1 <= tok k i) as (i & Hi & Hki).
  { clear -Hk. induction (items ([], st)) as [|i l IH]; [cbn in Hk; lia|]. rewrite total_cons in Hk.
    destruct (decide (1 <= tok k i)); [exists i; split; [by left|done]|]. destruct IH as (j & Hj & ?); [lia|]. exists j. split; [by right|done]. }
  rewrite Forall_forall in Ht. pose proof (Ht i Hi) as Hti. unfold items in Hi. cbn [fst snd map app] in Hi. rewrite Hp, app_nil_r in Hi.
  unfold waits in Hi. apply list_elem_of_In, in_concat in Hi as (l & Hl & Hi). apply in_map_iff in Hl as ([k' cbs] & <- & Hr).
  apply in_map_iff in Hi as (c & <- & _). cbn [fst snd typed tok] in *.
  assert (k' ∈ map fst (reqs st)) as Hk' by (apply list_elem_of_In, in_map_iff; by exists (k', cbs)).
  destruct c as [[| |k0]|abs [| |k0]|]; cbn [tok_callback tok_rcb wait_ok] in *; try lia.
  - destruct Hti as (abs & -> & -> & _). exists abs. unfold b2n in Hki. destruct (decide _) as [<-|]; [|lia]. split; [done|]. by eauto.
  - destruct Hti as (-> & [= ->] & _). exists abs. unfold b2n in Hki. destruct (decide _) as [<-|]; [|lia]. split; [done|]. by eauto.
Qed.

Lemma stuck m :
  inv m -> (forall m', ~ goes m m') ->
  m.1 = [] /\ pending m.2 = [] /\ reqs m.2 = [] /\ items m = [] /\ count_ends (events m.2) = 1.
Proof.
  intros [Hb Hph] Hs. destruct m as [[|t ts] st]; cbn [fst snd].
  2: { exfalso. pose proof (bal_typed _ Hb) as B. unfold items in B. cbn [fst map app] in B. apply Forall_cons in B as [B _].
       apply (Hs ((run t st).1 ++ ts, (run t st).2)). apply go_run; [by intros ->|by destruct (run t st)]. }
  assert (pending st = []) as Hp.
  { destruct (pending st) as [|p ps] eqn:E; [done|]. exfalso.
    apply (Hs (answered the_fs self p (set_pending (delete 0 (pending st)) st))).
    destruct (answered the_fs self p (set_pending (delete 0 (pending st)) st)) as [ts' st'] eqn:Ea. apply (go_answer _ _ _ _ _ _ 0 p); [by rewrite E|done]. }
  assert (forall k, k ∈ map fst (reqs st) -> exists abs, k = KReaddir abs true /\ exists k', k' ∈ map fst (reqs st) /\ forall abs', k' <> KReaddir abs' true) as Hk.
  { intros k Hk. apply waits_only; [apply Hb|done|]. rewrite (bal_tok _ Hb k). unfold inkeys, b2n. by rewrite decide_True. }
  assert (reqs st = []) as Hr.
  { destruct (reqs st) as [|[k cbs] rs] eqn:E; [done|]. exfalso. destruct (Hk k) as (_ & _ & k' & Hk' & Hne); [by left|].
    destruct (Hk k' Hk') as (abs & -> & _). by apply (Hne abs). }
  assert (items ([], st) = []) as Hi by (unfold items; cbn [fst snd]; by rewrite Hp, Hr).
  split_and!; try done. destruct Hph as [(? & ? & ? & ? & _)|[_ He]]; [done|]. unfold ends in He. rewrite Hi in He. done.
Qed.
End Props.
