(* ===== verification/AsyncTheorem.v ===== *)
(** * glob: the asynchronous and the synchronous walk agree

    The theorem about [Glob], its witness, and where the two walks differ. *)

From S2P Require Import Prelude BraceExpansion Regex Minimatch MinimatchProps NodePath GlobSync GlobProps GlobTheorems AsyncGlob AsyncExamples AsyncItems AsyncSearch AsyncSteps AsyncProps.

(** The machine has stopped: nothing is under way, the end was reported once,
    with the names [found]; each of them was reported as a match, once. *)
Record ended_with (toLowerCase : jsstr -> jsstr) (locale_le : jsstr -> jsstr -> bool) (self : glob)
    (found : list jsstr) (m : machine) : Prop := EndedWith {
  all_done : m.1 = [] /\ pending m.2 = [] /\ reqs m.2 = [];
  ended_once : exists l, List.filter is_end (events m.2) = [EvEnd l] /\
    (forall x, x ∈ l <-> x ∈ found) /\
    (nounique self = false -> l ≡ₚ found) /\
    (nounique self = false -> nosort self = false -> collation locale_le ->
       AntiSymm (=) (alphasort toLowerCase locale_le self) -> l = found);
  matched_once : NoDup (omap ev_match (events m.2));
  matched x : g_nonull self = false -> (EvMatch x ∈ events m.2 <-> x ∈ found)
}.

Lemma inv_start toLowerCase canonicalize locale_le the_fs self R p0 c s l :
  plain_search self -> m_set (minimatch_ self) = [p0] -> relative_pattern p0 -> Forall has_glob p0 ->
  coherent the_fs (State c s l [None] []) ->
  inv toLowerCase canonicalize locale_le the_fs self R p0 (start self c s l).
Proof.
  intros Hp Hset Hrel Hg Hc. unfold start. rewrite (does_process _ Hp), Hset. cbn [length imap replicate].
  rewrite decide_False by done. cbn [imap].
  split.
  - split; cbn [fst snd]; try done.
    + split; [constructor|done|done].
    + by constructor.
    + intros x _. cbn. rewrite Exists_cons, Exists_nil. cbn. split; [|tauto]. intros [Hx|[Hx|[]]]; [by apply not_elem_of_nil in Hx|done].
    + split; [constructor|constructor].
    + intros r [Hr|Hr]; [by apply list_elem_of_singleton in Hr|by apply not_elem_of_nil in Hr].
  - left. by eexists _, _, _.
Qed.

Lemma list_filter_end evs : count_ends evs = 1 -> exists l, List.filter is_end evs = [EvEnd l] /\ EvEnd l ∈ evs.
Proof.
  unfold count_ends. intros H. destruct (List.filter is_end evs) as [|ev [|]] eqn:E; [done| |done].
  assert (In ev (List.filter is_end evs)) as Hin by (rewrite E; by left). apply filter_In in Hin as [Hin He].
  destruct ev; try done. exists found. by rewrite list_elem_of_In.
Qed.

(** Without ignored names, or without the pattern in place of no names, both
    walks are to find the same. *)
Lemma results_agree toLowerCase canonicalize self names x :
  (g_nonull self = true -> ignore self = []) -> isIgnored toLowerCase canonicalize self x = false ->
  contributes self 0 (filter (fun y => isIgnored toLowerCase canonicalize self y = false) names) x <-> contributes self 0 names x.
Proof.
  intros Hn Hi. unfold contributes. rewrite list_elem_of_filter. destruct (g_nonull self); [|naive_solver].
  assert (filter (fun y => isIgnored toLowerCase canonicalize self y = false) names = names) as ->; [|tauto].
  assert (forall y, isIgnored toLowerCase canonicalize self y = false) as Hy by (intros y; unfold isIgnored; by rewrite Hn).
  clear Hi. induction names as [|n ns IH]; [done|]. by rewrite filter_cons_True, IH.
Qed.

(** ** The theorem *)

(** C20. For a pattern that is one relative pattern after brace expansion, whose
    wildcards compile, with
    the options of a plain search (root [/], none of follow, realpath, mark,
    noprocess and nodir, and not nonull together with ignore), listeners that call
    no method of the walk, caches that hold nothing false and a file system that
    can be read (as in C19, and [/] a directory): in every order in which the
    file system answers, the asynchronous [Glob] stops, within a bound on the
    number of its steps; when it has stopped, nothing waits in inflight, and it
    has reported its end exactly once, with the names that [GlobSync] returns,
    and each of those names (unless nonull is set) as a match, no match twice.
    Where repetitions are dropped the lists are permutations of each other, and
    where also the collation sorts without ties they are the same.  Without
    these conditions the walks may differ: [early_end], [ignored_not_null],
    [pause_loses_matches]. *)
Theorem glob_agrees_with_globSync rSlash rOpen rClose rComma rPeriod toLowerCase canonicalize locale_le the_fs
    pattern o self p0 rank R fuel :
  pattern <> [] -> setopts rSlash rOpen rClose rComma rPeriod pattern o = inr self -> plain_search self -> nodir self = false ->
  (g_nonull self = true -> ignore self = []) ->
  m_set (minimatch_ self) = [p0] -> relative_pattern p0 -> Forall has_glob p0 ->
  readable the_fs -> nested the_fs rank R -> fresh_stat the_fs [slash] = Some Directory ->
  coherent the_fs (initial_state o self) -> enough R (magics p0) <= fuel ->
  let goes := go toLowerCase canonicalize locale_le the_fs self quiet in
  let m0 := start self (o_cache o) (o_statCache o) (o_symlinks o) in
  exists found st bound,
    GlobSync rSlash rOpen rClose rComma rPeriod toLowerCase canonicalize locale_le the_fs fuel pattern o = Ok (Some found) st /\
    (forall n m, nsteps goes n m0 m -> n <= bound) /\
    (forall m, rtc goes m0 m -> (forall m', ~ goes m m') -> ended_with toLowerCase locale_le self found m).
Proof.
  intros Hne Hset Hplain Hnd Hnon Hm Hrel Hg Hfs Hn Hroot Hst Hfuel goes m0.
  set (names := found toLowerCase canonicalize the_fs self R p0 false).
  destruct (globSync_result rSlash rOpen rClose rComma rPeriod toLowerCase canonicalize locale_le the_fs pattern o self fuel [names])
    as (fnd & st & E & _ & Hel & Hnd' & Hs'); [done..| | |].
  { rewrite Hm. by constructor. }
  { rewrite Hm. cbn. rewrite (found_fuel toLowerCase canonicalize the_fs self (at_root _ Hplain) Hfs rank R Hn fuel p0 false Hfuel). done. }
  assert (inv toLowerCase canonicalize locale_le the_fs self R p0 m0) as Hi0.
  { apply inv_start; try done. unfold initial_state in Hst. by rewrite Hm in Hst. }
  exists fnd, st, (total (steps toLowerCase canonicalize the_fs self R) (items m0)). split_and!; [done|..].
  { intros n m Hgo. eapply go_bounded in Hgo as [_ Hle]; [|done..]. lia. }
  intros m Hgo Hstuck. apply rtc_nsteps in Hgo as [n Hgo]. eapply go_bounded in Hgo as [Hi _]; [|done..].
  destruct (stuck _ _ _ _ _ _ _ _ Hi Hstuck) as (H1 & H2 & H3 & H4 & H5). destruct Hi as [Hb _].
  destruct (list_filter_end _ H5) as (l & El & Hl). destruct (bal_results _ _ _ _ _ _ _ _ Hb l (or_intror Hl)) as (R1 & R2 & R3).
  assert (forall x, x ∈ fnd <-> isIgnored toLowerCase canonicalize self x = false /\ contributes self 0 names x) as Hf.
  { intros x. rewrite Hel. split.
    - intros [Hx (i & ns & Hi & Hc)]. split; [done|]. destruct i; [|done]. by injection Hi as <-.
    - intros [Hx Hc]. split; [done|]. by exists 0, names. }
  assert (forall x, x ∈ l <-> x ∈ fnd) as Hlf.
  { intros x. rewrite R1, Hf. split; intros [Hx Hc]; pose proof (results_agree toLowerCase canonicalize self names x Hnon Hx); tauto. }
  pose proof (bal_matches _ _ _ _ _ _ _ _ Hb) as Hk. rewrite H4, app_nil_r in Hk.
  split; [done| | |].
  - exists l. split_and!; [done|done|intros Hu; apply NoDup_Permutation; auto|].
    intros Hu Hns Hc Ha. eapply (StronglySorted_unique _); [by apply R3|by apply Hs'|]. apply NoDup_Permutation; auto.
  - rewrite <- Hk. apply (bal_keys _ _ _ _ _ _ _ _ Hb).
  - intros x Hnull. transitivity (x ∈ keys (walk m.2) 0).
    + rewrite Hk, list_elem_of_omap. split; [intros Hx; by exists (EvMatch x)|]. intros ([] & Hx & [= <-]). done.
    + rewrite Hf. unfold contributes. rewrite Hnull. pose proof (proj2 (bal_keys _ _ _ _ _ _ _ _ Hb)) as Hi. rewrite Forall_forall in Hi.
      pose proof (bal_names _ _ _ _ _ _ _ _ Hb x) as Hbn. rewrite H4, Exists_nil in Hbn. fold names in Hbn. split.
      * intros Hx. split; [by apply Hi|left; apply Hbn; [by apply Hi|by left]].
      * intros [Hx [Hx'|[_ [? _]]]]; [|done]. apply Hbn in Hx as Hx2. tauto.
Qed.

Lemma glob_agrees_with_globSync_witness :
  let goes := go id id str_leb (table_fs project) js_search quiet in
  let m0 := start js_search ∅ ∅ ∅ in
  exists found st bound,
    GlobSync «"1"» «"2"» «"3"» «"4"» «"5"» id id str_leb (table_fs project) 30 «"**/*.js"» no_glob_options = Ok (Some found) st /\
    (forall n m, nsteps goes n m0 m -> n <= bound) /\
    (forall m, rtc goes m0 m -> (forall m', ~ goes m m') -> ended_with id str_leb js_search found m).
Proof.
  apply (glob_agrees_with_globSync «"1"» «"2"» «"3"» «"4"» «"5"» id id str_leb (table_fs project) «"**/*.js"» no_glob_options js_search
           (default [] (head (m_set (minimatch_ js_search)))) (fun ns => 3 - length ns) 4 30).
  - done.
  - by vm_compute.
  - by split; vm_compute.
  - done.
  - done.
  - done.
  - split; [done|by apply Forall_cons_2; [|apply Forall_nil_2]].
  - by apply Forall_cons_2; [|apply Forall_cons_2; [|apply Forall_nil_2]].
  - apply (table_readable project 3). by vm_compute.
  - apply (table_nested project 3). by vm_compute.
  - by vm_compute.
  - by apply empty_coherent.
  - vm_compute. lia.
Defined.

(** ** Where the walks differ

    The asynchronous walk leaves out an ignored name before it counts the
    matches, the synchronous one after: when all names are ignored and the
    pattern is asked for in place of no names, only the former gives it. *)
Definition nonull_ignore : glob_options :=
  GlobOptions (Options false false false false false false false false false true) None None None false false false false false false false
    false false false None [«"b.js"»] None None ∅ ∅ ∅.

Example ignored_not_null :
  run project «"b.*"» nonull_ignore = Some [] /\
  run_async project «"b.*"» nonull_ignore quiet [] = Some ([EvEnd [«"b.*"»]], 0, 0).
Proof. by vm_compute. Qed.
