(* ===== verification/RustLang.v ===== *)
(** * The part of Rust that the pallets, the precompiles and ethabi-nostd use

    Fallible code returns [Ok] or [Err], and may panic; unsigned integers have
    a width and are kept as numbers of type [N]; byte arrays are lists.  The
    release build is modelled, in which additions of a fixed width wrap; sizes
    of memory, of type [usize], are unbounded. *)

From S2P Require Import Prelude.

(** ** Outcomes *)

Inductive outcome (E A : Type) := Ok (a : A) | Err (e : E) | Panic.
Arguments Ok {E A} a.
Arguments Err {E A} e.
Arguments Panic {E A}.

#[export] Instance outcome_bind {E} : MBind (outcome E) := fun A B f m =>
  match m with Ok a => f a | Err e => Err e | Panic => Panic end.
#[export] Instance outcome_ret {E} : MRet (outcome E) := fun A a => Ok a.
#[export] Instance outcome_fmap {E} : FMap (outcome E) := fun A B f m => m ≫= fun a => Ok (f a).

(** [option.unwrap()], [result.unwrap()], [option.ok_or(e)], [result.map_err(f)] *)
Definition unwrap {E A} (o : option A) : outcome E A := match o with Some a => Ok a | None => Panic end.
Definition unwrap_result {E E' A} (r : outcome E' A) : outcome E A := match r with Ok a => Ok a | _ => Panic end.
Definition ok_or {E A} (o : option A) (e : E) : outcome E A := match o with Some a => Ok a | None => Err e end.
Definition map_err {E E' A} (f : E -> E') (r : outcome E A) : outcome E' A :=
  match r with Ok a => Ok a | Err e => Err (f e) | Panic => Panic end.
Definition is_ok {E A} (r : outcome E A) : bool := match r with Ok _ => true | _ => false end.

Lemma bind_ok {E A B} (m : outcome E A) (f : A -> outcome E B) b :
  m ≫= f = Ok b <-> exists a, m = Ok a /\ f a = Ok b.
Proof. destruct m; cbn; naive_solver. Qed.

(** Opens a computation that succeeds. *)
Ltac invert_ok :=
  repeat match goal with
  | H : _ ≫= _ = Ok _ |- _ => apply bind_ok in H as (? & ? & H)
  | H : Ok _ = Ok _ |- _ => injection H as H; subst
  | H : Err _ = Ok _ |- _ => discriminate H
  | H : Panic = Ok _ |- _ => discriminate H
  end.

(** ** Integers of a width *)

Definition wrap (w : N) (n : N) : N := (n mod 2 ^ w)%N.
Definition u32 : N -> N := wrap 32.
Definition u64 : N -> N := wrap 64.

(** [a.saturating_add(b)] on [u64] *)
Definition u64_saturating_add (a b : N) : N := N.min (a + b) (2 ^ 64 - 1).

Lemma u32_small n : (n < 2 ^ 32)%N -> u32 n = n.
Proof. apply N.mod_small. Qed.

Lemma u32_add_l a b : u32 (u32 a + b) = u32 (a + b).
Proof. unfold u32, wrap. by rewrite N.Div0.add_mod_idemp_l. Qed.

Lemma u32_add_r a b : u32 (a + u32 b) = u32 (a + b).
Proof. unfold u32, wrap. by rewrite N.Div0.add_mod_idemp_r. Qed.

Lemma u32_mul_r a b : u32 (a * u32 b) = u32 (a * b).
Proof. unfold u32, wrap. by rewrite N.Div0.mul_mod_idemp_r. Qed.

(** ** Big-endian bytes *)

Abbreviation bytes := (list N).

(** The [k] bytes of a number, the highest first; [to_be_bytes]. *)
Fixpoint be_bytes (k : nat) (n : N) : bytes :=
  match k with O => [] | S k => be_bytes k (n / 256) ++ [(n mod 256)%N] end.

(** The number that bytes make. *)
Definition of_be (bs : bytes) : N := foldl (fun n b => n * 256 + b)%N 0%N bs.

Lemma length_be_bytes k n : length (be_bytes k n) = k.
Proof. revert n. induction k as [|k IH]; intros n; cbn; [done|]. rewrite length_app, IH. cbn. lia. Qed.

Lemma of_be_snoc bs b : of_be (bs ++ [b]) = (of_be bs * 256 + b)%N.
Proof. unfold of_be. by rewrite foldl_app. Qed.

Lemma of_be_bytes k n : (n < 256 ^ N.of_nat k)%N -> of_be (be_bytes k n) = n.
Proof.
  revert n. induction k as [|k IH]; intros n Hn; [cbn in *; lia|]. cbn [be_bytes]. rewrite of_be_snoc, IH.
  - rewrite (N.div_mod n 256) at 3 by done. lia.
  - rewrite Nat2N.inj_succ, N.pow_succ_r' in Hn. apply N.Div0.div_lt_upper_bound. lia.
Qed.

Definition byte (b : N) : Prop := (b < 256)%N.

Lemma be_bytes_byte k n : Forall byte (be_bytes k n).
Proof.
  revert n. induction k as [|k IH]; intros n; cbn; [done|]. apply Forall_app. split; [done|].
  constructor; [|done]. apply N.mod_lt. done.
Qed.

Lemma of_be_lt bs : Forall byte bs -> (of_be bs < 256 ^ N.of_nat (length bs))%N.
Proof.
  induction bs as [|b bs IH] using rev_ind; intros H; [cbn; lia|]. rewrite Forall_app, Forall_singleton in H.
  destruct H as [H Hb]. rewrite of_be_snoc, length_app, Nat.add_comm. cbn [length Nat.add]. rewrite Nat2N.inj_succ, N.pow_succ_r'.
  specialize (IH H). unfold byte in Hb. nia.
Qed.

(** ** Chunks of a size *)

Fixpoint chunks (n : nat) (fuel : nat) (bs : bytes) : list bytes :=
  match fuel with
  | O => []
  | S fuel => take n bs :: chunks n fuel (drop n bs)
  end.

Lemma chunks_concat n ws : Forall (fun w => length w = n) ws -> chunks n (length ws) (concat ws) = ws.
Proof.
  induction 1 as [|w ws Hw Hws IH]; [done|]. cbn [length chunks concat].
  rewrite take_app_length', drop_app_length' by done. by rewrite IH.
Qed.

(** ** [str::from_utf8]: which bytes are UTF-8 *)

Definition within (lo hi b : N) : bool := ((lo <=? b) && (b <=? hi))%N.
Definition continuation : N -> bool := within 0x80 0xBF.

Fixpoint from_utf8 (bs : bytes) : bool :=
  match bs with
  | [] => true
  | b :: rest =>
      if (b <? 0x80)%N then from_utf8 rest
      else match rest with
      | [] => false
      | c :: rest =>
          if within 0xC2 0xDF b then continuation c && from_utf8 rest
          else match rest with
          | [] => false
          | d :: rest =>
              if N.eqb b 0xE0 then within 0xA0 0xBF c && continuation d && from_utf8 rest
              else if N.eqb b 0xED then within 0x80 0x9F c && continuation d && from_utf8 rest
              else if within 0xE1 0xEF b then continuation c && continuation d && from_utf8 rest
              else match rest with
              | [] => false
              | e :: rest =>
                  (if N.eqb b 0xF0 then within 0x90 0xBF c
                   else if N.eqb b 0xF4 then within 0x80 0x8F c
                   else within 0xF1 0xF3 b && continuation c)
                  && continuation d && continuation e && from_utf8 rest
              end
          end
      end
  end.

(** UTF-8 texts one after the other are UTF-8. *)
Lemma from_utf8_app n : forall a b, length a < n -> from_utf8 a = true -> from_utf8 (a ++ b) = from_utf8 b.
Proof.
  induction n as [|n IH]; intros a b Hn Ha; [lia|]. destruct a as [|x a]; [done|]. cbn [from_utf8 app] in *. cbn [length] in Hn.
  destruct (x <? 128)%N; [apply IH; [lia|done]|].
  destruct a as [|y a]; [done|]. cbn [app length] in *. destruct (within _ _ x).
  { apply andb_true_iff in Ha as [-> Ha]. apply IH; [lia|done]. }
  destruct a as [|z a]; [done|]. cbn [app length] in *.
  destruct (N.eqb x 224); [|destruct (N.eqb x 237); [|destruct (within _ _ x)]].
  1-3: rewrite !andb_true_iff in Ha; destruct Ha as [[-> ->] Ha]; apply IH; [lia|done].
  destruct a as [|t a]; [done|]. cbn [app length] in *.
  rewrite !andb_true_iff in Ha. destruct Ha as [[[-> ->] ->] Ha]. apply IH; [lia|done].
Qed.

Lemma from_utf8_append a b : from_utf8 a = true -> from_utf8 b = true -> from_utf8 (a ++ b) = true.
Proof. intros Ha Hb. rewrite (from_utf8_app (S (length a))); [done|lia|done]. Qed.
