(* ===== verification/EthAbi.v ===== *)
(** * ethabi-nostd: tokens, the encoder and the decoder

    src/libraries/ethabi-nostd/src: param.rs, token.rs, util.rs, encoder.rs and
    decoder.rs.  Words are lists of 32 bytes; numbers of 256 bits are of type
    [N]; offsets and lengths in words are of 32 bits and wrap, positions in the
    list of words are unbounded. *)

From S2P Require Import Prelude RustLang.

Abbreviation word := (list N).

(** ** Types and tokens *)

Inductive ParamKind :=
  | KAddress | KBytes | KInt (bits : nat) | KUint (bits : nat) | KBool | KString
  | KArray (t : ParamKind) | KFixedBytes (len : nat) | KFixedArray (t : ParamKind) (len : nat)
  | KTuple (ts : list ParamKind).

Inductive Token :=
  | Address (a : bytes) | FixedBytes (b : bytes) | Bytes (b : bytes) | Int (n : N) | Uint (n : N) | Bool (b : bool)
  | TString (s : bytes) | FixedArray (ts : list Token) | Array (ts : list Token) | Tuple (ts : list Token).

Inductive Error := InvalidName | InvalidData.

(** [ParamKind::is_empty_bytes_valid_encoding] and [ParamKind::is_dynamic] *)
Definition is_empty_bytes_valid_encoding (k : ParamKind) : bool :=
  match k with
  | KFixedBytes len => len =? 0
  | KFixedArray _ len => len =? 0
  | _ => false
  end.

Fixpoint kind_is_dynamic (k : ParamKind) : bool :=
  match k with
  | KBytes | KString | KArray _ => true
  | KFixedArray t _ => kind_is_dynamic t
  | KTuple ts => existsb kind_is_dynamic ts
  | _ => false
  end.

(** [Token::is_dynamic] *)
Fixpoint token_is_dynamic (t : Token) : bool :=
  match t with
  | Bytes _ | TString _ | Array _ => true
  | FixedArray ts | Tuple ts => existsb token_is_dynamic ts
  | _ => false
  end.

(** The conversions of token.rs. *)
Definition to_address (t : Token) : option bytes := match t with Address a => Some a | _ => None end.
Definition to_fixed_bytes (t : Token) : option bytes := match t with FixedBytes b => Some b | _ => None end.
Definition to_bytes (t : Token) : option bytes := match t with Bytes b => Some b | _ => None end.
Definition to_int (t : Token) : option N := match t with Int n => Some n | _ => None end.
Definition to_uint (t : Token) : option N := match t with Uint n => Some n | _ => None end.
Definition to_bool (t : Token) : option bool := match t with Bool b => Some b | _ => None end.
Definition to_string (t : Token) : option bytes := match t with TString s => Some s | _ => None end.
Definition to_fixed_array (t : Token) : option (list Token) := match t with FixedArray ts => Some ts | _ => None end.
Definition to_array (t : Token) : option (list Token) := match t with Array ts => Some ts | _ => None end.
Definition to_tuple (t : Token) : option (list Token) := match t with Tuple ts => Some ts | _ => None end.

(** [Token::type_check]; it panics on a tuple of more tokens than types,
    unless a token before does not fit. *)
Fixpoint type_check (t : Token) (k : ParamKind) : outcome Empty_set bool :=
  let all_check k := fix go ts :=
    match ts with
    | [] => Ok true
    | t :: ts => b ← type_check t k; if b : bool then go ts else Ok false
    end in
  match t, k with
  | Address _, KAddress | Bytes _, KBytes | Int _, KInt _ | Uint _, KUint _ | Bool _, KBool | TString _, KString => Ok true
  | FixedBytes b, KFixedBytes size => Ok (length b <=? size)
  | Array ts, KArray k => all_check k ts
  | FixedArray ts, KFixedArray k size => if size =? length ts then all_check k ts else Ok false
  | Tuple ts, KTuple ks =>
      (fix go ts ks :=
         match ts, ks with
         | [], _ => Ok true
         | _ :: _, [] => Panic
         | t :: ts, k :: ks => b ← type_check t k; if b : bool then go ts ks else Ok false
         end) ts ks
  | _, _ => Ok false
  end.

(** [Token::types_check] *)
Fixpoint types_check (ts : list Token) (ks : list ParamKind) : outcome Empty_set bool :=
  match ts, ks with
  | [], [] => Ok true
  | t :: ts, k :: ks =>
      if length ts =? length ks then b ← type_check t k; if b : bool then types_check ts ks else Ok false else Ok false
  | _, _ => Ok false
  end.

(** ** util.rs *)

Definition slice_data (data : bytes) : outcome Error (list word) :=
  if length data mod 32 =? 0 then Ok (chunks 32 (length data / 32) data) else Err InvalidData.

Definition pad_u32 (value : N) : word := replicate 28 0%N ++ be_bytes 4 value.

(** ** The encoder *)

(** [pad_fixed_bytes]: the words of the loop over [0..len] *)
Definition pad_fixed_bytes (bs : bytes) : list word :=
  let len := (length bs + 31) / 32 in
  map (fun i =>
    let to_copy := if i =? len - 1 then (if length bs mod 32 =? 0 then 32 else length bs mod 32) else 32 in
    take to_copy (drop (32 * i) bs) ++ replicate (32 - to_copy) 0%N) (seq 0 len).

Definition pad_bytes (bs : bytes) : list word := pad_u32 (u32 (N.of_nat (length bs))) :: pad_fixed_bytes bs.

Inductive Mediate :=
  | Raw (ws : list word) | Prefixed (ws : list word) | PrefixedArray (ms : list Mediate)
  | PrefixedArrayWithLength (ms : list Mediate) | RawTuple (ms : list Mediate) | PrefixedTuple (ms : list Mediate).

Definition head_len (m : Mediate) : N :=
  match m with
  | Raw ws => u32 (32 * u32 (N.of_nat (length ws)))
  | RawTuple ms => u32 (32 * u32 (N.of_nat (length ms)))
  | _ => 32
  end.

Fixpoint tail_len (m : Mediate) : N :=
  let lens := foldl (fun acc m => u32 (u32 (acc + head_len m) + tail_len m)) in
  match m with
  | Raw _ | RawTuple _ => 0
  | Prefixed ws => u32 (u32 (N.of_nat (length ws)) * 32)
  | PrefixedArray ms | PrefixedTuple ms => lens 0%N ms
  | PrefixedArrayWithLength ms => lens 32%N ms
  end.

Fixpoint head (m : Mediate) (suffix_offset : N) : list word :=
  match m with
  | Raw ws => ws
  | RawTuple ms => concat (map (fun m => head m 0) ms)
  | _ => [pad_u32 suffix_offset]
  end.

(** The heads of mediates one after the other, the tail of the first at
    [offset], as in the first loop of [encode_head_tail]. *)
Fixpoint heads (ms : list Mediate) (offset : N) : list word :=
  match ms with
  | [] => []
  | m :: ms => head m offset ++ heads ms (u32 (offset + tail_len m))
  end.

Definition heads_len (ms : list Mediate) : N := foldl (fun acc m => u32 (acc + head_len m)) 0%N ms.

Fixpoint tail (m : Mediate) : list word :=
  let encode_head_tail ms := heads ms (heads_len ms) ++ concat (map tail ms) in
  match m with
  | Raw _ | RawTuple _ => []
  | Prefixed ws => ws
  | PrefixedArray ms | PrefixedTuple ms => encode_head_tail ms
  | PrefixedArrayWithLength ms => pad_u32 (u32 (N.of_nat (length ms))) :: encode_head_tail ms
  end.

Definition encode_head_tail (ms : list Mediate) : list word := heads ms (heads_len ms) ++ concat (map tail ms).

Fixpoint encode_token (t : Token) : Mediate :=
  match t with
  | Address a => Raw [replicate 12 0%N ++ a]
  | Bytes b | TString b => Prefixed (pad_bytes b)
  | FixedBytes b => Raw (pad_fixed_bytes b)
  | Int n | Uint n => Raw [be_bytes 32 n]
  | Bool b => Raw [replicate 31 0%N ++ [if b then 1%N else 0%N]]
  | Array ts => PrefixedArrayWithLength (map encode_token ts)
  | FixedArray ts =>
      if token_is_dynamic t then PrefixedArray (map encode_token ts) else Raw (encode_head_tail (map encode_token ts))
  | Tuple ts => if token_is_dynamic t then PrefixedTuple (map encode_token ts) else RawTuple (map encode_token ts)
  end.

Definition encode (ts : list Token) : bytes := concat (encode_head_tail (map encode_token ts)).

(** [encode_function_u8]; the four bytes of the hash are a parameter. *)
Definition encode_function_u8 (selector : bytes -> bytes) (signature : bytes) (inputs : list Token) : bytes :=
  selector signature ++ encode inputs.

(** ** The decoder *)

Definition as_u32 (slice : word) : outcome Error N :=
  if forallb (N.eqb 0) (take 28 slice) then Ok (of_be (drop 28 slice)) else Err InvalidData.

Definition as_bool (slice : word) : outcome Error bool :=
  if forallb (N.eqb 0) (take 31 slice) then Ok (N.eqb (default 0%N (slice !! 31)) 1) else Err InvalidData.

Definition peek (slices : list word) (position : nat) : outcome Error word := ok_or (slices !! position) InvalidData.

(** The bytes, and the position after them. *)
Definition take_bytes (slices : list word) (position len : nat) : outcome Error (bytes * nat) :=
  let slices_len := (len + 31) / 32 in
  ws ← foldr (fun i rest => w ← peek slices (position + i); ws ← rest; Ok (w :: ws)) (Ok []) (seq 0 slices_len);
  Ok (take len (concat ws), position + slices_len).

(** [&slices[start..]] *)
Definition slice_from (slices : list word) (start : nat) : outcome Error (list word) :=
  if start <=? length slices then Ok (drop start slices) else Panic.

(** The offset in words that a word holds, and the length that is found
    there. *)
Definition offset_at (slices : list word) (position : nat) : outcome Error nat :=
  w ← peek slices position; n ← as_u32 w; Ok (N.to_nat (n / 32)).

Definition length_at (slices : list word) (position : nat) : outcome Error (nat * nat) :=
  len_offset ← offset_at slices position;
  w ← peek slices len_offset; len ← as_u32 w; Ok (len_offset, N.to_nat len).

Fixpoint decode_param (param : ParamKind) (slices : list word) (offset : nat) : outcome Error (Token * nat) :=
  let repeat_ t tail := fix go n new_offset :=
    match n with
    | O => Ok ([], new_offset)
    | S n =>
        '(tok, new_offset) ← decode_param t tail new_offset;
        '(toks, new_offset) ← go n new_offset;
        Ok (tok :: toks, new_offset)
    end in
  let region :=
    if kind_is_dynamic param then o ← offset_at slices offset; tail ← slice_from slices o; Ok (tail, 0)
    else Ok (slices, offset) in
  let after new_offset := if kind_is_dynamic param then S offset else new_offset in
  match param with
  | KAddress => w ← peek slices offset; Ok (Address (drop 12 w), S offset)
  | KInt _ => w ← peek slices offset; Ok (Int (of_be w), S offset)
  | KUint _ => w ← peek slices offset; Ok (Uint (of_be w), S offset)
  | KBool => w ← peek slices offset; b ← as_bool w; Ok (Bool b, S offset)
  | KFixedBytes len => '(b, new_offset) ← take_bytes slices offset len; Ok (FixedBytes b, new_offset)
  | KBytes => '(o, len) ← length_at slices offset; '(b, _) ← take_bytes slices (S o) len; Ok (Bytes b, S offset)
  | KString => '(o, len) ← length_at slices offset; '(b, _) ← take_bytes slices (S o) len; Ok (TString b, S offset)
  | KArray t =>
      '(o, len) ← length_at slices offset;
      tail ← slice_from slices (S o);
      '(toks, _) ← repeat_ t tail len 0;
      Ok (Array toks, S offset)
  | KFixedArray t len =>
      '(tail, new_offset) ← region;
      '(toks, new_offset) ← repeat_ t tail len new_offset;
      Ok (FixedArray toks, after new_offset)
  | KTuple ts =>
      '(tail, new_offset) ← region;
      '(toks, new_offset) ←
        (fix go ts new_offset :=
           match ts with
           | [] => Ok ([], new_offset)
           | t :: ts =>
               '(tok, new_offset) ← decode_param t tail new_offset;
               '(toks, new_offset) ← go ts new_offset;
               Ok (tok :: toks, new_offset)
           end) ts new_offset;
      Ok (Tuple toks, after new_offset)
  end.

(** The loops of [decode_param] and of [decode]. *)
Definition decode_repeat (t : ParamKind) (tail : list word) : nat -> nat -> outcome Error (list Token * nat) :=
  fix go n new_offset :=
    match n with
    | O => Ok ([], new_offset)
    | S n =>
        '(tok, new_offset) ← decode_param t tail new_offset;
        '(toks, new_offset) ← go n new_offset;
        Ok (tok :: toks, new_offset)
    end.

Definition decode_params (ts : list ParamKind) (tail : list word) (new_offset : nat) : outcome Error (list Token * nat) :=
  (fix go ts new_offset :=
     match ts with
     | [] => Ok ([], new_offset)
     | t :: ts =>
         '(tok, new_offset) ← decode_param t tail new_offset;
         '(toks, new_offset) ← go ts new_offset;
         Ok (tok :: toks, new_offset)
     end) ts new_offset.

Definition decode (types : list ParamKind) (data : bytes) : outcome Error (list Token) :=
  if negb (forallb is_empty_bytes_valid_encoding types) && bool_decide (data = []) then Err InvalidName
  else slices ← slice_data data; '(tokens, _) ← decode_params types slices 0; Ok tokens.
