(* ===== verification/EthAbiProps.v ===== *)
(** * ethabi-nostd: decoding inverts encoding

    What the decoder returns on the output of the encoder, and that what it
    returns on any input has the types asked for. *)

From S2P Require Import Prelude RustLang EthAbi.

(** ** Induction on types *)

Section KindInd.
Variable P : ParamKind -> Prop.
Hypothesis HAddress : P KAddress.
Hypothesis HBytes : P KBytes.
Hypothesis HInt : forall n, P (KInt n).
Hypothesis HUint : forall n, P (KUint n).
Hypothesis HBool : P KBool.
Hypothesis HString : P KString.
Hypothesis HArray : forall k, P k -> P (KArray k).
Hypothesis HFixedBytes : forall n, P (KFixedBytes n).
Hypothesis HFixedArray : forall k n, P k -> P (KFixedArray k n).
Hypothesis HTuple : forall ks, Forall P ks -> P (KTuple ks).

Fixpoint kind_induction (k : ParamKind) : P k :=
  match k with
  | KAddress => HAddress | KBytes => HBytes | KInt n => HInt n | KUint n => HUint n | KBool => HBool | KString => HString
  | KArray k => HArray k (kind_induction k)
  | KFixedBytes n => HFixedBytes n
  | KFixedArray k n => HFixedArray k n (kind_induction k)
  | KTuple ks => HTuple ks ((fix go ks : Forall P ks :=
      match ks with [] => Forall_nil_2 P | k :: ks => Forall_cons_2 P k ks (kind_induction k) (go ks) end) ks)
  end.
End KindInd.

(** The loops inside [decode_param]. *)
Lemma decode_param_array t slices offset :
  decode_param (KArray t) slices offset =
    ('(o, len) ← length_at slices offset;
     tail ← slice_from slices (S o);
     '(toks, _) ← decode_repeat t tail len 0;
     Ok (Array toks, S offset)).
Proof. reflexivity. Qed.

Definition region (k : ParamKind) (slices : list word) (offset : nat) : outcome Error (list word * nat) :=
  if kind_is_dynamic k then o ← offset_at slices offset; tail ← slice_from slices o; Ok (tail, 0) else Ok (slices, offset).

Lemma decode_param_fixed_array t len slices offset :
  decode_param (KFixedArray t len) slices offset =
    ('(tail, new_offset) ← region (KFixedArray t len) slices offset;
     '(toks, new_offset) ← decode_repeat t tail len new_offset;
     Ok (FixedArray toks, if kind_is_dynamic (KFixedArray t len) then S offset else new_offset)).
Proof. reflexivity. Qed.

Lemma decode_param_tuple ts slices offset :
  decode_param (KTuple ts) slices offset =
    ('(tail, new_offset) ← region (KTuple ts) slices offset;
     '(toks, new_offset) ← decode_params ts tail new_offset;
     Ok (Tuple toks, if kind_is_dynamic (KTuple ts) then S offset else new_offset)).
Proof. reflexivity. Qed.

Lemma decode_params_cons t ts tail o :
  decode_params (t :: ts) tail o =
    ('(tok, o) ← decode_param t tail o; '(toks, o) ← decode_params ts tail o; Ok (tok :: toks, o)).
Proof. reflexivity. Qed.

Lemma decode_repeat_params t tail n o : decode_repeat t tail n o = decode_params (replicate n t) tail o.
Proof.
  revert o. induction n as [|n IH]; intros o; [done|]. cbn [replicate].
  rewrite decode_params_cons. unfold decode_repeat in *. destruct (decode_param t tail o) as [[tok o']| |]; [|done..].
  cbn [mbind outcome_bind]. by rewrite IH.
Qed.

(** ** Words and bytes *)

Abbreviation word_ok := (fun w : word => length w = 32).

Lemma pad_u32_ok n : length (pad_u32 n) = 32.
Proof. unfold pad_u32. by rewrite length_app, length_replicate, length_be_bytes. Qed.

Lemma zeros_forallb n : forallb (N.eqb 0) (replicate n 0%N) = true.
Proof. by induction n. Qed.

Lemma as_u32_pad n : (n < 2 ^ 32)%N -> as_u32 (pad_u32 n) = Ok n.
Proof.
  intros Hn. unfold as_u32, pad_u32. rewrite take_app_length' by (by rewrite length_replicate). rewrite zeros_forallb.
  rewrite drop_app_length' by (by rewrite length_replicate). by rewrite of_be_bytes.
Qed.

Definition pad32 (w : bytes) : word := w ++ replicate (32 - length w) 0%N.

Lemma chunks_map n fuel bs : chunks n fuel bs = map (fun i => take n (drop (n * i) bs)) (seq 0 fuel).
Proof.
  revert bs. induction fuel as [|fuel IH]; intros bs; [done|]. cbn [chunks seq map]. rewrite Nat.mul_0_r, drop_0. f_equal.
  rewrite IH, <- seq_shift, map_map. apply map_ext. intros i. rewrite drop_drop. f_equal. f_equal. lia.
Qed.

Abbreviation words_of len := ((len + 31) / 32).

Lemma words_of_bound len : len <= 32 * words_of len < len + 32.
Proof. pose proof (Nat.div_mod_eq (len + 31) 32). pose proof (Nat.mod_upper_bound (len + 31) 32). lia. Qed.

Lemma pad_fixed_bytes_chunks bs : pad_fixed_bytes bs = map pad32 (chunks 32 (words_of (length bs)) bs).
Proof.
  unfold pad_fixed_bytes. rewrite chunks_map, map_map. apply map_ext_in. intros i Hi. apply in_seq in Hi.
  pose proof (words_of_bound (length bs)) as Hb. pose proof (Nat.div_mod_eq (length bs) 32) as Hd.
  pose proof (Nat.mod_upper_bound (length bs) 32) as Hm. unfold pad32. set (n := words_of (length bs)) in *.
  assert (length (take 32 (drop (32 * i) bs)) = Nat.min 32 (length bs - 32 * i)) as Hl by (rewrite length_take, length_drop; lia).
  rewrite Hl. destruct (i =? n - 1) eqn:E; [apply Nat.eqb_eq in E|apply Nat.eqb_neq in E].
  - destruct (length bs mod 32 =? 0) eqn:E0; [apply Nat.eqb_eq in E0|apply Nat.eqb_neq in E0].
    + do 2 f_equal. lia.
    + assert (length bs - 32 * i = length bs mod 32) as -> by lia. rewrite Nat.min_r by lia. f_equal.
      rewrite !take_ge by (rewrite length_drop; lia). done.
  - do 2 f_equal. lia.
Qed.

Lemma concat_chunks fuel bs : length bs <= 32 * fuel -> take (length bs) (concat (map pad32 (chunks 32 fuel bs))) = bs.
Proof.
  revert bs. induction fuel as [|fuel IH]; intros bs Hl; [by destruct bs; cbn in *; [|lia]|].
  cbn [chunks map concat]. destruct (decide (length bs <= 32)) as [Hs|Hs].
  - rewrite (take_ge bs) by lia. unfold pad32 at 1. by rewrite <- app_assoc, take_app_length.
  - unfold pad32 at 1. rewrite length_take, Nat.min_l by lia. cbn [replicate Nat.sub]. rewrite app_nil_r.
    assert (length bs = length (take 32 bs) + length (drop 32 bs)) as -> by (rewrite length_take, length_drop; lia).
    rewrite take_app_add, IH by (rewrite length_drop; lia). apply take_drop.
Qed.

Lemma chunks_lengths n fuel bs : Forall (fun w => length w <= n) (chunks n fuel bs).
Proof. revert bs. induction fuel as [|fuel IH]; intros bs; cbn; constructor; [rewrite length_take; lia|done]. Qed.

Lemma length_chunks n fuel bs : length (chunks n fuel bs) = fuel.
Proof. revert bs. induction fuel as [|fuel IH]; intros bs; cbn; [done|]. by rewrite IH. Qed.

Lemma pad_fixed_bytes_ok bs : Forall word_ok (pad_fixed_bytes bs).
Proof.
  rewrite pad_fixed_bytes_chunks. apply Forall_map. eapply Forall_impl; [apply chunks_lengths|]. intros w Hw. cbn in *.
  unfold pad32. rewrite length_app, length_replicate. lia.
Qed.

Lemma length_pad_fixed_bytes bs : length (pad_fixed_bytes bs) = words_of (length bs).
Proof. by rewrite pad_fixed_bytes_chunks, length_map, length_chunks. Qed.

Lemma peek_drop slices p w rest : drop p slices = w :: rest -> peek slices p = Ok w.
Proof. intros H. unfold peek. rewrite <- (Nat.add_0_r p), <- lookup_drop, H. done. Qed.

Lemma read_words slices n : forall p i, n <= length (drop (p + i) slices) ->
  foldr (fun i rest => w ← peek slices (p + i); ws ← rest; Ok (w :: ws)) (Ok []) (seq i n) =
    (Ok (take n (drop (p + i) slices)) : outcome Error _).
Proof.
  induction n as [|n IH]; intros p i Hn; [done|]. cbn [seq foldr].
  destruct (drop (p + i) slices) as [|w rest] eqn:E; [cbn in Hn; lia|]. rewrite (peek_drop _ _ _ _ E). cbn [mbind outcome_bind].
  assert (drop (p + S i) slices = rest) as Er.
  { replace (p + S i) with (p + i + 1) by lia. by rewrite <- drop_drop, E. }
  rewrite IH; rewrite Er; [done|]. cbn in Hn. lia.
Qed.

Lemma take_bytes_ok slices p bs rest :
  drop p slices = pad_fixed_bytes bs ++ rest -> take_bytes slices p (length bs) = Ok (bs, p + words_of (length bs)).
Proof.
  intros H. unfold take_bytes. rewrite read_words; rewrite Nat.add_0_r, H.
  - cbn [mbind outcome_bind]. rewrite <- length_pad_fixed_bytes, take_app_length, pad_fixed_bytes_chunks at 1.
    rewrite concat_chunks; [done|]. pose proof (words_of_bound (length bs)). lia.
  - rewrite length_app, length_pad_fixed_bytes. lia.
Qed.

(** ** Tokens of a type, and types whose encoding is regular *)

Fixpoint typed (k : ParamKind) (t : Token) : Prop :=
  match k, t with
  | KAddress, Address a => length a = 20
  | KBytes, Bytes _ | KString, TString _ | KBool, Bool _ => True
  | KInt _, Int n | KUint _, Uint n => (n < 2 ^ 256)%N
  | KFixedBytes n, FixedBytes b => length b = n
  | KArray k, Array ts => (N.of_nat (length ts) < 2 ^ 32)%N /\ Forall (typed k) ts
  | KFixedArray k n, FixedArray ts => length ts = n /\ Forall (typed k) ts
  | KTuple ks, Tuple ts =>
      (fix go ks ts := match ks, ts with [], [] => True | k :: ks, t :: ts => typed k t /\ go ks ts | _, _ => False end) ks ts
  | _, _ => False
  end.

Lemma typed_tuple ks ts : typed (KTuple ks) (Tuple ts) <-> Forall2 typed ks ts.
Proof.
  cbn [typed]. revert ts. induction ks as [|k ks IH]; intros [|t ts]; split; intros H; try (by inversion H); try done.
  - destruct H as [H1 H2]. constructor; [done|]. by apply IH.
  - inversion H; subst. split; [done|]. by apply IH.
Qed.

(** The words of a value of a static type. *)
Fixpoint words (k : ParamKind) : nat :=
  match k with
  | KFixedBytes n => words_of n
  | KFixedArray k n => n * words k
  | KTuple ks => sum_list_with words ks
  | _ => 1
  end.

(** The encoder takes the head of a tuple without dynamic members to have as
    many words as members, and an empty array of a fixed size to be static. *)
Fixpoint regular (k : ParamKind) : bool :=
  match k with
  | KArray k => regular k
  | KFixedArray k n => regular k && ((0 <? n) || negb (kind_is_dynamic k))
  | KTuple ks => forallb regular ks && (kind_is_dynamic k || (sum_list_with words ks =? length ks))
  | _ => true
  end.

(** Words in the head of a value. *)
Definition head_words (k : ParamKind) : nat := if kind_is_dynamic k then 1 else words k.

(** ** The shape of an encoding *)

Record fits (k : ParamKind) (m : Mediate) : Prop := {
  fit_head_len : head_len m = u32 (32 * N.of_nat (head_words k));
  fit_head : forall off, length (head m off) = head_words k;
  fit_head_ok : forall off, Forall word_ok (head m off);
  fit_static : kind_is_dynamic k = false -> tail m = [] /\ forall off, head m off = head m 0;
  fit_dynamic : kind_is_dynamic k = true -> forall off, head m off = [pad_u32 off];
  fit_tail_len : tail_len m = u32 (32 * N.of_nat (length (tail m)));
  fit_tail_ok : Forall word_ok (tail m)
}.

Definition tails (ms : list Mediate) : list word := concat (map tail ms).
Definition all_head_words (ks : list ParamKind) : nat := sum_list_with head_words ks.

Lemma heads_len_fits ks ms : Forall2 fits ks ms -> heads_len ms = u32 (32 * N.of_nat (all_head_words ks)).
Proof.
  intros H. unfold heads_len. change 0%N with (u32 0).
  assert (forall acc, foldl (fun acc m => u32 (acc + head_len m)) (u32 acc) ms = u32 (acc + 32 * N.of_nat (all_head_words ks))) as ->;
    [|f_equal].
  induction H as [|k m ks ms Hk H IH]; intros acc; cbn [foldl]; [by rewrite N.add_0_r|].
  rewrite (fit_head_len _ _ Hk), u32_add_l, u32_add_r, IH. f_equal. unfold all_head_words. cbn. lia.
Qed.

Lemma length_heads ks ms : Forall2 fits ks ms -> forall off, length (heads ms off) = all_head_words ks.
Proof.
  induction 1 as [|k m ks ms Hk H IH]; intros off; [done|]. cbn [heads]. rewrite length_app, IH, (fit_head _ _ Hk). done.
Qed.

Lemma heads_ok ks ms : Forall2 fits ks ms -> forall off, Forall word_ok (heads ms off).
Proof.
  induction 1 as [|k m ks ms Hk H IH]; intros off; [done|]. cbn [heads]. apply Forall_app. split; [apply (fit_head_ok _ _ Hk)|done].
Qed.

Lemma tails_ok ks ms : Forall2 fits ks ms -> Forall word_ok (tails ms).
Proof. induction 1 as [|k m ks ms Hk H IH]; [done|]. apply Forall_app. split; [apply (fit_tail_ok _ _ Hk)|done]. Qed.

Lemma encode_head_tail_ok ks ms : Forall2 fits ks ms -> Forall word_ok (encode_head_tail ms).
Proof. intros H. apply Forall_app. split; [by eapply heads_ok|by eapply tails_ok]. Qed.

Lemma length_encode_head_tail ks ms :
  Forall2 fits ks ms -> length (encode_head_tail ms) = all_head_words ks + length (tails ms).
Proof. intros H. unfold encode_head_tail. by rewrite length_app, (length_heads _ _ H). Qed.

(** The length that the encoder computes for the parts of an array or tuple. *)
Lemma lens_fits ks ms acc :
  Forall2 fits ks ms ->
  foldl (fun acc m => u32 (u32 (acc + head_len m) + tail_len m)) (u32 acc) ms =
    u32 (acc + 32 * N.of_nat (length (encode_head_tail ms))).
Proof.
  intros H. rewrite (length_encode_head_tail _ _ H). revert acc.
  induction H as [|k m ks ms Hk H IH]; intros acc; cbn [foldl]; [by rewrite N.add_0_r|].
  rewrite (fit_head_len _ _ Hk), (fit_tail_len _ _ Hk), (u32_add_l acc), (u32_add_r acc), u32_add_l, u32_add_r, IH.
  f_equal. unfold all_head_words, tails. cbn [map concat sum_list_with]. rewrite length_app. lia.
Qed.

(** Without dynamic parts there are no tails, and offsets do not matter. *)
Lemma static_parts ks ms :
  Forall2 fits ks ms -> existsb kind_is_dynamic ks = false ->
  tails ms = [] /\ (forall off, heads ms off = concat (map (fun m => head m 0) ms)) /\ all_head_words ks = sum_list_with words ks.
Proof.
  induction 1 as [|k m ks ms Hk H IH]; intros Hs; [done|]. cbn [existsb] in Hs. apply orb_false_iff in Hs as [Hs1 Hs2].
  destruct (IH Hs2) as (H1 & H2 & H3). destruct (fit_static _ _ Hk Hs1) as [H4 H5]. split_and!.
  - unfold tails in *. cbn [map concat]. by rewrite H4, H1.
  - intros off. cbn [heads map concat]. by rewrite H5, H2.
  - unfold all_head_words, head_words in *. cbn [sum_list_with]. by rewrite Hs1, H3.
Qed.

(** ** Decoding what was encoded *)

(** Wherever the head of [m] stands in the words, with the tail at the offset
    that the head says, decoding gives [t] and goes on after the head. *)
Definition decodes (k : ParamKind) (t : Token) (m : Mediate) : Prop :=
  forall slices o toff X Y,
    drop o slices = head m (32 * N.of_nat toff) ++ X -> drop toff slices = tail m ++ Y -> toff <= length slices ->
    (32 * N.of_nat (toff + length (tail m)) < 2 ^ 32)%N ->
    decode_param k slices o = Ok (t, o + head_words k).

Lemma decode_params_ok ks ts ms :
  Forall2 fits ks ms -> Forall2 (fun k tm => decodes k tm.1 tm.2) ks (zip ts ms) -> length ts = length ks ->
  forall slices o toff X Y,
    drop o slices = heads ms (32 * N.of_nat toff) ++ X -> drop toff slices = tails ms ++ Y -> toff <= length slices ->
    (32 * N.of_nat (toff + length (tails ms)) < 2 ^ 32)%N ->
    decode_params ks slices o = Ok (ts, o + all_head_words ks).
Proof.
  intros H. revert ts. induction H as [|k m ks ms Hk H IH]; intros [|t ts] Hd Hl slices o toff X Y Ho Ht Hle Hb; try done.
  { unfold all_head_words. cbn. by rewrite Nat.add_0_r. }
  cbn [zip zip_with] in Hd. inversion Hd as [|? ? ? ? Hd1 Hd2]; subst. cbn [fst snd] in Hd1.
  cbn [heads] in Ho. unfold tails in Ht, Hb. cbn [map concat] in Ht, Hb. rewrite <- app_assoc in Ho, Ht.
  rewrite length_app in Hb. fold (tails ms) in Ht, Hb.
  rewrite decode_params_cons, (Hd1 slices o toff _ _ Ho Ht Hle) by lia. cbn [mbind outcome_bind].
  rewrite (fit_tail_len _ _ Hk), u32_add_r, u32_small in Ho by lia.
  rewrite (IH ts Hd2 ltac:(cbn in Hl; lia) slices (o + head_words k) (toff + length (tail m)) X Y).
  - cbn [mbind outcome_bind]. do 2 f_equal. unfold all_head_words. cbn. lia.
  - rewrite <- drop_drop, Ho. rewrite drop_app_length' by (symmetry; apply (fit_head _ _ Hk)). do 2 f_equal. lia.
  - by rewrite <- drop_drop, Ht, drop_app_length.
  - assert (length (drop toff slices) = length (tail m) + length (tails ms ++ Y)) as E by (by rewrite Ht, length_app).
    rewrite length_drop in E. lia.
  - lia.
Qed.

(** The parts of an array or tuple in a region of their own. *)
Lemma decode_region ks ts ms slices Y :
  Forall2 fits ks ms -> Forall2 (fun k tm => decodes k tm.1 tm.2) ks (zip ts ms) -> length ts = length ks ->
  slices = encode_head_tail ms ++ Y -> (32 * N.of_nat (length (encode_head_tail ms)) < 2 ^ 32)%N ->
  exists n, decode_params ks slices 0 = Ok (ts, n).
Proof.
  intros H Hd Hl Hs Hb. rewrite (length_encode_head_tail _ _ H) in Hb. eexists.
  apply (decode_params_ok ks ts ms H Hd Hl slices 0 (all_head_words ks) (tails ms ++ Y) Y).
  - rewrite drop_0, Hs. unfold encode_head_tail. rewrite (heads_len_fits _ _ H), u32_small by lia. by rewrite <- app_assoc.
  - rewrite Hs. unfold encode_head_tail. rewrite <- app_assoc, drop_app_length'; [done|]. by rewrite (length_heads _ _ H).
  - rewrite Hs, length_app, (length_encode_head_tail _ _ H). lia.
  - lia.
Qed.

Lemma offset_at_ok slices o toff X :
  drop o slices = pad_u32 (32 * N.of_nat toff) :: X -> (32 * N.of_nat toff < 2 ^ 32)%N -> offset_at slices o = Ok toff.
Proof.
  intros Ho Hb. unfold offset_at. rewrite (peek_drop _ _ _ _ Ho). cbn [mbind outcome_bind]. rewrite as_u32_pad by done.
  cbn [mbind outcome_bind]. rewrite N.mul_comm, N.div_mul, Nat2N.id by done. done.
Qed.

Lemma length_at_ok slices o toff len X Y :
  drop o slices = pad_u32 (32 * N.of_nat toff) :: X -> drop toff slices = pad_u32 (u32 (N.of_nat len)) :: Y ->
  (32 * N.of_nat toff < 2 ^ 32)%N -> (N.of_nat len < 2 ^ 32)%N -> length_at slices o = Ok (toff, len).
Proof.
  intros Ho Ht Hb Hl. unfold length_at. rewrite (offset_at_ok _ _ _ _ Ho Hb). cbn [mbind outcome_bind].
  rewrite (peek_drop _ _ _ _ Ht). cbn [mbind outcome_bind]. rewrite u32_small, as_u32_pad by done.
  cbn [mbind outcome_bind]. by rewrite Nat2N.id.
Qed.

(** A value of one word. *)
Lemma decodes_word k t w :
  kind_is_dynamic k = false -> words k = 1 -> length w = 32 ->
  (forall slices o, peek slices o = Ok w -> decode_param k slices o = Ok (t, S o)) ->
  fits k (Raw [w]) /\ decodes k t (Raw [w]).
Proof.
  intros Hk Hw Hl H. split.
  - split; cbn; unfold head_words; rewrite ?Hk, ?Hw; try done. intros _. by repeat constructor.
  - intros slices o toff X Y Ho _ _ _. cbn [head] in Ho. unfold head_words. rewrite Hk, Hw.
    rewrite (H slices o), Nat.add_1_r; [done|]. by eapply peek_drop.
Qed.

Lemma decodes_bytes k t bs :
  kind_is_dynamic k = true ->
  (forall slices o, decode_param k slices o =
     ('(p, len) ← length_at slices o; '(b, _) ← take_bytes slices (S p) len; Ok (t b, S o))) ->
  fits k (Prefixed (pad_bytes bs)) /\ decodes k (t bs) (Prefixed (pad_bytes bs)).
Proof.
  intros Hk H. unfold pad_bytes. split.
  - split; cbn [head_len head tail tail_len]; unfold head_words; rewrite ?Hk; try done.
    + intros off. by repeat constructor.
    + rewrite N.mul_comm, u32_mul_r. done.
    + constructor; [apply pad_u32_ok|apply pad_fixed_bytes_ok].
  - intros slices o toff X Y Ho Ht Hle Hb. cbn [head tail app] in Ho, Ht, Hb. cbn [length] in Hb. rewrite length_pad_fixed_bytes in Hb.
    pose proof (words_of_bound (length bs)). rewrite H, (length_at_ok _ _ _ _ _ _ Ho Ht) by lia. cbn [mbind outcome_bind].
    rewrite (take_bytes_ok _ _ _ Y).
    + cbn [mbind outcome_bind]. unfold head_words. by rewrite Hk, Nat.add_1_r.
    + replace (S toff) with (toff + 1) by lia. by rewrite <- drop_drop, Ht.
Qed.

Lemma slice_from_ok slices o X : drop o slices = X -> o <= length slices -> slice_from slices o = Ok X.
Proof. intros <- H. unfold slice_from. by rewrite (proj2 (Nat.leb_le _ _) H). Qed.

Lemma drop_cons_lt {A} (l : list A) n x r : drop n l = x :: r -> S n <= length l /\ drop (S n) l = r.
Proof.
  intros H. split.
  - assert (length (drop n l) = S (length r)) as E by (by rewrite H). rewrite length_drop in E. lia.
  - replace (S n) with (n + 1) by lia. by rewrite <- drop_drop, H.
Qed.

(** Tokens are dynamic as their types are. *)
Lemma dynamic_typed k : regular k = true -> forall t, typed k t -> token_is_dynamic t = kind_is_dynamic k.
Proof.
  induction k as [| | | | | |k IH|n|k n IH|ks IH] using kind_induction; intros Hr [] Ht; try done.
  - cbn [regular] in Hr. apply andb_true_iff in Hr as [Hr Hn]. destruct Ht as [Hl Ht]. cbn [token_is_dynamic kind_is_dynamic].
    destruct ts as [|t ts]; [cbn in Hl; subst n; cbn in *; by destruct (kind_is_dynamic k)|].
    cbn [existsb]. inversion Ht as [|? ? H1 H2]; subst. rewrite IH by done. destruct (kind_is_dynamic k) eqn:E; [done|]. cbn.
    induction H2 as [|t' ts' H' H2 IH2]; [done|]. cbn [existsb]. rewrite IH by done. cbn. apply IH2; by constructor.
  - apply typed_tuple in Ht. cbn [regular] in Hr. apply andb_true_iff in Hr as [Hr _]. cbn [token_is_dynamic kind_is_dynamic].
    revert IH Hr. induction Ht as [|k t ks ts H1 H2 IH2]; intros IH Hr; [done|]. inversion IH as [|? ? IH1 IH3]; subst.
    cbn [forallb existsb] in *. apply andb_true_iff in Hr as [Hr1 Hr2]. by rewrite IH1, IH2.
Qed.

(** The parts of an aggregate whose encodings fit and decode. *)
Definition encodes (k : ParamKind) : Prop :=
  forall t, typed k t -> fits k (encode_token t) /\ decodes k t (encode_token t).

Lemma encode_parts ks ts :
  Forall encodes ks -> Forall2 typed ks ts ->
  Forall2 fits ks (map encode_token ts) /\
  Forall2 (fun k tm => decodes k tm.1 tm.2) ks (zip ts (map encode_token ts)) /\ length ts = length ks.
Proof.
  intros He Ht. revert He. induction Ht as [|k t ks ts H1 H2 IH]; intros He; [done|].
  inversion He as [|? ? He1 He2]; subst. destruct (IH He2) as (A & B & C). destruct (He1 t H1) as [D E].
  cbn [map zip zip_with length]. split_and!; [by constructor|by constructor|by rewrite C].
Qed.

Lemma typed_replicate k ts : Forall (typed k) ts -> Forall2 typed (replicate (length ts) k) ts.
Proof. by induction 1; constructor. Qed.

Lemma encode_parts_repeat k ts :
  encodes k -> Forall (typed k) ts ->
  Forall2 fits (replicate (length ts) k) (map encode_token ts) /\
  Forall2 (fun k tm => decodes k tm.1 tm.2) (replicate (length ts) k) (zip ts (map encode_token ts)) /\
  length ts = length (replicate (length ts) k).
Proof. intros Hk Ht. apply encode_parts; [by apply Forall_replicate|by apply typed_replicate]. Qed.

Lemma all_head_words_replicate k n : all_head_words (replicate n k) = n * head_words k.
Proof. unfold all_head_words. induction n as [|n IH]; [done|]. cbn [replicate sum_list_with]. rewrite IH. lia. Qed.

Lemma dynamic_replicate k n : existsb kind_is_dynamic (replicate n k) = (0 <? n) && kind_is_dynamic k.
Proof. induction n as [|n IH]; [done|]. cbn [replicate existsb]. rewrite IH. by destruct (kind_is_dynamic k), n. Qed.

(** A value whose parts have a region of their own. *)
Lemma fits_prefixed k m ks ms :
  kind_is_dynamic k = true -> Forall2 fits ks ms -> tail m = encode_head_tail ms ->
  (forall off, head m off = [pad_u32 off]) -> head_len m = 32%N ->
  tail_len m = foldl (fun acc m => u32 (u32 (acc + head_len m) + tail_len m)) 0%N ms -> fits k m.
Proof.
  intros Hk H Ht Hh Hl Hlen. split.
  - unfold head_words. by rewrite Hk, Hl.
  - intros off. rewrite Hh. unfold head_words. by rewrite Hk.
  - intros off. rewrite Hh. constructor; [apply pad_u32_ok|done].
  - by rewrite Hk.
  - done.
  - rewrite Hlen, Ht. change 0%N with (u32 0) at 1. by rewrite (lens_fits _ _ _ H).
  - rewrite Ht. by eapply encode_head_tail_ok.
Qed.

Lemma region_dynamic k slices o toff X Y :
  kind_is_dynamic k = true -> drop o slices = pad_u32 (32 * N.of_nat toff) :: X -> drop toff slices = Y ->
  toff <= length slices -> (32 * N.of_nat toff < 2 ^ 32)%N -> region k slices o = Ok (Y, 0).
Proof.
  intros Hk Ho Ht Hle Hb. unfold region. rewrite Hk, (offset_at_ok _ _ _ _ Ho Hb). cbn [mbind outcome_bind].
  by rewrite (slice_from_ok _ _ _ Ht Hle).
Qed.

Lemma encodes_array k : encodes k -> encodes (KArray k).
Proof.
  intros Hk [] Ht; try done. destruct Ht as [Hlen Ht]. destruct (encode_parts_repeat k ts Hk Ht) as (Hf & Hd & Hl).
  set (ms := map encode_token ts) in *. cbn [encode_token]. fold ms.
  assert (length ms = length ts) as Hms by apply length_map. split.
  - split; cbn [head_len head]; try done.
    + intros off. by repeat constructor.
    + change (tail_len (PrefixedArrayWithLength ms)) with (foldl (fun acc m => u32 (u32 (acc + head_len m) + tail_len m)) (u32 32) ms).
      rewrite (lens_fits _ _ _ Hf). f_equal. change (tail (PrefixedArrayWithLength ms)) with (pad_u32 (u32 (N.of_nat (length ms))) :: encode_head_tail ms).
      cbn [length]. lia.
    + constructor; [apply pad_u32_ok|]. by eapply encode_head_tail_ok.
  - intros slices o toff X Y Ho Htl Hle Hb. cbn [head app] in Ho.
    change (tail (PrefixedArrayWithLength ms)) with (pad_u32 (u32 (N.of_nat (length ms))) :: encode_head_tail ms) in Htl, Hb.
    cbn [app length] in Htl, Hb. rewrite Hms in Htl. apply drop_cons_lt in Htl as Hs. destruct Hs as [Hs1 Hs2].
    rewrite decode_param_array, (length_at_ok _ _ _ _ _ _ Ho Htl) by lia. cbn [mbind outcome_bind].
    rewrite (slice_from_ok _ _ _ Hs2 Hs1). cbn [mbind outcome_bind]. rewrite decode_repeat_params.
    destruct (decode_region _ ts ms _ Y Hf Hd Hl eq_refl ltac:(lia)) as [n ->]. cbn [mbind outcome_bind]. by rewrite Nat.add_1_r.
Qed.

Lemma encodes_fixed_array k n :
  encodes k -> regular (KFixedArray k n) = true -> encodes (KFixedArray k n).
Proof.
  intros Hk Hr t Ht. pose proof (dynamic_typed _ Hr t Ht) as Hdyn. destruct t as [| | | | | | |ts| |]; try done.
  destruct Ht as [<- Ht]. destruct (encode_parts_repeat k ts Hk Ht) as (Hf & Hd & Hl).
  set (ms := map encode_token ts) in *. cbn [encode_token]. fold ms. rewrite Hdyn.
  cbn [regular] in Hr. apply andb_true_iff in Hr as [_ Hr]. cbn [kind_is_dynamic] in *.
  destruct (kind_is_dynamic k) eqn:Ek.
  - split; [by eapply fits_prefixed|]. intros slices o toff X Y Ho Htl Hle Hb. cbn [head app] in Ho.
    change (tail (PrefixedArray ms)) with (encode_head_tail ms) in Htl, Hb.
    rewrite decode_param_fixed_array, (region_dynamic (KFixedArray k (length ts)) _ _ _ _ _ Ek Ho Htl Hle) by lia. cbn [mbind outcome_bind].
    rewrite decode_repeat_params.
    destruct (decode_region _ ts ms _ Y Hf Hd Hl eq_refl ltac:(lia)) as [n ->].
    cbn [mbind outcome_bind kind_is_dynamic]. unfold head_words. cbn [kind_is_dynamic]. by rewrite Ek, Nat.add_1_r.
  - destruct (static_parts _ _ Hf) as (Hs1 & Hs2 & Hs3); [by rewrite dynamic_replicate, Ek, andb_false_r|].
    assert (encode_head_tail ms = heads ms 0) as He by (unfold encode_head_tail; fold (tails ms); by rewrite Hs1, app_nil_r, !Hs2).
    assert (length (encode_head_tail ms) = length ts * words k) as Hw.
    { rewrite (length_encode_head_tail _ _ Hf), Hs1, all_head_words_replicate. unfold head_words. rewrite Ek. cbn. lia. }
    assert (head_words (KFixedArray k (length ts)) = length ts * words k) as Hh by (unfold head_words; cbn [kind_is_dynamic]; by rewrite Ek).
    split.
    + split; cbn [head_len head tail tail_len]; rewrite ?Hh; try done.
      * rewrite Hw, u32_mul_r. done.
      * intros _. by eapply encode_head_tail_ok.
      * cbn [kind_is_dynamic]. by rewrite Ek.
    + intros slices o toff X Y Ho _ _ _. cbn [head] in Ho. rewrite decode_param_fixed_array. unfold region. cbn [kind_is_dynamic]. rewrite Ek.
      cbn [mbind outcome_bind]. rewrite decode_repeat_params, He in *.
      rewrite (decode_params_ok _ ts ms Hf Hd Hl slices o 0 X slices Ho); [|by rewrite Hs1, drop_0|lia|by rewrite Hs1].
      cbn [mbind outcome_bind]. rewrite all_head_words_replicate, Hh. unfold head_words. by rewrite Ek.
Qed.

Lemma encodes_tuple ks : Forall encodes ks -> regular (KTuple ks) = true -> encodes (KTuple ks).
Proof.
  intros Hks Hr t Ht. pose proof (dynamic_typed _ Hr t Ht) as Hdyn. destruct t as [| | | | | | | | |ts]; try done.
  apply typed_tuple in Ht. destruct (encode_parts ks ts Hks Ht) as (Hf & Hd & Hl).
  set (ms := map encode_token ts) in *. cbn [encode_token]. fold ms. rewrite Hdyn.
  cbn [regular] in Hr. apply andb_true_iff in Hr as [_ Hr]. destruct (kind_is_dynamic (KTuple ks)) eqn:Ek.
  - split; [by eapply fits_prefixed|]. intros slices o toff X Y Ho Htl Hle Hb. cbn [head app] in Ho.
    change (tail (PrefixedTuple ms)) with (encode_head_tail ms) in Htl, Hb.
    rewrite decode_param_tuple, (region_dynamic _ _ _ _ _ _ Ek Ho Htl Hle) by lia. cbn [mbind outcome_bind].
    destruct (decode_region _ ts ms _ Y Hf Hd Hl eq_refl ltac:(lia)) as [n ->].
    cbn [mbind outcome_bind]. unfold head_words. by rewrite Ek, Nat.add_1_r.
  - destruct (static_parts _ _ Hf Ek) as (Hs1 & Hs2 & Hs3). cbn [orb] in Hr. apply Nat.eqb_eq in Hr.
    assert (head_words (KTuple ks) = length ks) as Hh by (unfold head_words; rewrite Ek; exact Hr).
    assert (length ms = length ks) as Hms by (unfold ms; by rewrite length_map).
    split.
    + split; cbn [head_len head tail tail_len]; rewrite ?Hh, ?Ek; try done.
      * by rewrite Hms, u32_mul_r.
      * intros off. rewrite <- (Hs2 0%N), (length_heads _ _ Hf), Hs3. exact Hr.
      * intros off. rewrite <- (Hs2 0%N). by eapply heads_ok.
    + intros slices o toff X Y Ho _ _ _. cbn [head] in Ho. rewrite <- (Hs2 (32 * N.of_nat 0)%N) in Ho.
      rewrite decode_param_tuple. unfold region. rewrite Ek. cbn [mbind outcome_bind].
      rewrite (decode_params_ok _ ts ms Hf Hd Hl slices o 0 X slices Ho); [|by rewrite Hs1, drop_0|lia|by rewrite Hs1].
      cbn [mbind outcome_bind]. by rewrite Hs3, Hh, Hr.
Qed.

Lemma encodes_regular k : regular k = true -> encodes k.
Proof.
  induction k as [| |n|n| | |k IH|n|k n IH|ks IH] using kind_induction; intros Hr.
  - intros [] Ht; try done. cbn in Ht. apply decodes_word; try done; [by rewrite length_app, Ht|].
    intros slices o Hp. cbn. rewrite Hp. cbn. done.
  - intros [] Ht; try done. by apply (decodes_bytes _ Bytes).
  - intros [] Ht; try done. cbn [typed] in Ht. apply decodes_word; try done.
    intros slices o Hp. cbn [decode_param]. rewrite Hp. cbn [mbind outcome_bind]. by rewrite of_be_bytes.
  - intros [] Ht; try done. cbn [typed] in Ht. apply decodes_word; try done.
    intros slices o Hp. cbn [decode_param]. rewrite Hp. cbn [mbind outcome_bind]. by rewrite of_be_bytes.
  - intros [] Ht; try done. apply decodes_word; try done. intros slices o Hp. cbn [decode_param]. rewrite Hp. by destruct b.
  - intros [] Ht; try done. by apply (decodes_bytes _ TString).
  - apply encodes_array. by apply IH.
  - intros [] Ht; try done. cbn [typed] in Ht. subst n. cbn [encode_token]. split.
    + split; cbn [head_len head tail tail_len]; unfold head_words; cbn [kind_is_dynamic words]; try done.
      * by rewrite length_pad_fixed_bytes, u32_mul_r.
      * intros _. apply length_pad_fixed_bytes.
      * intros _. apply pad_fixed_bytes_ok.
    + intros slices o toff X Y Ho _ _ _. cbn [head] in Ho. cbn [decode_param]. rewrite (take_bytes_ok _ _ _ _ Ho). done.
  - apply encodes_fixed_array; [|done]. apply IH. cbn [regular] in Hr. by apply andb_true_iff in Hr as [? _].
  - apply encodes_tuple; [|done]. cbn [regular] in Hr. apply andb_true_iff in Hr as [Hr _]. clear -IH Hr.
    induction IH as [|k ks H1 H2 IH2]; [done|]. cbn [forallb] in Hr. apply andb_true_iff in Hr as [? ?]. constructor; auto.
Qed.

Lemma length_concat_words ws : Forall word_ok ws -> length (concat ws) = 32 * length ws.
Proof. induction 1 as [|w ws Hw Hws IH]; [done|]. cbn [concat length]. rewrite length_app, IH, Hw. lia. Qed.

Lemma slice_data_words ws : Forall word_ok ws -> slice_data (concat ws) = Ok ws.
Proof.
  intros H. unfold slice_data. rewrite (length_concat_words _ H).
  replace (32 * length ws) with (length ws * 32) by lia. rewrite Nat.Div0.mod_mul, Nat.div_mul by done. cbn [Nat.eqb].
  by rewrite chunks_concat.
Qed.

Lemma decode_encode_ok (ks : list ParamKind) (ts : list Token) :
  forallb regular ks = true -> Forall2 typed ks ts -> (N.of_nat (length (encode ts)) < 2 ^ 32)%N ->
  encode ts <> [] \/ forallb is_empty_bytes_valid_encoding ks = true ->
  decode ks (encode ts) = Ok ts.
Proof.
  intros Hr Ht Hb He.
  assert (Forall encodes ks) as Hks by (apply forallb_Forall in Hr; eapply Forall_impl; [exact Hr|]; intros k; apply encodes_regular).
  destruct (encode_parts ks ts Hks Ht) as (Hf & Hd & Hl). unfold decode.
  replace (negb _ && bool_decide _) with false by (destruct He as [He|He]; [rewrite (bool_decide_false _ He); by rewrite andb_false_r|by rewrite He]).
  unfold encode in *. set (ms := map encode_token ts) in *. pose proof (encode_head_tail_ok _ _ Hf) as Hok.
  rewrite (length_concat_words _ Hok) in Hb. rewrite (slice_data_words _ Hok). cbn [mbind outcome_bind].
  destruct (decode_region ks ts ms (encode_head_tail ms) [] Hf Hd Hl) as [n ->]; [by rewrite app_nil_r|lia|done].
Qed.

(** C6. Decoding inverts encoding: a list of tokens of the given types, encoded
    and decoded again, comes back as it was.  The encoding has to fit into the
    32 bits of an offset; an empty one is refused by the decoder unless the
    types are empty; and the types are regular: a tuple without dynamic
    members has one word per member, and a fixed array of a dynamic type is
    not empty. *)
Theorem decode_encode (ks : list ParamKind) (ts : list Token) :
  forallb regular ks = true -> Forall2 typed ks ts -> (N.of_nat (length (encode ts)) < 2 ^ 32)%N ->
  encode ts <> [] \/ forallb is_empty_bytes_valid_encoding ks = true ->
  decode ks (encode ts) = Ok ts.
Proof. apply decode_encode_ok. Qed.

(** ** The tokens decoded have the types asked for *)

Lemma type_check_array k ts :
  Forall (fun t => type_check t k = Ok true) ts -> type_check (Array ts) (KArray k) = Ok true.
Proof. intros H. cbn [type_check]. induction H as [|t ts Ht H IH]; [done|]. by rewrite Ht. Qed.

Lemma type_check_fixed_array k ts :
  Forall (fun t => type_check t k = Ok true) ts -> type_check (FixedArray ts) (KFixedArray k (length ts)) = Ok true.
Proof. intros H. cbn [type_check]. rewrite Nat.eqb_refl. induction H as [|t ts Ht H IH]; [done|]. by rewrite Ht. Qed.

Lemma type_check_tuple ks ts :
  Forall2 (fun k t => type_check t k = Ok true) ks ts -> type_check (Tuple ts) (KTuple ks) = Ok true.
Proof. intros H. cbn [type_check]. induction H as [|k t ks ts Ht H IH]; [done|]. by rewrite Ht. Qed.

Lemma decode_params_Forall2 (P : ParamKind -> Token -> Prop) ks :
  Forall (fun k => forall slices o t o', decode_param k slices o = Ok (t, o') -> P k t) ks ->
  forall slices o ts o', decode_params ks slices o = Ok (ts, o') -> Forall2 P ks ts.
Proof.
  induction 1 as [|k ks Hk H IH]; intros slices o ts o' E; [by injection E as <- _|]. rewrite decode_params_cons in E.
  apply bind_ok in E as ([t o1] & E1 & E). apply bind_ok in E as ([ts' o2] & E2 & E). injection E as <- _.
  constructor; [by eapply Hk|by eapply IH].
Qed.

Lemma decode_repeat_Forall (P : Token -> Prop) k slices n o ts o' :
  (forall slices o t o', decode_param k slices o = Ok (t, o') -> P t) ->
  decode_repeat k slices n o = Ok (ts, o') -> length ts = n /\ Forall P ts.
Proof.
  intros H E. rewrite decode_repeat_params in E.
  apply (decode_params_Forall2 (fun _ => P)) in E; [|by apply Forall_replicate].
  split; [by rewrite <- (Forall2_length _ _ _ E), length_replicate|]. eapply Forall2_Forall_r; [exact E|]. by apply Forall_forall.
Qed.

Lemma take_bytes_length slices p len b o : take_bytes slices p len = Ok (b, o) -> length b <= len.
Proof. unfold take_bytes. intros E. apply bind_ok in E as (ws & _ & E). injection E as <- _. rewrite length_take. lia. Qed.

Lemma decode_param_typed k : forall slices o t o', decode_param k slices o = Ok (t, o') -> type_check t k = Ok true.
Proof.
  induction k as [| |n|n| | |k IH|n|k n IH|ks IH] using kind_induction; intros slices o t o' E.
  1-6: cbn [decode_param] in E; repeat (apply bind_ok in E as ([] & _ & E) || apply bind_ok in E as (? & _ & E)); by injection E as <- _.
  - rewrite decode_param_array in E. apply bind_ok in E as ([? ?] & _ & E). apply bind_ok in E as (? & _ & E).
    apply bind_ok in E as ([ts ?] & E1 & E). injection E as <- _. apply type_check_array. by apply (decode_repeat_Forall (fun t => type_check t k = Ok true)) in E1 as [_ ?].
  - cbn [decode_param] in E. apply bind_ok in E as ([b ?] & E1 & E). injection E as <- _. cbn [type_check].
    by rewrite (proj2 (Nat.leb_le _ _) (take_bytes_length _ _ _ _ _ E1)).
  - rewrite decode_param_fixed_array in E. apply bind_ok in E as ([? ?] & _ & E).
    apply bind_ok in E as ([ts ?] & E1 & E). injection E as <- _. apply (decode_repeat_Forall (fun t => type_check t k = Ok true)) in E1 as [<- ?]; [|done].
    by apply type_check_fixed_array.
  - rewrite decode_param_tuple in E. apply bind_ok in E as ([? ?] & _ & E).
    apply bind_ok in E as ([ts ?] & E1 & E). injection E as <- _. apply type_check_tuple.
    by eapply (decode_params_Forall2 (fun k t => type_check t k = Ok true)).
Qed.

Lemma decode_types ks data ts : decode ks data = Ok ts -> Forall2 (fun k t => type_check t k = Ok true) ks ts.
Proof.
  unfold decode. destruct (_ && _); [done|]. intros E. apply bind_ok in E as (slices & _ & E).
  apply bind_ok in E as ([ts' o] & E & E'). injection E' as ->.
  eapply (decode_params_Forall2 (fun k t => type_check t k = Ok true)) in E; [exact E|].
  apply Forall_forall. intros. by eapply decode_param_typed.
Qed.

(** C16. What the decoder returns, on any bytes, are tokens of the types that it
    was asked for, as the check of types of the library sees them; that check
    does not panic on them. *)
Theorem decode_typed (ks : list ParamKind) (data : bytes) (ts : list Token) :
  decode ks data = Ok ts -> types_check ts ks = Ok true.
Proof.
  intros E%decode_types. induction E as [|k t ks ts Ht H IH]; [done|]. cbn [types_check].
  rewrite (Forall2_length _ _ _ H), Nat.eqb_refl, Ht. done.
Qed.

(** ** The encoding consists of bytes *)

Section token_ind.
  Variable P : Token -> Prop.
  Hypothesis (HAddress : forall a, P (Address a)) (HFixedBytes : forall b, P (FixedBytes b)) (HBytes : forall b, P (Bytes b))
    (HInt : forall n, P (Int n)) (HUint : forall n, P (Uint n)) (HBool : forall b, P (Bool b)) (HString : forall s, P (TString s))
    (HFixedArray : forall ts, Forall P ts -> P (FixedArray ts)) (HArray : forall ts, Forall P ts -> P (Array ts))
    (HTuple : forall ts, Forall P ts -> P (Tuple ts)).

Fixpoint token_induction (t : Token) : P t :=
  let go := fix go ts : Forall P ts :=
    match ts with [] => Forall_nil_2 P | t :: ts => Forall_cons_2 P t ts (token_induction t) (go ts) end in
  match t with
  | Address a => HAddress a | FixedBytes b => HFixedBytes b | Bytes b => HBytes b | Int n => HInt n | Uint n => HUint n
  | Bool b => HBool b | TString s => HString s
  | FixedArray ts => HFixedArray ts (go ts) | Array ts => HArray ts (go ts) | Tuple ts => HTuple ts (go ts)
  end.
End token_ind.

(** The texts and addresses inside a token are made of bytes. *)
Fixpoint made_of_bytes (t : Token) : Prop :=
  match t with
  | Address b | FixedBytes b | Bytes b | TString b => Forall byte b
  | FixedArray ts | Array ts | Tuple ts => foldr (fun t P => made_of_bytes t /\ P) True ts
  | _ => True
  end.

Abbreviation byte_words := (Forall (Forall byte)).
Definition byte_mediate (m : Mediate) : Prop := (forall o, byte_words (head m o)) /\ byte_words (tail m).

Lemma zeros_bytes n : Forall byte (replicate n 0%N).
Proof. by apply Forall_replicate. Qed.

Lemma pad_u32_bytes n : Forall byte (pad_u32 n).
Proof. unfold pad_u32. rewrite Forall_app. split; [apply zeros_bytes | apply be_bytes_byte]. Qed.

Lemma pad_fixed_bytes_bytes b : Forall byte b -> byte_words (pad_fixed_bytes b).
Proof.
  intros H. unfold pad_fixed_bytes. rewrite Forall_map. apply Forall_forall. intros i _. cbn. rewrite Forall_app.
  split; [by apply Forall_take, Forall_drop | apply zeros_bytes].
Qed.

Lemma pad_bytes_bytes b : Forall byte b -> byte_words (pad_bytes b).
Proof. intros H. constructor; [apply pad_u32_bytes | by apply pad_fixed_bytes_bytes]. Qed.

Lemma heads_bytes ms : Forall byte_mediate ms -> forall o, byte_words (heads ms o).
Proof. induction 1 as [|m ms [Hm _] _ IH]; intros o; [done|]. cbn [heads]. rewrite Forall_app. split; [apply Hm | apply IH]. Qed.

Lemma encode_head_tail_bytes ms : Forall byte_mediate ms -> byte_words (encode_head_tail ms).
Proof.
  intros H. unfold encode_head_tail. rewrite Forall_app. split; [by apply heads_bytes|].
  apply Forall_concat. rewrite Forall_map. eapply Forall_impl; [exact H|]. by intros m [_ ?].
Qed.

Lemma made_of_bytes_all ts : foldr (fun t P => made_of_bytes t /\ P) True ts -> Forall made_of_bytes ts.
Proof. induction ts as [|t ts IH]; [done|]. cbn. intros [? ?]. constructor; auto. Qed.

Lemma Forall_mp {A} (P Q : A -> Prop) xs : Forall (fun x => P x -> Q x) xs -> Forall P xs -> Forall Q xs.
Proof. induction 1; intros HP; [done|]. apply Forall_cons in HP as [? ?]. constructor; auto. Qed.

Lemma encode_token_bytes t : made_of_bytes t -> byte_mediate (encode_token t).
Proof.
  assert (Hraw : forall w, Forall byte w -> byte_mediate (Raw [w])) by (intros w Hw; split; [intros o; by constructor|done]).
  assert (Hpre : forall m ws, byte_words ws -> (tail m = ws) -> (forall o, head m o = [pad_u32 o]) -> byte_mediate m).
  { intros m ws Hws <- Hh. split; [|done]. intros o. rewrite Hh. constructor; [apply pad_u32_bytes|done]. }
  assert (Hgo : forall ts, Forall (fun t => made_of_bytes t -> byte_mediate (encode_token t)) ts ->
    foldr (fun t P => made_of_bytes t /\ P) True ts -> Forall byte_mediate (map encode_token ts)).
  { intros ts H Ht%made_of_bytes_all. rewrite Forall_map. by eapply Forall_mp. }
  induction t as [a|b|b|n|n|b|s|ts IH|ts IH|ts IH] using token_induction; cbn [made_of_bytes]; intros Hb; cbn [encode_token].
  - apply Hraw. rewrite Forall_app. split; [apply zeros_bytes|done].
  - split; [intros o; by apply pad_fixed_bytes_bytes|done].
  - by eapply Hpre; [apply pad_bytes_bytes, Hb|..].
  - apply Hraw, be_bytes_byte.
  - apply Hraw, be_bytes_byte.
  - apply Hraw. rewrite Forall_app. split; [apply zeros_bytes|]. constructor; [by destruct b|done].
  - by eapply Hpre; [apply pad_bytes_bytes, Hb|..].
  - destruct (token_is_dynamic _).
    + by eapply Hpre; [apply encode_head_tail_bytes, Hgo; done|..].
    + split; [intros o; by apply encode_head_tail_bytes, Hgo|done].
  - eapply Hpre; [|done|done]. cbn [tail]. constructor; [apply pad_u32_bytes | by apply encode_head_tail_bytes, Hgo].
  - destruct (token_is_dynamic _).
    + by eapply Hpre; [apply encode_head_tail_bytes, Hgo; done|..].
    + split; [|done]. intros o. cbn [head]. apply Forall_concat. rewrite Forall_map.
      eapply Forall_impl; [by apply Hgo|]. intros m [Hm _]. apply Hm.
Qed.

Lemma encode_bytes ts : Forall made_of_bytes ts -> Forall byte (encode ts).
Proof.
  intros H. unfold encode. apply Forall_concat, encode_head_tail_bytes. rewrite Forall_map.
  eapply Forall_impl; [exact H|]. intros t. apply encode_token_bytes.
Qed.

(** ** Examples *)

Definition address_of (b : N) : bytes := replicate 20 b.

(** The dynamic array of the unit tests, by its words. *)
Example encode_two_addresses :
  encode_head_tail [encode_token (Array [Address (address_of 17); Address (address_of 34)])] =
    [pad_u32 32; pad_u32 2; replicate 12 0%N ++ address_of 17; replicate 12 0%N ++ address_of 34].
Proof. by vm_compute. Qed.

(** A static tuple with a static tuple inside, before a value with an offset:
    the offset points into the middle of the data, and what is decoded is not
    what was encoded. *)
Definition nested : list Token := [Tuple [Tuple [Uint 1; Uint 2]]; Bytes [7%N]].

Example nested_static_tuple_breaks :
  forallb regular [KTuple [KTuple [KUint 256; KUint 256]]; KBytes] = false /\
  decode [KTuple [KTuple [KUint 256; KUint 256]]; KBytes] (encode nested) =
    Ok [Tuple [Tuple [Uint 1; Uint 2]]; Bytes (replicate 31 0%N ++ [1%N; 7%N] ++ replicate 31 0%N)].
Proof. by vm_compute. Qed.

(** An empty fixed array of a dynamic type is encoded as nothing and decoded as
    an offset. *)
Example empty_fixed_array_breaks :
  regular (KFixedArray KBytes 0) = false /\
  decode [KFixedArray KBytes 0; KUint 256] (encode [FixedArray []; Uint 5]) = Err InvalidData.
Proof. by vm_compute. Qed.

(** An offset beyond the data panics instead of returning an error. *)
Example decode_panics : decode [KTuple [KBytes]] (pad_u32 64) = Panic.
Proof. by vm_compute. Qed.

(** A block with one transaction of the quantum portal. *)
Definition block_kinds : list ParamKind :=
  [KTuple [KUint 256; KUint 256; KUint 256];
   KArray (KTuple [KUint 256; KAddress; KAddress; KAddress; KAddress; KUint 256; KArray KBytes; KUint 256; KUint 256])].

Definition block_tokens : list Token :=
  [Tuple [Uint 26000; Uint 1; Uint 1700000000];
   Array [Tuple [Uint 1700000000; Address (address_of 1); Address (address_of 2); Address (address_of 3); Address (address_of 4);
                 Uint (10 ^ 18); Array [Bytes [49; 131; 231; 48]%N]; Uint 0; Uint 7]]].

Lemma decode_encode_witness : decode block_kinds (encode block_tokens) = Ok block_tokens.
Proof.
  apply (decode_encode block_kinds block_tokens); [by vm_compute| |by vm_compute|left; by vm_compute].
  repeat constructor; by vm_compute.
Defined.

Lemma decode_typed_witness : types_check block_tokens block_kinds = Ok true.
Proof. apply (decode_typed block_kinds (encode block_tokens) block_tokens). by vm_compute. Defined.
