(* ===== verification/TransactionPauser.v ===== *)
(** * The pallet that pauses transactions

    [src/pallets/transaction-pauser/src/lib.rs] keeps the set of paused calls
    and its filter; [FerrumCallFilter] of [src/runtime/testnet/src/impls.rs]
    adds the calls that are always let through.  A name is the list of its
    UTF-8 bytes, as the storage has it.  What the runtime supplies is a
    parameter: which origins may update, the name of the pallet, and the names
    that a call carries. *)

From S2P Require Import Prelude RustLang.

(** ** Storage, events and errors *)

Abbreviation key := (bytes * bytes)%type.

Inductive Error := InvalidPalletName | CannotDecodeName.
Inductive DispatchError := BadOrigin | Module (e : Error).

Inductive Event :=
| TransactionPaused (pallet_name_bytes function_name_bytes : bytes)
| TransactionUnpaused (pallet_name_bytes function_name_bytes : bytes).

Record State := mkState { PausedTransactions : gmap key (); events : list Event }.

Definition deposit_event (e : Event) (s : State) : State := mkState (PausedTransactions s) (events s ++ [e]).

(** [#[transactional]]: what a call that fails has written is dropped. *)
Definition transactional (call : State -> outcome DispatchError () * State) (s : State) : outcome DispatchError () * State :=
  match call s with
  | (Ok a, s') => (Ok a, s')
  | (r, _) => (r, s)
  end.

Section pauser.
  Context {Origin Call : Type}.
  Context (UpdateOrigin : Origin -> bool) (name : bytes) (get_call_metadata : Call -> key).

(** ** The two calls *)

Definition mutate_exists_paused (pallet_name function_name : bytes) (s : State) : State :=
  match PausedTransactions s !! (pallet_name, function_name) with
  | None =>
      deposit_event (TransactionPaused pallet_name function_name)
        (mkState (<[(pallet_name, function_name) := ()]> (PausedTransactions s)) (events s))
  | Some _ => s
  end.

Definition pause_transaction (origin : Origin) (pallet_name function_name : bytes) : State -> outcome DispatchError () * State :=
  transactional (fun s =>
    if negb (UpdateOrigin origin) then (Err BadOrigin, s)
    else if negb (from_utf8 pallet_name) then (Err (Module CannotDecodeName), s)
    else if bool_decide (pallet_name = name) then (Err (Module InvalidPalletName), s)
    else (Ok (), mutate_exists_paused pallet_name function_name s)).

Definition unpause_transaction (origin : Origin) (pallet_name function_name : bytes) : State -> outcome DispatchError () * State :=
  transactional (fun s =>
    if negb (UpdateOrigin origin) then (Err BadOrigin, s)
    else match PausedTransactions s !! (pallet_name, function_name) with
    | Some _ =>
        (Ok (), deposit_event (TransactionUnpaused pallet_name function_name)
                  (mkState (delete (pallet_name, function_name) (PausedTransactions s)) (events s)))
    | None => (Ok (), s)
    end).

(** ** The filters *)

Definition contains (s : State) (call : Call) : bool :=
  match PausedTransactions s !! get_call_metadata call with Some _ => true | None => false end.

Definition call_filter (is_core_call : Call -> bool) (s : State) (call : Call) : bool :=
  if is_core_call call then true
  else if contains s call then false
  else true.

(** ** Histories of calls *)

Inductive op := Pause (origin : Origin) (p f : bytes) | Unpause (origin : Origin) (p f : bytes).

Definition apply_op (o : op) (s : State) : outcome DispatchError () * State :=
  match o with
  | Pause origin p f => pause_transaction origin p f s
  | Unpause origin p f => unpause_transaction origin p f s
  end.

Definition genesis : State := mkState ∅ [].
Definition run_ops (ops : list op) : State := foldl (fun s o => (apply_op o s).2) genesis ops.

(** The specification keeps no storage: the last event of a key decides. *)
Definition event_key (e : Event) : key :=
  match e with TransactionPaused p f | TransactionUnpaused p f => (p, f) end.
Definition is_pause (e : Event) : bool := match e with TransactionPaused _ _ => true | _ => false end.
Definition last_event (k : key) (es : list Event) : option Event := last (filter (fun e => event_key e = k) es).
Definition log_paused (k : key) (es : list Event) : bool :=
  match last_event k es with Some e => is_pause e | None => false end.

(** Nothing is announced twice: a pause and a removal of the pause alternate. *)
Fixpoint alternating (expect : bool) (es : list Event) : bool :=
  match es with
  | [] => true
  | e :: es => eqb (is_pause e) expect && alternating (negb expect) es
  end.

(** The specification of a call: who may make it, and which keys are refused. *)
Definition accepted (o : op) : bool :=
  match o with
  | Pause origin p _ => UpdateOrigin origin && from_utf8 p && negb (bool_decide (p = name))
  | Unpause origin _ _ => UpdateOrigin origin
  end.
Definition op_key (o : op) : key := match o with Pause _ p f | Unpause _ p f => (p, f) end.
Definition op_pauses (o : op) : bool := match o with Pause _ _ _ => true | _ => false end.

(** The accepted call on a key that came last. *)
Definition spec_paused (k : key) (ops : list op) : bool :=
  match last (filter (fun o => accepted o = true /\ op_key o = k) ops) with
  | Some o => op_pauses o
  | None => false
  end.

End pauser.

(** ** The storage against the history *)

Section theorems.
  Context {Origin Call : Type}.
  Context (UpdateOrigin : Origin -> bool) (name : bytes) (get_call_metadata : Call -> key).
  Local Abbreviation apply := (apply_op UpdateOrigin name).
  Local Abbreviation run := (run_ops UpdateOrigin name).

Definition paused (s : State) (k : key) : bool := match PausedTransactions s !! k with Some _ => true | None => false end.

(** One call changes the entry of its key, when it is accepted, and announces a change. *)
Lemma apply_op_effect o s :
  let s' := (apply o s).2 in
  (forall k, paused s' k = if bool_decide (accepted UpdateOrigin name o = true /\ op_key o = k) then op_pauses o else paused s k) /\
  (s' = s \/
   exists e, events s' = events s ++ [e] /\ is_pause e = negb (paused s (event_key e)) /\
     forall k, paused s' k = if bool_decide (event_key e = k) then is_pause e else paused s k).
Proof.
  unfold paused. destruct o as [origin p f|origin p f]; cbn;
    unfold pause_transaction, unpause_transaction, transactional, mutate_exists_paused;
    destruct (UpdateOrigin origin); cbn; [|split; [done|by left]| |split; [done|by left]].
  - destruct (from_utf8 p); cbn; [|split; [done|by left]].
    case_bool_decide as Hn; cbn; [split; [done|by left]|].
    destruct (PausedTransactions s !! (p, f)) eqn:E; cbn.
    + split; [|by left]. intros k. case_bool_decide as Hk; [|done]. destruct Hk as [_ <-]. cbn. by rewrite E.
    + assert (H : forall k, match <[(p, f) := ()]> (PausedTransactions s) !! k with Some _ => true | None => false end
                 = if bool_decide ((p, f) = k) then true else match PausedTransactions s !! k with Some _ => true | None => false end).
      { intros k. case_bool_decide as Hk; [subst; by rewrite lookup_insert_eq | by rewrite lookup_insert_ne]. }
      split; [intros k; rewrite H; repeat case_bool_decide; naive_solver|].
      right. exists (TransactionPaused p f). cbn. by rewrite E.
  - assert (H : forall k, match delete (p, f) (PausedTransactions s) !! k with Some _ => true | None => false end
                 = if bool_decide ((p, f) = k) then false else match PausedTransactions s !! k with Some _ => true | None => false end).
    { intros k. case_bool_decide as Hk; [subst; by rewrite lookup_delete_eq | by rewrite lookup_delete_ne]. }
    destruct (PausedTransactions s !! (p, f)) eqn:E; cbn.
    + split; [intros k; rewrite H; repeat case_bool_decide; naive_solver|].
      right. exists (TransactionUnpaused p f). cbn. by rewrite E.
    + split; [|by left]. intros k. case_bool_decide as Hk; [|done]. destruct Hk as [_ <-]. cbn. by rewrite E.
Qed.

Lemma run_snoc ops o : run (ops ++ [o]) = (apply o (run ops)).2.
Proof. unfold run_ops. by rewrite foldl_app. Qed.

Lemma filter_snoc {A} (P : A -> Prop) `{forall x, Decision (P x)} xs x :
  filter P (xs ++ [x]) = filter P xs ++ (if bool_decide (P x) then [x] else []).
Proof. rewrite filter_app. f_equal. rewrite filter_cons. by case_bool_decide; rewrite ?decide_True, ?decide_False by done. Qed.

Lemma paused_spec ops k : paused (run ops) k = spec_paused UpdateOrigin name k ops.
Proof.
  induction ops as [|o ops IH] using rev_ind; [done|]. rewrite run_snoc.
  destruct (apply_op_effect o (run ops)) as [H _]. rewrite H. unfold spec_paused in *. rewrite filter_snoc.
  case_bool_decide; [by rewrite last_snoc | by rewrite app_nil_r].
Qed.

Lemma alternating_snoc b es e :
  alternating b es = true -> is_pause e = match last es with None => b | Some e' => negb (is_pause e') end ->
  alternating b (es ++ [e]) = true.
Proof.
  revert b. induction es as [|e' es IH]; intros b; cbn; [intros _ ->; by rewrite eqb_reflx|].
  rewrite !andb_true_iff. intros [Hb Hes] He. split; [done|]. apply eqb_prop in Hb. apply IH; [done|].
  rewrite He. destruct es as [|x es]; [cbn; by rewrite Hb|].
  change (last (e' :: x :: es)) with (last (x :: es)). destruct (last (x :: es)) eqn:El; [done|]. by apply last_None in El.
Qed.

(** The events of a key alternate, and the last one tells whether the key is paused. *)
Lemma log_spec ops k :
  log_paused k (events (run ops)) = paused (run ops) k /\
  alternating true (filter (fun e => event_key e = k) (events (run ops))) = true.
Proof.
  induction ops as [|o ops [IH1 IH2]] using rev_ind; [done|]. rewrite run_snoc.
  destruct (apply_op_effect o (run ops)) as [Hall [He | (e & He & Hp & H)]].
  - by rewrite He.
  - rewrite He, H. unfold log_paused, last_event in *. rewrite filter_snoc.
    case_bool_decide as Hk; [|by rewrite app_nil_r]. split; [by rewrite last_snoc|].
    apply alternating_snoc; [done|]. rewrite Hk, <- IH1 in Hp. rewrite Hp.
    by destruct (last _).
Qed.

Lemma spec_own k ops : k.1 = name -> spec_paused UpdateOrigin name k ops = false.
Proof.
  intros Hk. unfold spec_paused. destruct (last _) as [o|] eqn:E; [|done].
  apply last_Some_elem_of, list_elem_of_filter in E as [[Ha Ho] _].
  destruct o as [origin p f|origin p f]; [|done]. cbn in *. subst k. cbn in Hk. subst p.
  rewrite bool_decide_true, andb_false_r in Ha; done.
Qed.

(** C9. The filter of paused transactions: after any history of calls to the pallet, from any
    origins, a call is caught by the filter exactly when the last accepted
    call on its pair of names was a pause (accepted means: an origin that
    may update, and for a pause a name that is UTF-8 and not the pallet's
    own).  So the pallet's own calls, with which a pause is taken back, are
    never caught, and the filter of the runtime lets core calls and them
    through; the events of each pair alternate between paused and unpaused,
    beginning with paused, and the last one tells the state. *)
Theorem filter_follows_calls (is_core_call : Call -> bool) ops call :
  let s := run ops in let k := get_call_metadata call in
  contains get_call_metadata s call = spec_paused UpdateOrigin name k ops /\
  (k.1 = name -> contains get_call_metadata s call = false /\ call_filter get_call_metadata is_core_call s call = true) /\
  call_filter get_call_metadata is_core_call s call = (is_core_call call || negb (log_paused k (events s))) /\
  alternating true (filter (fun e => event_key e = k) (events s)) = true.
Proof.
  cbn zeta. set (k := get_call_metadata call).
  assert (Hc : contains get_call_metadata (run ops) call = paused (run ops) k) by done.
  unfold call_filter. rewrite Hc. destruct (log_spec ops k) as [-> Halt]. rewrite paused_spec.
  split_and!; [done| |by destruct (is_core_call call), (spec_paused _ _ _ _)|done].
  intros Hk. rewrite (spec_own _ _ Hk). by destruct (is_core_call call).
Qed.

End theorems.

(** A history on a runtime where only origin 0 may update and the pallet is called "TP". *)
Lemma filter_follows_calls_witness :
  let ops := [Pause 0 [66; 97]%N [116]%N; Pause 7 [66; 98]%N [116]%N; Pause 0 [84; 80]%N [120]%N; Pause 0 [0xC0]%N [120]%N;
              Pause 0 [66; 97]%N [116]%N] in
  let s := run_ops (fun o => o =? 0) [84; 80]%N ops in
  events s = [TransactionPaused [66; 97]%N [116]%N] /\
  contains id s ([66; 97]%N, [116]%N) = true /\ contains id s ([84; 80]%N, [120]%N) = false.
Proof.
  cbn zeta. split; [reflexivity|]. split; [reflexivity|].
  refine (proj1 (proj1 (proj2 (filter_follows_calls (fun o => o =? 0) [84; 80]%N id (fun _ => false) _ ([84; 80]%N, [120]%N))) _)).
  reflexivity.
Defined.
