(* ===== verification/ChainUtils.v ===== *)
(** * chain_utils.rs of the quantum portal: hexadecimal text, JSON, signatures

    A text is the list of its bytes.  What other crates supply (keccak, the hex
    crate, parsing of 256-bit numbers, the codec, the curve, numtoa) is the
    class [Crates] of operations; an instance stands for one build. *)

From S2P Require Import Prelude RustLang EthAbi.

(** ** Errors *)

Inductive TransactionCreationError :=
  | NoSignerFound | SigningFailed | SignatureError | MultisigError | CannotFindContractAddress.

Inductive ChainRequestError :=
  | ErrorGettingJsonRpcResponse | BadRemoteData | ConversionError
  | ErrorCreatingTransaction (e : TransactionCreationError)
  | RemoteBlockAlreadyMined | JsonRpcError (msg : bytes) | InvalidHexCharacter
  | SlotNotAvailable | MinedBlockVerificationError.

Abbreviation ChainRequestResult := (outcome ChainRequestError).

Record TransactionSignature := mkSignature { sig_v : N; sig_r : bytes; sig_s : bytes }.

Record LegacyTransaction := mkTx {
  tx_nonce : N; tx_gas_price : N; tx_gas_limit : N; tx_action : bytes; tx_value : N; tx_input : bytes;
  tx_signature : TransactionSignature }.

(** ** What other crates supply *)

Class Crates := {
  keccak256 : bytes -> bytes;                                        (* tiny_keccak *)
  decode_to_slice : bytes -> nat -> option bytes;                    (* hex, into an array of a size *)
  u256_from_str_radix : bytes -> N -> option N;                      (* primitive_types *)
  u256_encode : N -> bytes;                                          (* parity_scale_codec *)
  numtoa_str : N -> N -> bytes -> bytes;                             (* numtoa: the buffer after the call *)
  recovery_id_parse : N -> option N;                                 (* libsecp256k1 *)
  public_key_serialize : bytes -> option bytes;                      (* libsecp256k1: 33 bytes to 65 *)
  transaction_signature_new : N -> bytes -> bytes -> option TransactionSignature; (* ethereum *)
  legacy_message_hash : LegacyTransaction -> option N -> bytes;      (* ethereum *)
  tx_rlp_bytes : LegacyTransaction -> bytes                          (* rlp *)
}.

(** ** Hexadecimal digits *)

Definition ch_A : N := 65.
Definition ch_a : N := 97.
Definition ch_0 : N := 48.
Definition ch_x : N := 120.
Definition ch_quote : N := 34.

Definition val (c : N) : ChainRequestResult N :=
  if within 65 70 c then Ok (c - ch_A + 10)%N
  else if within 97 102 c then Ok (c - ch_a + 10)%N
  else if within 48 57 c then Ok (c - ch_0)%N
  else Err InvalidHexCharacter.

Definition HEX_TABLE : bytes := [48; 49; 50; 51; 52; 53; 54; 55; 56; 57; 97; 98; 99; 100; 101; 102]%N.

Definition hex_digit (n : N) : N := default 0%N (HEX_TABLE !! N.to_nat n).

Definition bytes_to_hex (s : bytes) : bytes :=
  concat (map (fun u => [hex_digit (N.shiftr (N.land u 0xf0) 4); hex_digit (N.land u 0x0f)]) s).

Definition has_0x (s : bytes) : bool :=
  match s with a :: b :: _ => N.eqb a ch_0 && N.eqb b ch_x | _ => false end.

Definition hex_add_0x (s : bytes) : bytes := if has_0x s then s else ch_0 :: ch_x :: s.

Definition hex_remove_0x (s : bytes) : ChainRequestResult bytes :=
  if length s <? 2 then Err ConversionError else Ok (if has_0x s then drop 2 s else s).

(** The loop over the output: two digits make a byte, the higher one is read first. *)
Fixpoint hex_pairs (data : bytes) : ChainRequestResult bytes :=
  match data with
  | h :: l :: data =>
      hi ← val h; lo ← val l; rest ← hex_pairs data;
      Ok (N.lor (wrap 8 (N.shiftl hi 4)) lo :: rest)
  | _ => Ok []
  end.

Definition hex_to_bytes (data : bytes) : ChainRequestResult bytes :=
  if negb (length data mod 2 =? 0) then Err ConversionError
  else data ← hex_remove_0x data; hex_pairs data.

(** [u64::from_str_radix(hex, 16)] of the standard library: a plus sign may come
    first, at least one digit, no overflow. *)
Definition hex_digits_value (ds : bytes) : ChainRequestResult N :=
  foldl (fun acc d => acc ≫= fun n => v ← val d; Ok (n * 16 + v)%N) (Ok 0%N) ds.

Definition u64_from_str_radix_16 (s : bytes) : option N :=
  let ds := match s with 43%N :: ds => ds | _ => s end in
  match ds with
  | [] => None
  | _ => match hex_digits_value ds with Ok n => if (n <? 2 ^ 64)%N then Some n else None | _ => None end
  end.

Definition hex_to_u64 (s : bytes) : ChainRequestResult N :=
  if length s <? 2 then Err ConversionError
  else let hexb := if has_0x s then drop 2 s else s in
    if from_utf8 hexb then ok_or (u64_from_str_radix_16 hexb) ConversionError else Err ConversionError.

Definition wrap_in_quotes (s : bytes) : bytes := ch_quote :: s ++ [ch_quote].

(** [str::from_utf8(s).unwrap()] *)
Definition utf8_unwrap {E} (s : bytes) : outcome E bytes := if from_utf8 s then Ok s else Panic.

Definition address_to_hex (address : bytes) : bytes := hex_add_0x (bytes_to_hex address).
Definition h256_to_hex_0x (i : bytes) : bytes := hex_add_0x (bytes_to_hex i).

(** The closure of [u256_to_hex_0x] keeps a byte once one that is not zero was seen. *)
Fixpoint drop_leading_zeros (bs : bytes) : bytes :=
  match bs with
  | [] => []
  | b :: bs' => if N.eqb b 0 then drop_leading_zeros bs' else bs
  end.

Section chain_utils.
  Context {crates : Crates}.

Definition hex_to_u256 (s : bytes) : ChainRequestResult N :=
  hex ← hex_remove_0x s;
  if from_utf8 hex then ok_or (u256_from_str_radix hex 16) ConversionError else Err ConversionError.

Definition hex_to_address {E} (hex : bytes) : outcome E bytes := unwrap (decode_to_slice hex 20).

(** [&hex[hex.len() - 40..]] panics on a shorter text. *)
Definition decode_address_response {E} (hex : bytes) : outcome E bytes :=
  if length hex <? 40 then Panic else unwrap (decode_to_slice (drop (length hex - 40) hex) 20).

Definition hex_to_ecdsa_pub_key {E} (hex : bytes) : outcome E bytes := unwrap (decode_to_slice hex 33).

Definition u256_to_hex_0x (i : N) : bytes :=
  let fmted := drop_leading_zeros (u256_encode i) in
  match fmted with
  | [] => [ch_0; ch_x; ch_0]
  | _ => ch_0 :: ch_x :: map (fun i => wrap 8 (i + ch_0)) fmted
  end.

Definition u64_to_str (num : N) : bytes :=
  List.filter (fun u => negb (N.eqb u 0)) (numtoa_str num 10 (replicate 20 0%N)).

Definition keccack (msg : bytes) : bytes := keccak256 msg.

Definition LOWER : bytes := replicate 31 0%N ++ [1%N].

Definition empty_signature {E} : outcome E TransactionSignature := unwrap (transaction_signature_new 28 LOWER LOWER).

Definition tx_hash_to_sign (tx : LegacyTransaction) (chain_id : N) : bytes := legacy_message_hash tx (Some chain_id).

(** [signature] has 65 bytes; the sum is of type u64. *)
Definition decode_transaction_signature (signature : bytes) (chain_id : N) : ChainRequestResult TransactionSignature :=
  recovery_id ← ok_or (signature !! 64 ≫= recovery_id_parse) (ErrorCreatingTransaction SignatureError);
  let rid := u64 (u64 (u64 (chain_id * 2) + 35) + recovery_id) in
  ok_or (transaction_signature_new rid (take 32 signature) (take 32 (drop 32 signature))) (ErrorCreatingTransaction SignatureError).

Definition eth_address_from_public_key {E} (pk : bytes) : outcome E bytes :=
  pk ← (if length pk =? 64 then Ok pk
        else if length pk =? 33 then fmap (drop 1) (unwrap (public_key_serialize pk))
        else Panic);
  Ok (drop 12 (keccak256 pk)).

End chain_utils.

(** ** The JSON writer *)

Record JsonSer := mkJson { buff : bytes; empty : bool }.

Definition json_new : JsonSer := mkJson [] true.
Definition push (b : bytes) (j : JsonSer) : JsonSer := mkJson (buff j ++ b) (empty j).
Definition set_empty (e : bool) (j : JsonSer) : JsonSer := mkJson (buff j) e.

Definition json_start {E} (j : JsonSer) : outcome E JsonSer :=
  match buff j with [] => Ok (push [123%N] j) | _ => Panic end.
Definition json_end (j : JsonSer) : JsonSer := push [125%N] j.
Definition json_comma (j : JsonSer) : JsonSer := if empty j then j else push [44%N] j.
Definition json_name (name : bytes) (j : JsonSer) : JsonSer :=
  push [58%N] (push [ch_quote] (push name (push [ch_quote] (json_comma j)))).
Definition json_arr_string (v : bytes) (j : JsonSer) : JsonSer :=
  set_empty false (push [ch_quote] (push v (push [ch_quote] (json_comma j)))).
Definition json_arr_val (v : bytes) (j : JsonSer) : JsonSer := set_empty false (push v (json_comma j)).
Definition json_string (name v : bytes) (j : JsonSer) : JsonSer :=
  set_empty false (push [ch_quote] (push v (push [ch_quote] (json_name name j)))).
Definition json_val (name v : bytes) (j : JsonSer) : JsonSer := set_empty false (push v (json_name name j)).
Definition json_arr_start (j : JsonSer) : JsonSer := set_empty true (push [91%N] j).
Definition json_arr_end (j : JsonSer) : JsonSer := set_empty false (push [93%N] j).
Definition json_arr (name v : bytes) (j : JsonSer) : JsonSer :=
  set_empty false (json_arr_end (push v (json_arr_start (json_name name j)))).
Definition json_num {crates : Crates} {E} (name : bytes) (v : N) (j : JsonSer) : outcome E JsonSer :=
  s ← utf8_unwrap (u64_to_str v); Ok (json_val name s j).
Definition json_u256 {crates : Crates} {E} (name : bytes) (value : N) (j : JsonSer) : outcome E JsonSer :=
  s ← utf8_unwrap (u256_to_hex_0x value); Ok (json_string name s j).

(** ** Hexadecimal text, there and back *)

(** Two digits of a byte, read back; checked for the 256 bytes. *)
Definition byte_reads_back (u : N) : bool :=
  match val (hex_digit (N.shiftr (N.land u 0xf0) 4)), val (hex_digit (N.land u 0x0f)) with
  | Ok hi, Ok lo => N.eqb (N.lor (wrap 8 (N.shiftl hi 4)) lo) u
                    && negb (N.eqb (hex_digit (N.land u 0x0f)) ch_x)
  | _, _ => false
  end.

Lemma for_bytes (P : N -> bool) : forallb P (map N.of_nat (seq 0 256)) = true -> forall u, byte u -> P u = true.
Proof.
  intros H u Hu. eapply forallb_forall in H; [exact H|]. apply in_map_iff. exists (N.to_nat u).
  unfold byte in Hu. split; [lia|]. apply in_seq. lia.
Qed.

Lemma bytes_read_back u : byte u -> byte_reads_back u = true.
Proof. apply for_bytes. by vm_compute. Qed.

Lemma bytes_to_hex_cons u bs :
  bytes_to_hex (u :: bs) = hex_digit (N.shiftr (N.land u 0xf0) 4) :: hex_digit (N.land u 0x0f) :: bytes_to_hex bs.
Proof. done. Qed.

Lemma length_bytes_to_hex bs : length (bytes_to_hex bs) = 2 * length bs.
Proof. induction bs as [|u bs IH]; [done|]. rewrite bytes_to_hex_cons. cbn [length]. lia. Qed.

Lemma hex_pairs_bytes_to_hex bs : Forall byte bs -> hex_pairs (bytes_to_hex bs) = Ok bs.
Proof.
  induction 1 as [|u bs Hu _ IH]; [done|]. rewrite bytes_to_hex_cons. cbn [hex_pairs]. rewrite IH.
  apply bytes_read_back in Hu. unfold byte_reads_back in Hu.
  destruct (val _) as [hi| |]; [|done..]. destruct (val _) as [lo| |]; [|done..]. cbn.
  apply andb_true_iff in Hu as [Hu _]. apply N.eqb_eq in Hu. by rewrite Hu.
Qed.

Lemma bytes_to_hex_no_0x bs : Forall byte bs -> has_0x (bytes_to_hex bs) = false.
Proof.
  intros H. destruct H as [|u bs Hu _]; [done|]. rewrite bytes_to_hex_cons. cbn [has_0x].
  apply bytes_read_back in Hu. unfold byte_reads_back in Hu. do 2 (destruct (val _); [|done..]).
  apply andb_true_iff in Hu as [_ Hu]. apply negb_true_iff in Hu. by rewrite Hu, andb_false_r.
Qed.

Lemma even_twice n : (2 * n) mod 2 = 0.
Proof. rewrite Nat.mul_comm. apply Nat.Div0.mod_mul. Qed.

Lemma hex_to_bytes_0x bs : Forall byte bs -> hex_to_bytes (hex_add_0x (bytes_to_hex bs)) = Ok bs.
Proof.
  intros H. unfold hex_to_bytes, hex_add_0x. rewrite bytes_to_hex_no_0x by done. cbn [length].
  rewrite length_bytes_to_hex. replace (S (S (2 * length bs))) with (2 * S (length bs)) by lia. rewrite even_twice. cbn.
  by apply hex_pairs_bytes_to_hex.
Qed.

Lemma hex_to_bytes_plain bs : Forall byte bs -> bs <> [] -> hex_to_bytes (bytes_to_hex bs) = Ok bs.
Proof.
  intros H Hn. unfold hex_to_bytes, hex_remove_0x. rewrite length_bytes_to_hex, even_twice. cbn [negb Nat.eqb].
  rewrite bytes_to_hex_no_0x by done. destruct (2 * length bs <? 2) eqn:E.
  - apply Nat.ltb_lt in E. destruct bs; cbn in E; [done|lia].
  - cbn. by apply hex_pairs_bytes_to_hex.
Qed.

(** Lower case of a hexadecimal digit. *)
Definition lower_hex (c : N) : N := if within 65 70 c then (c + 32)%N else c.

Definition digit_lower (c : N) : bool :=
  match val c with Ok n => (n <? 16)%N && N.eqb (hex_digit n) (lower_hex c) | _ => true end.

Lemma digits_lower c : byte c -> digit_lower c = true.
Proof. apply for_bytes. by vm_compute. Qed.

Definition nibbles_join (p : N) : bool :=
  let hi := (p / 16)%N in let lo := (p mod 16)%N in
  let u := N.lor (wrap 8 (N.shiftl hi 4)) lo in
  N.eqb (N.shiftr (N.land u 0xf0) 4) hi && N.eqb (N.land u 0x0f) lo.

Lemma nibbles hi lo : (hi < 16)%N -> (lo < 16)%N ->
  let u := N.lor (wrap 8 (N.shiftl hi 4)) lo in N.shiftr (N.land u 0xf0) 4 = hi /\ N.land u 0x0f = lo.
Proof.
  intros Hh Hl. cbn zeta. assert (H : nibbles_join (hi * 16 + lo) = true).
  { apply for_bytes; [by vm_compute|]. unfold byte. lia. }
  unfold nibbles_join in H. cbn zeta in H.
  rewrite N.div_add_l, N.div_small, N.add_0_r, (N.add_comm _ lo), N.Div0.mod_add, N.mod_small in H by lia.
  by apply andb_true_iff in H as [->%N.eqb_eq ->%N.eqb_eq].
Qed.

Lemma val_lower c n : byte c -> val c = Ok n -> (n < 16)%N /\ hex_digit n = lower_hex c.
Proof.
  intros Hc Hv. apply digits_lower in Hc. unfold digit_lower in Hc. rewrite Hv in Hc.
  by apply andb_true_iff in Hc as [?%N.ltb_lt ->%N.eqb_eq].
Qed.

Lemma hex_pairs_inv bs : forall s, Forall byte s -> length s mod 2 = 0 -> hex_pairs s = Ok bs -> bytes_to_hex bs = map lower_hex s.
Proof.
  induction bs as [|u bs IH]; intros [|h [|l s]] Hs Hlen E; try done; cbn [hex_pairs] in E;
    apply bind_ok in E as (hi & Hhi & E); apply bind_ok in E as (lo & Hlo & E); apply bind_ok in E as (rest & Hrest & E); [done|].
  injection E as <- <-. apply Forall_cons in Hs as [Hh Hs]. apply Forall_cons in Hs as [Hl Hs].
  apply val_lower in Hhi as [Bh Dh]; [|done]. apply val_lower in Hlo as [Bl Dl]; [|done].
  destruct (nibbles hi lo Bh Bl) as [Eh El].
  rewrite bytes_to_hex_cons, Eh, El, Dh, Dl. cbn [map]. f_equal. f_equal. apply IH; [done| |done].
  cbn [length] in Hlen. replace (S (S (length s))) with (length s + 1 * 2) in Hlen by lia. by rewrite Nat.Div0.mod_add in Hlen.
Qed.

(** The digits of a text: what stands after an optional 0x. *)
Definition hex_body (s : bytes) : bytes := if has_0x s then drop 2 s else s.

(** C15. Hexadecimal text of chain_utils.rs: bytes written with 0x are read
    back as they were, also no bytes at all; without 0x the same, except that
    the empty text is refused; and whatever text is accepted, its bytes are
    written as its digits in lower case, so only texts of the same digits give
    the same bytes. *)
Theorem hex_round_trip (bs s : bytes) :
  Forall byte bs -> Forall byte s ->
  hex_to_bytes (hex_add_0x (bytes_to_hex bs)) = Ok bs /\
  hex_to_bytes (bytes_to_hex bs) = (if decide (bs = []) then Err ConversionError else Ok bs) /\
  forall out, hex_to_bytes s = Ok out -> bytes_to_hex out = map lower_hex (hex_body s).
Proof.
  intros Hb Hs. split_and!; [by apply hex_to_bytes_0x | case_decide; [by subst | by apply hex_to_bytes_plain] |].
  intros out. unfold hex_to_bytes, hex_remove_0x, hex_body. destruct (length s mod 2 =? 0) eqn:El; [|done]. apply Nat.eqb_eq in El.
  cbn [negb]. destruct (length s <? 2) eqn:E2; [done|]. apply Nat.ltb_ge in E2. cbn. destruct (has_0x s).
  - apply hex_pairs_inv; [by apply Forall_drop|]. destruct s as [|a [|b s]]; [cbn in *; lia..|]. cbn [drop length] in *. rewrite drop_0.
    replace (S (S (length s))) with (length s + 1 * 2) in El by lia. by rewrite Nat.Div0.mod_add in El.
  - by apply hex_pairs_inv.
Qed.

Lemma hex_round_trip_witness :
  hex_to_bytes (hex_add_0x (bytes_to_hex [0; 171; 255]%N)) = Ok [0; 171; 255]%N /\
  hex_to_bytes [48; 120; 65; 98]%N = Ok [171%N] /\ hex_to_bytes [48; 120; 49]%N = Err ConversionError.
Proof.
  split; [|by split]. refine (proj1 (hex_round_trip [0; 171; 255]%N [48; 120; 65; 98]%N _ _)); repeat constructor.
Defined.

(** A number of 256 bits is meant to be written in hexadecimal; its bytes come
    lowest first and are written as characters: one is "0x1" followed by 31
    digits 0, and sixteen a character that is no digit. *)
Lemma u256_to_hex_0x_one {crates : Crates} :
  u256_encode 1 = reverse (be_bytes 32 1) -> u256_to_hex_0x 1 = ch_0 :: ch_x :: 49%N :: replicate 31 ch_0.
Proof. intros H. unfold u256_to_hex_0x. by rewrite H. Qed.

Lemma u256_to_hex_0x_sixteen {crates : Crates} :
  u256_encode 16 = reverse (be_bytes 32 16) -> u256_to_hex_0x 16 = ch_0 :: ch_x :: 64%N :: replicate 31 ch_0.
Proof. intros H. unfold u256_to_hex_0x. by rewrite H. Qed.
