(* ===== verification/QuantumPortalPallet.v ===== *)
(** * The calls of the quantum portal pallet

    src/pallets/quantum-portal/src/lib.rs: the finalizers of a chain, the
    threshold of signatures and the signatures submitted for a block.  An
    account is the list of its bytes; what a call that fails has written is
    dropped, as for every call of a pallet. *)

From S2P Require Import Prelude RustLang.

Abbreviation AccountId := bytes.
Abbreviation ChainId := N.
Abbreviation BlockNumber := N.

Inductive RawOrigin := Root | Signed (who : AccountId) | Unsigned.

Inductive Error := FinalizerNotFound | OffchainUnsignedTxSignedPayload.
Inductive DispatchError := BadOrigin | Module (e : Error).

Inductive Event :=
| FinalizerAdded (chain_id : ChainId) (finalizer : AccountId)
| FinalizerRemoved (chain_id : ChainId) (finalizer : AccountId)
| SignatureSubmitted (chain_id : ChainId) (block_number : BlockNumber) (finalizer : AccountId) (signature : bytes)
| FinalizerThresholdSet (chain_id : ChainId) (threshold : N).

Record State := mkState {
  PendingFinalizeSignatures : gmap (ChainId * BlockNumber) (list (AccountId * bytes));
  RegisteredFinalizers : gmap ChainId (list AccountId);
  FinalizerThreshold : gmap ChainId N;
  events : list Event }.

Abbreviation call_result := (outcome DispatchError () * State)%type.

Definition ensure_signed (o : RawOrigin) : outcome DispatchError AccountId :=
  match o with Signed who => Ok who | _ => Err BadOrigin end.

Definition with_finalizers (f : gmap ChainId (list AccountId)) (s : State) : State :=
  mkState (PendingFinalizeSignatures s) f (FinalizerThreshold s) (events s).

(** [RegisteredFinalizers::try_mutate]: the entry is written when the closure succeeds. *)
Definition try_mutate_finalizers (chain_id : ChainId)
    (f : list AccountId -> outcome DispatchError (list AccountId)) (s : State) : call_result :=
  let current_finalizers := default [] (RegisteredFinalizers s !! chain_id) in
  match f current_finalizers with
  | Ok fs => (Ok (), with_finalizers (<[chain_id := fs]> (RegisteredFinalizers s)) s)
  | Err e => (Err e, s)
  | Panic => (Panic, s)
  end.

(** The result of [ensure_signed] is bound to a name and not looked at. *)
Definition register_finalizer (origin : RawOrigin) (chain_id : ChainId) (finalizer : AccountId) (s : State) : call_result :=
  let _caller := ensure_signed origin in
  try_mutate_finalizers chain_id (fun current_finalizers => Ok (current_finalizers ++ [finalizer])) s.

(** [iter().position(|x| *x == finalizer)] and [remove(index)] *)
Definition position (finalizer : AccountId) (fs : list AccountId) : option nat := fst <$> list_find (fun x => x = finalizer) fs.

Definition remove_finalizer (origin : RawOrigin) (chain_id : ChainId) (finalizer : AccountId) (s : State) : call_result :=
  let _caller := ensure_signed origin in
  try_mutate_finalizers chain_id (fun current_finalizers =>
    index ← ok_or (position finalizer current_finalizers) (Module FinalizerNotFound);
    Ok (take index current_finalizers ++ drop (S index) current_finalizers)) s.

Definition submit_signature (origin : RawOrigin) (chain_id : ChainId) (block_number : BlockNumber) (signature : bytes) (s : State) : call_result :=
  match (caller ← ensure_signed origin;
         finalizers ← ok_or (RegisteredFinalizers s !! chain_id) (Module FinalizerNotFound);
         if bool_decide (caller ∈ (finalizers : list AccountId)) then Ok caller else Err (Module FinalizerNotFound)) with
  | Ok caller =>
      let signatures := default [] (PendingFinalizeSignatures s !! (chain_id, block_number)) in
      (Ok (), mkState (<[(chain_id, block_number) := signatures ++ [(caller, signature)]]> (PendingFinalizeSignatures s))
                (RegisteredFinalizers s) (FinalizerThreshold s)
                (events s ++ [SignatureSubmitted chain_id block_number caller signature]))
  | Err e => (Err e, s)
  | Panic => (Panic, s)
  end.

Definition set_finalizer_threshold (origin : RawOrigin) (chain_id : ChainId) (threshold : N) (s : State) : call_result :=
  let _caller := ensure_signed origin in
  (Ok (), mkState (PendingFinalizeSignatures s) (RegisteredFinalizers s) (<[chain_id := threshold]> (FinalizerThreshold s))
            (events s ++ [FinalizerThresholdSet chain_id threshold])).

(** ** Histories *)

Inductive Call :=
| RegisterFinalizer (chain_id : ChainId) (finalizer : AccountId)
| RemoveFinalizer (chain_id : ChainId) (finalizer : AccountId)
| SubmitSignature (chain_id : ChainId) (block_number : BlockNumber) (signature : bytes)
| SetFinalizerThreshold (chain_id : ChainId) (threshold : N).

Definition dispatch (origin : RawOrigin) (c : Call) (s : State) : call_result :=
  match c with
  | RegisterFinalizer chain_id f => register_finalizer origin chain_id f s
  | RemoveFinalizer chain_id f => remove_finalizer origin chain_id f s
  | SubmitSignature chain_id b sig => submit_signature origin chain_id b sig s
  | SetFinalizerThreshold chain_id t => set_finalizer_threshold origin chain_id t s
  end.

Definition genesis : State := mkState ∅ ∅ ∅ [].

(** The calls of a history with the origins they came from; [trace] keeps, of
    each, the state it met and its outcome. *)
Fixpoint trace (calls : list (RawOrigin * Call)) (s : State) : list (RawOrigin * Call * State * outcome DispatchError ()) :=
  match calls with
  | [] => []
  | (o, c) :: calls => let '(r, s') := dispatch o c s in (o, c, s, r) :: trace calls s'
  end.
Definition after (calls : list (RawOrigin * Call)) (s : State) : State := foldl (fun s oc => (dispatch oc.1 oc.2 s).2) s calls.

Definition finalizers (s : State) (c : ChainId) : list AccountId := default [] (RegisteredFinalizers s !! c).
Definition signatures (s : State) (c : ChainId) (b : BlockNumber) : list (AccountId * bytes) :=
  default [] (PendingFinalizeSignatures s !! (c, b)).

(** How often an account is registered for a chain. *)
Definition registrations (a : AccountId) (fs : list AccountId) : nat := length (filter (fun x => x = a) fs).

(** The signatures that a list of outcomes accepted for a block. *)
Definition accepted_signatures (c : ChainId) (b : BlockNumber) (t : list (RawOrigin * Call * State * outcome DispatchError ())) : list (AccountId * bytes) :=
  omap (fun x => match x with
    | (Signed who, SubmitSignature c' b' sig, _, Ok _) => if bool_decide (c' = c /\ b' = b) then Some (who, sig) else None
    | _ => None
    end) t.

(** What one call does to the registrations of an account. *)
Definition registration_change (c : ChainId) (a : AccountId) (x : RawOrigin * Call * State * outcome DispatchError ()) : Z :=
  match x with
  | (_, RegisterFinalizer c' f, _, _) => if bool_decide (c' = c /\ f = a) then 1 else 0
  | (_, RemoveFinalizer c' f, _, Ok _) => if bool_decide (c' = c /\ f = a) then -1 else 0
  | _ => 0
  end%Z.
Definition sum_changes (c : ChainId) (a : AccountId) (t : list (RawOrigin * Call * State * outcome DispatchError ())) : Z :=
  foldr (fun x n => registration_change c a x + n)%Z 0%Z t.

(** ** One call *)

Lemma registrations_app a fs gs : registrations a (fs ++ gs) = registrations a fs + registrations a gs.
Proof. unfold registrations. by rewrite filter_app, length_app. Qed.

Lemma registrations_cons a x fs : registrations a (x :: fs) = (if decide (x = a) then 1 else 0) + registrations a fs.
Proof. unfold registrations. rewrite filter_cons. by case_decide. Qed.

Lemma registrations_pos a fs : 0 < registrations a fs <-> a ∈ fs.
Proof.
  induction fs as [|x fs IH]; [split; [cbn; lia | by intros ?%not_elem_of_nil]|].
  rewrite registrations_cons, elem_of_cons, <- IH. case_decide; naive_solver lia.
Qed.

Lemma position_Some a fs i : position a fs = Some i -> fs !! i = Some a.
Proof. unfold position. destruct (list_find _ fs) as [[j x]|] eqn:E; [|done]. apply list_find_Some in E. naive_solver. Qed.

Lemma position_None a fs : position a fs = None <-> a ∉ fs.
Proof.
  unfold position. rewrite fmap_None, list_find_None, Forall_forall. naive_solver.
Qed.

Lemma remove_registrations a f fs i : position f fs = Some i ->
  registrations a fs = (if decide (f = a) then 1 else 0) + registrations a (take i fs ++ drop (S i) fs).
Proof.
  intros H%position_Some. rewrite registrations_app.
  rewrite <- (take_drop_middle _ _ _ H) at 1. rewrite registrations_app, registrations_cons. lia.
Qed.

Lemma finalizers_insert s c fs c' :
  finalizers (with_finalizers (<[c := fs]> (RegisteredFinalizers s)) s) c' = if decide (c = c') then fs else finalizers s c'.
Proof. unfold finalizers. cbn. case_decide; subst; by rewrite ?lookup_insert_eq, ?lookup_insert_ne. Qed.

Lemma dispatch_registrations o c s ch a : let '(r, s') := dispatch o c s in
  Z.of_nat (registrations a (finalizers s' ch)) = (Z.of_nat (registrations a (finalizers s ch)) + registration_change ch a (o, c, s, r))%Z.
Proof.
  destruct c as [c f|c f|c b sig|c t]; cbn.
  - rewrite finalizers_insert. fold (finalizers s c). destruct (decide (c = ch)) as [->|Hc].
    + rewrite registrations_app, registrations_cons. change (registrations a []) with 0.
      case_bool_decide; case_decide; naive_solver lia.
    + case_bool_decide; naive_solver lia.
  - unfold remove_finalizer, try_mutate_finalizers. destruct (position f _) as [i|] eqn:E; cbn; [|lia].
    rewrite finalizers_insert. apply (remove_registrations a) in E. fold (finalizers s c) in E |- *.
    destruct (decide (c = ch)) as [->|Hc]; case_bool_decide; try case_decide; naive_solver lia.
  - unfold submit_signature, finalizers. destruct (ensure_signed o ≫= _); cbn; lia.
  - unfold finalizers. cbn. lia.
Qed.

Lemma dispatch_signatures o c s ch b : let '(r, s') := dispatch o c s in
  signatures s' ch b = signatures s ch b ++ accepted_signatures ch b [(o, c, s, r)].
Proof.
  destruct c as [c f|c f|c b' sig|c t]; cbn.
  - destruct o; by rewrite app_nil_r.
  - unfold remove_finalizer, try_mutate_finalizers. destruct (position f _) as [i|]; cbn; destruct o; by rewrite app_nil_r.
  - unfold submit_signature. destruct o as [|who|]; cbn -[bool_decide]; try by rewrite app_nil_r.
    destruct (RegisteredFinalizers s !! c) as [fs|]; cbn -[bool_decide]; [|by rewrite app_nil_r].
    destruct (bool_decide (who ∈ fs)); cbn -[bool_decide]; [|by rewrite app_nil_r]. unfold signatures. cbn -[bool_decide].
    case_bool_decide as Hb; cbn.
    + destruct Hb as [-> ->]. by rewrite lookup_insert_eq.
    + rewrite lookup_insert_ne by naive_solver. by rewrite app_nil_r.
  - destruct o; by rewrite app_nil_r.
Qed.

Lemma submit_accepted o c b sig s :
  is_ok (submit_signature o c b sig s).1 = true <-> exists who, o = Signed who /\ 0 < registrations who (finalizers s c).
Proof.
  unfold submit_signature, finalizers. destruct o as [|who|]; cbn -[bool_decide]; [naive_solver| |naive_solver].
  destruct (RegisteredFinalizers s !! c) as [fs|]; cbn -[bool_decide].
  - pose proof (registrations_pos who fs) as Hp. destruct (bool_decide (who ∈ fs)) eqn:H; cbn.
    + apply bool_decide_eq_true in H. split; [|done]. intros _. exists who. split; [done|]. by apply Hp.
    + apply bool_decide_eq_false in H. split; [done|]. intros (w & Hw & Hr). injection Hw as <-. by destruct (H (proj1 Hp Hr)).
  - split; [done|]. intros (? & ? & H). cbn in H. lia.
Qed.

Lemma remove_accepted o c f s : is_ok (remove_finalizer o c f s).1 = true <-> 0 < registrations f (finalizers s c).
Proof.
  unfold remove_finalizer, try_mutate_finalizers. fold (finalizers s c). rewrite registrations_pos.
  destruct (position f _) as [i|] eqn:E; cbn.
  - split; [|done]. intros _. apply position_Some in E. by eapply list_elem_of_lookup_2.
  - apply position_None in E. naive_solver.
Qed.

(** ** Histories of calls *)

Definition call_accepted (x : RawOrigin * Call * State * outcome DispatchError ()) : Prop :=
  let '(o, c, s, r) := x in
  is_ok r = true <->
  match c with
  | SubmitSignature ch _ _ => exists who, o = Signed who /\ 0 < registrations who (finalizers s ch)
  | RemoveFinalizer ch f => 0 < registrations f (finalizers s ch)
  | _ => True
  end.

Lemma dispatch_accepted o c s : call_accepted (o, c, s, (dispatch o c s).1).
Proof. destruct c; cbn; [done|apply remove_accepted|apply submit_accepted|done]. Qed.

Lemma after_cons o c calls s : after ((o, c) :: calls) s = after calls (dispatch o c s).2.
Proof. done. Qed.

Lemma trace_cons o c calls s : trace ((o, c) :: calls) s = (o, c, s, (dispatch o c s).1) :: trace calls (dispatch o c s).2.
Proof. cbn. by destruct (dispatch o c s). Qed.

(** C10. The books of the quantum portal pallet, for any history of calls from any state: the signatures
    kept for a block are the ones kept before followed by the accepted
    submissions, in their order; the number of times an account is registered
    for a chain is what it was, plus one for each registration, less one for each
    accepted removal; a submission is accepted exactly when it is signed by an
    account registered for the chain at that time, a removal exactly when the
    account is registered, and the other calls always.  The three calls that
    manage finalizers and thresholds behave the same for every origin. *)
Theorem pallet_books (calls : list (RawOrigin * Call)) (s : State) (ch : ChainId) (b : BlockNumber) (a : AccountId) :
  let t := trace calls s in let s' := after calls s in
  signatures s' ch b = signatures s ch b ++ accepted_signatures ch b t /\
  Z.of_nat (registrations a (finalizers s' ch)) = (Z.of_nat (registrations a (finalizers s ch)) + sum_changes ch a t)%Z /\
  Forall call_accepted t /\
  (forall o c, match c with SubmitSignature _ _ _ => False | _ => True end -> dispatch o c s = dispatch Unsigned c s).
Proof.
  cbn zeta. split_and!; [..|intros o [] ?; done].
  - revert s. induction calls as [|[o c] calls IH]; intros s; [by rewrite app_nil_r|]. rewrite after_cons, trace_cons, IH.
    pose proof (dispatch_signatures o c s ch b) as H. destruct (dispatch o c s) as [r s']. cbn [fst snd]. rewrite H, <- app_assoc.
    f_equal. symmetry. apply (omap_app _ [_] _).
  - revert s. induction calls as [|[o c] calls IH]; intros s; [cbn; lia|]. rewrite after_cons, trace_cons, IH.
    pose proof (dispatch_registrations o c s ch a) as H. destruct (dispatch o c s) as [r s']. cbn [fst snd]. rewrite H.
    unfold sum_changes. cbn [foldr]. lia.
  - revert s. induction calls as [|[o c] calls IH]; intros s; [done|]. rewrite trace_cons.
    constructor; [apply dispatch_accepted | apply IH].
Qed.

(** An unsigned origin registers the account 7 and sets the threshold; the
    account then has the signatures of two of its calls counted. *)
Lemma pallet_books_witness :
  let calls := [(Unsigned, RegisterFinalizer 1 [7%N]); (Unsigned, SetFinalizerThreshold 1 1);
                (Signed [7%N], SubmitSignature 1 5 [1%N]); (Signed [8%N], SubmitSignature 1 5 [2%N]);
                (Signed [7%N], SubmitSignature 1 5 [1%N])] in
  signatures (after calls genesis) 1 5 = [([7%N], [1%N]); ([7%N], [1%N])] /\
  forall o, dispatch o (RegisterFinalizer 1 [9%N]) genesis = dispatch Unsigned (RegisterFinalizer 1 [9%N]) genesis.
Proof.
  cbn zeta. split.
  - rewrite (proj1 (pallet_books _ genesis 1 5 [])). reflexivity.
  - intros o. apply (pallet_books [] genesis 1 5 []). exact I.
Defined.
