(* ===== verification/ChainQueries.v ===== *)
(** * The off-chain worker's world and chain_queries.rs

    The code of the quantum portal runs off chain: it sends HTTP requests,
    keeps values in the node's local storage, reads the pallet's storage and
    submits calls.  [World] is that state, [M] the monad of code that may fail,
    panic and change it; a panic leaves what was done before it.  The other
    side of the network, the parsing of JSON and the keystore are the class
    [Host] of operations. *)

From S2P Require Import Prelude RustLang EthAbi ChainUtils QuantumPortalPallet.

(** ** Types *)

(** Requests and responses of chain_queries.rs *)
Record JsonRpcRequest := mkRequest { req_id : N; req_method : bytes; req_params : list bytes }.
Record GetTransactionReceiptResponseData := mkReceipt { blockHash : bytes; blockNumber : bytes; status : bytes }.
Inductive TransactionStatus := NotFound | Pending | Confirmed | Failed.

(** What the service keeps for a chain, quantum_portal_service.rs *)
Inductive PendingTransaction :=
| MineTransaction (chain remote_chain timestamp : N) (tx_id : bytes)
| FinalizeTransaction (chain timestamp : N) (tx_id : bytes)
| NoTransaction.

Class Host := {
  Net : Type;                                                           (* the nodes that answer *)
  http_send : bytes -> bytes -> Net -> option (N * bytes) * Net;        (* url and body; status and body *)
  timestamp_unix_millis : Net -> N;
  ecdsa_sign_prehashed : bytes -> bytes -> option bytes;                (* public key and hash; 65 bytes *)
  parse_call_response : bytes -> option bytes;                          (* serde_json *)
  parse_receipt_response : bytes -> option (option GetTransactionReceiptResponseData);
  info_enabled : bool                                                   (* arguments of log::info! are evaluated *)
}.

(** A value of the local storage is [None] when its bytes are of another type. *)
Record World `{Host} := mkWorld {
  net : Net;
  sent : list (bytes * JsonRpcRequest);
  storage : gmap bytes (option PendingTransaction);
  chain : State;
  submitted : list Call }.

(** ** The monad *)

Section monad.
  Context `{host : Host}.

Definition M (A : Type) : Type := World -> ChainRequestResult A * World.

#[export] Instance M_bind : MBind M := fun A B f m w =>
  match m w with
  | (Ok a, w) => f a w
  | (Err e, w) => (Err e, w)
  | (Panic, w) => (Panic, w)
  end.
#[export] Instance M_ret : MRet M := fun A a w => (Ok a, w).
#[export] Instance M_fmap : FMap M := fun A B f m => m ≫= fun a => mret (f a).

Definition lift {A} (r : ChainRequestResult A) : M A := fun w => (r, w).
Definition get : M World := fun w => (Ok w, w).

(** The error of signing is converted by the question mark. *)
Definition convert {A} (r : outcome TransactionCreationError A) : ChainRequestResult A := map_err ErrorCreatingTransaction r.

End monad.

(** ** The body of a request *)

Section queries.
  Context {crates : Crates} {host : Host}.

Definition rpc_params (ps : list bytes) : ChainRequestResult JsonSer :=
  foldl (fun acc p => acc ≫= fun j => s ← utf8_unwrap p; Ok (json_arr_val s j)) (Ok json_new) ps.

Definition rpc_body (req : JsonRpcRequest) : ChainRequestResult bytes :=
  params ← rpc_params (req_params req);
  j ← json_start json_new;
  j ← json_num «"id"» (req_id req) j;
  method ← utf8_unwrap (req_method req);
  ps ← utf8_unwrap (buff params);
  Ok (buff (json_end (json_arr «"params"» ps (json_string «"jsonrpc"» «"2.0"» (json_string «"method"» method j))))).

(** A request that is not answered, or not in time, gives one error; the body is
    looked at by the log before the status is. *)
Definition http_request (base_url body : bytes) (req : JsonRpcRequest) : M (N * bytes) := fun w =>
  let '(r, n) := http_send base_url body (net w) in
  (ok_or r ErrorGettingJsonRpcResponse, mkWorld _ n (sent w ++ [(base_url, req)]) (storage w) (chain w) (submitted w)).

Definition fetch_json_rpc_body (base_url : bytes) (req : JsonRpcRequest) : M bytes :=
  json_req_s ← lift (rpc_body req);
  _ ← lift (utf8_unwrap json_req_s);
  response ← http_request base_url json_req_s req;
  _ ← lift (if info_enabled then utf8_unwrap response.2 else Ok []);
  if N.eqb response.1 200 then mret response.2 else lift (Err ErrorGettingJsonRpcResponse).

Definition fetch_json_rpc {T} (parse : bytes -> option T) (base_url : bytes) (req : JsonRpcRequest) : M T :=
  body ← fetch_json_rpc_body base_url req;
  lift (ok_or (parse body) ErrorGettingJsonRpcResponse).

(** ** The queries *)

Definition chain_id (url : bytes) : M N :=
  res ← fetch_json_rpc parse_call_response url (mkRequest 1 «"eth_chainId"» []);
  chain_id ← lift (hex_to_u64 res);
  mret (u32 chain_id).

Definition get_transaction_receipt (url tx_id : bytes) : M (option GetTransactionReceiptResponseData) :=
  let tx_id := h256_to_hex_0x tx_id in
  fetch_json_rpc parse_receipt_response url (mkRequest 1 «"eth_getTransactionReceipt"» [wrap_in_quotes tx_id]).

Definition get_transaction_status (url tx_id : bytes) : M TransactionStatus :=
  rv ← get_transaction_receipt url tx_id;
  match rv with
  | None => mret NotFound
  | Some tx => status ← lift (hex_to_u64 (status tx)); mret (if N.eqb status 1 then Confirmed else Failed)
  end.

(** [ToJson for TransactionV2], the legacy case *)
Definition tx_to_json {E} (tx : LegacyTransaction) : outcome E bytes :=
  j ← json_start json_new;
  nonce ← utf8_unwrap (u256_to_hex_0x (tx_nonce tx));
  gas_price ← utf8_unwrap (u256_to_hex_0x (tx_gas_price tx));
  gas_limit ← utf8_unwrap (u256_to_hex_0x (tx_gas_limit tx));
  value ← utf8_unwrap (u256_to_hex_0x (tx_value tx));
  input ← utf8_unwrap (tx_input tx);
  j' ← json_start json_new;
  r ← utf8_unwrap (h256_to_hex_0x (sig_r (tx_signature tx)));
  s ← utf8_unwrap (h256_to_hex_0x (sig_s (tx_signature tx)));
  j' ← json_num «"v"» (sig_v (tx_signature tx)) (json_string «"s"» s (json_string «"r"» r j'));
  signature ← utf8_unwrap (buff (json_end j'));
  Ok (buff (json_end (json_val «"signature"» signature (json_string «"input"» input (json_string «"value"» value
       (json_string «"gas_limit"» gas_limit (json_string «"gas_price"» gas_price (json_string «"nonce"» nonce j)))))))).

End queries.

(** ** What is sent *)

Lemma utf8_unwrap_ok {E} s : from_utf8 s = true -> utf8_unwrap (E := E) s = Ok s.
Proof. unfold utf8_unwrap. by intros ->. Qed.

Lemma arr_vals_buff ps : forall j, empty j = false ->
  buff (foldl (fun j p => json_arr_val p j) j ps) = buff j ++ concat (map (cons 44%N) ps).
Proof.
  induction ps as [|p ps IH]; intros j Hj; cbn [foldl map concat]; [by rewrite app_nil_r|]. rewrite IH by done.
  unfold json_arr_val, json_comma. rewrite Hj. cbn. by rewrite <- !app_assoc.
Qed.

Lemma join_comma p ps : join [44%N] (p :: ps) = p ++ concat (map (cons 44%N) ps).
Proof. revert p. induction ps as [|q ps IH]; intros p; [cbn; by rewrite app_nil_r|]. cbn [join map concat] in *. by rewrite IH. Qed.

Lemma rpc_params_join ps : Forall (fun p => from_utf8 p = true) ps ->
  exists j, rpc_params ps = Ok j /\ buff j = join [44%N] ps /\ from_utf8 (buff j) = true.
Proof.
  intros H. exists (foldl (fun j p => json_arr_val p j) json_new ps). split_and!.
  - unfold rpc_params. generalize json_new. induction H as [|p ps Hp _ IH]; intros j; [done|]. cbn [foldl].
    rewrite <- IH. cbn. by rewrite utf8_unwrap_ok.
  - destruct ps as [|p ps]; [done|]. cbn [foldl]. rewrite arr_vals_buff by done. by rewrite join_comma.
  - cut (from_utf8 (buff json_new) = true); [|done]. generalize json_new.
    induction H as [|p ps Hp _ IH]; intros j Hj; [done|]. cbn [foldl]. apply IH. unfold json_arr_val, json_comma.
    destruct (empty j); cbn; repeat apply from_utf8_append; done.
Qed.

(** The body of a JSON-RPC request: when its texts are UTF-8 the request is
    written as the object of its four members, the parameters separated by
    commas in their order; a parameter that is not UTF-8 panics before anything
    is sent. *)
Theorem rpc_body_shape {crates : Crates} (req : JsonRpcRequest) :
  from_utf8 (req_method req) = true -> from_utf8 (u64_to_str (req_id req)) = true ->
  (Forall (fun p => from_utf8 p = true) (req_params req) ->
   rpc_body req = Ok («"{"» ++ wrap_in_quotes «"id"» ++ «":"» ++ u64_to_str (req_id req)
     ++ «","» ++ wrap_in_quotes «"method"» ++ «":"» ++ wrap_in_quotes (req_method req)
     ++ «","» ++ wrap_in_quotes «"jsonrpc"» ++ «":"» ++ wrap_in_quotes «"2.0"»
     ++ «","» ++ wrap_in_quotes «"params"» ++ «":["» ++ join [44%N] (req_params req) ++ «"]}"»)) /\
  (Exists (fun p => from_utf8 p = false) (req_params req) ->
   forall (host : Host) url (w : World), fetch_json_rpc_body url req w = (Panic, w)).
Proof.
  intros Hm Hid. split.
  - intros Hps. destruct (rpc_params_join _ Hps) as (j & Hj & Hb & Hu). unfold rpc_body. rewrite Hj. cbn -[lit].
    unfold json_num. rewrite (utf8_unwrap_ok _ Hid). cbn -[lit]. rewrite (utf8_unwrap_ok _ Hm). cbn -[lit].
    rewrite (utf8_unwrap_ok _ Hu). cbn -[lit]. f_equal. rewrite Hb. unfold wrap_in_quotes. cbn. by rewrite <- ?app_assoc; cbn; rewrite <- ?app_assoc.
  - intros Hps host url w. unfold fetch_json_rpc_body, rpc_body.
    assert (rpc_params (req_params req) = Panic) as ->; [|done].
    unfold rpc_params. generalize json_new.
    assert (Hpanic : forall ps, foldl (fun acc p => acc ≫= fun j => s ← utf8_unwrap p; Ok (json_arr_val s j)) (Panic (E := ChainRequestError)) ps = Panic).
    { induction ps as [|p ps IH]; [done|]. apply IH. }
    induction Hps as [p ps Hp|p ps _ IH]; intros j; cbn [foldl].
    + change (Ok j ≫= _) with (utf8_unwrap (E := ChainRequestError) p ≫= fun s => Ok (json_arr_val s j)).
      unfold utf8_unwrap at 2. rewrite Hp. apply Hpanic.
    + change (Ok j ≫= _) with (utf8_unwrap (E := ChainRequestError) p ≫= fun s => Ok (json_arr_val s j)).
      unfold utf8_unwrap at 2. destruct (from_utf8 p); [apply IH | apply Hpanic].
Qed.

(** ** Concrete functions in place of the other crates, for examples *)

Fixpoint decimal (fuel : nat) (n : N) : bytes :=
  match fuel with
  | O => []
  | S fuel => (if (n <? 10)%N then [] else decimal fuel (n / 10)) ++ [(ch_0 + n mod 10)%N]
  end.

Definition example_crates : Crates := {|
  keccak256 := fun msg => be_bytes 32 (foldl (fun h b => (h * 257 + b + 7) mod 2 ^ 256)%N 0%N msg);
  decode_to_slice := fun hex n => match hex_pairs hex with Ok bs => if length bs =? n then Some bs else None | _ => None end;
  u256_from_str_radix := fun s _ => match hex_digits_value s with Ok n => Some n | _ => None end;
  u256_encode := fun n => reverse (be_bytes 32 n);
  numtoa_str := fun n _ buf => let ds := decimal 20 n in take (length buf - length ds) buf ++ ds;
  recovery_id_parse := fun n => if (n <? 4)%N then Some n else None;
  public_key_serialize := fun pk => if length pk =? 33 then Some (4%N :: take 32 (drop 1 pk) ++ replicate 32 0%N) else None;
  transaction_signature_new := fun v r s => Some (mkSignature v r s);
  legacy_message_hash := fun tx _ => be_bytes 32 (tx_nonce tx);
  tx_rlp_bytes := fun tx => let s := tx_signature tx in tx_input tx ++ be_bytes 8 (sig_v s) ++ sig_r s ++ sig_s s
|}.

Lemma rpc_body_shape_witness :
  rpc_body (crates := example_crates) (mkRequest 12 «"eth_gasPrice"» [«"1"»; «"2"»]) =
  Ok (lit "{" ++ wrap_in_quotes «"id"» ++ «":12,"» ++ wrap_in_quotes «"method"» ++ «":"» ++ wrap_in_quotes «"eth_gasPrice"»
      ++ «","» ++ wrap_in_quotes «"jsonrpc"» ++ «":"» ++ wrap_in_quotes «"2.0"» ++ «","»
      ++ wrap_in_quotes «"params"» ++ «":[1,2]}"»).
Proof.
  refine (eq_trans (proj1 (rpc_body_shape (crates := example_crates) (mkRequest 12 «"eth_gasPrice"» [«"1"»; «"2"»]) _ _) _) _).
  - reflexivity.
  - reflexivity.
  - repeat constructor.
  - reflexivity.
Defined.
