(* ===== verification/ContractClient.v ===== *)
(** * contract_client.rs: calls of contracts and transactions

    What a call of a contract sends and how the answer is read; how a
    transaction is priced, signed and sent. *)

From S2P Require Import Prelude RustLang EthAbi ChainUtils QuantumPortalPallet ChainQueries.

Record ContractClient := mkContractClient {
  http_api : bytes;
  gateway_contract_address : bytes;
  cc_chain_id : N;
  ledger_manager_address : option bytes;
  authority_manager_address : option bytes;
  miner_manager_address : option bytes }.

Record ContractClientSignature := mkClientSignature { from : bytes; _signer : bytes }.

Definition contract_client_new (http_api gateway_contract_address : bytes) (chain_id : N) : ContractClient :=
  mkContractClient http_api gateway_contract_address chain_id None None None.

Section contract_client.
  Context {crates : Crates} {host : Host}.

(** [ContractClientSignature::from] a public key, [signer] and [get_signer_address] *)
Definition signature_from {E} (signer : bytes) : outcome E ContractClientSignature :=
  addr ← eth_address_from_public_key signer;
  if length addr =? 20 then Ok (mkClientSignature addr signer) else Panic.

Definition signer (s : ContractClientSignature) (hash : bytes) : outcome TransactionCreationError bytes :=
  ok_or (ecdsa_sign_prehashed (_signer s) hash) SigningFailed.

Definition get_signer_address (s : ContractClientSignature) : bytes := replicate 20 0%N.

(** The method and its arguments in hexadecimal; the selector is the hash's first four bytes. *)
Definition function_bytes (method_signature : bytes) (inputs : list Token) : bytes :=
  encode_function_u8 (fun s => take 4 (keccak256 s)) method_signature inputs.

Definition call_json {E} (encoded contract_address : bytes) : outcome E bytes :=
  encoded ← utf8_unwrap encoded;
  to_ ← utf8_unwrap (address_to_hex contract_address);
  j ← json_start json_new;
  Ok (buff (json_end (json_string «"to"» to_ (json_string «"data"» encoded j)))).

(** [call] with an address *)
Definition call_at (c : ContractClient) (method_signature : bytes) (inputs : list Token) (contract_address : bytes) : M bytes :=
  json ← lift (call_json (hex_add_0x (bytes_to_hex (function_bytes method_signature inputs))) contract_address);
  url ← lift (utf8_unwrap (http_api c));
  fetch_json_rpc parse_call_response url (mkRequest 1 «"eth_call"» [json; wrap_in_quotes «"latest"»]).

Definition get_ledger_manager_address (c : ContractClient) : M bytes :=
  res ← call_at c «"quantumPortalLedgerMgr()"» [] (gateway_contract_address c);
  lift (decode_address_response res).

Definition call (c : ContractClient) (method_signature : bytes) (inputs : list Token) (address : option bytes) : M bytes :=
  contract_address ← match address with Some address => mret address | None => get_ledger_manager_address c end;
  call_at c method_signature inputs contract_address.

(** The managers of miners and authorities: address, version and name, the last two as they came *)
Definition get_manager_address (method_signature : bytes) (c : ContractClient) : M (bytes * bytes * bytes) :=
  ledger_manager_address ← get_ledger_manager_address c;
  res ← call c method_signature [] (Some ledger_manager_address);
  address ← lift (decode_address_response res);
  version ← call c «"VERSION()"» [] (Some address);
  name ← call c «"NAME()"» [] (Some address);
  mret (address, version, name).

Definition get_miner_manager_address : ContractClient -> M (bytes * bytes * bytes) := get_manager_address «"minerMgr()"».
Definition get_authority_manager_address : ContractClient -> M (bytes * bytes * bytes) := get_manager_address «"authorityMgr()"».

Definition get_miner_for_block (c : ContractClient) (block_hash : bytes) (block_timestamp chain_timestamp : N) : M bytes :=
  miner_manager_address ← get_miner_manager_address c;
  res ← call c «"findMinerAtTime(bytes32,uint256,uint256)"»
    [FixedBytes block_hash; Uint block_timestamp; Uint chain_timestamp] (Some miner_manager_address.1.1);
  lift (decode_address_response res).

(** ** Sending a transaction *)

Definition nonce (c : ContractClient) (from : bytes) : M N :=
  url ← lift (utf8_unwrap (http_api c));
  rv ← fetch_json_rpc parse_call_response url
    (mkRequest 1 «"eth_getTransactionCount"» [wrap_in_quotes (address_to_hex from); wrap_in_quotes «"latest"»]);
  lift (hex_to_u64 rv).

Definition gas_price (c : ContractClient) : M N :=
  url ← lift (utf8_unwrap (http_api c));
  rv ← fetch_json_rpc parse_call_response url (mkRequest 1 «"eth_gasPrice"» []);
  lift (hex_to_u256 rv).

Definition estimate_gas_json {E} (encoded : bytes) (value : N) (from recipient_address : bytes) : outcome E bytes :=
  encoded ← utf8_unwrap encoded;
  from ← utf8_unwrap (address_to_hex from);
  to_ ← utf8_unwrap (address_to_hex recipient_address);
  value ← utf8_unwrap (u256_to_hex_0x value);
  j ← json_start json_new;
  Ok (buff (json_end (json_string «"value"» value (json_string «"to"» to_ (json_string «"from"» from (json_string «"input"» encoded j)))))).

Definition estimate_gas (c : ContractClient) (encoded : bytes) (value : N) (from recipient_address : bytes) : M N :=
  json ← lift (estimate_gas_json encoded value from recipient_address);
  url ← lift (utf8_unwrap (http_api c));
  rv ← fetch_json_rpc parse_call_response url (mkRequest 1 «"eth_estimateGas"» [json; wrap_in_quotes «"latest"»]);
  lift (hex_to_u256 rv).

(** A quarter is added to the price; a product that does not fit 256 bits panics. *)
Definition raise_price {E} (price : N) : outcome E N :=
  if (price * 125 <? 2 ^ 256)%N then Ok (price * 125 / 100)%N else Panic.

(** [H256::from_slice] panics unless there are 32 bytes. *)
Definition h256_from_slice {E} (bs : bytes) : outcome E bytes := if length bs =? 32 then Ok bs else Panic.

Definition send (c : ContractClient) (method_signature : bytes) (inputs : list Token) (gas_limit gas_price_ : option N) (value : N)
    (nonce_ : option N) (from : bytes) (signing : ContractClientSignature) (recipient_address : bytes) : M bytes :=
  let encoded_bytes := function_bytes method_signature inputs in
  let encoded_bytes_slice := hex_add_0x (bytes_to_hex encoded_bytes) in
  nonce_val ← match nonce_ with None => nonce c from | Some v => mret v end;
  gas_limit_val ← match gas_limit with None => estimate_gas c encoded_bytes_slice value from recipient_address | Some v => mret v end;
  gas_price_val ← match gas_price_ with None => gas_price c ≫= (fun p => lift (raise_price p)) | Some v => mret v end;
  empty ← lift empty_signature;
  let tx := mkTx nonce_val gas_price_val gas_limit_val recipient_address value encoded_bytes empty in
  let hash := tx_hash_to_sign tx (cc_chain_id c) in
  sig_bytes ← lift (convert (signer signing hash));
  sig ← lift (decode_transaction_signature sig_bytes (cc_chain_id c));
  let tx := mkTx nonce_val gas_price_val gas_limit_val recipient_address value encoded_bytes sig in
  let hex_tx := bytes_to_hex (tx_rlp_bytes tx) in
  let hex_tx_fmtd := wrap_in_quotes (hex_add_0x hex_tx) in
  url ← lift (utf8_unwrap (http_api c));
  rv ← fetch_json_rpc parse_call_response url (mkRequest 1 «"eth_sendRawTransaction"» [hex_tx_fmtd]);
  bs ← lift (hex_to_bytes rv);
  lift (h256_from_slice bs).

End contract_client.
