(* ===== verification/SendProps.v ===== *)
(** * What sending a transaction sends *)

From S2P Require Import Prelude RustLang EthAbi ChainUtils QuantumPortalPallet ChainQueries ContractClient.

Section send.
  Context {crates : Crates} {host : Host}.

(** Code that sends at most [k] requests, all of a kind, and changes nothing else *)
Definition same_but_sent (w w' : World) : Prop := storage w' = storage w /\ chain w' = chain w /\ submitted w' = submitted w.

Definition sends {A} (P : bytes * JsonRpcRequest -> Prop) (k : nat) (m : M A) : Prop := forall w,
  (exists l, sent (m w).2 = sent w ++ l /\ Forall P l /\ length l <= k) /\ same_but_sent w (m w).2.

Lemma sends_lift {A} P (r : ChainRequestResult A) : sends P 0 (lift r).
Proof. intros w. split; [exists []; by rewrite app_nil_r | done]. Qed.

Lemma sends_ret {A} P (a : A) : sends P 0 (mret a).
Proof. apply (sends_lift P (Ok a)). Qed.

Lemma sends_bind {A B} P k1 k2 (m : M A) (f : A -> M B) : sends P k1 m -> (forall a, sends P k2 (f a)) -> sends P (k1 + k2) (m ≫= f).
Proof.
  intros Hm Hf w. unfold mbind, M_bind. specialize (Hm w). destruct (m w) as [[a|e|] w']; cbn in *.
  - destruct Hm as [(l1 & E1 & F1 & L1) (S1 & C1 & B1)]. destruct (Hf a w') as [(l2 & E2 & F2 & L2) (S2 & C2 & B2)].
    split; [|split_and!; by etrans]. exists (l1 ++ l2). rewrite E2, E1, app_assoc, Forall_app, length_app. split_and!; [done..|lia].
  - destruct Hm as [(l & ? & ? & ?) ?]. split; [exists l; split_and!; [done..|lia] | done].
  - destruct Hm as [(l & ? & ? & ?) ?]. split; [exists l; split_and!; [done..|lia] | done].
Qed.

Lemma sends_more {A} P k k' (m : M A) : sends P k m -> k <= k' -> sends P k' m.
Proof. intros H Hk w. destruct (H w) as [(l & ? & ? & ?) ?]. split; [|done]. exists l. split_and!; [done..|lia]. Qed.

Lemma sends_fetch {T} (P : bytes * JsonRpcRequest -> Prop) (parse : bytes -> option T) url req : P (url, req) -> sends P 1 (fetch_json_rpc parse url req).
Proof.
  intros HP. unfold fetch_json_rpc, fetch_json_rpc_body. apply (sends_bind _ 1 0); [|intros; apply sends_lift].
  apply (sends_bind _ 0 1); [apply sends_lift|]. intros body. apply (sends_bind _ 0 1); [apply sends_lift|]. intros _.
  apply (sends_bind _ 1 0).
  - intros w. unfold http_request. destruct (http_send _ _ _) as [r n]. split; [|done].
    exists [(url, req)]. split_and!; [done|by constructor|done].
  - intros [code text]. apply (sends_bind _ 0 0); [apply sends_lift|]. intros _. cbn.
    destruct (N.eqb _ _); [apply sends_ret | apply sends_lift].
Qed.

Definition raw_method : bytes := «"eth_sendRawTransaction"».

(** A question to the node of a client, not a transaction *)
Definition question (c : ContractClient) (x : bytes * JsonRpcRequest) : Prop := x.1 = http_api c /\ req_method x.2 <> raw_method.

(** A request to the client's node, the text of whose address is looked at first *)
Lemma sends_to_node {T A} c (parse : bytes -> option T) (f : T -> ChainRequestResult A) req : req_method req <> raw_method ->
  sends (question c) 1 (url ← lift (utf8_unwrap (http_api c)); rv ← fetch_json_rpc parse url req; lift (f rv)).
Proof.
  intros Hr w. unfold mbind at 1, M_bind at 1, lift at 1, utf8_unwrap.
  destruct (from_utf8 (http_api c)); [|split; [exists []; rewrite app_nil_r; split_and!; [done..|cbn; lia] | done]].
  refine (sends_bind (question c) 1 0 (fetch_json_rpc parse (http_api c) req) (fun rv => lift (f rv)) _ _ w);
    [by apply sends_fetch | intros; apply sends_lift].
Qed.

Lemma nonce_question c a : sends (question c) 1 (nonce c a).
Proof. by apply sends_to_node. Qed.

Lemma gas_price_question c : sends (question c) 1 (gas_price c).
Proof. by apply sends_to_node. Qed.

Lemma estimate_gas_question c e v a b : sends (question c) 1 (estimate_gas c e v a b).
Proof. unfold estimate_gas. apply (sends_bind _ 0 1); [apply sends_lift|]. intros json. by apply sends_to_node. Qed.

(** ** The transaction *)

Lemma M_bind_ok {A B} (m : M A) (f : A -> M B) w b w' :
  (m ≫= f) w = (Ok b, w') -> exists a w1, m w = (Ok a, w1) /\ f a w1 = (Ok b, w').
Proof. unfold mbind, M_bind. destruct (m w) as [[a|e|] w1]; [by exists a, w1|discriminate..]. Qed.

Lemma sends_ok {A} P k (m : M A) w r w' : sends P k m -> m w = (r, w') ->
  exists l, sent w' = sent w ++ l /\ Forall P l /\ length l <= k /\ same_but_sent w w'.
Proof. intros H E. specialize (H w). rewrite E in H. destruct H as [(l & ? & ? & ?) ?]. by exists l. Qed.

(** A request that was answered was sent, once. *)
Lemma fetch_ok {T} (parse : bytes -> option T) url req w t w' : fetch_json_rpc parse url req w = (Ok t, w') ->
  sent w' = sent w ++ [(url, req)] /\ same_but_sent w w'.
Proof.
  intros H. unfold fetch_json_rpc, fetch_json_rpc_body in H. apply M_bind_ok in H as (body & w1 & H & H'). injection H' as _ <-.
  apply M_bind_ok in H as (text & w2 & H2 & H). injection H2 as _ <-. apply M_bind_ok in H as (? & w2 & H2 & H). injection H2 as _ <-.
  apply M_bind_ok in H as (resp & w2 & H2 & H). unfold http_request in H2. destruct (http_send _ _ _) as [o n]. injection H2 as _ <-.
  apply M_bind_ok in H as (? & w3 & H3 & H). injection H3 as _ <-. destruct (N.eqb _ _); [|done]. by injection H as _ <-.
Qed.

(** A value that is given, or asked for *)
Lemma given_or_asked {A} P k (o : option A) (m : M A) : sends P k m -> sends P k (match o with None => m | Some v => mret v end).
Proof. intros H. destruct o; [apply (sends_more _ 0); [apply sends_ret|lia] | done]. Qed.

Lemma given_value {A} (o : option A) (m : M A) w a w' : (match o with None => m | Some v => mret v end) w = (Ok a, w') -> forall v, o = Some v -> a = v.
Proof. intros H v ->. by injection H. Qed.

(** The transaction that is sent, but for its signature *)
Definition transaction_of (method_signature : bytes) (inputs : list Token) (nonce gas_limit gas_price value : N) (recipient : bytes)
    (s : TransactionSignature) : LegacyTransaction :=
  mkTx nonce gas_price gas_limit recipient value (function_bytes method_signature inputs) s.

Definition raw_request (tx : LegacyTransaction) : JsonRpcRequest :=
  mkRequest 1 raw_method [wrap_in_quotes (hex_add_0x (bytes_to_hex (tx_rlp_bytes tx)))].

(** C11. Sending a transaction, when it returns its hash: at most three questions
    went to the node, and after them exactly one transaction, the last request.
    It carries the method and arguments that were asked for, the nonce, gas and
    price that were given where they were, and the signature of the given key over
    the hash of the same transaction with the chain's id; nothing else has
    changed. *)
Theorem send_signs_what_it_sends c method_signature inputs gas_limit gas_price_ value nonce_ from signing recipient (w w' : World) h :
  send c method_signature inputs gas_limit gas_price_ value nonce_ from signing recipient w = (Ok h, w') ->
  exists n limit price unsigned sig_bytes sig questions,
    let tx := transaction_of method_signature inputs n limit price value recipient in
    (forall x, nonce_ = Some x -> n = x) /\ (forall x, gas_limit = Some x -> limit = x) /\ (forall x, gas_price_ = Some x -> price = x) /\
    empty_signature (E := ChainRequestError) = Ok unsigned /\
    ecdsa_sign_prehashed (_signer signing) (tx_hash_to_sign (tx unsigned) (cc_chain_id c)) = Some sig_bytes /\
    decode_transaction_signature sig_bytes (cc_chain_id c) = Ok sig /\
    sent w' = sent w ++ questions ++ [(http_api c, raw_request (tx sig))] /\
    Forall (question c) questions /\ length questions <= 3 /\ same_but_sent w w' /\ length h = 32.
Proof.
  intros H. unfold send in H.
  apply M_bind_ok in H as (n & w1 & H1 & H). pose proof (given_value _ _ _ _ _ H1) as V1.
  apply (sends_ok (question c) 1) in H1 as (l1 & E1 & F1 & L1 & S1 & C1 & B1); [|apply given_or_asked, nonce_question].
  apply M_bind_ok in H as (limit & w2 & H2 & H). pose proof (given_value _ _ _ _ _ H2) as V2.
  apply (sends_ok (question c) 1) in H2 as (l2 & E2 & F2 & L2 & S2 & C2 & B2); [|apply given_or_asked, estimate_gas_question].
  apply M_bind_ok in H as (price & w3 & H3 & H). pose proof (given_value _ _ _ _ _ H3) as V3.
  apply (sends_ok (question c) 1) in H3 as (l3 & E3 & F3 & L3 & S3 & C3 & B3);
    [|apply given_or_asked, (sends_bind _ 1 0); [apply gas_price_question | intros; apply sends_lift]].
  apply M_bind_ok in H as (unsigned & w4 & H4 & H). injection H4 as H4 <-.
  apply M_bind_ok in H as (sig_bytes & w4 & H5 & H). injection H5 as H5 <-.
  apply M_bind_ok in H as (sig & w4 & H6 & H). injection H6 as H6 <-.
  apply M_bind_ok in H as (url & w4 & H7 & H). unfold lift, utf8_unwrap in H7. destruct (from_utf8 (http_api c)); [|done]. injection H7 as <- <-.
  apply M_bind_ok in H as (rv & w4 & H8 & H).
  exists n, limit, price, unsigned, sig_bytes, sig, (l1 ++ l2 ++ l3). cbn zeta.
  apply fetch_ok in H8 as (E4 & S4 & C4 & B4). apply M_bind_ok in H as (bs & w5 & H9 & H). injection H9 as _ <-.
  unfold lift, h256_from_slice in H. destruct (length bs =? 32) eqn:El; [|done]. injection H as <- <-. apply Nat.eqb_eq in El.
  unfold convert, signer in H5. destruct (ecdsa_sign_prehashed _ _) as [sb|] eqn:Es; [|done]. injection H5 as ->.
  split_and!; [done..| | | |split_and!; congruence|done].
  - by rewrite E4, E3, E2, E1, <- !app_assoc.
  - by rewrite !Forall_app.
  - rewrite !length_app. lia.
Qed.

End send.

(** ** An example: a node that takes the transaction *)

Definition taking_host : Host := {|
  Net := ();
  http_send := fun _ _ n => (Some (200%N, ch_0 :: ch_x :: replicate 64 49%N), n);
  timestamp_unix_millis := fun _ => 0%N;
  ecdsa_sign_prehashed := fun _ h => Some (h ++ h ++ [1%N]);
  parse_call_response := Some;
  parse_receipt_response := fun _ => None;
  info_enabled := false
|}.

Lemma send_signs_what_it_sends_witness :
  let c := contract_client_new «"http://node"» (replicate 20 1%N) 26000 in
  let o := send (crates := example_crates) (host := taking_host) c «"f(uint256)"» [Uint 5] (Some 1000%N) (Some 7%N) 0 (Some 3%N)
    (replicate 20 2%N) (mkClientSignature (replicate 20 2%N) (replicate 33 3%N)) (replicate 20 4%N) (mkWorld taking_host () [] ∅ genesis []) in
  o.1 = Ok (replicate 32 17%N) /\ exists x, sent o.2 = x ++ [(«"http://node"», raw_request (crates := example_crates)
    (transaction_of (crates := example_crates) «"f(uint256)"» [Uint 5] 3 1000 7 0 (replicate 20 4%N)
      (mkSignature (26000 * 2 + 36) (be_bytes 32 3) (be_bytes 32 3))))].
Proof.
  cbn zeta. match goal with |- ?o.1 = _ /\ _ => assert (H : o.1 = Ok (replicate 32 17%N)) by (vm_compute; reflexivity); split; [exact H|];
    destruct o as [r w'] eqn:E end. cbn [fst snd] in *. subst r.
  destruct (send_signs_what_it_sends (crates := example_crates) _ _ _ _ _ _ _ _ _ _ _ _ _ E)
    as (n & limit & price & unsigned & sig_bytes & sig & qs & Hn & Hl & Hp & _ & Hs & Hd & Hsent & _).
  rewrite (Hn _ eq_refl), (Hl _ eq_refl), (Hp _ eq_refl) in *. exists qs. rewrite Hsent. cbn [sent app].
  assert (Hb : sig_bytes = be_bytes 32 3 ++ be_bytes 32 3 ++ [1%N]) by (injection Hs as <-; reflexivity). subst sig_bytes.
  vm_compute in Hd. injection Hd as <-. vm_compute. reflexivity.
Defined.
