(* ===== verification/QuantumPortalClient.v ===== *)
(** * quantum_portal_client.rs, qp_types.rs and eip_712_utils.rs

    One client per chain: it reads blocks from the contracts, mines and
    finalizes.  The functions are over the world of [ChainQueries]; the
    decoding uses [EthAbi]. *)

From S2P Require Import Prelude RustLang EthAbi ChainUtils QuantumPortalPallet ChainQueries ContractClient.

(** ** qp_types.rs *)

Record QpTransaction := mkQpTransaction {
  timestamp : N; remote_contract : bytes; source_msg_sender : bytes; source_beneficiary : bytes;
  token : bytes; amount : N; method : bytes; gas : N; fixed_fee : N }.

#[export] Instance QpTransaction_eq_dec : EqDecision QpTransaction.
Proof. solve_decision. Defined.

Record QpLocalBlock := mkQpLocalBlock { lb_chain_id : N; lb_nonce : N; lb_timestamp : N }.

Record QpRemoteBlock := mkQpRemoteBlock {
  block_hash : bytes; miner : bytes; stake : N; total_value : N; block_metadata : QpLocalBlock }.

Inductive Role := RoleNone | QP_MINER | QP_FINALIZER.

Definition role_from (v : bytes) : Role :=
  if bool_decide (v = «"QP_MINER"») then QP_MINER
  else if bool_decide (v = «"QP_FINALIZER"») then QP_FINALIZER
  else RoleNone.

Record QpNetworkItem := mkNetworkItem { url : bytes; gateway : bytes; network_id : N }.
Record QpConfig := mkQpConfig {
  network_vec : list QpNetworkItem; pair_vec : list (N * N); signer_public_key : bytes; role : Role }.

Definition MAX_PAIRS_TO_MINE : nat := 6.

Definition ZERO_HASH : bytes := replicate 32 0%N.

(** ** Decoding *)

Definition local_block_tuple0 : list ParamKind := [KUint 256; KUint 256; KUint 256].
Definition local_block_tuple : ParamKind := KTuple [KUint 256; KUint 256; KUint 256].

Definition transaction_tuple : ParamKind :=
  KTuple [KUint 256; KAddress; KAddress; KAddress; KAddress; KUint 256; KArray KBytes; KUint 256; KUint 256].

Definition mined_block_tuple : ParamKind :=
  KTuple [KFixedBytes 32; KAddress; KUint 256; KUint 256; KUint 256; local_block_tuple].

(** [U256::as_u64] panics on a number that does not fit. *)
Definition as_u64 {E} (n : N) : outcome E N := if (n <? 2 ^ 64)%N then Ok n else Panic.

(** An error made from a message *)
Definition message {A} (s : bytes) : ChainRequestResult A := Err (JsonRpcError s).

Definition decode_remote_transaction_from_tuple (dec : list Token) : ChainRequestResult QpTransaction :=
  match dec with
  | [timestamp; remote_contract; source_msg_sender; source_beneficiary; token; amount; method; gas; fixed_fee] =>
      timestamp ← unwrap (to_uint timestamp) ≫= as_u64;
      remote_contract ← unwrap (to_address remote_contract);
      source_msg_sender ← unwrap (to_address source_msg_sender);
      source_beneficiary ← unwrap (to_address source_beneficiary);
      token ← unwrap (to_address token);
      amount ← unwrap (to_uint amount);
      fixed_fee ← unwrap (to_uint fixed_fee);
      method ← unwrap (to_bytes method);
      gas ← unwrap (to_uint gas) ≫= as_u64;
      Ok (mkQpTransaction timestamp remote_contract source_msg_sender source_beneficiary token amount method gas fixed_fee)
  | _ => message «"Unexpected output. Could not decode remote transaction"»
  end.

(** The closure applied to each transaction unwraps twice. *)
Fixpoint decode_transactions (ts : list Token) : ChainRequestResult (list QpTransaction) :=
  match ts with
  | [] => Ok []
  | t :: ts =>
      dec ← unwrap (to_tuple t);
      tx ← unwrap_result (decode_remote_transaction_from_tuple dec);
      txs ← decode_transactions ts;
      Ok (tx :: txs)
  end.

Definition decode_remote_block_and_txs {T} (data : bytes) (mined_block_tuple : ParamKind)
    (block_tuple_decoder : Token -> ChainRequestResult T) : ChainRequestResult (T * list QpTransaction) :=
  bs ← hex_to_bytes data;
  dec ← unwrap_result (decode [mined_block_tuple; KArray transaction_tuple] bs);
  match dec with
  | [mined_block; remote_transactions] =>
      block ← block_tuple_decoder mined_block;
      txs ← unwrap (to_array remote_transactions);
      txs ← decode_transactions txs;
      Ok (block, txs)
  | _ => message «"Unexpected output. Could not decode local block at first level"»
  end.

Definition decode_local_block_from_tuple (dec : list Token) : ChainRequestResult QpLocalBlock :=
  match dec with
  | [chain_id; nonce; timestamp] =>
      chain_id ← unwrap (to_uint chain_id) ≫= as_u64;
      nonce ← unwrap (to_uint nonce) ≫= as_u64;
      timestamp ← unwrap (to_uint timestamp) ≫= as_u64;
      Ok (mkQpLocalBlock chain_id nonce timestamp)
  | _ => message «"Unexpected output. Could not decode local block"»
  end.

Definition decode_local_block (data : bytes) : ChainRequestResult QpLocalBlock :=
  bs ← hex_to_bytes data;
  dec ← unwrap_result (decode local_block_tuple0 bs);
  decode_local_block_from_tuple dec.

Definition decode_mined_block_from_tuple (dec : list Token) : ChainRequestResult QpRemoteBlock :=
  match dec with
  | [block_hash; miner; stake; total_value; block_metadata] =>
      block_metadata ← unwrap (to_tuple block_metadata);
      block_metadata ← decode_local_block_from_tuple block_metadata;
      block_hash ← unwrap (to_fixed_bytes block_hash) ≫= h256_from_slice;
      miner ← unwrap (to_address miner);
      stake ← unwrap (to_uint stake);
      total_value ← unwrap (to_uint total_value);
      Ok (mkQpRemoteBlock block_hash miner stake total_value block_metadata)
  | _ => message «"Unexpected output. Could not decode mined block"»
  end.

(** ** Comparing a mined block with its source *)

Definition compare_and_verify_mined_block (source_txs mined_txs : list QpTransaction) : bool :=
  if negb (length source_txs =? length mined_txs) then false
  else forallb (fun transaction : QpTransaction => bool_decide (transaction ∈ mined_txs)) source_txs.

(** ** eip_712_utils.rs *)

Section eip712.
  Context {crates : Crates}.

Definition get_encoded_hash (inputs : list Token) : bytes := keccack (encode inputs).

Definition generate_eip_712_domain_seperator_hash (contract_name contract_version : bytes) (chain_id : N) (contract_address : bytes) : bytes :=
  let type_hash := keccack «"EIP712Domain(string name,string version,uint256 chainId,address verifyingContract)"» in
  let hashed_name := keccack contract_name in
  let hashed_version := keccack contract_version in
  get_encoded_hash [FixedBytes type_hash; FixedBytes hashed_name; FixedBytes hashed_version; Uint chain_id; Address contract_address].

Definition generate_eip_712_hash (domain_seperator_hash eip_args_hash : bytes) : bytes :=
  keccack ([0x19; 0x01]%N ++ domain_seperator_hash ++ eip_args_hash).

Definition local_block_hash (b : QpLocalBlock) : bytes :=
  keccack (encode [Uint (lb_chain_id b); Uint (lb_chain_id b); Uint (lb_chain_id b)]).

End eip712.

(** ** The client *)

Record QuantumPortalClient := mkClient {
  contract : ContractClient; client_signer : ContractClientSignature; now : N; block_number : N }.

Section client.
  Context {crates : Crates} {host : Host}.

Definition is_local_block_ready (c : QuantumPortalClient) (chain_id : N) : M bool :=
  res ← call (contract c) «"isLocalBlockReady(uint64)"» [Uint chain_id] None;
  val ← lift (hex_to_u256 res);
  mret (negb (N.eqb val 0)).

(** The three queries of a block differ in the method. *)
Definition query_local_block (signature : bytes) (c : QuantumPortalClient) (chain_id : N) : M QpLocalBlock :=
  res ← call (contract c) signature [Uint chain_id] None;
  lift (decode_local_block res).

Definition last_remote_mined_block : QuantumPortalClient -> N -> M QpLocalBlock := query_local_block «"lastRemoteMinedBlock(uint64)"».
Definition last_finalized_block : QuantumPortalClient -> N -> M QpLocalBlock := query_local_block «"getLastFinalizedBlock(uint256)"».
Definition last_local_block : QuantumPortalClient -> N -> M QpLocalBlock := query_local_block «"getLastLocalBlock(uint256)"».

Definition read_local_block (data : bytes) : ChainRequestResult (QpLocalBlock * list QpTransaction) :=
  decode_remote_block_and_txs data local_block_tuple (fun block =>
    block ← unwrap (to_tuple block); decode_local_block_from_tuple block).

Definition local_block_by_nonce (c : QuantumPortalClient) (chain_id last_block_nonce : N) : M (QpLocalBlock * list QpTransaction) :=
  res ← call (contract c) «"localBlockByNonce(uint64,uint64)"» [Uint chain_id; Uint last_block_nonce] None;
  lift (read_local_block res).

Definition read_mined_block (data : bytes) : ChainRequestResult (QpRemoteBlock * list QpTransaction) :=
  decode_remote_block_and_txs data mined_block_tuple (fun block =>
    block ← unwrap (to_tuple block); decode_mined_block_from_tuple block).

Definition mined_block_by_nonce (c : QuantumPortalClient) (chain_id last_block_nonce : N) : M (QpRemoteBlock * list QpTransaction) :=
  res ← call (contract c) «"minedBlockByNonce(uint64,uint64)"» [Uint chain_id; Uint last_block_nonce] None;
  lift (read_mined_block res).

(** ** Signatures *)

(** [sig[0..64]] followed by 28 and 31 zeros; panics on a shorter one. *)
Definition compress {E} (sig : bytes) : outcome E bytes :=
  if length sig <? 64 then Panic else Ok (take 64 sig ++ [28%N] ++ replicate 31 0%N).

Definition or_no_address {A} (m : M A) : M A := fun w =>
  match m w with
  | (Err _, w) => (Err (ErrorCreatingTransaction CannotFindContractAddress), w)
  | r => r
  end.

Definition domain_of (c : QuantumPortalClient) (manager : bytes * bytes * bytes) : bytes :=
  let '(verifying_contract_address, verifying_contract_version, verifying_contract_name) := manager in
  generate_eip_712_domain_seperator_hash verifying_contract_name verifying_contract_version
    (cc_chain_id (contract c)) verifying_contract_address.

Definition finalize_eip_args (remote_chain_id block_nonce : N) (finalizer_hash : Token) (finalizer_list : list Token) (salt expiry : Token) : bytes :=
  let finalize_method_signature_hash :=
    keccack «"Finalize(uint256 remoteChainId,uint256 blockNonce,bytes32 finalizersHash,address[] finalizers,bytes32 salt,uint64 expiry)"» in
  let encoded_message_hash := get_encoded_hash
    [FixedBytes finalize_method_signature_hash; Uint remote_chain_id; Uint block_nonce; finalizer_hash;
     Array finalizer_list; salt; expiry] in
  let method_hash := keccack «"ValidateAuthoritySignature(uint256 action,bytes32 msgHash,bytes32 salt,uint64 expiry)"» in
  get_encoded_hash [FixedBytes method_hash; Uint 1; FixedBytes encoded_message_hash; salt; expiry].

Definition generate_multi_signature (c : QuantumPortalClient) (remote_chain_id block_nonce : N) (finalizer_hash : Token)
    (finalizer_list : list Token) (salt expiry : Token) : M bytes :=
  manager ← or_no_address (get_authority_manager_address (contract c));
  let eip_712_hash := generate_eip_712_hash (domain_of c manager)
    (finalize_eip_args remote_chain_id block_nonce finalizer_hash finalizer_list salt expiry) in
  multi_sig_bytes ← lift (convert (signer (client_signer c) eip_712_hash));
  lift (compress multi_sig_bytes).

Definition mine_eip_args (remote_chain_id block_nonce : N) (txs : list Token) (salt expiry : Token) : bytes :=
  let miner_method_signature_hash := keccack «"MinerSignature(bytes32 msgHash,uint64 expiry,bytes32 salt)"» in
  let encoded_message_hash := get_encoded_hash [Uint remote_chain_id; Uint block_nonce; Array txs] in
  get_encoded_hash [FixedBytes miner_method_signature_hash; FixedBytes encoded_message_hash; expiry; salt].

Definition generate_miner_signature (c : QuantumPortalClient) (remote_chain_id block_nonce : N) (txs : list Token) (salt expiry : Token) : M bytes :=
  manager ← or_no_address (get_miner_manager_address (contract c));
  let eip_712_hash := generate_eip_712_hash (domain_of c manager) (mine_eip_args remote_chain_id block_nonce txs salt expiry) in
  multi_sig_bytes ← lift (convert (signer (client_signer c) eip_712_hash));
  lift (compress multi_sig_bytes).

(** ** Finalizing *)

(** The block that a finalize transaction is about, its hash as salt and the time at which it expires *)
Definition finalize_block (c : QuantumPortalClient) (remote_chain_id block_nonce : N) : M (Token * Token) :=
  block ← mined_block_by_nonce c remote_chain_id block_nonce;
  let expiry_time := u64_saturating_add (lb_timestamp (block_metadata block.1)) 3600 in
  mret (FixedBytes (block_hash block.1), Uint expiry_time).

Definition submit_unsigned_transaction (call : Call) : M () := fun w =>
  (Ok (), mkWorld _ (net w) (sent w) (storage w) (chain w) (submitted w ++ [call])).

Definition create_finalize_transaction (c : QuantumPortalClient) (remote_chain_id block_nonce : N) (verification_result : bool) : M bytes :=
  details ← finalize_block c remote_chain_id block_nonce;
  let '(salt, expiry) := details in
  multi_sig ← generate_multi_signature c remote_chain_id block_nonce salt [] salt expiry;
  _ ← submit_unsigned_transaction (SubmitSignature remote_chain_id block_nonce multi_sig);
  mret ZERO_HASH.

Definition finalize_method : bytes :=
  «"finalizeSingleSigner(uint256,uint256,uint256[],bytes32,address[],bytes32,uint64,bytes)"».

Definition finalize_inputs (remote_chain_id block_nonce : N) (verification_result : bool) (salt expiry : Token) (multi_sig : bytes) : list Token :=
  let invalid_block := if verification_result then [] else [Uint block_nonce] in
  [Uint remote_chain_id; Uint block_nonce; Array invalid_block; salt; Array []; salt; expiry; Bytes multi_sig].

Definition send_finalize (c : QuantumPortalClient) (inputs : list Token) : M bytes :=
  recipient_address ← get_ledger_manager_address (contract c);
  _ ← send (contract c) finalize_method inputs None None 0 None (from (client_signer c)) (client_signer c) recipient_address;
  mret ZERO_HASH.

Definition combined_signatures (multi_sigs : list (AccountId * bytes)) : bytes := concat (map snd multi_sigs).

Definition post_finalize_transaction (c : QuantumPortalClient) (remote_chain_id block_nonce : N) (verification_result : bool) : M bytes :=
  details ← finalize_block c remote_chain_id block_nonce;
  let '(salt, expiry) := details in
  w ← get;
  multi_sigs ← lift (unwrap (PendingFinalizeSignatures (chain w) !! (remote_chain_id, block_nonce)));
  multisig_compressed ← lift (compress (combined_signatures multi_sigs));
  send_finalize c (finalize_inputs remote_chain_id block_nonce verification_result salt expiry multisig_compressed).

Definition post_finalizer_transaction (c : QuantumPortalClient) (remote_chain_id block_nonce : N) (verification_result : bool) : M bytes :=
  details ← finalize_block c remote_chain_id block_nonce;
  let '(salt, expiry) := details in
  multi_sig ← generate_multi_signature c remote_chain_id block_nonce salt [] salt expiry;
  send_finalize c (finalize_inputs remote_chain_id block_nonce verification_result salt expiry multi_sig).

Definition finalize (c : QuantumPortalClient) (chain_id : N) : M (option bytes) :=
  block ← last_remote_mined_block c chain_id;
  last_fin ← last_finalized_block c chain_id;
  if (lb_nonce last_fin <? lb_nonce block)%N then
    mined ← mined_block_by_nonce c chain_id (lb_nonce block);
    source ← local_block_by_nonce c chain_id (lb_nonce block);
    let verification_result := compare_and_verify_mined_block source.2 mined.2 in
    w ← get;
    let multi_sigs := PendingFinalizeSignatures (chain w) !! (chain_id, lb_nonce block) in
    let threshold := default 0%N (FinalizerThreshold (chain w) !! chain_id) in
    match multi_sigs with
    | Some multi_sigs =>
        if (threshold <? N.of_nat (length multi_sigs))%N
        then Some <$> post_finalize_transaction c chain_id (lb_nonce block) verification_result
        else Some <$> create_finalize_transaction c chain_id (lb_nonce block) verification_result
    | None => Some <$> create_finalize_transaction c chain_id (lb_nonce block) verification_result
    end
  else mret None.

(** ** Mining *)

Definition transaction_token (t : QpTransaction) : Token :=
  Tuple [Uint (timestamp t); Address (remote_contract t); Address (source_msg_sender t); Address (source_beneficiary t);
         Address (token t); Uint (amount t); Array [Bytes (method t)]; Uint (gas t); Uint (fixed_fee t)].

Definition mine_method : bytes :=
  «"mineRemoteBlock(uint64,uint64,(uint64,address,address,address,address,uint256,bytes,uint256,uint256)[],bytes32,uint64,bytes)"».

Definition create_mine_transaction (c : QuantumPortalClient) (remote_chain_id block_nonce : N) (txs : list QpTransaction)
    (source_block : QpLocalBlock) : M bytes :=
  let expiry := Uint (u64_saturating_add (lb_timestamp source_block) 360000) in
  let salt := FixedBytes [0; 0]%N in
  let tx_vec := map transaction_token txs in
  multi_sig ← generate_miner_signature c remote_chain_id block_nonce tx_vec salt expiry;
  recipient_address ← get_ledger_manager_address (contract c);
  send (contract c) mine_method
    [Uint remote_chain_id; Uint block_nonce; Array tx_vec; salt; expiry; Bytes multi_sig]
    (Some 1000000%N) None 0 None (from (client_signer c)) (client_signer c) recipient_address.

Definition mine (c remote_client : QuantumPortalClient) : M (option bytes) :=
  let local_chain := cc_chain_id (contract c) in
  let remote_chain := cc_chain_id (contract remote_client) in
  block_ready ← is_local_block_ready remote_client local_chain;
  if negb block_ready then mret None
  else
    last_block ← last_local_block remote_client local_chain;
    last_mined_block ← last_remote_mined_block c remote_chain;
    if (lb_nonce last_block <=? lb_nonce last_mined_block)%N then mret None
    else
      mined_block ← mined_block_by_nonce c remote_chain (lb_nonce last_block);
      if negb (bool_decide (block_hash mined_block.1 = ZERO_HASH)) then lift (Err RemoteBlockAlreadyMined)
      else
        source_block ← local_block_by_nonce remote_client local_chain (u64_saturating_add (lb_nonce last_mined_block) 1);
        w ← get;
        _ ← get_miner_for_block (contract c) (local_block_hash source_block.1) (lb_timestamp source_block.1) (timestamp_unix_millis (net w));
        Some <$> create_mine_transaction c remote_chain (lb_nonce source_block.1) source_block.2 source_block.1.

End client.
