(* ===== verification/QuantumPortalProps.v ===== *)
(** * What the client of the quantum portal reads, compares and sends *)

From S2P Require Import Prelude RustLang EthAbi EthAbiProps ChainUtils QuantumPortalPallet ChainQueries ContractClient QuantumPortalClient.

(** ** Comparing blocks *)

Lemma compare_spec source_txs mined_txs :
  compare_and_verify_mined_block source_txs mined_txs = true <->
  length source_txs = length mined_txs /\ forall t, t ∈ source_txs -> t ∈ mined_txs.
Proof.
  unfold compare_and_verify_mined_block. destruct (length source_txs =? length mined_txs) eqn:El; cbn [negb].
  - apply Nat.eqb_eq in El. rewrite forallb_forall. split.
    + intros H. split; [done|]. intros t Ht. apply list_elem_of_In in Ht. by apply H, bool_decide_eq_true in Ht.
    + intros [_ H] t Ht. apply bool_decide_eq_true, H. by apply list_elem_of_In.
  - apply Nat.eqb_neq in El. naive_solver.
Qed.

(** C13. The check of a mined block before it is finalized: the same transactions in any
    order pass it; what passes it has the same number of transactions and
    every source transaction among them; and when no source transaction occurs
    twice, what passes is the same transactions in some order. *)
Theorem verify_mined_block (source_txs mined_txs : list QpTransaction) :
  (source_txs ≡ₚ mined_txs -> compare_and_verify_mined_block source_txs mined_txs = true) /\
  (compare_and_verify_mined_block source_txs mined_txs = true ->
   length source_txs = length mined_txs /\ (forall t, t ∈ source_txs -> t ∈ mined_txs) /\
   (NoDup source_txs -> source_txs ≡ₚ mined_txs)).
Proof.
  rewrite compare_spec. split.
  - intros H. split; [by apply Permutation_length|]. intros t. by rewrite H.
  - intros [Hl Ht]. split_and!; [done..|]. intros Hd. apply submseteq_length_Permutation; [|lia]. by apply NoDup_submseteq.
Qed.

Definition tx_of (n : N) : QpTransaction := mkQpTransaction n [] [] [] [] n [] n n.

(** With a transaction that occurs twice, another block of the same size passes. *)
Lemma verify_mined_block_witness :
  compare_and_verify_mined_block [tx_of 1; tx_of 2; tx_of 3] [tx_of 3; tx_of 1; tx_of 2] = true /\
  compare_and_verify_mined_block [tx_of 1; tx_of 1; tx_of 2] [tx_of 1; tx_of 2; tx_of 2] = true /\
  compare_and_verify_mined_block [tx_of 1] [tx_of 2] = false.
Proof.
  split; [|by vm_compute].
  apply (verify_mined_block [tx_of 1; tx_of 2; tx_of 3] [tx_of 3; tx_of 1; tx_of 2]). solve_Permutation.
Defined.

(** ** Reading blocks *)

(** What a contract answers: the values encoded, in hexadecimal *)
Definition answer (ts : list Token) : bytes := hex_add_0x (bytes_to_hex (encode ts)).

Definition local_block_tokens (b : QpLocalBlock) : list Token := [Uint (lb_chain_id b); Uint (lb_nonce b); Uint (lb_timestamp b)].

Definition block_and_txs (b : QpLocalBlock) (txs : list QpTransaction) : list Token :=
  [Tuple (local_block_tokens b); Array (map transaction_token txs)].

Definition u64_block (b : QpLocalBlock) : Prop :=
  (lb_chain_id b < 2 ^ 64 /\ lb_nonce b < 2 ^ 64 /\ lb_timestamp b < 2 ^ 64)%N.

Definition is_address (a : bytes) : Prop := length a = 20 /\ Forall byte a.

Definition solidity_tx (t : QpTransaction) : Prop :=
  (timestamp t < 2 ^ 256 /\ amount t < 2 ^ 256 /\ gas t < 2 ^ 256 /\ fixed_fee t < 2 ^ 256)%N /\
  is_address (remote_contract t) /\ is_address (source_msg_sender t) /\ is_address (source_beneficiary t) /\ is_address (token t) /\
  Forall byte (method t).

(** What is answered reaches the decoder, and is decoded. *)
Lemma decode_answer ks ts :
  forallb regular ks = true -> Forall2 typed ks ts -> Forall made_of_bytes ts -> (N.of_nat (length (encode ts)) < 2 ^ 32)%N -> encode ts <> [] ->
  (bs ← hex_to_bytes (answer ts); unwrap_result (decode ks bs)) = Ok (E := ChainRequestError) ts.
Proof.
  intros Hr Ht Hb Hl Hn. unfold answer. rewrite hex_to_bytes_0x by (by apply encode_bytes). cbn.
  by rewrite (decode_encode_ok ks ts Hr Ht Hl (or_introl Hn)).
Qed.

Lemma u64_u256 n : (n < 2 ^ 64)%N -> (n < 2 ^ 256)%N.
Proof. intros H. eapply N.lt_trans; [exact H|]. by vm_compute. Qed.

Lemma as_u64_ok {E} n : (n < 2 ^ 64)%N -> as_u64 (E := E) n = Ok n.
Proof. intros H. unfold as_u64. by rewrite (proj2 (N.ltb_lt _ _) H). Qed.

Lemma local_block_typed b : u64_block b -> Forall2 typed local_block_tuple0 (local_block_tokens b).
Proof. intros (? & ? & ?). repeat constructor; by apply u64_u256. Qed.

Lemma local_block_from_tokens b : u64_block b -> decode_local_block_from_tuple (local_block_tokens b) = Ok b.
Proof.
  intros (? & ? & ?). unfold local_block_tokens, decode_local_block_from_tuple. cbn [to_uint unwrap mbind outcome_bind].
  rewrite !as_u64_ok by done. by destruct b.
Qed.

Lemma length_local_block b : length (encode (local_block_tokens b)) = 96.
Proof. unfold encode, local_block_tokens. cbn -[be_bytes]. by rewrite !length_app, !length_be_bytes. Qed.

Lemma transaction_typed t : solidity_tx t -> typed transaction_tuple (transaction_token t).
Proof.
  intros ((? & ? & ? & ?) & [? _] & [? _] & [? _] & [? _] & _). unfold transaction_tuple, transaction_token. apply typed_tuple.
  repeat (constructor; [done|]). constructor; [|repeat (constructor; [done|]); done].
  split; [by vm_compute|]. by repeat constructor.
Qed.

Lemma transaction_bytes t : solidity_tx t -> made_of_bytes (transaction_token t).
Proof. intros (_ & [_ ?] & [_ ?] & [_ ?] & [_ ?] & ?). cbn. by split_and!. Qed.

Lemma transactions_typed txs : Forall solidity_tx txs -> Forall (typed transaction_tuple) (map transaction_token txs).
Proof. intros H. rewrite Forall_map. eapply Forall_impl; [exact H|]. intros t. apply transaction_typed. Qed.

(** No transaction survives: its method is decoded as an array and read as a text. *)
Lemma decode_transactions_panic t ts : decode_transactions (transaction_token t :: ts) = Panic.
Proof.
  cbn [decode_transactions transaction_token to_tuple unwrap mbind outcome_bind decode_remote_transaction_from_tuple to_uint to_address to_bytes].
  unfold as_u64. by destruct (_ <? _)%N.
Qed.

Lemma map_transactions_bytes txs : Forall solidity_tx txs -> made_of_bytes (Array (map transaction_token txs)).
Proof. intros H. cbn. induction H as [|t txs Ht _ IH]; [done|]. split; [by apply transaction_bytes | done]. Qed.

Lemma encode_block_nonempty b txs : encode (block_and_txs b txs) <> [].
Proof.
  unfold encode, block_and_txs, local_block_tokens. cbn -[be_bytes pad_u32 tail]. intros H.
  apply (f_equal length) in H. rewrite !length_app, length_be_bytes in H. cbn in H. lia.
Qed.

Lemma block_and_txs_typed b txs : u64_block b -> Forall solidity_tx txs -> (N.of_nat (length txs) < 2 ^ 32)%N ->
  Forall2 typed [local_block_tuple; KArray transaction_tuple] (block_and_txs b txs) /\ Forall made_of_bytes (block_and_txs b txs).
Proof.
  intros Hb Htxs Hn. split.
  - constructor; [apply typed_tuple; by apply local_block_typed|]. constructor; [|done].
    split; [by rewrite length_map | by apply transactions_typed].
  - constructor; [by cbn|]. constructor; [by apply map_transactions_bytes|done].
Qed.

(** The rest of the reading, once the answer is decoded *)
Lemma decode_remote_block_answer {T} k ts b txs (f : Token -> ChainRequestResult T) :
  (bs ← hex_to_bytes (answer ts); unwrap_result (decode [k; KArray transaction_tuple] bs)) = Ok (E := ChainRequestError) [b; txs] ->
  decode_remote_block_and_txs (answer ts) k f =
    (block ← f b; txs ← unwrap (to_array txs); txs ← decode_transactions txs; Ok (block, txs)).
Proof. unfold decode_remote_block_and_txs. destruct (hex_to_bytes _); cbn [mbind outcome_bind]; [by intros ->|done..]. Qed.

Lemma read_local_block_answer b txs :
  u64_block b -> Forall solidity_tx txs -> (N.of_nat (length txs) < 2 ^ 32)%N -> (N.of_nat (length (encode (block_and_txs b txs))) < 2 ^ 32)%N ->
  read_local_block (answer (block_and_txs b txs)) = match txs with [] => Ok (b, []) | _ => Panic end.
Proof.
  intros Hb Htxs Hn Hl. destruct (block_and_txs_typed b txs Hb Htxs Hn) as [Ht Hm].
  unfold read_local_block. erewrite decode_remote_block_answer;
    [|apply (decode_answer [local_block_tuple; KArray transaction_tuple] _ eq_refl Ht Hm Hl), encode_block_nonempty].
  cbn [to_tuple to_array unwrap mbind outcome_bind]. rewrite local_block_from_tokens by done. cbn [mbind outcome_bind].
  destruct txs as [|t txs]; [done|]. cbn [map]. by rewrite decode_transactions_panic.
Qed.

Lemma decode_local_block_answer b : u64_block b -> decode_local_block (answer (local_block_tokens b)) = Ok b.
Proof.
  intros Hb. unfold decode_local_block.
  assert (Hd : (bs ← hex_to_bytes (answer (local_block_tokens b)); unwrap_result (decode local_block_tuple0 bs))
               = Ok (E := ChainRequestError) (local_block_tokens b)).
  { apply decode_answer; [done|by apply local_block_typed|by repeat constructor|by rewrite length_local_block|].
    intros E. apply (f_equal length) in E. by rewrite length_local_block in E. }
  destruct (hex_to_bytes _); cbn [mbind outcome_bind] in *; [|done..]. rewrite Hd. by apply local_block_from_tokens.
Qed.

(** A tuple that is decoded has as many members as its type. *)
Lemma decode_tuple_arity ks rest bs t ts :
  decode (KTuple ks :: rest) bs = Ok (t :: ts) -> exists us, t = Tuple us /\ length us = length ks.
Proof.
  unfold decode. destruct (_ && _); [done|]. intros E. apply bind_ok in E as (slices & _ & E).
  apply bind_ok in E as ([ts' o] & E & E'). injection E' as ->. rewrite decode_params_cons in E.
  apply bind_ok in E as ([t' o1] & E1 & E). apply bind_ok in E as ([ts' o2] & E2 & E). injection E as <- _ _.
  rewrite decode_param_tuple in E1. apply bind_ok in E1 as ([? ?] & _ & E1). apply bind_ok in E1 as ([us ?] & E1 & E).
  injection E as <- _. exists us. split; [done|].
  apply (decode_params_Forall2 (fun _ _ => True)) in E1; [|by apply Forall_forall]. by apply Forall2_length in E1.
Qed.

(** The type of a mined block has six members, its reader wants five. *)
Lemma read_mined_block_fails data r : read_mined_block data <> Ok r.
Proof.
  unfold read_mined_block, decode_remote_block_and_txs. intros E. apply bind_ok in E as (bs & _ & E).
  apply bind_ok in E as (dec & Hd & E). destruct dec as [|b [|txs [|]]]; try done. apply bind_ok in E as (blk & Hb & _).
  apply bind_ok in Hb as (us & Hu & Hb). destruct (decode _ _) as [d| |] eqn:Ed; [|done..]. injection Hd as ->.
  apply decode_tuple_arity in Ed as (us' & -> & Hlen). injection Hu as ->.
  do 6 (destruct us as [|? us]; [done|]). done.
Qed.

(** C12. What the client reads of a contract's answers.  A block of three numbers
    of 64 bits, encoded by the library and written in hexadecimal, is read back
    as it was.  A block with its transactions is read back when there are
    none, and reading panics when there is one, since the method of a transaction
    is decoded as an array and then unwrapped as bytes.  A mined block is never
    read, whatever the answer is: its type has a member more than the reader
    takes. *)
Theorem reading_blocks (b : QpLocalBlock) (txs : list QpTransaction) :
  u64_block b -> Forall solidity_tx txs -> (N.of_nat (length txs) < 2 ^ 32)%N -> (N.of_nat (length (encode (block_and_txs b txs))) < 2 ^ 32)%N ->
  decode_local_block (answer (local_block_tokens b)) = Ok b /\
  read_local_block (answer (block_and_txs b txs)) = match txs with [] => Ok (b, []) | _ => Panic end /\
  forall data r, read_mined_block data <> Ok r.
Proof.
  intros Hb Ht Hn Hl. split_and!; [by apply decode_local_block_answer | by apply read_local_block_answer | apply read_mined_block_fails].
Qed.

Definition example_block : QpLocalBlock := mkQpLocalBlock 26000 3 1700000000.
Definition example_tx : QpTransaction :=
  let a := replicate 20 1%N in mkQpTransaction 1700000000 a a a a 5 [1; 2; 3]%N 0 7.

Lemma reading_blocks_witness :
  read_local_block (answer (block_and_txs example_block [])) = Ok (example_block, []) /\
  read_local_block (answer (block_and_txs example_block [example_tx])) = Panic.
Proof.
  split.
  - apply (reading_blocks example_block []); [by vm_compute|constructor|by vm_compute|by vm_compute].
  - refine (proj1 (proj2 (reading_blocks example_block [example_tx] _ _ _ _))); [by vm_compute| |by vm_compute|by vm_compute].
    constructor; [|constructor]. repeat split; try by vm_compute. all: repeat constructor; by vm_compute.
Defined.

(** ** Effects

    Code that only calls contracts leaves the world as it was, but for the
    calls; each combinator keeps that, so it is shown by following the code. *)

Section effects.
  Context {crates : Crates} {host : Host}.

Definition quiet (w w' : World) : Prop :=
  (exists l, sent w' = sent w ++ l /\ Forall (fun x => req_method x.2 = «"eth_call"») l) /\
  storage w' = storage w /\ chain w' = chain w /\ submitted w' = submitted w.

#[export] Instance quiet_preorder : PreOrder quiet.
Proof.
  split.
  - intros w. split; [exists []; by rewrite app_nil_r | done].
  - intros w1 w2 w3 ((l1 & E1 & F1) & ? & ? & ?) ((l2 & E2 & F2) & ? & ? & ?).
    split; [|by split_and!; etrans]. exists (l1 ++ l2). rewrite E2, E1, app_assoc, Forall_app. done.
Qed.

Definition calls_only {A} (m : M A) : Prop := forall w, quiet w (m w).2.
Definition never_ok {A} (m : M A) : Prop := forall w a, (m w).1 <> Ok a.

(** Calls of contracts only, and no transaction at the end *)
Definition harmless (m : M (option bytes)) : Prop := calls_only m /\ forall w h, (m w).1 <> Ok (Some h).

Lemma calls_only_lift {A} (r : ChainRequestResult A) : calls_only (lift r).
Proof. intros w. cbn. reflexivity. Qed.

Lemma calls_only_ret {A} (a : A) : calls_only (mret a).
Proof. intros w. cbn. reflexivity. Qed.

Lemma calls_only_get : calls_only get.
Proof. intros w. cbn. reflexivity. Qed.

Lemma calls_only_bind {A B} (m : M A) (f : A -> M B) : calls_only m -> (forall a, calls_only (f a)) -> calls_only (m ≫= f).
Proof.
  intros Hm Hf w. unfold mbind, M_bind. specialize (Hm w). destruct (m w) as [[a|e|] w']; cbn in *; [|done..].
  etrans; [exact Hm | apply Hf].
Qed.

Lemma calls_only_fetch {T} (parse : bytes -> option T) url ps : calls_only (fetch_json_rpc parse url (mkRequest 1 «"eth_call"» ps)).
Proof.
  unfold fetch_json_rpc, fetch_json_rpc_body. repeat (apply calls_only_bind; [|intros ?]); try apply calls_only_lift.
  - intros w. unfold http_request. destruct (http_send _ _ _) as [r n]. split; [|done].
    eexists. split; [reflexivity|]. by repeat constructor.
  - destruct (N.eqb _ _); [apply calls_only_ret | apply calls_only_lift].
Qed.

Lemma calls_only_call_at c m ins a : calls_only (call_at c m ins a).
Proof. unfold call_at. repeat (apply calls_only_bind; [apply calls_only_lift|intros ?]). apply calls_only_fetch. Qed.

Lemma calls_only_ledger c : calls_only (get_ledger_manager_address c).
Proof. unfold get_ledger_manager_address. apply calls_only_bind; [apply calls_only_call_at | intros; apply calls_only_lift]. Qed.

Lemma calls_only_call c m ins a : calls_only (call c m ins a).
Proof.
  unfold call. apply calls_only_bind; [destruct a; [apply calls_only_ret | apply calls_only_ledger] | intros; apply calls_only_call_at].
Qed.

(** A call whose answer is then read *)
Lemma calls_only_query {A} c m ins a (f : bytes -> ChainRequestResult A) : calls_only (res ← call c m ins a; lift (f res)).
Proof. apply calls_only_bind; [apply calls_only_call | intros; apply calls_only_lift]. Qed.

Lemma mined_block_calls_only c ch n : calls_only (mined_block_by_nonce c ch n).
Proof. apply calls_only_query. Qed.

Lemma mined_block_never_ok c ch n : never_ok (mined_block_by_nonce c ch n).
Proof.
  intros w a. unfold mined_block_by_nonce, mbind, M_bind. destruct (call _ _ _ _ w) as [[res|e|] w']; [|done..].
  cbn. apply read_mined_block_fails.
Qed.

Lemma harmless_none : harmless (mret None).
Proof. split; [apply calls_only_ret | done]. Qed.

Lemma harmless_bind {A} (m : M A) f : calls_only m -> (forall a, harmless (f a)) -> harmless (m ≫= f).
Proof.
  intros Hm Hf. split; [apply calls_only_bind; [done|]; intros a; apply Hf|].
  intros w h. unfold mbind, M_bind. destruct (m w) as [[a|e|] w']; [apply Hf|done..].
Qed.

Lemma harmless_never {A} (m : M A) f : calls_only m -> never_ok m -> harmless (m ≫= f).
Proof.
  intros Hm Hn. split; intros w; specialize (Hm w); specialize (Hn w); unfold mbind, M_bind;
    destruct (m w) as [[a|e|] w']; try done; by destruct (Hn a).
Qed.

Lemma mine_harmless c rc : harmless (mine c rc).
Proof.
  unfold mine. apply harmless_bind; [apply calls_only_bind; [apply calls_only_call|]; intros; apply calls_only_bind;
    [apply calls_only_lift|intros; apply calls_only_ret]|]. intros [|]; cbn [negb]; [|apply harmless_none].
  apply harmless_bind; [apply calls_only_query|]. intros last_block. apply harmless_bind; [apply calls_only_query|]. intros last_mined.
  destruct (_ <=? _)%N; [apply harmless_none|]. apply harmless_never; [apply mined_block_calls_only | apply mined_block_never_ok].
Qed.

Lemma finalize_harmless c ch : harmless (finalize c ch).
Proof.
  unfold finalize. apply harmless_bind; [apply calls_only_query|]. intros block. apply harmless_bind; [apply calls_only_query|]. intros last_fin.
  destruct (_ <? _)%N; [|apply harmless_none]. apply harmless_never; [apply mined_block_calls_only | apply mined_block_never_ok].
Qed.

(** C14. No round of the portal sends a transaction: whatever the nodes answer,
    mining and finalizing make nothing but read-only calls of contracts, submit
    no signature, leave the storage as it was, and never return a transaction,
    since both read a mined block first. *)
Theorem rounds_send_nothing (c remote_client : QuantumPortalClient) (chain_id : N) (w : World) :
  (quiet w (mine c remote_client w).2 /\ forall h, (mine c remote_client w).1 <> Ok (Some h)) /\
  (quiet w (finalize c chain_id w).2 /\ forall h, (finalize c chain_id w).1 <> Ok (Some h)).
Proof.
  destruct (mine_harmless c remote_client) as [Hm1 Hm2], (finalize_harmless c chain_id) as [Hf1 Hf2]. auto.
Qed.

End effects.
