(* ===== verification/QuantumPortalService.v ===== *)
(** * quantum_portal_service.rs and the off-chain worker of lib.rs

    The service takes one round for each pair of chains: it waits for a
    transaction that is pending, mines or finalizes, and remembers the
    transaction sent.  A value in the local storage under the key of chain 9999
    is its lock.  The service uses of a client that it mines and finalizes:
    the class [Portal] is that interface, with the promise that the service's
    storage is left alone; [QuantumPortalClient] is its instance. *)

From S2P Require Import Prelude RustLang EthAbi ChainUtils QuantumPortalPallet ChainQueries ContractClient QuantumPortalClient QuantumPortalProps.

(** ** The interface of a client *)

Class Portal {crates : Crates} {host : Host} := {
  portal_mine : QuantumPortalClient -> QuantumPortalClient -> M (option bytes);
  portal_finalize : QuantumPortalClient -> N -> M (option bytes);
  portal_mine_storage c rc w : storage (portal_mine c rc w).2 = storage w;
  portal_finalize_storage c ch w : storage (portal_finalize c ch w).2 = storage w
}.

#[export] Program Instance client_portal {crates : Crates} {host : Host} : Portal :=
  {| portal_mine := mine; portal_finalize := finalize |}.
Next Obligation. intros ? ? c rc w. apply mine_harmless. Qed.
Next Obligation. intros ? ? c ch w. apply finalize_harmless. Qed.

Definition TIMEOUT : N := 3600 * 1000.
Definition LOCK_CHAIN : N := 9999.

(** ** Storage *)

Definition storage_key (key : N) : bytes := «"quantum-portal::tx::"» ++ bytes_to_hex (be_bytes 8 key).

Definition storage_key_for_tx {E} (tx : PendingTransaction) : outcome E N :=
  match tx with
  | MineTransaction c _ _ _ => Ok c
  | FinalizeTransaction c _ _ => Ok c
  | NoTransaction => Panic
  end.

Section service.
  Context {crates : Crates} {host : Host} {portal : Portal}.

Definition with_storage (f : gmap bytes (option PendingTransaction) -> gmap bytes (option PendingTransaction)) : M () := fun w =>
  (Ok (), mkWorld _ (net w) (sent w) (f (storage w)) (chain w) (submitted w)).

Definition save_tx (tx : PendingTransaction) : M () :=
  key ← lift (storage_key_for_tx tx);
  with_storage <[storage_key key := Some tx]>.

Definition remove_transaction_from_db (t : PendingTransaction) : M () :=
  key ← lift (storage_key_for_tx t);
  with_storage (delete (storage_key key)).

(** [s.get().unwrap()]: a value of another type panics *)
Definition stored_pending_transactions (chain_id : N) : M (list PendingTransaction) := fun w =>
  match storage w !! storage_key chain_id with
  | None => (Ok [], w)
  | Some (Some v) => (Ok [v], w)
  | Some None => (Panic, w)
  end.

(** ** The lock *)

Definition lock_transaction : PendingTransaction := FinalizeTransaction LOCK_CHAIN 0 ZERO_HASH.

Definition lock_is_open : M bool :=
  tx ← stored_pending_transactions LOCK_CHAIN;
  mret (match tx with [] => true | _ => false end).

Definition lock : M () := save_tx lock_transaction.
Definition remove_lock : M () := remove_transaction_from_db lock_transaction.

(** ** Pending transactions *)

Definition find_client (clients : list QuantumPortalClient) (chain_id : N) : ChainRequestResult QuantumPortalClient :=
  unwrap (snd <$> list_find (fun c => cc_chain_id (contract c) = chain_id) clients).

Definition is_tx_pending (clients : list QuantumPortalClient) (t : PendingTransaction) : M bool :=
  parts ← lift (match t with
    | MineTransaction c1 _ timestamp tid => Ok (c1, timestamp, tid)
    | FinalizeTransaction c timestamp tid => Ok (c, timestamp, tid)
    | NoTransaction => Panic
    end);
  let '(chain_id1, timestamp, tx_id) := parts in
  client ← lift (find_client clients chain_id1);
  url ← lift (utf8_unwrap (http_api (contract client)));
  status ← get_transaction_status url tx_id;
  match status with
  | Confirmed | Failed => _ ← remove_transaction_from_db t; mret false
  | Pending => mret true
  | NotFound =>
      if (u64 (timestamp + TIMEOUT) <? now client)%N then _ ← remove_transaction_from_db t; mret false
      else mret true
  end.

(** The filter unwraps: an error panics. *)
Definition unwrapped {A} (m : M A) : M A := fun w =>
  match m w with (Err _, w) => (Panic, w) | r => r end.

Fixpoint filter_pending (clients : list QuantumPortalClient) (ts : list PendingTransaction) : M (list PendingTransaction) :=
  match ts with
  | [] => mret []
  | t :: ts =>
      b ← unwrapped (is_tx_pending clients t);
      ts ← filter_pending clients ts;
      mret (if b : bool then t :: ts else ts)
  end.

Definition pending_transactions (clients : list QuantumPortalClient) (chain_id : N) : M (list PendingTransaction) :=
  stored ← stored_pending_transactions chain_id;
  filter_pending clients stored.

(** ** A round for a pair of chains *)

Definition mine_round (remote_chain local_chain : N) (role : Role) (local_client remote_client : QuantumPortalClient) : M () :=
  match role with
  | QP_MINER =>
      mine_tx ← portal_mine local_client remote_client;
      match mine_tx with
      | Some id => save_tx (MineTransaction local_chain remote_chain (now local_client) id)
      | None => mret ()
      end
  | _ => mret ()
  end.

Definition finalize_round (remote_chain local_chain : N) (role : Role) (local_client : QuantumPortalClient) : M () :=
  match role with
  | QP_FINALIZER =>
      fin_tx ← portal_finalize local_client remote_chain;
      match fin_tx with
      | Some id => save_tx (FinalizeTransaction local_chain (now local_client) id)
      | None => mret ()
      end
  | _ => mret ()
  end.

Definition process_pair (clients : list QuantumPortalClient) (remote_chain local_chain : N) (role : Role) : M () :=
  live_txs ← pending_transactions clients local_chain;
  match live_txs with
  | _ :: _ => mret ()
  | [] =>
      local_client ← lift (find_client clients local_chain);
      remote_client ← lift (find_client clients remote_chain);
      _ ← lift (if info_enabled then utf8_unwrap (http_api (contract local_client)) else Ok []);
      _ ← lift (if info_enabled then utf8_unwrap (http_api (contract remote_client)) else Ok []);
      _ ← mine_round remote_chain local_chain role local_client remote_client;
      _ ← finalize_round remote_chain local_chain role local_client;
      remove_lock
  end.

(** [let rv = m; self.remove_lock()?; rv] *)
Definition then_unlock (m : M ()) : M () := fun w =>
  match m w with
  | (Panic, w) => (Panic, w)
  | (rv, w) => (remove_lock ≫= fun _ => lift rv) w
  end.

Definition process_pair_with_lock (clients : list QuantumPortalClient) (remote_chain local_chain : N) (role : Role) : M () :=
  open ← lock_is_open;
  if negb open then mret ()
  else
    _ ← lock;
    _ ← stored_pending_transactions LOCK_CHAIN;
    then_unlock (process_pair clients remote_chain local_chain role).

(** ** The off-chain worker *)

Definition configure_network (block_number : N) (item : QpNetworkItem) (signer_public_key : bytes) : M QuantumPortalClient :=
  signer ← lift (hex_to_ecdsa_pub_key signer_public_key);
  gateway_contract ← lift (hex_to_address (gateway item));
  sig ← lift (signature_from signer);
  w ← get;
  mret (mkClient (contract_client_new (url item) gateway_contract (network_id item)) sig (timestamp_unix_millis (net w)) block_number).

Fixpoint configure_networks (block_number : N) (items : list QpNetworkItem) (signer_public_key : bytes) : M (list QuantumPortalClient) :=
  match items with
  | [] => mret []
  | item :: items =>
      c ← configure_network block_number item signer_public_key;
      cs ← configure_networks block_number items signer_public_key;
      mret (c :: cs)
  end.

(** An error of a pair is logged, and the next pair is taken. *)
Definition logged (m : M ()) : M () := fun w => match m w with (Err _, w) => (Ok (), w) | r => r end.

Fixpoint process_pairs (clients : list QuantumPortalClient) (pairs : list (N * N)) (role : Role) : M () :=
  match pairs with
  | [] => mret ()
  | (remote_chain, local_chain) :: pairs =>
      _ ← logged (process_pair_with_lock clients remote_chain local_chain role);
      process_pairs clients pairs role
  end.

Definition test_qp (block_number : N) (config : QpConfig) : M () :=
  clients ← configure_networks block_number (network_vec config) (signer_public_key config);
  process_pairs clients (pair_vec config) (role config).

(** [lock_free]: the guard of the worker was taken; [decoded_config] is what the storage gave. *)
Definition offchain_worker (lock_free : bool) (decoded_config : outcome () (option QpConfig)) (block_number : N) : M () :=
  if negb lock_free then mret ()
  else match decoded_config with
  | Ok (Some config) =>
      match role config with
      | RoleNone => mret ()
      | _ =>
          if MAX_PAIRS_TO_MINE <? length (pair_vec config) then mret ()
          else
            let now := if (block_number <? 2 ^ 64)%N then block_number else 0%N in
            test_qp now config
      end
  | _ => mret ()
  end.

End service.
