(* ===== verification/ServiceProps.v ===== *)
(** * The lock of the service and the transactions it remembers *)

From S2P Require Import Prelude RustLang EthAbi ChainUtils QuantumPortalPallet ChainQueries ContractClient QuantumPortalClient QuantumPortalProps QuantumPortalService.

(** ** Keys *)

Lemma be_bytes_inj k a b : (a < 256 ^ N.of_nat k)%N -> (b < 256 ^ N.of_nat k)%N -> be_bytes k a = be_bytes k b -> a = b.
Proof. intros Ha Hb E. by rewrite <- (of_be_bytes k a Ha), <- (of_be_bytes k b Hb), E. Qed.

Lemma bytes_to_hex_inj a b : Forall byte a -> Forall byte b -> bytes_to_hex a = bytes_to_hex b -> a = b.
Proof.
  intros Ha Hb E. pose proof (hex_to_bytes_0x a Ha) as H1. rewrite E, (hex_to_bytes_0x b Hb) in H1. by injection H1.
Qed.

Lemma storage_key_inj a b : (a < 2 ^ 64)%N -> (b < 2 ^ 64)%N -> storage_key a = storage_key b -> a = b.
Proof.
  intros Ha Hb E. unfold storage_key in E. apply app_inv_head in E. apply bytes_to_hex_inj in E; [|apply be_bytes_byte..].
  by apply be_bytes_inj in E.
Qed.

Abbreviation lock_key := (storage_key LOCK_CHAIN).

Section service.
  Context {crates : Crates} {host : Host} {portal : Portal}.

(** ** Where the storage changes *)

(** Every entry stands under the key of its chain. *)
Definition well_keyed (s : gmap bytes (option PendingTransaction)) : Prop :=
  forall c t, (c < 2 ^ 64)%N -> s !! storage_key c = Some (Some t) -> storage_key_for_tx (E := ()) t = Ok c.

(** Code that leaves the storage alone *)
Definition frame {A} (m : M A) : Prop := forall w, storage (m w).2 = storage w.

Lemma frame_lift {A} (r : ChainRequestResult A) : frame (lift r).
Proof. by intros w. Qed.

Lemma frame_ret {A} (a : A) : frame (mret a).
Proof. by intros w. Qed.

Lemma frame_bind {A B} (m : M A) (f : A -> M B) : frame m -> (forall a, frame (f a)) -> frame (m ≫= f).
Proof.
  intros Hm Hf w. unfold mbind, M_bind. specialize (Hm w). destruct (m w) as [[a|e|] w']; cbn in *; [|done..]. by rewrite Hf.
Qed.

Lemma frame_fetch {T} (parse : bytes -> option T) url req : frame (fetch_json_rpc parse url req).
Proof.
  unfold fetch_json_rpc, fetch_json_rpc_body. repeat (apply frame_bind; [|intros ?]); try apply frame_lift.
  - intros w. unfold http_request. by destruct (http_send _ _ _).
  - destruct (N.eqb _ _); [apply frame_ret | apply frame_lift].
Qed.

Lemma frame_status url id : frame (get_transaction_status url id).
Proof.
  unfold get_transaction_status. apply frame_bind; [apply frame_fetch|]. intros [tx|]; [|apply frame_ret].
  apply frame_bind; [apply frame_lift | intros; apply frame_ret].
Qed.

Local Arguments storage_key : simpl never.

(** Removing a transaction and then returning *)
Lemma remove_then {A} t c (a : A) w : storage_key_for_tx (E := ChainRequestError) t = Ok c ->
  (remove_transaction_from_db t ≫= fun _ => mret a) w =
    (Ok a, mkWorld _ (net w) (sent w) (delete (storage_key c) (storage w)) (chain w) (submitted w)).
Proof. intros H. unfold remove_transaction_from_db, mbind, M_bind, lift. by rewrite H. Qed.

(** The storage after the query whether a transaction is pending *)
Lemma is_tx_pending_storage clients t w :
  let '(r, w') := is_tx_pending clients t w in
  (r <> Ok false /\ storage w' = storage w) \/
  (r = Ok false /\ exists c, storage_key_for_tx (E := ()) t = Ok c /\ storage w' = delete (storage_key c) (storage w)).
Proof.
  unfold is_tx_pending. destruct t as [c rc ts id|c ts id|]; [..|by left].
  all: unfold mbind at 1, M_bind at 1; cbn [lift]; unfold mbind at 1, M_bind at 1; cbn [lift];
    destruct (find_client clients c) as [client| |]; [|by left..];
    unfold mbind at 1, M_bind at 1; cbn [lift]; destruct (utf8_unwrap _) as [url| |]; [|by left..];
    unfold mbind at 1, M_bind at 1; pose proof (frame_status url id w) as Hs;
    destruct (get_transaction_status url id w) as [[st| |] w'] eqn:E; [|by left..]; cbn [snd] in Hs.
  all: destruct st; [destruct (_ <? _)%N|..]; try (by left);
    (erewrite remove_then by done; right; split; [done|]; exists c; cbn; by rewrite Hs).
Qed.

Lemma pending_cases clients c w :
  let '(r, w') := pending_transactions clients c w in
  (storage w' = storage w /\ (r = Ok [] -> storage w !! storage_key c = None)) \/
  (r = Ok [] /\ exists t c', storage w !! storage_key c = Some (Some t) /\ (is_tx_pending clients t w).1 = Ok false /\
     storage_key_for_tx (E := ()) t = Ok c' /\ storage w' = delete (storage_key c') (storage w)).
Proof.
  unfold pending_transactions. unfold mbind, M_bind, stored_pending_transactions.
  destruct (storage w !! storage_key c) as [[t|]|] eqn:E; cbn [filter_pending]; [|by left|by left].
  unfold unwrapped, mbind, M_bind. pose proof (is_tx_pending_storage clients t w) as H.
  destruct (is_tx_pending clients t w) as [[[|]| |] w'] eqn:Ep; cbn.
  - left. destruct H as [[_ H]|[H _]]; [|done]. by split.
  - right. destruct H as [[H _]|[_ (c' & Hc & Hs)]]; [done|]. split; [done|]. exists t, c'. by rewrite Ep.
  - left. destruct H as [[_ H]|[H _]]; [|done]. by split.
  - left. destruct H as [[_ H]|[H _]]; [|done]. by split.
Qed.

(** The transactions of one chain are written and removed. *)
Inductive touch (l : N) : gmap bytes (option PendingTransaction) -> gmap bytes (option PendingTransaction) -> Prop :=
| touch_none s : touch l s s
| touch_save s t : storage_key_for_tx (E := ()) t = Ok l -> touch l s (<[storage_key l := Some t]> s)
| touch_delete s : touch l s (delete (storage_key l) s)
| touch_trans s1 s2 s3 : touch l s1 s2 -> touch l s2 s3 -> touch l s1 s3.

Definition touches {A} (l : N) (m : M A) : Prop := forall w, touch l (storage w) (storage (m w).2).

Lemma touch_other l s s' k : touch l s s' -> k <> storage_key l -> s' !! k = s !! k.
Proof.
  induction 1 as [|s t Ht|s|s1 s2 s3 _ IH1 _ IH2]; intros Hk; [done|by rewrite lookup_insert_ne|by rewrite lookup_delete_ne|].
  by rewrite IH2, IH1.
Qed.

Lemma frame_touches {A} l (m : M A) : frame m -> touches l m.
Proof. intros H w. rewrite H. constructor. Qed.

Lemma touches_bind {A B} l (m : M A) (f : A -> M B) : touches l m -> (forall a, touches l (f a)) -> touches l (m ≫= f).
Proof.
  intros Hm Hf w. unfold mbind, M_bind. specialize (Hm w). destruct (m w) as [[a|e|] w']; cbn in *; [|done..].
  eapply touch_trans; [exact Hm | apply Hf].
Qed.

Lemma touches_save l t : storage_key_for_tx (E := ()) t = Ok l -> touches l (save_tx t).
Proof.
  intros H w. unfold save_tx, mbind, M_bind, lift. destruct t; [..|done]; injection H as ->; cbn; by apply touch_save.
Qed.

Lemma mine_round_touches r l role c rc : touches l (mine_round r l role c rc).
Proof.
  destruct role; try (apply frame_touches, frame_ret). unfold mine_round. apply touches_bind.
  - apply frame_touches. intros w. apply portal_mine_storage.
  - intros [id|]; [by apply touches_save | apply frame_touches, frame_ret].
Qed.

Lemma finalize_round_touches r l role c : touches l (finalize_round r l role c).
Proof.
  destruct role; try (apply frame_touches, frame_ret). unfold finalize_round. apply touches_bind.
  - apply frame_touches. intros w. apply portal_finalize_storage.
  - intros [id|]; [by apply touches_save | apply frame_touches, frame_ret].
Qed.

(** What a round has done to the storage: it is unlocked only at its end. *)
Definition round_end {A : Type} (l : N) (s : gmap bytes (option PendingTransaction)) (o : (ChainRequestResult A * World)%type) : Prop :=
  touch l s (storage o.2) \/
  exists s', is_ok o.1 = true /\ touch l s s' /\ storage o.2 = delete (storage_key LOCK_CHAIN) s'.

Lemma round_end_bind {A B : Type} l (m : M A) (f : A -> M B) w :
  touches l m -> (forall a w, round_end l (storage w) (f a w)) -> round_end l (storage w) ((m ≫= f) w).
Proof.
  intros Hm Hf. unfold mbind, M_bind. specialize (Hm w). destruct (m w) as [[a|e|] w']; cbn in *; [|by left..].
  destruct (Hf a w') as [H|(s' & Ho & H & E)]; [left|right; exists s'; split_and!; [done| |done]]; by eapply touch_trans.
Qed.

(** The part of a round after the check for pending transactions *)
Definition round_body (clients : list QuantumPortalClient) (remote_chain local_chain : N) (role : Role) : M () :=
  local_client ← lift (find_client clients local_chain);
  remote_client ← lift (find_client clients remote_chain);
  _ ← lift (if info_enabled then utf8_unwrap (http_api (contract local_client)) else Ok []);
  _ ← lift (if info_enabled then utf8_unwrap (http_api (contract remote_client)) else Ok []);
  _ ← mine_round remote_chain local_chain role local_client remote_client;
  _ ← finalize_round remote_chain local_chain role local_client;
  remove_lock.

Lemma round_body_end clients r l role w : round_end l (storage w) (round_body clients r l role w).
Proof.
  unfold round_body. do 4 (apply round_end_bind; [apply frame_touches, frame_lift|]; intros ? ?).
  apply round_end_bind; [apply mine_round_touches|]. intros _ ?. apply round_end_bind; [apply finalize_round_touches|]. intros _ w''.
  right. exists (storage w''). split_and!; [done|constructor|done].
Qed.

Lemma process_pair_end clients r l role w :
  (forall t, storage w !! storage_key l = Some (Some t) -> storage_key_for_tx (E := ()) t = Ok l) ->
  round_end l (storage w) (process_pair clients r l role w).
Proof.
  intros Hk. unfold process_pair. fold (round_body clients r l role). unfold mbind at 1, M_bind at 1.
  pose proof (pending_cases clients l w) as H. destruct (pending_transactions clients l w) as [[[|x xs]|e|] w'].
  - assert (touch l (storage w) (storage w')) as Ht.
    { destruct H as [[-> _]|(_ & t & c' & Ht & _ & Hc & ->)]; [constructor|].
      rewrite (Hk t Ht) in Hc. injection Hc as <-. constructor. }
    destruct (round_body_end clients r l role w') as [He|(s' & Ho & He & E)];
      [left|right; exists s'; split_and!; [done| |done]]; by eapply touch_trans.
  - left. cbn. destruct H as [[-> _]|[H _]]; [constructor|done].
  - left. cbn. destruct H as [[-> _]|[H _]]; [constructor|done].
  - left. cbn. destruct H as [[-> _]|[H _]]; [constructor|done].
Qed.

(** ** The round with its lock *)

Definition locked (w : World) : World :=
  mkWorld _ (net w) (sent w) (<[lock_key := Some lock_transaction]> (storage w)) (chain w) (submitted w).

Lemma with_lock_run clients r l role w :
  process_pair_with_lock clients r l role w =
    match storage w !! lock_key with
    | Some (Some _) => (Ok (), w)
    | Some None => (Panic, w)
    | None => then_unlock (process_pair clients r l role) (locked w)
    end.
Proof.
  unfold process_pair_with_lock, lock_is_open, mbind, M_bind, stored_pending_transactions at 1.
  destruct (storage w !! lock_key) as [[x|]|] eqn:E; [done|done|]. cbn [mret M_ret negb].
  unfold lock, save_tx, mbind, M_bind, lift. cbn [storage_key_for_tx lock_transaction with_storage].
  unfold stored_pending_transactions. cbn [storage]. rewrite lookup_insert_eq. done.
Qed.

Lemma then_unlock_end (m : M ()) l w : round_end l (storage w) (m w) -> storage_key l <> lock_key ->
  match then_unlock m w with
  | (Panic, w') => touch l (storage w) (storage w') /\ storage w' !! lock_key = storage w !! lock_key
  | (_, w') => storage w' !! lock_key = None /\ exists s, touch l (storage w) s /\ storage w' = delete lock_key s
  end.
Proof.
  intros Hm Hl. unfold then_unlock. destruct (m w) as [r w'].
  assert (Hs : exists s, touch l (storage w) s /\ delete lock_key (storage w') = delete lock_key s).
  { destruct Hm as [Hm|(s & _ & Hm & E)]; [by exists (storage w')|]. exists s. split; [done|]. cbn in E. by rewrite E, delete_delete_eq. }
  destruct r as [[]|e|]; cbn -[delete].
  - split; [apply lookup_delete_eq | done].
  - split; [apply lookup_delete_eq | done].
  - destruct Hm as [Hm|(s & Ho & _)]; [|done]. split; [done|]. by apply (touch_other l).
Qed.

Lemma key_not_lock l : (l < 2 ^ 64)%N -> l <> LOCK_CHAIN -> storage_key l <> lock_key.
Proof. intros Hl Hn E. apply Hn. by apply storage_key_inj in E. Qed.

Lemma held_lock_stops clients x pairs role w : storage w !! lock_key = Some (Some x) -> process_pairs clients pairs role w = (Ok (), w).
Proof.
  intros H. induction pairs as [|[r l] pairs IH]; [done|]. cbn [process_pairs]. unfold mbind, M_bind, logged.
  rewrite with_lock_run, H. exact IH.
Qed.

Lemma well_keyed_at_lock s l : well_keyed s -> (l < 2 ^ 64)%N -> l <> LOCK_CHAIN ->
  forall t, <[lock_key := Some lock_transaction]> s !! storage_key l = Some (Some t) -> storage_key_for_tx (E := ()) t = Ok l.
Proof. intros Hk Hl Hn t. rewrite lookup_insert_ne by (by apply not_eq_sym, key_not_lock). by apply Hk. Qed.

(** C7. The lock of the service, from a storage whose entries stand under
    their own keys.  While it is held a round does nothing at all.  A round
    that finds it open and returns, with success or an error, leaves it open; a
    round that panics leaves it held, and since it is kept in persistent
    storage, every pair of every later round is skipped from then on. *)
Theorem lock_discipline clients remote_chain local_chain role (w : World) :
  well_keyed (storage w) -> (local_chain < 2 ^ 64)%N -> local_chain <> LOCK_CHAIN ->
  let '(r, w') := process_pair_with_lock clients remote_chain local_chain role w in
  (forall x, storage w !! lock_key = Some (Some x) -> r = Ok () /\ w' = w) /\
  (storage w !! lock_key = None -> is_ok r = true \/ (exists e, r = Err e) -> storage w' !! lock_key = None) /\
  (storage w !! lock_key = None -> r = Panic ->
     storage w' !! lock_key = Some (Some lock_transaction) /\
     forall clients' pairs role', process_pairs clients' pairs role' w' = (Ok (), w')).
Proof.
  intros Hk Hl Hn. rewrite with_lock_run. destruct (storage w !! lock_key) as [[x|]|] eqn:E; [naive_solver..|].
  pose proof (then_unlock_end (process_pair clients remote_chain local_chain role) local_chain (locked w)) as H.
  destruct (then_unlock _ _) as [r w'] eqn:Er.
  specialize (H (process_pair_end _ _ _ _ (locked w) (well_keyed_at_lock _ _ Hk Hl Hn)) (key_not_lock _ Hl Hn)).
  split; [done|]. destruct r as [[]|e|]; split; try done; intros _ Hr; try by destruct H.
  - by destruct Hr as [|[]].
  - destruct H as [_ H]. cbn in H. rewrite lookup_insert_eq in H. split; [done|]. intros. by eapply held_lock_stops.
Qed.

(** ** What the service remembers *)

Lemma delete_keyed s k : well_keyed s -> well_keyed (delete k s).
Proof. intros H c t Hc E. apply lookup_delete_Some in E as [_ E]. by eapply H. Qed.

Lemma insert_keyed s l t : (l < 2 ^ 64)%N -> storage_key_for_tx (E := ()) t = Ok l -> well_keyed s -> well_keyed (<[storage_key l := Some t]> s).
Proof.
  intros Hl Ht H c t' Hc E. destruct (decide (c = l)) as [->|Hn].
  - rewrite lookup_insert_eq in E. by injection E as <-.
  - rewrite lookup_insert_ne in E by (intros E'; apply Hn; symmetry; by apply storage_key_inj). by eapply H.
Qed.

Lemma touch_keyed l s s' : (l < 2 ^ 64)%N -> touch l s s' -> well_keyed s -> well_keyed s'.
Proof. intros Hl. induction 1; eauto using insert_keyed, delete_keyed. Qed.

Lemma with_lock_keyed clients r l role w : (l < 2 ^ 64)%N -> well_keyed (storage w) ->
  well_keyed (storage (process_pair_with_lock clients r l role w).2).
Proof.
  intros Hl Hk. rewrite with_lock_run. destruct (storage w !! lock_key) as [[x|]|]; [done..|].
  assert (Hkl : well_keyed (storage (locked w))) by (apply insert_keyed; done).
  pose proof (process_pair_end clients r l role (locked w) (fun t => Hkl l t Hl)) as H. unfold then_unlock.
  destruct (process_pair clients r l role (locked w)) as [o w'].
  assert (Hw : well_keyed (storage w')).
  { destruct H as [H|(s & _ & H & E)]; [by eapply touch_keyed|]. cbn in E. rewrite E. apply delete_keyed. by eapply touch_keyed. }
  destruct o as [[]|e|]; cbn -[delete]; [by apply delete_keyed..|done].
Qed.

Lemma process_pairs_keyed clients pairs role : Forall (fun p => p.2 < 2 ^ 64)%N pairs ->
  forall w, well_keyed (storage w) -> well_keyed (storage (process_pairs clients pairs role w).2).
Proof.
  induction 1 as [|[r l] pairs Hl _ IH]; intros w Hk; [done|]. cbn [process_pairs]. unfold mbind, M_bind, logged.
  apply (with_lock_keyed clients r l role) in Hk; [|done]. destruct (process_pair_with_lock _ _ _ _ _) as [[[]|e|] w']; [by apply IH..|done].
Qed.

Lemma configure_frame n items key : frame (configure_networks n items key).
Proof.
  induction items as [|item items IH]; [apply frame_ret|]. cbn [configure_networks].
  apply frame_bind; [|intros ?; apply frame_bind; [apply IH|intros ?; apply frame_ret]].
  unfold configure_network. do 3 (apply frame_bind; [apply frame_lift|intros ?]). by intros w.
Qed.

Lemma worker_keyed lock_free config n w :
  match config with Ok (Some c) => Forall (fun p => p.2 < 2 ^ 64)%N (pair_vec c) | _ => True end ->
  well_keyed (storage w) -> well_keyed (storage (offchain_worker lock_free config n w).2).
Proof.
  intros Hc Hk. unfold offchain_worker. destruct lock_free; [|done]. cbn [negb]. destruct config as [[c|]|[]|]; try done.
  assert (Htest : forall n, well_keyed (storage (test_qp n c w).2)).
  { intros m. unfold test_qp, mbind, M_bind. pose proof (configure_frame m (network_vec c) (signer_public_key c) w) as Hf.
    destruct (configure_networks _ _ _ w) as [[cs|e|] w']; cbn in Hf; rewrite <- Hf in Hk; [by apply process_pairs_keyed|done..]. }
  destruct (role c); [done|destruct (_ <? _); [done|apply Htest]..].
Qed.

Lemma pending_not_dropped clients r l role w t :
  storage w !! storage_key l = Some (Some t) -> storage_key l <> lock_key ->
  storage (process_pair_with_lock clients r l role w).2 !! storage_key l = Some (Some t) \/
  (storage w !! lock_key = None /\ (is_tx_pending clients t (locked w)).1 = Ok false).
Proof.
  intros Ht Hn. rewrite with_lock_run. destruct (storage w !! lock_key) as [[x|]|]; [by left..|].
  assert (Htl : storage (locked w) !! storage_key l = Some (Some t)) by (cbn; by rewrite lookup_insert_ne by done).
  unfold then_unlock, process_pair. unfold mbind at 1, M_bind at 1. pose proof (pending_cases clients l (locked w)) as H.
  destruct (pending_transactions clients l (locked w)) as [o w'].
  destruct H as [[Hs Hr]|(_ & t' & c' & Ht' & Hp & _)]; [|right; rewrite Htl in Ht'; by injection Ht' as <-].
  assert (Hd : delete lock_key (storage w') !! storage_key l = Some (Some t)) by (rewrite Hs; by rewrite lookup_delete_ne).
  left. destruct o as [[|y ys]|e|]; [by rewrite Hr in Htl by done|exact Hd..|]. cbn [snd]. by rewrite Hs.
Qed.

(** What the node of its chain has to say for a transaction to be forgotten:
    there is a receipt, of success or of failure, or there is none and the
    transaction is older than the time limit. *)
Definition settled (clients : list QuantumPortalClient) (t : PendingTransaction) (w : World) : Prop :=
  exists c timestamp id client url status,
    ((exists rc, t = MineTransaction c rc timestamp id) \/ t = FinalizeTransaction c timestamp id) /\
    find_client clients c = Ok client /\ utf8_unwrap (E := ChainRequestError) (http_api (contract client)) = Ok url /\
    (get_transaction_status url id w).1 = Ok status /\
    (status = Confirmed \/ status = Failed \/ (status = NotFound /\ (u64 (timestamp + TIMEOUT) < now client)%N)).

Lemma not_pending_settled clients t w : (is_tx_pending clients t w).1 = Ok false -> settled clients t w.
Proof.
  unfold is_tx_pending, settled. destruct t as [c rc ts id|c ts id|]; [..|done].
  all: unfold mbind at 1, M_bind at 1; cbn [lift]; unfold mbind at 1, M_bind at 1; cbn [lift];
    destruct (find_client clients c) as [client| |] eqn:Ec; [|done..];
    unfold mbind at 1, M_bind at 1; cbn [lift]; destruct (utf8_unwrap _) as [url| |] eqn:Eu; [|done..];
    unfold mbind at 1, M_bind at 1; destruct (get_transaction_status url id w) as [[st| |] w'] eqn:Es; [|done..];
    intros H; exists c, ts, id, client, url, st; rewrite Es; cbn [fst]; (split_and!; [by eauto|done..|]);
    destruct st; [destruct (_ <? _)%N eqn:El; [apply N.ltb_lt in El|done]|..]; naive_solver.
Qed.

(** A round leaves the transactions of the other chains alone, *)
Lemma round_other_chains clients r l role w c : (l < 2 ^ 64)%N -> well_keyed (storage w) ->
  storage_key c <> storage_key l -> storage_key c <> lock_key ->
  storage (process_pair_with_lock clients r l role w).2 !! storage_key c = storage w !! storage_key c.
Proof.
  intros Hl Hk Hc Hn. rewrite with_lock_run. destruct (storage w !! lock_key) as [[x|]|]; [done..|].
  assert (Hkl : well_keyed (storage (locked w))) by (apply insert_keyed; done).
  pose proof (process_pair_end clients r l role (locked w) (fun t => Hkl l t Hl)) as H. unfold then_unlock.
  destruct (process_pair clients r l role (locked w)) as [o w']. cbn [fst snd] in H.
  assert (Hs : storage w' !! storage_key c = storage w !! storage_key c).
  { transitivity (storage (locked w) !! storage_key c); [|cbn; by rewrite lookup_insert_ne].
    destruct H as [H|(s & _ & H & E)]; [by apply (touch_other l)|]. cbn in E. rewrite E, lookup_delete_ne by done. by apply (touch_other l). }
  rewrite <- Hs. destruct o as [[]|e|]; cbn -[delete]; [by apply lookup_delete_ne..|done].
Qed.

(** and that of its own chain unless it is settled. *)
Lemma round_remembers clients r l role w c t :
  (l < 2 ^ 64)%N -> (c < 2 ^ 64)%N -> c <> LOCK_CHAIN -> well_keyed (storage w) -> storage w !! storage_key c = Some (Some t) ->
  storage (process_pair_with_lock clients r l role w).2 !! storage_key c = Some (Some t) \/
  (l = c /\ storage w !! lock_key = None /\ settled clients t (locked w)).
Proof.
  intros Hl Hc Hn Hk Ht. destruct (decide (l = c)) as [->|Hd].
  - destruct (pending_not_dropped clients r c role w t Ht (key_not_lock c Hc Hn)) as [|[? ?%not_pending_settled]]; [by left | by right].
  - left. rewrite <- Ht. apply round_other_chains; [done|done| |by apply key_not_lock]. intros E. by apply Hd, storage_key_inj.
Qed.

Lemma pairs_step clients r l role w pairs :
  process_pairs clients ((r, l) :: pairs) role w =
    match process_pair_with_lock clients r l role w with
    | (Panic, w1) => (Panic, w1)
    | (_, w1) => process_pairs clients pairs role w1
    end.
Proof.
  cbn [process_pairs]. unfold mbind, M_bind, logged. by destruct (process_pair_with_lock clients r l role w) as [[[]|e|] w1].
Qed.

Lemma rounds_remember clients role c t : (c < 2 ^ 64)%N -> c <> LOCK_CHAIN ->
  forall pairs, Forall (fun p => p.2 < 2 ^ 64)%N pairs -> forall w, well_keyed (storage w) -> storage w !! storage_key c = Some (Some t) ->
  storage (process_pairs clients pairs role w).2 !! storage_key c = Some (Some t) \/
  exists i r, pairs !! i = Some (r, c) /\
    let w1 := (process_pairs clients (take i pairs) role w).2 in
    storage w1 !! storage_key c = Some (Some t) /\ storage w1 !! lock_key = None /\ settled clients t (locked w1).
Proof.
  intros Hc Hn pairs Hp. induction Hp as [|[r l] pairs Hl _ IH]; intros w Hk Ht; [by left|].
  destruct (round_remembers clients r l role w c t Hl Hc Hn Hk Ht) as [Hr|(-> & Ho & Hs)].
  - pose proof (with_lock_keyed clients r l role w Hl Hk) as Hk1. pose proof (pairs_step clients r l role w) as Hstep.
    destruct (process_pair_with_lock clients r l role w) as [[[]|e|] w1]; cbn [snd] in *; [..|left; by rewrite Hstep].
    all: rewrite Hstep; destruct (IH w1 Hk1 Hr) as [?|(i & r' & Hi & H)]; [by left|right; exists (S i), r'; split; [done|]];
      cbn [take]; by rewrite Hstep.
  - right. exists 0, r. by split_and!.
Qed.

(** C8. What the service remembers.  A run of the off-chain worker keeps every
    remembered transaction under the key of its own chain, whatever it ends in.
    In the rounds of a run, those that fail or panic among them, the
    transaction remembered for any chain (9999, the key of the lock, apart)
    is still there at the end, or there was a round for that chain, which found
    it there and the lock open, and for which the chain's node gave a receipt
    for it, or had none although the transaction was older than the time
    limit.  In that last case the transaction is forgotten without knowing that
    it is no longer pending. *)
Theorem service_remembers lock_free config n clients pairs role (w : World) c t :
  match config with Ok (Some conf) => Forall (fun p => p.2 < 2 ^ 64)%N (pair_vec conf) | _ => True end ->
  well_keyed (storage w) -> Forall (fun p => p.2 < 2 ^ 64)%N pairs -> (c < 2 ^ 64)%N -> c <> LOCK_CHAIN ->
  storage w !! storage_key c = Some (Some t) ->
  well_keyed (storage (offchain_worker lock_free config n w).2) /\
  (storage (process_pairs clients pairs role w).2 !! storage_key c = Some (Some t) \/
   exists i r, pairs !! i = Some (r, c) /\
     let w1 := (process_pairs clients (take i pairs) role w).2 in
     storage w1 !! storage_key c = Some (Some t) /\ storage w1 !! lock_key = None /\ settled clients t (locked w1)).
Proof. intros Hc Hk Hp Hl Hn Ht. split; [by apply worker_keyed | by apply rounds_remember]. Qed.

End service.

(** ** Examples *)

(** Nodes that know no transaction and answer every call with the same text *)
Definition example_host : Host := {|
  Net := ();
  http_send := fun _ _ n => (Some (200%N, «"0x"»), n);
  timestamp_unix_millis := fun _ => 1000%N;
  ecdsa_sign_prehashed := fun _ h => Some (h ++ h ++ [0%N]);
  parse_call_response := Some;
  parse_receipt_response := fun _ => Some None;
  info_enabled := true
|}.

Definition example_world (s : gmap bytes (option PendingTransaction)) : World (H := example_host) := mkWorld example_host () [] s genesis [].

Definition example_client (c : N) : QuantumPortalClient :=
  mkClient (contract_client_new «"http://node"» (replicate 20 1%N) c) (mkClientSignature (replicate 20 2%N) (replicate 33 3%N)) 1000 7.

Definition example_pending : PendingTransaction := MineTransaction 2 1 500 (replicate 32 9%N).

Lemma well_keyed_empty : well_keyed ∅.
Proof. intros c t _ E. by rewrite lookup_empty in E. Qed.

(** The configuration has no client for the chain: the round panics, and no later one runs. *)
Lemma lock_discipline_witness :
  let w := example_world ∅ in
  let w' := (process_pair_with_lock (crates := example_crates) [example_client 2] 1 2 QP_MINER w).2 in
  storage w' !! lock_key = Some (Some lock_transaction) /\
  process_pairs (crates := example_crates) [example_client 1; example_client 2] [(1, 2)%N; (2, 1)%N] QP_MINER w' = (Ok (), w').
Proof.
  cbn zeta.
  pose proof (lock_discipline (crates := example_crates) [example_client 2] 1 2 QP_MINER (example_world ∅)
    well_keyed_empty eq_refl ltac:(discriminate)) as H.
  assert (Hp : (process_pair_with_lock (crates := example_crates) [example_client 2] 1 2 QP_MINER (example_world ∅)).1 = Panic) by (vm_compute; reflexivity).
  destruct (process_pair_with_lock _ _ _ _ _) as [r w']. cbn [fst snd] in *.
  destruct H as (_ & _ & H). destruct (H eq_refl Hp) as [H1 H2]. split; [exact H1 | apply H2].
Defined.

(** A run of two rounds: the transaction of chain 2 is younger than an hour and stays. *)
Lemma service_remembers_witness :
  let w := example_world {[ storage_key 2 := Some example_pending ]} in
  let clients := [example_client 2; example_client 1] in
  let pairs := [(2, 1)%N; (1, 2)%N] in
  storage (process_pairs (crates := example_crates) clients pairs QP_MINER w).2 !! storage_key 2 = Some (Some example_pending) \/
  exists i r, pairs !! i = Some (r, 2%N) /\
    let w1 := (process_pairs (crates := example_crates) clients (take i pairs) QP_MINER w).2 in
    storage w1 !! storage_key 2 = Some (Some example_pending) /\ storage w1 !! lock_key = None /\
    settled (crates := example_crates) clients example_pending (locked w1).
Proof.
  cbn zeta. refine (proj2 (service_remembers (crates := example_crates) true (Ok None) 5 [example_client 2; example_client 1] [(2, 1)%N; (1, 2)%N] QP_MINER
    (example_world {[ storage_key 2 := Some example_pending ]}) 2 example_pending I _ _ eq_refl _ _)).
  - apply (insert_keyed ∅ 2 example_pending); [reflexivity|reflexivity|apply well_keyed_empty].
  - by repeat constructor.
  - discriminate.
  - apply lookup_insert_eq.
Defined.
