(* ===== verification/BalancesErc20.v ===== *)
(** * The precompile that shows a balances pallet as an ERC20 token

    src/precompiles/balances-erc20/src: lib.rs with its allowances and
    eip2612.rs with permits.  The balances pallet and the EVM are the classes
    [Balances] and [Evm] of operations; what [Balances] promises of a transfer
    is in its laws.  Which function a selector picks, and that a call with
    value is refused by the ones that are not payable, is generated code and not
    modelled. *)

From S2P Require Import Prelude RustLang EthAbi ChainUtils.

Abbreviation H160 := bytes.
Abbreviation AccountId := bytes.

(** ** What the runtime supplies *)

(** [transfer_allow_death] debits its origin only: no other account is left
    with less.  How much a destination gains in usable balance depends on its
    locks, and is not promised. *)
Class Balances := {
  Ledger : Type;
  total_issuance : Ledger -> N;
  usable_balance : Ledger -> AccountId -> N;
  transfer_allow_death : AccountId -> AccountId -> N -> Ledger -> option Ledger;
  transfer_debits_origin l l' a b v c : transfer_allow_death a b v l = Some l' -> c <> a -> (usable_balance l c <= usable_balance l' c)%N
}.

Class Evm := {
  db_read_cost : N -> N;
  db_write_cost : N;
  log_cost : N -> N -> N;
  dispatch_cost : N;
  into_account_id : H160 -> AccountId;
  evm_chain_id : N;
  encode_arguments : list Token -> bytes;
  secp256k1_ecdsa_recover : bytes -> bytes -> option bytes;
  token_name : bytes;
  token_symbol : bytes;
  token_decimals : N;
  is_native_currency : bool
}.

(** ** State and errors *)

(** [InField]: the reason of a revert with the field of the arguments that
    [in_field] puts in front of it *)
Inductive EvmError :=
| OutOfGas
| Revert (reason : bytes)
| ValueIsTooLarge (what : bytes)
| InField (field : bytes) (reason : EvmError)
| UnknownSelector
| DispatchFailed.

Inductive Log :=
| Transfer (address from to_ : H160) (value : N)
| Approval (address owner spender : H160) (value : N)
| Deposit (address who : H160) (value : N)
| Withdrawal (address who : H160) (value : N).

Record Context := mkContext { address : H160; caller : H160; apparent_value : N }.

Record State {bal : Balances} := mkState {
  ledger : Ledger;
  Approves : gmap (AccountId * AccountId) N;
  Nonces : gmap H160 N;
  logs : list Log;
  moment : N;
  gas_left : N }.
Arguments State : clear implicits.
Arguments State {bal}.
Arguments mkState {bal}.

Section precompile.
  Context {crates : Crates} {bal : Balances} {evm : Evm}.

(** ** The monad *)

Definition P (A : Type) : Type := State -> outcome EvmError A * State.

#[export] Instance P_bind : MBind P := fun A B f m s =>
  match m s with
  | (Ok a, s) => f a s
  | (Err e, s) => (Err e, s)
  | (Panic, s) => (Panic, s)
  end.
#[export] Instance P_ret : MRet P := fun A a s => (Ok a, s).

Definition fail {A} (e : EvmError) : P A := fun s => (Err e, s).
Definition lift {A} (r : outcome EvmError A) : P A := fun s => (r, s).
Definition read {A} (f : State -> A) : P A := fun s => (Ok (f s), s).
Definition ensure (b : bool) (e : EvmError) : P () := if b then mret () else fail e.

Definition record_cost (c : N) : P () := fun s =>
  if (c <=? gas_left s)%N then (Ok (), mkState (ledger s) (Approves s) (Nonces s) (logs s) (moment s) (gas_left s - c)) else (Err OutOfGas, s).

Definition record_log (l : Log) : P () := fun s =>
  (Ok (), mkState (ledger s) (Approves s) (Nonces s) (logs s ++ [l]) (moment s) (gas_left s)).

Definition insert_approval (owner spender : AccountId) (value : N) : P () := fun s =>
  (Ok (), mkState (ledger s) (<[(owner, spender) := value]> (Approves s)) (Nonces s) (logs s) (moment s) (gas_left s)).

Definition insert_nonce (owner : H160) (n : N) : P () := fun s =>
  (Ok (), mkState (ledger s) (Approves s) (<[owner := n]> (Nonces s)) (logs s) (moment s) (gas_left s)).

(** [RuntimeHelper::try_dispatch] of a transfer *)
Definition dispatch_transfer (origin dest : AccountId) (value : N) : P () := fun s =>
  match transfer_allow_death origin dest value (ledger s) with
  | Some l => (Ok (), mkState l (Approves s) (Nonces s) (logs s) (moment s) (gas_left s))
  | None => (Err DispatchFailed, s)
  end.

Definition try_transfer (origin dest : AccountId) (value : N) : P () :=
  _ ← record_cost dispatch_cost;
  dispatch_transfer origin dest value.

(** What a call that fails has done is undone by the EVM, but for the gas. *)
Definition evm_call {A} (m : P A) (s : State) : outcome EvmError A * State :=
  match m s with
  | (Ok a, s') => (Ok a, s')
  | (r, s') => (r, mkState (ledger s) (Approves s) (Nonces s) (logs s) (moment s) (gas_left s'))
  end.

(** ** lib.rs *)

Definition max_balance : N := 2 ^ 128 - 1.

Definition u256_to_amount (value : N) : outcome EvmError N :=
  if (value <=? max_balance)%N then Ok value else Err (ValueIsTooLarge «"balance type"»).

Definition in_field {A} (field : bytes) (r : outcome EvmError A) : outcome EvmError A :=
  match r with Err e => Err (InField field e) | r => r end.

(** [unwrap_or_else(|_| Bounded::max_value())] *)
Definition saturated (value : N) : N := match u256_to_amount value with Ok v => v | _ => max_balance end.

Definition total_supply : P N := _ ← record_cost (db_read_cost 16); read (fun s => total_issuance (ledger s)).

Definition balance_of (owner : H160) : P N :=
  _ ← record_cost (db_read_cost 116);
  read (fun s => usable_balance (ledger s) (into_account_id owner)).

Definition allowance (owner spender : H160) : P N :=
  _ ← record_cost (db_read_cost 88);
  read (fun s => default 0%N (Approves s !! (into_account_id owner, into_account_id spender))).

Definition approve (ctx : Context) (spender : H160) (value : N) : P bool :=
  _ ← record_cost db_write_cost;
  _ ← record_cost (log_cost 3 32);
  _ ← insert_approval (into_account_id (caller ctx)) (into_account_id spender) (saturated value);
  _ ← record_log (Approval (address ctx) (caller ctx) spender value);
  mret true.

Definition transfer (ctx : Context) (to_ : H160) (value : N) : P bool :=
  _ ← record_cost (log_cost 3 32);
  amount ← lift (in_field «"value"» (u256_to_amount value));
  _ ← try_transfer (into_account_id (caller ctx)) (into_account_id to_) amount;
  _ ← record_log (Transfer (address ctx) (caller ctx) to_ value);
  mret true.

(** The entry of the allowance: refused without one or when it is too small. *)
Definition spend_allowance (from caller : AccountId) (value : N) : P () :=
  entry ← read (fun s => Approves s !! (from, caller));
  allowed ← lift (ok_or entry (Revert «"spender not allowed"»));
  if (value <=? allowed)%N then insert_approval from caller (allowed - value)
  else fail (Revert «"trying to spend more than allowed"»).

Definition transfer_from (ctx : Context) (from to_ : H160) (value : N) : P bool :=
  _ ← record_cost (db_read_cost 88);
  _ ← record_cost db_write_cost;
  _ ← record_cost (log_cost 3 32);
  let caller_id := into_account_id (caller ctx) in
  let from_id := into_account_id from in
  amount ← lift (in_field «"value"» (u256_to_amount value));
  _ ← (if bool_decide (caller_id = from_id) then mret () else spend_allowance from_id caller_id amount);
  _ ← try_transfer from_id (into_account_id to_) amount;
  _ ← record_log (Transfer (address ctx) from to_ value);
  mret true.

Definition name : P bytes := mret token_name.
Definition symbol : P bytes := mret token_symbol.
Definition decimals : P N := mret token_decimals.

Definition deposit (ctx : Context) : P () :=
  _ ← ensure is_native_currency UnknownSelector;
  amount ← lift (u256_to_amount (apparent_value ctx));
  _ ← ensure (negb (N.eqb amount 0)) (Revert «"deposited amount must be non-zero"»);
  _ ← record_cost (log_cost 2 32);
  _ ← try_transfer (into_account_id (address ctx)) (into_account_id (caller ctx)) amount;
  record_log (Deposit (address ctx) (caller ctx) (apparent_value ctx)).

Definition withdraw (ctx : Context) (value : N) : P () :=
  _ ← ensure is_native_currency UnknownSelector;
  _ ← record_cost (log_cost 2 32);
  account_amount ← read (fun s => usable_balance (ledger s) (into_account_id (caller ctx)));
  _ ← ensure (value <=? account_amount)%N (Revert «"Trying to withdraw more than owned"»);
  record_log (Withdrawal (address ctx) (caller ctx) value).

(** ** eip2612.rs *)

Definition PERMIT_TYPEHASH : bytes :=
  keccak256 «"Permit(address owner,address spender,uint256 value,uint256 nonce,uint256 deadline)"».
Definition PERMIT_DOMAIN : bytes :=
  keccak256 «"EIP712Domain(string name,string version,uint256 chainId,address verifyingContract)"».

Definition compute_domain_separator (address : H160) : bytes :=
  keccak256 (encode_arguments [FixedBytes PERMIT_DOMAIN; FixedBytes (keccak256 token_name); FixedBytes (keccak256 «"1"»);
                               Uint evm_chain_id; Address address]).

Definition generate_permit (address owner spender : H160) (value nonce deadline : N) : bytes :=
  let permit_content := keccak256 (encode_arguments
    [FixedBytes PERMIT_TYPEHASH; Address owner; Address spender; Uint value; Uint nonce; Uint deadline]) in
  keccak256 ([0x19; 0x01]%N ++ compute_domain_separator address ++ permit_content).

(** The account of a public key: the last twenty bytes of its hash *)
Definition signer_address (public_key : bytes) : H160 := drop 12 (keccak256 public_key).

Definition current_nonce (owner : H160) (s : State) : N := default 0%N (Nonces s !! owner).

Definition permit (ctx : Context) (owner spender : H160) (value deadline v : N) (r s : bytes) : P () :=
  _ ← record_cost (db_read_cost 104);
  timestamp ← read (fun s => moment s / 1000)%N;
  _ ← ensure (timestamp <=? deadline)%N (Revert «"Permit expired"»);
  nonce ← read (current_nonce owner);
  let permit := generate_permit (address ctx) owner spender value nonce deadline in
  signer ← lift (ok_or (secp256k1_ecdsa_recover (r ++ s ++ [v]) permit) (Revert «"Invalid permit"»));
  let signer := signer_address signer in
  _ ← ensure (negb (bool_decide (signer = replicate 20 0%N)) && bool_decide (signer = owner)) (Revert «"Invalid permit"»);
  _ ← lift (if (nonce + 1 <? 2 ^ 256)%N then Ok () else Panic);
  _ ← insert_nonce owner (nonce + 1);
  _ ← insert_approval (into_account_id owner) (into_account_id spender) (saturated value);
  record_log (Approval (address ctx) owner spender value).

Definition nonces (owner : H160) : P N := _ ← record_cost (db_read_cost 104); read (current_nonce owner).

Definition domain_separator (ctx : Context) : P bytes :=
  _ ← record_cost (db_read_cost 8);
  mret (compute_domain_separator (address ctx)).

(** ** Histories of calls *)

Inductive Call :=
| CallApprove (spender : H160) (value : N)
| CallTransfer (to_ : H160) (value : N)
| CallTransferFrom (from to_ : H160) (value : N)
| CallDeposit
| CallWithdraw (value : N)
| CallPermit (owner spender : H160) (value deadline v : N) (r s : bytes).

Definition run_call (ctx : Context) (c : Call) (s : State) : outcome EvmError () * State :=
  let done_ {A} (o : outcome EvmError A * State) : outcome EvmError () * State := (fmap (fun _ => ()) o.1, o.2) in
  match c with
  | CallApprove spender value => done_ (evm_call (approve ctx spender value) s)
  | CallTransfer to_ value => done_ (evm_call (transfer ctx to_ value) s)
  | CallTransferFrom from to_ value => done_ (evm_call (transfer_from ctx from to_ value) s)
  | CallDeposit => evm_call (deposit ctx) s
  | CallWithdraw value => evm_call (withdraw ctx value) s
  | CallPermit owner spender value deadline v r sg => evm_call (permit ctx owner spender value deadline v r sg) s
  end.

(** Between two calls the EVM sets the gas and the time. *)
Definition with_gas (g t : N) (s : State) : State := mkState (ledger s) (Approves s) (Nonces s) (logs s) t g.

Fixpoint run_calls (calls : list (Context * Call * N * N)) (s : State) : list (Context * Call * outcome EvmError ()) * State :=
  match calls with
  | [] => ([], s)
  | (ctx, c, g, t) :: calls =>
      let '(r, s) := run_call ctx c (with_gas g t s) in
      let '(trace, s) := run_calls calls s in
      ((ctx, c, r) :: trace, s)
  end.

End precompile.
