(* ===== verification/Erc20Props.v ===== *)
(** * Allowances, permits and balances of the ERC20 precompile *)

From S2P Require Import Prelude RustLang EthAbi ChainUtils QuantumPortalPallet ChainQueries BalancesErc20.

Section props.
  Context {crates : Crates} {bal : Balances} {evm : Evm}.

(** ** Calls that succeed, opened *)

Lemma P_bind_ok {A B} (m : P A) (f : A -> P B) s b s' :
  (m ≫= f) s = (Ok b, s') <-> exists a s1, m s = (Ok a, s1) /\ f a s1 = (Ok b, s').
Proof. unfold mbind, P_bind. destruct (m s) as [[a|e|] s1]; naive_solver. Qed.

Lemma record_cost_ok c s a s' : record_cost c s = (Ok a, s') ->
  ledger s' = ledger s /\ Approves s' = Approves s /\ Nonces s' = Nonces s /\ logs s' = logs s /\ moment s' = moment s.
Proof. unfold record_cost. destruct (_ <=? _)%N; naive_solver. Qed.

Lemma ensure_ok b e s a s' : ensure b e s = (Ok a, s') -> b = true /\ s' = s.
Proof. unfold ensure. destruct b; [|done]. by intros [= _ <-]. Qed.

Lemma try_transfer_ok a b v s x s' : try_transfer a b v s = (Ok x, s') ->
  transfer_allow_death a b v (ledger s) = Some (ledger s') /\ Approves s' = Approves s /\ Nonces s' = Nonces s /\ logs s' = logs s.
Proof.
  intros H. apply P_bind_ok in H as (? & s1 & H1 & H). apply record_cost_ok in H1 as (E1 & E2 & E3 & E4 & _).
  unfold dispatch_transfer in H. rewrite E1 in H. destruct (transfer_allow_death a b v (ledger s)) as [l|]; [|done].
  injection H as _ <-. by rewrite <- E2, <- E3, <- E4.
Qed.

Lemma spend_allowance_ok o sp v s x s' : spend_allowance o sp v s = (Ok x, s') ->
  exists allowed, Approves s !! (o, sp) = Some allowed /\ (v <= allowed)%N /\
    Approves s' = <[(o, sp) := (allowed - v)%N]> (Approves s) /\ ledger s' = ledger s /\ Nonces s' = Nonces s /\ logs s' = logs s.
Proof.
  intros H. unfold spend_allowance in H. apply P_bind_ok in H as (entry & s1 & H1 & H). injection H1 as <- <-.
  apply P_bind_ok in H as (allowed & s1 & H1 & H). unfold lift in H1. injection H1 as H1 <-.
  destruct (Approves s !! (o, sp)) as [al|]; [|done]. injection H1 as <-. exists al.
  destruct (v <=? al)%N eqn:Ev; [|done]. apply N.leb_le in Ev. by injection H as _ <-.
Qed.

(** ** One call *)

Lemma approve_ok ctx spender v s x s' : approve ctx spender v s = (Ok x, s') ->
  Approves s' = <[(into_account_id (caller ctx), into_account_id spender) := saturated v]> (Approves s) /\
  ledger s' = ledger s /\ Nonces s' = Nonces s /\ logs s' = logs s ++ [Approval (address ctx) (caller ctx) spender v].
Proof.
  intros H. unfold approve in H. apply P_bind_ok in H as (? & s1 & H1 & H). apply record_cost_ok in H1 as (<- & <- & <- & <- & _).
  apply P_bind_ok in H as (? & s2 & H1 & H). apply record_cost_ok in H1 as (<- & <- & <- & <- & _).
  apply P_bind_ok in H as (? & s3 & H1 & H). injection H1 as _ <-. apply P_bind_ok in H as (? & s4 & H1 & H). injection H1 as _ <-.
  by injection H as _ <-.
Qed.

Lemma transfer_ok ctx to_ v s x s' : transfer ctx to_ v s = (Ok x, s') ->
  transfer_allow_death (into_account_id (caller ctx)) (into_account_id to_) v (ledger s) = Some (ledger s') /\
  Approves s' = Approves s /\ Nonces s' = Nonces s /\ logs s' = logs s ++ [Transfer (address ctx) (caller ctx) to_ v].
Proof.
  intros H. unfold transfer in H. apply P_bind_ok in H as (? & s1 & H1 & H). apply record_cost_ok in H1 as (<- & <- & <- & <- & _).
  apply P_bind_ok in H as (amount & s2 & H1 & H). unfold lift, in_field, u256_to_amount in H1. destruct (_ <=? _)%N; [|done]. injection H1 as <- <-.
  apply P_bind_ok in H as (? & s3 & H1 & H). apply try_transfer_ok in H1 as (-> & <- & <- & <-).
  apply P_bind_ok in H as (? & s4 & H1 & H). injection H1 as _ <-. by injection H as _ <-.
Qed.

Lemma transfer_from_ok ctx from to_ v s x s' : transfer_from ctx from to_ v s = (Ok x, s') ->
  let c := into_account_id (caller ctx) in let o := into_account_id from in
  transfer_allow_death o (into_account_id to_) v (ledger s) = Some (ledger s') /\ Nonces s' = Nonces s /\
  logs s' = logs s ++ [Transfer (address ctx) from to_ v] /\
  (if bool_decide (c = o) then Approves s' = Approves s
   else exists allowed, Approves s !! (o, c) = Some allowed /\ (v <= allowed)%N /\ Approves s' = <[(o, c) := (allowed - v)%N]> (Approves s)).
Proof.
  intros H. cbn zeta. unfold transfer_from in H.
  do 3 (apply P_bind_ok in H as (? & ? & H1 & H); apply record_cost_ok in H1 as (<- & <- & <- & <- & _)).
  apply P_bind_ok in H as (amount & s2 & H1 & H). unfold lift, in_field, u256_to_amount in H1. destruct (_ <=? _)%N; [|done]. injection H1 as <- <-.
  apply P_bind_ok in H as (? & s3 & H1 & H). apply P_bind_ok in H as (? & s4 & H2 & H). apply P_bind_ok in H as (? & s5 & H3 & H).
  injection H3 as _ <-. injection H as _ <-. apply try_transfer_ok in H2 as (Ht & Ha & Hn & Hl). cbn.
  destruct (bool_decide _).
  - injection H1 as _ <-. by rewrite Ht, Hn, Hl.
  - apply spend_allowance_ok in H1 as (al & E1 & E2 & E3 & E4 & E5 & E6). rewrite <- E4, Ht, Hn, Hl, E5, E6. split_and!; [done..|].
    exists al. by rewrite Ha.
Qed.

Lemma deposit_ok ctx s x s' : deposit ctx s = (Ok x, s') ->
  transfer_allow_death (into_account_id (address ctx)) (into_account_id (caller ctx)) (apparent_value ctx) (ledger s) = Some (ledger s') /\
  Approves s' = Approves s /\ Nonces s' = Nonces s.
Proof.
  intros H. unfold deposit in H. apply P_bind_ok in H as (? & s1 & H1 & H). apply ensure_ok in H1 as [_ ->].
  apply P_bind_ok in H as (amount & s2 & H1 & H). unfold lift, in_field, u256_to_amount in H1. destruct (_ <=? _)%N; [|done]. injection H1 as <- <-.
  apply P_bind_ok in H as (? & s1 & H1 & H). apply ensure_ok in H1 as [_ ->].
  apply P_bind_ok in H as (? & s1 & H1 & H). apply record_cost_ok in H1 as (<- & <- & <- & _ & _).
  apply P_bind_ok in H as (? & s3 & H1 & H). apply try_transfer_ok in H1 as (-> & <- & <- & _). by injection H as _ <-.
Qed.

Lemma withdraw_ok ctx v s x s' : withdraw ctx v s = (Ok x, s') ->
  ledger s' = ledger s /\ Approves s' = Approves s /\ Nonces s' = Nonces s.
Proof.
  intros H. unfold withdraw in H. apply P_bind_ok in H as (? & s1 & H1 & H). apply ensure_ok in H1 as [_ ->].
  apply P_bind_ok in H as (? & s1 & H1 & H). apply record_cost_ok in H1 as (<- & <- & <- & _ & _).
  apply P_bind_ok in H as (? & s2 & H1 & H). injection H1 as _ <-. apply P_bind_ok in H as (? & s3 & H1 & H). apply ensure_ok in H1 as [_ ->].
  by injection H as _ <-.
Qed.

(** A permit that is accepted was in time and signed by its owner over the
    owner's current nonce, which it uses up. *)
Lemma permit_ok ctx owner spender v deadline vv r sg s x s' :
  permit ctx owner spender v deadline vv r sg s = (Ok x, s') ->
  (moment s / 1000 <= deadline)%N /\
  (exists pk, secp256k1_ecdsa_recover (r ++ sg ++ [vv]) (generate_permit (address ctx) owner spender v (current_nonce owner s) deadline) = Some pk /\
              signer_address pk = owner /\ owner <> replicate 20 0%N) /\
  Nonces s' = <[owner := (current_nonce owner s + 1)%N]> (Nonces s) /\
  Approves s' = <[(into_account_id owner, into_account_id spender) := saturated v]> (Approves s) /\
  ledger s' = ledger s.
Proof.
  intros H. unfold permit in H. apply P_bind_ok in H as (? & s1 & H1 & H). apply record_cost_ok in H1 as (<- & <- & E3 & _ & <-).
  apply P_bind_ok in H as (? & s2 & H1 & H). injection H1 as <- <-.
  apply P_bind_ok in H as (? & s2 & H1 & H). apply ensure_ok in H1 as [Hd ->]. apply N.leb_le in Hd.
  apply P_bind_ok in H as (n & s2 & H1 & H). injection H1 as <- <-.
  apply P_bind_ok in H as (pk & s2 & H1 & H). unfold lift in H1. injection H1 as Hpk <-.
  apply P_bind_ok in H as (? & s2 & H1 & H). apply ensure_ok in H1 as [Hs ->].
  apply andb_true_iff in Hs as [Hz Ho]. apply negb_true_iff, bool_decide_eq_false in Hz. apply bool_decide_eq_true in Ho.
  apply P_bind_ok in H as (? & s2 & H1 & H). unfold lift in H1. destruct (_ <? _)%N; [|done]. injection H1 as _ <-.
  apply P_bind_ok in H as (? & s2 & H1 & H). injection H1 as _ <-. apply P_bind_ok in H as (? & s2 & H1 & H). injection H1 as _ <-.
  injection H as _ <-. cbn. unfold current_nonce in *. rewrite E3 in *.
  split_and!; [done| |done..]. exists pk. destruct (secp256k1_ecdsa_recover _ _) as [pk'|]; [|done]. injection Hpk as ->.
  split_and!; [done..|]. by rewrite <- Ho.
Qed.

(** ** Histories *)

Lemma evm_call_ok {A} (m : P A) s a s' : evm_call m s = (Ok a, s') -> m s = (Ok a, s').
Proof. unfold evm_call. destruct (m s) as [[x|e|] s1]; [done|discriminate..]. Qed.

Lemma evm_call_failed {A} (m : P A) s r s' : evm_call m s = (r, s') -> is_ok r = false ->
  ledger s' = ledger s /\ Approves s' = Approves s /\ Nonces s' = Nonces s /\ logs s' = logs s.
Proof. unfold evm_call. destruct (m s) as [[x|e|] s1]; intros [= <- <-]; done. Qed.

Lemma fmap_ok {E A B} (f : A -> B) (r : outcome E A) b : f <$> r = Ok b -> exists a, r = Ok a.
Proof. destruct r; cbn; naive_solver. Qed.

Lemma fmap_is_ok {E A B} (f : A -> B) (r : outcome E A) : is_ok (f <$> r) = is_ok r.
Proof. by destruct r. Qed.

(** A call that fails changes nothing but the gas. *)
Lemma run_call_failed ctx c s r s' : run_call ctx c s = (r, s') -> is_ok r = false ->
  ledger s' = ledger s /\ Approves s' = Approves s /\ Nonces s' = Nonces s /\ logs s' = logs s.
Proof.
  destruct c; cbn [run_call]; try apply evm_call_failed; intros [= <- <-]; rewrite fmap_is_ok;
    match goal with |- context [evm_call ?m s] => destruct (evm_call m s) as [r' s1] eqn:E end; by apply (evm_call_failed _ _ _ _ E).
Qed.

(** What a call that succeeds does *)
Definition call_effect (ctx : Context) (c : Call) (s s' : State) : Prop :=
  match c with
  | CallApprove spender v => exists x, approve ctx spender v s = (Ok x, s')
  | CallTransfer to_ v => exists x, transfer ctx to_ v s = (Ok x, s')
  | CallTransferFrom from to_ v => exists x, transfer_from ctx from to_ v s = (Ok x, s')
  | CallDeposit => exists x, deposit ctx s = (Ok x, s')
  | CallWithdraw v => exists x, withdraw ctx v s = (Ok x, s')
  | CallPermit owner spender v d vv r sg => exists x, permit ctx owner spender v d vv r sg s = (Ok x, s')
  end.

Lemma run_call_ok ctx c s u s' : run_call ctx c s = (Ok u, s') -> call_effect ctx c s s'.
Proof.
  destruct c; cbn [run_call call_effect]; try (intros H%evm_call_ok; by exists u); intros H;
    match type of H with context [evm_call ?m s] => destruct (evm_call m s) as [r1 s1] eqn:E end; injection H as Hr <-;
    apply fmap_ok in Hr as [a ->]; exists a; by apply evm_call_ok.
Qed.

(** The calls of a history, with their outcomes *)
Abbreviation entry := (Context * Call * outcome EvmError ())%type.

Definition is_permit_of (owner : H160) (e : entry) : bool :=
  match e with (_, CallPermit o _ _ _ _ _ _, Ok _) => bool_decide (o = owner) | _ => false end.

(** What an accepted call grants a spender of an owner's balance *)
Definition grant (o sp : AccountId) (e : entry) : option N :=
  match e with
  | (ctx, CallApprove spender v, Ok _) =>
      if bool_decide (into_account_id (caller ctx) = o /\ into_account_id spender = sp) then Some (N.min v max_balance) else None
  | (_, CallPermit owner spender v _ _ _ _, Ok _) =>
      if bool_decide (into_account_id owner = o /\ into_account_id spender = sp) then Some (N.min v max_balance) else None
  | _ => None
  end.

(** What a spender moved of the balance of another account *)
Definition spent (o sp : AccountId) (e : entry) : N :=
  match e with
  | (ctx, CallTransferFrom from _ v, Ok _) =>
      if bool_decide (into_account_id from = o /\ into_account_id (caller ctx) = sp /\ o <> sp) then v else 0
  | _ => 0
  end%N.
Definition total_spent (o sp : AccountId) (t : list entry) : N := foldr (fun e n => spent o sp e + n)%N 0%N t.
Definition total_granted (o sp : AccountId) (t : list entry) : N := foldr (fun e n => default 0 (grant o sp e) + n)%N 0%N t.

(** An allowance as the accepted calls alone tell it: a grant replaces it and
    what is moved is taken off; [None] when more is moved than is left. *)
Fixpoint replay (o sp : AccountId) (a : N) (t : list entry) : option N :=
  match t with
  | [] => Some a
  | e :: t =>
      match grant o sp e with
      | Some g => replay o sp g t
      | None => if (spent o sp e <=? a)%N then replay o sp (a - spent o sp e) t else None
      end
  end.

Lemma replay_bound o sp t : forall a a', replay o sp a t = Some a' -> (total_spent o sp t + a' <= a + total_granted o sp t)%N.
Proof.
  assert (Hz : forall e g, grant o sp e = Some g -> spent o sp e = 0%N) by (by intros [[? []] []]).
  induction t as [|e t IH]; intros a a' H; cbn [replay total_spent total_granted foldr] in *.
  - injection H as ->. lia.
  - fold (total_spent o sp t) (total_granted o sp t). destruct (grant o sp e) as [g|] eqn:Eg; cbn [default from_option id].
    + rewrite (Hz e g Eg). apply IH in H. lia.
    + destruct (_ <=? _)%N eqn:E; [|done]. apply N.leb_le in E. apply IH in H. lia.
Qed.

Definition allowed (s : State) (o sp : AccountId) : N := default 0%N (Approves s !! (o, sp)).

(** An accepted call by which an account lets its own balance go *)
Definition acts (a : AccountId) (e : entry) : bool :=
  match e with
  | (ctx, CallPermit owner _ _ _ _ _ _, Ok _) => bool_decide (into_account_id owner = a)
  | (ctx, CallDeposit, Ok _) => bool_decide (into_account_id (address ctx) = a)
  | (ctx, _, Ok _) => bool_decide (into_account_id (caller ctx) = a)
  | _ => false
  end.

Lemma allowed_insert_ne s s' k v o sp : Approves s' = <[k := v]> (Approves s) -> k <> (o, sp) -> allowed s' o sp = allowed s o sp.
Proof. intros E Hk. unfold allowed. by rewrite E, lookup_insert_ne. Qed.

Lemma allowed_eq s s' o sp : Approves s' = Approves s -> allowed s' o sp = allowed s o sp.
Proof. unfold allowed. by intros ->. Qed.

Lemma saturated_min v : saturated v = N.min v max_balance.
Proof.
  unfold saturated, u256_to_amount. destruct (v <=? max_balance)%N eqn:E; cbn; [apply N.leb_le in E | apply N.leb_gt in E]; lia.
Qed.

Lemma allowed_insert s s' o sp k v : Approves s' = <[k := v]> (Approves s) ->
  allowed s' o sp = if bool_decide (k = (o, sp)) then v else allowed s o sp.
Proof.
  intros E. case_bool_decide as Hk; [|by eapply allowed_insert_ne]. unfold allowed. by rewrite E, Hk, lookup_insert_eq.
Qed.

(** One step of [replay] *)
Lemma replay_one o sp a a' e :
  match grant o sp e with Some g => a' = g | None => (a' + spent o sp e = a)%N end -> replay o sp a [e] = Some a'.
Proof. cbn. destruct (grant o sp e); [by intros ->|]. intros <-. rewrite (proj2 (N.leb_le _ _)) by lia. f_equal. lia. Qed.

Lemma call_allowance ctx c s r s' o sp : run_call ctx c s = (r, s') ->
  replay o sp (allowed s o sp) [(ctx, c, r)] = Some (allowed s' o sp).
Proof.
  intros H. apply replay_one. destruct (is_ok r) eqn:Hr.
  2:{ destruct (run_call_failed _ _ _ _ _ H Hr) as (_ & Ha & _). rewrite (allowed_eq _ _ _ _ Ha).
      destruct c, r; cbn; try done; lia. }
  destruct r as [u| |]; try done. apply run_call_ok in H. destruct c; cbn [call_effect grant spent] in *; destruct H as [x H].
  - apply approve_ok in H as (Ha & _). rewrite (allowed_insert s s' o sp _ _ Ha), saturated_min.
    repeat case_bool_decide; try naive_solver lia.
  - apply transfer_ok in H as (_ & Ha & _). rewrite (allowed_eq _ _ _ _ Ha). lia.
  - apply transfer_from_ok in H as (_ & _ & _ & Ha). case_bool_decide as Hc.
    + rewrite (allowed_eq _ _ _ _ Ha), bool_decide_eq_false_2 by naive_solver. lia.
    + destruct Ha as (al & E & Hv & Ha). rewrite (allowed_insert s s' o sp _ _ Ha).
      case_bool_decide as Hp; [|rewrite bool_decide_eq_false_2 by naive_solver; lia].
      injection Hp as <- <-. rewrite bool_decide_eq_true_2 by naive_solver. unfold allowed. rewrite E. cbn. lia.
  - apply deposit_ok in H as (_ & Ha & _). rewrite (allowed_eq _ _ _ _ Ha). lia.
  - apply withdraw_ok in H as (_ & Ha & _). rewrite (allowed_eq _ _ _ _ Ha). lia.
  - apply permit_ok in H as (_ & _ & _ & Ha & _). rewrite (allowed_insert s s' o sp _ _ Ha), saturated_min.
    repeat case_bool_decide; try naive_solver lia.
Qed.

Lemma replay_cons o sp a e t a' : replay o sp a [e] = Some a' -> replay o sp a (e :: t) = replay o sp a' t.
Proof. cbn. destruct (grant o sp e); [by intros [= ->]|]. destruct (_ <=? _)%N; [by intros [= ->]|done]. Qed.

Lemma call_nonce ctx c s r s' owner : run_call ctx c s = (r, s') ->
  current_nonce owner s' = (current_nonce owner s + (if is_permit_of owner (ctx, c, r) then 1 else 0))%N.
Proof.
  intros H. destruct (is_ok r) eqn:Hr.
  2:{ destruct (run_call_failed _ _ _ _ _ H Hr) as (_ & _ & Hn & _). unfold current_nonce. rewrite Hn.
      destruct c, r; cbn; try done; lia. }
  destruct r as [u| |]; try done. apply run_call_ok in H. unfold current_nonce.
  destruct c; cbn [call_effect is_permit_of] in *; destruct H as [x H].
  - apply approve_ok in H as (_ & _ & -> & _). lia.
  - apply transfer_ok in H as (_ & _ & -> & _). lia.
  - apply transfer_from_ok in H as (_ & -> & _). lia.
  - apply deposit_ok in H as (_ & _ & ->). lia.
  - apply withdraw_ok in H as (_ & _ & ->). lia.
  - apply permit_ok in H as (_ & _ & -> & _). case_bool_decide as Ho.
    + subst. rewrite lookup_insert_eq. done.
    + rewrite lookup_insert_ne by done. lia.
Qed.

(** An account that has approved nobody *)
Definition unapproved (a : AccountId) (s : State) : Prop := forall sp, Approves s !! (a, sp) = None.

Lemma unapproved_insert a s s' k v : Approves s' = <[k := v]> (Approves s) -> k.1 <> a -> unapproved a s -> unapproved a s'.
Proof. intros E Hk H sp. rewrite E, lookup_insert_ne; [apply H|]. intros ->. done. Qed.

Lemma unapproved_eq a s s' : Approves s' = Approves s -> unapproved a s -> unapproved a s'.
Proof. intros E H sp. by rewrite E. Qed.

Lemma call_holder ctx c s r s' a : run_call ctx c s = (r, s') -> acts a (ctx, c, r) = false -> unapproved a s ->
  unapproved a s' /\ (usable_balance (ledger s) a <= usable_balance (ledger s') a)%N.
Proof.
  intros H Hs Hu. destruct (is_ok r) eqn:Hr.
  2:{ destruct (run_call_failed _ _ _ _ _ H Hr) as (Hl & Ha & _). rewrite Hl. split; [by eapply unapproved_eq | done]. }
  destruct r as [u| |]; try done. apply run_call_ok in H.
  destruct c; cbn [call_effect acts] in *; apply bool_decide_eq_false in Hs; destruct H as [x H].
  - apply approve_ok in H as (Ha & Hl & _). rewrite Hl. split; [by eapply unapproved_insert | done].
  - apply transfer_ok in H as (Ht & Ha & _). split; [by eapply unapproved_eq | eapply transfer_debits_origin; [exact Ht|congruence]].
  - apply transfer_from_ok in H as (Ht & _ & _ & Ha). case_bool_decide as Hc.
    + split; [by eapply unapproved_eq | eapply transfer_debits_origin; [exact Ht|congruence]].
    + destruct Ha as (al & E & _ & Ha). assert (into_account_id from <> a) by (intros Hf; rewrite Hf, Hu in E; done).
      split; [by eapply unapproved_insert | eapply transfer_debits_origin; [exact Ht|congruence]].
  - apply deposit_ok in H as (Ht & Ha & _). split; [by eapply unapproved_eq | eapply transfer_debits_origin; [exact Ht|congruence]].
  - apply withdraw_ok in H as (Hl & Ha & _). rewrite Hl. split; [by eapply unapproved_eq | done].
  - apply permit_ok in H as (_ & _ & _ & Ha & Hl). rewrite Hl. split; [by eapply unapproved_insert | done].
Qed.

(** A fact of single calls, carried along a history *)
Lemma run_calls_ind (I : State -> list entry -> State -> Prop) :
  (forall s, I s [] s) ->
  (forall s ctx c g t r s1 trace s', run_call ctx c (with_gas g t s) = (r, s1) -> I s1 trace s' -> I s ((ctx, c, r) :: trace) s') ->
  forall calls s trace s', run_calls calls s = (trace, s') -> I s trace s'.
Proof.
  intros H0 Hs. induction calls as [|[[[ctx c] g] t] calls IH]; intros s trace s' E; cbn [run_calls] in E.
  - by injection E as <- <-.
  - destruct (run_call ctx c (with_gas g t s)) as [r s1] eqn:E1. destruct (run_calls calls s1) as [tr s2] eqn:E2.
    injection E as <- <-. by eapply Hs; [|apply IH].
Qed.

(** C4. Allowances, over every history of calls to the precompile, those that
    set the allowance among them.  The allowance of a spender over an owner's
    balance is what the calls that succeeded make of it: an approval or a permit
    sets it, to at most the largest balance, and every transfer by the
    spender from the owner takes off exactly what it moves and was covered by
    what was left ([replay] has no overdraft).  So in all, what the spender moved
    and what is left are at most the allowance at the start and what was granted
    since.  And an account that has approved nobody is left without approvals and
    with no less usable balance, as long as no call of its own, no permit
    in its name and, where it is the precompile's account, no deposit
    succeeds. *)
Theorem allowances_hold (calls : list (Context * Call * N * N)) (s s' : State) (trace : list entry) (o sp a : AccountId) :
  run_calls calls s = (trace, s') ->
  replay o sp (allowed s o sp) trace = Some (allowed s' o sp) /\
  (total_spent o sp trace + allowed s' o sp <= allowed s o sp + total_granted o sp trace)%N /\
  (unapproved a s -> forallb (fun e => negb (acts a e)) trace = true ->
   unapproved a s' /\ (usable_balance (ledger s) a <= usable_balance (ledger s') a)%N).
Proof.
  intros H. assert (Hr : replay o sp (allowed s o sp) trace = Some (allowed s' o sp)).
  { revert s trace s' H. refine (run_calls_ind _ _ _ calls); [done|].
    intros s ctx c g t r s1 trace s' H IH. apply call_allowance with (o := o) (sp := sp) in H.
    change (allowed (with_gas g t s) o sp) with (allowed s o sp) in H. by rewrite (replay_cons _ _ _ _ _ _ H). }
  split_and!; [exact Hr | by apply replay_bound |]. clear Hr.
  revert s trace s' H. refine (run_calls_ind _ _ _ calls); [done|].
  intros s ctx c g t r s1 trace s' H IH Hu Hf. cbn [forallb] in Hf. apply andb_true_iff in Hf as [Hf1 Hf2]. apply negb_true_iff in Hf1.
  apply call_holder with (a := a) in H as [Hu1 Hle]; [|done..]. destruct (IH Hu1 Hf2) as [Hu2 Hle2].
  split; [done|]. etrans; [exact Hle | exact Hle2].
Qed.

(** C5. A permit is used once.  It succeeds only in time, with a signature that the
    owner's key made over the owner's current nonce, and then raises that
    nonce; and over any history of calls the nonce of an owner has grown by the
    number of permits that succeeded, so no two of them were checked against the
    same nonce and what was signed for one is never accepted again.  A call
    that fails has no effect but on the gas. *)
Theorem permits_used_once (calls : list (Context * Call * N * N)) (s s' : State) (trace : list entry) (owner : H160) :
  run_calls calls s = (trace, s') ->
  current_nonce owner s' = (current_nonce owner s + N.of_nat (length (List.filter (is_permit_of owner) trace)))%N /\
  (forall ctx spender v deadline vv r sg u s1,
     run_call ctx (CallPermit owner spender v deadline vv r sg) s' = (Ok u, s1) ->
     (moment s' / 1000 <= deadline)%N /\
     (exists pk, secp256k1_ecdsa_recover (r ++ sg ++ [vv]) (generate_permit (address ctx) owner spender v (current_nonce owner s') deadline) = Some pk /\
                 signer_address pk = owner) /\
     current_nonce owner s1 = (current_nonce owner s' + 1)%N /\
     allowed s1 (into_account_id owner) (into_account_id spender) = N.min v max_balance) /\
  (forall ctx c r s1, run_call ctx c s' = (r, s1) -> is_ok r = false ->
     ledger s1 = ledger s' /\ Approves s1 = Approves s' /\ Nonces s1 = Nonces s' /\ logs s1 = logs s').
Proof.
  intros H. split_and!.
  - revert s trace s' H. refine (run_calls_ind _ _ _ calls); [intros s; cbn; lia|].
    intros s ctx c g t r s1 trace s' H IH. apply call_nonce with (owner := owner) in H. rewrite IH, H.
    change (current_nonce owner (with_gas g t s)) with (current_nonce owner s). cbn [List.filter].
    destruct (is_permit_of owner (ctx, c, r)); cbn [length]; lia.
  - intros ctx spender v deadline vv r sg u s1 E. apply run_call_ok in E as [x E].
    apply permit_ok in E as (Hd & (pk & Hpk & Ho & _) & Hn & Ha & _). split_and!; [done|by exists pk| |].
    + unfold current_nonce at 1. by rewrite Hn, lookup_insert_eq.
    + unfold allowed. rewrite Ha, lookup_insert_eq. apply saturated_min.
  - intros ctx c r s1 E Hr. by apply run_call_failed in E.
Qed.

End props.

(** ** Examples: a ledger of balances, costs of one, addresses as accounts *)

Definition balance_in (l : gmap bytes N) (a : bytes) : N := default 0%N (l !! a).

Definition move (a b : bytes) (v : N) (l : gmap bytes N) : option (gmap bytes N) :=
  if (v <=? balance_in l a)%N
  then let l' := <[a := (balance_in l a - v)%N]> l in Some (<[b := (balance_in l' b + v)%N]> l')
  else None.

#[export] Program Instance example_balances : Balances := {|
  Ledger := gmap bytes N;
  total_issuance := fun l => map_fold (fun _ v n => v + n)%N 0%N l;
  usable_balance := balance_in;
  transfer_allow_death := move
|}.
Next Obligation.
  intros l l' a b v c H Hc. unfold move in H. destruct (_ <=? _)%N; [|done]. injection H as <-. unfold balance_in at 2.
  destruct (decide (b = c)) as [->|Hb]; [rewrite lookup_insert_eq | rewrite lookup_insert_ne by done];
    unfold balance_in; rewrite lookup_insert_ne by done; cbn; lia.
Qed.

Definition example_evm : Evm := {|
  db_read_cost := fun _ => 1%N; db_write_cost := 1%N; log_cost := fun _ _ => 1%N; dispatch_cost := 1%N;
  into_account_id := fun a => a; evm_chain_id := 26%N; encode_arguments := encode;
  secp256k1_ecdsa_recover := fun sig msg => if bool_decide (take 32 sig = msg) then Some [5%N] else None;
  token_name := «"FRM"»; token_symbol := «"FRM"»; token_decimals := 18%N; is_native_currency := true
|}.

Definition alice : bytes := replicate 20 1%N.
Definition bob : bytes := replicate 20 2%N.
Definition carol : bytes := replicate 20 3%N.
Definition example_state : State :=
  mkState (bal := example_balances) (<[alice := 100%N]> (<[carol := 7%N]> ∅)) ∅ ∅ [] 0 0.

(** Alice approves thirty; Bob moves twenty, asks for twenty more and is refused. *)
Definition spending : list (Context * Call * N * N) :=
  [(mkContext carol alice 0, CallApprove bob 30, 9, 0)%N;
   (mkContext carol bob 0, CallTransferFrom alice bob 20, 9, 0)%N; (mkContext carol bob 0, CallTransferFrom alice bob 20, 9, 0)%N].

Lemma allowances_hold_witness :
  let '(trace, s') := run_calls (crates := example_crates) (evm := example_evm) spending example_state in
  map snd trace = [Ok (); Ok (); Err (Revert «"trying to spend more than allowed"»)] /\
  total_spent (evm := example_evm) alice bob trace = 20%N /\
  replay (evm := example_evm) alice bob 0 trace = Some (allowed s' alice bob) /\
  (usable_balance (ledger example_state) carol <= usable_balance (ledger s') carol)%N.
Proof.
  assert (Hm : let t := (run_calls (crates := example_crates) (evm := example_evm) spending example_state).1 in
    map snd t = [Ok (); Ok (); Err (Revert «"trying to spend more than allowed"»)] /\
    total_spent (evm := example_evm) alice bob t = 20%N /\
    forallb (fun e => negb (acts (evm := example_evm) carol e)) t = true) by (vm_compute; done).
  destruct (run_calls spending example_state) as [trace s'] eqn:E. cbn [fst] in Hm. destruct Hm as (H1 & H2 & H3).
  destruct (allowances_hold (evm := example_evm) spending example_state s' trace alice bob carol E) as (Hr & _ & Hu).
  split; [exact H1|split; [exact H2|split; [exact Hr|]]].
  apply Hu; [intros sp; reflexivity | exact H3].
Defined.

(** A permit that the owner signed over the first nonce, sent twice: the second time it is refused. *)
Definition permit_owner : bytes := drop 12 (keccak256 (Crates := example_crates) [5%N]).
Definition permit_signed : bytes := generate_permit (crates := example_crates) (evm := example_evm) carol permit_owner bob 40 0 10.
Definition permit_call : Context * Call * N * N :=
  (mkContext carol bob 0, CallPermit permit_owner bob 40 10 27 permit_signed (replicate 32 0), 9, 9000)%N.

Lemma permits_used_once_witness :
  let '(trace, s') := run_calls (crates := example_crates) (evm := example_evm) [permit_call; permit_call] example_state in
  map snd trace = [Ok (); Err (Revert «"Invalid permit"»)] /\ current_nonce permit_owner s' = 1%N.
Proof.
  assert (Hm : map snd (run_calls (crates := example_crates) (evm := example_evm) [permit_call; permit_call] example_state).1 =
    [Ok (); Err (Revert «"Invalid permit"»)]) by (vm_compute; reflexivity).
  assert (Hf : length (List.filter (is_permit_of permit_owner)
    (run_calls (crates := example_crates) (evm := example_evm) [permit_call; permit_call] example_state).1) = 1) by (vm_compute; reflexivity).
  destruct (run_calls [permit_call; permit_call] example_state) as [trace s'] eqn:E. split; [exact Hm|].
  cbn [fst] in Hf.
  rewrite (proj1 (permits_used_once (evm := example_evm) _ _ _ _ permit_owner E)), Hf. vm_compute. reflexivity.
Defined.
