(* ===== verification/PortalPrecompile.v ===== *)
(** * The precompile of the quantum portal

    src/precompiles/quantum-portal/src/lib.rs: contracts of the EVM register and
    remove finalizers of the pallet.  A call that fails is undone by the EVM. *)

From S2P Require Import Prelude RustLang QuantumPortalPallet QuantumPortalClient BalancesErc20.

Section precompile.
  Context {evm : Evm}.

(** [RuntimeHelper::try_dispatch] with the account as signed origin; the gas of the
    dispatch is paid first. *)
Definition try_dispatch (gas : N) (origin : AccountId) (c : QuantumPortalPallet.Call) (s : QuantumPortalPallet.State) : outcome EvmError () * QuantumPortalPallet.State :=
  if (dispatch_cost <=? gas)%N then
    match dispatch (Signed origin) c s with
    | (Ok _, s') => (Ok (), s')
    | (Err _, _) => (Err DispatchFailed, s)
    | (Panic, s') => (Panic, s')
    end
  else (Err OutOfGas, s).

(** The finalizer given is not looked at: the caller is registered. *)
Definition precompile_register_finalizer (gas : N) (ctx : Context) (chain_id : N) (_finalizer : H160) (s : QuantumPortalPallet.State) : outcome EvmError () * QuantumPortalPallet.State :=
  let origin := into_account_id (caller ctx) in
  match as_u64 chain_id with
  | Ok chain_id => try_dispatch gas origin (RegisterFinalizer chain_id origin) s
  | Err e => (Err e, s)
  | Panic => (Panic, s)
  end.

Definition precompile_remove_finalizer (gas : N) (ctx : Context) (chain_id : N) (_finalizer : H160) (s : QuantumPortalPallet.State) : outcome EvmError () * QuantumPortalPallet.State :=
  let origin := into_account_id (caller ctx) in
  match as_u64 chain_id with
  | Ok chain_id => try_dispatch gas origin (RemoveFinalizer chain_id origin) s
  | Err e => (Err e, s)
  | Panic => (Panic, s)
  end.

(** Registering through the precompile adds one registration of the caller, and
    of nobody else; removing takes it back. *)
Lemma precompile_register_remove gas ctx chain_id f f' s r s1 a c :
  precompile_register_finalizer gas ctx chain_id f s = (r, s1) -> is_ok r = true ->
  registrations a (finalizers s1 c) =
    registrations a (finalizers s c) + (if bool_decide (chain_id = c /\ into_account_id (caller ctx) = a) then 1 else 0) /\
  let '(r2, s2) := precompile_remove_finalizer gas ctx chain_id f' s1 in
  is_ok r2 = true /\ registrations a (finalizers s2 c) = registrations a (finalizers s c).
Proof.
  unfold precompile_register_finalizer, precompile_remove_finalizer, as_u64. destruct (chain_id <? 2 ^ 64)%N; [|by intros [= <- _]].
  unfold try_dispatch. destruct (_ <=? gas)%N; [|by intros [= <- _]]. set (o := into_account_id (caller ctx)).
  pose proof (dispatch_registrations (Signed o) (RegisterFinalizer chain_id o) s c a) as H1.
  pose proof (dispatch_registrations (Signed o) (RegisterFinalizer chain_id o) s chain_id o) as H0.
  destruct (dispatch (Signed o) (RegisterFinalizer chain_id o) s) as [r1 s1'] eqn:E1. injection E1 as <- <-.
  intros [= <- <-] _. set (s1' := with_finalizers _ _) in *.
  pose proof (dispatch_registrations (Signed o) (RemoveFinalizer chain_id o) s1' c a) as H2.
  pose proof (dispatch_accepted (Signed o) (RemoveFinalizer chain_id o) s1') as H3. cbn [call_accepted] in H3.
  cbn [registration_change] in H0, H1, H2. rewrite bool_decide_true in H0 by done.
  destruct (dispatch (Signed o) (RemoveFinalizer chain_id o) s1') as [r2 s2]. cbn [fst] in H3.
  split; [case_bool_decide; lia|]. destruct r2 as [[]|e|]; cbn [is_ok] in H3.
  - split; [done|]. case_bool_decide; lia.
  - exfalso. assert (false = true) by (apply H3; lia). done.
  - exfalso. assert (false = true) by (apply H3; lia). done.
Qed.

End precompile.
