(* ===== verification/InkContracts.v ===== *)
(** * The ink contracts that call the EVM

    src/contracts/erc20/lib.rs and src/contracts/multi-chain-staking/src/lib.rs.
    The chain extension that carries a call to the EVM and the encoder of the
    ethabi crate are parameters; the calls made are kept in order. *)

From S2P Require Import Prelude RustLang EthAbi.

Definition EVM_ID : N := 0x0F.
Definition APPROVE_SELECTOR : bytes := [0x09; 0x5e; 0xa7; 0xb3]%N.
Definition TRANSFER_SELECTOR : bytes := [0xa9; 0x05; 0x9c; 0xbb]%N.
Definition TRANSFER_FROM_SELECTOR : bytes := [0x23; 0xb8; 0x72; 0xdd]%N.
Definition QP_SELECTOR : bytes := [0xc1; 0x54; 0xc6; 0x28]%N.
Definition STAKE_REMOTE : bytes := [0x31; 0x83; 0xe7; 0x30]%N.

Inductive Error := InsufficientBalance | RemoteExecutionFailed.

Record XvmCall := mkXvmCall { vm : N; target : bytes; input : bytes }.

Record Erc20 := mkErc20 { evm_address : bytes }.
Record QpStaking := mkQpStaking {
  qp_contract_address : bytes; master_chain_id : N; master_contract_address : bytes; base_token : bytes }.

Section ink.
  Context (ethabi_encode : list Token -> bytes) {Vm : Type} (xvm_call : XvmCall -> Vm -> bool * Vm).

(** The world: the machine that is called, and the calls *)
Abbreviation World := (Vm * list XvmCall)%type.

Definition do_call (c : XvmCall) (w : World) : bool * World :=
  let '(ok, v) := xvm_call c w.1 in (ok, (v, w.2 ++ [c])).

Definition approve_encode (to_ : bytes) (value : N) : bytes := APPROVE_SELECTOR ++ ethabi_encode [Address to_; Uint value].
Definition transfer_encode (to_ : bytes) (value : N) : bytes := TRANSFER_SELECTOR ++ ethabi_encode [Address to_; Uint value].
Definition transfer_from_encode (from to_ : bytes) (value : N) : bytes :=
  TRANSFER_FROM_SELECTOR ++ ethabi_encode [Address from; Address to_; Uint value].

Definition erc20_approve (c : Erc20) (to_ : bytes) (value : N) : World -> bool * World :=
  do_call (mkXvmCall EVM_ID (evm_address c) (approve_encode to_ value)).
Definition erc20_transfer (c : Erc20) (to_ : bytes) (value : N) : World -> bool * World :=
  do_call (mkXvmCall EVM_ID (evm_address c) (transfer_encode to_ value)).
Definition erc20_transfer_from (c : Erc20) (from to_ : bytes) (value : N) : World -> bool * World :=
  do_call (mkXvmCall EVM_ID (evm_address c) (transfer_from_encode from to_ value)).

(** The first twenty bytes of an account *)
Definition h160 (account : bytes) : bytes := take 20 account.

Definition qp_encode (c : QpStaking) (fee : N) (sender_address : bytes) : bytes :=
  QP_SELECTOR ++ ethabi_encode
    [Uint fee; Uint (master_chain_id c); Address (master_contract_address c); Address sender_address;
     Address (base_token c); Bytes STAKE_REMOTE].

Definition stake (c : QpStaking) (caller : bytes) (amount fee : N) (w : World) : outcome Error () * World :=
  let encoded_input := transfer_encode (qp_contract_address c) amount in
  let '(ok, w) := do_call (mkXvmCall EVM_ID (base_token c) encoded_input) w in
  if negb ok then (Err InsufficientBalance, w)
  else
    let encoded_input := qp_encode c fee (h160 caller) in
    let '(qp_result, w) := do_call (mkXvmCall EVM_ID (qp_contract_address c) encoded_input) w in
    (if qp_result then Ok () else Err RemoteExecutionFailed, w).

Definition stake_transfer (c : QpStaking) (amount : N) : XvmCall := mkXvmCall EVM_ID (base_token c) (transfer_encode (qp_contract_address c) amount).
Definition stake_run (c : QpStaking) (caller : bytes) (fee : N) : XvmCall := mkXvmCall EVM_ID (qp_contract_address c) (qp_encode c fee (h160 caller)).

(** Staking runs the remote call only after the transfer succeeded, each at most
    once, and the result tells which of the two failed. *)
Lemma stake_in_order (c : QpStaking) (caller : bytes) (amount fee : N) (w : World) :
  let '(r, w') := stake c caller amount fee w in
  (r = Err InsufficientBalance /\ (xvm_call (stake_transfer c amount) w.1).1 = false /\ w'.2 = w.2 ++ [stake_transfer c amount]) \/
  ((xvm_call (stake_transfer c amount) w.1).1 = true /\ w'.2 = w.2 ++ [stake_transfer c amount; stake_run c caller fee] /\
   r = if fst (xvm_call (stake_run c caller fee) (snd (xvm_call (stake_transfer c amount) w.1))) then Ok () else Err RemoteExecutionFailed).
Proof.
  unfold stake, do_call. fold (stake_transfer c amount). fold (stake_run c caller fee).
  destruct (xvm_call (stake_transfer c amount) w.1) as [[|] v]; cbn; [|by left].
  destruct (xvm_call (stake_run c caller fee) v) as [ok v']. right. cbn. by rewrite <- app_assoc.
Qed.

End ink.
